(* ===== verification/_CoqProject ===== *)
-Q . S2P
Prelude.v
Platform.v
ThreadPool.v
Dispatcher.v
EventLoop.v
Handoff.v
Connection.v
Address.v
Stream.v
Dgram.v
Options.v
Socket.v
Waker.v
Iocp.v
Transfer.v
UdpMux.v
StreamClient.v
DgramIO.v
DgramSocket.v
Echo.v
Server.v
ServerLife.v
Handles.v
MuxDrain.v
Startup.v
Dns.v
