(* ===== verification/Prelude.v ===== *)
(** * Socket++: a verification library

    socketpp is a C++ networking library: sockets and socket options, an event
    loop over epoll, kqueue or IOCP, a thread pool with serial queues, and on
    top of them streams (TCP) and datagram sockets (UDP) whose callbacks run on
    the pool.  This development models its own logic and proves what the rest
    of a program relies on.  C++ sources are named relative to [src/].

    ** The parts and how they interact

    User threads call the high-level objects.  A call changes the object's state
    under its lock and posts the rest to the object's event loop
    ([event_loop::post]); the loop's thread runs what was posted and the events
    of its [dispatcher]; user callbacks are submitted to a [serial_queue], which
    runs them one at a time on the workers of the [thread_pool].

    ** Files

    - [Prelude] (this file): scope, tactics, hints, machine integers, bytes and
      list lemmas shared by all files.
    - [Platform]: [platform/error.hpp], [error.cpp], [types.hpp],
      [capabilities.hpp], and the event masks of [event/dispatcher.hpp].  Errors
      are values; [result<T>] is [result] and [result<void>] is [result_void].
    - [ThreadPool]: [high/thread_pool], [high/serial_queue.hpp].  [pool_submit],
      [worker_wakeup], [serial_submit], [serial_drain] are the critical
      sections; [Machine.step] interleaves them over any number of workers,
      queues and callers.
    - [Dispatcher]: the class [Dispatcher] with its laws is the interface of
      [event/dispatcher.hpp]; [Epoll] and [Kqueue] model [event/epoll.cpp] and
      [event/kqueue.cpp] and are proved to implement it; [map_dispatcher] is a
      reference implementation.
    - [EventLoop]: [event/loop.hpp], [event/loop.cpp] ([Machine]: the posting
      threads, the loop and its two queues) and [event/timer.hpp] ([Handle]).
    - [Handoff]: [post], [defer] and [repeat] of streams, datagram sockets and
      peers, over the queues of [EventLoop] and [ThreadPool].
    - [Connection]: [high/connection_engine.hpp] and
      [high/stream_connection_impl.hpp], cut at their critical sections, over
      any dispatcher that satisfies the interface.
    - [Address]: [net/address], [net/inet4], [net/inet6] as byte layouts.
    - [Stream]: the server side of [high/stream.cpp] and the accept loop of
      [socket/tcp_accept_loop.cpp].
    - [Dgram]: receiving, routing and claiming of [high/dgram.cpp] and
      [high/dgram_peer_impl.hpp].
    - [Options]: [socket/options.hpp], [socket/options.cpp]: the small vector
      with the lifetimes of its inline objects, the builder, and the application
      of the options as a sequence of system calls.
    - [Socket]: [socket/socket], [socket/tcp_listener.cpp],
      [socket/tcp_connector.cpp], [socket/tcp_connect_async.cpp] and the opening
      of [socket/udp.cpp], in a state monad over the kernel.
    - [Waker]: [event/waker.hpp], the constructors and destructors of the epoll
      and kqueue dispatchers, and [poll] and [wake] of the latter.
    - [Iocp]: [event/iocp.cpp], the third back end of the dispatcher interface,
      over a class of completion ports, overlapped operations and timers.
    - [Transfer]: sending and receiving of [socket/tcp.cpp], [socket/udp.cpp] and
      [socket/udp_recv_async.cpp], single, scattered and in batches.
    - [UdpMux]: the spin lock of [platform/spinlock.hpp] ([Spin]) and the connected
      peers of [socket/udp_peer.cpp], on POSIX as sockets, on Windows over the
      multiplexer of [socket/udp_mux.hpp], as an interleaving of callers and the
      multiplexer's thread.
    - [StreamClient]: the factories of [high/stream.cpp] and its connecting mode,
      composed with the asynchronous connection of [Socket].
    - [DgramIO]: sending of [high/dgram.cpp] and [high/dgram_peer_impl.hpp], the
      receive loop of a peer, and that of a socket composed from [Transfer] and
      [Dgram].
    - [DgramSocket]: the rest of [high/dgram.cpp] and [high/dgram_peer_impl.hpp]:
      arming, pausing and resuming ([Registration]), creation, the claiming of
      peers, their handles ([high/dgram_peer.cpp]) and destruction ([Life]).
    - [Server]: a listening stream of [high/stream.cpp] put together from [Stream]:
      the calls of the user, the posted lambdas and both accept handlers.
    - [ServerLife]: the same over descriptors: [do_listen], the accept loop turn by
      turn, the handler, the tasks of the pool, closing and destruction.
    - [Handles]: the classes of [high/stream.cpp] and [high/dgram.cpp] as a program
      uses them: creation, moves, destruction ([Unique]), and the connection that an
      [on_connect] handler is given ([Shared]).
    - [Startup]: [platform/wsa_init.cpp], as threads under [std::call_once].
    - [MuxDrain]: [udp_mux::on_readable], the polling way to read a multiplexer.
    - [Echo]: the handlers of [examples/tcp_echo_server.cpp] on the machine of
      [Connection].
    - [Dns]: the messages of [examples/udp_dns_query.cpp].

    ** What the theorems show

    - Connections: the bytes sent are a prefix of the bytes accepted, in order,
      for every interleaving ([stream_integrity]); queued data is always waited
      for ([no_stuck_data]); the queue is bounded, draining terminates, closing
      happens once.
    - Pool and serial queues: callbacks of a queue never overlap and run in
      order; the workers finish everything; shutdown loses nothing.
    - Event loop: the two buffers are one FIFO queue, no wake-up is lost, posted
      callbacks run, a stop ends the loop; timer handles are linear; callbacks
      handed through the loop to the pool keep their order.
    - Dispatchers: the three back ends refine the interface, so that what holds
      of connections holds on each; timers are registered and cancelled exactly;
      on completion ports every interest keeps an operation outstanding through
      every poll, and datagrams are queued once and in order; a waker is a flag;
      construction and destruction keep descriptors in balance.
    - Streams and datagrams: the table of connections is exact and within its
      limit, destruction closes everything, the back-off of the accept loop; a
      client is told once how its connection ended;
      each datagram is routed once, with its bytes; pausing and resuming settle on
      the registration they promise; from creation to destruction a datagram
      socket and its peers leave nothing behind; a multiplexed peer gets exactly
      its datagrams, in order; a server is armed once and only by [on_connect], and
      keeps its descriptors in balance from [listen] to its destruction.
    - Programs on top: handles shut down and delete what they own once
      ([handles_refine]); the echo server returns the bytes it receives
      ([echo_integrity], from the invariant of connections); the DNS client parses
      any input within its bounds and returns exactly the records of a well-formed
      answer to its query.
    - Transfers: the batch calls are equivalent to the portable loops and to
      single sends; the receive loops end and keep the order; counts stay within
      buffers and lengths within the types of the calls.
    - Sockets and options: no descriptor leaks or is closed twice; an
      asynchronous connection is decided once; applying options makes the calls
      they stand for; the small vector is a list.
    - Addresses: round trips of construction, text and mapped forms; comparison
      and hashing are lawful.
    - The [error] properties record behaviour a caller should know: a refused
      drain wedges its queue, a send undoes a pause, a batch overrun when a peer
      is relinquished meanwhile, descriptor reuse in the connection table and
      between peers, pause closing the listener, multiplexer failures that hang
      or evict another peer, the destruction of a stream that is connecting, an
      assignment to a live handle, a connection moved out of its [on_connect].

    ** Choices

    - Machine integers are [Z] with their wrap-around written out ([u32],
      [u64]).  The results on [size_t] counters assume what fits in memory: the
      limits and lengths of [Connection] are below 2^62 and 2^63.
    - Threads interleave at critical sections and single atomic accesses, each
      atomic and sequentially consistent.  Mutexes, condition variables and the
      spin lock, which [UdpMux.Spin] proves to exclude, appear as this atomicity.
    - The operating system is an argument of the definitions: the classes of
      kernel operations in [Dispatcher], [Options], [Socket], [Waker], [Iocp],
      [Transfer], [UdpMux] and [DgramIO], what [send] returns in [Connection], what [accept] and [recv_batch] return in [Stream]
      and [Dgram], [inet_pton] and [inet_ntop] in [Address].  Their documented
      behaviour is stated as the laws of a class, and each class has a concrete
      instance on which the witnesses run.
    - Undefined behaviour is [None], or [Undefined] where a program may also be
      terminated or hang.
    - Loops recurse on their data.  Fuel is needed by [drain_write_queue],
      [peer_handle_readable], [on_readable], the draining of a pipe and
      [skip_dns_name]; that the queued bytes, the waiting datagrams, the waiting
      bytes and the length of the message bound it is proved in [drain_terminates],
      [peer_reads_in_order], [mux_drains], [waker_refines_flag] and
      [dns_parse_safe].  The
      bound of eight batches of [handle_readable] is the source's own.

    ** Not modelled

    What the examples print and how long they wait, besides the messages of the DNS
    client and the handlers of the TCP echo server; the benchmarks and tests.  The
    getters of the high-level classes and the functions that only forward to an
    implementation have no definition of their own: what they forward to is
    modelled. *)

From stdpp Require Export base tactics numbers list gmap fin_maps strings.
From Stdlib Require Export ZArith Lia.

#[global] Set Default Goal Selector "!".

(** ** Scope, hints and tactics of the development *)

Declare Scope socketpp_scope.
Delimit Scope socketpp_scope with spp.
Open Scope socketpp_scope.

Create HintDb spp.
Create Rewrite HintDb spp.

(** Case analysis on the guard of the first [if] or [match] in the goal. *)
Ltac split_guard :=
  match goal with
  | |- context [if ?b then _ else _] => destruct b eqn:?
  | |- context [match ?x with _ => _ end] => destruct x eqn:?
  end.

(** Inversion followed by substitution and clean-up. *)
Ltac invs H := inversion H; clear H; simplify_eq/=.

(** Turns the boolean tests of the source into propositions [lia] can use. *)
Ltac bool_facts :=
  repeat match goal with
  | H : (_ && _)%bool = true |- _ => apply andb_true_iff in H as [? ?]
  | H : (_ || _)%bool = false |- _ => apply orb_false_iff in H as [? ?]
  | H : negb _ = true |- _ => apply negb_true_iff in H
  | H : negb _ = false |- _ => apply negb_false_iff in H
  | H : (_ =? _)%Z = true |- _ => apply Z.eqb_eq in H
  | H : (_ =? _)%Z = false |- _ => apply Z.eqb_neq in H
  | H : (_ <? _)%Z = true |- _ => apply Z.ltb_lt in H
  | H : (_ <? _)%Z = false |- _ => apply Z.ltb_ge in H
  | H : (_ <=? _)%Z = true |- _ => apply Z.leb_le in H
  | H : (_ <=? _)%Z = false |- _ => apply Z.leb_gt in H
  | H : (_ =? _)%nat = true |- _ => apply Nat.eqb_eq in H
  | H : (_ =? _)%nat = false |- _ => apply Nat.eqb_neq in H
  | H : (_ <? _)%nat = true |- _ => apply Nat.ltb_lt in H
  | H : (_ <? _)%nat = false |- _ => apply Nat.ltb_ge in H
  | H : (_ <=? _)%nat = true |- _ => apply Nat.leb_le in H
  | H : (_ <=? _)%nat = false |- _ => apply Nat.leb_gt in H
  end.

(** ** Invariants of step relations *)

Section Reachability.
Context {State : Type} (step : State → State → Prop).

(** A predicate kept by every step is kept along every execution. *)
Lemma rtc_preserves (P : State → Prop) s s' :
  (∀ a b, step a b → P a → P b) → rtc step s s' → P s → P s'.
Proof. intros Hstep Hrtc. induction Hrtc; eauto. Qed.

(** The same under a second predicate already known to be an invariant. *)
Lemma rtc_preserves_under (Q P : State → Prop) s s' :
  (∀ a b, step a b → Q a → Q b) →
  (∀ a b, step a b → Q a → P a → P b) →
  rtc step s s' → Q s → P s → P s'.
Proof. intros HQ HP Hrtc. induction Hrtc; eauto. Qed.

End Reachability.

(** ** Machine integers and bytes *)

Definition wrap (w z : Z) : Z := (z mod 2 ^ w)%Z.
Abbreviation u8 := (wrap 8).
Abbreviation u16 := (wrap 16).
Abbreviation u32 := (wrap 32).
Abbreviation u64 := (wrap 64).

Definition in_width (w z : Z) : Prop := (0 ≤ z < 2 ^ w)%Z.

Lemma wrap_id w z : in_width w z → wrap w z = z.
Proof. intros H. apply Z.mod_small, H. Qed.

Lemma wrap_in_width w z : (0 ≤ w)%Z → in_width w (wrap w z).
Proof. intros H. apply Z.mod_pos_bound. by apply Z.pow_pos_nonneg. Qed.

(** A byte is a [Z] in [0, 256); a buffer is a list of them. *)
Abbreviation bytes := (list Z).
Definition is_byte (b : Z) : Prop := (0 ≤ b < 256)%Z.

(** Little- and big-endian images of an integer in [n] bytes. *)
Fixpoint le_bytes (n : nat) (z : Z) : bytes :=
  match n with
  | O => []
  | S n' => (z mod 256)%Z :: le_bytes n' (z / 256)%Z
  end.

Fixpoint le_value (l : bytes) : Z :=
  match l with
  | [] => 0%Z
  | b :: l' => (b + 256 * le_value l')%Z
  end.

Definition be_bytes (n : nat) (z : Z) : bytes := reverse (le_bytes n z).
Definition be_value (l : bytes) : Z := le_value (reverse l).

Lemma length_le_bytes n z : length (le_bytes n z) = n.
Proof. revert z. induction n; simpl; auto. Qed.

Lemma length_be_bytes n z : length (be_bytes n z) = n.
Proof. unfold be_bytes. by rewrite length_reverse, length_le_bytes. Qed.

Lemma le_bytes_are_bytes n z : Forall is_byte (le_bytes n z).
Proof.
  revert z. induction n as [|n IH]; intros z; simpl; constructor; [|apply IH].
  apply Z.mod_pos_bound. lia.
Qed.

Lemma be_bytes_are_bytes n z : Forall is_byte (be_bytes n z).
Proof. apply Forall_reverse, le_bytes_are_bytes. Qed.

Lemma le_value_bytes n z :
  in_width (8 * Z.of_nat n) z → le_value (le_bytes n z) = z.
Proof.
  unfold in_width. revert z. induction n as [|n IH]; intros z Hz; simpl.
  - change (2 ^ (8 * Z.of_nat 0))%Z with 1%Z in Hz. lia.
  - replace (8 * Z.of_nat (S n))%Z with (8 + 8 * Z.of_nat n)%Z in Hz by lia.
    rewrite Z.pow_add_r in Hz by lia. change (2 ^ 8)%Z with 256%Z in Hz.
    rewrite IH; [pose proof (Z.div_mod z 256); lia|].
    split; [apply Z.div_pos; lia|]. apply Z.div_lt_upper_bound; lia.
Qed.

Lemma le_bytes_value l n :
  length l = n → Forall is_byte l → le_bytes n (le_value l) = l.
Proof.
  intros <-. unfold is_byte. induction 1 as [|b l Hb Hl IH]; simpl; [done|].
  f_equal.
  - rewrite Z.mul_comm, Z.mod_add by lia. by apply Z.mod_small.
  - rewrite Z.mul_comm, Z.div_add by lia. by rewrite Z.div_small by done.
Qed.

Lemma le_value_width l : Forall is_byte l → in_width (8 * Z.of_nat (length l)) (le_value l).
Proof.
  unfold in_width, is_byte. induction 1 as [|b l Hb Hl IH]; simpl; [done|].
  replace (8 * Z.of_nat (S (length l)))%Z with (8 + 8 * Z.of_nat (length l))%Z by lia.
  rewrite Z.pow_add_r by lia. change (2 ^ 8)%Z with 256%Z. lia.
Qed.

Lemma be_value_bytes n z :
  in_width (8 * Z.of_nat n) z → be_value (be_bytes n z) = z.
Proof.
  intros H. unfold be_value, be_bytes. rewrite reverse_involutive.
  by apply le_value_bytes.
Qed.

Lemma be_bytes_value l n :
  length l = n → Forall is_byte l → be_bytes n (be_value l) = l.
Proof.
  intros Hn Hl. unfold be_bytes, be_value.
  rewrite le_bytes_value; [apply reverse_involutive|by rewrite length_reverse|].
  by apply Forall_reverse.
Qed.

Lemma be_value_inj l1 l2 :
  length l1 = length l2 → Forall is_byte l1 → Forall is_byte l2 →
  be_value l1 = be_value l2 → l1 = l2.
Proof.
  intros Hlen H1 H2 E.
  rewrite <- (be_bytes_value l1 (length l1)), <- (be_bytes_value l2 (length l1)) by auto.
  by rewrite E.
Qed.

#[export] Hint Resolve le_bytes_are_bytes be_bytes_are_bytes : spp.
#[export] Hint Rewrite length_le_bytes length_be_bytes : spp.

(** ** [memcpy] and [memcmp] *)

(** [memcpy(dst + off, src, |src|)]: [None] when the copy leaves the buffer. *)
Definition memcpy (dst : bytes) (off : nat) (src : bytes) : option bytes :=
  if (off + length src <=? length dst)%nat
  then Some (take off dst ++ src ++ drop (off + length src) dst)
  else None.

Lemma length_memcpy dst off src dst' :
  memcpy dst off src = Some dst' → length dst' = length dst.
Proof.
  unfold memcpy. split_guard; [|done]. intros [= <-]. bool_facts.
  rewrite !length_app, length_take, length_drop. lia.
Qed.

(** The sign of [memcmp] on two buffers of the same length: the order of the
    first byte on which they differ. *)
Fixpoint memcmp (l r : bytes) : comparison :=
  match l, r with
  | x :: l', y :: r' =>
      match (x ?= y)%Z with Eq => memcmp l' r' | c => c end
  | _, _ => Eq
  end.

Lemma memcmp_refl l : memcmp l l = Eq.
Proof. induction l; simpl; [done|]. by rewrite Z.compare_refl. Qed.

Lemma memcmp_eq l r : length l = length r → memcmp l r = Eq ↔ l = r.
Proof.
  intros Hlen. split; [|intros ->; apply memcmp_refl].
  revert r Hlen. induction l as [|x l IH]; intros [|y r] Hlen; simplify_eq/=; [done|].
  destruct (Z.compare_spec x y); [|done..]. subst. intros. f_equal. auto.
Qed.

Lemma memcmp_antisym l r : memcmp r l = CompOpp (memcmp l r).
Proof.
  revert r. induction l as [|x l IH]; intros [|y r]; simpl; [done..|].
  rewrite (Z.compare_antisym x y). destruct (x ?= y)%Z; simpl; auto.
Qed.

Lemma memcmp_lt_trans l m r :
  length l = length m → length m = length r →
  memcmp l m = Lt → memcmp m r = Lt → memcmp l r = Lt.
Proof.
  revert m r. induction l as [|x l IH]; intros [|y m] [|z r] H1 H2; simplify_eq/=; [done|].
  destruct (Z.compare_spec x y), (Z.compare_spec y z); subst; simpl; try done.
  - rewrite Z.compare_refl. eauto.
  - intros. by rewrite (proj2 (Z.compare_lt_iff _ _)).
  - intros. by rewrite (proj2 (Z.compare_lt_iff _ _)).
  - intros. rewrite (proj2 (Z.compare_lt_iff x z)) by lia. done.
Qed.

(** ** Lists *)

Lemma sum_list_app (l k : list nat) : sum_list (l ++ k) = (sum_list l + sum_list k)%nat.
Proof. induction l; simpl; lia. Qed.

Lemma length_concat {A} (ls : list (list A)) :
  length (concat ls) = sum_list (length <$> ls).
Proof. induction ls as [|l ls IH]; csimpl; [done|]. by rewrite length_app, IH. Qed.

(** The number of elements satisfying a boolean test. *)
Definition count {A} (p : A → bool) (l : list A) : nat := length (List.filter p l).

Lemma count_nil {A} (p : A → bool) : count p [] = 0%nat.
Proof. done. Qed.

Lemma count_app {A} (p : A → bool) l k : count p (l ++ k) = (count p l + count p k)%nat.
Proof. unfold count. by rewrite List.filter_app, length_app. Qed.

Lemma count_cons {A} (p : A → bool) x l :
  count p (x :: l) = ((if p x then 1 else 0) + count p l)%nat.
Proof. unfold count. simpl. destruct (p x); simpl; lia. Qed.

(** Updating one element changes the count by the change at that element. *)
Lemma count_insert {A} (p : A → bool) (l : list A) i x y :
  l !! i = Some x →
  (count p (<[i:=y]> l) + (if p x then 1 else 0)
   = count p l + (if p y then 1 else 0))%nat.
Proof.
  revert i. induction l as [|z l IH]; intros [|i] Hi; simplify_eq/=.
  - rewrite !count_cons. lia.
  - rewrite !count_cons. specialize (IH _ Hi). lia.
Qed.

Lemma count_pos {A} (p : A → bool) (l : list A) i x :
  l !! i = Some x → p x = true → (1 ≤ count p l)%nat.
Proof.
  revert i. induction l as [|z l IH]; intros [|i] Hi Hp; simplify_eq/=; rewrite count_cons.
  - rewrite Hp. lia.
  - specialize (IH _ Hi Hp). lia.
Qed.

Lemma count_two {A} (p : A → bool) (l : list A) i j x y :
  i ≠ j → l !! i = Some x → l !! j = Some y → p x = true → p y = true →
  (2 ≤ count p l)%nat.
Proof.
  revert i j. induction l as [|z l IH]; intros [|i] [|j] Hij Hi Hj Hx Hy;
    simplify_eq/=; rewrite count_cons.
  - rewrite Hx. pose proof (count_pos _ _ _ _ Hj Hy). lia.
  - rewrite Hy. pose proof (count_pos _ _ _ _ Hi Hx). lia.
  - assert (i ≠ j) as Hne by congruence. pose proof (IH i j Hne Hi Hj Hx Hy). lia.
Qed.

Lemma count_zero {A} (p : A → bool) (l : list A) i x :
  count p l = 0%nat → l !! i = Some x → p x = false.
Proof.
  intros H0 Hi. destruct (p x) eqn:E; [|done].
  pose proof (count_pos _ _ _ _ Hi E). lia.
Qed.

(** The sum of a measure over a list, and its change at an updated element. *)
Definition total {A} (f : A → nat) (l : list A) : nat := sum_list (f <$> l).

Lemma total_app {A} (f : A → nat) l k : total f (l ++ k) = (total f l + total f k)%nat.
Proof. unfold total. by rewrite fmap_app, sum_list_app. Qed.

Lemma total_cons {A} (f : A → nat) x l : total f (x :: l) = (f x + total f l)%nat.
Proof. done. Qed.

Lemma total_insert {A} (f : A → nat) (l : list A) i x y :
  l !! i = Some x → (total f (<[i:=y]> l) + f x = total f l + f y)%nat.
Proof.
  revert i. induction l as [|z l IH]; intros [|i] Hi; simplify_eq/=; rewrite !total_cons; [lia|].
  specialize (IH _ Hi). lia.
Qed.
