(* ===== verification/Platform.v ===== *)
(** * Errors, results, spans and event masks

    [src/include/socketpp/platform/error.hpp], [src/src/platform/error.cpp],
    the [span] of [src/include/socketpp/platform/types.hpp], the [io_event]
    mask of [src/include/socketpp/event/dispatcher.hpp] and the platform
    switches of [src/include/socketpp/platform/capabilities.hpp].

    The numeric error constants come from the platform's headers: they are
    fields of [posix_errno] and [wsa_errno], and the theorems that need them
    distinct (as the [switch] in the source needs them) say so. *)

From S2P Require Import Prelude.

Local Open Scope Z_scope.

(** ** Portable codes *)

Inductive errc :=
| success | would_block | in_progress | connection_reset | connection_refused
| connection_aborted | not_connected | address_in_use | network_unreachable
| timed_out | option_not_supported | already_bound | peer_not_found
| invalid_state | interrupted | fd_limit_reached | missing_scope_id
| invalid_argument.

#[export] Instance errc_eq_dec : EqDecision errc.
Proof. solve_decision. Defined.

(** The enumerators in declaration order, numbered from 0. *)
Definition errc_all : list errc :=
  [success; would_block; in_progress; connection_reset; connection_refused;
   connection_aborted; not_connected; address_in_use; network_unreachable;
   timed_out; option_not_supported; already_bound; peer_not_found;
   invalid_state; interrupted; fd_limit_reached; missing_scope_id;
   invalid_argument].

Definition errc_value (e : errc) : Z :=
  match e with
  | success => 0 | would_block => 1 | in_progress => 2 | connection_reset => 3
  | connection_refused => 4 | connection_aborted => 5 | not_connected => 6
  | address_in_use => 7 | network_unreachable => 8 | timed_out => 9
  | option_not_supported => 10 | already_bound => 11 | peer_not_found => 12
  | invalid_state => 13 | interrupted => 14 | fd_limit_reached => 15
  | missing_scope_id => 16 | invalid_argument => 17
  end.

(** [error_category_impl::message]. *)
Definition errc_message (ev : Z) : string :=
  match list_find (λ e, errc_value e = ev) errc_all with
  | Some (_, success) => "success"
  | Some (_, would_block) => "operation would block"
  | Some (_, in_progress) => "operation in progress"
  | Some (_, connection_reset) => "connection reset by peer"
  | Some (_, connection_refused) => "connection refused"
  | Some (_, connection_aborted) => "connection aborted"
  | Some (_, not_connected) => "socket not connected"
  | Some (_, address_in_use) => "address already in use"
  | Some (_, network_unreachable) => "network unreachable"
  | Some (_, timed_out) => "operation timed out"
  | Some (_, option_not_supported) => "option not supported on this platform"
  | Some (_, already_bound) => "socket already bound"
  | Some (_, peer_not_found) => "peer not found"
  | Some (_, invalid_state) => "invalid socket state"
  | Some (_, interrupted) => "operation interrupted"
  | Some (_, fd_limit_reached) => "file descriptor limit reached"
  | Some (_, missing_scope_id) => "link-local address requires a scope id"
  | Some (_, invalid_argument) => "invalid argument"
  | None => "unknown socketpp error"
  end.

(** ** [std::error_code] *)

(** The library's own category and the two of the C++ standard library. *)
Inductive category := cat_socketpp | cat_system | cat_generic.

#[export] Instance category_eq_dec : EqDecision category.
Proof. solve_decision. Defined.

Record error_code := mk_error_code { ec_value : Z; ec_category : category }.

#[export] Instance error_code_eq_dec : EqDecision error_code.
Proof. solve_decision. Defined.

(** [explicit operator bool]: the value is not zero. *)
Definition ec_bool (ec : error_code) : bool := negb (ec_value ec =? 0).

Definition ec_eqb (a b : error_code) : bool := bool_decide (a = b).

(** The default-constructed [std::error_code]. *)
Definition ec_none : error_code := mk_error_code 0 cat_system.

Definition make_error_code (e : errc) : error_code :=
  mk_error_code (errc_value e) cat_socketpp.

Lemma errc_value_inj e e' : errc_value e = errc_value e' → e = e'.
Proof. destruct e, e'; simpl; intros H; solve [reflexivity|discriminate H]. Qed.

Lemma make_error_code_inj e e' : make_error_code e = make_error_code e' → e = e'.
Proof. intros [= H]. by apply errc_value_inj. Qed.

(** ** Normalisation of platform errors *)

Record posix_errno := {
  EAGAIN : Z; EWOULDBLOCK : Z; EINPROGRESS : Z; ECONNRESET : Z; ECONNREFUSED : Z;
  ECONNABORTED : Z; ENOTCONN : Z; EADDRINUSE : Z; ENETUNREACH : Z; ETIMEDOUT : Z;
  EINTR : Z; EMFILE : Z; ENFILE : Z
}.

Record wsa_errno := {
  WSAEWOULDBLOCK : Z; WSAEINPROGRESS : Z; WSAECONNRESET : Z; WSAECONNREFUSED : Z;
  WSAECONNABORTED : Z; WSAENOTCONN : Z; WSAEADDRINUSE : Z; WSAENETUNREACH : Z;
  WSAETIMEDOUT : Z; WSAEINTR : Z; WSAEMFILE : Z
}.

(** The values on the three platforms, for concrete runs. *)
Definition linux_errno : posix_errno :=
  {| EAGAIN := 11; EWOULDBLOCK := 11; EINPROGRESS := 115; ECONNRESET := 104;
     ECONNREFUSED := 111; ECONNABORTED := 103; ENOTCONN := 107; EADDRINUSE := 98;
     ENETUNREACH := 101; ETIMEDOUT := 110; EINTR := 4; EMFILE := 24; ENFILE := 23 |}.
Definition macos_errno : posix_errno :=
  {| EAGAIN := 35; EWOULDBLOCK := 35; EINPROGRESS := 36; ECONNRESET := 54;
     ECONNREFUSED := 61; ECONNABORTED := 53; ENOTCONN := 57; EADDRINUSE := 48;
     ENETUNREACH := 51; ETIMEDOUT := 60; EINTR := 4; EMFILE := 24; ENFILE := 23 |}.
Definition windows_errno : wsa_errno :=
  {| WSAEWOULDBLOCK := 10035; WSAEINPROGRESS := 10036; WSAECONNRESET := 10054;
     WSAECONNREFUSED := 10061; WSAECONNABORTED := 10053; WSAENOTCONN := 10057;
     WSAEADDRINUSE := 10048; WSAENETUNREACH := 10051; WSAETIMEDOUT := 10060;
     WSAEINTR := 10004; WSAEMFILE := 10024 |}.

(** [last_socket_error] on POSIX: [errno] in the system category. *)
Definition last_socket_error (errno : Z) : error_code := mk_error_code errno cat_system.

(** The [switch] of [normalize_error], the POSIX branch and the Windows one. *)
Definition posix_switch (t : posix_errno) (code : Z) : option errc :=
  if code =? EAGAIN t then Some would_block
  else if code =? EWOULDBLOCK t then Some would_block
  else if code =? EINPROGRESS t then Some in_progress
  else if code =? ECONNRESET t then Some connection_reset
  else if code =? ECONNREFUSED t then Some connection_refused
  else if code =? ECONNABORTED t then Some connection_aborted
  else if code =? ENOTCONN t then Some not_connected
  else if code =? EADDRINUSE t then Some address_in_use
  else if code =? ENETUNREACH t then Some network_unreachable
  else if code =? ETIMEDOUT t then Some timed_out
  else if code =? EINTR t then Some interrupted
  else if code =? EMFILE t then Some fd_limit_reached
  else if code =? ENFILE t then Some fd_limit_reached
  else None.

Definition windows_switch (t : wsa_errno) (code : Z) : option errc :=
  if code =? WSAEWOULDBLOCK t then Some would_block
  else if code =? WSAEINPROGRESS t then Some in_progress
  else if code =? WSAECONNRESET t then Some connection_reset
  else if code =? WSAECONNREFUSED t then Some connection_refused
  else if code =? WSAECONNABORTED t then Some connection_aborted
  else if code =? WSAENOTCONN t then Some not_connected
  else if code =? WSAEADDRINUSE t then Some address_in_use
  else if code =? WSAENETUNREACH t then Some network_unreachable
  else if code =? WSAETIMEDOUT t then Some timed_out
  else if code =? WSAEINTR t then Some interrupted
  else if code =? WSAEMFILE t then Some fd_limit_reached
  else None.

(** [normalize_error], over the [switch] of the platform. *)
Definition normalize_error (switch : Z → option errc) (ec : error_code) : error_code :=
  if negb (ec_bool ec) then ec
  else if negb (bool_decide (ec_category ec = cat_system)) then ec
  else match switch (ec_value ec) with
       | Some e => make_error_code e
       | None => ec
       end.

(** ** [result<T>] *)

Inductive result (T : Type) :=
| Val (v : T)
| Err (ec : error_code).
Arguments Val {T}.
Arguments Err {T}.

Section Result.
Context {T : Type}.

(** [explicit operator bool], [error()], [value()] (which aborts on an error)
    and the converting constructor from [errc]. *)
Definition has_value (r : result T) : bool :=
  match r with Val _ => true | Err _ => false end.
Definition error (r : result T) : error_code :=
  match r with Val _ => ec_none | Err ec => ec end.
Definition value (r : result T) : option T :=
  match r with Val v => Some v | Err _ => None end.
Definition err_of (e : errc) : result T := Err (make_error_code e).

End Result.

(** [result<void>] holds only the code, and is true when the code is zero. *)
Record result_void := mk_result_void { rv_error : error_code }.
Definition rv_ok : result_void := mk_result_void ec_none.
Definition rv_bool (r : result_void) : bool := negb (ec_bool (rv_error r)).
Definition rv_of (e : errc) : result_void := mk_result_void (make_error_code e).

(** [if (!r) return r.error();] in a function that returns [result<T>]. *)
Definition propagate {T} (r : result_void) (k : result T) : result T :=
  if rv_bool r then k else Err (rv_error r).

(** [if (!r) return r.error();] with a value to go on with. *)
Definition bind_result {T U} (r : result T) (k : T → result U) : result U :=
  match r with Val v => k v | Err ec => Err ec end.

Notation "x <-? r ;; k" := (bind_result r (λ x, k))
  (at level 60, r at next level, right associativity) : socketpp_scope.

(** ** [span] *)

(** A view of [sp_size] elements from offset [sp_data] of some buffer. *)
Record span := mk_span { sp_data : Z; sp_size : Z }.

Definition span_empty : span := mk_span 0 0.

Definition subspan (s : span) (offset count : Z) : span :=
  if sp_size s <=? offset then span_empty
  else
    let remaining := u64 (sp_size s - offset) in
    mk_span (sp_data s + offset) (if count <? remaining then count else remaining).

(** ** [io_event] *)

Definition ev_none : Z := 0.
Definition ev_readable : Z := Z.shiftl 1 0.
Definition ev_writable : Z := Z.shiftl 1 1.
Definition ev_error : Z := Z.shiftl 1 2.
Definition ev_hangup : Z := Z.shiftl 1 3.
Definition ev_peer_shutdown : Z := Z.shiftl 1 4.

(** [operator|], [operator&] and [operator~] on the 32-bit mask. *)
Definition ev_or (a b : Z) : Z := Z.lor a b.
Definition ev_and (a b : Z) : Z := Z.land a b.
Definition ev_not (a : Z) : Z := u32 (Z.lnot a).
Definition has_event (mask flag : Z) : bool := negb (ev_and mask flag =? ev_none).

(** ** Platform switches *)

Inductive os := Linux | MacOS | Windows.

#[export] Instance os_eq_dec : EqDecision os.
Proof. solve_decision. Defined.

Definition has_reuseport (o : os) : bool := match o with Linux | MacOS => true | Windows => false end.
Definition has_recvmmsg (o : os) : bool := match o with Linux => true | _ => false end.
Definition has_tcp_fastopen (o : os) : bool := true.
Definition has_tcp_notsent_lowat (o : os) : bool := match o with Linux | MacOS => true | Windows => false end.
Definition has_tcp_cork (o : os) : bool := match o with Linux | MacOS => true | Windows => false end.
Definition has_kernel_udp_demux (o : os) : bool := match o with Linux | MacOS => true | Windows => false end.
Definition has_tcp_user_timeout (o : os) : bool := match o with Linux => true | _ => false end.
Definition has_tcp_defer_accept (o : os) : bool := match o with Linux => true | _ => false end.

(** ** Lemmas *)

(** The rows of a [switch] as a table, and the first row that matches. *)
Definition posix_rows (t : posix_errno) : list (Z * errc) :=
  [(EAGAIN t, would_block); (EWOULDBLOCK t, would_block); (EINPROGRESS t, in_progress);
   (ECONNRESET t, connection_reset); (ECONNREFUSED t, connection_refused);
   (ECONNABORTED t, connection_aborted); (ENOTCONN t, not_connected);
   (EADDRINUSE t, address_in_use); (ENETUNREACH t, network_unreachable);
   (ETIMEDOUT t, timed_out); (EINTR t, interrupted); (EMFILE t, fd_limit_reached);
   (ENFILE t, fd_limit_reached)].
Definition windows_rows (t : wsa_errno) : list (Z * errc) :=
  [(WSAEWOULDBLOCK t, would_block); (WSAEINPROGRESS t, in_progress);
   (WSAECONNRESET t, connection_reset); (WSAECONNREFUSED t, connection_refused);
   (WSAECONNABORTED t, connection_aborted); (WSAENOTCONN t, not_connected);
   (WSAEADDRINUSE t, address_in_use); (WSAENETUNREACH t, network_unreachable);
   (WSAETIMEDOUT t, timed_out); (WSAEINTR t, interrupted); (WSAEMFILE t, fd_limit_reached)].

Fixpoint first_row (rows : list (Z * errc)) (code : Z) : option errc :=
  match rows with
  | [] => None
  | (c, e) :: rows' => if code =? c then Some e else first_row rows' code
  end.

(** No constant stands for two portable codes ([EAGAIN] and [EWOULDBLOCK] may
    be equal). *)
Definition rows_functional (rows : list (Z * errc)) : Prop :=
  Forall (λ r, Forall (λ r', r.1 = r'.1 → r.2 = r'.2) rows) rows.

Lemma first_row_in rows code e : first_row rows code = Some e → (code, e) ∈ rows.
Proof.
  induction rows as [|[c e'] rows IH]; simpl; [done|].
  destruct (code =? c) eqn:E; bool_facts.
  - intros [= ->]. subst. left.
  - intros H. right. auto.
Qed.

Lemma first_row_some rows code e : (code, e) ∈ rows → is_Some (first_row rows code).
Proof.
  induction rows as [|[c e'] rows IH]; simpl; [by intros ?%elem_of_nil|].
  intros [[= <- <-]|H]%elem_of_cons.
  - by rewrite Z.eqb_refl.
  - destruct (code =? c); [done|auto].
Qed.

Lemma first_row_spec rows code e :
  rows_functional rows → first_row rows code = Some e ↔ (code, e) ∈ rows.
Proof.
  intros Hf. split; [apply first_row_in|]. intros Hin.
  destruct (first_row_some _ _ _ Hin) as [e' He']. rewrite He'. f_equal.
  apply first_row_in in He'. unfold rows_functional in Hf. rewrite Forall_forall in Hf.
  specialize (Hf _ Hin). rewrite Forall_forall in Hf. symmetry. by apply (Hf _ He').
Qed.

Lemma posix_switch_rows t code : posix_switch t code = first_row (posix_rows t) code.
Proof. done. Qed.
Lemma windows_switch_rows t code : windows_switch t code = first_row (windows_rows t) code.
Proof. done. Qed.

(** Neither [switch] yields the success code. *)
Lemma posix_switch_failure t code e : posix_switch t code = Some e → e ≠ success.
Proof. unfold posix_switch. repeat case_match; naive_solver. Qed.
Lemma windows_switch_failure t code e : windows_switch t code = Some e → e ≠ success.
Proof. unfold windows_switch. repeat case_match; naive_solver. Qed.

Lemma errc_value_nonzero e : e ≠ success → errc_value e ≠ 0.
Proof. by destruct e. Qed.

Lemma normalize_system switch errno e :
  normalize_error switch (last_socket_error errno) = make_error_code e
  ↔ errno ≠ 0 ∧ switch errno = Some e.
Proof.
  unfold normalize_error, last_socket_error, ec_bool. simpl.
  destruct (errno =? 0) eqn:E; bool_facts; simpl; [split; [done|by intros [? _]]|].
  destruct (switch errno) as [e'|]; [|split; [done|by intros [_ ?]]].
  split; [intros H%make_error_code_inj; by subst|by intros [_ [= ->]]].
Qed.

Lemma normalize_bool t ec :
  ec_bool (normalize_error (posix_switch t) ec) = ec_bool ec.
Proof.
  unfold normalize_error. destruct (ec_bool ec) eqn:Eb; simpl; [|done].
  case_bool_decide; simpl; [|done].
  destruct (posix_switch t (ec_value ec)) as [e|] eqn:Es; simpl; [|done].
  apply posix_switch_failure in Es.
  by apply negb_true_iff, Z.eqb_neq, errc_value_nonzero.
Qed.

(** A failed system call always makes a failed [result]. *)
Lemma syscall_fails t errno :
  errno ≠ 0 → rv_bool (mk_result_void (normalize_error (posix_switch t) (last_socket_error errno))) = false.
Proof.
  intros H. unfold rv_bool. simpl. rewrite normalize_bool. unfold ec_bool. simpl.
  by rewrite (proj2 (Z.eqb_neq _ _) H).
Qed.

Lemma has_event_or a b f : has_event (ev_or a b) f = has_event a f || has_event b f.
Proof.
  unfold has_event, ev_or, ev_and, ev_none. rewrite Z.land_lor_distr_l.
  destruct (Z.land a f =? 0) eqn:Ea, (Z.land b f =? 0) eqn:Eb; bool_facts;
    rewrite ?Ea, ?Eb; simpl; rewrite ?Z.lor_0_r; try done.
  - by apply negb_true_iff, Z.eqb_neq.
  - by apply negb_true_iff, Z.eqb_neq.
  - apply negb_true_iff, Z.eqb_neq. intros [? ?]%Z.lor_eq_0_iff. done.
Qed.

#[export] Hint Rewrite has_event_or : spp.

(** ** Theorems *)

(** Normalisation agrees with its table: an [errno] value is turned into
    portable code [e] exactly when it is not zero and is one of the constants
    listed for [e], on POSIX and on Windows. *)
Theorem normalize_error_table t w errno e :
  rows_functional (posix_rows t) → rows_functional (windows_rows w) →
  (normalize_error (posix_switch t) (last_socket_error errno) = make_error_code e
     ↔ errno ≠ 0 ∧ (errno, e) ∈ posix_rows t) ∧
  (normalize_error (windows_switch w) (last_socket_error errno) = make_error_code e
     ↔ errno ≠ 0 ∧ (errno, e) ∈ windows_rows w).
Proof.
  intros Ht Hw. rewrite !normalize_system, posix_switch_rows, windows_switch_rows.
  by rewrite !first_row_spec.
Qed.

Lemma normalize_error_table_witness :
  rows_functional (posix_rows linux_errno) ∧ rows_functional (posix_rows macos_errno) ∧
  (normalize_error (posix_switch linux_errno) (last_socket_error 11) = make_error_code would_block
     ↔ 11 ≠ 0 ∧ (11, would_block) ∈ posix_rows linux_errno).
Proof.
  split_and!; [repeat constructor; intros; simpl in *; done || lia..|].
  apply (normalize_error_table linux_errno windows_errno 11 would_block);
    repeat constructor; intros; simpl in *; done || lia.
Defined.

(** Normalisation is safe on every code: a failure stays a failure and a
    success a success, codes of other categories (the generic one included) are
    returned as they are, and normalising twice changes nothing more. *)
Theorem normalize_error_safe t ec :
  ec_bool (normalize_error (posix_switch t) ec) = ec_bool ec ∧
  (ec_category ec ≠ cat_system → normalize_error (posix_switch t) ec = ec) ∧
  normalize_error (posix_switch t) (normalize_error (posix_switch t) ec)
  = normalize_error (posix_switch t) ec.
Proof.
  split_and!; [apply normalize_bool|..].
  - intros Hc. unfold normalize_error. rewrite (bool_decide_eq_false_2 _ Hc).
    by destruct (ec_bool ec).
  - unfold normalize_error at 2 3.
    destruct (ec_bool ec) eqn:Eb; simpl; [|unfold normalize_error; by rewrite Eb].
    case_bool_decide as Hc; simpl;
      [|unfold normalize_error; by rewrite Eb, bool_decide_eq_false_2].
    destruct (posix_switch t (ec_value ec)) as [e|] eqn:Es.
    + unfold normalize_error, ec_bool. simpl. by case_match.
    + unfold normalize_error. by rewrite Eb, Hc, bool_decide_eq_true_2, Es.
Qed.

(** [span::subspan] stays inside the span it is taken from: for a span that
    fits the address space, the result starts and ends within it, is empty when
    the offset is past the end, and has the requested length when that fits. *)
Theorem subspan_in_bounds s offset count :
  in_width 64 (sp_size s) → 0 ≤ offset → 0 ≤ count →
  let r := subspan s offset count in
  0 ≤ sp_size r ∧ sp_size r ≤ count ∧
  (sp_size s ≤ offset → sp_size r = 0) ∧
  (offset < sp_size s →
     sp_data r = sp_data s + offset ∧
     sp_data s ≤ sp_data r ∧ sp_data r + sp_size r ≤ sp_data s + sp_size s) ∧
  (offset + count ≤ sp_size s → sp_size r = count).
Proof.
  unfold in_width. intros Hs Ho Hc. unfold subspan, span_empty.
  destruct (sp_size s <=? offset) eqn:E; bool_facts; simpl; [split_and!; lia|].
  rewrite wrap_id by (unfold in_width; lia).
  destruct (count <? sp_size s - offset) eqn:E2; bool_facts; simpl; split_and!; lia.
Qed.

Lemma subspan_in_bounds_witness :
  subspan (mk_span 100 10) 4 18446744073709551615 = mk_span 104 6 ∧
  0 ≤ sp_size (subspan (mk_span 100 10) 4 18446744073709551615).
Proof.
  split; [reflexivity|].
  refine (proj1 (subspan_in_bounds (mk_span 100 10) 4 18446744073709551615 _ _ _)); [split; simpl; lia|lia..].
Defined.
