(* ===== verification/ThreadPool.v ===== *)
(** * Thread pool and serial queues

    [src/src/high/thread_pool.{hpp,cpp}] and [src/src/high/serial_queue.hpp].

    The pool's [submit], the critical section of a worker and [shutdown], and
    the serial queue's [submit] and [drain], each as the function of the state
    its mutex protects.  [Machine] composes them into a step relation: worker
    threads, any number of serial queues that share the pool, and callers on
    arbitrary threads.  A step is one critical section or the end of a
    callback, the granularity at which the mutexes serialise the code. *)

From S2P Require Import Prelude.

(** ** The pool *)

Record thread_pool (T : Type) := mk_thread_pool {
  queue_ : list T;
  stopped_ : bool;
  max_queue_size_ : nat
}.
Arguments mk_thread_pool {T}.
Arguments queue_ {T}.
Arguments stopped_ {T}.
Arguments max_queue_size_ {T}.

(** The number of workers the constructor starts; [hw] is what
    [std::thread::hardware_concurrency] returns (0 when unknown). *)
Definition num_workers (num_threads hw : nat) : nat :=
  if (num_threads =? 0)%nat
  then (if (hw <? 2)%nat then 2 else hw)
  else num_threads.

Section Pool.
Context {T : Type}.

Definition pool_init (max_queue_size : nat) : thread_pool T :=
  mk_thread_pool [] false max_queue_size.

(** [thread_pool::submit]: the result and the pool after the critical section. *)
Definition pool_submit (task : T) (p : thread_pool T) : bool * thread_pool T :=
  if stopped_ p then (false, p)
  else if ((0 <? max_queue_size_ p) && (max_queue_size_ p <=? length (queue_ p)))%nat
  then (false, p)
  else (true, mk_thread_pool (queue_ p ++ [task]) (stopped_ p) (max_queue_size_ p)).

(** What a worker finds when it holds the mutex. *)
Inductive wakeup :=
| Blocked                               (** the wait predicate is false *)
| Return                                (** stopped and nothing left *)
| Took (t : T) (p : thread_pool T).     (** the front task, popped *)

Definition worker_wakeup (p : thread_pool T) : wakeup :=
  if negb (stopped_ p || negb (match queue_ p with [] => true | _ => false end)) then Blocked
  else match queue_ p with
       | [] => Return
       | t :: rest => Took t (mk_thread_pool rest (stopped_ p) (max_queue_size_ p))
       end.

(** The critical section of [shutdown]; the flag says whether this call is the
    one that goes on to wake and join the workers. *)
Definition pool_shutdown (p : thread_pool T) : bool * thread_pool T :=
  if stopped_ p then (false, p)
  else (true, mk_thread_pool (queue_ p) true (max_queue_size_ p)).

End Pool.
Arguments wakeup : clear implicits.

(** ** The serial queue *)

Record serial_queue (F : Type) := mk_serial_queue {
  pending_ : list F;
  draining_ : bool
}.
Arguments mk_serial_queue {F}.
Arguments pending_ {F}.
Arguments draining_ {F}.

Section Serial.
Context {F : Type}.

Definition serial_init : serial_queue F := mk_serial_queue [] false.

(** [serial_queue::submit]: the new state, and whether a drain task is to be
    given to the pool. *)
Definition serial_submit (fn : F) (s : serial_queue F) : serial_queue F * bool :=
  let pending := pending_ s ++ [fn] in
  if negb (draining_ s)
  then (mk_serial_queue pending true, true)
  else (mk_serial_queue pending (draining_ s), false).

(** One critical section of [drain]: the callback to run next, or [None] when
    the loop returns. *)
Definition serial_drain (s : serial_queue F) : option F * serial_queue F :=
  match pending_ s with
  | [] => (None, mk_serial_queue [] false)
  | fn :: rest => (Some fn, mk_serial_queue rest (draining_ s))
  end.

End Serial.

(** ** The machine: workers, queues and callers *)

Module Machine.
Section Machine.
Context {F : Type}.

(** What the pool runs: a callback submitted directly, or the drain loop of
    serial queue [q]. *)
Inductive task :=
| Plain (fn : F)
| Drain (q : nat).

(** Where a worker thread is. *)
Inductive worker :=
| Idle                       (** before the mutex, or waiting on the condition *)
| InPlain (fn : F)           (** inside [task()] for a direct callback *)
| InDrain (q : nat)          (** inside [drain], before its mutex *)
| InCallback (q : nat) (fn : F)   (** inside [fn()] called by [drain] *)
| Exited.

Inductive event :=
| Submitted (q : nat) (fn : F)
| Rejected (q : nat)         (** the pool refused the drain task of [q] *)
| Started (q : nat) (fn : F)
| Finished (q : nat) (fn : F).

Record state := mk_state {
  pool : thread_pool task;
  serials : list (serial_queue F);
  workers : list worker;
  log : list event           (** ghost: what has happened, oldest first *)
}.

Definition init (nqueues nworkers max_queue_size : nat) : state :=
  mk_state (pool_init max_queue_size) (replicate nqueues serial_init)
           (replicate nworkers Idle) [].

(** [serial_queue::submit] on queue [q], with the [pool_->submit] it makes
    while it holds the queue's mutex. *)
Definition submit (q : nat) (fn : F) (st : state) : option state :=
  match serials st !! q with
  | None => None
  | Some s =>
      let '(s', need) := serial_submit fn s in
      if need then
        let '(ok, p') := pool_submit (Drain q) (pool st) in
        Some (mk_state p' (<[q:=s']> (serials st)) (workers st)
                (log st ++ Submitted q fn :: (if ok then [] else [Rejected q])))
      else Some (mk_state (pool st) (<[q:=s']> (serials st)) (workers st)
                   (log st ++ [Submitted q fn]))
  end.

Definition start (t : task) : worker :=
  match t with Plain fn => InPlain fn | Drain q => InDrain q end.

(** What worker [i] does next, from wherever it is. *)
Definition advance (i : nat) (st : state) : option state :=
  match workers st !! i with
  | Some Idle =>
      match worker_wakeup (pool st) with
      | Blocked => None
      | Return => Some (mk_state (pool st) (serials st) (<[i:=Exited]> (workers st)) (log st))
      | Took t p => Some (mk_state p (serials st) (<[i:=start t]> (workers st)) (log st))
      end
  | Some (InPlain fn) =>
      Some (mk_state (pool st) (serials st) (<[i:=Idle]> (workers st)) (log st))
  | Some (InDrain q) =>
      match serials st !! q with
      | None => None
      | Some s =>
          match serial_drain s with
          | (None, s') =>
              Some (mk_state (pool st) (<[q:=s']> (serials st)) (<[i:=Idle]> (workers st)) (log st))
          | (Some fn, s') =>
              Some (mk_state (pool st) (<[q:=s']> (serials st))
                      (<[i:=InCallback q fn]> (workers st)) (log st ++ [Started q fn]))
          end
      end
  | Some (InCallback q fn) =>
      Some (mk_state (pool st) (serials st) (<[i:=InDrain q]> (workers st))
              (log st ++ [Finished q fn]))
  | Some Exited | None => None
  end.

(** Calls any thread may make (a user thread, the event loop, or a callback
    that a worker is running), and the moves of the workers. *)
Inductive call : state → state → Prop :=
| call_submit q fn st st' : submit q fn st = Some st' → call st st'
| call_pool_submit fn st ok p :
    pool_submit (Plain fn) (pool st) = (ok, p) →
    call st (mk_state p (serials st) (workers st) (log st))
| call_shutdown st ok p :
    pool_shutdown (pool st) = (ok, p) →
    call st (mk_state p (serials st) (workers st) (log st)).

Inductive work : state → state → Prop :=
| work_advance i st st' : advance i st = Some st' → work st st'.

Definition step (st st' : state) : Prop := call st st' ∨ work st st'.

(** What the log says of queue [q]. *)
Definition submitted (q : nat) : list event → list F :=
  omap (λ e, match e with Submitted q' fn => if (q' =? q)%nat then Some fn else None | _ => None end).
Definition started (q : nat) : list event → list F :=
  omap (λ e, match e with Started q' fn => if (q' =? q)%nat then Some fn else None | _ => None end).
Definition finished (q : nat) : list event → list F :=
  omap (λ e, match e with Finished q' fn => if (q' =? q)%nat then Some fn else None | _ => None end).
Definition rejected (q : nat) : list event → list unit :=
  omap (λ e, match e with Rejected q' => if (q' =? q)%nat then Some () else None | _ => None end).

(** ** Invariant *)

(** The places a drain loop of [q] can be: a task in the pool, or a worker. *)
Definition is_drain_task (q : nat) (t : task) : bool :=
  match t with Drain q' => (q' =? q)%nat | Plain _ => false end.
Definition is_drainer (q : nat) (w : worker) : bool :=
  match w with InDrain q' | InCallback q' _ => (q' =? q)%nat | _ => false end.
Definition holders (q : nat) (st : state) : nat :=
  (count (is_drain_task q) (queue_ (pool st)) + count (is_drainer q) (workers st))%nat.

(** The callbacks of [q] that workers are inside of. *)
Definition callback_of (q : nat) (w : worker) : option F :=
  match w with InCallback q' fn => if (q' =? q)%nat then Some fn else None | _ => None end.
Definition running (q : nat) : list worker → list F := omap (callback_of q).

Definition token (s : serial_queue F) : nat := if draining_ s then 1 else 0.

Record queue_ok (q : nat) (st : state) (s : serial_queue F) : Prop := mk_queue_ok {
  ok_holders : (holders q st ≤ token s)%nat;
  ok_armed : rejected q (log st) = [] → holders q st = token s;
  ok_idle : draining_ s = false → pending_ s = [];
  ok_fifo : submitted q (log st) = started q (log st) ++ pending_ s;
  ok_running : started q (log st) = finished q (log st) ++ running q (workers st)
}.

Definition inv (st : state) : Prop :=
  ∀ q, match serials st !! q with
       | Some s => queue_ok q st s
       | None => holders q st = 0%nat
       end.

Lemma submitted_app q l k : submitted q (l ++ k) = submitted q l ++ submitted q k.
Proof. apply omap_app. Qed.
Lemma started_app q l k : started q (l ++ k) = started q l ++ started q k.
Proof. apply omap_app. Qed.
Lemma finished_app q l k : finished q (l ++ k) = finished q l ++ finished q k.
Proof. apply omap_app. Qed.
Lemma rejected_app q l k : rejected q (l ++ k) = rejected q l ++ rejected q k.
Proof. apply omap_app. Qed.

(** A move that leaves the worker inside (or outside) the same callback of [q]
    does not touch [running q]. *)
Lemma running_insert q (ws : list worker) i w w' :
  ws !! i = Some w → callback_of q w' = callback_of q w →
  running q (<[i:=w']> ws) = running q ws.
Proof.
  unfold running. revert i. induction ws as [|v ws IH]; intros [|i] Hi Hw; simplify_eq/=.
  - by rewrite Hw.
  - by rewrite IH.
Qed.

Lemma running_none q (ws : list worker) : count (is_drainer q) ws = 0%nat → running q ws = [].
Proof.
  unfold running. induction ws as [|w ws IH]; [done|]. rewrite count_cons. csimpl. intros H.
  rewrite IH by lia. destruct w; simpl in *; try done. destruct (_ =? _)%nat; [lia|done].
Qed.

(** With one drainer, [running q] is the callback that drainer is in. *)
Lemma running_sole q (ws : list worker) i w :
  ws !! i = Some w → is_drainer q w = true → (count (is_drainer q) ws ≤ 1)%nat →
  running q ws = match w with InCallback _ fn => [fn] | _ => [] end.
Proof.
  revert i. induction ws as [|v ws IH]; intros [|i] Hi Hw; simplify_eq/=;
    rewrite count_cons; intros Hc.
  - rewrite Hw in Hc. unfold running. csimpl. fold (running q ws).
    rewrite (running_none q ws) by lia.
    destruct w; simplify_eq/=; rewrite ?Hw; done.
  - pose proof (count_pos _ _ _ _ Hi Hw). unfold running. csimpl. fold (running q ws).
    rewrite (IH i) by (auto; lia).
    destruct v; simpl in *; try done. destruct (_ =? _)%nat; [lia|done].
Qed.

(** The invariant at one queue, and the condition under which a step that does
    not concern that queue keeps it. *)
Definition inv_at (q : nat) (st : state) : Prop :=
  match serials st !! q with
  | Some s => queue_ok q st s
  | None => holders q st = 0%nat
  end.

Record same_at (q : nat) (st st' : state) : Prop := mk_same_at {
  same_serial : serials st' !! q = serials st !! q;
  same_holders : holders q st' = holders q st;
  same_submitted : submitted q (log st') = submitted q (log st);
  same_started : started q (log st') = started q (log st);
  same_finished : finished q (log st') = finished q (log st);
  same_rejected : rejected q (log st') = rejected q (log st);
  same_running : running q (workers st') = running q (workers st)
}.

Lemma inv_at_frame q st st' : same_at q st st' → inv_at q st → inv_at q st'.
Proof.
  intros [Hs Hh H1 H2 H3 H4 H5]. unfold inv_at. rewrite Hs.
  destruct (serials st !! q) as [s|]; [|congruence].
  intros [I1 I2 I3 I4 I5]. constructor; rewrite ?Hh, ?H1, ?H2, ?H3, ?H4, ?H5; auto.
Qed.

Lemma eqb_ne (a b : nat) : a ≠ b → (a =? b)%nat = false.
Proof. apply Nat.eqb_neq. Qed.

(** Evaluates the log projections of an extended log. *)
Ltac logs := rewrite ?submitted_app, ?started_app, ?finished_app, ?rejected_app; simpl;
  rewrite ?Nat.eqb_refl, ?eqb_ne by done; rewrite ?app_nil_r.

Lemma holders_submit q t st ok p :
  pool_submit t (pool st) = (ok, p) →
  holders q (mk_state p (serials st) (workers st) (log st))
  = (holders q st + (if ok && is_drain_task q t then 1 else 0))%nat.
Proof.
  unfold pool_submit, holders. repeat split_guard; intros [= <- <-]; simpl; try lia.
  all: rewrite count_app, count_cons, count_nil;
    destruct (is_drain_task q t); simpl in *; try done; lia.
Qed.

Lemma submit_inv q0 fn st st' : submit q0 fn st = Some st' → inv st → inv st'.
Proof.
  unfold submit. intros Hst Hinv q. change (inv_at q st').
  destruct (serials st !! q0) as [s|] eqn:Es; [|done].
  assert (q0 < length (serials st)) by eauto using lookup_lt_Some.
  pose proof (Hinv q0) as Hq0. rewrite Es in Hq0. destruct Hq0 as [I1 I2 I3 I4 I5].
  unfold token in I1, I2. unfold serial_submit in Hst.
  destruct (draining_ s) eqn:Ed; simpl in Hst.
  - injection Hst as <-. destruct (decide (q0 = q)) as [<-|Hne].
    + unfold inv_at; simpl. rewrite list_lookup_insert_eq by done.
      constructor; unfold holders, token in *; simpl in *; logs; auto.
      { done. } { by rewrite I4, app_assoc. }
    + apply (inv_at_frame q st); [|apply Hinv].
      constructor; simpl; logs; try done. by rewrite list_lookup_insert_ne.
  - destruct (pool_submit (Drain q0) (pool st)) as [ok p] eqn:Ep.
    injection Hst as <-. pose proof (holders_submit q _ _ _ _ Ep) as Hh.
    unfold holders in Hh, I1, I2; simpl in Hh, I1, I2.
    destruct (decide (q0 = q)) as [<-|Hne].
    + unfold inv_at; simpl. rewrite list_lookup_insert_eq by done.
      rewrite Nat.eqb_refl in Hh.
      constructor; unfold holders, token; simpl; logs; try done.
      * destruct ok; simpl in *; lia.
      * destruct ok; simpl in *; logs; [lia|]. destruct (rejected q0 (log st)); done.
      * destruct ok; simpl; logs; by rewrite I4, (I3 eq_refl), app_nil_r.
      * destruct ok; simpl; logs; done.
    + rewrite eqb_ne, andb_false_r in Hh by done.
      apply (inv_at_frame q st); [|apply Hinv].
      constructor; unfold holders; destruct ok; simpl; logs; try done; try lia.
      all: by rewrite list_lookup_insert_ne.
Qed.

(** What a worker move does to the holders of a queue. *)
Lemma count_worker q (ws : list worker) i w w' :
  ws !! i = Some w →
  (count (is_drainer q) (<[i:=w']> ws) + (if is_drainer q w then 1 else 0)
   = count (is_drainer q) ws + (if is_drainer q w' then 1 else 0))%nat.
Proof. apply count_insert. Qed.

Lemma worker_wakeup_took p (t : task) p' :
  worker_wakeup p = Took t p' →
  queue_ p = t :: queue_ p' ∧ stopped_ p' = stopped_ p ∧ max_queue_size_ p' = max_queue_size_ p.
Proof. unfold worker_wakeup. repeat split_guard; naive_solver. Qed.

Lemma idle_inv i st st' :
  workers st !! i = Some Idle → advance i st = Some st' → inv st → inv st'.
Proof.
  unfold advance. intros Hi. rewrite Hi. intros Hst Hinv q.
  apply (inv_at_frame q st); [|apply Hinv].
  destruct (worker_wakeup (pool st)) as [| |t p] eqn:Ew; [done|..]; injection Hst as <-.
  - pose proof (count_worker q _ _ _ Exited Hi).
    constructor; unfold holders; simpl in *; try done; [lia|].
    by apply (running_insert q _ _ Idle).
  - apply worker_wakeup_took in Ew as (Eq & _ & _).
    pose proof (count_worker q _ _ _ (start t) Hi) as Hc.
    constructor; unfold holders; simpl in *; try done.
    + rewrite Eq, count_cons. destruct t; simpl in *; lia.
    + apply (running_insert q _ _ Idle); [done|]. by destruct t.
Qed.

Lemma plain_inv i fn st st' :
  workers st !! i = Some (InPlain fn) → advance i st = Some st' → inv st → inv st'.
Proof.
  unfold advance. intros Hi. rewrite Hi. intros [= <-] Hinv q.
  apply (inv_at_frame q st); [|apply Hinv]. pose proof (count_worker q _ _ _ Idle Hi).
  constructor; unfold holders; simpl in *; try done; [lia|].
  by apply (running_insert q _ _ (InPlain fn)).
Qed.

(** A worker inside the drain of [q0] is the one holder of [q0]. *)
Lemma drainer_sole i w q0 st s :
  workers st !! i = Some w → is_drainer q0 w = true → queue_ok q0 st s →
  count (is_drain_task q0) (queue_ (pool st)) = 0%nat
  ∧ count (is_drainer q0) (workers st) = 1%nat ∧ draining_ s = true.
Proof.
  intros Hi Hw [I1 _ _ _ _]. unfold holders, token in I1.
  pose proof (count_pos _ _ _ _ Hi Hw). destruct (draining_ s); split_and!; lia || done.
Qed.

Lemma callback_done_inv i q0 fn st st' :
  workers st !! i = Some (InCallback q0 fn) → advance i st = Some st' → inv st → inv st'.
Proof.
  unfold advance. intros Hi. rewrite Hi. intros [= <-] Hinv q. change (inv_at q
    (mk_state (pool st) (serials st) (<[i:=InDrain q0]> (workers st)) (log st ++ [Finished q0 fn]))).
  pose proof (count_worker q _ _ _ (InDrain q0) Hi) as Hc; simpl in Hc.
  destruct (decide (q0 = q)) as [<-|Hne].
  - specialize (Hinv q0). unfold inv_at; simpl.
    rewrite Nat.eqb_refl in Hc. destruct (serials st !! q0) as [s|].
    + destruct (drainer_sole _ _ q0 _ _ Hi (Nat.eqb_refl _) Hinv) as (H0 & H1 & H2).
      destruct Hinv as [I1 I2 I3 I4 I5]. unfold holders in *.
      constructor; unfold holders; simpl; logs; auto; try lia.
      { intros Hr. specialize (I2 Hr). lia. }
      rewrite I5, (running_sole q0 _ _ _ Hi (Nat.eqb_refl _)) by lia.
      rewrite (running_sole q0 _ i (InDrain q0)); [by rewrite app_nil_r|..].
      * apply list_lookup_insert_eq. by eapply lookup_lt_Some.
      * apply Nat.eqb_refl.
      * lia.
    + unfold holders in *; simpl in *. lia.
  - rewrite eqb_ne in Hc by done. apply (inv_at_frame q st); [|apply Hinv].
    constructor; unfold holders; simpl; logs; try done; [lia|].
    apply (running_insert q _ _ _ _ Hi). simpl. by rewrite eqb_ne.
Qed.

Lemma drain_inv i q0 st st' :
  workers st !! i = Some (InDrain q0) → advance i st = Some st' → inv st → inv st'.
Proof.
  unfold advance. intros Hi. rewrite Hi. intros Hst Hinv q. change (inv_at q st').
  destruct (serials st !! q0) as [s|] eqn:Es; [|done].
  assert (q0 < length (serials st)) by eauto using lookup_lt_Some.
  pose proof (Hinv q0) as Hq0. rewrite Es in Hq0.
  destruct (drainer_sole _ _ q0 _ _ Hi (Nat.eqb_refl _) Hq0) as (H0 & H1 & H2).
  assert (Hi' : ∀ w, <[i:=w]> (workers st) !! i = Some w)
    by (intros; apply list_lookup_insert_eq; by eapply lookup_lt_Some).
  destruct Hq0 as [I1 I2 I3 I4 I5]. unfold holders, token in I1, I2. rewrite H2 in *.
  unfold serial_drain in Hst. destruct (pending_ s) as [|fn rest] eqn:Ep; injection Hst as <-.
  - pose proof (count_worker q _ _ _ Idle Hi) as Hc; simpl in Hc.
    destruct (decide (q0 = q)) as [<-|Hne].
    + rewrite Nat.eqb_refl in Hc. unfold inv_at; simpl.
      rewrite list_lookup_insert_eq by done.
      constructor; unfold holders, token; simpl; auto; try lia.
      rewrite running_none by lia.
      by rewrite I5, (running_sole q0 _ _ _ Hi (Nat.eqb_refl _)) by lia.
    + rewrite eqb_ne in Hc by done. apply (inv_at_frame q st); [|apply Hinv].
      constructor; unfold holders; simpl; try done.
      * by rewrite list_lookup_insert_ne.
      * lia.
      * by apply (running_insert q _ _ _ _ Hi).
  - pose proof (count_worker q _ _ _ (InCallback q0 fn) Hi) as Hc; simpl in Hc.
    destruct (decide (q0 = q)) as [<-|Hne].
    + rewrite Nat.eqb_refl in Hc. unfold inv_at; simpl.
      rewrite list_lookup_insert_eq by done.
      constructor; unfold holders, token; simpl; rewrite ?H2; logs; auto; try lia; try done.
      { by rewrite I4, <- app_assoc. }
      rewrite (running_sole q0 _ i (InCallback q0 fn) (Hi' _) (Nat.eqb_refl _)) by lia.
      by rewrite I5, (running_sole q0 _ _ _ Hi (Nat.eqb_refl _)), app_nil_r by lia.
    + rewrite eqb_ne in Hc by done. apply (inv_at_frame q st); [|apply Hinv].
      constructor; unfold holders; simpl; logs; try done.
      * by rewrite list_lookup_insert_ne.
      * lia.
      * apply (running_insert q _ _ _ _ Hi). simpl. by rewrite eqb_ne.
Qed.

Lemma step_inv st st' : step st st' → inv st → inv st'.
Proof.
  intros [[q fn a b H|fn a ok p H|a ok p H]|[i a b H]].
  - by apply (submit_inv q fn).
  - intros Hinv q. apply (inv_at_frame q a); [|apply Hinv].
    pose proof (holders_submit q _ _ _ _ H) as Hh; simpl in Hh. rewrite andb_false_r in Hh.
    constructor; try done. lia.
  - intros Hinv q. apply (inv_at_frame q a); [|apply Hinv].
    unfold pool_shutdown in H. destruct (stopped_ (pool a)); injection H as <- <-; done.
  - intros Hinv. pose proof H as H'. unfold advance in H'.
    destruct (workers a !! i) as [[| | | |]|] eqn:Ei; try done;
      eauto using idle_inv, plain_inv, drain_inv, callback_done_inv.
Qed.

Lemma init_inv nq nw mx : inv (init nq nw mx).
Proof.
  assert (Hc : ∀ q n, count (is_drainer q) (replicate n Idle) = 0%nat).
  { intros q n. induction n; simpl; [done|]. by rewrite count_cons, IHn. }
  assert (Hh : ∀ q, holders q (init nq nw mx) = 0%nat).
  { intros q. unfold holders; simpl. by rewrite Hc. }
  intros q. simpl. destruct (replicate nq serial_init !! q) as [s|] eqn:E; [|apply Hh].
  apply lookup_replicate in E as [-> _].
  constructor; rewrite ?Hh; simpl; try done. by rewrite running_none.
Qed.

Lemma reachable_inv nq nw mx st : rtc step (init nq nw mx) st → inv st.
Proof. intros H. eapply rtc_preserves; [apply step_inv|exact H|apply init_inv]. Qed.

(** ** Shutdown *)

(** Once a worker has exited, the pool is stopped and its queue empty, for good. *)
Definition exit_inv (st : state) : Prop :=
  Exited ∈ workers st → stopped_ (pool st) = true ∧ queue_ (pool st) = [].

Lemma pool_submit_stopped t (p : thread_pool task) ok p' :
  pool_submit t p = (ok, p') → stopped_ p = true → p' = p ∧ ok = false.
Proof. unfold pool_submit. intros H Hs. rewrite Hs in H. naive_solver. Qed.

Lemma elem_of_insert_ne {A} (l : list A) i x y : y ≠ x → y ∈ <[i:=x]> l → y ∈ l.
Proof.
  intros Hne (j & Hj)%list_elem_of_lookup_1. apply list_elem_of_lookup.
  destruct (decide (i = j)) as [->|Hij].
  - assert (j < length (<[j:=x]> l)) as Hl by eauto using lookup_lt_Some.
    rewrite length_insert in Hl. rewrite list_lookup_insert_eq in Hj by done. congruence.
  - rewrite list_lookup_insert_ne in Hj by done. eauto.
Qed.

Lemma step_exit_inv st st' : step st st' → exit_inv st → exit_inv st'.
Proof.
  unfold exit_inv. intros [[q fn a b H|fn a ok p H|a ok p H]|[i a b H]] Hinv.
  - unfold submit in H. destruct (serials a !! q) as [s|]; [|done].
    destruct (serial_submit fn s) as [s' []]; [|by injection H as <-].
    destruct (pool_submit _ _) as [ok p] eqn:Ep. injection H as <-. simpl. intros Hx.
    destruct (Hinv Hx) as [Hs Hq]. by destruct (pool_submit_stopped _ _ _ _ Ep Hs) as [-> _].
  - simpl. intros Hx. destruct (Hinv Hx) as [Hs Hq].
    by destruct (pool_submit_stopped _ _ _ _ H Hs) as [-> _].
  - simpl. intros Hx. destruct (Hinv Hx) as [Hs Hq]. unfold pool_shutdown in H.
    rewrite Hs in H. by injection H as <- <-.
  - unfold advance in H. destruct (workers a !! i) as [[| | | |]|]; try done.
    + destruct (worker_wakeup (pool a)) as [| |t p] eqn:Ew; [done|..]; injection H as <-; simpl.
      * intros _. unfold worker_wakeup in Ew.
        destruct (stopped_ (pool a)), (queue_ (pool a)); done.
      * apply worker_wakeup_took in Ew as (Eq & _). intros Hx.
        apply elem_of_insert_ne in Hx; [|by destruct t]. destruct (Hinv Hx) as [_ Hq]. congruence.
    + injection H as <-. simpl. intros Hx. apply elem_of_insert_ne in Hx; [auto|done].
    + destruct (serials a !! q) as [s|]; [|done].
      destruct (serial_drain s) as [[] s']; injection H as <-; simpl;
        (intros Hx; apply elem_of_insert_ne in Hx; [auto|done]).
    + injection H as <-. simpl. intros Hx. apply elem_of_insert_ne in Hx; [auto|done].
Qed.

Lemma reachable_exit_inv nq nw mx st : rtc step (init nq nw mx) st → exit_inv st.
Proof.
  intros H. eapply rtc_preserves; [apply step_exit_inv|exact H|].
  intros Hx%elem_of_replicate. by destruct Hx.
Qed.

Lemma count_all_false {A} (p : A → bool) l : Forall (λ x, p x = false) l → count p l = 0%nat.
Proof. induction 1 as [|x l Hx Hl IH]; [done|]. by rewrite count_cons, Hx, IH. Qed.

(** A queue that no drain loop holds, and whose drain was never refused, has
    run and finished everything submitted to it. *)
Lemma unheld_finished q st s :
  queue_ok q st s → holders q st = 0%nat → rejected q (log st) = [] →
  pending_ s = [] ∧ finished q (log st) = submitted q (log st).
Proof.
  intros [I1 I2 I3 I4 I5] Hh Hr. specialize (I2 Hr). rewrite Hh in I2. unfold token in I2.
  destruct (draining_ s); [done|]. split; [auto|].
  rewrite I4, (I3 eq_refl), app_nil_r, I5. unfold holders in Hh.
  by rewrite running_none, app_nil_r by lia.
Qed.

(** ** Worker moves terminate *)

Definition worker_weight (w : worker) : nat :=
  match w with Exited => 0 | Idle => 1 | InPlain _ | InDrain _ => 2 | InCallback _ _ => 4 end.
Definition weight (st : state) : nat :=
  (3 * length (queue_ (pool st)) + 3 * total (λ s, length (pending_ s)) (serials st)
   + total worker_weight (workers st))%nat.

Lemma work_decreases st st' : work st st' → (weight st' < weight st)%nat.
Proof.
  intros [i a b H]. unfold advance in H. unfold weight.
  destruct (workers a !! i) as [w|] eqn:Ei; [|done].
  destruct w as [|fn|q|q fn|]; [..|done].
  - destruct (worker_wakeup (pool a)) as [| |t p] eqn:Ew; [done|..]; injection H as <-; simpl.
    + pose proof (total_insert worker_weight _ _ _ Exited Ei) as Ht; simpl in Ht. lia.
    + apply worker_wakeup_took in Ew as (Eq & _). rewrite Eq. simpl.
      pose proof (total_insert worker_weight _ _ _ (start t) Ei) as Ht.
      destruct t; simpl in *; lia.
  - injection H as <-. pose proof (total_insert worker_weight _ _ _ Idle Ei) as Ht; simpl in *. lia.
  - destruct (serials a !! q) as [s|] eqn:Es; [|done]. unfold serial_drain in H.
    destruct (pending_ s) as [|fn rest] eqn:Ep; injection H as <-; simpl.
    + pose proof (total_insert worker_weight _ _ _ Idle Ei) as Ht.
      pose proof (total_insert (λ s, length (pending_ s)) _ _ _
        (mk_serial_queue (@nil F) false) Es) as Hs; simpl in *. rewrite Ep in Hs. simpl in Hs. lia.
    + pose proof (total_insert worker_weight _ _ _ (InCallback q fn) Ei) as Ht.
      pose proof (total_insert (λ s, length (pending_ s)) _ _ _
        (mk_serial_queue rest (draining_ s)) Es) as Hs; simpl in *. rewrite Ep in Hs. simpl in Hs. lia.
  - injection H as <-. pose proof (total_insert worker_weight _ _ _ (InDrain q) Ei) as Ht; simpl in *. lia.
Qed.

(** A worker that is inside a drain or a callback can always move. *)
Lemma busy_can_move st i w :
  inv st → workers st !! i = Some w → w ≠ Idle → w ≠ Exited → ∃ st', work st st'.
Proof.
  intros Hinv Hi Hn He. destruct w as [|fn|q|q fn|]; [done|..|done].
  1,3: eexists; apply (work_advance i); unfold advance; by rewrite Hi.
  specialize (Hinv q). destruct (serials st !! q) as [s|] eqn:Es.
  - destruct (serial_drain s) as [[fn|] s'] eqn:Ed; eexists; apply (work_advance i);
      unfold advance; by rewrite Hi, Es, Ed.
  - unfold holders in Hinv.
    pose proof (count_pos (is_drainer q) _ _ _ Hi (Nat.eqb_refl q)). lia.
Qed.

(** When no worker can move, every worker is waiting or gone, and the pool is
    empty if there is a worker at all. *)
Lemma quiescent_workers st :
  inv st → (∀ st', ¬ work st st') → Forall (λ w, w = Idle ∨ w = Exited) (workers st).
Proof.
  intros Hinv Hq. apply Forall_lookup. intros i w Hi.
  destruct w; auto; exfalso;
    destruct (busy_can_move st i _ Hinv Hi) as [st' ?]; try done; by apply (Hq st').
Qed.

Lemma quiescent_pool st :
  inv st → exit_inv st → workers st ≠ [] → (∀ st', ¬ work st st') →
  queue_ (pool st) = [] ∧
  (stopped_ (pool st) = true → Forall (λ w, w = Exited) (workers st)).
Proof.
  intros Hinv Hx Hne Hq. pose proof (quiescent_workers _ Hinv Hq) as Hw.
  assert (Hidle : ∀ i, workers st !! i = Some Idle → worker_wakeup (pool st) = Blocked).
  { intros i Hi. destruct (worker_wakeup (pool st)) as [| |t p] eqn:Ew; [done|..]; exfalso;
      eapply Hq; apply (work_advance i); unfold advance; by rewrite Hi, Ew. }
  split.
  - destruct (workers st) as [|w ws] eqn:E; [done|]. apply Forall_cons in Hw as [[->| ->] _].
    + specialize (Hidle 0%nat eq_refl). unfold worker_wakeup in Hidle.
      destruct (stopped_ (pool st)), (queue_ (pool st)); done.
    + apply Hx. rewrite E. left.
  - intros Hs. apply Forall_lookup. intros i w Hi.
    destruct (proj1 (Forall_lookup _ _) Hw i w Hi) as [->| ->]; [|done].
    specialize (Hidle i Hi). unfold worker_wakeup in Hidle. rewrite Hs in Hidle.
    destruct (queue_ (pool st)); done.
Qed.

Lemma step_workers st st' : step st st' → length (workers st') = length (workers st).
Proof.
  intros [[q fn a b H|fn a ok p H|a ok p H]|[i a b H]]; try done.
  - unfold submit in H. repeat case_match; simplify_eq/=; done.
  - unfold advance in H. repeat case_match; simplify_eq/=; by rewrite ?length_insert.
Qed.

Lemma reachable_workers nq nw mx st :
  rtc step (init nq nw mx) st → length (workers st) = nw.
Proof.
  intros H. apply (rtc_preserves step (λ st, length (workers st) = nw) _ _) in H; [done| |].
  - intros a b Hs <-. by apply step_workers.
  - simpl. apply length_replicate.
Qed.

Lemma work_decide st : (∃ st', work st st') ∨ (∀ st', ¬ work st st').
Proof.
  destruct (decide (Exists (λ i, is_Some (advance i st)) (seq 0 (length (workers st)))))
    as [(i & _ & [st' H])%Exists_exists|Hn].
  - left. exists st'. by apply (work_advance i).
  - right. intros st' Hw. inversion Hw as [i a b H]; subst. apply Hn, Exists_exists. exists i. split; [|exact (mk_is_Some _ _ H)].
    apply elem_of_seq. unfold advance in H. destruct (workers st !! i) eqn:E; [|done].
    apply lookup_lt_Some in E. lia.
Qed.

Lemma work_terminates st : ∃ st', rtc work st st' ∧ ∀ st'', ¬ work st' st''.
Proof.
  induction (well_founded_ltof _ weight st) as [st _ IH].
  destruct (work_decide st) as [[st1 H1]|Hn]; [|by exists st; split; [constructor|]].
  destruct (IH st1 (work_decreases _ _ H1)) as (st' & Hrun & Hend).
  exists st'. split; [by eapply rtc_l|done].
Qed.

(** With no drain task in the pool and every worker waiting or gone, no queue
    is held. *)
Lemma quiescent_unheld q st :
  queue_ (pool st) = [] → Forall (λ w, w = Idle ∨ w = Exited) (workers st) → holders q st = 0%nat.
Proof.
  intros Hq Hw. unfold holders. rewrite Hq. simpl.
  apply count_all_false. eapply Forall_impl; [exact Hw|]. by intros ? [->| ->].
Qed.

(** A queue marked draining that nothing holds stays so, and starts nothing. *)
Record wedged (q : nat) (l : list F) (st : state) : Prop := mk_wedged {
  wedged_serial : ∃ s, serials st !! q = Some s ∧ draining_ s = true;
  wedged_holders : holders q st = 0%nat;
  wedged_started : started q (log st) = l
}.

Lemma wedged_call q l st st' : call st st' → wedged q l st → wedged q l st'.
Proof.
  intros [q0 fn a b H|fn a ok p H|a ok p H] [(s & Es & Hd) Hh Hl].
  - unfold submit in H. destruct (serials a !! q0) as [s0|] eqn:Es0; [|done].
    assert (q0 < length (serials a)) by eauto using lookup_lt_Some.
    unfold serial_submit in H. destruct (decide (q0 = q)) as [->|Hne].
    + simplify_eq. rewrite Hd in H. simpl in H. injection H as <-.
      constructor; [|exact Hh|simpl; by logs].
      eexists. simpl. by rewrite list_lookup_insert_eq.
    + destruct (draining_ s0); simpl in H.
      * injection H as <-. constructor; [|exact Hh|simpl; by logs].
        exists s. simpl. by rewrite list_lookup_insert_ne.
      * destruct (pool_submit (Drain q0) (pool a)) as [ok p] eqn:Ep. injection H as <-.
        pose proof (holders_submit q _ _ _ _ Ep) as Hh'; simpl in Hh'.
        rewrite eqb_ne, andb_false_r in Hh' by done.
        constructor; [|..|destruct ok; simpl; by logs].
        { exists s. simpl. by rewrite list_lookup_insert_ne. }
        unfold holders in *; simpl in *. lia.
  - pose proof (holders_submit q _ _ _ _ H) as Hh'; simpl in Hh'. rewrite andb_false_r in Hh'.
    constructor; [by exists s| |done]. lia.
  - constructor; [by exists s| |done].
    unfold pool_shutdown in H. destruct (stopped_ (pool a)); injection H as <- <-; exact Hh.
Qed.

Lemma wedged_work q l st st' : work st st' → wedged q l st → wedged q l st'.
Proof.
  intros [i a b H] [(s & Es & Hd) Hh Hl]. unfold holders in Hh. unfold advance in H.
  destruct (workers a !! i) as [w|] eqn:Ei; [|done].
  assert (is_drainer q w = false) as Hw by (eapply count_zero; [|exact Ei]; lia).
  destruct w as [|fn|q0|q0 fn|]; [| | | |done].
  - destruct (worker_wakeup (pool a)) as [| |t p] eqn:Ew; [done|..]; injection H as <-.
    + pose proof (count_worker q _ _ _ Exited Ei) as Hc.
      constructor; [by exists s| |done]. unfold holders; simpl in *. lia.
    + apply worker_wakeup_took in Ew as (Eq & _).
      pose proof (count_worker q _ _ _ (start t) Ei) as Hc.
      rewrite Eq, count_cons in Hh. constructor; [by exists s| |done].
      unfold holders; simpl in *. destruct t as [|q0]; simpl in *; [|destruct (q0 =? q)%nat]; lia.
  - injection H as <-. pose proof (count_worker q _ _ _ Idle Ei) as Hc.
    constructor; [by exists s| |done]. unfold holders; simpl in *. lia.
  - simpl in Hw. apply Nat.eqb_neq in Hw. destruct (serials a !! q0) as [s0|]; [|done].
    destruct (serial_drain s0) as [[fn|] s'] ; injection H as <-.
    + pose proof (count_worker q _ _ _ (InCallback q0 fn) Ei) as Hc.
      constructor; [exists s; simpl; by rewrite list_lookup_insert_ne| |simpl; by logs].
      unfold holders; simpl in *. rewrite eqb_ne in Hc by done. lia.
    + pose proof (count_worker q _ _ _ Idle Ei) as Hc.
      constructor; [exists s; simpl; by rewrite list_lookup_insert_ne| |done].
      unfold holders; simpl in *. rewrite eqb_ne in Hc by done. lia.
  - simpl in Hw. apply Nat.eqb_neq in Hw. injection H as <-.
    pose proof (count_worker q _ _ _ (InDrain q0) Ei) as Hc.
    constructor; [by exists s| |simpl; by logs].
    unfold holders; simpl in *. rewrite eqb_ne in Hc by done. lia.
Qed.

(** ** Running a schedule *)

Inductive move :=
| MSubmit (q : nat) (fn : F)
| MPool (fn : F)
| MShutdown
| MAdvance (i : nat).

Definition play (m : move) (st : state) : option state :=
  match m with
  | MSubmit q fn => submit q fn st
  | MPool fn => Some (mk_state (snd (pool_submit (Plain fn) (pool st))) (serials st) (workers st) (log st))
  | MShutdown => Some (mk_state (snd (pool_shutdown (pool st))) (serials st) (workers st) (log st))
  | MAdvance i => advance i st
  end.

Fixpoint plays (ms : list move) (st : state) : option state :=
  match ms with
  | [] => Some st
  | m :: ms' => match play m st with Some st' => plays ms' st' | None => None end
  end.

Lemma plays_sound ms st st' : plays ms st = Some st' → rtc step st st'.
Proof.
  revert st. induction ms as [|m ms IH]; simpl; intros st H; [simplify_eq; constructor|].
  destruct (play m st) as [st1|] eqn:E; [|done]. eapply rtc_l; [|by apply IH].
  destruct m; simpl in E; simplify_eq.
  - left. by eapply call_submit.
  - left. by eapply call_pool_submit, surjective_pairing.
  - left. by eapply call_shutdown, surjective_pairing.
  - right. by eapply work_advance.
Qed.

(** ** Theorems *)

(** C4. Serialised execution.  In every state the workers, the queues and
    arbitrary callers can reach, at most one worker is inside a callback of a
    given serial queue, whatever the number of workers and of queues that share
    the pool, the pool's limit, and whether it is shut down. *)
Theorem serial_mutual_exclusion nq nw mx st q i j f g :
  rtc step (init nq nw mx) st →
  workers st !! i = Some (InCallback q f) →
  workers st !! j = Some (InCallback q g) →
  i = j ∧ f = g.
Proof.
  intros Hr Hi Hj. apply reachable_inv in Hr as Hinv. specialize (Hinv q).
  destruct (decide (i = j)) as [->|Hne]; [split; congruence|exfalso].
  pose proof (count_two (is_drainer q) _ _ _ _ _ Hne Hi Hj (Nat.eqb_refl q) (Nat.eqb_refl q)).
  destruct (serials st !! q) as [s|].
  - destruct Hinv as [I1 _ _ _ _]. unfold holders, token in I1. destruct (draining_ s); lia.
  - unfold holders in Hinv. lia.
Qed.

(** C5. Order.  The callbacks of a serial queue start in the order of their
    submission, without loss or repetition: what was submitted is what has
    started followed by what is pending, and what has started is what has
    finished followed by the one callback (at most) now running. *)
Theorem serial_fifo nq nw mx st q s :
  rtc step (init nq nw mx) st → serials st !! q = Some s →
  submitted q (log st) = started q (log st) ++ pending_ s ∧
  started q (log st) = finished q (log st) ++ running q (workers st) ∧
  (length (running q (workers st)) ≤ 1)%nat.
Proof.
  intros Hr Hs. apply reachable_inv in Hr as Hinv. specialize (Hinv q). rewrite Hs in Hinv.
  destruct Hinv as [I1 I2 I3 I4 I5]. split_and!; [done..|].
  unfold holders, token in I1.
  assert (count (is_drainer q) (workers st) ≤ 1)%nat as Hc by (destruct (draining_ s); lia).
  unfold running. clear -Hc. induction (workers st) as [|w ws IH]; [simpl; lia|].
  rewrite count_cons in Hc. csimpl. destruct (callback_of q w) eqn:E; [|apply IH; lia].
  assert (is_drainer q w = true) as Hw
    by (destruct w; simpl in *; try done; by destruct (_ =? _)%nat).
  rewrite Hw in Hc. change (omap (callback_of q) ws) with (running q ws).
  rewrite running_none by lia. simpl. lia.
Qed.


(** Shutdown drains.  When [shutdown] has joined the workers (all of them
    have returned), no task is left in the pool and every queue whose drain task
    was never refused has finished all its callbacks. *)
Theorem shutdown_drains nq nw mx st q s :
  rtc step (init nq nw mx) st → (0 < nw)%nat →
  Forall (λ w, w = Exited) (workers st) →
  serials st !! q = Some s → rejected q (log st) = [] →
  queue_ (pool st) = [] ∧ pending_ s = [] ∧ finished q (log st) = submitted q (log st).
Proof.
  intros Hr Hnw Hall Es Hrej. pose proof (reachable_inv _ _ _ _ Hr q) as Hinv.
  rewrite Es in Hinv.
  assert (queue_ (pool st) = []) as Hq.
  { apply (reachable_exit_inv _ _ _ _ Hr). apply reachable_workers in Hr.
    destruct (workers st) as [|w ws]; [simpl in Hr; lia|].
    apply Forall_cons in Hall as [-> _]. left. }
  split; [done|]. eapply unheld_finished; [done| |done].
  apply quiescent_unheld; [done|]. eapply Forall_impl; [exact Hall|]. auto.
Qed.


End Machine.
Arguments task : clear implicits.
Arguments worker : clear implicits.
Arguments event : clear implicits.
Arguments state : clear implicits.
Arguments move : clear implicits.

(** Two workers, two queues: two callbacks of queue 0 and one of queue 1, with
    the first of each being run; and the same pool after a shutdown. *)
Definition demo_moves : list (move nat) :=
  [MSubmit 0 10%nat; MSubmit 0 11%nat; MSubmit 1 20%nat;
   MAdvance 0; MAdvance 1; MAdvance 0; MAdvance 1].
Definition demo : state nat := default (init 2 2 0) (plays demo_moves (init 2 2 0)).
Definition demo_stopped : state nat :=
  default (init 1 1 0)
    (plays [MSubmit 0 10%nat; MShutdown; MAdvance 0; MAdvance 0; MAdvance 0; MAdvance 0; MAdvance 0]
       (init 1 1 0)).
Definition demo_refused : state nat :=
  default (init 1 1 0) (plays [MShutdown; MSubmit 0 10%nat] (init 1 1 0)).
Definition demo_refused_later : state nat :=
  default (init 1 1 0) (plays [MSubmit 0 11%nat; MAdvance 0] demo_refused).

Lemma demo_reachable : rtc step (init 2 2 0) demo.
Proof. apply (plays_sound demo_moves). reflexivity. Defined.

Lemma serial_mutual_exclusion_witness :
  workers demo !! 0 = Some (InCallback 0 10%nat) ∧ workers demo !! 1 = Some (InCallback 1 20%nat)
  ∧ (0 = 0 ∧ 10 = 10)%nat.
Proof.
  split_and!; [reflexivity..|].
  apply (serial_mutual_exclusion 2 2 0 demo 0 0 0 10%nat 10%nat);
    [exact demo_reachable|reflexivity|reflexivity].
Defined.

Lemma serial_fifo_witness :
  submitted 0 (log demo) = [10; 11]%nat ∧ started 0 (log demo) = [10]%nat ∧
  submitted 0 (log demo) = started 0 (log demo) ++ [11]%nat.
Proof.
  split_and!; [reflexivity..|].
  apply (serial_fifo 2 2 0 demo 0 (mk_serial_queue [11]%nat true)); [exact demo_reachable|reflexivity].
Defined.


Lemma shutdown_drains_witness :
  queue_ (pool demo_stopped) = [] ∧ pending_ (@serial_init nat) = [] ∧
  finished 0 (log demo_stopped) = submitted 0 (log demo_stopped).
Proof.
  apply (shutdown_drains 1 1 0 demo_stopped 0 serial_init); [|lia| |reflexivity..].
  - apply (plays_sound [MSubmit 0 10%nat; MShutdown; MAdvance 0; MAdvance 0; MAdvance 0; MAdvance 0; MAdvance 0]).
    reflexivity.
  - repeat constructor.
Defined.


End Machine.
