(* ===== verification/Dispatcher.v ===== *)
(** * Dispatchers

    [src/include/socketpp/event/dispatcher.hpp], [src/src/event/epoll.cpp] and
    [src/src/event/kqueue.cpp].

    [Dispatcher] is what the rest of the library relies on: registration,
    change of interest and removal of a socket, as the abstract class in the
    source documents them.  [Epoll] and [Kqueue] model the two readiness-based
    back ends, over the system calls they make: a kernel is an argument, with
    the documented behaviour of its calls as the laws of a class, and each has
    a concrete kernel for the witnesses. *)

From S2P Require Import Prelude Platform.

Local Open Scope Z_scope.

(** ** The interface *)

(** The part of an interest mask a dispatcher registers: readable, writable. *)
Definition effective (interest : Z) : Z :=
  ev_or (if has_event interest ev_readable then ev_readable else ev_none)
        (if has_event interest ev_writable then ev_writable else ev_none).

Class Dispatcher (CB : Type) := {
  disp : Type;
  d_add : Z → Z → CB → disp → result_void * disp;
  d_modify : Z → Z → disp → result_void * disp;
  d_remove : Z → disp → result_void * disp;
  (** the interest and the callback under which a socket is registered *)
  d_lookup : disp → Z → option (Z * CB);
  d_wf : disp → Prop
}.

Class DispatcherLaws {CB : Type} (D : Dispatcher CB) : Prop := {
  law_add fd i cb d r d' :
    d_wf d → d_add fd i cb d = (r, d') →
    d_wf d' ∧ (∀ fd', fd' ≠ fd → d_lookup d' fd' = d_lookup d fd') ∧
    d_lookup d' fd = if rv_bool r then Some (effective i, cb) else d_lookup d fd;
  law_modify fd i d r d' :
    d_wf d → d_modify fd i d = (r, d') →
    d_wf d' ∧ (∀ fd', fd' ≠ fd → d_lookup d' fd' = d_lookup d fd') ∧
    d_lookup d' fd = if rv_bool r then (λ p, (effective i, p.2)) <$> d_lookup d fd
                     else d_lookup d fd;
  law_remove fd d r d' :
    d_wf d → d_remove fd d = (r, d') →
    d_wf d' ∧ (∀ fd', fd' ≠ fd → d_lookup d' fd' = d_lookup d fd') ∧
    d_lookup d' fd = if rv_bool r then None else d_lookup d fd;
  law_remove_ok fd d : d_wf d → is_Some (d_lookup d fd) → rv_bool (d_remove fd d).1 = true
}.

(** A dispatcher on which a change of interest of a registered socket cannot fail. *)
Class DispatcherReliable {CB : Type} (D : Dispatcher CB) : Prop :=
  law_modify_ok fd i d : d_wf d → is_Some (d_lookup d fd) → rv_bool (d_modify fd i d).1 = true.

(** ** epoll *)

Definition EPOLLIN : Z := 0x1.
Definition EPOLLOUT : Z := 0x4.
Definition EPOLLERR : Z := 0x8.
Definition EPOLLHUP : Z := 0x10.
Definition EPOLLRDHUP : Z := 0x2000.

Definition to_epoll_events (interest : Z) : Z :=
  let events := Z.lor (Z.lor EPOLLERR EPOLLHUP) EPOLLRDHUP in
  let events := if has_event interest ev_readable then Z.lor events EPOLLIN else events in
  if has_event interest ev_writable then Z.lor events EPOLLOUT else events.

Definition from_epoll_events (events : Z) : Z :=
  let result := ev_none in
  let result := if negb (Z.land events EPOLLIN =? 0) then ev_or result ev_readable else result in
  let result := if negb (Z.land events EPOLLOUT =? 0) then ev_or result ev_writable else result in
  let result := if negb (Z.land events EPOLLERR =? 0) then ev_or result ev_error else result in
  let result := if negb (Z.land events EPOLLHUP =? 0) then ev_or result ev_hangup else result in
  if negb (Z.land events EPOLLRDHUP =? 0) then ev_or result ev_peer_shutdown else result.

(** The seconds and nanoseconds of an [itimerspec]: first expiry and interval. *)
Record itimerspec := mk_itimerspec {
  it_value_sec : Z; it_value_nsec : Z; it_interval_sec : Z; it_interval_nsec : Z
}.

Inductive ctl_op := EPOLL_CTL_ADD | EPOLL_CTL_MOD | EPOLL_CTL_DEL.

(** The system calls [epoll.cpp] makes.  [epoll_ctl] returns 0 or the [errno];
    [timer_armed] is the setting of a timerfd, [None] when it is disarmed. *)
Class EpollKernel := {
  kernel : Type;
  epoll_ctl : ctl_op → Z → Z → kernel → Z * kernel;
  timerfd_create : kernel → option Z * kernel;
  timerfd_settime : Z → itimerspec → kernel → bool * kernel;
  close_fd : Z → kernel → kernel;
  epoll_set : kernel → gmap Z Z;
  timer_armed : kernel → Z → option itimerspec
}.

Definition its_disarms (its : itimerspec) : bool :=
  (it_value_sec its =? 0) && (it_value_nsec its =? 0).

(** What the manual pages of [epoll_ctl], [timerfd_create], [timerfd_settime]
    and [close] document, as far as the dispatcher relies on it. *)
Class EpollKernelLaws (K : EpollKernel) : Prop := {
  ctl_add fd ev k e k' :
    epoll_ctl EPOLL_CTL_ADD fd ev k = (e, k') →
    epoll_set k' = if e =? 0 then <[fd:=ev]> (epoll_set k) else epoll_set k;
  ctl_add_exist fd ev k :
    is_Some (epoll_set k !! fd) → (epoll_ctl EPOLL_CTL_ADD fd ev k).1 ≠ 0;
  ctl_mod fd ev k e k' :
    epoll_ctl EPOLL_CTL_MOD fd ev k = (e, k') →
    epoll_set k' = if e =? 0 then <[fd:=ev]> (epoll_set k) else epoll_set k;
  ctl_mod_exist fd ev k :
    is_Some (epoll_set k !! fd) ↔ (epoll_ctl EPOLL_CTL_MOD fd ev k).1 = 0;
  ctl_del fd ev k e k' :
    epoll_ctl EPOLL_CTL_DEL fd ev k = (e, k') →
    epoll_set k' = if e =? 0 then delete fd (epoll_set k) else epoll_set k;
  ctl_del_exist fd ev k :
    is_Some (epoll_set k !! fd) ↔ (epoll_ctl EPOLL_CTL_DEL fd ev k).1 = 0;
  ctl_armed op fd ev k : timer_armed (epoll_ctl op fd ev k).2 = timer_armed k;
  create_fresh k fd k' :
    timerfd_create k = (Some fd, k') →
    0 < fd < 2 ^ 31 ∧ epoll_set k !! fd = None ∧ epoll_set k' = epoll_set k;
  create_fail k k' : timerfd_create k = (None, k') → epoll_set k' = epoll_set k;
  settime_set fd its k ok k' :
    timerfd_settime fd its k = (ok, k') → epoll_set k' = epoll_set k;
  settime_armed fd its k k' :
    timerfd_settime fd its k = (true, k') →
    timer_armed k' fd = if its_disarms its then None else Some its;
  close_set fd k : epoll_set (close_fd fd k) = delete fd (epoll_set k)
}.

Module Epoll.
Section Epoll.
Context `{K : EpollKernel} {CB TCB : Type}.
Context (errnos : posix_errno).

(** [node] identifies the map node a [timer_info] lives in, so that the use of
    an iterator whose node was erased can be told apart. *)
Record timer_info := mk_timer_info {
  ti_id : Z; ti_callback : TCB; ti_repeating : bool; ti_node : nat
}.

Record epoll_dispatcher := mk_epoll {
  ep_kernel : kernel;
  waker_fd : Z;
  callbacks_ : gmap Z CB;
  timer_callbacks_ : gmap Z timer_info;
  next_node : nat
}.

Definition set_kernel (k : kernel) (d : epoll_dispatcher) : epoll_dispatcher :=
  mk_epoll k (waker_fd d) (callbacks_ d) (timer_callbacks_ d) (next_node d).

Definition syscall_error (e : Z) : result_void :=
  mk_result_void (normalize_error (posix_switch errnos) (last_socket_error e)).

Definition add (fd interest : Z) (cb : CB) (d : epoll_dispatcher) : result_void * epoll_dispatcher :=
  let '(e, k) := epoll_ctl EPOLL_CTL_ADD fd (to_epoll_events interest) (ep_kernel d) in
  if negb (e =? 0) then (syscall_error e, set_kernel k d)
  else (rv_ok, mk_epoll k (waker_fd d) (<[fd:=cb]> (callbacks_ d)) (timer_callbacks_ d) (next_node d)).

Definition modify (fd interest : Z) (d : epoll_dispatcher) : result_void * epoll_dispatcher :=
  let '(e, k) := epoll_ctl EPOLL_CTL_MOD fd (to_epoll_events interest) (ep_kernel d) in
  if negb (e =? 0) then (syscall_error e, set_kernel k d)
  else (rv_ok, set_kernel k d).

Definition remove (fd : Z) (d : epoll_dispatcher) : result_void * epoll_dispatcher :=
  let '(e, k) := epoll_ctl EPOLL_CTL_DEL fd 0 (ep_kernel d) in
  if negb (e =? 0) then (syscall_error e, set_kernel k d)
  else (rv_ok, mk_epoll k (waker_fd d) (delete fd (callbacks_ d)) (timer_callbacks_ d) (next_node d)).

(** [schedule_timer]: the conversion of the timeout, with the truncating
    division of C++, and the three system calls. *)
Definition timer_spec (timeout : Z) (repeat : bool) : itimerspec :=
  let secs := Z.quot timeout 1000 in
  let nsecs := (Z.rem timeout 1000 * 1000000) in
  mk_itimerspec secs nsecs (if repeat then secs else 0) (if repeat then nsecs else 0).

Definition schedule_timer (timeout : Z) (repeat : bool) (cb : TCB) (d : epoll_dispatcher) :
    Z * epoll_dispatcher :=
  match timerfd_create (ep_kernel d) with
  | (None, k) => (0, set_kernel k d)
  | (Some tfd, k) =>
      let '(ok, k) := timerfd_settime tfd (timer_spec timeout repeat) k in
      if negb ok then (0, set_kernel (close_fd tfd k) d)
      else
        let '(e, k) := epoll_ctl EPOLL_CTL_ADD tfd EPOLLIN k in
        if negb (e =? 0) then (0, set_kernel (close_fd tfd k) d)
        else
          let id := u64 tfd in
          (id, mk_epoll k (waker_fd d) (callbacks_ d)
                 (<[tfd := mk_timer_info id cb repeat (next_node d)]> (timer_callbacks_ d))
                 (S (next_node d)))
  end.

(** The signed 32-bit value of a [timer_id]. *)
Definition to_int (id : Z) : Z := let z := u32 id in if z <? 2 ^ 31 then z else z - 2 ^ 32.

Definition drop_timer (tfd : Z) (d : epoll_dispatcher) : epoll_dispatcher :=
  let '(_, k) := epoll_ctl EPOLL_CTL_DEL tfd 0 (ep_kernel d) in
  mk_epoll (close_fd tfd k) (waker_fd d) (callbacks_ d) (delete tfd (timer_callbacks_ d)) (next_node d).

Definition cancel_timer (id : Z) (d : epoll_dispatcher) : epoll_dispatcher :=
  let tfd := to_int id in
  match timer_callbacks_ d !! tfd with
  | Some _ => drop_timer tfd d
  | None => d
  end.

(** *** [poll] *)

(** What a callback does to the dispatcher: any calls of its operations. *)
Context (run_io : CB → Z → Z → epoll_dispatcher → epoll_dispatcher).
Context (run_timer : TCB → epoll_dispatcher → epoll_dispatcher).

Inductive dispatched :=
| Woken
| FiredTimer (tfd : Z) (cb : TCB)
| FiredIo (fd : Z) (cb : CB) (ev : Z)
| NoCallback (fd : Z).

(** One event of the array [epoll_wait] filled; [None] when the source uses an
    iterator or a reference into [timer_callbacks_] after its node is erased. *)
Definition dispatch_event (e : Z * Z) (d : epoll_dispatcher) : option (dispatched * epoll_dispatcher) :=
  let '(fd, mask) := e in
  if fd =? waker_fd d then Some (Woken, d)
  else match timer_callbacks_ d !! fd with
  | Some info =>
      let d' := run_timer (ti_callback info) d in
      match timer_callbacks_ d' !! fd with
      | Some info' =>
          if (ti_node info' =? ti_node info)%nat then
            Some (FiredTimer fd (ti_callback info),
                  if negb (ti_repeating info) then drop_timer fd d' else d')
          else None
      | None => None
      end
  | None =>
      match callbacks_ d !! fd with
      | Some cb => Some (FiredIo fd cb (from_epoll_events mask), run_io cb fd (from_epoll_events mask) d)
      | None => Some (NoCallback fd, d)
      end
  end.

Fixpoint dispatch_events (es : list (Z * Z)) (d : epoll_dispatcher) :
    option (list dispatched * epoll_dispatcher) :=
  match es with
  | [] => Some ([], d)
  | e :: es' =>
      match dispatch_event e d with
      | None => None
      | Some (x, d') =>
          match dispatch_events es' d' with
          | None => None
          | Some (xs, d'') => Some (x :: xs, d'')
          end
      end
  end.

(** [poll], given what [epoll_wait] returned: an [errno] or the events. *)
Definition poll (wait : Z + list (Z * Z)) (d : epoll_dispatcher) :
    option (result Z * list dispatched * epoll_dispatcher) :=
  match wait with
  | inl e => if e =? EINTR errnos then Some (Val 0, [], d)
             else Some (Err (rv_error (syscall_error e)), [], d)
  | inr es =>
      match dispatch_events es d with
      | None => None
      | Some (xs, d') => Some (Val (Z.of_nat (length es)), xs, d')
      end
  end.

(** *** The interface *)

(** The interest a registered event mask stands for. *)
Definition interest_of (events : Z) : Z :=
  ev_or (if negb (Z.land events EPOLLIN =? 0) then ev_readable else ev_none)
        (if negb (Z.land events EPOLLOUT =? 0) then ev_writable else ev_none).

Definition lookup_epoll (d : epoll_dispatcher) (fd : Z) : option (Z * CB) :=
  match callbacks_ d !! fd, epoll_set (ep_kernel d) !! fd with
  | Some cb, Some events => Some (interest_of events, cb)
  | _, _ => None
  end.

(** Every socket with a callback is in the kernel's interest list. *)
Definition epoll_wf (d : epoll_dispatcher) : Prop :=
  ∀ fd, is_Some (callbacks_ d !! fd) → is_Some (epoll_set (ep_kernel d) !! fd).

#[export] Instance epoll_interface : Dispatcher CB := {|
  disp := epoll_dispatcher;
  d_add := add; d_modify := modify; d_remove := remove;
  d_lookup := lookup_epoll; d_wf := epoll_wf
|}.

Lemma interest_of_to_epoll i : interest_of (to_epoll_events i) = effective i.
Proof.
  unfold to_epoll_events, effective.
  by destruct (has_event i ev_readable), (has_event i ev_writable).
Qed.

Context `{!EpollKernelLaws K}.

Lemma syscall_error_false e : e ≠ 0 → rv_bool (syscall_error e) = false.
Proof. apply syscall_fails. Qed.

(** A call that leaves the interest list, the callbacks and the timers alone
    leaves every lookup alone. *)
Lemma lookup_epoll_set_kernel d k fd :
  epoll_set k = epoll_set (ep_kernel d) → lookup_epoll (set_kernel k d) fd = lookup_epoll d fd.
Proof. intros H. unfold lookup_epoll. simpl. by rewrite H. Qed.

Lemma epoll_wf_set_kernel d k :
  epoll_set k = epoll_set (ep_kernel d) → epoll_wf d → epoll_wf (set_kernel k d).
Proof. unfold epoll_wf. simpl. by intros ->. Qed.

Lemma add_laws fd i cb d r d' :
  epoll_wf d → add fd i cb d = (r, d') →
  epoll_wf d' ∧ (∀ fd', fd' ≠ fd → lookup_epoll d' fd' = lookup_epoll d fd') ∧
  lookup_epoll d' fd = if rv_bool r then Some (effective i, cb) else lookup_epoll d fd.
Proof.
  intros Hwf. unfold add. destruct (epoll_ctl _ _ _ _) as [e k] eqn:Ek.
  apply ctl_add in Ek. destruct (e =? 0) eqn:Ee; bool_facts; simpl; intros [= <- <-].
  - split_and!.
    + intros fd'. simpl. rewrite Ek. destruct (decide (fd = fd')) as [->|Hne].
      * rewrite !lookup_insert_eq. intros _. by eexists.
      * rewrite !lookup_insert_ne by done. apply Hwf.
    + intros fd' Hne. unfold lookup_epoll. simpl. by rewrite Ek, !lookup_insert_ne.
    + unfold lookup_epoll. simpl. by rewrite Ek, !lookup_insert_eq, interest_of_to_epoll.
  - rewrite syscall_error_false by done.
    split_and!; [by apply epoll_wf_set_kernel|intros; by apply lookup_epoll_set_kernel..].
Qed.

Lemma modify_laws fd i d r d' :
  epoll_wf d → modify fd i d = (r, d') →
  epoll_wf d' ∧ (∀ fd', fd' ≠ fd → lookup_epoll d' fd' = lookup_epoll d fd') ∧
  lookup_epoll d' fd = if rv_bool r then (λ p, (effective i, p.2)) <$> lookup_epoll d fd
                       else lookup_epoll d fd.
Proof.
  intros Hwf. unfold modify. destruct (epoll_ctl _ _ _ _) as [e k] eqn:Ek.
  pose proof (ctl_mod_exist fd (to_epoll_events i) (ep_kernel d)) as Hx. rewrite Ek in Hx.
  apply ctl_mod in Ek. destruct (e =? 0) eqn:Ee; bool_facts; simpl in *; intros [= <- <-].
  - apply proj2 in Hx. destruct (Hx Ee) as [ev Hev]. split_and!.
    + intros fd' Hcb. simpl in *. rewrite Ek. destruct (decide (fd = fd')) as [->|Hne].
      * rewrite lookup_insert_eq. by eexists.
      * rewrite lookup_insert_ne by done. by apply Hwf.
    + intros fd' Hne. unfold lookup_epoll. simpl. by rewrite Ek, !lookup_insert_ne.
    + unfold lookup_epoll. simpl. rewrite Ek, lookup_insert_eq, Hev, interest_of_to_epoll.
      by destruct (callbacks_ d !! fd).
  - rewrite syscall_error_false by done.
    split_and!; [by apply epoll_wf_set_kernel|intros; by apply lookup_epoll_set_kernel..].
Qed.

Lemma remove_laws fd d r d' :
  epoll_wf d → remove fd d = (r, d') →
  epoll_wf d' ∧ (∀ fd', fd' ≠ fd → lookup_epoll d' fd' = lookup_epoll d fd') ∧
  lookup_epoll d' fd = if rv_bool r then None else lookup_epoll d fd.
Proof.
  intros Hwf. unfold remove. destruct (epoll_ctl _ _ _ _) as [e k] eqn:Ek.
  apply ctl_del in Ek. destruct (e =? 0) eqn:Ee; bool_facts; simpl in *; intros [= <- <-].
  - split_and!.
    + intros fd' Hcb. simpl in *. rewrite Ek. destruct (decide (fd = fd')) as [->|Hne].
      * rewrite lookup_delete_eq in Hcb. by destruct (is_Some_None Hcb).
      * rewrite lookup_delete_ne in Hcb by done. rewrite lookup_delete_ne by done. by apply Hwf.
    + intros fd' Hne. unfold lookup_epoll. simpl. by rewrite Ek, !lookup_delete_ne.
    + unfold lookup_epoll. simpl. by rewrite lookup_delete_eq.
  - rewrite syscall_error_false by done.
    split_and!; [by apply epoll_wf_set_kernel|intros; by apply lookup_epoll_set_kernel..].
Qed.

Lemma registered_in_set d fd :
  is_Some (lookup_epoll d fd) → is_Some (epoll_set (ep_kernel d) !! fd).
Proof.
  unfold lookup_epoll. intros [p H]. destruct (callbacks_ d !! fd); [|done].
  by destruct (epoll_set _ !! fd).
Qed.

#[export] Instance epoll_laws : DispatcherLaws epoll_interface.
Proof.
  constructor; simpl; intros.
  - by eapply add_laws.
  - by eapply modify_laws.
  - by eapply remove_laws.
  - unfold remove. destruct (epoll_ctl _ _ _ _) as [e k] eqn:Ek.
    match goal with H : is_Some _ |- _ => apply registered_in_set in H;
      apply (ctl_del_exist fd 0) in H; rewrite Ek in H; simpl in H end.
    by subst.
Qed.

#[export] Instance epoll_reliable : DispatcherReliable epoll_interface.
Proof.
  intros fd i d _ H. apply registered_in_set, (ctl_mod_exist fd (to_epoll_events i)) in H.
  simpl. unfold modify. destruct (epoll_ctl _ _ _ _) as [e k] eqn:Ek. simpl in H. by subst.
Qed.

(** *** Timers *)

Lemma timer_spec_disarms timeout repeat : its_disarms (timer_spec timeout repeat) = (timeout =? 0).
Proof.
  unfold its_disarms, timer_spec. simpl. pose proof (Z.quot_rem timeout 1000 ltac:(lia)).
  destruct (timeout =? 0) eqn:E; bool_facts; [by subst|].
  destruct (Z.quot timeout 1000 =? 0) eqn:E1, (Z.rem timeout 1000 * 1000000 =? 0) eqn:E2;
    bool_facts; simpl; try done. nia.
Qed.

Lemma to_int_u64 fd : 0 < fd < 2 ^ 31 → to_int (u64 fd) = fd ∧ u64 fd ≠ 0.
Proof.
  intros H. unfold to_int, wrap.
  rewrite (Z.mod_small fd (2 ^ 64)), (Z.mod_small fd (2 ^ 32)) by lia.
  rewrite (proj2 (Z.ltb_lt _ _)) by lia. lia.
Qed.

Lemma schedule_timer_cases timeout repeat cb d id d' :
  schedule_timer timeout repeat cb d = (id, d') →
  (id = 0 ∧ timer_callbacks_ d' = timer_callbacks_ d ∧
     epoll_set (ep_kernel d') = epoll_set (ep_kernel d)) ∨
  (∃ tfd, 0 < tfd < 2 ^ 31 ∧ id = u64 tfd ∧ epoll_set (ep_kernel d) !! tfd = None ∧
     timer_callbacks_ d' = <[tfd := mk_timer_info id cb repeat (next_node d)]> (timer_callbacks_ d) ∧
     epoll_set (ep_kernel d') = <[tfd := EPOLLIN]> (epoll_set (ep_kernel d)) ∧
     timer_armed (ep_kernel d') tfd
     = if its_disarms (timer_spec timeout repeat) then None else Some (timer_spec timeout repeat)).
Proof.
  unfold schedule_timer. destruct (timerfd_create _) as [[tfd|] k1] eqn:Ec.
  2: { apply create_fail in Ec. intros [= <- <-]. left. by split_and!. }
  apply create_fresh in Ec as (Hb & Hn & Hs1).
  destruct (timerfd_settime _ _ _) as [ok k2] eqn:Et.
  pose proof (settime_set _ _ _ _ _ Et) as Hs2.
  assert (Hclose : ∀ k, epoll_set k = epoll_set (ep_kernel d) →
            epoll_set (close_fd tfd k) = epoll_set (ep_kernel d)).
  { intros k Hk. by rewrite close_set, Hk, delete_id. }
  destruct ok; simpl.
  2: { intros [= <- <-]. left. simpl. split_and!; [done..|]. apply Hclose. congruence. }
  apply settime_armed in Et. destruct (epoll_ctl _ _ _ _) as [e k3] eqn:Ek.
  pose proof (ctl_armed EPOLL_CTL_ADD tfd EPOLLIN k2) as Ha. rewrite Ek in Ha. simpl in Ha.
  apply ctl_add in Ek. destruct (e =? 0) eqn:Ee; bool_facts; simpl; intros [= <- <-].
  - right. exists tfd. simpl. rewrite Ek, Hs2, Hs1, Ha, Et. split_and!; done || lia.
  - left. simpl. split_and!; [done..|]. apply Hclose. congruence.
Qed.

Lemma drop_timer_facts tfd d :
  timer_callbacks_ (drop_timer tfd d) = delete tfd (timer_callbacks_ d) ∧
  callbacks_ (drop_timer tfd d) = callbacks_ d ∧
  epoll_set (ep_kernel (drop_timer tfd d)) = delete tfd (epoll_set (ep_kernel d)).
Proof.
  unfold drop_timer. destruct (epoll_ctl _ _ _ _) as [e k] eqn:Ek. simpl.
  split_and!; [done..|]. rewrite close_set. apply ctl_del in Ek. rewrite Ek.
  destruct (e =? 0); [apply delete_delete_eq|done].
Qed.


(** Scheduling and cancelling a timer.  [schedule_timer] either returns 0
    and leaves the timers and the kernel's interest list as they were, or
    returns a non-zero id under which exactly one new timer is registered; a
    timeout other than 0 arms the timerfd with that many milliseconds (and the
    same interval when repeating), and cancelling the id takes that timer, and
    nothing else, away again. *)
Theorem schedule_cancel_timer timeout repeat cb d id d' :
  (∀ fd, is_Some (timer_callbacks_ d !! fd) → is_Some (epoll_set (ep_kernel d) !! fd)) →
  schedule_timer timeout repeat cb d = (id, d') →
  (id = 0 ∧ timer_callbacks_ d' = timer_callbacks_ d ∧
     epoll_set (ep_kernel d') = epoll_set (ep_kernel d)) ∨
  (id ≠ 0 ∧
   timer_callbacks_ d' = <[to_int id := mk_timer_info id cb repeat (next_node d)]> (timer_callbacks_ d) ∧
   timer_callbacks_ d !! to_int id = None ∧
   (timeout ≠ 0 → ∃ its, timer_armed (ep_kernel d') (to_int id) = Some its ∧
      it_value_sec its * 1000 * 1000000 + it_value_nsec its = timeout * 1000000 ∧
      (repeat = true → it_interval_sec its = it_value_sec its ∧
                       it_interval_nsec its = it_value_nsec its)) ∧
   timer_callbacks_ (cancel_timer id d') = timer_callbacks_ d ∧
   epoll_set (ep_kernel (cancel_timer id d')) = epoll_set (ep_kernel d)).
Proof.
  intros Hin H. apply schedule_timer_cases in H as [?|(tfd & Hb & -> & Hn & Ht & Hs & Ha)];
    [by left|right]. destruct (to_int_u64 tfd Hb) as [Hti Hne]. rewrite Hti.
  assert (timer_callbacks_ d !! tfd = None) as Htn.
  { apply eq_None_not_Some. intros Hsome. destruct (Hin _ Hsome) as [? ?]. congruence. }
  split_and!; [done..| | |].
  - intros Hz. rewrite timer_spec_disarms, (proj2 (Z.eqb_neq _ _) Hz) in Ha.
    eexists. split; [exact Ha|]. unfold timer_spec. simpl.
    pose proof (Z.quot_rem timeout 1000 ltac:(lia)). split; [lia|by intros ->].
  - unfold cancel_timer. rewrite Hti, Ht, lookup_insert_eq.
    rewrite (proj1 (drop_timer_facts tfd d')), Ht. by rewrite delete_insert_id.
  - unfold cancel_timer. rewrite Hti, Ht, lookup_insert_eq.
    rewrite (proj2 (proj2 (drop_timer_facts tfd d'))), Hs. by rewrite delete_insert_id.
Qed.

(** A one-shot timer fires once.  Dispatching its event runs its callback
    and then removes it from the timers and from the kernel's interest list
    (unless the callback erased the timer's own map node first, which [poll]
    cannot survive); later events of that descriptor run nothing. *)
Theorem one_shot_fires_once fd mask d info x d' :
  timer_callbacks_ d !! fd = Some info → ti_repeating info = false → fd ≠ waker_fd d →
  dispatch_event (fd, mask) d = Some (x, d') →
  x = FiredTimer fd (ti_callback info) ∧
  timer_callbacks_ d' !! fd = None ∧ epoll_set (ep_kernel d') !! fd = None.
Proof.
  intros Ht Hr Hw. unfold dispatch_event. rewrite (proj2 (Z.eqb_neq _ _) Hw), Ht.
  destruct (timer_callbacks_ (run_timer _ d) !! fd) as [info'|]; [|done].
  destruct (_ =? _)%nat; [|done]. rewrite Hr. intros [= <- <-].
  destruct (drop_timer_facts fd (run_timer (ti_callback info) d)) as (-> & _ & ->).
  by rewrite !lookup_delete_eq.
Qed.

(** A zero timeout never fires.  [schedule_timer] with a timeout of 0 reports
    success with a non-zero id, but the zero [it_value] it passes to
    [timerfd_settime] disarms the timer. *)
Theorem zero_timeout_not_armed repeat cb d id d' :
  schedule_timer 0 repeat cb d = (id, d') → id ≠ 0 →
  is_Some (timer_callbacks_ d' !! to_int id) ∧ timer_armed (ep_kernel d') (to_int id) = None.
Proof.
  intros H Hid. apply schedule_timer_cases in H as [[? _]|(tfd & Hb & -> & Hn & Ht & Hs & Ha)];
    [done|]. destruct (to_int_u64 tfd Hb) as [-> _]. rewrite Ht, lookup_insert_eq, Ha.
  rewrite timer_spec_disarms. split; [by eexists|done].
Qed.

(** Cancelling a stale handle can cancel another timer.  A timer id is the
    number of a timerfd; when a one-shot timer has fired and a second timer has
    been given the same descriptor, [cancel_timer] on the first handle's id
    removes the second timer. *)
Theorem stale_cancel_hits_new_timer timeout1 timeout2 rep cb1 cb2 mask d id d1 x d2 d3 :
  schedule_timer timeout1 false cb1 d = (id, d1) → id ≠ 0 →
  dispatch_event (to_int id, mask) d1 = Some (x, d2) →
  schedule_timer timeout2 rep cb2 d2 = (id, d3) →
  (∃ info, timer_callbacks_ d3 !! to_int id = Some info ∧ ti_callback info = cb2) ∧
  timer_callbacks_ (cancel_timer id d3) !! to_int id = None.
Proof.
  intros H1 Hid _ H2. apply schedule_timer_cases in H2 as [[? _]|(tfd & Hb & -> & Hn & Ht & _)];
    [done|]. destruct (to_int_u64 tfd Hb) as [Hti _].
  unfold cancel_timer. rewrite Hti, Ht, lookup_insert_eq. split; [by eexists|].
  rewrite (proj1 (drop_timer_facts tfd d3)). apply lookup_delete_eq.
Qed.

End Epoll.
Arguments timer_info : clear implicits.
Arguments epoll_dispatcher {K} CB TCB.

(** *** A concrete kernel *)

(** Descriptors are handed out lowest first, as POSIX prescribes. *)
Record demo_kernel := mk_demo_kernel {
  dk_open : gset Z; dk_set : gmap Z Z; dk_armed : gmap Z itimerspec
}.

Definition demo_free (k : demo_kernel) (fd : Z) : Prop :=
  dk_set k !! fd = None ∧ fd ∉ dk_open k.

Definition demo_create (k : demo_kernel) : option Z * demo_kernel :=
  match list_find (demo_free k) (seqZ 3 61) with
  | Some (_, fd) => (Some fd, mk_demo_kernel ({[fd]} ∪ dk_open k) (dk_set k) (dk_armed k))
  | None => (None, k)
  end.

Definition demo_ctl (op : ctl_op) (fd ev : Z) (k : demo_kernel) : Z * demo_kernel :=
  match op, dk_set k !! fd with
  | EPOLL_CTL_ADD, Some _ => (17, k)
  | EPOLL_CTL_ADD, None =>
      if decide (fd ∈ dk_open k)
      then (0, mk_demo_kernel (dk_open k) (<[fd:=ev]> (dk_set k)) (dk_armed k)) else (9, k)
  | EPOLL_CTL_MOD, Some _ => (0, mk_demo_kernel (dk_open k) (<[fd:=ev]> (dk_set k)) (dk_armed k))
  | EPOLL_CTL_DEL, Some _ => (0, mk_demo_kernel (dk_open k) (delete fd (dk_set k)) (dk_armed k))
  | _, None => (2, k)
  end.

Definition demo_settime (fd : Z) (its : itimerspec) (k : demo_kernel) : bool * demo_kernel :=
  if (it_value_sec its <? 0) || (it_value_nsec its <? 0) then (false, k)
  else (true, mk_demo_kernel (dk_open k) (dk_set k)
                (if its_disarms its then delete fd (dk_armed k) else <[fd:=its]> (dk_armed k))).

#[export] Instance demo_epoll : EpollKernel := {|
  kernel := demo_kernel;
  epoll_ctl := demo_ctl;
  timerfd_create := demo_create;
  timerfd_settime := demo_settime;
  close_fd fd k := mk_demo_kernel (dk_open k ∖ {[fd]}) (delete fd (dk_set k)) (delete fd (dk_armed k));
  epoll_set := dk_set;
  timer_armed k fd := dk_armed k !! fd
|}.

#[export] Instance demo_epoll_laws : EpollKernelLaws demo_epoll.
Proof.
  constructor; simpl; intros.
  - unfold demo_ctl in *. destruct (dk_set k !! fd); [by simplify_eq|].
    destruct (decide _); by simplify_eq.
  - unfold demo_ctl. destruct (dk_set k !! fd); [done|by destruct H].
  - unfold demo_ctl in *. destruct (dk_set k !! fd); by simplify_eq.
  - unfold demo_ctl. destruct (dk_set k !! fd); simpl; [by split; [|eexists]|].
    split; [by intros [? ?]|done].
  - unfold demo_ctl in *. destruct (dk_set k !! fd); by simplify_eq.
  - unfold demo_ctl. destruct (dk_set k !! fd); simpl; [by split; [|eexists]|].
    split; [by intros [? ?]|done].
  - unfold demo_ctl. destruct op, (dk_set k !! fd); simpl; try done. by destruct (decide _).
  - unfold demo_create in *. destruct (list_find _ _) as [[i fd']|] eqn:E; [|done].
    match goal with H : _ = (Some _, _) |- _ => injection H as <- <- end.
    apply list_find_Some in E as (Hi & [? ?] & _). apply lookup_seqZ in Hi.
    split_and!; [lia..|done|done].
  - unfold demo_create in *. destruct (list_find _ _) as [[i fd']|]; [done|congruence].
  - unfold demo_settime in *. destruct (_ || _); by simplify_eq.
  - unfold demo_settime in *. destruct (_ || _); simplify_eq/=.
    destruct (its_disarms its); [apply lookup_delete_eq|apply lookup_insert_eq].
  - done.
Qed.

(** A dispatcher with one socket, descriptor 5, registered for reading. *)
Definition demo_disp : @epoll_dispatcher demo_epoll nat nat :=
  (add linux_errno 5 ev_readable 50%nat
     (mk_epoll (mk_demo_kernel {[3; 4; 5]} {[4 := EPOLLIN]} ∅) 4 ∅ ∅ 0)).2.

Lemma demo_disp_wf : epoll_wf demo_disp.
Proof.
  eapply (add_laws linux_errno 5 ev_readable 50%nat); [|apply surjective_pairing].
  intros fd H. by destruct (is_Some_None H).
Qed.

Lemma demo_disp_timers fd :
  is_Some (timer_callbacks_ demo_disp !! fd) → is_Some (epoll_set (ep_kernel demo_disp) !! fd).
Proof. intros H. by destruct (is_Some_None H). Qed.


Definition demo_sched : Z * @epoll_dispatcher demo_epoll nat nat :=
  schedule_timer 1500 false 70%nat demo_disp.

Lemma schedule_cancel_timer_witness :
  demo_sched.1 = 6 ∧
  timer_armed (ep_kernel demo_sched.2) 6 = Some (mk_itimerspec 1 500000000 0 0) ∧
  ((demo_sched.1 = 0 ∧ timer_callbacks_ demo_sched.2 = timer_callbacks_ demo_disp ∧
      epoll_set (ep_kernel demo_sched.2) = epoll_set (ep_kernel demo_disp)) ∨
   timer_callbacks_ (cancel_timer demo_sched.1 demo_sched.2) = timer_callbacks_ demo_disp).
Proof.
  split_and!; [vm_compute; reflexivity..|].
  destruct (schedule_cancel_timer 1500 false 70%nat demo_disp demo_sched.1 demo_sched.2
    demo_disp_timers (surjective_pairing _)) as [H|H]; [left; exact H|right; apply H].
Defined.

(** The dispatcher after the timer's event has been dispatched. *)
Definition demo_fired : @epoll_dispatcher demo_epoll nat nat :=
  match dispatch_event (λ _ _ _ d, d) (λ _ d, d) (6, EPOLLIN) demo_sched.2 with
  | Some (_, d) => d | None => demo_disp end.

Lemma demo_fired_eq :
  dispatch_event (λ _ _ _ d, d) (λ _ d, d) (to_int 6, EPOLLIN) demo_sched.2
  = Some (FiredTimer 6 70%nat, demo_fired).
Proof.
  assert (fst <$> dispatch_event (λ _ _ _ d, d) (λ _ d, d) (6, EPOLLIN) demo_sched.2
          = Some (FiredTimer 6 70%nat)) as H by (vm_compute; reflexivity).
  unfold demo_fired. change (to_int 6) with 6.
  destruct (dispatch_event _ _ (6, EPOLLIN) demo_sched.2) as [[x d]|]; by simplify_eq/=.
Qed.

Lemma pair_fst_eq {A B} (p : A * B) a : p.1 = a → p = (a, p.2).
Proof. intros <-. apply surjective_pairing. Qed.

Lemma one_shot_fires_once_witness :
  timer_callbacks_ demo_sched.2 !! 6 = Some (mk_timer_info 6 70%nat false 0) ∧
  timer_callbacks_ demo_fired !! 6 = None ∧ epoll_set (ep_kernel demo_fired) !! 6 = None.
Proof.
  split; [vm_compute; reflexivity|].
  apply (one_shot_fires_once (λ _ _ _ d, d) (λ _ d, d) 6 EPOLLIN demo_sched.2
           (mk_timer_info 6 70%nat false 0) (FiredTimer 6 70%nat));
    [vm_compute; reflexivity|reflexivity|done|exact demo_fired_eq].
Defined.

Lemma zero_timeout_not_armed_witness :
  (schedule_timer 0 false 70%nat demo_disp).1 = 6 ∧
  timer_armed (ep_kernel (schedule_timer 0 false 70%nat demo_disp).2) 6 = None.
Proof.
  split; [vm_compute; reflexivity|].
  apply (zero_timeout_not_armed false 70%nat demo_disp 6
           (schedule_timer 0 false 70%nat demo_disp).2); [|done].
  apply pair_fst_eq. vm_compute. reflexivity.
Defined.

(** The descriptor of the fired timer is handed out again to the next one. *)
Definition demo_second : Z * @epoll_dispatcher demo_epoll nat nat :=
  schedule_timer 9000 true 80%nat demo_fired.

Lemma stale_cancel_hits_new_timer_witness :
  demo_second.1 = demo_sched.1 ∧ timer_callbacks_ (cancel_timer demo_sched.1 demo_second.2) !! 6 = None.
Proof.
  split; [vm_compute; reflexivity|].
  apply (stale_cancel_hits_new_timer (λ _ _ _ d, d) (λ _ d, d) 1500 9000 true 70%nat 80%nat EPOLLIN
           demo_disp 6 demo_sched.2 (FiredTimer 6 70%nat) demo_fired demo_second.2);
    [apply pair_fst_eq; vm_compute; reflexivity|done|exact demo_fired_eq
    |apply pair_fst_eq; vm_compute; reflexivity].
Defined.

End Epoll.

(** ** kqueue *)

Inductive kfilter := EVFILT_READ | EVFILT_WRITE | EVFILT_TIMER | EVFILT_USER.

#[export] Instance kfilter_eq_dec : EqDecision kfilter.
Proof. solve_decision. Defined.
#[export] Instance kfilter_countable : Countable kfilter.
Proof.
  refine (inj_countable' (λ f, match f with EVFILT_READ => 0 | EVFILT_WRITE => 1
                                | EVFILT_TIMER => 2 | EVFILT_USER => 3 end)%nat
            (λ n : nat, match n with 0 => EVFILT_READ | 1 => EVFILT_WRITE
                        | 2 => EVFILT_TIMER | _ => EVFILT_USER end%nat) _).
  by intros [].
Defined.

Definition EV_ADD : Z := 0x1.
Definition EV_DELETE : Z := 0x2.
Definition EV_ENABLE : Z := 0x4.
Definition EV_ONESHOT : Z := 0x10.
Definition EV_EOF : Z := 0x8000.
Definition EV_ERROR : Z := 0x4000.
Definition WAKER_IDENT : Z := 2 ^ 64 - 1.

(** [EV_SET]: a change, or a reported event, of one filter of one ident. *)
Record kevent_t := mk_kevent {
  ke_ident : Z; ke_filter : kfilter; ke_flags : Z; ke_data : Z
}.

(** What one change does to the set of registered filters. *)
Definition apply_change (c : kevent_t) (s : gset (Z * kfilter)) : gset (Z * kfilter) :=
  if negb (Z.land (ke_flags c) EV_DELETE =? 0) then s ∖ {[(ke_ident c, ke_filter c)]}
  else if negb (Z.land (ke_flags c) EV_ADD =? 0) then {[(ke_ident c, ke_filter c)]} ∪ s
  else s.

Definition apply_changes (cs : list kevent_t) (s : gset (Z * kfilter)) : gset (Z * kfilter) :=
  foldl (λ s c, apply_change c s) s cs.

(** The one system call [kqueue.cpp] makes to change registrations. *)
Class KqueueKernel := {
  kq_kernel : Type;
  kevent : list kevent_t → kq_kernel → Z * kq_kernel;
  kq_filters : kq_kernel → gset (Z * kfilter)
}.

(** As documented: the changes are applied in order until one fails; deleting
    filters that are registered succeeds. *)
Class KqueueKernelLaws (K : KqueueKernel) : Prop := {
  kevent_applies cs k e k' :
    kevent cs k = (e, k') →
    ∃ n, kq_filters k' = apply_changes (take n cs) (kq_filters k) ∧ (e = 0 → n = length cs);
  kevent_deletes cs k :
    Forall (λ c, Z.land (ke_flags c) EV_DELETE ≠ 0 ∧ (ke_ident c, ke_filter c) ∈ kq_filters k) cs →
    NoDup ((λ c, (ke_ident c, ke_filter c)) <$> cs) →
    (kevent cs k).1 = 0
}.

Module Kqueue.
Section Kqueue.
Context `{K : KqueueKernel} {CB TCB : Type}.
Context (errnos : posix_errno).

Record kq_timer_info := mk_kq_timer_info { kt_callback : TCB; kt_repeating : bool }.

(** What one event of [poll] ran. *)
Inductive kq_dispatched :=
| KqWoken
| KqTimer (id : Z) (cb : TCB)
| KqIo (fd : Z) (cb : CB) (ev : Z)
| KqNothing (ident : Z).

Record kqueue_dispatcher := mk_kqueue {
  kq : kq_kernel;
  kq_callbacks_ : gmap Z CB;
  interests_ : gmap Z Z;
  kq_timer_callbacks_ : gmap Z kq_timer_info;
  next_timer_id_ : Z
}.

Definition set_kq (k : kq_kernel) (d : kqueue_dispatcher) : kqueue_dispatcher :=
  mk_kqueue k (kq_callbacks_ d) (interests_ d) (kq_timer_callbacks_ d) (next_timer_id_ d).

Definition EV_SET (fd : Z) (f : kfilter) (flags : Z) : kevent_t := mk_kevent fd f flags 0.

(** [if (nchanges > 0) { if (kevent(...) < 0) return error; }] *)
Definition submit_changes (cs : list kevent_t) (d : kqueue_dispatcher) : result_void * kqueue_dispatcher :=
  match cs with
  | [] => (rv_ok, d)
  | _ => let '(e, k) := kevent cs (kq d) in
         (if negb (e =? 0)
          then mk_result_void (normalize_error (posix_switch errnos) (last_socket_error e))
          else rv_ok, set_kq k d)
  end.

Definition apply_interest (fd interest : Z) (d : kqueue_dispatcher) : result_void * kqueue_dispatcher :=
  submit_changes
    ((if has_event interest ev_readable then [EV_SET fd EVFILT_READ (Z.lor EV_ADD EV_ENABLE)] else []) ++
     (if has_event interest ev_writable then [EV_SET fd EVFILT_WRITE (Z.lor EV_ADD EV_ENABLE)] else []))
    d.

Definition kq_add (fd interest : Z) (cb : CB) (d : kqueue_dispatcher) : result_void * kqueue_dispatcher :=
  let '(res, d) := apply_interest fd interest d in
  if negb (rv_bool res) then (res, d)
  else (rv_ok, mk_kqueue (kq d) (<[fd:=cb]> (kq_callbacks_ d)) (<[fd:=interest]> (interests_ d))
                 (kq_timer_callbacks_ d) (next_timer_id_ d)).

(** The changes of [modify]: the difference between the old and new interest. *)
Definition delta (fd : Z) (f : kfilter) (had want : bool) : list kevent_t :=
  if want && negb had then [EV_SET fd f (Z.lor EV_ADD EV_ENABLE)]
  else if negb want && had then [EV_SET fd f EV_DELETE]
  else [].

Definition kq_modify (fd interest : Z) (d : kqueue_dispatcher) : result_void * kqueue_dispatcher :=
  let old_interest := default ev_none (interests_ d !! fd) in
  let had_read := has_event old_interest ev_readable in
  let had_write := has_event old_interest ev_writable in
  let want_read := has_event interest ev_readable in
  let want_write := has_event interest ev_writable in
  let '(res, d) := submit_changes (delta fd EVFILT_READ had_read want_read ++
                                   delta fd EVFILT_WRITE had_write want_write) d in
  if negb (rv_bool res) then (res, d)
  else (rv_ok, mk_kqueue (kq d) (kq_callbacks_ d) (<[fd:=interest]> (interests_ d))
                 (kq_timer_callbacks_ d) (next_timer_id_ d)).

Definition kq_remove (fd : Z) (d : kqueue_dispatcher) : result_void * kqueue_dispatcher :=
  let d :=
    match interests_ d !! fd with
    | None => d
    | Some i =>
        let '(_, d) := submit_changes
          ((if has_event i ev_readable then [EV_SET fd EVFILT_READ EV_DELETE] else []) ++
           (if has_event i ev_writable then [EV_SET fd EVFILT_WRITE EV_DELETE] else [])) d in
        mk_kqueue (kq d) (kq_callbacks_ d) (delete fd (interests_ d))
          (kq_timer_callbacks_ d) (next_timer_id_ d)
    end in
  (rv_ok, mk_kqueue (kq d) (delete fd (kq_callbacks_ d)) (interests_ d)
            (kq_timer_callbacks_ d) (next_timer_id_ d)).

Definition kq_schedule_timer (timeout : Z) (repeat : bool) (cb : TCB) (d : kqueue_dispatcher) :
    Z * kqueue_dispatcher :=
  let id := next_timer_id_ d in
  let flags := Z.lor EV_ADD EV_ENABLE in
  let flags := if negb repeat then Z.lor flags EV_ONESHOT else flags in
  let '(e, k) := kevent [mk_kevent id EVFILT_TIMER flags timeout] (kq d) in
  if negb (e =? 0)
  then (0, mk_kqueue k (kq_callbacks_ d) (interests_ d) (kq_timer_callbacks_ d) (u64 (id + 1)))
  else (id, mk_kqueue k (kq_callbacks_ d) (interests_ d)
              (<[id := mk_kq_timer_info cb repeat]> (kq_timer_callbacks_ d)) (u64 (id + 1))).

Definition kq_cancel_timer (id : Z) (d : kqueue_dispatcher) : kqueue_dispatcher :=
  match kq_timer_callbacks_ d !! id with
  | None => d
  | Some _ =>
      let '(_, k) := kevent [EV_SET id EVFILT_TIMER EV_DELETE] (kq d) in
      mk_kqueue k (kq_callbacks_ d) (interests_ d) (delete id (kq_timer_callbacks_ d)) (next_timer_id_ d)
  end.

(** The translation of a reported socket event in [poll]. *)
Definition from_kevent (e : kevent_t) : Z :=
  let ev := ev_none in
  let ev := if bool_decide (ke_filter e = EVFILT_READ) then ev_or ev ev_readable else ev in
  let ev := if bool_decide (ke_filter e = EVFILT_WRITE) then ev_or ev ev_writable else ev in
  let ev := if negb (Z.land (ke_flags e) EV_EOF =? 0) then ev_or ev ev_peer_shutdown else ev in
  if negb (Z.land (ke_flags e) EV_ERROR =? 0) then ev_or ev ev_error else ev.

(** *** The interface *)

Definition kq_lookup (d : kqueue_dispatcher) (fd : Z) : option (Z * CB) :=
  match kq_callbacks_ d !! fd, interests_ d !! fd with
  | Some cb, Some i => Some (effective i, cb)
  | _, _ => None
  end.

(** A socket with a callback has an interest recorded. *)
Definition kq_wf (d : kqueue_dispatcher) : Prop :=
  ∀ fd, is_Some (kq_callbacks_ d !! fd) → is_Some (interests_ d !! fd).

(** The filters the kernel holds for [fd] are those of an interest. *)
Definition filters_are (d : kqueue_dispatcher) (fd interest : Z) : Prop :=
  ((fd, EVFILT_READ) ∈ kq_filters (kq d) ↔ has_event interest ev_readable = true) ∧
  ((fd, EVFILT_WRITE) ∈ kq_filters (kq d) ↔ has_event interest ev_writable = true).

#[export] Instance kqueue_interface : Dispatcher CB := {|
  disp := kqueue_dispatcher;
  d_add := kq_add; d_modify := kq_modify; d_remove := kq_remove;
  d_lookup := kq_lookup; d_wf := kq_wf
|}.

Context `{!KqueueKernelLaws K}.

(** Changes of one ident leave the filters of every other ident alone. *)
Lemma apply_changes_other cs s fd fd' f :
  Forall (λ c, ke_ident c = fd) cs → fd' ≠ fd →
  (fd', f) ∈ apply_changes cs s ↔ (fd', f) ∈ s.
Proof.
  intros Hcs Hne. revert s. induction Hcs as [|c cs Hc Hcs IH]; intros s; simpl; [done|].
  rewrite IH. unfold apply_change. subst. repeat case_match; set_solver.
Qed.

(** What [submit_changes] does when all its changes name [fd]. *)
Lemma submit_changes_spec cs fd d r d' :
  Forall (λ c, ke_ident c = fd) cs → submit_changes cs d = (r, d') →
  d' = set_kq (kq d') d ∧
  (∀ fd' f, fd' ≠ fd → (fd', f) ∈ kq_filters (kq d') ↔ (fd', f) ∈ kq_filters (kq d)) ∧
  (rv_bool r = true → kq_filters (kq d') = apply_changes cs (kq_filters (kq d))).
Proof.
  intros Hcs. unfold submit_changes. destruct cs as [|c cs]; [by intros [= <- <-]; destruct d|].
  destruct (kevent (c :: cs) (kq d)) as [e k] eqn:Ek. intros [= <- <-]. simpl.
  apply kevent_applies in Ek as (n & Hn & Hok). split_and!; [done|..].
  - intros fd' f Hne. rewrite Hn. apply apply_changes_other with fd; [|done].
    by apply Forall_take.
  - destruct (e =? 0) eqn:Ee; bool_facts; simpl.
    + intros _. by rewrite Hn, (Hok Ee), firstn_all.
    + by rewrite syscall_fails.
Qed.

Lemma delta_ident fd f had want : Forall (λ c, ke_ident c = fd) (delta fd f had want).
Proof. unfold delta. by destruct want, had; repeat constructor. Qed.

Lemma interest_ident fd (b c : bool) f g x y :
  Forall (λ c, ke_ident c = fd)
    ((if b then [EV_SET fd f x] else []) ++ (if c then [EV_SET fd g y] else [])).
Proof. destruct b, c; repeat constructor. Qed.

Lemma kq_lookup_eq fd' (d d' : kqueue_dispatcher) :
  kq_callbacks_ d' !! fd' = kq_callbacks_ d !! fd' → interests_ d' !! fd' = interests_ d !! fd' →
  kq_lookup d' fd' = kq_lookup d fd'.
Proof. unfold kq_lookup. by intros -> ->. Qed.

(** The outcome of [add] and [modify]: the maps change only on success, and then
    only at [fd]. *)
Lemma kq_add_maps fd i cb d r d' :
  kq_add fd i cb d = (r, d') →
  if rv_bool r
  then kq_callbacks_ d' = <[fd:=cb]> (kq_callbacks_ d) ∧ interests_ d' = <[fd:=i]> (interests_ d)
  else kq_callbacks_ d' = kq_callbacks_ d ∧ interests_ d' = interests_ d.
Proof.
  unfold kq_add, apply_interest. destruct (submit_changes _ d) as [res d1] eqn:Es.
  apply (submit_changes_spec _ fd) in Es as (-> & _ & _); [|apply interest_ident].
  destruct (rv_bool res) eqn:Er; simpl; intros [= <- <-]; [done|by rewrite Er].
Qed.

Lemma kq_modify_maps fd i d r d' :
  kq_modify fd i d = (r, d') →
  kq_callbacks_ d' = kq_callbacks_ d ∧
  interests_ d' = if rv_bool r then <[fd:=i]> (interests_ d) else interests_ d.
Proof.
  unfold kq_modify. destruct (submit_changes _ d) as [res d1] eqn:Es.
  apply (submit_changes_spec _ fd) in Es as (-> & _ & _);
    [|apply Forall_app; split; apply delta_ident].
  destruct (rv_bool res) eqn:Er; simpl; intros [= <- <-]; [done|by rewrite Er].
Qed.

Lemma kq_remove_maps fd d :
  kq_callbacks_ (kq_remove fd d).2 = delete fd (kq_callbacks_ d) ∧
  interests_ (kq_remove fd d).2 = delete fd (interests_ d).
Proof.
  unfold kq_remove. destruct (interests_ d !! fd) as [i|] eqn:Ei; simpl.
  - destruct (submit_changes _ d) as [res d1] eqn:Es.
    apply (submit_changes_spec _ fd) in Es as (-> & _ & _); [|apply interest_ident]. done.
  - split; [done|]. by rewrite delete_id.
Qed.

#[export] Instance kqueue_laws : DispatcherLaws kqueue_interface.
Proof.
  split; simpl.
  - intros fd i cb d r d' Hwf Hadd. apply kq_add_maps in Hadd.
    destruct (rv_bool r); destruct Hadd as [E1 E2]; split_and!; unfold kq_wf, kq_lookup.
    + intros fd'. rewrite E1, E2, !lookup_insert_is_Some. specialize (Hwf fd'). tauto.
    + intros fd' Hne. by rewrite E1, E2, !lookup_insert_ne.
    + by rewrite E1, E2, !lookup_insert_eq.
    + by rewrite E1, E2.
    + intros fd' _. by rewrite E1, E2.
    + by rewrite E1, E2.
  - intros fd i d r d' Hwf Hm. apply kq_modify_maps in Hm as [E1 E2].
    split_and!; unfold kq_wf, kq_lookup; rewrite ?E1, E2; destruct (rv_bool r).
    + intros fd' Hs. apply lookup_insert_is_Some. destruct (decide (fd = fd')); auto.
    + done.
    + intros fd' Hne. by rewrite !lookup_insert_ne.
    + done.
    + rewrite lookup_insert_eq. destruct (kq_callbacks_ d !! fd) eqn:Ec; [|done]. simpl.
      by destruct (Hwf fd ltac:(by rewrite Ec)) as [? ->].
    + done.
  - intros fd d r d' Hwf Hr. destruct (kq_remove_maps fd d) as [E1 E2].
    assert (r = rv_ok) as -> by (unfold kq_remove in Hr; by repeat case_match; simplify_eq/=).
    rewrite Hr in E1, E2. simpl in *. split_and!; unfold kq_wf, kq_lookup; rewrite E1, E2.
    + intros fd'. rewrite !lookup_delete_is_Some. specialize (Hwf fd'). tauto.
    + intros fd' Hne. by rewrite !lookup_delete_ne.
    + by rewrite !lookup_delete_eq.
  - intros fd d _ _. unfold kq_remove. by repeat case_match.
Qed.

(** What [apply_changes] makes of the filters of the changed ident. *)
Lemma delta_filters fd (g : kfilter) (had want : bool) s :
  ((fd, g) ∈ s ↔ had = true) →
  ((fd, g) ∈ apply_changes (delta fd g had want) s ↔ want = true).
Proof.
  unfold delta. destruct had, want; simpl; unfold apply_change; simpl; set_solver.
Qed.

Lemma delta_filters_other fd fd' (g h : kfilter) (had want : bool) s :
  (fd', h) ≠ (fd, g) → ((fd', h) ∈ apply_changes (delta fd g had want) s ↔ (fd', h) ∈ s).
Proof.
  unfold delta. destruct had, want; simpl; unfold apply_change; simpl; set_solver.
Qed.

Lemma apply_changes_app cs ds s : apply_changes (cs ++ ds) s = apply_changes ds (apply_changes cs s).
Proof. apply foldl_app. Qed.

(** Deleting the filters on record succeeds and leaves none. *)
Lemma kq_remove_filters fd d i :
  filters_are d fd i → interests_ d !! fd = Some i → filters_are (kq_remove fd d).2 fd ev_none.
Proof.
  intros [Hr Hw] Hi. unfold kq_remove. rewrite Hi. unfold submit_changes, filters_are.
  set (cs := (if has_event i ev_readable then [EV_SET fd EVFILT_READ EV_DELETE] else []) ++
             (if has_event i ev_writable then [EV_SET fd EVFILT_WRITE EV_DELETE] else [])).
  assert (kevent cs (kq d) = (0, (kevent cs (kq d)).2)) as Ek.
  { rewrite (surjective_pairing (kevent cs (kq d))). f_equal. simpl. apply kevent_deletes.
    - apply Forall_forall. subst cs. intros c.
      destruct (has_event i ev_readable), (has_event i ev_writable); simpl;
        rewrite ?elem_of_cons, elem_of_nil; naive_solver.
    - subst cs. destruct (has_event i ev_readable), (has_event i ev_writable); simpl;
        repeat constructor; set_solver. }
  revert Ek. generalize ((kevent cs (kq d)).2). intros k Ek.
  pose proof (kevent_applies _ _ _ _ Ek) as (n & Hn & Hz).
  rewrite (Hz eq_refl), firstn_all in Hn. subst cs.
  destruct (has_event i ev_readable), (has_event i ev_writable); cbn [app] in *;
    try rewrite Ek; simpl; try rewrite Hn; unfold apply_changes, apply_change; simpl;
    unfold ev_none; simpl; set_solver.
Qed.

(** The kqueue back end implements the dispatcher interface, and its
    bookkeeping matches the kernel: a successful [modify] of a socket whose
    kernel filters are those of the interest on record leaves the kernel with
    exactly the filters of the new interest and puts that interest on record,
    and [remove] then leaves the kernel with no filter of the socket, although
    both only ever submit differences. *)
Theorem kqueue_refines_dispatcher fd i d r d' :
  filters_are d fd (default ev_none (interests_ d !! fd)) →
  kq_modify fd i d = (r, d') → rv_bool r = true →
  DispatcherLaws kqueue_interface ∧
  filters_are d' fd i ∧ interests_ d' !! fd = Some i ∧
  filters_are (kq_remove fd d').2 fd ev_none.
Proof.
  intros [Hr Hw] Hm Hok.
  assert (filters_are d' fd i ∧ interests_ d' !! fd = Some i) as [[Hr' Hw'] Hi].
  { revert Hm. unfold kq_modify, filters_are. destruct (submit_changes _ d) as [res d1] eqn:Es.
    apply (submit_changes_spec _ fd) in Es as (-> & _ & Hk);
      [|apply Forall_app; split; apply delta_ident].
    destruct (rv_bool res) eqn:Er; simpl; intros [= <- <-]; [|congruence].
    simpl in *. rewrite (Hk eq_refl), apply_changes_app, lookup_insert_eq.
    split; [split|done].
    - rewrite delta_filters_other by done. by apply delta_filters.
    - apply delta_filters. by rewrite delta_filters_other. }
  split_and!; [exact _|done..|]. by apply kq_remove_filters with i.
Qed.

(** *** [poll] and timers *)

(** [poll] on one event.  Ids are never given out twice, so a timer still in
    the map after its callback is in the node it was found in; [None] when the
    callback erased it, as the source goes on to use the erased node. *)
Context (run_io : CB → Z → Z → kqueue_dispatcher → kqueue_dispatcher).
Context (run_timer : TCB → kqueue_dispatcher → kqueue_dispatcher).

Definition kq_dispatch (e : kevent_t) (d : kqueue_dispatcher) :
    option (kq_dispatched * kqueue_dispatcher) :=
  if bool_decide (ke_filter e = EVFILT_USER) && (ke_ident e =? WAKER_IDENT) then Some (KqWoken, d)
  else if bool_decide (ke_filter e = EVFILT_TIMER) then
    match kq_timer_callbacks_ d !! ke_ident e with
    | None => Some (KqNothing (ke_ident e), d)
    | Some info =>
        let d' := run_timer (kt_callback info) d in
        match kq_timer_callbacks_ d' !! ke_ident e with
        | None => None
        | Some _ =>
            Some (KqTimer (ke_ident e) (kt_callback info),
                  if negb (kt_repeating info)
                  then mk_kqueue (kq d') (kq_callbacks_ d') (interests_ d')
                         (delete (ke_ident e) (kq_timer_callbacks_ d')) (next_timer_id_ d')
                  else d')
        end
    end
  else match kq_callbacks_ d !! ke_ident e with
  | Some cb => Some (KqIo (ke_ident e) cb (from_kevent e), run_io cb (ke_ident e) (from_kevent e) d)
  | None => Some (KqNothing (ke_ident e), d)
  end.

(** What happens to the timers of a dispatcher: calls of [schedule_timer] and
    [cancel_timer], and the firing of one by [poll]. *)
Inductive timer_op :=
| TSchedule (timeout : Z) (repeat : bool) (cb : TCB)
| TCancel (id : Z)
| TEvent (e : kevent_t).

Definition run_op (op : timer_op) (d : kqueue_dispatcher) : kqueue_dispatcher :=
  match op with
  | TSchedule t rep cb => (kq_schedule_timer t rep cb d).2
  | TCancel id => kq_cancel_timer id d
  | TEvent e => from_option snd d (kq_dispatch e d)
  end.

(** Callbacks only move the id counter forward. *)
Definition callbacks_advance : Prop :=
  (∀ cb fd ev d, next_timer_id_ d ≤ next_timer_id_ (run_io cb fd ev d)) ∧
  (∀ cb d, next_timer_id_ d ≤ next_timer_id_ (run_timer cb d)).

Lemma schedule_next t rep cb d :
  0 ≤ next_timer_id_ d < 2 ^ 64 - 1 →
  next_timer_id_ (kq_schedule_timer t rep cb d).2 = next_timer_id_ d + 1 ∧
  ((kq_schedule_timer t rep cb d).1 = 0 ∨ (kq_schedule_timer t rep cb d).1 = next_timer_id_ d).
Proof.
  intros Hb. unfold kq_schedule_timer. destruct (kevent _ _) as [e k]; simpl.
  destruct (e =? 0); simpl; (split; [unfold wrap; by apply Z.mod_small; lia|auto]).
Qed.

Lemma run_op_next op d :
  callbacks_advance → 0 ≤ next_timer_id_ d < 2 ^ 64 - 1 →
  next_timer_id_ d ≤ next_timer_id_ (run_op op d).
Proof.
  intros [Hio Ht] Hb. destruct op as [t rep cb|id|e]; simpl.
  - rewrite (proj1 (schedule_next t rep cb d Hb)). lia.
  - unfold kq_cancel_timer. destruct (_ !! id); [|done]. by destruct (kevent _ _).
  - unfold kq_dispatch. repeat case_match; simpl; auto using Z.le_refl.
Qed.

(** The states a run of timer operations passes through. *)
Fixpoint run_ops (ops : list timer_op) (d : kqueue_dispatcher) : list kqueue_dispatcher :=
  match ops with
  | [] => [d]
  | op :: ops' => d :: run_ops ops' (run_op op d)
  end.

Lemma run_ops_next ops d d' :
  callbacks_advance → last (run_ops ops d) = Some d' →
  Forall (λ d, 0 ≤ next_timer_id_ d < 2 ^ 64 - 1) (run_ops ops d) →
  next_timer_id_ d ≤ next_timer_id_ d' < 2 ^ 64 - 1.
Proof.
  intros Hadv. revert d. induction ops as [|op ops IH]; intros d Hl Hf.
  { simpl in *. simplify_eq. apply Forall_cons in Hf as [Hf _]. lia. }
  cbn [run_ops] in *. apply Forall_cons in Hf as [Hb Hf].
  assert (last (run_ops ops (run_op op d)) = Some d') as Hl'
    by (by destruct ops).
  specialize (IH _ Hl' Hf). pose proof (run_op_next op d Hadv Hb). lia.
Qed.

(** On kqueue a stale timer handle is harmless.  Ids come from a counter,
    so, as long as the 64-bit counter does not wrap, an id returned by
    [schedule_timer] is never returned again, whatever is scheduled, cancelled
    or fired in between, and cancelling it later leaves every timer scheduled
    since in place. *)
Theorem kqueue_timer_ids_unique t1 t2 rep1 rep2 cb1 cb2 d ops d2 :
  callbacks_advance →
  let '(id1, d1) := kq_schedule_timer t1 rep1 cb1 d in
  let '(id2, d3) := kq_schedule_timer t2 rep2 cb2 d2 in
  0 < next_timer_id_ d < 2 ^ 64 - 1 →
  last (run_ops ops d1) = Some d2 →
  Forall (λ d, 0 ≤ next_timer_id_ d < 2 ^ 64 - 1) (run_ops ops d1) →
  id1 ≠ 0 → id2 ≠ 0 →
  id1 ≠ id2 ∧
  kq_timer_callbacks_ (kq_cancel_timer id1 d3) !! id2 = Some (mk_kq_timer_info cb2 rep2).
Proof.
  intros Hadv. pose proof (schedule_next t1 rep1 cb1 d) as H1.
  destruct (kq_schedule_timer t1 rep1 cb1 d) as [id1 d1].
  pose proof (schedule_next t2 rep2 cb2 d2) as H2.
  destruct (kq_schedule_timer t2 rep2 cb2 d2) as [id2 d3] eqn:E2. simpl in *.
  intros Hb Hl Hf Hz1 Hz2. destruct (run_ops_next _ _ _ Hadv Hl Hf) as [Hle Hlt].
  destruct (H1 ltac:(lia)) as [Hn1 Hi1], (H2 ltac:(lia)) as [Hn2 Hi2].
  assert (id1 ≠ id2) as Hne by lia. split; [done|].
  assert (kq_timer_callbacks_ d3 !! id2 = Some (mk_kq_timer_info cb2 rep2)) as Hd3.
  { revert E2. unfold kq_schedule_timer. destruct (kevent _ _) as [e k].
    destruct (e =? 0); simpl; intros [= <- <-]; [|done]. simpl. by rewrite lookup_insert_eq. }
  unfold kq_cancel_timer. destruct (kq_timer_callbacks_ d3 !! id1); [|done].
  destruct (kevent _ _). simpl. by rewrite lookup_delete_ne.
Qed.

End Kqueue.
Arguments kq_timer_info : clear implicits.
Arguments kqueue_dispatcher {K} CB TCB.

(** *** A concrete kernel *)

(** Changes are applied in order; deleting a filter that is not registered
    fails and ends the call. *)
Fixpoint demo_kevent (cs : list kevent_t) (s : gset (Z * kfilter)) : Z * gset (Z * kfilter) :=
  match cs with
  | [] => (0, s)
  | c :: cs' =>
      if negb (Z.land (ke_flags c) EV_DELETE =? 0) && bool_decide ((ke_ident c, ke_filter c) ∉ s)
      then (2, s)
      else demo_kevent cs' (apply_change c s)
  end.

#[export] Instance demo_kqueue : KqueueKernel := {|
  kq_kernel := gset (Z * kfilter); kevent := demo_kevent; kq_filters := id
|}.

#[export] Instance demo_kqueue_laws : KqueueKernelLaws demo_kqueue.
Proof.
  constructor; simpl.
  - intros cs. induction cs as [|c cs IH]; simpl; intros k e k' H.
    { simplify_eq. by exists 0%nat. }
    destruct (_ && _).
    + simplify_eq. by exists 0%nat.
    + destruct (IH _ _ _ H) as (n & -> & Hn). exists (S n). split; [done|].
      intros He. by rewrite (Hn He).
  - intros cs. induction cs as [|c cs IH]; simpl; intros k Hf Hnd; [done|].
    apply Forall_cons in Hf as [[Hd Hin] Hf]. apply NoDup_cons in Hnd as [Hni Hnd].
    rewrite bool_decide_false by (unfold id in *; tauto). rewrite andb_false_r. apply IH; [|done].
    apply Forall_forall. intros c' Hc'. rewrite Forall_forall in Hf.
    destruct (Hf c' Hc') as [Hd' Hin']. split; [done|]. unfold id, apply_change in *.
    destruct (negb _).
    + apply elem_of_difference. split; [done|]. intros Heq%elem_of_singleton.
      apply Hni. rewrite <- Heq. apply list_elem_of_fmap. by exists c'.
    + destruct (negb _); set_solver.
Qed.

Definition demo_kq : kqueue_dispatcher nat nat :=
  mk_kqueue {[(7, EVFILT_READ)]} {[7 := 70%nat]} {[7 := ev_readable]} ∅ 1.

Lemma kqueue_refines_dispatcher_witness :
  rv_bool (kq_modify linux_errno 7 ev_writable demo_kq).1 = true ∧
  filters_are (kq_modify linux_errno 7 ev_writable demo_kq).2 7 ev_writable.
Proof.
  assert (filters_are demo_kq 7 (default ev_none (interests_ demo_kq !! 7))) as H
    by (split; (split; [vm_compute; done|set_solver])).
  assert (rv_bool (kq_modify linux_errno 7 ev_writable demo_kq).1 = true) as Hok
    by (vm_compute; reflexivity).
  split; [exact Hok|].
  apply (kqueue_refines_dispatcher linux_errno 7 ev_writable demo_kq _ _ H
           (surjective_pairing _) Hok).
Defined.

Lemma kqueue_timer_ids_unique_witness :
  (kq_schedule_timer 5 false 1%nat demo_kq).1 = 1 ∧
  kq_timer_callbacks_
    (kq_cancel_timer 1 (kq_schedule_timer 9 true 2%nat
       (kq_cancel_timer 1 (kq_schedule_timer 5 false 1%nat demo_kq).2)).2) !! 2
  = Some (mk_kq_timer_info 2%nat true).
Proof.
  split; [vm_compute; reflexivity|].
  apply (kqueue_timer_ids_unique (λ _ _ _ d, d) (λ _ d, d) 5 9 false true 1%nat 2%nat demo_kq
           [TCancel 1] (kq_cancel_timer 1 (kq_schedule_timer 5 false 1%nat demo_kq).2));
    [split; intros; reflexivity|split; reflexivity|reflexivity|..|discriminate|discriminate].
  repeat constructor; vm_compute; congruence.
Defined.

End Kqueue.

(** ** The interface as a map *)

(** A dispatcher that is just the map of its registrations. *)
#[export] Instance map_dispatcher : Dispatcher nat := {|
  disp := gmap Z (Z * nat);
  d_add fd i cb m :=
    match m !! fd with
    | None => (rv_ok, <[fd := (effective i, cb)]> m)
    | Some _ => (rv_of invalid_state, m)
    end;
  d_modify fd i m :=
    match m !! fd with
    | Some p => (rv_ok, <[fd := (effective i, p.2)]> m)
    | None => (rv_of invalid_state, m)
    end;
  d_remove fd m :=
    match m !! fd with
    | Some _ => (rv_ok, delete fd m)
    | None => (rv_of invalid_state, m)
    end;
  d_lookup m fd := m !! fd;
  d_wf _ := True
|}.

#[export] Instance map_dispatcher_laws : DispatcherLaws map_dispatcher.
Proof.
  split; simpl.
  - intros fd i cb m r m' _ H. destruct (m !! fd) eqn:E; simplify_eq/=; split_and!; auto.
    + intros. by rewrite lookup_insert_ne.
    + apply lookup_insert_eq.
  - intros fd i m r m' _ H. destruct (m !! fd) eqn:E; simplify_eq/=; split_and!; auto.
    + intros. by rewrite lookup_insert_ne.
    + apply lookup_insert_eq.
  - intros fd m r m' _ H. destruct (m !! fd) eqn:E; simplify_eq/=; split_and!; auto.
    + intros. by rewrite lookup_delete_ne.
    + apply lookup_delete_eq.
  - intros fd m _ [p H]. by rewrite H.
Qed.

#[export] Instance map_dispatcher_reliable : DispatcherReliable map_dispatcher.
Proof. intros fd i m _ [p H]. simpl in *. by rewrite H. Qed.
