(* ===== verification/EventLoop.v ===== *)
(** * The event loop

    [src/include/socketpp/event/loop.hpp], [src/src/event/loop.cpp],
    [src/include/socketpp/event/timer.hpp] and the wake-up signal of
    [src/src/event/waker.hpp].

    [event_loop] is the state of the class; its two post queues are kept with
    the pointer that says which of them is active.  [Machine] interleaves the
    thread inside [run] or [run_once] with any number of threads that call
    [post] and [stop]: each spin-lock section is one step, and the [wake] that
    follows it is a later step of its own, so that everything can happen in
    between.  The callbacks themselves run on the loop's thread; whatever they
    call of the loop is covered by the steps of the other threads, which may
    come between any two steps of the loop.  Atomics are sequentially
    consistent here.  [Handle] models [timer_handle]. *)

From S2P Require Import Prelude.

Local Open Scope nat_scope.

(** A posted callback: one of the library's or the user's, named by a number,
    or the [[this]() { loop.stop(); }] that the destroy operations post. *)
Inductive task := User (n : nat) | StopTask.

#[export] Instance task_eq_dec : EqDecision task.
Proof. solve_decision. Defined.

Record event_loop := mk_loop {
  running_ : bool;
  stop_requested_ : bool;
  active_is_a : bool;
  queue_a_ : list task;
  queue_b_ : list task
}.

(** The constructor: [queue_a_] is active, [queue_b_] is drained. *)
Definition loop_init : event_loop := mk_loop false false true [] [].

Definition active_queue_ (l : event_loop) : list task :=
  if active_is_a l then queue_a_ l else queue_b_ l.
Definition drain_queue_ (l : event_loop) : list task :=
  if active_is_a l then queue_b_ l else queue_a_ l.

Definition set_running (b : bool) (l : event_loop) : event_loop :=
  mk_loop b (stop_requested_ l) (active_is_a l) (queue_a_ l) (queue_b_ l).
Definition set_stop (b : bool) (l : event_loop) : event_loop :=
  mk_loop (running_ l) b (active_is_a l) (queue_a_ l) (queue_b_ l).

(** The locked part of [post]. *)
Definition push_back (t : task) (l : event_loop) : event_loop :=
  if active_is_a l
  then mk_loop (running_ l) (stop_requested_ l) true (queue_a_ l ++ [t]) (queue_b_ l)
  else mk_loop (running_ l) (stop_requested_ l) false (queue_a_ l) (queue_b_ l ++ [t]).

(** The locked part of [drain_posts]. *)
Definition swap_queues (l : event_loop) : event_loop :=
  mk_loop (running_ l) (stop_requested_ l) (negb (active_is_a l)) (queue_a_ l) (queue_b_ l).

(** [drain_queue_->clear()] *)
Definition clear_drain (l : event_loop) : event_loop :=
  if active_is_a l
  then mk_loop (running_ l) (stop_requested_ l) true (queue_a_ l) []
  else mk_loop (running_ l) (stop_requested_ l) false [] (queue_b_ l).

Lemma push_back_queues t l :
  active_queue_ (push_back t l) = active_queue_ l ++ [t] ∧
  drain_queue_ (push_back t l) = drain_queue_ l ∧
  stop_requested_ (push_back t l) = stop_requested_ l ∧
  running_ (push_back t l) = running_ l.
Proof. destruct l as [? ? [] ? ?]; split_and!; reflexivity. Qed.

Lemma swap_queues_queues l :
  active_queue_ (swap_queues l) = drain_queue_ l ∧
  drain_queue_ (swap_queues l) = active_queue_ l.
Proof. by destruct l as [? ? [] ? ?]. Qed.

Lemma clear_drain_queues l :
  active_queue_ (clear_drain l) = active_queue_ l ∧ drain_queue_ (clear_drain l) = [] ∧
  stop_requested_ (clear_drain l) = stop_requested_ l ∧ running_ (clear_drain l) = running_ l.
Proof. destruct l as [? ? [] ? ?]; split_and!; reflexivity. Qed.

Module Machine.

(** Where the loop's thread is; [once] tells [run_once] from [run]. *)
Inductive lpc :=
| LIdle                          (** outside [run] and [run_once] *)
| LStart                         (** [run]: about to set [running_] *)
| LReset                         (** [run]: about to reset [stop_requested_] *)
| LTop                           (** about to test [stop_requested_] *)
| LSwap (once : bool)            (** about to swap the queues *)
| LRun (once : bool) (i : nat)   (** about to run callback [i] of the drained queue *)
| LPoll (once : bool)            (** in [dispatcher_->poll] *)
| LExit.                         (** after the loop, about to clear [running_] *)

(** [woken] is the pending wake-up signal, [wakes] the number of threads between
    their critical section and their call of [wake]; [posted] and [ran] record
    the callbacks in the order of their posting and of their execution. *)
Record st := mk_st {
  el : event_loop; woken : bool; wakes : nat; pc : lpc; posted : list task; ran : list task
}.

Definition init : st := mk_st loop_init false 0 LIdle [] [].

(** The effect of running a callback on the loop. *)
Definition run_task (t : task) (s : st) (pc' : lpc) : st :=
  match t with
  | User _ => mk_st (el s) (woken s) (wakes s) pc' (posted s) (ran s ++ [t])
  | StopTask => mk_st (set_stop true (el s)) true (wakes s) pc' (posted s) (ran s ++ [t])
  end.

Definition goto (s : st) (pc' : lpc) : st :=
  mk_st (el s) (woken s) (wakes s) pc' (posted s) (ran s).
Definition with_loop (s : st) (l : event_loop) (pc' : lpc) : st :=
  mk_st l (woken s) (wakes s) pc' (posted s) (ran s).

(** Where the thread goes when [poll] returns a value. *)
Definition polled (once : bool) : lpc := if once then LIdle else LTop.

(** The next move of the loop's thread on its own; [None] when it is outside
    the loop, or blocked in [poll] with no signal pending. *)
Definition loop_move (s : st) : option st :=
  match pc s with
  | LIdle => None
  | LStart => Some (with_loop s (set_running true (el s)) LReset)
  | LReset => Some (with_loop s (set_stop false (el s)) LTop)
  | LTop => Some (if negb (stop_requested_ (el s)) then goto s (LSwap false) else goto s LExit)
  | LSwap once => Some (with_loop s (swap_queues (el s)) (LRun once 0))
  | LRun once i =>
      match drain_queue_ (el s) !! i with
      | Some t => Some (run_task t s (LRun once (S i)))
      | None => Some (with_loop s (clear_drain (el s)) (LPoll once))
      end
  | LPoll once =>
      if woken s then Some (mk_st (el s) false (wakes s) (polled once) (posted s) (ran s)) else None
  | LExit => Some (with_loop s (set_running false (el s)) LIdle)
  end.

Inductive step : st → st → Prop :=
| step_loop s s' : loop_move s = Some s' → step s s'
| step_run s : pc s = LIdle → step s (goto s LStart)
| step_run_once s : pc s = LIdle → step s (goto s (LSwap true))
| step_post t s :
    step s (mk_st (push_back t (el s)) (woken s) (S (wakes s)) (pc s) (posted s ++ [t]) (ran s))
| step_stop s :
    step s (mk_st (set_stop true (el s)) (woken s) (S (wakes s)) (pc s) (posted s) (ran s))
| step_wake s n :
    wakes s = S n → step s (mk_st (el s) true n (pc s) (posted s) (ran s))
| step_event s once :
    pc s = LPoll once → step s (goto s (polled once))
| step_poll_error s once :
    pc s = LPoll once → step s (goto s (if once then LIdle else LExit)).

(** The callbacks posted and not yet run, in the order they will run. *)
Definition pending (s : st) : list task :=
  match pc s with
  | LRun _ i => drop i (drain_queue_ (el s)) ++ active_queue_ (el s)
  | _ => drain_queue_ (el s) ++ active_queue_ (el s)
  end.

Definition signalled (s : st) : Prop := woken s = true ∨ 0 < wakes s.

Definition draining (p : lpc) : bool := if p is LRun _ _ then true else false.

(** What has to be signalled at each point of the loop. *)
Definition must_signal (s : st) : bool :=
  match pc s with
  | LSwap false => stop_requested_ (el s)
  | LRun once _ | LPoll once =>
      (negb once && stop_requested_ (el s)) || bool_decide (active_queue_ (el s) ≠ [])
  | _ => false
  end.

Record inv (s : st) : Prop := {
  inv_fifo : ran s ++ pending s = posted s;
  inv_drained : draining (pc s) = false → drain_queue_ (el s) = [];
  inv_signal : must_signal s = true → signalled s
}.

Lemma inv_init : inv init.
Proof. by split. Qed.

Ltac loop_simpl :=
  repeat first
    [ rewrite (proj1 (push_back_queues _ _)) | rewrite (proj1 (proj2 (push_back_queues _ _)))
    | rewrite (proj1 (proj2 (proj2 (push_back_queues _ _))))
    | rewrite (proj1 (swap_queues_queues _)) | rewrite (proj2 (swap_queues_queues _))
    | rewrite (proj1 (clear_drain_queues _)) | rewrite (proj1 (proj2 (clear_drain_queues _)))
    | rewrite (proj1 (proj2 (proj2 (clear_drain_queues _)))) ].

Lemma drop_lookup_cons {A} (l : list A) i x : l !! i = Some x → drop i l = x :: drop (S i) l.
Proof. intros H. by apply drop_S. Qed.

Lemma loop_move_inv s s' : inv s → loop_move s = Some s' → inv s'.
Proof.
  intros [Hf Hd Hs]. unfold loop_move, signalled in *.
  destruct s as [l w n p po ra]. unfold pending, must_signal, signalled in *. simpl in *.
  destruct p as [| | | |once|once i|once|]; simpl in *.
  - done.
  - intros [= <-]. by split.
  - intros [= <-]. by split.
  - destruct (stop_requested_ l) eqn:E; intros [= <-]; split; unfold must_signal; simpl; rewrite ?E; auto.
  - intros [= <-]. unfold with_loop. split; unfold pending, must_signal, signalled; simpl; loop_simpl.
    + by rewrite Hd, app_nil_r in * by done.
    + done.
    + rewrite Hd by done. destruct once; simpl; [done|]. rewrite orb_false_r. auto.
  - destruct (drain_queue_ l !! i) as [t|] eqn:E; intros [= <-].
    + apply drop_lookup_cons in E. rewrite E in Hf.
      destruct t; split; unfold pending, must_signal, signalled; simpl; auto;
        by rewrite <- app_assoc.
    + apply lookup_ge_None in E. rewrite drop_ge in Hf by done.
      unfold with_loop. split; unfold pending, must_signal, signalled; simpl; loop_simpl; auto.
  - destruct w; intros [= <-]. destruct once; by split.
  - intros [= <-]. by split.
Qed.

Lemma loop_step_inv s s' : inv s → step s s' → inv s'.
Proof.
  intros Hi Hstep. destruct Hstep as [s s' H|s H|s H|t s|s|s n H|s once H|s once H];
    [by apply (loop_move_inv s)|..]; destruct Hi as [Hf Hd Hs]; destruct s as [l w m p po ra];
    unfold goto; simpl in *; subst;
    split; unfold pending, must_signal, signalled in *; simpl in *; try done; auto;
    try (destruct once; by auto); loop_simpl; auto; try (intros; right; lia).
  destruct p; rewrite <- Hf, !app_assoc; done.
Qed.

Lemma loop_reachable_inv s : rtc step init s → inv s.
Proof. intros H. eapply rtc_preserves; eauto using loop_step_inv, inv_init. Qed.

(** *** The loop's thread on its own *)

Definition moves (s s' : st) : Prop := loop_move s = Some s'.

Definition has_stop (ts : list task) : bool := bool_decide (StopTask ∈ ts).

Lemma has_stop_cons t ts : has_stop (t :: ts) = bool_decide (t = StopTask) || has_stop ts.
Proof. unfold has_stop. rewrite <- bool_decide_or. apply bool_decide_ext. set_solver. Qed.

Lemma has_stop_app ts us : has_stop (ts ++ us) = has_stop ts || has_stop us.
Proof. unfold has_stop. rewrite <- bool_decide_or. apply bool_decide_ext. set_solver. Qed.

(** The rest of a batch: everything in the drained queue runs, in order. *)
Lemma run_batch once i l w n po ra :
  ∃ w' l', rtc moves (mk_st l w n (LRun once i) po ra)
                     (mk_st l' w' n (LPoll once) po (ra ++ drop i (drain_queue_ l))) ∧
    active_queue_ l' = active_queue_ l ∧ drain_queue_ l' = [] ∧ running_ l' = running_ l ∧
    stop_requested_ l' = stop_requested_ l || has_stop (drop i (drain_queue_ l)) ∧
    w' = w || has_stop (drop i (drain_queue_ l)).
Proof.
  remember (length (drain_queue_ l) - i) as m eqn:Hm.
  revert i l w ra Hm. induction m as [|m IH]; intros i l w ra Hm.
  - exists w, (clear_drain l). rewrite drop_ge by lia. rewrite app_nil_r, !orb_false_r.
    destruct (clear_drain_queues l) as (-> & -> & -> & ->). split_and!; [|done..].
    apply rtc_once. unfold moves, loop_move. simpl. by rewrite lookup_ge_None_2 by lia.
  - destruct (lookup_lt_is_Some_2 (drain_queue_ l) i ltac:(lia)) as [t Ht].
    rewrite (drop_lookup_cons _ _ _ Ht), has_stop_cons.
    set (s1 := run_task t (mk_st l w n (LRun once i) po ra) (LRun once (S i))).
    assert (s1 = mk_st (if bool_decide (t = StopTask) then set_stop true l else l)
                   (w || bool_decide (t = StopTask)) n (LRun once (S i)) po (ra ++ [t])) as Es1.
    { subst s1. destruct t; simpl; [by rewrite orb_false_r|by rewrite orb_true_r]. }
    assert (∀ b : bool, drain_queue_ (if b then set_stop true l else l) = drain_queue_ l) as Hdq
      by (by intros []).
    destruct (IH (S i) (if bool_decide (t = StopTask) then set_stop true l else l)
                (w || bool_decide (t = StopTask)) (ra ++ [t])) as (w' & l' & Hr & Ha & Hd & Hrun & Hst & Hw).
    { rewrite Hdq. lia. }
    exists w', l'. rewrite Hdq in *. split_and!; [| |done|..].
    + apply rtc_l with s1; [|by rewrite Es1; rewrite <- app_assoc in Hr].
      unfold moves, loop_move. simpl. by rewrite Ht.
    + rewrite Ha. by destruct (bool_decide _).
    + rewrite Hrun. by destruct (bool_decide _).
    + rewrite Hst. destruct (bool_decide (t = StopTask)); simpl; [by rewrite orb_true_r|done].
    + rewrite Hw. destruct (bool_decide (t = StopTask)), w; done.
Qed.

(** One pass through [drain_posts]. *)
Lemma drain_pass once l w n po ra :
  drain_queue_ l = [] →
  ∃ w' l', rtc moves (mk_st l w n (LSwap once) po ra)
                     (mk_st l' w' n (LPoll once) po (ra ++ active_queue_ l)) ∧
    active_queue_ l' = [] ∧ drain_queue_ l' = [] ∧
    stop_requested_ l' = stop_requested_ l || has_stop (active_queue_ l) ∧
    w' = w || has_stop (active_queue_ l).
Proof.
  intros Hd. destruct (run_batch once 0 (swap_queues l) w n po ra)
    as (w' & l' & Hr & Ha & Hd' & _ & Hst & Hw).
  destruct (swap_queues_queues l) as [E1 E2]. rewrite E1, E2 in *. rewrite drop_0 in *.
  exists w', l'. split_and!; [|congruence|done..].
  eapply rtc_l; [|exact Hr]. done.
Qed.

(** The states inside [run]. *)
Definition in_run (p : lpc) : bool :=
  match p with LTop | LSwap false | LRun false _ | LPoll false => true | _ => false end.
Definition entering (p : lpc) : bool :=
  match p with LStart | LReset => true | _ => false end.
Definition leaving (p : lpc) : bool := match p with LExit => true | _ => false end.

(** From the poll of [run], a signal leads back to the top of the loop. *)
Lemma poll_to_top l n po ra : rtc moves (mk_st l true n (LPoll false) po ra) (mk_st l false n LTop po ra).
Proof. by apply rtc_once. Qed.

Lemma top_exits l w n po ra :
  stop_requested_ l = true →
  rtc moves (mk_st l w n LTop po ra) (mk_st (set_running false l) w n LIdle po ra).
Proof.
  intros Hs. eapply rtc_l; [unfold moves, loop_move; simpl; by rewrite Hs|]. by apply rtc_once.
Qed.

Lemma top_swaps l w n po ra :
  stop_requested_ l = false →
  rtc moves (mk_st l w n LTop po ra) (mk_st l w n (LSwap false) po ra).
Proof. intros Hs. apply rtc_once. unfold moves, loop_move. simpl. by rewrite Hs. Qed.

(** With a stop requested and a signal there, the loop ends. *)
Lemma poll_exits l n po ra :
  stop_requested_ l = true →
  rtc moves (mk_st l true n (LPoll false) po ra) (mk_st (set_running false l) false n LIdle po ra).
Proof. intros Hs. etrans; [apply poll_to_top|by apply top_exits]. Qed.

(** A pass that finds a stop requested, or runs one, ends the loop. *)
Lemma swap_exits l w n po ra :
  drain_queue_ l = [] → (stop_requested_ l = true → w = true) →
  stop_requested_ l || has_stop (active_queue_ l) = true →
  ∃ s', rtc moves (mk_st l w n (LSwap false) po ra) s' ∧ pc s' = LIdle ∧ running_ (el s') = false.
Proof.
  intros Hd Hw Hs. destruct (drain_pass false l w n po ra Hd) as (w' & l' & Hr & _ & _ & Hst & Hw').
  assert (w' = true) as ->.
  { rewrite Hw'. destruct (stop_requested_ l); simpl in *; [by rewrite Hw|].
    rewrite Hs. apply orb_true_r. }
  eexists. split; [etrans; [exact Hr|apply poll_exits; congruence]|done].
Qed.

Lemma top_exits_stop l w n po ra :
  drain_queue_ l = [] → stop_requested_ l || has_stop (active_queue_ l) = true →
  ∃ s', rtc moves (mk_st l w n LTop po ra) s' ∧ pc s' = LIdle ∧ running_ (el s') = false.
Proof.
  intros Hd Hs. destruct (stop_requested_ l) eqn:E.
  - eexists. split; [by apply top_exits|done].
  - destruct (swap_exits l w n po ra) as (s' & Hr & ?); [done|by rewrite E|by rewrite E|].
    exists s'. split; [|done]. etrans; [by apply top_swaps|done].
Qed.

Lemma has_stop_nonempty q : has_stop q = true → q ≠ [].
Proof. intros H%bool_decide_eq_true ->. set_solver. Qed.

(** So does a poll that is signalled whenever it has to be. *)
Lemma poll_exits_stop l w n po ra :
  drain_queue_ l = [] → (stop_requested_ l = true ∨ active_queue_ l ≠ [] → w = true) →
  stop_requested_ l || has_stop (active_queue_ l) = true →
  ∃ s', rtc moves (mk_st l w n (LPoll false) po ra) s' ∧ pc s' = LIdle ∧ running_ (el s') = false.
Proof.
  intros Hd Hw Hs. rewrite Hw.
  - destruct (top_exits_stop l false n po ra Hd Hs) as (s' & Hr & ?).
    exists s'. split; [|done]. etrans; [apply poll_to_top|done].
  - apply orb_true_iff in Hs as [?|?]; auto using has_stop_nonempty.
Qed.

Lemma batch_exits_stop i l w n po ra :
  (stop_requested_ l = true ∨ active_queue_ l ≠ [] → w = true) →
  stop_requested_ l || has_stop (drop i (drain_queue_ l) ++ active_queue_ l) = true →
  ∃ s', rtc moves (mk_st l w n (LRun false i) po ra) s' ∧ pc s' = LIdle ∧ running_ (el s') = false.
Proof.
  intros Hw Hs. destruct (run_batch false i l w n po ra) as (w' & l' & Hr & Ha & Hd' & _ & Hs' & Hw').
  rewrite has_stop_app, orb_assoc, <- Hs' in Hs.
  destruct (poll_exits_stop l' w' n po (ra ++ drop i (drain_queue_ l))) as (s' & Hr' & ?).
  - done.
  - rewrite Ha, Hs', Hw', orb_true_iff. intros [[H|H]|H]; [|by rewrite H, orb_true_r|];
      rewrite Hw; auto.
  - by rewrite Ha.
  - exists s'. split; [by etrans|done].
Qed.

(** A full iteration from the top when no stop is in sight. *)
Lemma top_runs l w n po ra :
  drain_queue_ l = [] → stop_requested_ l = false →
  ∃ s', rtc moves (mk_st l w n LTop po ra) s' ∧ ran s' = ra ++ active_queue_ l.
Proof.
  intros Hd Hs. destruct (drain_pass false l w n po ra Hd) as (w' & l' & Hr & _).
  eexists. split; [etrans; [by apply top_swaps|exact Hr]|done].
Qed.

(** In the poll of [run], what is left in the active queue is signalled. *)
Lemma poll_runs l w n po ra :
  drain_queue_ l = [] → stop_requested_ l = false → (active_queue_ l ≠ [] → w = true) →
  ∃ s', rtc moves (mk_st l w n (LPoll false) po ra) s' ∧ ran s' = ra ++ active_queue_ l.
Proof.
  intros Hd Hs Hw. destruct (active_queue_ l) as [|t q] eqn:Ea.
  - eexists. split; [done|]. by rewrite app_nil_r.
  - rewrite Hw by done. destruct (top_runs l false n po ra Hd Hs) as (s' & Hr & He).
    exists s'. rewrite <- Ea. split; [|done]. etrans; [apply poll_to_top|done].
Qed.

(** What the invariant says of a signal when no [wake] is outstanding. *)
Lemma inv_woken s : inv s → wakes s = 0 → must_signal s = true → woken s = true.
Proof. intros Hi Hw Hm. destruct (inv_signal s Hi Hm) as [?|?]; [done|lia]. Qed.

(** C6. The post queue is a FIFO queue.  In every interleaving of threads that
    post and stop with the thread in [run] or [run_once], the callbacks run so
    far followed by those still in the two buffers are exactly the callbacks
    posted, in the order of posting: none is lost, repeated or overtaken by
    the swapping of the buffers. *)
Theorem post_queue_fifo s : rtc step init s → ran s ++ pending s = posted s.
Proof. intros H. apply inv_fifo, loop_reachable_inv, H. Qed.

(** C7. No wake-up is lost.  Whenever the loop's thread is in [poll] while a
    posted callback waits in the active queue, or a stop has been requested of
    [run], the wake-up signal is pending or a thread is about to send it. *)
Theorem no_lost_wakeup s once :
  rtc step init s → pc s = LPoll once →
  active_queue_ (el s) ≠ [] ∨ (once = false ∧ stop_requested_ (el s) = true) →
  signalled s.
Proof.
  intros H Hpc Hwhy. apply inv_signal; [by apply loop_reachable_inv|]. unfold must_signal.
  rewrite Hpc. destruct Hwhy as [Ha|[-> ->]]; [|done].
  by rewrite (bool_decide_true _ Ha), orb_true_r.
Qed.

(** C8. Posted callbacks run.  Inside [run], once the callers of [post] have
    sent their wake-up and while no stop is requested or posted, the loop's
    thread by itself, without any further event, goes on to run everything
    that has been posted. *)
Theorem posted_callbacks_run s :
  rtc step init s → in_run (pc s) = true → wakes s = 0 →
  stop_requested_ (el s) = false → StopTask ∉ pending s →
  ∃ s', rtc moves s s' ∧ ran s' = posted s.
Proof.
  intros Hreach Hin Hw Hs Hns. pose proof (loop_reachable_inv s Hreach) as Hi.
  rewrite <- (inv_fifo s Hi). pose proof (inv_drained s Hi) as Hd.
  pose proof (inv_woken s Hi Hw) as Hwk. unfold must_signal, pending in *.
  destruct s as [l w n p po ra]. simpl in *. subst n. rewrite Hs in Hwk.
  destruct p as [| | | |[]|[] i|[]|]; simpl in *; try done.
  - rewrite (Hd eq_refl). apply top_runs; auto.
  - rewrite (Hd eq_refl). destruct (drain_pass false l w 0 po ra (Hd eq_refl)) as (w' & l' & Hr & _).
    eexists. split; [exact Hr|done].
  - destruct (run_batch false i l w 0 po ra) as (w' & l' & Hr & Ha & Hd' & _ & Hst & Hw').
    assert (has_stop (drop i (drain_queue_ l)) = false) as Hno
      by (apply bool_decide_false; set_solver).
    rewrite Hno, orb_false_r in *.
    destruct (poll_runs l' w' 0 po (ra ++ drop i (drain_queue_ l))) as (s' & Hr' & He).
    + done.
    + congruence.
    + intros Hne. rewrite Hw'. apply Hwk. rewrite Ha in Hne. by apply bool_decide_true.
    + exists s'. split; [by etrans|]. by rewrite He, Ha, app_assoc.
  - rewrite (Hd eq_refl). apply poll_runs; auto. intros Hne. apply Hwk. by apply bool_decide_true.
Qed.

(** Stopping ends [run].  Once the wake-ups have been sent, the loop's
    thread by itself leaves [run], whatever it was doing, if a stop has been
    requested while it was inside; and a posted stop ends it even when it was
    posted before [run] started, as the destroy operations rely on. *)
Theorem stop_terminates s :
  rtc step init s → wakes s = 0 →
  (in_run (pc s) = true ∧ (stop_requested_ (el s) = true ∨ StopTask ∈ pending s)) ∨
  (entering (pc s) = true ∧ StopTask ∈ pending s) →
  ∃ s', rtc moves s s' ∧ pc s' = LIdle ∧ running_ (el s') = false.
Proof.
  intros Hreach Hw Hwhy. pose proof (loop_reachable_inv s Hreach) as Hi.
  pose proof (inv_drained s Hi) as Hd. pose proof (inv_woken s Hi Hw) as Hwk.
  unfold must_signal, pending in *. destruct s as [l w n p po ra]. simpl in *. subst n.
  assert (∀ b q, b = true ∨ StopTask ∈ q → b || has_stop q = true) as Hst.
  { intros b q H. apply orb_true_iff. destruct H; [by left|right; by apply bool_decide_true]. }
  assert (∀ b q, b = true ∨ q ≠ [] → b || bool_decide (q ≠ @nil task) = true) as Hact.
  { intros b q H. apply orb_true_iff. destruct H; [by left|right; by apply bool_decide_true]. }
  destruct p as [| | | |[]|[] i|[]|]; simpl in *;
    destruct Hwhy as [[Hin Hwhy]|[Hin Hwhy]]; try done; try rewrite Hd in Hwhy by done; simpl in *.
  - destruct (top_exits_stop (set_stop false (set_running true l)) w 0 po ra) as (s' & Hr & ?);
      [by apply Hd|by apply Hst; right|].
    exists s'. split; [|done]. eapply rtc_l; [done|]. by eapply rtc_l.
  - destruct (top_exits_stop (set_stop false l) w 0 po ra) as (s' & Hr & ?);
      [by apply Hd|by apply Hst; right|].
    exists s'. split; [|done]. by eapply rtc_l.
  - apply top_exits_stop; auto.
  - apply swap_exits; auto.
  - apply batch_exits_stop; auto.
  - apply poll_exits_stop; auto.
Qed.

(** A stop before [run] is lost.  [run] resets the flag, so that a call of
    [stop] made before it, even by the thread that goes on to call [run], does
    not end it: with nothing posted the loop comes to rest in [poll], its flag
    clear and no signal pending. *)
Theorem stop_before_run_lost s :
  rtc step init s → pc s = LStart → wakes s = 0 → pending s = [] →
  ∃ s', rtc moves s s' ∧ pc s' = LPoll false ∧ loop_move s' = None ∧
        stop_requested_ (el s') = false.
Proof.
  intros Hreach Hpc Hw Hp. pose proof (inv_drained s (loop_reachable_inv s Hreach)) as Hd.
  unfold pending in Hp. destruct s as [l w n p po ra]. simpl in *. subst.
  apply app_nil in Hp as [_ Ha].
  set (l1 := set_stop false (set_running true l)).
  assert (∀ w ra, ∃ l', rtc moves (mk_st l1 w 0 LTop po ra) (mk_st l' w 0 (LPoll false) po ra) ∧
    stop_requested_ l' = false ∧ active_queue_ l' = [] ∧ drain_queue_ l' = []) as Hiter.
  { intros w0 ra0. destruct (drain_pass false l1 w0 0 po ra0 (Hd eq_refl)) as (w' & l' & Hr & Ha' & Hd' & Hs' & Hw').
    change (active_queue_ l1) with (active_queue_ l) in *. rewrite Ha, orb_false_r in *. subst w'.
    exists l'. rewrite app_nil_r in Hr. split; [etrans; [by apply top_swaps|exact Hr]|done]. }
  assert (rtc moves (mk_st l w 0 LStart po ra) (mk_st l1 w 0 LTop po ra)) as H0
    by (eapply rtc_l; [done|]; by eapply rtc_l).
  destruct (Hiter w ra) as (l2 & Hr2 & Hs2 & Ha2 & Hd2).
  destruct w.
  - destruct (drain_pass false l2 false 0 po ra Hd2) as (w' & l' & Hr & _ & _ & Hs' & Hw').
    rewrite Ha2, app_nil_r in *. simpl in *. subst w'. eexists. split.
    + etrans; [exact H0|]. etrans; [exact Hr2|]. etrans; [apply poll_to_top|].
      etrans; [by apply top_swaps|exact Hr].
    + simpl. split_and!; [done..|]. by rewrite Hs', Hs2.
  - eexists. split; [etrans; [exact H0|exact Hr2]|done].
Qed.

(** *** A destroy that races with the loop *)

(** Moves of the loop's thread as steps of the machine. *)
Ltac solo := eapply rtc_l; [apply step_loop; reflexivity|simpl].

Definition blocked_loop : event_loop := mk_loop true false false [] [].

Lemma blocked_reachable : rtc step init (mk_st blocked_loop false 0 (LPoll false) [] []).
Proof. eapply rtc_l; [by apply step_run|]. do 5 solo. apply rtc_refl. Qed.

(** A posted callback may be skipped by [stop].  A thread that posts a
    callback and a stop and then calls [stop] directly, as the destroy of a
    datagram socket does, can find the loop woken by its first post and leaving
    at the test of the flag, with both callbacks still in the queue. *)
Theorem stop_skips_posted_callbacks :
  ∃ s s', rtc step init s ∧ pc s = LPoll false ∧ posted s = [] ∧
    rtc step s s' ∧ pc s' = LIdle ∧ running_ (el s') = false ∧
    posted s' = [User 0; StopTask] ∧ ran s' = [] ∧ pending s' = [User 0; StopTask] ∧ wakes s' = 0.
Proof.
  eexists _, _. split_and!; [exact blocked_reachable|done|done|..].
  1: { eapply rtc_l; [apply (step_post (User 0))|simpl].
       eapply rtc_l; [by eapply step_wake|simpl].
       eapply rtc_l; [apply (step_post StopTask)|simpl].
       eapply rtc_l; [by eapply step_wake|simpl].
       eapply rtc_l; [apply step_stop|simpl].
       solo. solo. solo. eapply rtc_l; [by eapply step_wake|simpl]. apply rtc_refl. }
  all: reflexivity.
Qed.

(** *** Witnesses *)

Definition busy : st :=
  mk_st (mk_loop true false false [] [User 1; User 2]) true 0 (LPoll false) [User 1; User 2] [].

Lemma busy_reachable : rtc step init busy.
Proof.
  etrans; [exact blocked_reachable|].
  eapply rtc_l; [apply (step_post (User 1))|simpl]. eapply rtc_l; [by eapply step_wake|simpl].
  eapply rtc_l; [apply (step_post (User 2))|simpl]. eapply rtc_l; [by eapply step_wake|simpl].
  apply rtc_refl.
Qed.

Lemma post_queue_fifo_witness : [] ++ pending busy = [User 1; User 2].
Proof. apply (post_queue_fifo busy busy_reachable). Defined.

Lemma no_lost_wakeup_witness : signalled busy.
Proof. apply (no_lost_wakeup busy false busy_reachable); [reflexivity|left; discriminate]. Defined.

Lemma posted_callbacks_run_witness : ∃ s', rtc moves busy s' ∧ ran s' = [User 1; User 2].
Proof.
  apply (posted_callbacks_run busy busy_reachable); [reflexivity..|].
  intros H. vm_compute in H. set_solver.
Defined.

Definition stopping : st :=
  mk_st (mk_loop false true true [StopTask] []) true 0 LStart [StopTask] [].

Lemma stopping_reachable : rtc step init stopping.
Proof.
  eapply rtc_l; [apply (step_post StopTask)|simpl]. eapply rtc_l; [by eapply step_wake|simpl].
  eapply rtc_l; [apply step_stop|simpl]. eapply rtc_l; [by eapply step_wake|simpl].
  eapply rtc_l; [by apply step_run|]. apply rtc_refl.
Qed.

Lemma stop_terminates_witness :
  ∃ s', rtc moves stopping s' ∧ pc s' = LIdle ∧ running_ (el s') = false.
Proof.
  apply (stop_terminates stopping stopping_reachable); [reflexivity|].
  right. split; [reflexivity|]. apply list_elem_of_here.
Defined.

Definition early_stop : st := mk_st (mk_loop false true true [] []) true 0 LStart [] [].

Lemma early_stop_reachable : rtc step init early_stop.
Proof.
  eapply rtc_l; [apply step_stop|simpl]. eapply rtc_l; [by eapply step_wake|simpl].
  eapply rtc_l; [by apply step_run|]. apply rtc_refl.
Qed.

Lemma stop_before_run_lost_witness :
  stop_requested_ (el early_stop) = true ∧
  ∃ s', rtc moves early_stop s' ∧ pc s' = LPoll false ∧ loop_move s' = None ∧
        stop_requested_ (el s') = false.
Proof. split; [reflexivity|]. by apply (stop_before_run_lost early_stop early_stop_reachable). Defined.

End Machine.

(** ** Timer handles *)

Module Handle.

(** [cancel_fn_] is a function or null; when set it calls [cancel_timer]. *)
Record timer_handle := mk_handle { id_ : Z; cancel_fn_ : bool }.

Definition empty_handle : timer_handle := mk_handle 0 false.

(** [cancel]: the ids passed to [cancel_timer], and the handle afterwards. *)
Definition cancel (h : timer_handle) : list Z * timer_handle :=
  if cancel_fn_ h then ([id_ h], mk_handle 0 false) else ([], h).

(** The move constructor: the new handle and what is left of the other. *)
Definition move_ctor (other : timer_handle) : timer_handle * timer_handle :=
  (mk_handle (id_ other) (cancel_fn_ other), mk_handle 0 false).

(** Move assignment from a different handle. *)
Definition move_assign (self other : timer_handle) : list Z * timer_handle * timer_handle :=
  let '(calls, self) := cancel self in
  (calls, mk_handle (id_ other) (cancel_fn_ other), mk_handle 0 false).

Definition release (h : timer_handle) : Z * timer_handle := (id_ h, mk_handle 0 false).

Definition handle_bool (h : timer_handle) : bool := negb (id_ h =? 0)%Z.

(** [defer] and [repeat] of the event loop, over a dispatcher's [schedule_timer]. *)
Definition defer {D CB} (schedule_timer : Z → bool → CB → D → Z * D) (delay : Z) (callback : CB)
    (d : D) : timer_handle * D :=
  let '(id, d) := schedule_timer delay false callback d in (mk_handle id true, d).
Definition repeat {D CB} (schedule_timer : Z → bool → CB → D → Z * D) (interval : Z) (callback : CB)
    (d : D) : timer_handle * D :=
  let '(id, d) := schedule_timer interval true callback d in (mk_handle id true, d).

(** A program's handle variables, with the timers handed to handles so far,
    those cancelled and those released. *)
Record store := mk_store {
  vars : gmap nat timer_handle; created : list Z; cancelled : list Z; released : list Z
}.

Inductive op :=
| ODefault (x : nat)            (** [timer_handle x;] *)
| OSchedule (x : nat) (id : Z)  (** [auto x = loop.defer(...)], the dispatcher returning [id] *)
| OMove (x y : nat)             (** [timer_handle x(std::move(y));] *)
| OAssign (x y : nat)           (** [x = std::move(y);] *)
| OCancel (x : nat)
| ORelease (x : nat)
| ODestroy (x : nat).

(** The ids a handle answers for. *)
Definition owned (h : timer_handle) : list Z := if cancel_fn_ h then [id_ h] else [].

Definition exec (o : op) (s : store) : option store :=
  match o with
  | ODefault x =>
      match vars s !! x with
      | None => Some (mk_store (<[x:=empty_handle]> (vars s)) (created s) (cancelled s) (released s))
      | Some _ => None
      end
  | OSchedule x id =>
      match vars s !! x with
      | None => Some (mk_store (<[x:=mk_handle id true]> (vars s)) (created s ++ [id]) (cancelled s) (released s))
      | Some _ => None
      end
  | OMove x y =>
      match vars s !! x, vars s !! y with
      | None, Some hy =>
          let '(hx, hy) := move_ctor hy in
          Some (mk_store (<[x:=hx]> (<[y:=hy]> (vars s))) (created s) (cancelled s) (released s))
      | _, _ => None
      end
  | OAssign x y =>
      match vars s !! x, vars s !! y with
      | Some hx, Some hy =>
          if decide (x = y) then Some s
          else let '(calls, hx, hy) := move_assign hx hy in
               Some (mk_store (<[x:=hx]> (<[y:=hy]> (vars s))) (created s) (cancelled s ++ calls) (released s))
      | _, _ => None
      end
  | OCancel x =>
      h ← vars s !! x;
      let '(calls, h) := cancel h in
      Some (mk_store (<[x:=h]> (vars s)) (created s) (cancelled s ++ calls) (released s))
  | ORelease x =>
      h ← vars s !! x;
      Some (mk_store (<[x:=(release h).2]> (vars s)) (created s) (cancelled s) (released s ++ owned h))
  | ODestroy x =>
      h ← vars s !! x;
      Some (mk_store (delete x (vars s)) (created s) (cancelled s ++ (cancel h).1) (released s))
  end.

Fixpoint exec_all (os : list op) (s : store) : option store :=
  match os with
  | [] => Some s
  | o :: os' => s' ← exec o s; exec_all os' s'
  end.

Definition store_init : store := mk_store ∅ [] [] [].

Definition held (m : gmap nat timer_handle) : list Z :=
  concat ((λ p, owned p.2) <$> map_to_list m).

Lemma held_insert m x h : m !! x = None → held (<[x:=h]> m) ≡ₚ owned h ++ held m.
Proof. intros H. unfold held. by rewrite map_to_list_insert. Qed.

Lemma held_lookup m x h : m !! x = Some h → held m ≡ₚ owned h ++ held (delete x m).
Proof.
  intros H. rewrite <- (insert_delete_id m x h H) at 1. rewrite held_insert; [done|].
  apply lookup_delete_eq.
Qed.

Lemma held_update m x h h' :
  m !! x = Some h → held (<[x:=h']> m) ++ owned h ≡ₚ owned h' ++ held m.
Proof.
  intros H. rewrite (held_lookup m x h H), <- insert_delete_eq, held_insert
    by apply lookup_delete_eq. solve_Permutation.
Qed.

Definition accounted (s : store) : Prop :=
  created s ≡ₚ held (vars s) ++ cancelled s ++ released s.

(** Two updates, as a move makes them. *)
Lemma held_move m x y hy h h' :
  m !! x = None → m !! y = Some hy →
  held (<[x:=h]> (<[y:=h']> m)) ++ owned hy ≡ₚ owned h ++ owned h' ++ held m.
Proof.
  intros Hx Hy. rewrite held_insert by (rewrite lookup_insert_ne; congruence).
  rewrite <- app_assoc, (held_update m y hy h' Hy). done.
Qed.

Lemma held_assign m x y hx hy h h' :
  x ≠ y → m !! x = Some hx → m !! y = Some hy →
  held (<[x:=h]> (<[y:=h']> m)) ++ owned hx ++ owned hy ≡ₚ owned h ++ owned h' ++ held m.
Proof.
  intros Hne Hx Hy. rewrite app_assoc, (held_update _ x hx h) by (by rewrite lookup_insert_ne).
  rewrite <- app_assoc, (held_update m y hy h' Hy). done.
Qed.

Lemma cancel_owned h : (cancel h).1 = owned h ∧ owned (cancel h).2 = [].
Proof. unfold cancel, owned. by destruct (cancel_fn_ h) eqn:E; simpl; rewrite ?E. Qed.

Lemma exec_accounted o s s' : exec o s = Some s' → accounted s → accounted s'.
Proof.
  unfold accounted. destruct s as [m cr ca re]. destruct o as [x|x id|x y|x y|x|x|x]; simpl;
    intros H Hacc.
  - destruct (m !! x) eqn:E; simplify_eq/=. by rewrite held_insert.
  - destruct (m !! x) eqn:E; simplify_eq/=. rewrite held_insert, Hacc by done. simpl.
    solve_Permutation.
  - destruct (m !! x) eqn:Ex, (m !! y) as [hy|] eqn:Ey; simplify_eq/=.
    apply (Permutation_app_inv_r (owned hy)). rewrite Hacc.
    pose proof (held_move m x y hy (mk_handle (id_ hy) (cancel_fn_ hy)) (mk_handle 0 false) Ex Ey) as Hm.
    change (owned (mk_handle (id_ hy) (cancel_fn_ hy))) with (owned hy) in Hm. simpl in Hm.
    transitivity ((owned hy ++ held m) ++ ca ++ re); [solve_Permutation|].
    rewrite <- Hm. solve_Permutation.
  - destruct (m !! x) as [hx|] eqn:Ex, (m !! y) as [hy|] eqn:Ey; simplify_eq/=.
    destruct (decide (x = y)) as [->|Hne]; simplify_eq/=; [done|].
    destruct (move_assign hx hy) as [[calls h1] h2] eqn:Ea. simplify_eq/=.
    unfold move_assign in Ea. destruct (cancel hx) as [calls' hx'] eqn:Ec. simplify_eq/=.
    pose proof (proj1 (cancel_owned hx)) as Hc. rewrite Ec in Hc. simpl in Hc. subst calls.
    pose proof (held_assign m x y hx hy (mk_handle (id_ hy) (cancel_fn_ hy)) (mk_handle 0 false) Hne Ex Ey) as Hm.
    change (owned (mk_handle (id_ hy) (cancel_fn_ hy))) with (owned hy) in Hm. simpl in Hm.
    apply (Permutation_app_inv_r (owned hy)). rewrite Hacc.
    transitivity ((owned hy ++ held m) ++ ca ++ re); [solve_Permutation|].
    rewrite <- Hm. solve_Permutation.
  - destruct (m !! x) as [h|] eqn:Ex; simplify_eq/=.
    destruct (cancel h) as [calls h'] eqn:Ec. simplify_eq/=.
    destruct (cancel_owned h) as [Hc1 Hc2]. rewrite Ec in Hc1, Hc2. simpl in *. subst calls.
    pose proof (held_update m x h h' Ex) as Hm. rewrite Hc2 in Hm. simpl in Hm.
    rewrite Hacc, <- Hm. solve_Permutation.
  - destruct (m !! x) as [h|] eqn:Ex; simplify_eq/=.
    pose proof (held_update m x h (mk_handle 0 false) Ex) as Hm. simpl in Hm.
    rewrite Hacc, <- Hm. solve_Permutation.
  - destruct (m !! x) as [h|] eqn:Ex; simplify_eq/=.
    rewrite (proj1 (cancel_owned h)), Hacc, (held_lookup m x h Ex). solve_Permutation.
Qed.

Lemma exec_all_accounted os s s' : exec_all os s = Some s' → accounted s → accounted s'.
Proof.
  revert s. induction os as [|o os IH]; simpl; intros s H Hacc; [by simplify_eq|].
  destruct (exec o s) as [s1|] eqn:E; simpl in H; [|done]. eauto using exec_accounted.
Qed.

(** Timer handles are linear.  Through any sequence of constructions, moves,
    assignments, cancellations, releases and destructions of handles, each timer
    handed to a handle is in exactly one place: owned by one handle, cancelled
    once, or released once.  In particular no timer is cancelled twice, none is
    cancelled after [release], and when all handles are gone every timer has
    been cancelled or released. *)
Theorem timer_handle_linear os s :
  exec_all os store_init = Some s →
  created s ≡ₚ held (vars s) ++ cancelled s ++ released s ∧
  (vars s = ∅ → created s ≡ₚ cancelled s ++ released s) ∧
  (NoDup (created s) → NoDup (cancelled s) ∧ ∀ id, id ∈ cancelled s → id ∉ released s).
Proof.
  intros H. assert (accounted s) as Hacc.
  { apply (exec_all_accounted _ _ _ H). vm_compute. constructor. }
  unfold accounted in Hacc. split_and!; [done|by intros Hv; rewrite Hv in Hacc|].
  rewrite Hacc. intros (_ & _ & Hn)%NoDup_app. apply NoDup_app in Hn as (? & ? & _). auto.
Qed.

Definition handle_program : list op :=
  [OSchedule 1 11; OSchedule 2 12; OAssign 1 2; ODefault 3; OMove 4 1; ORelease 4; OSchedule 5 13;
   OCancel 5; ODestroy 5].

Definition handle_final : store := default store_init (exec_all handle_program store_init).

Lemma timer_handle_linear_witness :
  exec_all handle_program store_init = Some handle_final ∧
  cancelled handle_final = [11; 13]%Z ∧ released handle_final = [12]%Z ∧
  created handle_final ≡ₚ held (vars handle_final) ++ cancelled handle_final ++ released handle_final.
Proof.
  assert (exec_all handle_program store_init = Some handle_final) as H by (vm_compute; reflexivity).
  split; [exact H|]. split; [vm_compute; reflexivity|]. split; [vm_compute; reflexivity|].
  exact (proj1 (timer_handle_linear handle_program _ H)).
Defined.

End Handle.
