(* ===== verification/Handoff.v ===== *)
(** * Callbacks handed from the user to the pool

    [do_post], [do_defer] and [do_repeat] of [stream_impl], [dgram_impl] and
    [dgram_peer_impl] ([src/src/high/stream.cpp], [src/src/high/dgram.cpp],
    [src/src/high/dgram_peer_impl.hpp]).

    The loop's queue of posted lambdas and the serial queue are the queues that
    [EventLoop] and [ThreadPool] implement: first in, first out, one callback at a
    time.  The timers of the dispatcher are a map from ids, and every call of the
    dispatcher is logged with the thread that makes it. *)

From S2P Require Import Prelude Platform Dispatcher EventLoop.

Local Open Scope Z_scope.

Inductive thread := OnLoop | OnUser.
Inductive dcall := DSchedule (id : Z) | DCancel (id : Z).

Section Handoff.
Context {F : Type}.

(** A callback handed over: posted, or that of a timer asked for by a waiter. *)
Inductive callback := CPosted (f : F) | CTimer (waiter : nat) (repeating : bool) (f : F).

(** The lambdas on the loop's queue. *)
Inductive lambda :=
| LSubmit (f : F)
| LSchedule (waiter : nat) (delay : Z) (repeating : bool) (f : F).

(** What a user waits for in [do_defer]: the promise, and the handle it is given. *)
Record st := mk_st {
  posts : list lambda;
  timers : gmap Z (bool * callback);
  promises : gmap nat (option Handle.timer_handle);
  serial : list callback;
  ran : list callback;
  dcalls : list (thread * dcall);
  asked : list F;                     (** callbacks given to [do_post], in order *)
  next_waiter : nat
}.

Definition init : st := mk_st [] ∅ ∅ [] [] [] [] 0.

Definition loop_post (l : lambda) (s : st) : st :=
  mk_st (posts s ++ [l]) (timers s) (promises s) (serial s) (ran s) (dcalls s) (asked s) (next_waiter s).
Definition submit (cb : callback) (s : st) : st :=
  mk_st (posts s) (timers s) (promises s) (serial s ++ [cb]) (ran s) (dcalls s) (asked s) (next_waiter s).

Definition do_post (f : F) (s : st) : st :=
  loop_post (LSubmit f)
    (mk_st (posts s) (timers s) (promises s) (serial s) (ran s) (dcalls s) (asked s ++ [f]) (next_waiter s)).

(** [do_defer] and [do_repeat] up to [f.get()]: the promise is made and the lambda posted. *)
Definition do_timer (repeating : bool) (delay : Z) (f : F) (s : st) : st :=
  loop_post (LSchedule (next_waiter s) delay repeating f)
    (mk_st (posts s) (timers s) (<[next_waiter s := None]> (promises s)) (serial s) (ran s) (dcalls s) (asked s)
       (S (next_waiter s))).
Definition do_defer : Z → F → st → st := do_timer false.
Definition do_repeat : Z → F → st → st := do_timer true.

(** [f.get()]: the handle, once the promise has a value. *)
Definition await (w : nat) (s : st) : option Handle.timer_handle := mjoin (promises s !! w).

(** [schedule_timer] of the dispatcher; [id] is what it returns, 0 if it failed. *)
Definition schedule (t : thread) (id : Z) (repeating : bool) (cb : callback) (s : st) : Z * st :=
  (id, mk_st (posts s) (if id =? 0 then timers s else <[id := (repeating, cb)]> (timers s)) (promises s) (serial s)
         (ran s) (dcalls s ++ [(t, DSchedule id)]) (asked s) (next_waiter s)).

(** The loop runs the next lambda; [id] is the dispatcher's answer if it schedules. *)
Definition run_lambda (id : Z) (s : st) : st :=
  match posts s with
  | [] => s
  | l :: ls =>
      let s := mk_st ls (timers s) (promises s) (serial s) (ran s) (dcalls s) (asked s) (next_waiter s) in
      match l with
      | LSubmit f => submit (CPosted f) s
      | LSchedule w delay repeating f =>
          let schedule_timer (_ : Z) (r : bool) (cb : callback) (s : st) := schedule OnLoop id r cb s in
          let call := if repeating then Handle.repeat schedule_timer else Handle.defer schedule_timer in
          let (h, s) := call delay (CTimer w repeating f) s in
          mk_st (posts s) (timers s) (<[w := Some h]> (promises s)) (serial s) (ran s) (dcalls s) (asked s)
            (next_waiter s)
      end
  end.

(** A timer fires: its callback submits; a one-shot timer is removed. *)
Definition fire (id : Z) (s : st) : st :=
  match (timers s !! id : option (bool * callback)) with
  | None => s
  | Some (rep, cb) =>
      submit cb (mk_st (posts s) (if rep then timers s else delete id (timers s)) (promises s) (serial s) (ran s)
                   (dcalls s) (asked s) (next_waiter s))
  end.

(** The serial queue runs its next callback. *)
Definition run_serial (s : st) : st :=
  match serial s with
  | [] => s
  | cb :: cbs => mk_st (posts s) (timers s) (promises s) cbs (ran s ++ [cb]) (dcalls s) (asked s) (next_waiter s)
  end.

(** The user cancels a handle it was given, or lets go of it: the handle calls the
    dispatcher where it is. *)
Definition user_cancel (w : nat) (s : st) : st :=
  match await w s with
  | None => s
  | Some h =>
      let (ids, h) := Handle.cancel h in
      mk_st (posts s) (foldr delete (timers s) ids) (<[w := Some h]> (promises s)) (serial s) (ran s)
        (dcalls s ++ ((λ id, (OnUser, DCancel id)) <$> ids)) (asked s) (next_waiter s)
  end.

Inductive haction :=
| ADoPost (f : F) | ADoTimer (rep : bool) (delay : Z) (f : F)
| ALoop (id : Z) | AFire (id : Z) | ASerial | ACancel (w : nat).

(** The dispatcher gives out ids that no live timer has. *)
Definition enabled (a : haction) (s : st) : Prop :=
  match a with ALoop id => timers s !! id = None | _ => True end.

Definition exec_act (a : haction) (s : st) : st :=
  match a with
  | ADoPost f => do_post f s
  | ADoTimer false d f => do_defer d f s
  | ADoTimer true d f => do_repeat d f s
  | ALoop id => run_lambda id s
  | AFire id => fire id s
  | ASerial => run_serial s
  | ACancel w => user_cancel w s
  end.

Inductive steps : st → st → Prop :=
| steps_refl s : steps s s
| steps_act s s' a : steps s s' → enabled a s' → steps s (exec_act a s').

(** ** Order and number *)

Definition posted_of (cb : callback) : option F := match cb with CPosted f => Some f | _ => None end.
Definition lambda_post (l : lambda) : option F := match l with LSubmit f => Some f | _ => None end.
Definition lambda_waiter (l : lambda) : option nat := match l with LSchedule w _ _ _ => Some w | _ => None end.
Definition one_shot_of (w : nat) (cb : callback) : bool :=
  match cb with CTimer w' false _ => (w' =? w)%nat | _ => false end.
(** How often the one-shot timer of a waiter has been handed to the pool. *)
Definition fired (w : nat) (s : st) : nat := length (List.filter (one_shot_of w) (ran s ++ serial s)).

Definition granted (w : nat) (s : st) : Prop := ∃ h, promises s !! w = Some (Some h).

Record inv (s : st) : Prop := {
  v_posts : omap posted_of (ran s ++ serial s) ++ omap lambda_post (posts s) = asked s;
  v_waiting : ∀ w, w ∈ omap lambda_waiter (posts s) ↔ promises s !! w = Some None;
  v_nodup : NoDup (omap lambda_waiter (posts s));
  v_next : ∀ w, is_Some (promises s !! w) ↔ (w < next_waiter s)%nat;
  v_timers : ∀ id r cb, timers s !! id = Some (r, cb) →
    ∃ w f, cb = CTimer w r f ∧ granted w s ∧ (r = false → fired w s = 0%nat);
  v_unique : ∀ id id' r w f, timers s !! id = Some (r, CTimer w r f) →
    ∀ r' f', timers s !! id' = Some (r', CTimer w r' f') → id = id';
  v_fired : ∀ w, (fired w s ≤ 1)%nat ∧ ((0 < fired w s)%nat → granted w s);
  v_loop : ∀ t id, (t, DSchedule id) ∈ dcalls s → t = OnLoop
}.

Lemma init_handoff : inv init.
Proof.
  split; simpl; try done.
  - intros w. split; [by intros ?%elem_of_nil|done].
  - constructor.
  - intros w. rewrite lookup_empty. split; [by intros [? ?]|lia].
  - intros w. unfold fired. simpl. split; [lia|lia].
  - intros t id Hin. by apply elem_of_nil in Hin.
Qed.

Lemma fired_snoc w cb (l : list callback) :
  length (List.filter (one_shot_of w) (l ++ [cb])) =
  (length (List.filter (one_shot_of w) l) + Nat.b2n (one_shot_of w cb))%nat.
Proof. rewrite List.filter_app, length_app. simpl. by destruct (one_shot_of w cb). Qed.

Lemma inv_post f s : inv s → inv (do_post f s).
Proof.
  intros []. split; try done; simpl; rewrite 1?(omap_app _ (posts s)); simpl; rewrite ?app_nil_r; try done.
  by rewrite app_assoc, v_posts0.
Qed.

Lemma inv_timer rep d f s : inv s → inv (do_timer rep d f s).
Proof.
  intros []. assert (promises s !! next_waiter s = None) as Hnew.
  { apply eq_None_not_Some. intros Hs. apply v_next0 in Hs. lia. }
  assert (∀ w, granted w s → granted w (do_timer rep d f s)) as Hg.
  { intros w [h Hh]. exists h. simpl. rewrite lookup_insert_ne; [done|]. congruence. }
  split; simpl; rewrite 1?(omap_app _ (posts s)); simpl; rewrite ?app_nil_r; try done.
  - intros w. rewrite elem_of_app, list_elem_of_singleton, v_waiting0. destruct (decide (w = next_waiter s)) as [->|Hne].
    + rewrite lookup_insert_eq. naive_solver.
    + rewrite lookup_insert_ne by done. naive_solver.
  - apply NoDup_app. split_and!; [done| |apply NoDup_singleton]. intros w Hw ->%list_elem_of_singleton.
    apply v_waiting0 in Hw. congruence.
  - intros w. destruct (decide (w = next_waiter s)) as [->|Hne].
    + rewrite lookup_insert_eq. split; [lia|by eexists].
    + rewrite lookup_insert_ne, v_next0 by done. lia.
  - intros id r cb Hid. destruct (v_timers0 id r cb Hid) as (w & f' & -> & Hgr & Hf). exists w, f'. eauto.
  - intros w. destruct (v_fired0 w). eauto.
Qed.

Lemma inv_lambda id s : timers s !! id = None → inv s → inv (run_lambda id s).
Proof.
  intros Hid []. unfold run_lambda. destruct (posts s) as [|[f|w d rep f] ls] eqn:Hp; [by split; rewrite ?Hp|..].
  - simpl in *.
    assert (∀ w, fired w (submit (CPosted f) (mk_st ls (timers s) (promises s) (serial s) (ran s) (dcalls s) (asked s)
      (next_waiter s))) = fired w s) as Hf by (intros w; unfold fired; simpl; rewrite app_assoc, fired_snoc; simpl; lia).
    split; try done; simpl.
    + by rewrite app_assoc, omap_app, <-app_assoc.
    + intros id' r cb Hcb. destruct (v_timers0 id' r cb Hcb) as (w & f' & ? & ? & Hz). exists w, f'. rewrite Hf. eauto.
    + intros w. rewrite Hf. apply v_fired0.
  - simpl in *. apply NoDup_cons in v_nodup0 as [Hnw Hnd].
    assert (promises s !! w = Some None) as Hw by (apply v_waiting0; set_solver).
    set (h := Handle.mk_handle id true).
    assert (∀ w', granted w' s → w' ≠ w) as Hne by (intros w' [h' Hh'] ->; congruence).
    assert (fired w s = 0%nat) as Hz.
    { destruct (v_fired0 w) as [_ Hg]. destruct (fired w s) eqn:E; [done|]. by destruct (Hne w (Hg ltac:(lia))). }
    match goal with |- inv ?s' => replace s' with
      (mk_st ls (if id =? 0 then timers s else <[id := (rep, CTimer w rep f)]> (timers s)) (<[w := Some h]> (promises s))
         (serial s) (ran s) (dcalls s ++ [(OnLoop, DSchedule id)]) (asked s) (next_waiter s)) by (by destruct rep) end.
    assert (∀ w' h', promises s !! w' = Some (Some h') → ∃ h'', <[w := Some h]> (promises s) !! w' = Some (Some h'')) as Hg.
    { intros w' h' Hh'. exists h'. rewrite lookup_insert_ne; [done|]. intros ->. congruence. }
    split; simpl; try done.
    + intros w'. destruct (decide (w' = w)) as [->|Hn].
      * rewrite lookup_insert_eq. split; [done|by intros].
      * rewrite lookup_insert_ne, <-v_waiting0 by done. set_solver.
    + intros w'. destruct (decide (w' = w)) as [->|Hn]; [|by rewrite lookup_insert_ne].
      rewrite lookup_insert_eq, <-v_next0, Hw. split; by eexists.
    + intros id' r cb. destruct (id =? 0); [|intros [[<- [= <- <-]]|[_ Hcb]]%lookup_insert_Some].
      * intros Hcb. destruct (v_timers0 _ _ _ Hcb) as (w' & f' & ? & [h' Hh'] & Hf). exists w', f'. unfold granted. eauto.
      * exists w, f. split_and!; [done| |done]. exists h. simpl. by rewrite lookup_insert_eq.
      * destruct (v_timers0 _ _ _ Hcb) as (w' & f' & ? & [h' Hh'] & Hf). exists w', f'. unfold granted. eauto.
    + destruct (id =? 0); [done|].
      assert (∀ id' r' w' f', timers s !! id' = Some (r', CTimer w' r' f') → w' ≠ w) as Hother.
      { intros id' r' w' f' Hcb. destruct (v_timers0 _ _ _ Hcb) as (w2 & f2 & [= <- <-] & Hgr & _). by apply Hne. }
      intros id1 id2 r w1 f1 H1 r' f' H2.
      apply lookup_insert_Some in H1 as [[<- H1]|[Hn1 H1]];
        apply lookup_insert_Some in H2 as [[<- H2]|[Hn2 H2]]; simplify_eq.
      * done.
      * by destruct (Hother _ _ _ _ H2).
      * by destruct (Hother _ _ _ _ H1).
      * by eapply v_unique0.
    + intros w'. destruct (v_fired0 w') as [H1 H2]. split; [done|]. intros Hpos. destruct (H2 Hpos) as [h' Hh'].
      unfold granted. eauto.
    + intros t id' [Hin|[= -> ->]%list_elem_of_singleton]%elem_of_app; eauto.
Qed.

Lemma inv_fire id s : inv s → inv (fire id s).
Proof.
  intros Hi. unfold fire. destruct (timers s !! id) as [[rep cb]|] eqn:Hid; [|done]. destruct Hi.
  destruct (v_timers0 _ _ _ Hid) as (w & f & -> & Hgr & Hz).
  set (s' := submit _ _).
  assert (∀ w', fired w' s' = (fired w' s + Nat.b2n (one_shot_of w' (CTimer w rep f)))%nat) as Hf.
  { intros w'. unfold fired. simpl. by rewrite app_assoc, fired_snoc. }
  assert (∀ id' x, timers s' !! id' = Some x → timers s !! id' = Some x ∧ (rep = false → id' ≠ id)) as Ht.
  { intros id' x. simpl. destruct rep; [done|]. intros [Hne Hx]%lookup_delete_Some. auto. }
  split; try done; simpl.
  - by rewrite app_assoc, omap_app, app_nil_r.
  - intros id' r cb [Hcb Hne]%Ht. destruct (v_timers0 _ _ _ Hcb) as (w' & f' & -> & Hgr' & Hz'). exists w', f'.
    split_and!; [done..|]. intros ->. rewrite Hf, Hz' by done. simpl. destruct rep; [done|].
    destruct (w =? w')%nat eqn:E; [|done]. apply Nat.eqb_eq in E as <-. destruct (Hne eq_refl). by eapply v_unique0.
  - intros id1 id2 r w1 f1 [H1 _]%Ht r' f' [H2 _]%Ht. by eapply v_unique0.
  - intros w'. rewrite Hf. destruct (v_fired0 w') as [H1 H2]. simpl. destruct rep; simpl; [rewrite Nat.add_0_r; by split|].
    destruct (w =? w')%nat eqn:E; simpl; [|rewrite Nat.add_0_r; by split]. apply Nat.eqb_eq in E as <-.
    rewrite Hz by done. split; [lia|by intros].
Qed.

Lemma inv_serial s : inv s → inv (run_serial s).
Proof.
  intros Hi. unfold run_serial. destruct (serial s) as [|cb cbs] eqn:Hs; [done|]. destruct Hi.
  set (s' := mk_st _ _ _ _ _ _ _ _).
  assert (ran s' ++ serial s' = ran s ++ serial s) as E by (simpl; by rewrite Hs, <-app_assoc).
  assert (∀ w, fired w s' = fired w s) as Hf by (intros w; unfold fired; by rewrite E).
  split; try done.
  - by rewrite E.
  - intros id r cb' Hcb. destruct (v_timers0 _ _ _ Hcb) as (w & f & ? & ? & ?). exists w, f. rewrite Hf. eauto.
  - intros w. rewrite Hf. apply v_fired0.
Qed.

Lemma inv_cancel w s : inv s → inv (user_cancel w s).
Proof.
  intros Hi. unfold user_cancel, await. destruct (promises s !! w) as [[h|]|] eqn:Hw; simpl; [|done..]. destruct Hi.
  destruct (Handle.cancel h) as [ids h'].
  set (s' := mk_st _ _ _ _ _ _ _ _).
  assert (∀ id x, timers s' !! id = Some x → timers s !! id = Some x) as Ht.
  { simpl. intros id x. induction ids as [|i ids IH]; simpl; [done|]. intros [_ Hx]%lookup_delete_Some. auto. }
  assert (∀ w', granted w' s → granted w' s') as Hg.
  { intros w' [h2 Hh]. unfold granted. simpl. destruct (decide (w' = w)) as [->|Hn].
    - exists h'. by rewrite lookup_insert_eq.
    - exists h2. by rewrite lookup_insert_ne. }
  split; try done; simpl.
  - intros w'. rewrite v_waiting0. destruct (decide (w' = w)) as [->|Hn]; [|by rewrite lookup_insert_ne].
    rewrite lookup_insert_eq, Hw. done.
  - intros w'. rewrite <-v_next0. destruct (decide (w' = w)) as [->|Hn]; [|by rewrite lookup_insert_ne].
    rewrite lookup_insert_eq, Hw. split; by eexists.
  - intros id r cb Hcb%Ht. destruct (v_timers0 _ _ _ Hcb) as (w' & f & ? & ? & ?). exists w', f. eauto.
  - intros id1 id2 r w1 f1 H1%Ht r' f' H2%Ht. by eapply v_unique0.
  - intros w'. destruct (v_fired0 w'). eauto.
  - intros t id [Hin|Hin]%elem_of_app; [by eapply v_loop0|].
    apply list_elem_of_fmap in Hin as (? & [= -> ?] & _).
Qed.

Lemma inv_steps s s' : steps s s' → inv s → inv s'.
Proof.
  induction 1 as [|s s' a _ IH Hen]; [done|]. intros Hi. specialize (IH Hi).
  destruct a as [f|rep d f|id|id| |w]; simpl in Hen.
  - by apply inv_post.
  - destruct rep; by apply inv_timer.
  - by apply inv_lambda.
  - by apply inv_fire.
  - by apply inv_serial.
  - by apply inv_cancel.
Qed.

(** C20. Callbacks are handed to the pool in order and once.  However [do_post],
    [do_defer] and [do_repeat] of any threads, the loop, the timers, the serial
    queue and the cancelling of handles interleave: the posted callbacks that ran,
    wait for the pool and wait for the loop are, in this order, exactly those
    given to [do_post]; so once both queues are empty all have run in order; the
    callback of a one-shot timer is handed over at most once; [do_defer] and
    [do_repeat] have their handle as soon as the loop ran their lambda and not
    before; and timers are scheduled on the loop's thread only. *)
Theorem handoff_in_order s :
  steps init s →
  omap posted_of (ran s) ++ omap posted_of (serial s) ++ omap lambda_post (posts s) = asked s ∧
  (posts s = [] → serial s = [] → omap posted_of (ran s) = asked s) ∧
  (∀ w, (fired w s ≤ 1)%nat) ∧
  (∀ w, (w < next_waiter s)%nat → await w s = None ↔ w ∈ omap lambda_waiter (posts s)) ∧
  (∀ t id, (t, DSchedule id) ∈ dcalls s → t = OnLoop).
Proof.
  intros Hs. destruct (inv_steps _ _ Hs init_handoff). rewrite omap_app, <-app_assoc in v_posts0.
  split_and!; [done| | | |done].
  - intros Hp Hse. rewrite Hp, Hse in v_posts0. simpl in v_posts0. by rewrite app_nil_r in v_posts0.
  - intros w. apply v_fired0.
  - intros w Hw. rewrite v_waiting0. apply v_next0 in Hw as [x Hx]. unfold await. rewrite Hx. destruct x; simpl; naive_solver.
Qed.

End Handoff.
Arguments callback F : clear implicits.
Arguments lambda F : clear implicits.
Arguments st F : clear implicits.
Arguments haction F : clear implicits.

(** ** Witnesses *)

Definition demo_acts : list (haction nat) :=
  [ADoPost 1%nat; ADoTimer false 10 7%nat; ADoPost 2%nat; ALoop 9; ASerial; ALoop 9; ALoop 10; AFire 9; ASerial; ASerial].
Definition demo_end : st nat := foldl (λ s a, exec_act a s) init demo_acts.

Lemma demo_steps : steps init demo_end.
Proof. repeat first [apply steps_refl | apply steps_act; [|vm_compute; done]]. Qed.

Lemma handoff_in_order_witness :
  ran demo_end = [CPosted 1%nat; CPosted 2%nat; CTimer 0 false 7%nat] ∧
  omap posted_of (ran demo_end) = asked demo_end ∧ await 0 demo_end = Some (Handle.mk_handle 9 true).
Proof.
  split; [vm_compute; reflexivity|]. split; [|vm_compute; reflexivity].
  apply (handoff_in_order demo_end demo_steps); vm_compute; reflexivity.
Defined.

(** The handles work on the user's thread: cancelling one, or letting go of it,
    calls the dispatcher there, which it allows on the loop's thread only. *)
Theorem cancel_off_loop :
  ∃ s : st nat, steps init s ∧ (OnUser, DCancel 9) ∈ dcalls s.
Proof.
  exists (exec_act (ACancel 0) demo_end). split; [apply steps_act; [exact demo_steps|done]|].
  vm_compute. apply list_elem_of_In. simpl. auto.
Qed.
