(* ===== verification/Connection.v ===== *)
(** * TCP connections

    [tcp_conn_impl] of [src/src/high/connection_engine.hpp] and
    [stream_conn_impl] of [src/src/high/stream_connection_impl.hpp].

    [conn] is the state of the class.  One definition per member function, cut
    where the source takes or releases [write_mutex_] or calls the socket, so
    that a user's thread can come in between; [Machine] puts them together:
    the loop's thread runs posted tasks and I/O events one after the other,
    user threads call [enqueue_send], [close_from_user], [pause_from_user] and
    [resume_from_user], and the dispatcher also serves other sockets.  The
    dispatcher is any implementation of the interface of [Dispatcher.v]; the
    kernel's answers to [send] and [recv] are chosen freely at each call. *)

From S2P Require Import Prelude Platform Dispatcher.

Local Open Scope Z_scope.

(** Callbacks handed to the connection's serial queue. *)
Inductive user_callback := OnData (data : bytes) | OnClose.

#[export] Instance user_callback_eq_dec : EqDecision user_callback.
Proof. solve_decision. Defined.

(** The lambdas the connection posts to the loop. *)
Inductive posted_task := PStart | PRegister | PClose | PPause | PResume.

#[export] Instance posted_task_eq_dec : EqDecision posted_task.
Proof. solve_decision. Defined.

Record conn := mk_conn {
  fd_ : Z;                        (** the descriptor of [socket_] *)
  socket_open : bool;
  write_queue_ : list bytes;
  write_queue_bytes_ : Z;
  max_write_queue_bytes_ : Z;
  write_registered_ : bool;
  on_data_ : bool;                (** whether the user set the handler *)
  on_close_ : bool;
  closed_ : bool;
  paused_ : bool
}.

(** The constructor. *)
Definition conn_init (fd max_write_bytes : Z) (on_data on_close : bool) : conn :=
  mk_conn fd true [] 0 max_write_bytes false on_data on_close false false.

(** [socket_.native_handle()]: [invalid_socket] once closed. *)
Definition native_handle (c : conn) : Z := if socket_open c then fd_ c else -1.

Definition set_queue (q : list bytes) (n : Z) (c : conn) : conn :=
  mk_conn (fd_ c) (socket_open c) q n (max_write_queue_bytes_ c) (write_registered_ c)
    (on_data_ c) (on_close_ c) (closed_ c) (paused_ c).
Definition set_registered (b : bool) (c : conn) : conn :=
  mk_conn (fd_ c) (socket_open c) (write_queue_ c) (write_queue_bytes_ c) (max_write_queue_bytes_ c)
    b (on_data_ c) (on_close_ c) (closed_ c) (paused_ c).
Definition set_closed (c : conn) : conn :=
  mk_conn (fd_ c) (socket_open c) (write_queue_ c) (write_queue_bytes_ c) (max_write_queue_bytes_ c)
    (write_registered_ c) (on_data_ c) (on_close_ c) true (paused_ c).
Definition close_socket (c : conn) : conn :=
  mk_conn (fd_ c) false (write_queue_ c) (write_queue_bytes_ c) (max_write_queue_bytes_ c)
    (write_registered_ c) (on_data_ c) (on_close_ c) (closed_ c) (paused_ c).
Definition set_paused (b : bool) (c : conn) : conn :=
  mk_conn (fd_ c) (socket_open c) (write_queue_ c) (write_queue_bytes_ c) (max_write_queue_bytes_ c)
    (write_registered_ c) (on_data_ c) (on_close_ c) (closed_ c) b.

Definition size (b : bytes) : Z := Z.of_nat (length b).

Section Operations.
Context {CB : Type} {D : Dispatcher CB}.
(** the [on_io_event] callback this connection registers *)
Context (cb : CB).

(** *** Close *)

Definition initiate_close (c : conn) (d : disp) : conn * disp * list user_callback :=
  if closed_ c then (c, d, [])
  else
    let c := set_closed c in
    let fd := native_handle c in
    let d := (d_remove fd d).2 in
    let c := close_socket c in
    (c, d, if on_close_ c then [OnClose] else []).

(** The test that [close_from_user], [pause_from_user] and [resume_from_user]
    start with. *)
Definition user_check (c : conn) : bool := negb (closed_ c).

(** [close_from_user] after its test: the tasks it posts. *)
Definition close_from_user (c : conn) : conn * list posted_task := (c, [PClose]).

(** *** Writing *)

(** [enqueue_send] before the lock: whether it goes on. *)
Definition enqueue_send_check (c : conn) (data : bytes) : bool :=
  negb (closed_ c || (size data =? 0)).

(** [enqueue_send] under the lock; [size_t] arithmetic wraps. *)
Definition enqueue_send_locked (data : bytes) (c : conn) : bool * conn * list posted_task :=
  let len := size data in
  if max_write_queue_bytes_ c <? u64 (write_queue_bytes_ c + len) then (false, c, [])
  else
    let c := set_queue (write_queue_ c ++ [data]) (u64 (write_queue_bytes_ c + len)) c in
    if negb (write_registered_ c) then (true, set_registered true c, [PRegister])
    else (true, c, []).

Definition register_writable (c : conn) (d : disp) : disp :=
  if closed_ c then d
  else (d_modify (native_handle c) (ev_or ev_readable ev_writable) d).2.

(** One turn of the loop of [drain_write_queue] up to the end of its locked
    part: the chunk to send, or [None] when it returned. *)
Definition drain_pop (c : conn) (d : disp) : option bytes * conn * disp :=
  match write_queue_ c with
  | [] =>
      let c := set_registered false c in
      (None, c, (d_modify (native_handle c) ev_readable d).2)
  | chunk :: q =>
      (Some chunk, set_queue q (u64 (write_queue_bytes_ c - size chunk)) c, d)
  end.

(** The locked part that puts the unsent remainder of a chunk back. *)
Definition drain_push_front (chunk : bytes) (sent : nat) (c : conn) : conn :=
  let remaining := drop sent chunk in
  set_queue (remaining :: write_queue_ c) (u64 (write_queue_bytes_ c + size remaining)) c.

(** *** Reading and events *)

(** [start_reading]'s lambda: the interest it computes under the lock. *)
Definition start_interest (c : conn) : Z :=
  match write_queue_ c with
  | [] => ev_readable
  | _ => ev_or ev_readable ev_writable
  end.

Definition start_add (interest : Z) (c : conn) (d : disp) : disp :=
  (d_add (native_handle c) interest cb d).2.

(** [on_io_event], given what [recv] returns if it is called; the boolean says
    whether it goes on to [drain_write_queue]. *)
Definition on_io_event (events : Z) (r : result bytes) (c : conn) (d : disp) :
    conn * disp * list user_callback * bool :=
  if closed_ c then (c, d, [], false)
  else if has_event events ev_error || has_event events ev_hangup then
    let '(c, d, out) := initiate_close c d in (c, d, out, false)
  else if has_event events ev_readable then
    match r with
    | Err e =>
        if ec_eqb e (make_error_code would_block) then (c, d, [], false)
        else let '(c, d, out) := initiate_close c d in (c, d, out, false)
    | Val [] => let '(c, d, out) := initiate_close c d in (c, d, out, false)
    | Val data => (c, d, if on_data_ c then [OnData data] else [], has_event events ev_writable)
    end
  else (c, d, [], has_event events ev_writable).

(** *** Pause and resume *)

(** The lambdas of [pause_from_user] and [resume_from_user]: the interest to set. *)
Definition pause_interest (c : conn) : Z :=
  let interest := if write_registered_ c then ev_writable else ev_none in
  if negb (interest =? ev_none) then interest else ev_none.

Definition resume_interest (c : conn) : Z :=
  if write_registered_ c then ev_or ev_readable ev_writable else ev_readable.

(** [pause_from_user] and [resume_from_user] after their test. *)
Definition pause_from_user (c : conn) : conn * list posted_task := (set_paused true c, [PPause]).
Definition resume_from_user (c : conn) : conn * list posted_task := (set_paused false c, [PResume]).

End Operations.

(** *** What the operations keep of a connection's state *)

Record conn_wf (c : conn) : Prop := {
  wf_fd : 0 ≤ fd_ c;
  wf_max : 0 ≤ max_write_queue_bytes_ c < 2 ^ 62;
  wf_open : socket_open c = negb (closed_ c);
  wf_bytes : write_queue_bytes_ c = size (concat (write_queue_ c));
  wf_tail : size (concat (tail (write_queue_ c))) ≤ max_write_queue_bytes_ c;
  wf_chunks : Forall (λ b, 0 < size b ≤ max_write_queue_bytes_ c) (write_queue_ c)
}.

Lemma size_app a b : size (a ++ b) = size a + size b.
Proof. unfold size. rewrite length_app. lia. Qed.

Lemma size_nonneg a : 0 ≤ size a.
Proof. unfold size. lia. Qed.

Lemma size_drop n a : size (drop n a) = Z.max 0 (size a - Z.of_nat n).
Proof. unfold size. rewrite length_drop. lia. Qed.

Lemma u64_small z : 0 ≤ z < 2 ^ 64 → u64 z = z.
Proof. intros. unfold wrap. by apply Z.mod_small. Qed.

(** The whole queue never holds more than twice the limit. *)
Lemma conn_wf_bound c : conn_wf c → 0 ≤ write_queue_bytes_ c ≤ 2 * max_write_queue_bytes_ c.
Proof.
  intros [_ _ _ Hb Ht Hc]. rewrite Hb. pose proof (size_nonneg (concat (write_queue_ c))).
  destruct (write_queue_ c) as [|x q]; simpl in *; [unfold size in *; simpl in *; lia|].
  apply Forall_cons in Hc as [Hx _]. rewrite size_app in *. lia.
Qed.

Lemma conn_init_wf fd max od oc : 0 ≤ fd → 0 ≤ max < 2 ^ 62 → conn_wf (conn_init fd max od oc).
Proof. intros. split; simpl; solve [done|unfold size; simpl; lia|constructor]. Qed.

Lemma enqueue_wf data c ok c' ts :
  conn_wf c → 0 < size data < 2 ^ 63 → enqueue_send_locked data c = (ok, c', ts) →
  conn_wf c' ∧ fd_ c' = fd_ c ∧ closed_ c' = closed_ c ∧ on_close_ c' = on_close_ c ∧
  max_write_queue_bytes_ c' = max_write_queue_bytes_ c ∧
  (if ok then write_queue_ c' = write_queue_ c ++ [data] ∧ write_registered_ c' = true ∧
     (write_registered_ c = true ∧ ts = [] ∨ ts = [PRegister]) ∧
     write_queue_bytes_ c' ≤ max_write_queue_bytes_ c
   else c' = c ∧ ts = []) .
Proof.
  intros Hwf Hd. pose proof (conn_wf_bound c Hwf) as Hb. destruct Hwf as [? Hm ? Hby Ht Hc].
  unfold enqueue_send_locked. rewrite u64_small by lia.
  destruct (_ <? _) eqn:E; bool_facts; [intros [= <- <- <-]; by split|].
  assert (conn_wf (set_queue (write_queue_ c ++ [data]) (write_queue_bytes_ c + size data) c)) as Hwf'.
  { split; simpl; try done.
    - rewrite concat_app, size_app. simpl. rewrite app_nil_r. lia.
    - destruct (write_queue_ c) as [|x q]; simpl in *; [unfold size; simpl; lia|].
      rewrite concat_app, size_app. simpl. rewrite app_nil_r.
      pose proof (size_nonneg x). rewrite size_app in Hby. lia.
    - apply Forall_app. split; [done|]. repeat constructor; lia. }
  destruct (write_registered_ c) eqn:Er; simpl; rewrite ?Er; intros [= <- <- <-]; simpl.
  - split_and!; auto.
  - split_and!; auto. by destruct Hwf'; split.
Qed.

Lemma drain_pop_some {CB} {D : Dispatcher CB} c (d : disp) chunk c' d' :
  conn_wf c → drain_pop c d = (Some chunk, c', d') →
  conn_wf c' ∧ write_queue_ c = chunk :: write_queue_ c' ∧ d' = d ∧
  c' = set_queue (write_queue_ c') (write_queue_bytes_ c') c ∧
  0 < size chunk ≤ max_write_queue_bytes_ c ∧ write_queue_bytes_ c' ≤ max_write_queue_bytes_ c.
Proof.
  intros Hwf. pose proof (conn_wf_bound c Hwf) as Hb. destruct Hwf as [? Hm ? Hby Ht Hc].
  unfold drain_pop. destruct (write_queue_ c) as [|x q] eqn:Eq; [done|]. intros [= <- <- <-].
  apply Forall_cons in Hc as [Hx Hc]. simpl in *. rewrite size_app in Hby.
  pose proof (size_nonneg (concat q)).
  assert (u64 (write_queue_bytes_ c - size x) = size (concat q)) as Eu
    by (rewrite u64_small; lia).
  split_and!; try done; try lia.
  split; simpl; try done.
  destruct q as [|y q]; simpl in *; [unfold size; simpl; lia|]. rewrite size_app in *.
  pose proof (size_nonneg y). lia.
Qed.

Lemma push_front_wf chunk sent c :
  conn_wf c → (sent < length chunk)%nat → size chunk ≤ max_write_queue_bytes_ c →
  write_queue_bytes_ c ≤ max_write_queue_bytes_ c →
  conn_wf (drain_push_front chunk sent c).
Proof.
  intros [? Hm ? Hby Ht Hc] Hs Hch Hq. unfold drain_push_front.
  pose proof (size_drop sent chunk) as Hd. pose proof (size_nonneg (concat (write_queue_ c))).
  assert (Z.of_nat sent < size chunk) by (unfold size; lia).
  rewrite u64_small by lia. split; simpl; try done.
  - rewrite size_app. lia.
  - lia.
  - constructor; [lia|done].
Qed.

Module Machine.
Section Machine.
Context {CB : Type} {D : Dispatcher CB} (cb : CB).

(** Where the loop's thread is inside this connection's code. *)
Inductive lpc :=
| Idle                                  (** not in this connection *)
| Drain                                 (** at the top of the loop of [drain_write_queue] *)
| Sending (chunk : bytes) (sent : nat)  (** in its inner loop *)
| PushBack (chunk : bytes) (sent : nat) (** [send] would block; about to lock *)
| Adding (interest : Z)                 (** [start_reading], about to call [add] *)
| Modifying (interest : Z).             (** pause or resume, about to call [modify] *)

(** A user's call that has passed its test of [closed_]. *)
Inductive user_call := CSend (data : bytes) | CClose | CPause | CResume.

(** [wire] holds the bytes the kernel took, [accepted] those of the calls of
    [enqueue_send] that returned true; [added] says that [start_reading]'s
    [add] has been made. *)
Record st := mk_st {
  c : conn; d : disp; posts : list posted_task; pc : lpc; callers : list user_call;
  submitted : list user_callback; wire : bytes; accepted : bytes;
  start_called : bool; added : bool
}.

Definition init (fd max : Z) (od oc : bool) (d0 : disp) : st :=
  mk_st (conn_init fd max od oc) d0 [] Idle [] [] [] [] false false.

(** A posted task, run on the loop's thread. *)
Definition run_task (t : posted_task) (ts : list posted_task) (s : st) : st :=
  match t with
  | PStart =>
      mk_st (c s) (d s) ts (Adding (start_interest (c s))) (callers s) (submitted s) (wire s)
        (accepted s) (start_called s) (added s)
  | PRegister =>
      mk_st (c s) (register_writable (c s) (d s)) ts Idle (callers s) (submitted s) (wire s)
        (accepted s) (start_called s) (added s)
  | PClose =>
      let '(c', d', out) := initiate_close (c s) (d s) in
      mk_st c' d' ts Idle (callers s) (submitted s ++ out) (wire s) (accepted s)
        (start_called s) (added s)
  | PPause =>
      mk_st (c s) (d s) ts (if closed_ (c s) then Idle else Modifying (pause_interest (c s)))
        (callers s) (submitted s) (wire s) (accepted s) (start_called s) (added s)
  | PResume =>
      mk_st (c s) (d s) ts (if closed_ (c s) then Idle else Modifying (resume_interest (c s)))
        (callers s) (submitted s) (wire s) (accepted s) (start_called s) (added s)
  end.

Definition after_call (s : st) (p : conn * list posted_task) : st :=
  mk_st p.1 (d s) (posts s ++ p.2) (pc s) (callers s) (submitted s) (wire s) (accepted s)
    (start_called s) (added s).

(** A user's call after its test of [closed_]. *)
Definition commit (u : user_call) (s : st) : st :=
  match u with
  | CSend data =>
      let '(ok, c', ts) := enqueue_send_locked data (c s) in
      mk_st c' (d s) (posts s ++ ts) (pc s) (callers s) (submitted s) (wire s)
        (if ok then accepted s ++ data else accepted s) (start_called s) (added s)
  | CClose => after_call s (close_from_user (c s))
  | CPause => after_call s (pause_from_user (c s))
  | CResume => after_call s (resume_from_user (c s))
  end.

Definition may_enter (u : user_call) (c : conn) : Prop :=
  match u with
  | CSend data => enqueue_send_check c data = true ∧ size data < 2 ^ 63
  | _ => user_check c = true
  end.

Definition with_loop (s : st) (c' : conn) (d' : disp) (pc' : lpc) : st :=
  mk_st c' d' (posts s) pc' (callers s) (submitted s) (wire s) (accepted s) (start_called s) (added s).

(** The result of [send] inside [drain_write_queue]. *)
Definition sent_ok (n : nat) (s : st) (chunk : bytes) (sent : nat) : st :=
  mk_st (c s) (d s) (posts s)
    (if (sent + n <? length chunk)%nat then Sending chunk (sent + n) else Drain)
    (callers s) (submitted s) (wire s ++ take n (drop sent chunk)) (accepted s)
    (start_called s) (added s).

Definition closing (s : st) : st :=
  let '(c', d', out) := initiate_close (c s) (d s) in
  mk_st c' d' (posts s) Idle (callers s) (submitted s ++ out) (wire s) (accepted s)
    (start_called s) (added s).

(** A step of this connection's code: its own, or a user's call of it. *)
Inductive own_step : st → st → Prop :=
(** the loop's thread *)
| step_task s t ts : pc s = Idle → posts s = t :: ts → own_step s (run_task t ts s)
| step_event s events r c' d' out b :
    pc s = Idle → added s = true →
    on_io_event events r (c s) (d s) = (c', d', out, b) →
    own_step s (mk_st c' d' (posts s) (if b then Drain else Idle) (callers s) (submitted s ++ out)
              (wire s) (accepted s) (start_called s) (added s))
| step_add s i :
    pc s = Adding i →
    own_step s (mk_st (c s) (start_add cb i (c s) (d s)) (posts s) Idle (callers s) (submitted s)
              (wire s) (accepted s) (start_called s) true)
| step_modify s i :
    pc s = Modifying i →
    own_step s (with_loop s (c s) (d_modify (native_handle (c s)) i (d s)).2 Idle)
| step_drain s chunk c' d' :
    pc s = Drain → drain_pop (c s) (d s) = (chunk, c', d') →
    own_step s (with_loop s c' d'
              match chunk with
              | None => Idle
              | Some ch => if (0 <? length ch)%nat then Sending ch 0 else Drain
              end)
| step_send s chunk sent n :
    pc s = Sending chunk sent → (0 < n ≤ length chunk - sent)%nat → own_step s (sent_ok n s chunk sent)
| step_would_block s chunk sent :
    pc s = Sending chunk sent → own_step s (with_loop s (c s) (d s) (PushBack chunk sent))
| step_push_back s chunk sent :
    pc s = PushBack chunk sent →
    own_step s (with_loop s (drain_push_front chunk sent (c s)) (d s) Idle)
| step_send_error s chunk sent :
    pc s = Sending chunk sent → own_step s (closing s)
(** user threads *)
| step_enter s u :
    may_enter u (c s) →
    own_step s (mk_st (c s) (d s) (posts s) (pc s) (callers s ++ [u]) (submitted s) (wire s)
              (accepted s) (start_called s) (added s))
| step_commit s u us us' :
    callers s = us ++ u :: us' →
    own_step s (commit u (mk_st (c s) (d s) (posts s) (pc s) (us ++ us') (submitted s) (wire s)
                        (accepted s) (start_called s) (added s)))
| step_start s :
    start_called s = false →
    own_step s (mk_st (c s) (d s) (posts s ++ [PStart]) (pc s) (callers s) (submitted s) (wire s)
              (accepted s) true (added s)).

(** Or of the dispatcher's other users; a closed descriptor may be reused by them. *)
Inductive step : st → st → Prop :=
| step_own s s' : own_step s s' → step s s'
| step_other s d' :
    d_wf d' → (socket_open (c s) = true → d_lookup d' (fd_ (c s)) = d_lookup (d s) (fd_ (c s))) →
    step s (with_loop s (c s) d' (pc s)).

(** *** The invariant *)

(** The bytes of the chunk in hand that have not been sent. *)
Definition inflight (p : lpc) : bytes :=
  match p with Sending chunk sent | PushBack chunk sent => drop sent chunk | _ => [] end.

Definition draining (p : lpc) : bool :=
  match p with Drain | Sending _ _ | PushBack _ _ => true | _ => false end.

(** What holds of the chunk in hand. *)
Definition pc_wf (p : lpc) (c : conn) : Prop :=
  match p with
  | Sending chunk sent | PushBack chunk sent =>
      (sent < length chunk)%nat ∧ size chunk ≤ max_write_queue_bytes_ c ∧
      write_queue_bytes_ c ≤ max_write_queue_bytes_ c ∧ write_registered_ c = true
  | _ => True
  end.

Definition closed_pc (p : lpc) : Prop :=
  match p with Idle | Adding _ => True | _ => False end.

Definition call_wf (u : user_call) : Prop :=
  match u with CSend data => 0 < size data < 2 ^ 63 | _ => True end.

Definition closes (s : st) : nat := count (λ u, bool_decide (u = OnClose)) (submitted s).

Record inv (s : st) : Prop := {
  i_conn : conn_wf (c s);
  i_disp : d_wf (d s);
  i_pc : pc_wf (pc s) (c s);
  i_closed : closed_ (c s) = true → closed_pc (pc s);
  i_callers : Forall call_wf (callers s);
  i_stream : closed_ (c s) = false →
             wire s ++ inflight (pc s) ++ concat (write_queue_ (c s)) = accepted s;
  i_prefix : wire s `prefix_of` accepted s;
  i_closes : closes s = if closed_ (c s) && on_close_ (c s) then 1%nat else 0%nat;
  i_registered : closed_ (c s) = false →
                 (write_queue_ (c s) ≠ [] → write_registered_ (c s) = true) ∧
                 (draining (pc s) = false → write_registered_ (c s) = true → write_queue_ (c s) ≠ [])
}.

Context `{!DispatcherLaws D}.

Lemma disp_remove_wf fd d0 : d_wf d0 → d_wf (d_remove fd d0).2.
Proof. intros H. destruct (d_remove fd d0) eqn:E. by apply law_remove in E as [? _]. Qed.
Lemma disp_modify_wf fd i d0 : d_wf d0 → d_wf (d_modify fd i d0).2.
Proof. intros H. destruct (d_modify fd i d0) eqn:E. by apply law_modify in E as [? _]. Qed.
Lemma disp_add_wf fd i x d0 : d_wf d0 → d_wf (d_add fd i x d0).2.
Proof. intros H. destruct (d_add fd i x d0) eqn:E. by apply law_add in E as [? _]. Qed.

Lemma conn_init_inv fd max od oc d0 :
  0 ≤ fd → 0 ≤ max < 2 ^ 62 → d_wf d0 → inv (init fd max od oc d0).
Proof.
  intros. split; simpl; try done. by apply conn_init_wf.
Qed.

(** [initiate_close] from any point of the connection's code. *)
Lemma closing_inv ts s :
  inv s → inv (let '(c', d', out) := initiate_close (c s) (d s) in
               mk_st c' d' ts Idle (callers s) (submitted s ++ out) (wire s) (accepted s)
                 (start_called s) (added s)).
Proof.
  intros [Hc Hd Hp Hcl Hu Hs Hpre Hn Hr]. unfold initiate_close, closes in *.
  destruct (closed_ (c s)) eqn:E; simpl.
  - split; simpl; try done; rewrite ?E; try done. unfold closes. simpl. by rewrite app_nil_r.
  - split; simpl; try done.
    + destruct Hc. by split.
    + by apply disp_remove_wf.
    + unfold closes. simpl. rewrite count_app, Hn. by destruct (on_close_ (c s)).
Qed.

(** [on_io_event] closes the connection, or leaves it and the dispatcher alone. *)
Lemma on_io_event_cases events r c0 (d0 : disp) c' d' out b :
  on_io_event events r c0 d0 = (c', d', out, b) →
  (initiate_close c0 d0 = (c', d', out) ∧ b = false) ∨
  (c' = c0 ∧ d' = d0 ∧ count (λ u, bool_decide (u = OnClose)) out = 0%nat ∧
   (closed_ c0 = true → b = false)).
Proof.
  unfold on_io_event. destruct (closed_ c0) eqn:E; [intros [= <- <- <- <-]; by right|].
  destruct (initiate_close c0 d0) as [[c1 d1] o1] eqn:Ec.
  repeat case_match; intros [= <- <- <- <-]; auto; right; split_and!; try done;
    by destruct (on_data_ c0).
Qed.

Lemma run_task_inv s t ts : inv s → pc s = Idle → posts s = t :: ts → inv (run_task t ts s).
Proof.
  intros Hi Hpc _. destruct t; simpl; [..|by apply closing_inv| |];
    destruct Hi as [Hc Hd Hp Hcl Hu Hs Hpre Hn Hr]; rewrite Hpc in *; unfold closes in *.
  - by split.
  - split; simpl; try done. unfold register_writable. destruct (closed_ (c s)); [done|].
    by apply disp_modify_wf.
  - destruct (closed_ (c s)) eqn:E; split; simpl; rewrite ?E; try done.
  - destruct (closed_ (c s)) eqn:E; split; simpl; rewrite ?E; try done.
Qed.

Lemma commit_inv s u : inv s → call_wf u → inv (commit u s).
Proof.
  intros [Hc Hd Hp Hcl Hu Hs Hpre Hn Hr] Hw. destruct u as [data| | |]; simpl in *.
  - destruct (enqueue_send_locked data (c s)) as [[ok c'] ts] eqn:Ee.
    pose proof (enqueue_wf data _ _ _ _ Hc Hw Ee) as (Hc' & Hfd & Hcl' & Hoc & Hmax & Hok).
    unfold closes in *. destruct ok.
    + destruct Hok as (Hq & Hreg & _ & Hle). split; simpl; rewrite ?Hcl', ?Hoc; try done.
      * destruct (pc s); simpl in *; rewrite ?Hmax; try done; destruct Hp as (? & ? & ? & ?); done.
      * intros Hf. rewrite Hq, concat_app, <- (Hs Hf). simpl. by rewrite app_nil_r, !app_assoc.
      * by apply prefix_app_r.
      * intros _. split; [done|]. intros _ _. rewrite Hq. by destruct (write_queue_ (c s)).
    + destruct Hok as [-> ->]. by split.
  - by split.
  - split; simpl; try done. by destruct Hc; split.
  - split; simpl; try done. by destruct Hc; split.
Qed.

Lemma conn_drain_inv s chunk c' d' :
  inv s → pc s = Drain → drain_pop (c s) (d s) = (chunk, c', d') →
  inv (with_loop s c' d'
         match chunk with
         | None => Idle
         | Some ch => if (0 <? length ch)%nat then Sending ch 0 else Drain
         end).
Proof.
  intros [Hc Hd Hp Hcl Hu Hs Hpre Hn Hr] Hpc Hpop. rewrite Hpc in *. unfold closes in *.
  destruct chunk as [ch|].
  - destruct (drain_pop_some _ _ _ _ _ Hc Hpop) as (Hc' & Hq & -> & Hc'' & Hsz & Hle).
    assert (0 < length ch)%nat as Hlen by (unfold size in Hsz; lia).
    rewrite (proj2 (Nat.ltb_lt _ _) Hlen).
    assert (closed_ (c s) = false) as Hf by (by destruct (closed_ (c s)); [destruct (Hcl eq_refl)|]).
    destruct (Hr Hf) as [Hr1 _]. rewrite Hq in Hr1.
    assert (closed_ c' = false ∧ on_close_ c' = on_close_ (c s) ∧ write_registered_ c' = true ∧
            max_write_queue_bytes_ c' = max_write_queue_bytes_ (c s)) as (E1 & E2 & E3 & E4)
      by (rewrite Hc''; simpl; auto).
    split; simpl; rewrite ?E1, ?E2, ?E4; try done.
    + split_and!; try done; lia.
    + intros _. by rewrite <- (Hs Hf), Hq.
    + by rewrite Hf in Hn.
  - unfold drain_pop in Hpop. destruct (write_queue_ (c s)) as [|x q] eqn:Eq; [|done].
    injection Hpop as <- <-. split; simpl; rewrite ?Eq; try done.
    + by destruct Hc; split.
    + by apply disp_modify_wf.
Qed.

Lemma sent_inv s chunk sent n :
  inv s → pc s = Sending chunk sent → (0 < n ≤ length chunk - sent)%nat → inv (sent_ok n s chunk sent).
Proof.
  intros [Hc Hd Hp Hcl Hu Hs Hpre Hn Hr] Hpc Hle. unfold closes, sent_ok in *.
  rewrite Hpc in *. simpl in Hp. destruct Hp as (Hlt & Hsz & Hle' & Hreg).
  assert (closed_ (c s) = false) as Hf by (by destruct (closed_ (c s)); [destruct (Hcl eq_refl)|]).
  assert (take n (drop sent chunk) ++ drop (sent + n) chunk = drop sent chunk) as Htd
    by (rewrite <- drop_drop; apply take_drop).
  assert ((wire s ++ take n (drop sent chunk)) ++
          inflight (if (sent + n <? length chunk)%nat then Sending chunk (sent + n) else Drain) ++
          concat (write_queue_ (c s)) = accepted s) as Hs'.
  { rewrite <- (Hs Hf). simpl. rewrite <- Htd at 2. rewrite <- !app_assoc.
    destruct (_ <? _)%nat eqn:E; bool_facts; [done|]. simpl. by rewrite (drop_ge _ (sent + n)) by lia. }
  destruct (Hr Hf) as [Hr1 _].
  split; simpl; rewrite ?Hf; try done; rewrite ?Hf in Hn; try done.
  - destruct (_ <? _)%nat eqn:E; bool_facts; simpl; [by split_and!|done].
  - rewrite <- Hs'. apply prefix_app_r. done.
  - intros _. split; [done|]. by destruct (_ <? _)%nat.
Qed.

Lemma own_step_inv s s' : own_step s s' → inv s → inv s'.
Proof.
  intros Hstep Hi. destruct Hstep as [s t ts H1 H2|s events r c' d' out b H1 H2 H3|s i H|s i H
    |s chunk c' d' H1 H2|s chunk sent n H1 H2|s chunk sent H|s chunk sent H|s chunk sent H|s u H
    |s u us us' H|s H].
  - by apply run_task_inv.
  - apply on_io_event_cases in H3 as [[H3 ->]|(-> & -> & Hout & Hb)].
    + pose proof (closing_inv (posts s) s Hi) as Hc. by rewrite H3 in Hc.
    + destruct Hi as [Hc Hd Hp Hcl Hu Hs Hpre Hn Hr]; rewrite H1 in *; unfold closes in *.
      split; simpl; try done.
      * by destruct b.
      * intros Hf. by rewrite (Hb Hf).
      * by destruct b.
      * unfold closes. simpl. rewrite count_app, Hn, Hout. lia.
      * intros Hf. destruct (Hr Hf). split; [done|]. by destruct b.
  - destruct Hi as [Hc Hd Hp Hcl Hu Hs Hpre Hn Hr]; rewrite H in *.
    split; simpl; try done. by apply disp_add_wf.
  - destruct Hi as [Hc Hd Hp Hcl Hu Hs Hpre Hn Hr]; rewrite H in *.
    split; simpl; try done. by apply disp_modify_wf.
  - by apply conn_drain_inv.
  - by apply sent_inv.
  - destruct Hi as [Hc Hd Hp Hcl Hu Hs Hpre Hn Hr]; rewrite H in *. by split.
  - destruct Hi as [Hc Hd Hp Hcl Hu Hs Hpre Hn Hr]; rewrite H in *.
    destruct Hp as (Hlt & Hsz & Hle & Hreg).
    split; simpl; try done. by apply push_front_wf.
  - by apply (closing_inv (posts s)).
  - destruct Hi as [Hc Hd Hp Hcl Hu Hs Hpre Hn Hr]. split; simpl; try done.
    apply Forall_app. split; [done|]. constructor; [|done]. destruct u; simpl in *; try done.
    destruct H as [H ?]. unfold enqueue_send_check in H. pose proof (size_nonneg data).
    apply negb_true_iff, orb_false_iff in H as [_ H]. bool_facts. lia.
  - destruct Hi as [Hc Hd Hp Hcl Hu Hs Hpre Hn Hr]. rewrite H in Hu.
    apply Forall_app in Hu as [Hu1 Hu2]. apply Forall_cons in Hu2 as [Hu2 Hu3].
    apply commit_inv; [|done]. split; simpl; try done. by apply Forall_app.
  - by destruct Hi; split.
Qed.

Lemma conn_step_inv s s' : step s s' → inv s → inv s'.
Proof. intros [s0 s1 H|s0 d' H1 H2] Hi; [by eapply own_step_inv|by destruct Hi; split]. Qed.

Lemma conn_reachable_inv fd max od oc d0 s :
  0 ≤ fd → 0 ≤ max < 2 ^ 62 → d_wf d0 → rtc step (init fd max od oc d0) s → inv s.
Proof. intros ? ? ? Hr. eapply rtc_preserves; eauto using conn_step_inv, conn_init_inv. Qed.

(** *** Queued data is always on its way *)

(** While a write is registered, the interest the dispatcher has, or is about to
    be given, includes writable, or a task to set it is posted. *)
Definition interest_ok (s : st) (i : Z) : Prop :=
  has_event i ev_writable = true ∨ PRegister ∈ posts s.

Definition served (s : st) : Prop :=
  closed_ (c s) = false → write_registered_ (c s) = true →
  (∀ i x, d_lookup (d s) (fd_ (c s)) = Some (i, x) → interest_ok s i) ∧
  (∀ i, pc s = Adding i ∨ pc s = Modifying i → interest_ok s i).

Context `{!DispatcherReliable D}.

Lemma effective_writable i : has_event (effective i) ev_writable = has_event i ev_writable.
Proof.
  unfold effective. rewrite has_event_or.
  destruct (has_event i ev_readable), (has_event i ev_writable); reflexivity.
Qed.

Lemma native_handle_open c0 : conn_wf c0 → closed_ c0 = false → native_handle c0 = fd_ c0.
Proof. intros Hc Hf. unfold native_handle. by rewrite (wf_open c0 Hc), Hf. Qed.

(** What a change of interest leaves registered. *)
Lemma modify_lookup fd i d0 j x :
  d_wf d0 → d_lookup (d_modify fd i d0).2 fd = Some (j, x) → j = effective i.
Proof.
  intros Hwf. destruct (d_modify fd i d0) as [r d1] eqn:E. simpl. intros Hl.
  pose proof (law_modify _ _ _ _ _ Hwf E) as (_ & _ & Hfd).
  destruct (d_lookup d0 fd) as [[j0 x0]|] eqn:El.
  - pose proof (law_modify_ok fd i d0 Hwf ltac:(by rewrite El)) as Hok. rewrite E in Hok.
    simpl in Hok. rewrite Hok in Hfd. simpl in Hfd. congruence.
  - destruct (rv_bool r); simpl in Hfd; congruence.
Qed.

Lemma add_lookup fd i y d0 j x :
  d_wf d0 → d_lookup (d_add fd i y d0).2 fd = Some (j, x) →
  j = effective i ∨ d_lookup d0 fd = Some (j, x).
Proof.
  intros Hwf. destruct (d_add fd i y d0) as [r d1] eqn:E. simpl. intros Hl.
  pose proof (law_add _ _ _ _ _ _ Hwf E) as (_ & _ & Hfd).
  destruct (rv_bool r); [left|right]; congruence.
Qed.

Lemma run_task_served s t ts :
  inv s → served s → pc s = Idle → posts s = t :: ts → served (run_task t ts s).
Proof.
  intros Hi Hs Hpc Hp. unfold served in *. destruct t; simpl.
  - intros Hf Hreg. destruct (Hs Hf Hreg) as [H1 _]. destruct (i_registered s Hi Hf) as [_ Hq].
    rewrite Hpc in Hq. specialize (Hq eq_refl Hreg). unfold interest_ok in *. rewrite Hp in H1. split.
    + intros i x Hl. destruct (H1 i x Hl) as [?|?]; [by left|right; simpl; set_solver].
    + intros i [[= <-]|?]; [|done]. left. unfold start_interest. by destruct (write_queue_ (c s)).
  - intros Hf _. unfold register_writable. rewrite Hf, native_handle_open by (by destruct Hi || done).
    split; [|naive_solver]. intros i x Hl. left. apply modify_lookup in Hl; [|by destruct Hi].
    subst. by rewrite effective_writable.
  - unfold initiate_close. destruct (closed_ (c s)) eqn:E; simpl; [by rewrite E|done].
  - intros Hf Hreg. destruct (Hs Hf Hreg) as [H1 _]. rewrite Hf. unfold interest_ok in *.
    rewrite Hp in H1. split.
    + intros i x Hl. destruct (H1 i x Hl) as [?|?]; [by left|right; simpl; set_solver].
    + intros i [?|[= <-]]; [done|]. left. unfold pause_interest. by rewrite Hreg.
  - intros Hf Hreg. destruct (Hs Hf Hreg) as [H1 _]. rewrite Hf. unfold interest_ok in *.
    rewrite Hp in H1. split.
    + intros i x Hl. destruct (H1 i x Hl) as [?|?]; [by left|right; simpl; set_solver].
    + intros i [?|[= <-]]; [done|]. left. unfold resume_interest. by rewrite Hreg.
Qed.

(** A step that leaves the dispatcher alone, does not start a change of interest
    and only adds posts. *)
Lemma served_mono s s' :
  served s → fd_ (c s') = fd_ (c s) → closed_ (c s') = closed_ (c s) →
  d_lookup (d s') (fd_ (c s)) = d_lookup (d s) (fd_ (c s)) →
  (∀ i, pc s' = Adding i ∨ pc s' = Modifying i → pc s = pc s') →
  posts s ⊆ posts s' →
  (write_registered_ (c s') = true → write_registered_ (c s) = true ∨ PRegister ∈ posts s') →
  served s'.
Proof.
  intros Hs Hfd Hcl Hd Hpc Hp Hreg. unfold served, interest_ok in *.
  rewrite Hfd, Hcl, Hd. intros Hf Hr. destruct (Hreg Hr) as [Hr'|?]; [|by split; right].
  destruct (Hs Hf Hr') as [H1 H2]. split.
  - intros i x Hl. destruct (H1 i x Hl) as [?|?]; [by left|right; set_solver].
  - intros i Hi. rewrite <- (Hpc i Hi) in Hi. destruct (H2 i Hi) as [?|?]; [by left|right; set_solver].
Qed.

Lemma own_step_served s s' : own_step s s' → inv s → served s → served s'.
Proof.
  intros Hstep Hi Hs. destruct Hstep as [s t ts H1 H2|s events r c' d' out b H1 H2 H3|s i H|s i H
    |s chunk c' d' H1 H2|s chunk sent n H1 H2|s chunk sent H|s chunk sent H|s chunk sent H|s u H
    |s u us us' H|s H].
  - by apply run_task_served.
  - apply on_io_event_cases in H3 as [[H3 ->]|(-> & -> & Hout & Hb)].
    + unfold initiate_close in H3. unfold served. simpl.
      destruct (closed_ (c s)) eqn:E; injection H3 as <- <- <-; simpl; [by rewrite E|done].
    + apply (served_mono s); simpl; auto. intros i. destruct b; naive_solver.
  - intros Hf Hreg. simpl in *. destruct (Hs Hf Hreg) as [H1 H2]. unfold start_add, interest_ok in *.
    rewrite native_handle_open by (by destruct Hi || done). simpl. split; [|naive_solver].
    intros j x Hl. apply add_lookup in Hl as [->|Hl]; [|by eauto|by destruct Hi].
    rewrite effective_writable. apply (H2 i). by left.
  - intros Hf Hreg. simpl in *. destruct (Hs Hf Hreg) as [H1 H2]. unfold interest_ok in *.
    rewrite native_handle_open by (by destruct Hi || done). simpl. split; [|naive_solver].
    intros j x Hl. apply modify_lookup in Hl; [|by destruct Hi]. subst.
    rewrite effective_writable. apply (H2 i). by right.
  - destruct chunk as [ch|].
    + apply drain_pop_some in H2 as (_ & Hq & -> & Hc & _); [|by destruct Hi].
      apply (served_mono s); simpl; auto; [by rewrite Hc|by rewrite Hc| |rewrite Hc; by left].
      intros i. destruct (_ <? _)%nat; naive_solver.
    + unfold drain_pop in H2. destruct (write_queue_ (c s)); [|done]. by injection H2 as <- <-.
  - apply (served_mono s); simpl; auto. intros i. destruct (_ <? _)%nat; naive_solver.
  - apply (served_mono s); simpl; auto. naive_solver.
  - apply (served_mono s); simpl; auto. naive_solver.
  - unfold closing, initiate_close, served.
    destruct (closed_ (c s)) eqn:E; simpl; [by rewrite E|done].
  - apply (served_mono s); simpl; auto.
  - assert (call_wf u) as Hw.
    { pose proof (i_callers s Hi) as Hu. rewrite H, Forall_app, Forall_cons in Hu. tauto. }
    destruct u as [data| | |]; simpl in *.
    + destruct (enqueue_send_locked data (c s)) as [[ok c'] ts] eqn:Ee.
      destruct (enqueue_wf data _ _ _ _ (i_conn s Hi) Hw Ee) as (_ & Hfd & Hcl & _ & _ & Hok).
      apply (served_mono s); simpl; auto; [set_solver|]. intros Hr.
      destruct ok; [|destruct Hok as [-> ->]; by left].
      destruct Hok as (_ & _ & [[? _]| ->] & _); [by left|right; set_solver].
    + apply (served_mono s); simpl; auto. set_solver.
    + apply (served_mono s); simpl; auto. set_solver.
    + apply (served_mono s); simpl; auto. set_solver.
  - apply (served_mono s); simpl; auto. set_solver.
Qed.

Lemma step_served s s' : step s s' → inv s → served s → served s'.
Proof.
  intros [s0 s1 H|s0 d' H1 H2] Hi Hs; [by eapply own_step_served|].
  intros Hf. apply (served_mono s0); simpl; auto. apply H2.
  by rewrite (wf_open _ (i_conn _ Hi)), (Hf : closed_ (c s0) = false).
Qed.

Lemma reachable_served fd max od oc d0 s :
  0 ≤ fd → 0 ≤ max < 2 ^ 62 → d_wf d0 → rtc step (init fd max od oc d0) s → served s.
Proof.
  intros ? ? ? Hr. eapply (rtc_preserves_under _ inv); eauto using conn_step_inv, conn_init_inv, step_served.
  by intros ?.
Qed.

(** *** [drain_write_queue] as a whole *)

(** [drain_write_queue] run to its end with no other thread in between, the
    [k]th call of [send] answering [send k]; [None] when the fuel runs out. *)
Fixpoint drain_write_queue (fuel : nat) (send : nat → bytes → result nat) (k : nat) (s : st) : option st :=
  match fuel with
  | O => None
  | S fuel =>
      match pc s with
      | Drain =>
          let '(chunk, c', d') := drain_pop (c s) (d s) in
          match chunk with
          | None => Some (with_loop s c' d' Idle)
          | Some ch => drain_write_queue fuel send k
                         (with_loop s c' d' (if (0 <? length ch)%nat then Sending ch 0 else Drain))
          end
      | Sending ch sent =>
          match send k (drop sent ch) with
          | Val n => drain_write_queue fuel send (S k) (sent_ok n s ch sent)
          | Err e =>
              if ec_eqb e (make_error_code would_block)
              then Some (with_loop s (drain_push_front ch sent (c s)) (d s) Idle)
              else Some (closing s)
          end
      | _ => None
      end
  end.

(** [send] takes at least one and at most all of the bytes it is given. *)
Definition send_ok (send : nat → bytes → result nat) : Prop :=
  ∀ k b n, b ≠ [] → send k b = Val n → (0 < n ≤ length b)%nat.

Definition drain_measure (s : st) : nat :=
  2 * (length (inflight (pc s)) + length (concat (write_queue_ (c s)))) +
  match pc s with Drain => 2 | Sending _ _ => 1 | _ => 0 end.

(** How a run of [drain_write_queue] ends: everything is sent and the interest
    in writability dropped, or [send] would block and the rest is queued, or
    the connection is closed. *)
Definition drained (s s' : st) : Prop :=
  accepted s' = accepted s ∧
  (write_queue_ (c s') = [] ∧ wire s' = accepted s ∧ write_registered_ (c s') = false ∨
   write_queue_ (c s') ≠ [] ∧ closed_ (c s') = false ∧ write_registered_ (c s') = true ∨
   closed_ (c s') = true).

Lemma send_fails s ch n e :
  inv s → closed_ (c s) = false → pc s = Sending ch n →
  let s' := if ec_eqb e (make_error_code would_block)
            then with_loop s (drain_push_front ch n (c s)) (d s) Idle else closing s in
  rtc own_step s s' ∧ pc s' = Idle ∧ drained s s'.
Proof.
  intros Hi Hf Hpc. destruct (ec_eqb _ _); simpl.
  - split_and!; [|done|].
    + eapply rtc_l; [by apply step_would_block|].
      apply rtc_once, (step_push_back (with_loop s (c s) (d s) (PushBack ch n)) ch n eq_refl).
    + split; [done|]. right. left. simpl. split_and!; try done.
      pose proof (i_pc s Hi) as Hp. rewrite Hpc in Hp. by destruct Hp as (_ & _ & _ & ?).
  - pose proof (step_send_error s _ _ Hpc) as Hstep.
    split; [by apply rtc_once|]. unfold closing, initiate_close, drained. rewrite Hf. simpl.
    split; [done|]. split; [done|]. by right; right.
Qed.

Lemma drain_runs send : send_ok send → ∀ fuel k s,
  inv s → closed_ (c s) = false → (pc s = Drain ∨ ∃ ch n, pc s = Sending ch n) →
  (drain_measure s < fuel)%nat →
  ∃ s', drain_write_queue fuel send k s = Some s' ∧ rtc own_step s s' ∧ pc s' = Idle ∧ drained s s'.
Proof.
  intros Hsend fuel. induction fuel as [|fuel IH]; intros k s Hi Hf Hpc Hm; [lia|].
  destruct Hpc as [Hpc|(ch & n & Hpc)]; unfold drain_measure in Hm; rewrite Hpc in Hm; simpl; rewrite Hpc.
  - destruct (drain_pop (c s) (d s)) as [[[ch|] c'] d'] eqn:Ep.
    + pose proof (step_drain s _ _ _ Hpc Ep) as Hstep. simpl in Hstep.
      pose proof (own_step_inv _ _ Hstep Hi) as Hi'.
      destruct (drain_pop_some _ _ _ _ _ (i_conn _ Hi) Ep) as (_ & Hq & _ & Hc & Hsz & _).
      assert (0 < length ch)%nat as Hlen by (unfold size in Hsz; lia).
      rewrite (proj2 (Nat.ltb_lt _ _) Hlen) in *.
      destruct (IH k _ Hi') as (s' & Hr & Hst & Hp' & Hd).
      * simpl. by rewrite Hc.
      * right. by eexists _, _.
      * unfold drain_measure. simpl. rewrite Hq in Hm. simpl in Hm. rewrite length_app in Hm.
        rewrite drop_0. lia.
      * exists s'. split_and!; [done|by eapply rtc_l|done|done].
    + eexists. split; [done|]. pose proof (step_drain s _ _ _ Hpc Ep) as Hstep.
      pose proof (own_step_inv _ _ Hstep Hi) as Hi'. split; [by apply rtc_once|]. split; [done|].
      unfold drain_pop in Ep. destruct (write_queue_ (c s)) eqn:Eq; [|done]. injection Ep as <- <-.
      split; [done|]. left. simpl. split_and!; [done| |done].
      rewrite <- (i_stream s Hi Hf), Hpc, Eq. simpl. by rewrite app_nil_r.
  - destruct (send k (drop n ch)) as [m|e] eqn:Es.
    + pose proof (i_pc s Hi) as Hp. rewrite Hpc in Hp. destruct Hp as (Hlt & _).
      assert (0 < m ≤ length ch - n)%nat as Hmn.
      { rewrite <- length_drop. apply (Hsend k); [|done]. intros E.
        apply (f_equal length) in E. rewrite length_drop in E. simpl in E. lia. }
      pose proof (step_send s _ _ m Hpc Hmn) as Hstep.
      destruct (IH (S k) _ (own_step_inv _ _ Hstep Hi)) as (s' & Hr & Hst & Hp' & Hd).
      * done.
      * simpl. destruct (_ <? _)%nat; [right; by eexists _, _|by left].
      * unfold drain_measure, sent_ok. simpl in Hm |- *. rewrite length_drop in Hm.
        destruct (_ <? _)%nat eqn:E; simpl; rewrite ?length_drop; bool_facts; lia.
      * exists s'. split_and!; [done|by eapply rtc_l|done|done].
    + pose proof (send_fails s ch n e Hi Hf Hpc) as (Hst & Hp & Hd).
      destruct (ec_eqb _ _); by eexists.
Qed.

(** *** Properties *)

(** C1. The byte stream is kept.  In every interleaving of callers of [send] with
    the loop's thread, while the connection is open the bytes the kernel has
    taken, the unsent rest of the chunk in hand and the queued chunks are
    together exactly the bytes of the accepted calls of [enqueue_send], in
    order; and whatever happens, the bytes sent are a prefix of them. *)
Theorem stream_integrity fd max od oc d0 s :
  0 ≤ fd → 0 ≤ max < 2 ^ 62 → d_wf d0 → rtc step (init fd max od oc d0) s →
  wire s `prefix_of` accepted s ∧
  (closed_ (c s) = false →
   wire s ++ inflight (pc s) ++ concat (write_queue_ (c s)) = accepted s).
Proof.
  intros Hfd Hmax Hd Hr. apply conn_reachable_inv in Hr; [|done..]. by destruct Hr; split.
Qed.

(** The write queue is accounted for and bounded.  [write_queue_bytes_] is
    always the number of bytes queued, with no wrap-around, and never exceeds
    twice [max_write_queue_bytes_]; a call of [enqueue_send] is accepted only if
    the queue with its data is within the limit. *)
Theorem write_queue_bounded fd max od oc d0 s data ok c' ts :
  0 ≤ fd → 0 ≤ max < 2 ^ 62 → d_wf d0 → rtc step (init fd max od oc d0) s →
  0 < size data < 2 ^ 63 → enqueue_send_locked data (c s) = (ok, c', ts) →
  write_queue_bytes_ (c s) = size (concat (write_queue_ (c s))) ∧
  write_queue_bytes_ (c s) ≤ 2 * max_write_queue_bytes_ (c s) ∧
  (ok = true ↔ write_queue_bytes_ (c s) + size data ≤ max_write_queue_bytes_ (c s)) ∧
  write_queue_bytes_ c' = size (concat (write_queue_ c')).
Proof.
  intros Hfd Hmax Hd Hr Hsz He. apply conn_reachable_inv, i_conn in Hr; [|done..].
  pose proof (conn_wf_bound _ Hr) as Hb. pose proof (wf_max _ Hr) as Hm.
  destruct (enqueue_wf _ _ _ _ _ Hr Hsz He) as (Hc' & _).
  split_and!; [by destruct Hr|lia| |by destruct Hc'].
  revert He. unfold enqueue_send_locked. rewrite u64_small by lia.
  destruct (_ <? _) eqn:E; bool_facts; [intros [= <- <- <-]; split; [done|lia]|].
  destruct (negb _); intros [= <- <- <-]; (split; [lia|done]).
Qed.



(** The steps of a closed connection's own code. *)
Lemma closed_step s s' :
  inv s → closed_ (c s) = true → own_step s s' →
  closed_ (c s') = true ∧ wire s' = wire s ∧ submitted s' = submitted s ∧
  (∀ fd', fd' ≠ -1 → d_lookup (d s') fd' = d_lookup (d s) fd').
Proof.
  intros Hi Hcl Hstep. pose proof (i_closed s Hi Hcl) as Hp. pose proof (i_disp s Hi) as Hd.
  assert (native_handle (c s) = -1) as Hnh.
  { unfold native_handle. by rewrite (wf_open _ (i_conn s Hi)), Hcl. }
  destruct Hstep as [s t ts H1 H2|s events r c' d' out b H1 H2 H3|s i H|s i H
    |s chunk c' d' H1 H2|s chunk sent n H1 H2|s chunk sent H|s chunk sent H|s chunk sent H|s u H
    |s u us us' H|s H]; try (by rewrite ?H, ?H1 in Hp); simpl.
  - unfold run_task, register_writable, initiate_close. destruct t; rewrite ?Hcl; simpl;
      rewrite ?app_nil_r; auto.
  - unfold on_io_event in H3. rewrite Hcl in H3. injection H3 as <- <- <- <-.
    rewrite app_nil_r. auto.
  - split_and!; [done..|]. intros fd' Hne. unfold start_add. rewrite Hnh.
    destruct (d_add (-1) i cb (d s)) eqn:E. apply law_add in E as (_ & Ho & _); auto.
  - destruct u as [data| | |]; simpl; auto. unfold enqueue_send_locked.
    repeat case_match; simplify_eq/=; auto.
Qed.

(** C28. Close happens once and is final.  [on_close] is submitted exactly once to
    a connection that has the handler and is closed, and never before; the
    socket is closed exactly then; and once closed, the connection's code sends
    nothing, submits no callback, and leaves every descriptor registered with
    the dispatcher alone, its own old number included. *)
Theorem close_is_final fd max od oc d0 s s' :
  0 ≤ fd → 0 ≤ max < 2 ^ 62 → d_wf d0 → rtc step (init fd max od oc d0) s →
  closes s = (if closed_ (c s) && on_close_ (c s) then 1%nat else 0%nat) ∧
  socket_open (c s) = negb (closed_ (c s)) ∧
  (closed_ (c s) = true → own_step s s' →
   closed_ (c s') = true ∧ wire s' = wire s ∧ submitted s' = submitted s ∧
   (∀ fd', fd' ≠ -1 → d_lookup (d s') fd' = d_lookup (d s) fd')).
Proof.
  intros Hfd Hmax Hd Hr. apply conn_reachable_inv in Hr; [|done..].
  split_and!; [by destruct Hr|by destruct Hr; destruct i_conn0|].
  intros Hcl Hstep. by apply closed_step.
Qed.

(** C37. A send undoes a pause.  [register_writable] and the end of
    [drain_write_queue] set an interest that includes readable without looking
    at [paused_]: on a paused connection, one accepted [send] makes the loop
    read again although [paused()] still answers true. *)
Theorem send_undoes_pause fd max od oc d0 s i x :
  0 ≤ fd → 0 ≤ max < 2 ^ 62 → d_wf d0 → rtc step (init fd max od oc d0) s →
  closed_ (c s) = false → paused_ (c s) = true → pc s = Idle → posts s = [PRegister] →
  d_lookup (d s) (fd_ (c s)) = Some (i, x) →
  ∃ s', step s s' ∧ posts s' = [] ∧ pc s' = Idle ∧ paused_ (c s') = true ∧
        d_lookup (d s') (fd_ (c s')) = Some (ev_or ev_readable ev_writable, x).
Proof.
  intros Hfd Hmax Hd Hr Hf Hpa Hpc Hp Hl. apply conn_reachable_inv in Hr; [|done..].
  exists (run_task PRegister [] s). split; [by apply step_own, step_task|]. simpl.
  split_and!; try done. unfold register_writable. rewrite Hf.
  rewrite native_handle_open by (by destruct Hr || done).
  destruct (d_modify (fd_ (c s)) _ (d s)) as [r d1] eqn:E. simpl.
  pose proof (law_modify_ok (fd_ (c s)) (ev_or ev_readable ev_writable) (d s) (i_disp s Hr)
                ltac:(by rewrite Hl)) as Hok. rewrite E in Hok. simpl in Hok.
  apply law_modify in E as (_ & _ & E); [|by destruct Hr]. by rewrite Hok, Hl in E.
Qed.

End Machine.
Arguments st {CB D}.
Arguments step {CB D} cb.
Arguments own_step {CB D} cb.

(** *** Concrete runs *)

(** A connection on descriptor 5 with a limit of 4 bytes, started. *)
Definition demo_start : st := init 5 4 true true (∅ : gmap Z (Z * nat)).
Definition demo_added : st :=
  mk_st (conn_init 5 4 true true) (start_add 50%nat ev_readable (conn_init 5 4 true true) (∅ : gmap Z (Z * nat)))
    [] Idle [] [] [] [] true true.

Lemma demo_added_reachable : rtc (step 50%nat) demo_start demo_added.
Proof.
  eapply rtc_l; [by apply step_own, step_start|simpl].
  eapply rtc_l; [by eapply step_own, step_task|simpl].
  eapply rtc_l; [by eapply step_own, step_add|]. apply rtc_refl.
Qed.

(** The state after [u] has been called and has returned. *)
Definition called (u : user_call) (s : st (D := map_dispatcher)) : st := commit u s.

Lemma call_steps u (s : st (D := map_dispatcher)) :
  may_enter u (c s) → callers s = [] → rtc (step 50%nat) s (called u s).
Proof.
  destruct s as [c0 d0 ps p us sub w acc sc ad]. simpl. intros Hm ->.
  eapply rtc_l; [by apply step_own, step_enter|]. apply rtc_once, step_own.
  exact (step_commit 50%nat (mk_st c0 d0 ps p [u] sub w acc sc ad) u [] [] eq_refl).
Qed.

Definition demo_sent : st := called (CSend [1; 2; 3]) demo_added.

Lemma demo_sent_reachable : rtc (step 50%nat) demo_start demo_sent.
Proof. etrans; [exact demo_added_reachable|]. by apply call_steps. Qed.

(** The loop has run the posted task and found the socket writable. *)
Definition demo_drain : st :=
  with_loop (run_task PRegister [] demo_sent) (c demo_sent)
    (register_writable (c demo_sent) (d demo_sent)) Drain.

Lemma demo_drain_reachable : rtc (step 50%nat) demo_start demo_drain.
Proof.
  etrans; [exact demo_sent_reachable|].
  eapply rtc_l; [by eapply step_own, step_task|]. apply rtc_once.
  apply step_own.
  exact (step_event 50%nat (run_task PRegister [] demo_sent) ev_writable (Val []) (c demo_sent)
           (register_writable (c demo_sent) (d demo_sent)) [] true eq_refl eq_refl eq_refl).
Qed.

Lemma demo_wf : d_wf (∅ : gmap Z (Z * nat)).
Proof. done. Qed.

Lemma stream_integrity_witness :
  accepted demo_sent = [1; 2; 3] ∧
  wire demo_sent ++ inflight (pc demo_sent) ++ concat (write_queue_ (c demo_sent)) = accepted demo_sent.
Proof.
  split; [reflexivity|].
  apply (stream_integrity 50%nat 5 4 true true ∅ demo_sent); (exact demo_wf || exact demo_sent_reachable || (vm_compute; done)).
Defined.

Lemma write_queue_bounded_witness :
  (enqueue_send_locked [7; 8] (c demo_sent)).1.1 = false ∧
  (false = true ↔ write_queue_bytes_ (c demo_sent) + 2 ≤ max_write_queue_bytes_ (c demo_sent)).
Proof.
  split; [reflexivity|].
  apply (write_queue_bounded 50%nat 5 4 true true ∅ demo_sent [7; 8] false (c demo_sent) []);
    (exact demo_wf || exact demo_sent_reachable || (vm_compute; done)).
Defined.


(** A socket that takes two bytes at a time. *)
Definition two_bytes (k : nat) (b : bytes) : result nat := Val (Nat.min 2 (length b)).


Definition demo_closed : st := closing demo_added.

Lemma demo_closed_reachable : rtc (step 50%nat) demo_start demo_closed.
Proof.
  etrans; [exact demo_added_reachable|]. apply rtc_once, step_own.
  exact (step_event 50%nat demo_added ev_hangup (Val []) (c demo_closed) (d demo_closed) [OnClose] false
           eq_refl eq_refl eq_refl).
Qed.

Lemma close_is_final_witness :
  closed_ (c demo_closed) = true ∧ submitted demo_closed = [OnClose] ∧ closes demo_closed = 1%nat.
Proof.
  split; [reflexivity|]. split; [reflexivity|].
  apply (close_is_final 50%nat 5 4 true true ∅ demo_closed demo_closed);
    (exact demo_wf || exact demo_closed_reachable || (vm_compute; done)).
Defined.

(** Paused, and then a send. *)
Definition demo_paused : st :=
  let s := called CPause demo_added in
  mk_st (c s) (d_modify 5 ev_none (d s)).2 [] Idle [] [] [] [] true true.
Definition demo_paused_sent : st := called (CSend [1; 2; 3]) demo_paused.

Lemma demo_paused_sent_reachable : rtc (step 50%nat) demo_start demo_paused_sent.
Proof.
  etrans; [exact demo_added_reachable|]. etrans; [by apply (call_steps CPause)|].
  eapply rtc_l; [by eapply step_own, step_task|simpl].
  eapply rtc_l; [by eapply step_own, step_modify|simpl]. by apply (call_steps (CSend [1; 2; 3]) demo_paused).
Qed.

Lemma send_undoes_pause_witness :
  d_lookup (d demo_paused_sent) 5 = Some (ev_none, 50%nat) ∧
  ∃ s', step 50%nat demo_paused_sent s' ∧ posts s' = [] ∧ pc s' = Idle ∧ paused_ (c s') = true ∧
        d_lookup (d s') (fd_ (c s')) = Some (ev_or ev_readable ev_writable, 50%nat).
Proof.
  split; [vm_compute; reflexivity|].
  apply (send_undoes_pause 50%nat 5 4 true true ∅ demo_paused_sent ev_none 50%nat);
    (exact demo_wf || exact demo_paused_sent_reachable || (vm_compute; done)).
Defined.

End Machine.
