(* ===== verification/Address.v ===== *)
(** * Socket addresses

    [sock_address] ([src/include/socketpp/net/address.hpp], [src/src/net/address.cpp]),
    [inet4_address] ([inet4.hpp], [inet4.cpp]) and [inet6_address] ([inet6.hpp],
    [inet6.cpp]).

    An address is its opaque storage, a list of bytes, and the members read and
    write the fields of [sockaddr_in] and [sockaddr_in6] at their offsets.  The
    encoding of the family differs between the platforms and is a function of
    the platform.  [inet_pton], [inet_ntop] and [std::hash] are parameters. *)

From S2P Require Import Prelude Platform.
From stdpp Require Import pretty.

Local Open Scope Z_scope.

(** ** Fields of a buffer *)

Definition put (off : nat) (bs l : bytes) : bytes := take off l ++ bs ++ drop (off + length bs) l.
Definition get (off n : nat) (l : bytes) : bytes := take n (drop off l).

Definition zeros (n : nat) : bytes := replicate n 0.

Lemma put_app off bs (a b d : bytes) :
  length a = off → length b = length bs → put off bs (a ++ b ++ d) = a ++ bs ++ d.
Proof.
  intros <- Hb. unfold put. rewrite take_app_length, <- drop_drop, drop_app_length, <- Hb.
  by rewrite drop_app_length.
Qed.

Lemma get_app off n (a b d : bytes) :
  length a = off → length b = n → get off n (a ++ b ++ d) = b.
Proof. intros <- <-. unfold get. by rewrite drop_app_length, take_app_length. Qed.

Lemma length_put off bs l : (off + length bs ≤ length l)%nat → length (put off bs l) = length l.
Proof. intros. unfold put. rewrite !length_app, length_take, length_drop. lia. Qed.

(** ** Families *)

Definition AF_INET : Z := 2.
Definition AF_INET6 (o : os) : Z := match o with Linux => 10 | MacOS => 30 | Windows => 23 end.

(** [sa_family]: two bytes, or on macOS one byte behind [sa_len]. *)
Definition family_bytes (o : os) (fam : Z) : bytes :=
  match o with MacOS => [0; fam] | _ => le_bytes 2 fam end.
Definition sa_family (o : os) (l : bytes) : Z :=
  match o with MacOS => le_value (get 1 1 l) | _ => le_value (get 0 2 l) end.

(** ** [sock_address] *)

Record sock_address := mk_sock_address { sa_storage_ : bytes; sa_len_ : Z }.

Definition sock_address_default : sock_address := mk_sock_address (zeros 128) 128.

(** The constructor from [len] bytes at [addr]; [None] when it reads past the
    bytes there. *)
Definition sock_address_of (addr : option bytes) (len : Z) : option sock_address :=
  match addr with
  | Some src =>
      if 0 <? len then
        let copy_len := Z.to_nat (if len <? 128 then len else 128) in
        if (copy_len <=? length src)%nat
        then Some (mk_sock_address (put 0 (take copy_len src) (zeros 128)) len)
        else None
      else Some (mk_sock_address (zeros 128) len)
  | None => Some (mk_sock_address (zeros 128) len)
  end.

Definition is_v4 (o : os) (a : sock_address) : bool := sa_family o (sa_storage_ a) =? AF_INET.
Definition is_v6 (o : os) (a : sock_address) : bool := sa_family o (sa_storage_ a) =? AF_INET6 o.

Inductive address_family := ipv4 | ipv6.
Definition family (o : os) (a : sock_address) : address_family :=
  if sa_family o (sa_storage_ a) =? AF_INET6 o then ipv6 else ipv4.

(** [operator==] and [operator<]; [None] when [memcmp] leaves the storage. *)
Definition sa_eqb (l r : sock_address) : option bool :=
  if negb (sa_len_ l =? sa_len_ r) then Some false
  else if 128 <? sa_len_ l then None
  else let n := Z.to_nat (sa_len_ l) in
       Some (bool_decide (memcmp (take n (sa_storage_ l)) (take n (sa_storage_ r)) = Eq)).

Definition sa_ltb (l r : sock_address) : option bool :=
  if negb (sa_len_ l =? sa_len_ r) then Some (sa_len_ l <? sa_len_ r)
  else if 128 <? sa_len_ l then None
  else let n := Z.to_nat (sa_len_ l) in
       Some (bool_decide (memcmp (take n (sa_storage_ l)) (take n (sa_storage_ r)) = Lt)).

(** ** Text, parameters *)

(** [inet_pton] and [inet_ntop] for the two families. *)
Class InetText := {
  pton4 : string → option bytes; ntop4 : bytes → string;
  pton6 : string → option bytes; ntop6 : bytes → string
}.

(** A buffer of [cap] characters filled from a string view and read back as a C
    string: truncated to [cap - 1] characters and at the first NUL. *)
Fixpoint c_string (s : string) : string :=
  match s with
  | EmptyString => EmptyString
  | String ch s' => if Ascii.eqb ch Ascii.zero then EmptyString else String ch (c_string s')
  end.
Definition copied (cap : nat) (s : string) : string :=
  let copy_len := if (String.length s <? cap - 1)%nat then String.length s else (cap - 1)%nat in
  c_string (String.substring 0 copy_len s).

(** As documented: [inet_pton] writes an address of the family's size, what
    [inet_ntop] writes fits the buffer, is text, and reads back. *)
Class InetTextLaws (T : InetText) : Prop := {
  pton4_size s b : pton4 s = Some b → length b = 4%nat ∧ Forall is_byte b;
  pton6_size s b : pton6 s = Some b → length b = 16%nat ∧ Forall is_byte b;
  ntop4_text b : length b = 4%nat → Forall is_byte b →
    pton4 (ntop4 b) = Some b ∧ (String.length (ntop4 b) ≤ 15)%nat ∧ c_string (ntop4 b) = ntop4 b;
  ntop6_text b : length b = 16%nat → Forall is_byte b →
    pton6 (ntop6 b) = Some b ∧ (String.length (ntop6 b) ≤ 45)%nat ∧ c_string (ntop6 b) = ntop6 b
}.

(** [std::make_error_code(std::errc::invalid_argument)]: EINVAL in the generic category. *)
Definition std_invalid_argument : error_code := mk_error_code 22 cat_generic.

(** ** [inet4_address] *)

Section Inet4.
Context (o : os).

Abbreviation inet4_address := bytes.

Definition sin_port (s : inet4_address) : bytes := get 2 2 s.
Definition sin_addr (s : inet4_address) : bytes := get 4 4 s.

Definition inet4_default : inet4_address := put 0 (family_bytes o AF_INET) (zeros 16).

(** [htonl] and [htons] store the most significant byte first. *)
Definition inet4_of (address port : Z) : inet4_address :=
  let s := zeros 16 in
  let s := put 0 (family_bytes o AF_INET) s in
  let s := put 4 (be_bytes 4 address) s in
  put 2 (be_bytes 2 port) s.

Definition ip4 (a : inet4_address) : Z := be_value (sin_addr a).
Definition port4 (a : inet4_address) : Z := be_value (sin_port a).

Definition INADDR_LOOPBACK : Z := 0x7f000001.
Definition any4 (port : Z) : inet4_address := inet4_of 0 port.
Definition loopback4 (port : Z) : inet4_address := inet4_of INADDR_LOOPBACK port.

Definition INET_ADDRSTRLEN : nat := 16.

Definition parse4 `{InetText} (ip : string) (port : Z) : result inet4_address :=
  let s := inet4_default in
  let s := put 2 (be_bytes 2 port) s in
  match pton4 (copied INET_ADDRSTRLEN ip) with
  | None => Err std_invalid_argument
  | Some b => Val (put 4 b s)
  end.

Definition to_string4 `{InetText} (a : inet4_address) : string :=
  c_string (ntop4 (sin_addr a)) +:+ ":" +:+ pretty (be_value (sin_port a)).

Definition to_sock4 (a : inet4_address) : option sock_address := sock_address_of (Some a) 16.

(** [operator==], [operator<], [hash_value] over [std::hash]. *)
Definition eqb4 (l r : inet4_address) : bool := (ip4 l =? ip4 r) && (port4 l =? port4 r).
Definition ltb4 (l r : inet4_address) : bool :=
  if negb (ip4 l =? ip4 r) then ip4 l <? ip4 r else port4 l <? port4 r.
Definition hash4 (hash32 hash16 : Z → Z) (a : inet4_address) : Z :=
  let h1 := hash32 (ip4 a) in
  let h2 := hash16 (port4 a) in
  Z.lxor h1 (u64 (Z.shiftl h2 1)).

End Inet4.

(** ** [inet6_address] *)

Section Inet6.
Context (o : os).

Abbreviation inet6_address := bytes.

Definition sin6_port (s : inet6_address) : bytes := get 2 2 s.
Definition sin6_flowinfo (s : inet6_address) : bytes := get 4 4 s.
Definition sin6_addr (s : inet6_address) : bytes := get 8 16 s.
Definition sin6_scope_id (s : inet6_address) : bytes := get 24 4 s.

Definition inet6_default : inet6_address := put 0 (family_bytes o (AF_INET6 o)) (zeros 28).

(** The scope and the flow information are stored in the host's byte order. *)
Definition inet6_of (addr : bytes) (port scope_id flowinfo : Z) : inet6_address :=
  let s := zeros 28 in
  let s := put 0 (family_bytes o (AF_INET6 o)) s in
  let s := put 8 (take 16 addr) s in
  let s := put 2 (be_bytes 2 port) s in
  let s := put 24 (le_bytes 4 scope_id) s in
  put 4 (le_bytes 4 flowinfo) s.

Definition any6 (port : Z) : inet6_address := inet6_of (zeros 16) port 0 0.
Definition loopback6 (port : Z) : inet6_address := inet6_of (zeros 15 ++ [1]) port 0 0.

Definition port6 (a : inet6_address) : Z := be_value (sin6_port a).
Definition scope_id (a : inet6_address) : Z := le_value (sin6_scope_id a).
Definition flowinfo (a : inet6_address) : Z := le_value (sin6_flowinfo a).
Definition bytes6 (a : inet6_address) : bytes := sin6_addr a.

Definition byte_at (l : bytes) (i : nat) : Z := default 0 (l !! i).

Definition is_link_local (a : inet6_address) : bool :=
  let b := sin6_addr a in
  (byte_at b 0 =? 0xfe) && (Z.land (byte_at b 1) 0xc0 =? 0x80).

Definition is_v4_mapped (a : inet6_address) : bool :=
  let b := sin6_addr a in
  forallb (λ i, byte_at b i =? 0) (seq 0 10) &&
  ((byte_at b 10 =? 0xff) && (byte_at b 11 =? 0xff)).

Definition to_v4 (a : inet6_address) : result bytes :=
  if negb (is_v4_mapped a) then err_of invalid_state
  else
    let ip_net := get 12 4 (sin6_addr a) in
    Val (inet4_of o (be_value ip_net) (port6 a)).

Definition INET6_ADDRSTRLEN : nat := 46.

Definition parse6 `{InetText} (ip : string) (port scope : Z) : result inet6_address :=
  let s := inet6_default in
  let s := put 2 (be_bytes 2 port) s in
  let s := put 24 (le_bytes 4 scope) s in
  match pton6 (copied INET6_ADDRSTRLEN ip) with
  | None => Err std_invalid_argument
  | Some b =>
      let a := put 8 b s in
      if is_link_local a && (scope =? 0) then err_of missing_scope_id else Val a
  end.

Definition to_string6 `{InetText} (a : inet6_address) : string :=
  "[" +:+ c_string (ntop6 (sin6_addr a)) +:+
  (if negb (scope_id a =? 0) then "%" +:+ pretty (scope_id a) else "") +:+
  "]:" +:+ pretty (be_value (sin6_port a)).

Definition to_sock6 (a : inet6_address) : option sock_address := sock_address_of (Some a) 28.

Definition eqb6 (l r : inet6_address) : bool :=
  bool_decide (memcmp (sin6_addr l) (sin6_addr r) = Eq) &&
  (le_value (sin6_port l) =? le_value (sin6_port r)) &&
  (scope_id l =? scope_id r).

Definition ltb6 (l r : inet6_address) : bool :=
  match memcmp (sin6_addr l) (sin6_addr r) with
  | Lt => true
  | Gt => false
  | Eq =>
      if negb (le_value (sin6_port l) =? le_value (sin6_port r)) then port6 l <? port6 r
      else scope_id l <? scope_id r
  end.

Definition hash6 (hash32 hash16 : Z → Z) (a : inet6_address) : Z :=
  let h := foldl (λ h b, u64 (h * 131 + b)) 0 (sin6_addr a) in
  let h := Z.lxor h (u64 (Z.shiftl (hash16 (port6 a)) 1)) in
  Z.lxor h (u64 (Z.shiftl (hash32 (scope_id a)) 2)).

End Inet6.

(** ** Layout *)

Lemma length_family o fam : length (family_bytes o fam) = 2%nat.
Proof. by destruct o. Qed.

Lemma length_zeros n : length (zeros n) = n.
Proof. apply length_replicate. Qed.

(** The storage of an IPv4 address, field by field. *)
Definition sin4 (fam port addr : bytes) : bytes := fam ++ port ++ addr ++ zeros 8.

Lemma sin4_puts (fam port addr : bytes) :
  length fam = 2%nat → length port = 2%nat → length addr = 4%nat →
  put 2 port (put 4 addr (put 0 fam (zeros 16))) = sin4 fam port addr ∧
  put 4 addr (put 2 port (put 0 fam (zeros 16))) = sin4 fam port addr.
Proof.
  intros Hf Hp Ha.
  change (zeros 16) with ([] ++ zeros 2 ++ (zeros 2 ++ zeros 4 ++ zeros 8)).
  rewrite put_app by done. rewrite app_nil_l. split.
  - rewrite (app_assoc fam), put_app by (rewrite ?length_app, ?Hf; done).
    rewrite <- app_assoc, put_app by done. done.
  - rewrite put_app by done.
    rewrite (app_assoc fam), put_app by (rewrite ?length_app, ?Hf, ?Hp; done).
    by rewrite <- app_assoc.
Qed.

Lemma sin4_fields (fam port addr : bytes) :
  length fam = 2%nat → length port = 2%nat → length addr = 4%nat →
  sin_port (sin4 fam port addr) = port ∧ sin_addr (sin4 fam port addr) = addr ∧
  length (sin4 fam port addr) = 16%nat.
Proof.
  intros Hf Hp Ha. unfold sin_port, sin_addr, sin4. split_and!.
  - by apply get_app.
  - rewrite (app_assoc fam). apply get_app; rewrite ?length_app; lia.
  - rewrite !length_app, Hf, Hp, Ha. done.
Qed.

Lemma inet4_of_layout o address port :
  inet4_of o address port = sin4 (family_bytes o AF_INET) (be_bytes 2 port) (be_bytes 4 address).
Proof. apply sin4_puts; [apply length_family|by rewrite length_be_bytes..]. Qed.

Lemma inet4_of_fields o address port :
  sin_port (inet4_of o address port) = be_bytes 2 port ∧
  sin_addr (inet4_of o address port) = be_bytes 4 address ∧
  length (inet4_of o address port) = 16%nat.
Proof.
  rewrite inet4_of_layout. apply sin4_fields; [apply length_family|by rewrite length_be_bytes..].
Qed.

(** The storage of an IPv6 address, field by field. *)
Definition sin6 (fam port flow addr scope : bytes) : bytes := fam ++ port ++ flow ++ addr ++ scope.

Lemma sin6_fields (fam port flow addr scope : bytes) :
  length fam = 2%nat → length port = 2%nat → length flow = 4%nat → length addr = 16%nat →
  length scope = 4%nat →
  let s := sin6 fam port flow addr scope in
  sin6_port s = port ∧ sin6_flowinfo s = flow ∧ sin6_addr s = addr ∧ sin6_scope_id s = scope ∧
  length s = 28%nat.
Proof.
  intros Hf Hp Hfl Ha Hs s. subst s. unfold sin6_port, sin6_flowinfo, sin6_addr, sin6_scope_id, sin6.
  split_and!.
  - by apply get_app.
  - rewrite (app_assoc fam). apply get_app; rewrite ?length_app; lia.
  - rewrite (app_assoc fam), (app_assoc (fam ++ port)). apply get_app; rewrite ?length_app; lia.
  - rewrite (app_assoc fam), (app_assoc (fam ++ port)), (app_assoc ((fam ++ port) ++ flow)).
    rewrite <- (app_nil_r scope) at 1. apply get_app; rewrite ?length_app; lia.
  - rewrite !length_app. lia.
Qed.

Section Sin6Put.
Context (fam port flow addr scope x : bytes).
Context (Hf : length fam = 2%nat) (Hp : length port = 2%nat) (Hfl : length flow = 4%nat).
Context (Ha : length addr = 16%nat) (Hs : length scope = 4%nat).

Lemma sin6_put_fam : length x = 2%nat → put 0 x (sin6 fam port flow addr scope) = sin6 x port flow addr scope.
Proof.
  intros Hx. unfold sin6.
  change (fam ++ port ++ flow ++ addr ++ scope) with ([] ++ fam ++ (port ++ flow ++ addr ++ scope)).
  by rewrite put_app by (simpl; lia).
Qed.

Lemma sin6_put_port : length x = 2%nat → put 2 x (sin6 fam port flow addr scope) = sin6 fam x flow addr scope.
Proof. intros Hx. unfold sin6. by rewrite put_app by lia. Qed.

Lemma sin6_put_flow : length x = 4%nat → put 4 x (sin6 fam port flow addr scope) = sin6 fam port x addr scope.
Proof.
  intros Hx. unfold sin6. rewrite (app_assoc fam), put_app by (rewrite ?length_app; lia).
  by rewrite <- app_assoc.
Qed.

Lemma sin6_put_addr : length x = 16%nat → put 8 x (sin6 fam port flow addr scope) = sin6 fam port flow x scope.
Proof.
  intros Hx. unfold sin6.
  rewrite (app_assoc fam), (app_assoc (fam ++ port)), put_app by (rewrite ?length_app; lia).
  by rewrite <- !app_assoc.
Qed.

Lemma sin6_put_scope : length x = 4%nat → put 24 x (sin6 fam port flow addr scope) = sin6 fam port flow addr x.
Proof.
  intros Hx. unfold sin6.
  rewrite (app_assoc fam), (app_assoc (fam ++ port)), (app_assoc ((fam ++ port) ++ flow)).
  rewrite <- (app_nil_r scope) at 1. rewrite put_app by (rewrite ?length_app; lia).
  by rewrite app_nil_r, <- !app_assoc.
Qed.
End Sin6Put.

Lemma inet6_of_layout o addr port scope flow :
  length addr = 16%nat →
  inet6_of o addr port scope flow =
  sin6 (family_bytes o (AF_INET6 o)) (be_bytes 2 port) (le_bytes 4 flow) addr (le_bytes 4 scope).
Proof.
  intros Ha. unfold inet6_of.
  change (zeros 28) with (sin6 (zeros 2) (zeros 2) (zeros 4) (zeros 16) (zeros 4)).
  rewrite (take_ge addr) by lia. pose proof (length_family o (AF_INET6 o)) as Hf.
  pose proof (length_be_bytes 2 port). pose proof (length_le_bytes 4 scope).
  pose proof (length_le_bytes 4 flow).
  rewrite sin6_put_fam, sin6_put_addr, sin6_put_port, sin6_put_scope, sin6_put_flow; done.
Qed.

Lemma inet6_of_fields o addr port scope flow :
  length addr = 16%nat →
  let s := inet6_of o addr port scope flow in
  sin6_port s = be_bytes 2 port ∧ sin6_flowinfo s = le_bytes 4 flow ∧ sin6_addr s = addr ∧
  sin6_scope_id s = le_bytes 4 scope ∧ length s = 28%nat.
Proof.
  intros Ha. rewrite inet6_of_layout by done.
  apply sin6_fields; rewrite ?length_be_bytes, ?length_le_bytes; auto using length_family.
Qed.

Lemma sa_family_app o fam (l : bytes) :
  0 ≤ fam < 256 → sa_family o (family_bytes o fam ++ l) = fam.
Proof.
  intros H. unfold sa_family, family_bytes, get.
  destruct o; cbn -[Z.div Z.modulo Z.mul]; rewrite take_0; cbn [le_value];
    rewrite ?(Z.mod_small fam), ?(Z.div_small fam), ?Zmod_0_l by lia; lia.
Qed.

(** The conversion of a stored address to a [sock_address]. *)
Lemma sock_address_of_prefix (l : bytes) n :
  length l = n → (0 < n < 128)%nat →
  sock_address_of (Some l) (Z.of_nat n) = Some (mk_sock_address (l ++ zeros (128 - n)) (Z.of_nat n)).
Proof.
  intros Hl Hn. unfold sock_address_of.
  rewrite (proj2 (Z.ltb_lt 0 _)), (proj2 (Z.ltb_lt _ 128)) by lia. rewrite Nat2Z.id.
  rewrite (proj2 (Nat.leb_le _ _)) by lia. rewrite take_ge by lia. do 2 f_equal.
  unfold put, zeros. rewrite take_0, Hl, drop_replicate. done.
Qed.

Lemma family_ne o : AF_INET ≠ AF_INET6 o ∧ 0 ≤ AF_INET6 o < 256 ∧ 0 ≤ AF_INET < 256.
Proof. by destruct o. Qed.

(** Addresses round-trip.  What is put into an IPv4 or IPv6 address by its
    constructor is what its accessors return, and its conversion to a
    [sock_address] reports the right family and size and carries the stored
    bytes unchanged, on each platform. *)
Theorem address_roundtrip o ip addr port scope flow :
  in_width 32 ip → in_width 16 port → in_width 32 scope → in_width 32 flow → length addr = 16%nat →
  let a := inet4_of o ip port in let b := inet6_of o addr port scope flow in
  ip4 a = ip ∧ port4 a = port ∧
  bytes6 b = addr ∧ port6 b = port ∧ scope_id b = scope ∧ flowinfo b = flow ∧
  (∃ sa, to_sock4 a = Some sa ∧ is_v4 o sa = true ∧ is_v6 o sa = false ∧ family o sa = ipv4 ∧
         sa_len_ sa = 16 ∧ take 16 (sa_storage_ sa) = a) ∧
  (∃ sb, to_sock6 b = Some sb ∧ is_v6 o sb = true ∧ is_v4 o sb = false ∧ family o sb = ipv6 ∧
         sa_len_ sb = 28 ∧ take 28 (sa_storage_ sb) = b).
Proof.
  intros Hip Hport Hscope Hflow Ha. cbv zeta.
  destruct (inet4_of_fields o ip port) as (Hp4 & Ha4 & Hl4).
  destruct (inet6_of_fields o addr port scope flow Ha) as (Hp6 & Hf6 & Ha6 & Hs6 & Hl6).
  destruct (family_ne o) as (Hne & Hr6 & Hr4).
  unfold ip4, port4, bytes6, port6, scope_id, flowinfo. rewrite Hp4, Ha4, Hp6, Hf6, Ha6, Hs6.
  split_and!; [by apply be_value_bytes|by apply be_value_bytes|done|by apply be_value_bytes
    |by apply le_value_bytes|by apply le_value_bytes| |].
  - eexists. split; [by apply (sock_address_of_prefix _ 16); [|lia]|].
    unfold is_v4, is_v6, family. simpl. rewrite inet4_of_layout. unfold sin4 at 1 2 3.
    rewrite <- !app_assoc, !sa_family_app by done. rewrite (proj2 (Z.eqb_neq _ _) Hne), Z.eqb_refl.
    split_and!; try done. rewrite <- inet4_of_layout. by rewrite take_app_length'.
  - eexists. split; [by apply (sock_address_of_prefix _ 28); [|lia]|].
    unfold is_v4, is_v6, family. simpl. rewrite inet6_of_layout by done. unfold sin6 at 1 2 3.
    rewrite <- !app_assoc, !sa_family_app by done.
    rewrite (proj2 (Z.eqb_neq _ _) (not_eq_sym Hne)), Z.eqb_refl.
    split_and!; try done. rewrite <- inet6_of_layout by done. by rewrite take_app_length'.
Qed.

(** ** Order and hash *)

(** What ordered and unordered containers need of a key type: [ltb] is a strict
    total order whose equality is [eqb], and [hash] respects it. *)
Record key_ok {A} (P : A → Prop) (eqb ltb : A → A → bool) (hash : A → Z) : Prop := {
  key_trans a b d : P a → P b → P d → ltb a b = true → ltb b d = true → ltb a d = true;
  key_tri a b : P a → P b →
    (ltb a b = true ∧ eqb a b = false ∧ ltb b a = false) ∨
    (ltb a b = false ∧ eqb a b = true ∧ ltb b a = false) ∨
    (ltb a b = false ∧ eqb a b = false ∧ ltb b a = true);
  key_hash a b : P a → P b → eqb a b = true → hash a = hash b
}.

(** The lexicographic order on pairs of integers. *)
Lemma lex_trans (x1 y1 x2 y2 x3 y3 : Z) :
  (if negb (x1 =? x2) then x1 <? x2 else y1 <? y2) = true →
  (if negb (x2 =? x3) then x2 <? x3 else y2 <? y3) = true →
  (if negb (x1 =? x3) then x1 <? x3 else y1 <? y3) = true.
Proof.
  destruct (Z.eqb_spec x1 x2), (Z.eqb_spec x2 x3), (Z.eqb_spec x1 x3); simpl;
    rewrite ?Z.ltb_lt; lia.
Qed.

Lemma lex_tri (x1 y1 x2 y2 : Z) :
  let lt a b a' b' := if negb (a =? a') then a <? a' else b <? b' in
  let eq := (x1 =? x2) && (y1 =? y2) in
  (lt x1 y1 x2 y2 = true ∧ eq = false ∧ lt x2 y2 x1 y1 = false) ∨
  (lt x1 y1 x2 y2 = false ∧ eq = true ∧ lt x2 y2 x1 y1 = false) ∨
  (lt x1 y1 x2 y2 = false ∧ eq = false ∧ lt x2 y2 x1 y1 = true).
Proof.
  simpl. rewrite (Z.eqb_sym x2 x1).
  destruct (Z.eqb_spec x1 x2), (Z.eqb_spec y1 y2), (Z.ltb_spec y1 y2), (Z.ltb_spec y2 y1),
    (Z.ltb_spec x1 x2), (Z.ltb_spec x2 x1); simpl; auto; lia.
Qed.

Definition wf6 (a : bytes) : Prop := length a = 28%nat ∧ Forall is_byte a.

Lemma get_wf off n a : (off + n ≤ length a)%nat → Forall is_byte a →
  length (get off n a) = n ∧ Forall is_byte (get off n a).
Proof.
  intros Hl Hb. unfold get. rewrite length_take, length_drop. split; [lia|].
  by apply Forall_take, Forall_drop.
Qed.

(** On two bytes the two byte orders tell apart the same values. *)
Lemma port_orders l r :
  length l = length r → Forall is_byte l → Forall is_byte r →
  (le_value l =? le_value r) = (be_value l =? be_value r).
Proof.
  intros Hlen Hl Hr. destruct (Z.eqb_spec (be_value l) (be_value r)) as [E|E].
  - apply be_value_inj in E; [|done..]. subst. apply Z.eqb_refl.
  - apply Z.eqb_neq. intros E'. apply E. f_equal.
    rewrite <- (le_bytes_value l (length l)), <- (le_bytes_value r (length l)) by auto. by rewrite E'.
Qed.

(** [ltb6] and [eqb6] on the fields: the address, then port and scope. *)
Lemma fields6 a : wf6 a → length (sin6_addr a) = 16%nat ∧ length (sin6_port a) = 2%nat ∧
  Forall is_byte (sin6_port a).
Proof.
  intros [Hl Hb]. destruct (get_wf 8 16 a ltac:(lia) Hb), (get_wf 2 2 a ltac:(lia) Hb). done.
Qed.

Lemma port6_raw a b : wf6 a → wf6 b →
  (le_value (sin6_port a) =? le_value (sin6_port b)) = (port6 a =? port6 b).
Proof.
  intros (_ & Ha & Hab)%fields6 (_ & Hb & Hbb)%fields6. apply port_orders; [congruence|done..].
Qed.

Lemma key6 h32 h16 : key_ok wf6 eqb6 ltb6 (hash6 h32 h16).
Proof.
  split.
  - intros a b d Ha Hb Hd. destruct (fields6 a Ha) as (La & _), (fields6 b Hb) as (Lb & _),
      (fields6 d Hd) as (Ld & _). unfold ltb6. rewrite !port6_raw by done.
    destruct (memcmp (sin6_addr a) (sin6_addr b)) eqn:Eab; try done;
      destruct (memcmp (sin6_addr b) (sin6_addr d)) eqn:Ebd; try done; intros H1 H2.
    + apply memcmp_eq in Eab, Ebd; [|congruence..]. rewrite Eab, Ebd, memcmp_refl.
      by eapply lex_trans.
    + apply memcmp_eq in Eab; [|congruence]. by rewrite Eab, Ebd.
    + apply memcmp_eq in Ebd; [|congruence]. by rewrite <- Ebd, Eab.
    + by rewrite (memcmp_lt_trans _ (sin6_addr b)) by (done || congruence).
  - intros a b Ha Hb. unfold ltb6, eqb6. rewrite !port6_raw by done.
    rewrite (memcmp_antisym (sin6_addr a) (sin6_addr b)).
    destruct (memcmp (sin6_addr a) (sin6_addr b)); simpl; auto.
    apply lex_tri.
  - intros a b Ha Hb. unfold eqb6, hash6. rewrite port6_raw by done. intros H.
    apply andb_true_iff in H as [H H3]. apply andb_true_iff in H as [H1 H2]. bool_facts.
    destruct (fields6 a Ha) as (La & _), (fields6 b Hb) as (Lb & _).
    apply bool_decide_eq_true, memcmp_eq in H1; [|congruence]. by rewrite H1, H2, H3.
Qed.

(** Both address types are good keys.  For IPv4 and IPv6 addresses,
    [operator<] is a strict total order, exactly one of less, equal and greater
    holds of any two addresses, and addresses that compare equal have the same
    [hash_value], whatever [std::hash] does on integers. *)
Theorem address_order hash32 hash16 :
  key_ok (λ _, True) eqb4 ltb4 (hash4 hash32 hash16) ∧
  key_ok wf6 eqb6 ltb6 (hash6 hash32 hash16).
Proof.
  split; [|apply key6]. split.
  - intros a b d _ _ _. apply lex_trans.
  - intros a b _ _. apply lex_tri.
  - intros a b _ _. unfold eqb4, hash4. intros [H1 H2]%andb_true_iff. bool_facts. by rewrite H1, H2.
Qed.

(** ** IPv4-mapped addresses *)

Definition v4_mapped (ip : bytes) : bytes := zeros 10 ++ [0xff; 0xff] ++ ip.

Lemma mapped_form b : length b = 16%nat →
  (forallb (λ i, byte_at b i =? 0) (seq 0 10) && ((byte_at b 10 =? 0xff) && (byte_at b 11 =? 0xff)))
    = true ↔ b = v4_mapped (drop 12 b).
Proof.
  intros Hl. do 16 (destruct b as [|? b]; [done|]). destruct b; [|done]. simpl.
  unfold byte_at. simpl. unfold v4_mapped. simpl. rewrite !andb_true_iff, !Z.eqb_eq.
  split; [intros; naive_solver|]. intros H. injection H. intros. subst. by repeat split.
Qed.

(** IPv4-mapped addresses.  [is_v4_mapped] recognises exactly the addresses
    [::ffff:a.b.c.d]; [to_v4] of the address that maps an IPv4 address is that
    IPv4 address, port included, and fails with [invalid_state] on every other
    address. *)
Theorem v4_mapped_roundtrip o ip addr port scope flow :
  in_width 32 ip → in_width 16 port → length addr = 16%nat →
  let m := inet6_of o (v4_mapped (be_bytes 4 ip)) port scope flow in
  let b := inet6_of o addr port scope flow in
  is_v4_mapped m = true ∧ to_v4 o m = Val (inet4_of o ip port) ∧
  (is_v4_mapped b = true ↔ addr = v4_mapped (drop 12 addr)) ∧
  (addr ≠ v4_mapped (drop 12 addr) → to_v4 o b = err_of invalid_state).
Proof.
  intros Hip Hport Ha. cbv zeta.
  assert (∀ x, length x = 16%nat → (is_v4_mapped (inet6_of o x port scope flow) = true ↔
            x = v4_mapped (drop 12 x))) as Hmap.
  { intros x Hx. unfold is_v4_mapped.
    destruct (inet6_of_fields o x port scope flow Hx) as (_ & _ & -> & _). by apply mapped_form. }
  assert (length (v4_mapped (be_bytes 4 ip)) = 16%nat) as Hm
    by (unfold v4_mapped; rewrite !length_app, length_be_bytes; done).
  assert (is_v4_mapped (inet6_of o (v4_mapped (be_bytes 4 ip)) port scope flow) = true) as Hy
    by (by apply Hmap).
  split_and!; [done| |by apply Hmap|].
  - unfold to_v4, port6. rewrite Hy.
    destruct (inet6_of_fields o _ port scope flow Hm) as (-> & _ & -> & _). cbn [negb].
    change (get 12 4 (v4_mapped (be_bytes 4 ip))) with (be_bytes 4 ip).
    by rewrite !be_value_bytes.
  - intros Hne. unfold to_v4. destruct (is_v4_mapped (inet6_of o addr port scope flow)) eqn:E; [|done]. exfalso. apply Hne. exact (proj1 (Hmap addr Ha) E).
Qed.

(** ** Parsing *)

Section Parsing.
Context `{T : InetText} `{!InetTextLaws T} (o : os).

Lemma inet4_default_of : inet4_default o = sin4 (family_bytes o AF_INET) (zeros 2) (zeros 4).
Proof.
  unfold inet4_default. change (zeros 16) with ([] ++ zeros 2 ++ (zeros 2 ++ zeros 4 ++ zeros 8)).
  rewrite put_app; [done|done|]. by rewrite length_family.
Qed.

Lemma substring_all s : String.substring 0 (String.length s) s = s.
Proof. induction s as [|ch s IH]; simpl; [done|]. by rewrite IH. Qed.

Lemma substring_prefix s t : String.substring 0 (String.length s) (s +:+ t) = s.
Proof. induction s as [|ch s IH]; simpl; [by destruct t|]. by rewrite IH. Qed.

Lemma length_string_app s t : String.length (s +:+ t) = (String.length s + String.length t)%nat.
Proof. induction s as [|ch s IH]; simpl; [done|]. by rewrite IH. Qed.

Lemma copied_short cap s :
  (String.length s ≤ cap - 1)%nat → c_string s = s → copied cap s = s.
Proof.
  intros Hl Hc. unfold copied. destruct (Nat.ltb_spec (String.length s) (cap - 1)).
  - by rewrite substring_all.
  - replace (cap - 1)%nat with (String.length s) by lia. by rewrite substring_all.
Qed.

Lemma parse4_val ip port b :
  pton4 (copied INET_ADDRSTRLEN ip) = Some b →
  parse4 o ip port = Val (inet4_of o (be_value b) port).
Proof.
  intros Hb. destruct (pton4_size _ _ Hb) as [Hl Hbytes]. unfold parse4. rewrite Hb.
  rewrite inet4_of_layout, be_bytes_value by done. f_equal. unfold inet4_default.
  apply sin4_puts; [apply length_family|apply length_be_bytes|done].
Qed.

Lemma parse6_storage port scope b :
  length b = 16%nat →
  put 8 b (put 24 (le_bytes 4 scope) (put 2 (be_bytes 2 port) (inet6_default o))) =
  inet6_of o b port scope 0.
Proof.
  intros Hb. rewrite inet6_of_layout by done. unfold inet6_default.
  change (zeros 28) with (sin6 (zeros 2) (zeros 2) (zeros 4) (zeros 16) (zeros 4)).
  pose proof (length_family o (AF_INET6 o)). pose proof (length_be_bytes 2 port).
  pose proof (length_le_bytes 4 scope).
  rewrite sin6_put_fam, sin6_put_port, sin6_put_scope, sin6_put_addr; done.
Qed.


(** Long text is cut, not refused.  [inet4_address::parse] looks only at the
    first 15 characters: if they are an address, a longer text is accepted as
    that address, whatever follows. *)
Theorem parse_ignores_excess ip excess port b :
  String.length ip = 15%nat → c_string ip = ip → pton4 ip = Some b →
  parse4 o (ip +:+ excess) port = Val (inet4_of o (be_value b) port).
Proof.
  intros Hl Hc Hb. apply parse4_val. unfold copied.
  rewrite length_string_app, Hl. simpl Nat.sub.
  destruct (Nat.ltb_spec (15 + String.length excess) 15); [lia|].
  rewrite <- Hl. by rewrite substring_prefix, Hc.
Qed.

End Parsing.

(** *** Witnesses *)

(** A text form of addresses that reads back: two letters per byte; dots are skipped. *)
Definition dot : Ascii.ascii := Ascii.ascii_of_nat 46.
Definition letter (n : Z) : Ascii.ascii := Ascii.ascii_of_nat (97 + Z.to_nat n).
Definition digit (ch : Ascii.ascii) : Z := Z.of_nat (Ascii.nat_of_ascii ch) - 97.

Fixpoint demo_ntop (b : bytes) : string :=
  match b with
  | [] => EmptyString
  | x :: b' => String (letter (x / 16)) (String (letter (x mod 16)) (demo_ntop b'))
  end.

Fixpoint demo_decode (s : string) : option bytes :=
  match s with
  | EmptyString => Some []
  | String h s1 =>
      if Ascii.eqb h dot then demo_decode s1
      else match s1 with
      | String l s' =>
          let x := 16 * digit h + digit l in
          if (0 <=? x) && (x <? 256) then b ← demo_decode s'; Some (x :: b) else None
      | EmptyString => None
      end
  end.

Definition demo_pton (n : nat) (s : string) : option bytes :=
  b ← demo_decode s; if (length b =? n)%nat then Some b else None.

#[export] Instance demo_text : InetText := {|
  pton4 := demo_pton 4; ntop4 := demo_ntop; pton6 := demo_pton 16; ntop6 := demo_ntop
|}.

Lemma letter_spec n : 0 ≤ n < 16 → digit (letter n) = n ∧ letter n ≠ Ascii.zero ∧ letter n ≠ dot.
Proof.
  intros H. assert (n ∈ seqZ 0 16) as Hin by (apply elem_of_seqZ; lia). clear H.
  revert n Hin. apply Forall_forall. vm_compute. repeat constructor; done.
Qed.

Lemma demo_ntop_spec b : Forall is_byte b →
  demo_decode (demo_ntop b) = Some b ∧ String.length (demo_ntop b) = (2 * length b)%nat ∧
  c_string (demo_ntop b) = demo_ntop b.
Proof.
  induction 1 as [|x b Hx Hb (IH1 & IH2 & IH3)]; [done|].
  unfold is_byte in Hx.
  destruct (letter_spec (x / 16)) as (D1 & N1 & M1).
  { split; [apply Z.div_pos; lia|apply Z.div_lt_upper_bound; lia]. }
  destruct (letter_spec (x mod 16)) as (D2 & N2 & _); [apply Z.mod_pos_bound; lia|].
  cbn [demo_ntop demo_decode String.length c_string length].
  rewrite D1, D2, IH1, IH2, IH3. rewrite !(proj2 (Ascii.eqb_neq _ _)) by done.
  replace (16 * (x / 16) + x mod 16) with x by (apply Z.div_mod; lia).
  rewrite (proj2 (Z.leb_le _ _)), (proj2 (Z.ltb_lt _ _)) by lia. split_and!; [done|lia|done].
Qed.

Lemma demo_decode_bytes s b : demo_decode s = Some b → Forall is_byte b.
Proof.
  revert b. induction s as [s IH] using (induction_ltof1 _ String.length). unfold ltof in IH.
  intros b. destruct s as [|h s1]; [by intros [= <-]|]. cbn [demo_decode].
  destruct (Ascii.eqb h dot); [apply IH; simpl; lia|].
  destruct s1 as [|l s]; [done|]. destruct (_ && _) eqn:E; [|done]. apply andb_true_iff in E as [E1 E2]. bool_facts.
  destruct (demo_decode s) as [b'|] eqn:Ed; simpl; [|done]. intros [= <-]. constructor; [done|].
  apply (IH s); [simpl; lia|done].
Qed.

#[export] Instance demo_text_laws : InetTextLaws demo_text.
Proof.
  split; simpl; unfold demo_pton.
  1,2: intros s b H; destruct (demo_decode s) as [b'|] eqn:E; simpl in H; [|done];
    destruct (_ =? _)%nat eqn:El in H; bool_facts; simplify_eq; eauto using demo_decode_bytes.
  1,2: intros b Hl Hb; destruct (demo_ntop_spec b Hb) as (-> & Hs & Hc); simpl;
    rewrite Hl; simpl; split_and!; [done|lia|done].
Qed.

Lemma address_roundtrip_witness : ip4 (inet4_of Linux 0x7f000001 8080) = 0x7f000001.
Proof.
  refine (proj1 (address_roundtrip Linux 0x7f000001 (zeros 16) 8080 3 0 _ _ _ _ _));
    vm_compute; split; congruence || done.
Defined.

Lemma v4_mapped_roundtrip_witness :
  to_v4 MacOS (inet6_of MacOS (v4_mapped (be_bytes 4 0xc0a80001)) 53 0 0)
  = Val (inet4_of MacOS 0xc0a80001 53).
Proof.
  refine (proj1 (proj2 (v4_mapped_roundtrip MacOS 0xc0a80001 (zeros 16) 53 0 0 _ _ _)));
    vm_compute; split; congruence || done.
Defined.


Lemma parse_ignores_excess_witness :
  parse4 Linux "abcdefgh.......no address" 80 = Val (inet4_of Linux (be_value [1; 35; 69; 103]) 80).
Proof.
  apply (parse_ignores_excess Linux "abcdefgh......." "no address" 80 [1; 35; 69; 103]); reflexivity.
Defined.
