(* ===== verification/Stream.v ===== *)
(** * Streams

    [stream_impl] of [src/src/high/stream.cpp]: the server side (the accept
    handler, the table of connections and its limit, pause and resume) and the
    accept loop of [src/src/socket/tcp_accept_loop.cpp] that feeds it.

    [stream] is the state of a listening stream.  [Machine] interleaves the
    accept handler, the closing of connections, the [on_connect] tasks of the
    pool and the posted removals from the table, for any number of
    connections; the kernel may hand out again a descriptor as soon as it is
    closed.  [AcceptLoop] models the accept callback with its back-off, over
    the dispatcher interface. *)

From S2P Require Import Prelude Platform Dispatcher.

Local Open Scope Z_scope.

(** ** The table of connections *)

Record stream := mk_stream {
  max_conn : Z;
  connections : gmap Z nat;          (** descriptor to connection *)
  connection_count : Z;              (** an atomic [size_t] *)
  on_connect_cb : bool;              (** whether the handlers are set *)
  on_error_cb : bool
}.

Definition set_table (m : gmap Z nat) (n : Z) (s : stream) : stream :=
  mk_stream (max_conn s) m n (on_connect_cb s) (on_error_cb s).

(** What the accept handler did with what it was given. *)
Inductive accepted :=
| ReportError (ec : error_code)   (** [on_error_cb] submitted to the pool *)
| Ignored
| Refused (fd : Z)                (** over the limit: the new socket is closed *)
| Connected (fd : Z) (id : nat)   (** [on_connect] submitted to the pool *)
| Started (fd : Z) (id : nat).    (** no handler: [on_close_] set and reading started *)

(** The handler given to [accept_loop] by [arm_listen] and by [do_resume];
    [id] names the connection made of the accepted socket. *)
Definition accept_handler (sock_r : result Z) (id : nat) (s : stream) : accepted * stream :=
  match sock_r with
  | Err ec => (if on_error_cb s then ReportError ec else Ignored, s)
  | Val fd =>
      if (0 <? max_conn s) && (max_conn s <=? Z.of_nat (size (connections s))) then (Refused fd, s)
      else
        let s := set_table (<[fd := id]> (connections s)) (u64 (connection_count s + 1)) s in
        (if on_connect_cb s then Connected fd id else Started fd id, s)
  end.

(** The lambda posted by a connection's [on_close_]. *)
Definition erase_connection (fd : Z) (s : stream) : stream :=
  set_table (delete fd (connections s)) (u64 (connection_count s - 1)) s.

Module Machine.

(** A connection: its descriptor, whether [initiate_close] has run, whether
    [on_close_] is set, whether it is the one of the stream, and whether the
    stream missed the close: [on_close_] was not set then, or was not yet the
    stream's when it was called. *)
Record conn_info := mk_conn_info {
  ci_fd : Z; ci_closed : bool; ci_on_close : bool; ci_hooked : bool; ci_missed : bool
}.

(** [connecting]: [on_connect] tasks in the pool; [closing]: connections, with
    their descriptors, whose [on_close_] is about to be called by the pool;
    [erasing]: removals posted to the loop. *)
Record st := mk_st {
  stm : stream;
  conns : gmap nat conn_info;
  next_id : nat;
  open_fds : gset Z;
  connecting : list nat;
  closing : list (nat * Z);
  erasing : list Z
}.

Definition init (max : Z) (oc oe : bool) : st :=
  mk_st (mk_stream max ∅ 0 oc oe) ∅ 0 ∅ [] [] [].

(** The accept handler on a descriptor the kernel has just opened. *)
Definition do_accept (fd : Z) (s : st) : st :=
  let '(res, stm') := accept_handler (Val fd) (next_id s) (stm s) in
  match res with
  | Connected fd id =>
      mk_st stm' (<[id := mk_conn_info fd false false false false]> (conns s)) (S (next_id s))
        ({[fd]} ∪ open_fds s) (connecting s ++ [id]) (closing s) (erasing s)
  | Started fd id =>
      mk_st stm' (<[id := mk_conn_info fd false true true false]> (conns s)) (S (next_id s))
        ({[fd]} ∪ open_fds s) (connecting s) (closing s) (erasing s)
  | _ => s
  end.

Definition put_conn (id : nat) (ci : conn_info) (s : st) : st :=
  mk_st (stm s) (<[id := ci]> (conns s)) (next_id s) (open_fds s) (connecting s) (closing s) (erasing s).

(** The pool's task: [on_connect_cb] has returned; [on_close_] is wrapped. *)
Definition do_hook (id : nat) (ids : list nat) (s : st) : st :=
  match conns s !! id with
  | Some ci => mk_st (stm s) (<[id := mk_conn_info (ci_fd ci) (ci_closed ci) true true (ci_missed ci)]> (conns s)) (next_id s)
                 (open_fds s) ids (closing s) (erasing s)
  | None => s
  end.

(** [connection::on_close], called by the user: the handler replaces what is there. *)
Definition do_on_close (id : nat) (s : st) : st :=
  match conns s !! id with
  | Some ci => put_conn id (mk_conn_info (ci_fd ci) (ci_closed ci) true false (ci_missed ci)) s
  | None => s
  end.

(** [initiate_close] of a connection that is not closed: the descriptor is
    closed, and a call of [on_close_], if it is set, is submitted. *)
Definition do_close (id : nat) (s : st) : st :=
  match conns s !! id with
  | Some ci =>
      if ci_closed ci then s
      else mk_st (stm s)
             (<[id := mk_conn_info (ci_fd ci) true (ci_on_close ci) (ci_hooked ci) (negb (ci_on_close ci))]> (conns s))
             (next_id s) (open_fds s ∖ {[ci_fd ci]}) (connecting s)
             (if ci_on_close ci then closing s ++ [(id, ci_fd ci)] else closing s) (erasing s)
  | None => s
  end.

(** The pool calls [on_close_], as it is then; the stream's posts the removal. *)
Definition call_on_close (id : nat) (fd : Z) (rest : list (nat * Z)) (s : st) : st :=
  match conns s !! id with
  | Some ci =>
      if ci_hooked ci
      then mk_st (stm s) (conns s) (next_id s) (open_fds s) (connecting s) rest (erasing s ++ [fd])
      else mk_st (stm s) (<[id := mk_conn_info (ci_fd ci) (ci_closed ci) (ci_on_close ci) false true]> (conns s)) (next_id s)
             (open_fds s) (connecting s) rest (erasing s)
  | None => s
  end.

(** [early_reuse] says whether the kernel may hand out a descriptor whose entry
    has not been removed from the table yet, [late] whether the user may set
    [on_close_] after the stream has wrapped it. *)
Inductive step (early_reuse late : bool) : st → st → Prop :=
| step_accept s fd :
    0 ≤ fd → fd ∉ open_fds s → (early_reuse = false → connections (stm s) !! fd = None) →
    step early_reuse late s (do_accept fd s)
| step_hook s id ids1 ids2 :
    connecting s = ids1 ++ id :: ids2 → step early_reuse late s (do_hook id (ids1 ++ ids2) s)
| step_handler s id :
    (late = false → ∀ ci, conns s !! id = Some ci → ci_hooked ci = false) →
    step early_reuse late s (do_on_close id s)
| step_close s id : step early_reuse late s (do_close id s)
| step_on_close s id fd l1 l2 :
    closing s = l1 ++ (id, fd) :: l2 → step early_reuse late s (call_on_close id fd (l1 ++ l2) s)
| step_erase s fd fds :
    erasing s = fd :: fds →
    step early_reuse late s (mk_st (erase_connection fd (stm s)) (conns s) (next_id s) (open_fds s)
                               (connecting s) (closing s) fds).

(** The removals on their way. *)
Definition leaving (s : st) : list Z := (closing s).*2 ++ erasing s.

Record inv (s : st) : Prop := {
  i_count : connection_count (stm s) = u64 (Z.of_nat (size (connections (stm s))));
  i_limit : 0 < max_conn (stm s) → Z.of_nat (size (connections (stm s))) ≤ max_conn (stm s);
  i_fresh : ∀ id ci, conns s !! id = Some ci → (id < next_id s)%nat;
  i_live : ∀ id ci, conns s !! id = Some ci → ci_closed ci = false →
           connections (stm s) !! ci_fd ci = Some id ∧ ci_fd ci ∈ open_fds s;
  i_table : ∀ fd id, connections (stm s) !! fd = Some id →
            ∃ ci, conns s !! id = Some ci ∧ ci_fd ci = fd ∧
                  (ci_closed ci = true → ci_missed ci = false → fd ∈ leaving s);
  i_leaving : NoDup (leaving s) ∧ ∀ fd, fd ∈ leaving s →
              ∃ id ci, connections (stm s) !! fd = Some id ∧ conns s !! id = Some ci ∧ ci_closed ci = true;
  i_closing : ∀ id fd, (id, fd) ∈ closing s → connections (stm s) !! fd = Some id
}.
Lemma u64_add_l x y : u64 (u64 x + y) = u64 (x + y).
Proof. unfold wrap. by rewrite Zplus_mod_idemp_l. Qed.

Lemma init_table max oc oe : 0 ≤ max → inv (init max oc oe).
Proof.
  intros Hm. split; simpl; try done.
  - split; [constructor|]. intros fd Hin. by apply elem_of_nil in Hin.
  - intros id fd Hin. by apply elem_of_nil in Hin.
Qed.

(** A connection added to the table under a descriptor with no entry. *)
Lemma insert_inv fd hooked ids s :
  inv s → connections (stm s) !! fd = None →
  (0 < max_conn (stm s) → Z.of_nat (size (connections (stm s))) < max_conn (stm s)) →
  inv (mk_st (set_table (<[fd := next_id s]> (connections (stm s))) (u64 (connection_count (stm s) + 1)) (stm s))
         (<[next_id s := mk_conn_info fd false hooked hooked false]> (conns s)) (S (next_id s))
         ({[fd]} ∪ open_fds s) ids (closing s) (erasing s)).
Proof.
  intros [Hc Hl Hf Hlive Ht [Hnd Hlv] Hcl] Hnone Hlim. unfold leaving in *. split; simpl.
  - rewrite Hc, u64_add_l, map_size_insert_None by done. f_equal. lia.
  - intros Hm. specialize (Hlim Hm). rewrite map_size_insert_None by done. lia.
  - intros id ci [[<- <-]|[Hne Hci]]%lookup_insert_Some; [lia|]. apply Hf in Hci. lia.
  - intros id ci [[<- <-]|[Hne Hci]]%lookup_insert_Some; simpl.
    + rewrite lookup_insert_eq. split; [done|set_solver].
    + intros Hcd. destruct (Hlive id ci Hci Hcd) as [Hci' Hop].
      rewrite lookup_insert_ne by congruence. split; [done|set_solver].
  - intros fd' id [[<- <-]|[Hne Hci]]%lookup_insert_Some.
    + eexists. by rewrite lookup_insert_eq.
    + destruct (Ht fd' id Hci) as (ci & Hci' & ?). exists ci. split; [|done].
      rewrite lookup_insert_ne; [done|]. apply Hf in Hci'. lia.
  - split; [done|]. intros fd' Hin. destruct (Hlv fd' Hin) as (id & ci & H1 & H2 & H3).
    exists id, ci. rewrite !lookup_insert_ne; [done| |congruence]. apply Hf in H2. lia.
  - intros id fd' Hin. specialize (Hcl id fd' Hin). rewrite lookup_insert_ne; [done|congruence].
Qed.

Lemma close_inv id s : inv s → inv (do_close id s).
Proof.
  intros Hi. unfold do_close. destruct (conns s !! id) as [ci|] eqn:Eci; [|done].
  destruct (ci_closed ci) eqn:Ecl; [done|].
  destruct Hi as [Hc Hl Hf Hlive Ht [Hnd Hlv] Hcl]. destruct (Hlive id ci Eci Ecl) as [Htab Hop].
  assert (ci_fd ci ∉ leaving s) as Hnl.
  { intros Hin. destruct (Hlv _ Hin) as (id' & ci' & H1 & H2 & H3). simplify_eq. congruence. }
  set (cl := if ci_on_close ci then closing s ++ [(id, ci_fd ci)] else closing s).
  assert (cl.*2 ++ erasing s ≡ₚ (if ci_on_close ci then [ci_fd ci] else []) ++ leaving s) as Hperm.
  { unfold leaving, cl. destruct (ci_on_close ci); [|done]. rewrite fmap_app. simpl. solve_Permutation. }
  split; simpl; unfold leaving; simpl; fold cl; try done.
  - intros id' ci' [[<- <-]|[_ H]]%lookup_insert_Some; eauto.
  - intros id' ci' [[<- <-]|[Hne H]]%lookup_insert_Some; simpl; [done|]. intros Hcl'.
    destruct (Hlive id' ci' H Hcl') as [H1 H2]. split; [done|].
    apply elem_of_difference. split; [done|]. intros E%elem_of_singleton. congruence.
  - intros fd' id' Hfd. destruct (Ht fd' id' Hfd) as (ci' & H1 & H2 & H3).
    destruct (decide (id' = id)) as [->|Hne].
    + simplify_eq. eexists. rewrite lookup_insert_eq. split; [done|]. simpl. split; [done|].
      intros _ Hh%negb_false_iff. rewrite Hperm, Hh. set_solver.
    + exists ci'. rewrite lookup_insert_ne by done. split; [done|]. split; [done|].
      intros Hcl' Hno. specialize (H3 Hcl' Hno). rewrite Hperm. set_solver.
  - rewrite Hperm. split.
    + destruct (ci_on_close ci); simpl; [|done]. by constructor.
    + intros fd' Hin. rewrite Hperm in Hin.
      assert (fd' = ci_fd ci ∨ fd' ∈ leaving s) as [->|Hin'] by (destruct (ci_on_close ci); set_solver).
      * eexists id, _. rewrite lookup_insert_eq. by split_and!.
      * destruct (Hlv fd' Hin') as (id' & ci' & H1 & H2 & H3).
        destruct (decide (id' = id)) as [->|Hne]; [congruence|].
        exists id', ci'. by rewrite lookup_insert_ne.
  - intros id' fd' Hin. unfold cl in Hin. destruct (ci_on_close ci); [|auto].
    apply elem_of_app in Hin as [Hin|Hin]; [auto|]. apply list_elem_of_singleton in Hin. by simplify_eq.
Qed.

(** Moving a removal along: the same descriptors stay on their way. *)
Lemma leaving_inv s cl er ids :
  inv s → cl.*2 ++ er ≡ₚ leaving s → cl ⊆ closing s →
  inv (mk_st (stm s) (conns s) (next_id s) (open_fds s) ids cl er).
Proof.
  intros [Hc Hl Hf Hlive Ht [Hnd Hlv] Hcl] Hp Hsub. split; simpl; try done; unfold leaving in *; simpl; [..|auto].
  - intros fd id H. destruct (Ht fd id H) as (ci & H1 & H2 & H3). exists ci. rewrite Hp. auto.
  - rewrite Hp. split; [done|]. intros fd Hin. rewrite Hp in Hin. auto.
Qed.

(** A connection's record replaced by one with the same descriptor. *)
Lemma update_inv id ci ci' ids s :
  conns s !! id = Some ci → ci_fd ci' = ci_fd ci → ci_closed ci' = ci_closed ci →
  (ci_missed ci = true → ci_missed ci' = true) → inv s →
  inv (mk_st (stm s) (<[id := ci']> (conns s)) (next_id s) (open_fds s) ids (closing s) (erasing s)).
Proof.
  intros Eci Efd Ecl Em [Hc Hl Hf Hlive Ht [Hnd Hlv] Hcg]. split; simpl; try done; unfold leaving in *; simpl.
  - intros id' c [[<- <-]|[_ H]]%lookup_insert_Some; eauto.
  - intros id' c [[<- <-]|[_ H]]%lookup_insert_Some; [rewrite Efd, Ecl|]; eauto.
  - intros fd id' H. destruct (Ht fd id' H) as (c & H1 & H2 & H3).
    destruct (decide (id' = id)) as [->|Hne]; [|exists c; by rewrite lookup_insert_ne].
    simplify_eq. eexists. rewrite lookup_insert_eq. split; [done|]. split; [done|]. rewrite Ecl. intros Hcd Hm.
    apply H3; [done|]. destruct (ci_missed ci); [|done]. by rewrite Em in Hm.
  - split; [done|]. intros fd Hin. destruct (Hlv fd Hin) as (id' & c & H1 & H2 & H3).
    destruct (decide (id' = id)) as [->|Hne]; [|exists id', c; by rewrite lookup_insert_ne].
    simplify_eq. eexists id, _. rewrite lookup_insert_eq. split_and!; [done..|congruence].
Qed.

Lemma hook_inv id ids s : inv s → inv (do_hook id ids s).
Proof. intros Hi. unfold do_hook. destruct (conns s !! id) eqn:E; [|done]. by eapply update_inv. Qed.

Lemma on_close_inv id s : inv s → inv (do_on_close id s).
Proof. intros Hi. unfold do_on_close, put_conn. destruct (conns s !! id) eqn:E; [|done]. by eapply update_inv. Qed.

(** A call of [on_close_]: the removal is posted, or it is missed for good. *)
Lemma call_inv s id fd l1 l2 :
  inv s → closing s = l1 ++ (id, fd) :: l2 → inv (call_on_close id fd (l1 ++ l2) s).
Proof.
  intros Hi Hcl. unfold call_on_close. destruct (conns s !! id) as [ci|] eqn:E; [|done].
  destruct (ci_hooked ci).
  { apply leaving_inv; [done| |rewrite Hcl; set_solver]. unfold leaving. rewrite Hcl, !fmap_app. simpl. solve_Permutation. }
  assert (connections (stm s) !! fd = Some id) as Htab by (apply (i_closing s Hi); rewrite Hcl; set_solver).
  pose (ci' := mk_conn_info (ci_fd ci) (ci_closed ci) (ci_on_close ci) false true).
  pose proof (update_inv id ci ci' (connecting s) s E eq_refl eq_refl (λ _, eq_refl) Hi)
    as [Hc Hl Hf Hlive Ht [Hnd Hlv] Hcg].
  assert (leaving s ≡ₚ fd :: ((l1 ++ l2).*2 ++ erasing s)) as Hp.
  { unfold leaving. rewrite Hcl, !fmap_app. simpl. solve_Permutation. }
  unfold leaving in Hp, Hnd, Hlv, Ht. simpl in *. split; simpl; try done; unfold leaving; simpl.
  - intros fd' id' H. destruct (Ht fd' id' H) as (c & H1 & H2 & H3). exists c. split; [done|]. split; [done|].
    intros Hcd Hm. specialize (H3 Hcd Hm). rewrite Hp in H3. apply elem_of_cons in H3 as [->|?]; [|done].
    rewrite Htab in H. simplify_eq. rewrite lookup_insert_eq in H1. simplify_eq.
  - rewrite Hp in Hnd. apply NoDup_cons in Hnd as [_ Hnd]. split; [done|]. intros fd' Hin. apply Hlv. rewrite Hp. set_solver.
  - intros id' fd' Hin. apply Hcg. rewrite Hcl. set_solver.
Qed.

Lemma erase_inv s fd fds :
  inv s → erasing s = fd :: fds →
  inv (mk_st (erase_connection fd (stm s)) (conns s) (next_id s) (open_fds s) (connecting s) (closing s) fds).
Proof.
  intros [Hc Hl Hf Hlive Ht [Hnd Hlv] Hcg] He.
  assert (leaving s ≡ₚ fd :: ((closing s).*2 ++ fds)) as Hp by (unfold leaving; rewrite He; solve_Permutation).
  assert (fd ∉ (closing s).*2 ++ fds) as Hnin.
  { rewrite Hp in Hnd. by apply NoDup_cons in Hnd as [? _]. }
  destruct (Hlv fd) as (id & ci & H1 & H2 & H3); [rewrite Hp; set_solver|].
  pose proof (map_size_delete_Some fd (connections (stm s)) (mk_is_Some _ _ H1)) as Hsz.
  assert (0 < size (connections (stm s)))%nat as Hpos.
  { destruct (size (connections (stm s))) eqn:E; [|lia]. apply map_size_empty_inv in E. by rewrite E in H1. }
  split; simpl; unfold leaving; simpl.
  - unfold Z.sub. rewrite Hc, u64_add_l, Hsz. f_equal. lia.
  - intros Hm. specialize (Hl Hm). rewrite Hsz. lia.
  - done.
  - intros id' ci' Hci Hcl. destruct (Hlive id' ci' Hci Hcl) as [Ha Hb].
    rewrite lookup_delete_ne; [done|]. intros ->. simplify_eq. congruence.
  - intros fd' id' [Hne Hfd]%lookup_delete_Some. destruct (Ht fd' id' Hfd) as (ci' & Ha & Hb & Hd).
    exists ci'. split_and!; [done..|]. intros Hcl Hno. specialize (Hd Hcl Hno). rewrite Hp in Hd. set_solver.
  - rewrite Hp in Hnd. apply NoDup_cons in Hnd as [_ Hnd]. split; [done|]. intros fd' Hin.
    destruct (Hlv fd') as (id' & ci' & Ha & Hb & Hd); [rewrite Hp; set_solver|].
    exists id', ci'. rewrite lookup_delete_ne; [done|]. intros ->. done.
  - intros id' fd' Hin. rewrite lookup_delete_ne; [auto|]. intros <-. apply Hnin, elem_of_app. left.
    apply list_elem_of_fmap. by exists (id', fd).
Qed.

Lemma table_step_inv s s' : step false false s s' → inv s → inv s'.
Proof.
  intros Hstep Hi. destruct Hstep as [s fd Hfd Hop Hnone|s id ids1 ids2 H|s id _|s id|s id fd l1 l2 H|s fd fds H].
  - unfold do_accept, accept_handler. destruct (_ && _) eqn:E; [done|].
    assert (0 < max_conn (stm s) → Z.of_nat (size (connections (stm s))) < max_conn (stm s)) as Hlim.
    { intros Hm. apply andb_false_iff in E as [E|E]; bool_facts; lia. }
    simpl. destruct (on_connect_cb (stm s)); by apply insert_inv; auto.
  - by apply hook_inv.
  - by apply on_close_inv.
  - by apply close_inv.
  - by apply call_inv.
  - by apply erase_inv.
Qed.

Lemma table_reachable max oc oe s : 0 ≤ max → rtc (step false false) (init max oc oe) s → inv s.
Proof. intros Hm Hr. eapply rtc_preserves; eauto using table_step_inv, init_table. Qed.


(** Reuse of a descriptor loses a connection.  [on_close_] removes the entry
    of the descriptor, not of the connection: if the kernel gives the closed
    descriptor to a new connection before the posted removal runs, the removal
    takes the new connection's entry.  The open connection is then missing from
    the table, so that it is not counted against the limit and not closed when
    the stream is destroyed. *)
Theorem fd_reuse_loses_connection :
  ∃ s ci, rtc (step true false) (init 0 true false) s ∧
    closing s = [] ∧ erasing s = [] ∧ connecting s = [] ∧
    conns s !! 1%nat = Some ci ∧ ci_closed ci = false ∧ ci_hooked ci = true ∧ ci_fd ci ∈ open_fds s ∧
    connections (stm s) = ∅ ∧ connection_count (stm s) = 1.
Proof.
  pose (s1 := do_accept 5 (init 0 true false)). pose (s2 := do_hook 0 [] s1).
  pose (s3 := do_close 0 s2). pose (s4 := do_accept 5 s3). pose (s5 := do_hook 1 [] s4).
  pose (s6 := call_on_close 0 5 [] s5).
  exists (mk_st (erase_connection 5 (stm s6)) (conns s6) (next_id s6) (open_fds s6)
           (connecting s6) (closing s6) []), (mk_conn_info 5 false true true false).
  split_and!; try (vm_compute; reflexivity).
  apply rtc_l with s1; [by apply step_accept|].
  apply rtc_l with s2; [by apply (step_hook _ _ _ 0 [] [])|].
  apply rtc_l with s3; [apply step_close|].
  apply rtc_l with s4; [apply step_accept; [done|intros H; vm_compute in H; discriminate H|done]|].
  apply rtc_l with s5; [by apply (step_hook _ _ _ 1 [] [])|].
  apply rtc_l with s6; [by apply (step_on_close _ _ _ 0 5 [] [])|].
  apply rtc_once. by apply step_erase.
Qed.

(** Setting [on_close] later, from a callback of the connection, replaces the
    stream's: the entry of the closed connection then stays in the table, and
    counts against the limit, for the life of the stream. *)
Theorem late_handler_leaks :
  ∃ s ci, rtc (step false true) (init 1 true false) s ∧
    closing s = [] ∧ erasing s = [] ∧ connecting s = [] ∧
    conns s !! 0%nat = Some ci ∧ ci_closed ci = true ∧ open_fds s = ∅ ∧
    connections (stm s) !! 5 = Some 0%nat ∧ (accept_handler (Val 6) 1 (stm s)).1 = Refused 6.
Proof.
  pose (s1 := do_accept 5 (init 1 true false)). pose (s2 := do_hook 0 [] s1).
  pose (s3 := do_on_close 0 s2). pose (s4 := do_close 0 s3). pose (s5 := call_on_close 0 5 [] s4).
  exists s5, (mk_conn_info 5 true true false true). split_and!; try (vm_compute; reflexivity).
  apply rtc_l with s1; [by apply step_accept|].
  apply rtc_l with s2; [by apply (step_hook _ _ _ 0 [] [])|].
  apply rtc_l with s3; [by apply step_handler|].
  apply rtc_l with s4; [apply step_close|].
  apply rtc_once. by apply (step_on_close _ _ _ 0 5 [] []).
Qed.

(** *** Destruction *)

(** [do_destroy] after the loop has been joined: every connection of the table
    is closed, and the table emptied. *)
Definition do_destroy (s : st) : st :=
  let s := foldr do_close s ((map_to_list (connections (stm s))).*2) in
  mk_st (set_table ∅ 0 (stm s)) (conns s) (next_id s) (open_fds s) (connecting s) (closing s) (erasing s).

Lemma do_close_facts id s :
  stm (do_close id s) = stm s ∧
  (∀ id' ci, conns (do_close id s) !! id' = Some ci → ci_closed ci = false →
     id' ≠ id ∧ conns s !! id' = Some ci) ∧
  open_fds (do_close id s) ⊆ open_fds s.
Proof.
  unfold do_close. destruct (conns s !! id) as [ci|] eqn:E; [destruct (ci_closed ci) eqn:Ec|].
  - split_and!; try done. intros id' ci' H Hc. split; [congruence|done].
  - split_and!; simpl; [done| |set_solver].
    intros id' ci' [[<- <-]|[Hne H]]%lookup_insert_Some; simpl; [done|auto].
  - split_and!; try done. intros id' ci' H Hc. split; [congruence|done].
Qed.

Lemma close_all_facts ids s :
  stm (foldr do_close s ids) = stm s ∧
  (∀ id ci, conns (foldr do_close s ids) !! id = Some ci → ci_closed ci = false →
     id ∉ ids ∧ conns s !! id = Some ci).
Proof.
  induction ids as [|id ids [IH1 IH2]]; simpl; [split; [done|intros; split; [set_solver|done]]|].
  destruct (do_close_facts id (foldr do_close s ids)) as (H1 & H2 & _).
  split; [congruence|]. intros id' ci Hci Hc. destruct (H2 id' ci Hci Hc) as [Hne Hci'].
  destruct (IH2 id' ci Hci' Hc). split; [set_solver|done].
Qed.

(** Destroying a listening stream closes every connection.  As long as no
    descriptor was reused before its entry was removed, [do_destroy] leaves no
    accepted connection open, and the table and the count empty. *)
Theorem destroy_closes_all max oc oe s :
  0 ≤ max → rtc (step false false) (init max oc oe) s →
  (∀ id ci, conns (do_destroy s) !! id = Some ci → ci_closed ci = true) ∧
  connections (stm (do_destroy s)) = ∅ ∧ connection_count (stm (do_destroy s)) = 0.
Proof.
  intros Hm Hr. apply table_reachable in Hr as [_ _ _ Hlive _ _ _]; [|done]. split; [|done].
  intros id ci Hci. simpl in Hci. destruct (ci_closed ci) eqn:Ec; [done|].
  destruct (close_all_facts ((map_to_list (connections (stm s))).*2) s) as [_ Hall].
  destruct (Hall id ci Hci Ec) as [Hnin Hci']. destruct (Hlive id ci Hci' Ec) as [Htab _].
  destruct Hnin. apply list_elem_of_fmap. exists (ci_fd ci, id). split; [done|].
  by apply elem_of_map_to_list.
Qed.

Lemma demo_accept_reachable : rtc (step false false) (init 3 true false) (do_accept 5 (init 3 true false)).
Proof. apply rtc_once. by apply step_accept. Qed.

Lemma destroy_closes_all_witness :
  conns (do_destroy (do_accept 5 (init 3 true false))) !! 0%nat = Some (mk_conn_info 5 true false false true) ∧
  connections (stm (do_destroy (do_accept 5 (init 3 true false)))) = ∅.
Proof.
  split; [vm_compute; reflexivity|].
  exact (proj1 (proj2 (destroy_closes_all 3 true false _ ltac:(lia) demo_accept_reachable))).
Defined.


End Machine.

(** ** The accept loop *)

(** The listener's socket. *)
Record listener := mk_listener { l_fd : Z; l_open : bool }.

Definition listener_handle (l : listener) : Z := if l_open l then l_fd l else -1.
Definition listener_stop (l : listener) : listener := mk_listener (l_fd l) false.

Module AcceptLoop.
Section AcceptLoop.
Context {CB : Type} {D : Dispatcher CB} (cb : CB).
(** the handler's effect on the state of its owner *)
Context {H : Type} (handler : result Z → H → H).

(** [timers] are the one-shot timers deferred to re-enable a descriptor: delay
    and descriptor. *)
Record ast := mk_ast { backoff_ms : Z; ad : disp; timers : list (Z * Z); owner : H }.

(** The loop of the accept callback; [rs] is what [accept] returns, call by
    call, and [None] means that more calls are made than [rs] answers. *)
Fixpoint accept_all (rs : list (result Z)) (l : listener) (a : ast) : option ast :=
  match rs with
  | [] => None
  | Err ec :: _ =>
      if ec_eqb ec (make_error_code would_block) then Some a
      else if ec_eqb ec (make_error_code fd_limit_reached) then
        let listen_fd := listener_handle l in
        let d := (d_modify listen_fd ev_none (ad a)).2 in
        let delay := backoff_ms a in
        Some (mk_ast (Z.min (backoff_ms a * 2) 5000) d (timers a ++ [(delay, listen_fd)])
                (handler (Err ec) (owner a)))
      else Some (mk_ast (backoff_ms a) (ad a) (timers a) (handler (Err ec) (owner a)))
  | Val fd :: rs' =>
      accept_all rs' l (mk_ast 100 (ad a) (timers a) (handler (Val fd) (owner a)))
  end.

Definition accept_cb (events : Z) (rs : list (result Z)) (l : listener) (a : ast) : option ast :=
  if negb (has_event events ev_readable) then Some a else accept_all rs l a.

(** The deferred timer. *)
Definition timer_fired (fd : Z) (a : ast) : ast :=
  mk_ast (backoff_ms a) (d_modify fd ev_readable (ad a)).2 (timers a) (owner a).

(** [accept_loop_impl]: the registration. *)
Definition accept_loop (l : listener) (d : disp) : disp := (d_add (listener_handle l) ev_readable cb d).2.

(** The lambdas posted by [do_pause] and [do_resume]. *)
Definition do_pause (l : listener) : listener := listener_stop l.
Definition do_resume (l : listener) (d : disp) : disp := accept_loop l d.

(** The descriptor limit hit [n] times in a row, the timer firing in between. *)
Fixpoint limits (n : nat) (l : listener) (a : ast) : option ast :=
  match n with
  | O => Some a
  | S n' =>
      a ← limits n' l a;
      a ← accept_cb ev_readable [Err (make_error_code fd_limit_reached)] l a;
      Some (timer_fired (listener_handle l) a)
  end.

Context `{!DispatcherLaws D} `{!DispatcherReliable D}.

Lemma modify_reliable fd i d j x :
  d_wf d → d_lookup d fd = Some (j, x) →
  d_wf (d_modify fd i d).2 ∧ d_lookup (d_modify fd i d).2 fd = Some (effective i, x).
Proof.
  intros Hwf Hl. pose proof (law_modify_ok fd i d Hwf ltac:(by rewrite Hl)) as Hok.
  destruct (d_modify fd i d) as [r d'] eqn:E. simpl in *.
  apply law_modify in E as (Hwf' & _ & E); [|done]. rewrite Hok, Hl in E. by split.
Qed.

(** The back-off after [n] failures. *)
Definition backoff (n : nat) : Z := Z.min (100 * 2 ^ Z.of_nat n) 5000.

Lemma backoff_next n : Z.min (backoff n * 2) 5000 = backoff (S n).
Proof.
  unfold backoff. rewrite Nat2Z.inj_succ, Z.pow_succ_r by lia. lia.
Qed.

(** One hit of the limit on a registered listener. *)
Lemma limit_hit l a x :
  d_wf (ad a) → d_lookup (ad a) (listener_handle l) = Some (ev_readable, x) →
  ∃ a', accept_cb ev_readable [Err (make_error_code fd_limit_reached)] l a = Some a' ∧
    d_wf (ad a') ∧ d_lookup (ad a') (listener_handle l) = Some (ev_none, x) ∧
    timers a' = timers a ++ [(backoff_ms a, listener_handle l)] ∧
    backoff_ms a' = Z.min (backoff_ms a * 2) 5000 ∧
    owner a' = handler (Err (make_error_code fd_limit_reached)) (owner a) ∧
    d_wf (ad (timer_fired (listener_handle l) a')) ∧
    d_lookup (ad (timer_fired (listener_handle l) a')) (listener_handle l) = Some (ev_readable, x).
Proof.
  intros Hwf Hl. eexists. split; [reflexivity|]. simpl.
  destruct (modify_reliable (listener_handle l) ev_none (ad a) _ _ Hwf Hl) as [Hwf1 Hl1].
  destruct (modify_reliable (listener_handle l) ev_readable _ _ _ Hwf1 Hl1) as [Hwf2 Hl2].
  by split_and!.
Qed.

Lemma limits_spec n l a x :
  d_wf (ad a) → d_lookup (ad a) (listener_handle l) = Some (ev_readable, x) → backoff_ms a = 100 →
  ∃ a', limits n l a = Some a' ∧ d_wf (ad a') ∧
    d_lookup (ad a') (listener_handle l) = Some (ev_readable, x) ∧
    backoff_ms a' = backoff n ∧
    timers a' = timers a ++ ((λ i, (backoff i, listener_handle l)) <$> seq 0 n).
Proof.
  intros Hwf Hl Hb. induction n as [|n (a1 & E1 & Hwf1 & Hl1 & Hb1 & Ht1)].
  - exists a. simpl. rewrite app_nil_r. by split_and!.
  - destruct (limit_hit l a1 x Hwf1 Hl1) as (a2 & E2 & _ & _ & Ht2 & Hb2 & _ & Hwf3 & Hl3).
    exists (timer_fired (listener_handle l) a2). cbn [limits]. rewrite E1. cbn [mbind option_bind].
    rewrite E2. split_and!; [done|done|done|simpl; by rewrite Hb2, Hb1, backoff_next|].
    change (timers (timer_fired (listener_handle l) a2)) with (timers a2).
    by rewrite Ht2, Ht1, Hb1, seq_S, fmap_app, app_assoc.
Qed.

Lemma accept_all_vals fds r l a ec :
  r = Err ec → ec_eqb ec (make_error_code would_block) = true →
  accept_all ((Val <$> fds) ++ [r]) l a =
  Some (mk_ast (if decide (fds = []) then backoff_ms a else 100) (ad a) (timers a)
          (foldl (λ h fd, handler (Val fd) h) (owner a) fds)).
Proof.
  intros -> Hec. revert a. induction fds as [|fd fds IH]; intros a.
  - simpl. rewrite Hec. by destruct a.
  - cbn [fmap list_fmap app accept_all]. rewrite IH. simpl. by destruct (decide (fds = [])).
Qed.

(** The accept loop.  A readable event hands every connection the kernel has
    to the handler, in order, and ends when [accept] would block.  When the
    descriptor limit is hit [n] times in a row, the handler is told each time,
    the listener is disabled and re-enabled after delays of 100, 200, 400, ...
    milliseconds, never more than 5000, and after each delay it is registered
    for reading again. *)
Theorem accept_backoff n fds l a x :
  d_wf (ad a) → d_lookup (ad a) (listener_handle l) = Some (ev_readable, x) → backoff_ms a = 100 →
  (∃ a', limits n l a = Some a' ∧
     d_lookup (ad a') (listener_handle l) = Some (ev_readable, x) ∧
     timers a' = timers a ++ ((λ i : nat, (Z.min (100 * 2 ^ Z.of_nat i) 5000, listener_handle l)) <$> seq 0 n) ∧
     100 ≤ backoff_ms a' ≤ 5000) ∧
  accept_cb ev_readable ((Val <$> fds) ++ [err_of would_block]) l a =
    Some (mk_ast 100 (ad a) (timers a) (foldl (λ h fd, handler (Val fd) h) (owner a) fds)).
Proof.
  intros Hwf Hl Hb. split.
  - destruct (limits_spec n l a x Hwf Hl Hb) as (a' & E & _ & Hl' & Hb' & Ht).
    exists a'. split_and!; [done..| |]; rewrite Hb'; unfold backoff;
      pose proof (Z.pow_pos_nonneg 2 (Z.of_nat n)); lia.
  - unfold accept_cb. simpl negb. cbn iota. erewrite accept_all_vals; [|done|done].
    rewrite Hb. by destruct (decide _).
Qed.

(** Pausing a listener is for good.  [pause] stops the listener, which closes
    its socket; [resume] then registers [invalid_socket] with the dispatcher:
    no registration of any real descriptor changes, and nothing is accepted
    again. *)
Theorem pause_closes_listener l d fd :
  d_wf d → 0 ≤ fd →
  l_open (do_pause l) = false ∧ listener_handle (do_pause l) = -1 ∧
  d_lookup (do_resume (do_pause l) d) fd = d_lookup d fd.
Proof.
  intros Hwf Hfd. split; [done|]. split; [done|]. unfold do_resume, accept_loop. simpl.
  destruct (d_add _ _ _ _) as [r d'] eqn:E. apply law_add in E as (_ & E & _); [|done].
  apply E. unfold listener_handle. simpl. lia.
Qed.

End AcceptLoop.

(** A listener on descriptor 3, with a handler that records what it is given. *)
Definition demo_listener : listener := mk_listener 3 true.
Definition demo_ast : ast (D := map_dispatcher) (H := list (result Z)) :=
  mk_ast 100 (accept_loop 30%nat demo_listener (∅ : gmap Z (Z * nat))) [] [].

Lemma accept_backoff_witness :
  ∃ a', limits (λ r h, h ++ [r]) 7 demo_listener demo_ast = Some a' ∧
    timers a' = [(100, 3); (200, 3); (400, 3); (800, 3); (1600, 3); (3200, 3); (5000, 3)].
Proof.
  destruct (accept_backoff (λ r h, h ++ [r]) 7 [8; 9] demo_listener demo_ast 30%nat I eq_refl eq_refl)
    as [(a' & E & _ & Ht & _) _].
  exists a'. split; [exact E|]. rewrite Ht. reflexivity.
Defined.

Lemma pause_closes_listener_witness :
  d_lookup (do_resume 30%nat (do_pause demo_listener) (∅ : gmap Z (Z * nat))) 3 = None.
Proof.
  refine (proj2 (proj2 (pause_closes_listener 30%nat demo_listener (∅ : gmap Z (Z * nat)) 3 I _))).
  lia.
Defined.

End AcceptLoop.
