(* ===== verification/Dgram.v ===== *)
(** * Datagram sockets

    [dgram_impl] of [src/src/high/dgram.cpp] and [dgram_peer_impl] of
    [src/src/high/dgram_peer_impl.hpp]: the routing of received datagrams to the
    socket's own callback or to claimed peers, the layout of a batch in one
    shared buffer, and the claiming and relinquishing of peers.

    Peers are shared objects: the table [claimed_peers] and the user's handles
    refer to the same peer, so that peers live in a store of their own and the
    table holds references.  A user's thread may relinquish a peer while the
    loop's thread handles a batch; each reading of [open_] during a batch is
    therefore answered separately. *)

From S2P Require Import Prelude Platform Dispatcher.

Local Open Scope Z_scope.

(** ** State *)

Record peer := mk_peer {
  open_ : bool;
  peer_on_data : bool;             (** whether the handler is set *)
  peer_fd : option Z               (** the connected socket, on Linux and macOS *)
}.

Section Dgram.
Context {A : Type} `{Countable A}.

(** A received datagram: its sender and its bytes. *)
Abbreviation datagram := (A * bytes)%type.

Record dgram := mk_dgram {
  claimed_peers : gmap A nat;
  peers : gmap nat peer;
  on_data_cb : bool;
  on_data_batch_cb : bool;
  on_error_cb : bool
}.

Definition set_claimed (m : gmap A nat) (s : dgram) : dgram :=
  mk_dgram m (peers s) (on_data_cb s) (on_data_batch_cb s) (on_error_cb s).
Definition set_peers (p : gmap nat peer) (s : dgram) : dgram :=
  mk_dgram (claimed_peers s) p (on_data_cb s) (on_data_batch_cb s) (on_error_cb s).

(** What is submitted to the serial queues. *)
Inductive delivery :=
| ToBatch (msgs : list datagram)
| ToMain (from : A) (data : bytes)
| ToPeer (id : nat) (data : bytes)
| ToError (ec : error_code).

(** ** Receiving *)

Section Receiving.
(** [demux]: the kernel routes to the connected sockets ([has_kernel_udp_demux]).
    [obs i id] is the value of [open_] of peer [id] read for entry [i] in the
    first pass over a batch, [obs_deliver i id] the one [deliver_data] reads,
    and [obs2 i id] the one read in the second pass. *)
Context (demux : bool) (obs obs_deliver obs2 : nat → nat → bool) (s : dgram).

Definition peer_has_handler (id : nat) : bool :=
  match peers s !! id with Some p => peer_on_data p | None => false end.

Definition deliver_data (i id : nat) (data : bytes) : list delivery :=
  if negb (obs_deliver i id) || negb (peer_has_handler id) then [] else [ToPeer id data].

(** The first pass of the batch branch: the bytes and messages to copy, the
    table after the lazy removals, and what went to peers. *)
Fixpoint count_pass (es : list datagram) (i : nat) (m : gmap A nat) (total_bytes unclaimed_count : nat) :
    nat * nat * gmap A nat * list delivery :=
  match es with
  | [] => (total_bytes, unclaimed_count, m, [])
  | (from, data) :: es' =>
      match m !! from with
      | Some id =>
          if negb (obs i id) then
            count_pass es' (S i) (delete from m) (total_bytes + length data) (S unclaimed_count)
          else
            let '(t, u, m', out) := count_pass es' (S i) m total_bytes unclaimed_count in
            (t, u, m', (if negb demux then deliver_data i id data else []) ++ out)
      | None => count_pass es' (S i) m (total_bytes + length data) (S unclaimed_count)
      end
  end.

(** A message refers to its bytes in the shared buffer. *)
Record message := mk_message { msg_offset : nat; msg_len : nat; msg_from : option A }.
Definition message_default : message := mk_message 0 0 None.

(** The second pass: copying into the shared buffer and filling the messages;
    [None] when it writes outside of either. *)
Fixpoint fill_pass (es : list datagram) (i : nat) (m : gmap A nat) (shared_buf : bytes)
    (shared_msgs : list message) (offset msg_idx : nat) : option (bytes * list message) :=
  match es with
  | [] => Some (shared_buf, shared_msgs)
  | (from, data) :: es' =>
      if match m !! from with Some id => obs2 i id | None => false end
      then fill_pass es' (S i) m shared_buf shared_msgs offset msg_idx
      else
        buf ← memcpy shared_buf offset data;
        if (msg_idx <? length shared_msgs)%nat then
          fill_pass es' (S i) m buf
            (<[msg_idx := mk_message offset (length data) (Some from)]> shared_msgs)
            (offset + length data) (S msg_idx)
        else None
  end.

(** What the batch callback sees of a message. *)
Definition read_message (buf : bytes) (msg : message) : list datagram :=
  match msg_from msg with
  | Some from => [(from, take (msg_len msg) (drop (msg_offset msg) buf))]
  | None => []
  end.

Definition batch_pass (es : list datagram) : option (list delivery * gmap A nat) :=
  let '(total_bytes, unclaimed_count, m, out) := count_pass es 0 (claimed_peers s) 0 0 in
  if (0 <? unclaimed_count)%nat then
    '(buf, msgs) ← fill_pass es 0 m (replicate total_bytes 0) (replicate unclaimed_count message_default) 0 0;
    Some (out ++ [ToBatch (concat (read_message buf <$> msgs))], m)
  else Some (out, m).

(** The branch without the batch callback: one datagram at a time. *)
Fixpoint single_pass (es : list datagram) (i : nat) (m : gmap A nat) : list delivery * gmap A nat :=
  match es with
  | [] => ([], m)
  | (sender, data) :: es' =>
      match m !! sender with
      | Some id =>
          if negb (obs i id) then
            let '(out, m') := single_pass es' (S i) (delete sender m) in
            (ToMain sender data :: out, m')
          else
            let '(out, m') := single_pass es' (S i) m in
            ((if negb demux then deliver_data i id data else []) ++ out, m')
      | None =>
          let '(out, m') := single_pass es' (S i) m in (ToMain sender data :: out, m')
      end
  end.

(** One turn of the loop of [handle_readable] on a received batch. *)
Definition handle_batch (es : list datagram) : option (list delivery * gmap A nat) :=
  if on_data_batch_cb s then batch_pass es
  else if on_data_cb s then Some (single_pass es 0 (claimed_peers s))
  else Some ([], claimed_peers s).

End Receiving.

(** [handle_readable]: at most eight batches; [recv k] is what the [k]th call of
    [recv_batch] returns. *)
Fixpoint handle_readable (iters : nat) (demux : bool) (obs obs_deliver obs2 : nat → nat → nat → bool)
    (batch_size : nat) (recv : nat → result (list datagram)) (k : nat) (s : dgram) :
    option (list delivery * dgram) :=
  match iters with
  | O => Some ([], s)
  | S iters' =>
      match recv k with
      | Err ec =>
          if ec_eqb ec (make_error_code would_block) then Some ([], s)
          else Some (if on_error_cb s then [ToError ec] else [], s)
      | Val [] => Some ([], s)
      | Val es =>
          '(out, m) ← handle_batch demux (obs k) (obs_deliver k) (obs2 k) s es;
          let s := set_claimed m s in
          if (length es <? batch_size)%nat then Some (out, s)
          else
            '(out', s') ← handle_readable iters' demux obs obs_deliver obs2 batch_size recv (S k) s;
            Some (out ++ out', s')
      end
  end.

(** ** Claiming *)

Context {CB : Type} {D : Dispatcher CB}.

(** [do_relinquish] of a peer, called by its handle or by the parent. *)
Definition peer_relinquish (demux : bool) (id : nat) (s : dgram) (d : disp) : dgram * disp :=
  match peers s !! id with
  | None => (s, d)
  | Some p =>
      if negb (open_ p) then (s, d)
      else
        match (if demux then peer_fd p else None) with
        | Some fd =>
            (set_peers (<[id := mk_peer false (peer_on_data p) None]> (peers s)) s, (d_remove fd d).2)
        | None =>
            (set_peers (<[id := mk_peer false (peer_on_data p) (peer_fd p)]> (peers s)) s, d)
        end
  end.

(** [do_claim] with the new peer [id]; [create] is what [PeerSocket::create] returns. *)
Definition do_claim (demux : bool) (addr : A) (id : nat) (create : result Z) (s : dgram) :
    result_void * dgram :=
  match claimed_peers s !! addr with
  | Some _ => (rv_of address_in_use, s)
  | None =>
      if demux then
        match create with
        | Err e => (mk_result_void e, s)
        | Val fd => (rv_ok, mk_dgram (<[addr := id]> (claimed_peers s))
                              (<[id := mk_peer true false (Some fd)]> (peers s))
                              (on_data_cb s) (on_data_batch_cb s) (on_error_cb s))
        end
      else (rv_ok, mk_dgram (<[addr := id]> (claimed_peers s))
                     (<[id := mk_peer true false None]> (peers s))
                     (on_data_cb s) (on_data_batch_cb s) (on_error_cb s))
  end.

(** [dgram_impl::do_relinquish], which also removes the table's entry. *)
Definition do_relinquish (demux : bool) (addr : A) (s : dgram) (d : disp) : dgram * disp :=
  match claimed_peers s !! addr with
  | Some id =>
      let '(s, d) := peer_relinquish demux id s d in
      (set_claimed (delete addr (claimed_peers s)) s, d)
  | None => (s, d)
  end.

End Dgram.
Arguments dgram A {_ _}.
Arguments delivery A : clear implicits.

(** ** Routing *)

Section Routing.
Context {A : Type} `{Countable A}.
Context (demux : bool) (o : nat → bool) (s : dgram A).

Abbreviation datagram := (A * bytes)%type.

(** Whether a datagram belongs to a claimed peer that is open. *)
Definition claimed (m : gmap A nat) (e : datagram) : bool :=
  match m !! e.1 with Some id => o id | None => false end.

(** The datagrams for the socket's own callback. *)
Definition unclaimed (m : gmap A nat) (es : list datagram) : list datagram :=
  List.filter (λ e, negb (claimed m e)) es.

(** What the peers get of the others, where the kernel does not route to them. *)
Definition for_peers (m : gmap A nat) (es : list datagram) : list (delivery A) :=
  concat ((λ e, match m !! e.1 with
                | Some id => if o id && negb demux && peer_has_handler s id then [ToPeer id e.2] else []
                | None => []
                end) <$> es).

Definition payload (es : list datagram) : bytes := concat (es.*2).

(** Tables that agree on the open peers route alike. *)
Definition routes_alike (m m' : gmap A nat) : Prop :=
  ∀ a, (match m !! a with Some id => if o id then Some id else None | None => None end) =
       (match m' !! a with Some id => if o id then Some id else None | None => None end).

Lemma claimed_alike m m' e : routes_alike m m' → claimed m e = claimed m' e.
Proof.
  intros Hr. specialize (Hr e.1). unfold claimed.
  destruct (m !! e.1) as [x|], (m' !! e.1) as [y|]; simpl in *; repeat case_match; congruence.
Qed.

Lemma unclaimed_alike m m' es : routes_alike m m' → unclaimed m es = unclaimed m' es.
Proof.
  intros Hr. unfold unclaimed. induction es as [|e es IH]; simpl; [done|].
  by rewrite (claimed_alike m m' e Hr), IH.
Qed.

Lemma unclaimed_cons m e es :
  unclaimed m (e :: es) = if claimed m e then unclaimed m es else e :: unclaimed m es.
Proof. unfold unclaimed. simpl. by destruct (claimed m e). Qed.

Lemma for_peers_alike m m' es : routes_alike m m' → for_peers m es = for_peers m' es.
Proof.
  intros Hr. unfold for_peers. f_equal. apply list_fmap_ext. intros _ e _. specialize (Hr e.1).
  destruct (m !! e.1) as [x|], (m' !! e.1) as [y|]; simpl in *; repeat case_match;
    simplify_eq; simpl in *; congruence.
Qed.

Lemma routes_alike_delete m from id :
  m !! from = Some id → o id = false → routes_alike m (delete from m).
Proof.
  intros Hm Ho a. destruct (decide (a = from)) as [->|Hne].
  - by rewrite Hm, Ho, lookup_delete_eq.
  - by rewrite lookup_delete_ne.
Qed.

Lemma routes_alike_trans m1 m2 m3 : routes_alike m1 m2 → routes_alike m2 m3 → routes_alike m1 m3.
Proof. intros H1 H2 a. by rewrite H1. Qed.

Abbreviation always := (λ (_ id : nat), o id).

Lemma deliver_always i id data :
  deliver_data always s i id data = if o id && peer_has_handler s id then [ToPeer id data] else [].
Proof. unfold deliver_data. destruct (o id), (peer_has_handler s id); done. Qed.

(** The step both passes make at a datagram of an open peer. *)
Lemma for_peers_cons m from id data es :
  m !! from = Some id → o id = true →
  for_peers m ((from, data) :: es) =
  (if negb demux then deliver_data always s 0 id data else []) ++ for_peers m es.
Proof.
  intros Hm Ho. unfold for_peers. csimpl. rewrite Hm, Ho. f_equal.
  rewrite deliver_always, Ho. destruct demux; simpl; [done|]. by destruct (peer_has_handler s id).
Qed.

Lemma for_peers_skip m e es : claimed m e = false → for_peers m (e :: es) = for_peers m es.
Proof.
  unfold for_peers, claimed. csimpl. intros Hc. destruct (m !! e.1); [|done]. by rewrite Hc.
Qed.

Lemma count_pass_spec es i m t u :
  ∃ m', count_pass demux always always s es i m t u =
          (t + length (payload (unclaimed m es)), u + length (unclaimed m es), m', for_peers m es)%nat ∧
        routes_alike m m'.
Proof.
  revert i m t u. induction es as [|[from data] es IH]; intros i m t u.
  { exists m. simpl. rewrite !Nat.add_0_r. by split. }
  assert (claimed m (from, data) = false → ∀ m1, routes_alike m m1 → ∃ m',
    count_pass demux always always s es (S i) m1 (t + length data) (S u) =
      (t + length (payload (unclaimed m ((from, data) :: es))),
       u + length (unclaimed m ((from, data) :: es)), m', for_peers m ((from, data) :: es))%nat ∧
    routes_alike m m') as Hmain.
  { intros Hc m1 Hr. destruct (IH (S i) m1 (t + length data)%nat (S u)) as (m' & -> & Hr').
    exists m'. split; [|by eapply routes_alike_trans]. rewrite for_peers_skip by done.
    rewrite <- (unclaimed_alike m m1), <- (for_peers_alike m m1) by done.
    rewrite unclaimed_cons, Hc. unfold payload. csimpl. rewrite length_app. do 3 f_equal; lia. }
  cbn [count_pass]. destruct (m !! from) as [id|] eqn:Em; [destruct (o id) eqn:Eo; cbn [negb]|].
  - destruct (IH (S i) m t u) as (m' & -> & Hr'). exists m'. split; [|done].
    rewrite (for_peers_cons _ _ id), unclaimed_cons by done. unfold claimed. cbn [fst]. by rewrite Em, Eo.
  - apply Hmain; [unfold claimed; simpl; by rewrite Em|by eapply routes_alike_delete].
  - apply Hmain; [unfold claimed; simpl; by rewrite Em|done].
Qed.

Lemma single_pass_spec es i m :
  ∃ out m', single_pass demux always always s es i m = (out, m') ∧ routes_alike m m' ∧
    List.filter (λ x, if x is ToMain _ _ then true else false) out
      = (λ e, ToMain e.1 e.2) <$> unclaimed m es ∧
    List.filter (λ x, if x is ToMain _ _ then false else true) out = for_peers m es.
Proof.
  revert i m. induction es as [|[from data] es IH]; intros i m.
  { exists [], m. by split_and!. }
  assert (claimed m (from, data) = false → ∀ m1, routes_alike m m1 → ∃ out m',
    single_pass demux always always s es (S i) m1 = (out, m') ∧ routes_alike m m' ∧
    List.filter (λ x, if x is ToMain _ _ then true else false) (ToMain from data :: out)
      = (λ e, ToMain e.1 e.2) <$> unclaimed m ((from, data) :: es) ∧
    List.filter (λ x, if x is ToMain _ _ then false else true) (ToMain from data :: out)
      = for_peers m ((from, data) :: es)) as Hmain.
  { intros Hc m1 Hr. destruct (IH (S i) m1) as (out & m' & -> & Hr' & H1 & H2).
    exists out, m'. split_and!; [done|by eapply routes_alike_trans| |].
    - cbn [List.filter]. by rewrite H1, <- (unclaimed_alike m m1), unclaimed_cons, Hc.
    - cbn [List.filter]. rewrite H2, for_peers_skip by done. by apply eq_sym, for_peers_alike. }
  cbn [single_pass]. destruct (m !! from) as [id|] eqn:Em; [destruct (o id) eqn:Eo; cbn [negb]|].
  - destruct (IH (S i) m) as (out & m' & -> & Hr' & H1 & H2). eexists _, m'.
    split_and!; [done..| |]; rewrite !List.filter_app.
    + rewrite H1, unclaimed_cons. unfold claimed at 1. cbn [fst]. rewrite Em, Eo, deliver_always, Eo.
      by destruct (negb demux), (peer_has_handler s id).
    + rewrite H2, (for_peers_cons _ _ id) by done. rewrite !deliver_always, Eo.
      by destruct (negb demux), (peer_has_handler s id).
  - destruct (Hmain ltac:(unfold claimed; simpl; by rewrite Em) (delete from m)
      ltac:(by eapply routes_alike_delete)) as (out & m' & -> & ? & ? & ?). by eexists _, m'.
  - destruct (Hmain ltac:(unfold claimed; simpl; by rewrite Em) m ltac:(done))
      as (out & m' & -> & ? & ? & ?). by eexists _, m'.
Qed.

(** The messages for a list of datagrams laid out one after the other. *)
Fixpoint layout (off : nat) (us : list datagram) : list (@message A) :=
  match us with
  | [] => []
  | (from, data) :: us' => mk_message off (length data) (Some from) :: layout (off + length data) us'
  end.

Lemma fill_pass_spec es i m buf msgs off idx :
  length buf = (off + length (payload (unclaimed m es)))%nat →
  length msgs = (idx + length (unclaimed m es))%nat →
  fill_pass always es i m buf msgs off idx =
  Some (take off buf ++ payload (unclaimed m es), take idx msgs ++ layout off (unclaimed m es)).
Proof.
  revert i buf msgs off idx. induction es as [|[from data] es IH]; intros i buf msgs off idx Hb Hm.
  { simpl in *. rewrite !app_nil_r, !take_ge by lia. done. }
  cbn [fill_pass]. change (match m !! from with Some id => o id | None => false end)
    with (claimed m (from, data)).
  rewrite unclaimed_cons in *. destruct (claimed m (from, data)) eqn:Ec; [by apply IH|].
  unfold payload in *. csimpl in *. rewrite length_app in Hb. unfold memcpy.
  rewrite (proj2 (Nat.leb_le _ _)) by lia. cbn [mbind option_bind].
  rewrite (proj2 (Nat.ltb_lt _ _)) by lia.
  rewrite IH.
  - f_equal. f_equal.
    + rewrite (app_assoc (take off buf)), take_app_length' by (rewrite length_app, length_take; lia).
      by rewrite app_assoc.
    + rewrite (take_S_r _ _ (mk_message off (length data) (Some from)))
        by (apply list_lookup_insert_eq; lia).
      rewrite take_insert_ge by lia. by rewrite <- app_assoc.
  - rewrite !length_app, length_take, length_drop. lia.
  - rewrite length_insert. lia.
Qed.

Lemma read_layout pre us :
  concat (read_message (pre ++ payload us) <$> layout (length pre) us) = us.
Proof.
  revert pre. induction us as [|[from data] us IH]; intros pre; [done|].
  unfold payload in *. csimpl. rewrite drop_app_length, take_app_length. simpl. f_equal.
  specialize (IH (pre ++ data)). by rewrite length_app, <- app_assoc in IH.
Qed.

Lemma batch_pass_spec es :
  ∃ m', batch_pass demux always always always s es =
          Some (for_peers (claimed_peers s) es ++
                (if (0 <? length (unclaimed (claimed_peers s) es))%nat
                 then [ToBatch (unclaimed (claimed_peers s) es)] else []), m') ∧
        routes_alike (claimed_peers s) m'.
Proof.
  unfold batch_pass. destruct (count_pass_spec es 0 (claimed_peers s) 0 0) as (m' & -> & Hr).
  exists m'. split; [|done]. rewrite !Nat.add_0_l.
  destruct (_ <? _)%nat; [|by rewrite app_nil_r].
  rewrite (unclaimed_alike _ _ es Hr).
  rewrite fill_pass_spec by (rewrite length_replicate; lia).
  cbn [mbind option_bind]. rewrite !take_0, !app_nil_l.
  pose proof (read_layout [] (unclaimed m' es)) as Hrl. rewrite app_nil_l in Hrl.
  change (length (@nil Z)) with 0%nat in Hrl. by rewrite Hrl.
Qed.

End Routing.

(** ** Properties *)

Section Properties.
Context {A : Type} `{Countable A}.


(** A peer relinquished through its handle keeps its address.  The handle's
    [relinquish] closes the peer but leaves its entry in [claimed_peers], which
    only goes when a datagram of that sender arrives; until then a new [claim]
    of the address fails with [address_in_use]. *)
Theorem claim_after_relinquish_fails {CB} {D : Dispatcher CB} demux addr id id' create create' (s : dgram A) (d : disp) :
  claimed_peers s !! addr = None →
  claimed_peers (do_claim demux addr id create s).2 !! addr = Some id →
  let s1 := (do_claim demux addr id create s).2 in
  let s2 := (peer_relinquish demux id s1 d).1 in
  (∃ p, peers s2 !! id = Some p ∧ open_ p = false) ∧
  do_claim demux addr id' create' s2 = (rv_of address_in_use, s2).
Proof.
  intros Hn. unfold do_claim at 1 2 3. rewrite Hn.
  destruct demux; [destruct create as [fd|e]|]; simpl; [| congruence |]; intros _;
    unfold peer_relinquish; simpl; rewrite lookup_insert_eq; simpl;
    unfold do_claim; simpl; rewrite !lookup_insert_eq; (split; [by eexists|done]).
Qed.

(** A peer relinquished during a batch overruns the buffer.  The second pass
    reads [open_] again: when a user's thread relinquishes a peer between the two
    passes, its datagram, which the first pass did not count, is copied after
    all, into a buffer and a message array that have no room for it. *)
Theorem relinquish_overruns_batch demux (s : dgram A) a b id x y obs_d :
  on_data_batch_cb s = true → claimed_peers s !! a = Some id → claimed_peers s !! b = None →
  (length y < length x)%nat →
  handle_batch demux (λ _ _, true) obs_d (λ _ _, false) s [(a, x); (b, y)] = None.
Proof.
  intros Hb Ha Hn Hl. unfold handle_batch, batch_pass. rewrite Hb. simpl. rewrite Ha. simpl. rewrite Hn. simpl.
  rewrite Ha. assert (memcpy (replicate (length y) 0) 0 x = None) as ->; [|done].
  unfold memcpy. rewrite length_replicate, (proj2 (Nat.leb_gt _ _)); [done|simpl; lia].
Qed.

End Properties.

(** *** Witnesses *)

(** Sender 1 is claimed by peer 0, which has no connected socket and a handler. *)
Definition demo_dgram : dgram nat :=
  mk_dgram {[1%nat := 0%nat]} {[0%nat := mk_peer true true None]} false true false.

Lemma relinquish_overruns_batch_witness :
  handle_batch false (λ _ _, true) (λ _ _, true) (λ _ _, false) demo_dgram
    [(1%nat, [1; 2; 3]); (2%nat, [4])] = None.
Proof.
  apply (relinquish_overruns_batch false demo_dgram 1%nat 2%nat 0%nat [1; 2; 3] [4] (λ _ _, true));
    try reflexivity. simpl. lia.
Defined.

Lemma claim_after_relinquish_fails_witness :
  let s1 := (do_claim true 7%nat 3%nat (Val 9) demo_dgram).2 in
  let s2 := (peer_relinquish true 3%nat s1 (∅ : gmap Z (Z * nat))).1 in
  do_claim true 7%nat 4%nat (Val 10) s2 = (rv_of address_in_use, s2).
Proof.
  refine (proj2 (claim_after_relinquish_fails true 7%nat 3%nat 4%nat (Val 9) (Val 10) demo_dgram
                   (∅ : gmap Z (Z * nat)) _ _)); reflexivity.
Defined.
