(* ===== verification/Options.v ===== *)
(** * Socket options

    [src/include/socketpp/socket/options.hpp], [src/src/socket/options.cpp] and
    [src/include/socketpp/socket/buf_profile.hpp].

    [SmallVector] models [detail::small_vector] with the lifetime of the objects
    in its inline storage: a slot is constructed or not, and an operation that
    constructs over a live object, or reads or destroys a dead one, is
    undefined.  [Builder] models the option list and its byte encoding, and
    [Apply] the application of the options as a sequence of [setsockopt] calls
    to a kernel that is an argument. *)

From S2P Require Import Prelude Platform Address.

Local Open Scope Z_scope.

(** ** [small_vector] *)

Module SmallVector.
Section SmallVector.
Context {T : Type} (N : nat).

Record small_vector := mk_sv {
  storage_ : list (option T); heap_ : list T; size_ : nat; on_heap_ : bool
}.

Definition sv_empty : small_vector := mk_sv (replicate N None) [] 0 false.

(** Placement new, destructor call and access of slot [i]. *)
Definition construct (i : nat) (x : T) (l : list (option T)) : option (list (option T)) :=
  match l !! i with Some None => Some (<[i := Some x]> l) | _ => None end.
Definition destroy (i : nat) (l : list (option T)) : option (list (option T)) :=
  match l !! i with Some (Some _) => Some (<[i := None]> l) | _ => None end.
Definition ref (i : nat) (l : list (option T)) : option T :=
  match l !! i with Some (Some x) => Some x | _ => None end.

(** The loops over the first slots, from slot [i] on, [n] turns. *)
Fixpoint destroy_loop (n i : nat) (l : list (option T)) : option (list (option T)) :=
  match n with
  | O => Some l
  | S n' => l ← destroy i l; destroy_loop n' (S i) l
  end.

Fixpoint copy_loop (n i : nat) (src dst : list (option T)) : option (list (option T)) :=
  match n with
  | O => Some dst
  | S n' => x ← ref i src; dst ← construct i x dst; copy_loop n' (S i) src dst
  end.

Fixpoint move_loop (n i : nat) (src dst : list (option T)) : option (list (option T) * list (option T)) :=
  match n with
  | O => Some (src, dst)
  | S n' =>
      x ← ref i src; dst ← construct i x dst; src ← destroy i src; move_loop n' (S i) src dst
  end.

Fixpoint spill_loop (n i : nat) (l : list (option T)) (heap : list T) : option (list (option T) * list T) :=
  match n with
  | O => Some (l, heap)
  | S n' => x ← ref i l; l ← destroy i l; spill_loop n' (S i) l (heap ++ [x])
  end.

Definition destroy_inline (v : small_vector) : option (list (option T)) :=
  if negb (on_heap_ v) then destroy_loop (size_ v) 0 (storage_ v) else Some (storage_ v).

(** The destructor: the slots it leaves. *)
Definition sv_destructor (v : small_vector) : option (list (option T)) := destroy_inline v.

Definition clear (v : small_vector) : option small_vector :=
  if on_heap_ v then Some (mk_sv (storage_ v) [] 0 false)
  else l ← destroy_inline v; Some (mk_sv l (heap_ v) 0 false).

Definition spill (v : small_vector) : option small_vector :=
  '(l, heap) ← spill_loop (size_ v) 0 (storage_ v) (heap_ v);
  Some (mk_sv l heap (size_ v) true).

Definition push_back (x : T) (v : small_vector) : option small_vector :=
  if negb (on_heap_ v) && (size_ v <? N)%nat then
    l ← construct (size_ v) x (storage_ v);
    Some (mk_sv l (heap_ v) (S (size_ v)) (on_heap_ v))
  else
    v ← (if negb (on_heap_ v) then spill v else Some v);
    Some (mk_sv (storage_ v) (heap_ v ++ [x]) (S (size_ v)) (on_heap_ v)).

(** Filling an empty vector from another, by copy. *)
Definition copy_from (v o : small_vector) : option small_vector :=
  if on_heap_ o then Some (mk_sv (storage_ v) (heap_ o) (size_ o) true)
  else l ← copy_loop (size_ o) 0 (storage_ o) (storage_ v); Some (mk_sv l (heap_ v) (size_ o) false).

Definition copy_ctor (o : small_vector) : option small_vector := copy_from sv_empty o.
Definition copy_assign (v o : small_vector) : option small_vector := v ← clear v; copy_from v o.

(** And by move; a vector that has been moved from is empty. *)
Definition move_from (v o : small_vector) : option (small_vector * small_vector) :=
  if on_heap_ o
  then Some (mk_sv (storage_ v) (heap_ o) (size_ o) true, mk_sv (storage_ o) [] 0 false)
  else
    '(src, dst) ← move_loop (size_ o) 0 (storage_ o) (storage_ v);
    Some (mk_sv dst (heap_ v) (size_ o) false, mk_sv src (heap_ o) 0 false).

Definition move_ctor (o : small_vector) : option (small_vector * small_vector) := move_from sv_empty o.
Definition move_assign (v o : small_vector) : option (small_vector * small_vector) :=
  v ← clear v; move_from v o.

(** The elements from [begin()] to [end()]. *)
Definition elements (v : small_vector) : option (list T) :=
  if on_heap_ v then (if (length (heap_ v) =? size_ v)%nat then Some (heap_ v) else None)
  else mapM (λ i, ref i (storage_ v)) (seq 0 (size_ v)).

(** *** The list a vector stands for *)

Definition inline_slots (l : list T) : list (option T) := (Some <$> l) ++ replicate (N - length l) None.

Definition repr (v : small_vector) (l : list T) : Prop :=
  (v = mk_sv (inline_slots l) [] (length l) false ∧ (length l ≤ N)%nat) ∨
  v = mk_sv (replicate N None) l (length l) true.

Lemma lookup_mid (a b : list (option T)) i x : length a = i → (a ++ x :: b) !! i = Some x.
Proof. intros <-. apply list_lookup_middle. done. Qed.

Lemma insert_mid (a b : list (option T)) i x y : length a = i → <[i := y]> (a ++ x :: b) = a ++ y :: b.
Proof. intros <-. rewrite insert_app_r_alt by lia. by rewrite Nat.sub_diag. Qed.

Lemma replicate_snoc {B} n (x : B) l : replicate n x ++ x :: l = replicate (S n) x ++ l.
Proof. induction n; simpl; [done|]. by f_equal. Qed.

Lemma destroy_loop_spec l i rest :
  destroy_loop (length l) i (replicate i None ++ (Some <$> l) ++ rest) =
  Some (replicate (i + length l) None ++ rest).
Proof.
  revert i. induction l as [|x l IH]; intros i; csimpl; [by rewrite Nat.add_0_r|].
  unfold destroy. rewrite lookup_mid by apply length_replicate. simpl.
  rewrite insert_mid by apply length_replicate. rewrite replicate_snoc, IH. do 3 f_equal. lia.
Qed.

Lemma copy_loop_spec (l : list T) pre rest n :
  (length l ≤ n)%nat →
  copy_loop (length l) (length pre) ((Some <$> pre) ++ (Some <$> l) ++ rest)
    ((Some <$> pre) ++ replicate n None) =
  Some ((Some <$> pre ++ l) ++ replicate (n - length l) None).
Proof.
  revert pre n. induction l as [|x l IH]; intros pre n Hn; csimpl.
  { by rewrite app_nil_r, Nat.sub_0_r. }
  unfold ref at 1, construct at 1. rewrite lookup_mid by apply length_fmap. simpl.
  destruct n as [|n]; simpl in *; [lia|]. rewrite lookup_mid by apply length_fmap. simpl.
  rewrite insert_mid by apply length_fmap.
  specialize (IH (pre ++ [x]) n ltac:(lia)). rewrite length_app, fmap_app in IH. simpl in IH.
  rewrite <- !app_assoc in IH. simpl in IH. rewrite Nat.add_1_r in IH. rewrite IH.
  done.
Qed.

Lemma move_loop_spec (l : list T) pre rest n :
  (length l ≤ n)%nat →
  move_loop (length l) (length pre) (replicate (length pre) None ++ (Some <$> l) ++ rest)
    ((Some <$> pre) ++ replicate n None) =
  Some (replicate (length pre + length l) None ++ rest,
        (Some <$> pre ++ l) ++ replicate (n - length l) None).
Proof.
  revert pre n. induction l as [|x l IH]; intros pre n Hn; csimpl.
  { by rewrite app_nil_r, Nat.sub_0_r, Nat.add_0_r. }
  unfold ref at 1, construct at 1, destroy at 1. rewrite lookup_mid by apply length_replicate. simpl.
  destruct n as [|n]; simpl in *; [lia|]. rewrite lookup_mid by apply length_fmap. simpl.
  rewrite !insert_mid by (apply length_replicate || apply length_fmap).
  specialize (IH (pre ++ [x]) n ltac:(lia)). rewrite length_app, fmap_app in IH. simpl in IH.
  rewrite <- !app_assoc in IH. simpl in IH. rewrite Nat.add_1_r in IH.
  rewrite replicate_snoc. rewrite IH. by rewrite Nat.add_succ_comm.
Qed.

Lemma spill_loop_spec (l : list T) i rest heap :
  spill_loop (length l) i (replicate i None ++ (Some <$> l) ++ rest) heap =
  Some (replicate (i + length l) None ++ rest, heap ++ l).
Proof.
  revert i heap. induction l as [|x l IH]; intros i heap; csimpl.
  { by rewrite app_nil_r, Nat.add_0_r. }
  unfold ref at 1, destroy at 1. rewrite lookup_mid by apply length_replicate. simpl.
  rewrite insert_mid by apply length_replicate. rewrite replicate_snoc, IH.
  rewrite <- app_assoc. simpl. by rewrite <- Nat.add_succ_comm.
Qed.

Lemma inline_gone (l : list T) :
  (length l ≤ N)%nat → replicate (length l) None ++ replicate (N - length l) None = replicate N (@None T).
Proof. intros H. rewrite <- replicate_add. f_equal. lia. Qed.

Lemma destroy_inline_spec v l : repr v l → destroy_inline v = Some (replicate N None).
Proof.
  intros [[-> Hl]| ->]; [|done]. unfold destroy_inline. simpl. unfold inline_slots.
  pose proof (destroy_loop_spec l 0 (replicate (N - length l) None)) as Hd. simpl in Hd.
  rewrite Hd. f_equal. by apply (inline_gone l).
Qed.

Lemma clear_spec v l : repr v l → clear v = Some (mk_sv (replicate N None) [] 0 false).
Proof.
  intros Hr. unfold clear. destruct (on_heap_ v) eqn:E.
  - destruct Hr as [[-> _]| ->]; [done|]. done.
  - rewrite (destroy_inline_spec v l Hr). simpl. destruct Hr as [[-> _]| ->]; done.
Qed.

Lemma repr_empty : repr (mk_sv (replicate N None) [] 0 false) [].
Proof. left. unfold inline_slots. simpl. rewrite Nat.sub_0_r. split; [done|lia]. Qed.

Lemma copy_from_spec o l : repr o l → ∃ v, copy_from sv_empty o = Some v ∧ repr v l.
Proof.
  intros [[-> Hl]| ->]; unfold copy_from; simpl.
  - pose proof (copy_loop_spec l [] (replicate (N - length l) None) N Hl) as Hc. simpl in Hc.
    unfold inline_slots. rewrite Hc. simpl. eexists. split; [done|]. by left.
  - eexists. split; [done|]. by right.
Qed.

Lemma move_from_spec o l :
  repr o l → ∃ v o', move_from sv_empty o = Some (v, o') ∧ repr v l ∧ repr o' [].
Proof.
  intros [[-> Hl]| ->]; unfold move_from; simpl.
  - pose proof (move_loop_spec l [] (replicate (N - length l) None) N Hl) as Hm. simpl in Hm.
    unfold inline_slots. rewrite Hm. simpl. eexists _, _. split; [done|]. split; [by left|].
    rewrite (inline_gone l Hl). apply repr_empty.
  - eexists _, _. split; [done|]. split; [by right|apply repr_empty].
Qed.

Lemma push_back_spec v l x : repr v l → ∃ v', push_back x v = Some v' ∧ repr v' (l ++ [x]).
Proof.
  intros [[-> Hl]| ->]; unfold push_back; simpl.
  - destruct (Nat.ltb_spec (length l) N) as [Hlt|Hge].
    + unfold inline_slots. replace (N - length l)%nat with (S (N - S (length l))) by lia. simpl.
      unfold construct. rewrite lookup_mid by apply length_fmap. simpl.
      rewrite insert_mid by apply length_fmap. eexists. split; [done|]. left.
      unfold inline_slots. rewrite length_app, fmap_app, <- app_assoc. simpl.
      rewrite !Nat.add_1_r. split; [done|lia].
    + unfold spill. simpl. unfold inline_slots.
      pose proof (spill_loop_spec l 0 (replicate (N - length l) None) []) as Hsp. simpl in Hsp.
      rewrite Hsp. simpl. eexists. split; [done|]. right.
      rewrite (inline_gone l Hl), length_app. simpl. by rewrite Nat.add_1_r.
  - eexists. split; [done|]. right. rewrite length_app. simpl. by rewrite Nat.add_1_r.
Qed.

Lemma elements_spec v l : repr v l → elements v = Some l.
Proof.
  intros [[-> Hl]| ->]; unfold elements; simpl; [|by rewrite Nat.eqb_refl].
  apply mapM_Some. apply Forall2_same_length_lookup_2; [by rewrite length_seq|].
  intros i j x Hj Hx. apply lookup_seq in Hj as [-> _]. unfold ref, inline_slots.
  rewrite lookup_app_l by (rewrite length_fmap; by eapply lookup_lt_Some).
  by rewrite list_lookup_fmap, Nat.add_0_l, Hx.
Qed.

(** C30. [small_vector] is a list.  Whatever mix of inline and heap storage is in
    use, appending, copying, moving, assigning and iterating do to the elements
    what the same operation does to a list; a vector that has been moved from is
    empty and usable; and no operation constructs over a live object, or reads or
    destroys a dead one, nor does destruction leave one alive. *)
Theorem small_vector_refines_list v o l k x :
  repr v l → repr o k →
  repr sv_empty [] ∧ elements v = Some l ∧
  (∃ v', push_back x v = Some v' ∧ repr v' (l ++ [x])) ∧
  (∃ v', copy_ctor o = Some v' ∧ repr v' k) ∧
  (∃ v', copy_assign v o = Some v' ∧ repr v' k) ∧
  (∃ v' o', move_ctor o = Some (v', o') ∧ repr v' k ∧ repr o' []) ∧
  (∃ v' o', move_assign v o = Some (v', o') ∧ repr v' k ∧ repr o' []) ∧
  sv_destructor v = Some (replicate N None).
Proof.
  intros Hv Ho. unfold copy_ctor, copy_assign, move_ctor, move_assign, sv_destructor.
  rewrite (clear_spec v l Hv). cbn [mbind option_bind].
  split_and!; eauto using repr_empty, elements_spec, push_back_spec, copy_from_spec, move_from_spec,
    destroy_inline_spec.
Qed.

End SmallVector.
Arguments small_vector : clear implicits.

Definition three : small_vector nat := default (sv_empty 2)
  (v ← push_back 2 1%nat (sv_empty 2); v ← push_back 2 2%nat v; push_back 2 3%nat v).
Definition single : small_vector nat := default (sv_empty 2) (push_back 2 7%nat (sv_empty 2)).

Lemma small_vector_refines_list_witness :
  on_heap_ three = true ∧ elements three = Some [1; 2; 3]%nat ∧
  ∃ v' o', move_assign three single = Some (v', o') ∧ repr 2 v' [7]%nat ∧ repr 2 o' [].
Proof.
  assert (repr 2 three [1; 2; 3]%nat) as H by (right; reflexivity).
  assert (repr 2 single [7]%nat) as H' by (left; split; [reflexivity|simpl; lia]).
  split; [reflexivity|]. split; [reflexivity|].
  apply (small_vector_refines_list 2 three single [1; 2; 3]%nat [7]%nat 4%nat H H').
Defined.

End SmallVector.

(** ** The builder *)

Inductive socket_option_id :=
| reuse_addr | reuse_port | exclusive_addr | recv_buf | send_buf | tcp_nodelay | tcp_cork
| tcp_notsent_lowat | tcp_user_timeout | tcp_fastopen | tcp_defer_accept | keep_alive
| keep_alive_idle | keep_alive_interval | keep_alive_count | linger_opt | ipv6_only | ip_tos
| broadcast | multicast_join | multicast_leave | multicast_ttl | multicast_loop
| multicast_ttl_v6 | multicast_loop_v6 | multicast_if | multicast_if_v6.

#[export] Instance socket_option_id_eq_dec : EqDecision socket_option_id.
Proof. solve_decision. Defined.

Record option_entry := mk_entry {
  oe_id : socket_option_id; oe_data : bytes; platform_available : bool
}.

Record socket_options := mk_options {
  entries_ : SmallVector.small_vector option_entry;
  has_send_buf_ : bool; has_recv_buf_ : bool; has_reuse_addr_ : bool; has_multicast_join_ : bool
}.

Definition inline_count : nat := 16.

Definition options_default : socket_options :=
  mk_options (SmallVector.sv_empty inline_count) false false false false.

(** An [int] and its bytes. *)
Definition to_int32 (z : Z) : Z := let x := u32 z in if x <? 2 ^ 31 then x else x - 2 ^ 32.
Definition int_bytes (v : Z) : bytes := le_bytes 4 (u32 v).
Definition read_int (data : bytes) : Z :=
  if (4 <=? length data)%nat then to_int32 (le_value (take 4 data)) else 0.
Definition of_bool (b : bool) : Z := if b then 1 else 0.

(** [memcpy] of [size()] bytes of an address into 128 zero bytes, and its size
    behind them; [None] when the address claims more bytes than it has. *)
Definition sa_padded (a : sock_address) : bytes :=
  take (Z.to_nat (sa_len_ a)) (sa_storage_ a) ++ zeros (128 - Z.to_nat (sa_len_ a)).
Definition addr_block (a : sock_address) : option bytes :=
  if sa_len_ a <=? 128 then Some (sa_padded a ++ le_bytes 4 (sa_len_ a)) else None.

(** The methods of [socket_options]. *)
Inductive method :=
| MReuseAddr (enable : bool) | MReusePort (enable : bool) | MExclusiveAddr (enable : bool)
| MRecvBuf (n : Z) | MSendBuf (n : Z)
| MNodelay (enable : bool) | MCork (enable : bool) | MNotsentLowat (n : Z) | MUserTimeout (ms : Z)
| MFastopen (n : Z) | MDeferAccept (sec : Z)
| MKeepAlive (enable : bool) | MKeepIdle (sec : Z) | MKeepInterval (sec : Z) | MKeepCount (n : Z)
| MLinger (enable : bool) (sec : Z) | MIpv6Only (enable : bool) | MTos (n : Z) | MBroadcast (enable : bool)
| MJoin (group iface : sock_address) | MLeave (group iface : sock_address)
| MTtl (n : Z) | MLoop (enable : bool) | MTtl6 (n : Z) | MLoop6 (enable : bool)
| MInterface (iface : sock_address) | MInterface6 (index : Z).

Definition push_int (id : socket_option_id) (value : Z) (available : bool) : option option_entry :=
  Some (mk_entry id (int_bytes value) available).

Definition push_multicast (id : socket_option_id) (group iface : sock_address) : option option_entry :=
  g ← addr_block group; i ← addr_block iface; Some (mk_entry id (g ++ i) true).

(** The entry a method appends, on platform [o]. *)
Definition entry_of (o : os) (m : method) : option option_entry :=
  match m with
  | MReuseAddr b => push_int reuse_addr (of_bool b) true
  | MReusePort b => push_int reuse_port (of_bool b) (has_reuseport o)
  | MExclusiveAddr b =>
      match o with
      | Windows => push_int exclusive_addr (of_bool b) true
      | _ => push_int exclusive_addr 0 false
      end
  | MRecvBuf n => push_int recv_buf n true
  | MSendBuf n => push_int send_buf n true
  | MNodelay b => push_int tcp_nodelay (of_bool b) true
  | MCork b => push_int tcp_cork (of_bool b) (has_tcp_cork o)
  | MNotsentLowat n => push_int tcp_notsent_lowat n (has_tcp_notsent_lowat o)
  | MUserTimeout ms => push_int tcp_user_timeout (to_int32 ms) (has_tcp_user_timeout o)
  | MFastopen n => push_int tcp_fastopen n (has_tcp_fastopen o)
  | MDeferAccept t => push_int tcp_defer_accept (to_int32 t) (has_tcp_defer_accept o)
  | MKeepAlive b => push_int keep_alive (of_bool b) true
  | MKeepIdle t => push_int keep_alive_idle (to_int32 t) true
  | MKeepInterval t => push_int keep_alive_interval (to_int32 t) true
  | MKeepCount n =>
      match o with
      | Windows => push_int keep_alive_count 0 false
      | _ => push_int keep_alive_count n true
      end
  | MLinger b t => Some (mk_entry linger_opt (int_bytes (of_bool b) ++ int_bytes t) true)
  | MIpv6Only b => push_int ipv6_only (of_bool b) true
  | MTos n => push_int ip_tos n true
  | MBroadcast b => push_int broadcast (of_bool b) true
  | MJoin g i => push_multicast multicast_join g i
  | MLeave g i => push_multicast multicast_leave g i
  | MTtl n => push_int multicast_ttl n true
  | MLoop b => push_int multicast_loop (of_bool b) true
  | MTtl6 n => push_int multicast_ttl_v6 n true
  | MLoop6 b => push_int multicast_loop_v6 (of_bool b) true
  | MInterface i => d ← addr_block i; Some (mk_entry multicast_if d true)
  | MInterface6 n => Some (mk_entry multicast_if_v6 (le_bytes 4 (u32 n)) true)
  end.

Definition call_method (o : os) (m : method) (so : socket_options) : option socket_options :=
  e ← entry_of o m;
  v ← SmallVector.push_back inline_count e (entries_ so);
  Some (mk_options v
          (match m with MSendBuf _ => true | _ => has_send_buf_ so end)
          (match m with MRecvBuf _ => true | _ => has_recv_buf_ so end)
          (match m with MReuseAddr _ => true | _ => has_reuse_addr_ so end)
          (match m with MJoin _ _ => true | _ => has_multicast_join_ so end)).

(** A chain of calls; [buf_profile] is [MSendBuf] and [MRecvBuf]. *)
Fixpoint build (o : os) (ms : list method) (so : socket_options) : option socket_options :=
  match ms with
  | [] => Some so
  | m :: ms' => so ← call_method o m so; build o ms' so
  end.

(** The presets of [buf_profile], and [from_bdp] of the integer part of the
    product; the conversion of a product outside [int] is undefined. *)
Definition localhost : Z * Z := (262144, 262144).
Definition lan : Z * Z := (524288, 524288).
Definition wan : Z * Z := (1048576, 1048576).
Definition high_bdp : Z * Z := (4194304, 4194304).
Definition from_bdp (product : Z) : option (Z * Z) :=
  if (- 2 ^ 31 <=? product) && (product <? 2 ^ 31) then
    let size := if product <? 4096 then 4096 else product in
    let size := if 16777216 <? size then 16777216 else size in
    Some (size, size)
  else None.
Definition profile_methods (p : Z * Z) : list method := [MSendBuf p.1; MRecvBuf p.2].

(** ** Applying the options *)

Inductive level := SOL_SOCKET | IPPROTO_TCP | IPPROTO_IP | IPPROTO_IPV6.

Inductive optname :=
| SO_REUSEADDR | SO_REUSEPORT | SO_EXCLUSIVEADDRUSE | SO_RCVBUF | SO_SNDBUF | SO_KEEPALIVE
| SO_LINGER | SO_BROADCAST
| TCP_NODELAY | TCP_CORK | TCP_NOPUSH | TCP_NOTSENT_LOWAT | TCP_USER_TIMEOUT | TCP_FASTOPEN
| TCP_DEFER_ACCEPT | TCP_KEEPIDLE | TCP_KEEPALIVE | TCP_KEEPINTVL | TCP_KEEPCNT
| IPV6_V6ONLY | IP_TOS | IP_ADD_MEMBERSHIP | IP_DROP_MEMBERSHIP | IPV6_JOIN_GROUP | IPV6_LEAVE_GROUP
| IP_MULTICAST_TTL | IP_MULTICAST_LOOP | IPV6_MULTICAST_HOPS | IPV6_MULTICAST_LOOP
| IP_MULTICAST_IF | IPV6_MULTICAST_IF.

(** The calls on one socket: each returns its [errno], or [None] on success,
    and [getsockopt] the value read. *)
Class SockoptKernel (K : Type) := {
  setsockopt : level → optname → bytes → K → option Z * K;
  keepalive_ioctl : bytes → K → option Z * K;
  getsockopt : optname → K → option Z * K
}.

Record apply_result := mk_apply_result { actual_send_buf : Z; actual_recv_buf : Z }.

(** The keep-alive settings [apply_entries] accumulates on Windows. *)
Record win_ka := mk_win_ka {
  win_has_idle : bool; win_idle_sec : Z; win_has_interval : bool; win_interval_sec : Z
}.
Definition win_ka_none : win_ka := mk_win_ka false 0 false 0.

Definition os_switch (o : os) : Z → option errc :=
  match o with
  | Linux => posix_switch linux_errno
  | MacOS => posix_switch macos_errno
  | Windows => windows_switch windows_errno
  end.

(** A field of [struct linger], and a product of [int]s. *)
Definition linger_field (o : os) (v : Z) : bytes :=
  match o with Windows => le_bytes 2 (u16 v) | _ => int_bytes v end.
Definition int_mul (a b : Z) : option Z :=
  if (- 2 ^ 31 <=? a * b) && (a * b <? 2 ^ 31) then Some (a * b) else None.

Definition is_multicast_entry (id : socket_option_id) : bool :=
  match id with multicast_join | multicast_leave => true | _ => false end.

Module Apply.
Section Apply.
Context {K : Type} `{SockoptKernel K} (o : os).

Definition call_result (r : option Z) : result_void :=
  match r with
  | Some e => mk_result_void (normalize_error (os_switch o) (last_socket_error e))
  | None => rv_ok
  end.

Definition set_bytes_opt (l : level) (n : optname) (data : bytes) (k : K) : result_void * K :=
  let '(r, k) := setsockopt l n data k in (call_result r, k).

Definition set_int_opt (l : level) (n : optname) (value : Z) (k : K) : result_void * K :=
  let '(r, k) := setsockopt l n (int_bytes value) k in (call_result r, k).

Definition apply_linger (data : bytes) (k : K) : result_void * K :=
  let vals :=
    if (8 <=? length data)%nat then (read_int (take 4 data), read_int (get 4 4 data)) else (0, 0) in
  set_bytes_opt SOL_SOCKET SO_LINGER (linger_field o vals.1 ++ linger_field o vals.2) k.

Definition addr_block_size : nat := 132.

Definition apply_multicast (id : socket_option_id) (data : bytes) (k : K) : result_void * K :=
  if (length data <? addr_block_size * 2)%nat then (rv_of invalid_state, k)
  else
    let group_sa := data in
    let iface_sa := drop addr_block_size data in
    let join := bool_decide (id = multicast_join) in
    if sa_family o group_sa =? AF_INET then
      set_bytes_opt IPPROTO_IP (if join then IP_ADD_MEMBERSHIP else IP_DROP_MEMBERSHIP)
        (sin_addr group_sa ++ sin_addr iface_sa) k
    else if sa_family o group_sa =? AF_INET6 o then
      set_bytes_opt IPPROTO_IPV6 (if join then IPV6_JOIN_GROUP else IPV6_LEAVE_GROUP)
        (sin6_addr group_sa ++ sin6_scope_id iface_sa) k
    else (rv_of invalid_state, k).

Definition apply_tcp_defer_accept (seconds : Z) (k : K) : result_void * K :=
  match o with
  | Linux => set_int_opt IPPROTO_TCP TCP_DEFER_ACCEPT seconds k
  | _ => (rv_of option_not_supported, k)
  end.

(** [None] when a product overflows [int]. *)
Definition apply_windows_keepalive (w : win_ka) (k : K) : option (result_void * K) :=
  idle ← (if win_has_idle w then int_mul (win_idle_sec w) 1000 else Some 7200000);
  interval ← (if win_has_interval w then int_mul (win_interval_sec w) 1000 else Some 1000);
  let ka := int_bytes 1 ++ int_bytes idle ++ int_bytes interval in
  let '(r, k) := keepalive_ioctl ka k in
  Some (call_result r, k).

Definition apply_multicast_if (data : bytes) (k : K) : result_void * K :=
  if (length data <? addr_block_size)%nat then (rv_of invalid_state, k)
  else set_bytes_opt IPPROTO_IP IP_MULTICAST_IF (sin_addr data) k.

Definition apply_multicast_if_v6 (data : bytes) (k : K) : result_void * K :=
  if (length data <? 4)%nat then (rv_of invalid_state, k)
  else set_int_opt IPPROTO_IPV6 IPV6_MULTICAST_IF (to_int32 (le_value (take 4 data))) k.

(** The [switch] of [apply_entries]. *)
Definition apply_entry (e : option_entry) (w : win_ka) (k : K) : result_void * win_ka * K :=
  let val := read_int (oe_data e) in
  let int l n := let '(r, k) := set_int_opt l n val k in (r, w, k) in
  let call f := let '(r, k) := f k in (r, w, k) in
  let unsupported := (rv_of option_not_supported, w, k) in
  match oe_id e with
  | reuse_addr => int SOL_SOCKET SO_REUSEADDR
  | reuse_port => match o with Linux | MacOS => int SOL_SOCKET SO_REUSEPORT | Windows => unsupported end
  | exclusive_addr => match o with Windows => int SOL_SOCKET SO_EXCLUSIVEADDRUSE | _ => unsupported end
  | recv_buf => int SOL_SOCKET SO_RCVBUF
  | send_buf => int SOL_SOCKET SO_SNDBUF
  | tcp_nodelay => int IPPROTO_TCP TCP_NODELAY
  | tcp_cork =>
      match o with
      | Linux => int IPPROTO_TCP TCP_CORK
      | MacOS => int IPPROTO_TCP TCP_NOPUSH
      | Windows => unsupported
      end
  | tcp_notsent_lowat =>
      match o with Linux | MacOS => int IPPROTO_TCP TCP_NOTSENT_LOWAT | Windows => unsupported end
  | tcp_user_timeout => match o with Linux => int IPPROTO_TCP TCP_USER_TIMEOUT | _ => unsupported end
  | tcp_fastopen =>
      match o with
      | Linux | MacOS => int IPPROTO_TCP TCP_FASTOPEN
      | Windows => call (set_int_opt IPPROTO_TCP TCP_FASTOPEN 1)
      end
  | tcp_defer_accept => call (apply_tcp_defer_accept val)
  | keep_alive => int SOL_SOCKET SO_KEEPALIVE
  | keep_alive_idle =>
      match o with
      | Linux => int IPPROTO_TCP TCP_KEEPIDLE
      | MacOS => int IPPROTO_TCP TCP_KEEPALIVE
      | Windows => (rv_ok, mk_win_ka true val (win_has_interval w) (win_interval_sec w), k)
      end
  | keep_alive_interval =>
      match o with
      | Linux | MacOS => int IPPROTO_TCP TCP_KEEPINTVL
      | Windows => (rv_ok, mk_win_ka (win_has_idle w) (win_idle_sec w) true val, k)
      end
  | keep_alive_count => match o with Linux | MacOS => int IPPROTO_TCP TCP_KEEPCNT | Windows => unsupported end
  | linger_opt => call (apply_linger (oe_data e))
  | ipv6_only => int IPPROTO_IPV6 IPV6_V6ONLY
  | ip_tos => int IPPROTO_IP IP_TOS
  | broadcast => int SOL_SOCKET SO_BROADCAST
  | multicast_join | multicast_leave => call (apply_multicast (oe_id e) (oe_data e))
  | multicast_ttl => int IPPROTO_IP IP_MULTICAST_TTL
  | multicast_loop => int IPPROTO_IP IP_MULTICAST_LOOP
  | multicast_ttl_v6 => int IPPROTO_IPV6 IPV6_MULTICAST_HOPS
  | multicast_loop_v6 => int IPPROTO_IPV6 IPV6_MULTICAST_LOOP
  | multicast_if => call (apply_multicast_if (oe_data e))
  | multicast_if_v6 => call (apply_multicast_if_v6 (oe_data e))
  end.

(** The loop: the error it returns early with, if any. *)
Fixpoint apply_loop (skip_multicast : bool) (es : list option_entry) (w : win_ka) (k : K)
  : option error_code * win_ka * K :=
  match es with
  | [] => (None, w, k)
  | e :: es' =>
      if skip_multicast && is_multicast_entry (oe_id e) then apply_loop skip_multicast es' w k
      else if negb (platform_available e) then (Some (make_error_code option_not_supported), w, k)
      else
        let '(rc, w, k) := apply_entry e w k in
        if rv_bool rc then apply_loop skip_multicast es' w k else (Some (rv_error rc), w, k)
  end.

Definition read_buf (wanted : bool) (n : optname) (k : K) : Z * K :=
  if wanted then let '(r, k) := getsockopt n k in (default 0 r, k) else (0, k).

Definition apply_entries (so : socket_options) (skip_multicast : bool) (k : K)
  : option (result apply_result * K) :=
  es ← SmallVector.elements (entries_ so);
  let '(early, w, k) := apply_loop skip_multicast es win_ka_none k in
  match early with
  | Some e => Some (Err e, k)
  | None =>
      '(rc, k) ← (match o with
                  | Windows =>
                      if win_has_idle w || win_has_interval w then apply_windows_keepalive w k
                      else Some (rv_ok, k)
                  | _ => Some (rv_ok, k)
                  end);
      if negb (rv_bool rc) then Some (Err (rv_error rc), k)
      else
        let '(send, k) := read_buf (has_send_buf_ so) SO_SNDBUF k in
        let '(recv, k) := read_buf (has_recv_buf_ so) SO_RCVBUF k in
        Some (Val (mk_apply_result send recv), k)
  end.

Definition apply_to (so : socket_options) (k : K) : option (result apply_result * K) :=
  apply_entries so false k.
Definition apply_pre_bind (so : socket_options) (k : K) : option (result apply_result * K) :=
  apply_entries so true k.

Fixpoint post_bind_loop (es : list option_entry) (k : K) : result_void * K :=
  match es with
  | [] => (rv_ok, k)
  | e :: es' =>
      if negb (is_multicast_entry (oe_id e)) then post_bind_loop es' k
      else if negb (platform_available e) then (rv_of option_not_supported, k)
      else
        let '(rc, k) := apply_multicast (oe_id e) (oe_data e) k in
        if rv_bool rc then post_bind_loop es' k else (mk_result_void (rv_error rc), k)
  end.

Definition apply_post_bind (so : socket_options) (k : K) : option (result_void * K) :=
  es ← SmallVector.elements (entries_ so); Some (post_bind_loop es k).

Fixpoint leave_loop (es : list option_entry) (k : K) : result_void * K :=
  match es with
  | [] => (rv_ok, k)
  | e :: es' =>
      if bool_decide (oe_id e ≠ multicast_join) then leave_loop es' k
      else
        let '(rc, k) := apply_multicast multicast_leave (oe_data e) k in
        if rv_bool rc then leave_loop es' k else (mk_result_void (rv_error rc), k)
  end.

Definition leave_all_multicast (so : socket_options) (k : K) : option (result_void * K) :=
  es ← SmallVector.elements (entries_ so); Some (leave_loop es k).

(** *** What the calls should be *)

Inductive action :=
| ASet (l : level) (n : optname) (data : bytes)
| AKeepalive (data : bytes)
| AFail (e : errc).

Definition failure (rc : result_void) : option error_code :=
  if rv_bool rc then None else Some (rv_error rc).

(** A list of actions, up to the first failure. *)
Fixpoint run (acts : list action) (k : K) : option error_code * K :=
  match acts with
  | [] => (None, k)
  | AFail e :: _ => (Some (make_error_code e), k)
  | ASet l n data :: acts' =>
      let '(r, k) := setsockopt l n data k in
      if rv_bool (call_result r) then run acts' k else (Some (rv_error (call_result r)), k)
  | AKeepalive data :: acts' =>
      let '(r, k) := keepalive_ioctl data k in
      if rv_bool (call_result r) then run acts' k else (Some (rv_error (call_result r)), k)
  end.

Definition membership (join : bool) (g i : sock_address) : list action :=
  if is_v4 o g then
    [ASet IPPROTO_IP (if join then IP_ADD_MEMBERSHIP else IP_DROP_MEMBERSHIP)
       (sin_addr (sa_storage_ g) ++ sin_addr (sa_storage_ i))]
  else if is_v6 o g then
    [ASet IPPROTO_IPV6 (if join then IPV6_JOIN_GROUP else IPV6_LEAVE_GROUP)
       (sin6_addr (sa_storage_ g) ++ sin6_scope_id (sa_storage_ i))]
  else [AFail invalid_state].

Definition int_call (l : level) (n : optname) (v : Z) : list action := [ASet l n (int_bytes v)].
Definition missing : list action := [AFail option_not_supported].

(** The calls a method of the builder stands for. *)
Definition method_calls (m : method) : list action :=
  match m, o with
  | MReuseAddr b, _ => int_call SOL_SOCKET SO_REUSEADDR (of_bool b)
  | MReusePort b, (Linux | MacOS) => int_call SOL_SOCKET SO_REUSEPORT (of_bool b)
  | MExclusiveAddr b, Windows => int_call SOL_SOCKET SO_EXCLUSIVEADDRUSE (of_bool b)
  | MRecvBuf n, _ => int_call SOL_SOCKET SO_RCVBUF n
  | MSendBuf n, _ => int_call SOL_SOCKET SO_SNDBUF n
  | MNodelay b, _ => int_call IPPROTO_TCP TCP_NODELAY (of_bool b)
  | MCork b, Linux => int_call IPPROTO_TCP TCP_CORK (of_bool b)
  | MCork b, MacOS => int_call IPPROTO_TCP TCP_NOPUSH (of_bool b)
  | MNotsentLowat n, (Linux | MacOS) => int_call IPPROTO_TCP TCP_NOTSENT_LOWAT n
  | MUserTimeout t, Linux => int_call IPPROTO_TCP TCP_USER_TIMEOUT t
  | MFastopen n, (Linux | MacOS) => int_call IPPROTO_TCP TCP_FASTOPEN n
  | MFastopen _, Windows => int_call IPPROTO_TCP TCP_FASTOPEN 1
  | MDeferAccept t, Linux => int_call IPPROTO_TCP TCP_DEFER_ACCEPT t
  | MKeepAlive b, _ => int_call SOL_SOCKET SO_KEEPALIVE (of_bool b)
  | MKeepIdle t, Linux => int_call IPPROTO_TCP TCP_KEEPIDLE t
  | MKeepIdle t, MacOS => int_call IPPROTO_TCP TCP_KEEPALIVE t
  | MKeepInterval t, (Linux | MacOS) => int_call IPPROTO_TCP TCP_KEEPINTVL t
  | (MKeepIdle _ | MKeepInterval _), Windows => []
  | MKeepCount n, (Linux | MacOS) => int_call IPPROTO_TCP TCP_KEEPCNT n
  | MLinger b t, _ => [ASet SOL_SOCKET SO_LINGER (linger_field o (of_bool b) ++ linger_field o t)]
  | MIpv6Only b, _ => int_call IPPROTO_IPV6 IPV6_V6ONLY (of_bool b)
  | MTos n, _ => int_call IPPROTO_IP IP_TOS n
  | MBroadcast b, _ => int_call SOL_SOCKET SO_BROADCAST (of_bool b)
  | MJoin g i, _ => membership true g i
  | MLeave g i, _ => membership false g i
  | MTtl n, _ => int_call IPPROTO_IP IP_MULTICAST_TTL n
  | MLoop b, _ => int_call IPPROTO_IP IP_MULTICAST_LOOP (of_bool b)
  | MTtl6 n, _ => int_call IPPROTO_IPV6 IPV6_MULTICAST_HOPS n
  | MLoop6 b, _ => int_call IPPROTO_IPV6 IPV6_MULTICAST_LOOP (of_bool b)
  | MInterface i, _ => [ASet IPPROTO_IP IP_MULTICAST_IF (sin_addr (sa_storage_ i))]
  | MInterface6 n, _ => [ASet IPPROTO_IPV6 IPV6_MULTICAST_IF (le_bytes 4 n)]
  | _, _ => missing
  end.

Definition is_membership (m : method) : bool :=
  match m with MJoin _ _ | MLeave _ _ => true | _ => false end.

(** The last value given by a method. *)
Definition latest (f : method → option Z) (ms : list method) : option Z :=
  foldl (λ acc m, match f m with Some t => Some t | None => acc end) None ms.
Definition idle_of (m : method) : option Z := match m with MKeepIdle t => Some t | _ => None end.
Definition interval_of (m : method) : option Z := match m with MKeepInterval t => Some t | _ => None end.

(** On Windows both keep-alive times go in one call at the end, in milliseconds,
    with a default for the one that was not given. *)
Definition keepalive_calls (ms : list method) : list action :=
  match o, latest idle_of ms, latest interval_of ms with
  | Windows, None, None => []
  | Windows, idle, interval =>
      [AKeepalive (int_bytes 1 ++ int_bytes (default 7200 idle * 1000) ++
                   int_bytes (default 1 interval * 1000))]
  | _, _, _ => []
  end.

Definition wants_send (ms : list method) : bool :=
  existsb (λ m, match m with MSendBuf _ => true | _ => false end) ms.
Definition wants_recv (ms : list method) : bool :=
  existsb (λ m, match m with MRecvBuf _ => true | _ => false end) ms.

(** The calls, then the buffer sizes read back. *)
Definition applied (ms : list method) (acts : list action) (k : K) : result apply_result * K :=
  let '(e, k) := run acts k in
  match e with
  | Some e => (Err e, k)
  | None =>
      let '(send, k) := read_buf (wants_send ms) SO_SNDBUF k in
      let '(recv, k) := read_buf (wants_recv ms) SO_RCVBUF k in
      (Val (mk_apply_result send recv), k)
  end.

Definition int32 (z : Z) : Prop := - 2 ^ 31 ≤ z < 2 ^ 31.

(** Addresses with nothing behind their size, as the constructors make them. *)
Definition addr_ok (a : sock_address) : Prop :=
  length (sa_storage_ a) = 128%nat ∧ 0 ≤ sa_len_ a ≤ 128 ∧ sa_padded a = sa_storage_ a.

Definition method_ok (m : method) : Prop :=
  match m with
  | MRecvBuf n | MSendBuf n | MNotsentLowat n | MUserTimeout n | MFastopen n | MDeferAccept n
  | MKeepCount n | MLinger _ n | MTos n | MTtl n | MTtl6 n => int32 n
  | MKeepIdle t | MKeepInterval t => int32 t ∧ (o = Windows → int32 (t * 1000))
  | MJoin g i | MLeave g i => addr_ok g ∧ addr_ok i
  | MInterface i => addr_ok i
  | MInterface6 n => in_width 32 n
  | _ => True
  end.

(** *** The encoding *)

Lemma to_int32_id z : int32 z → to_int32 z = z.
Proof.
  unfold int32, to_int32, wrap. intros Hz. destruct (Z.ltb_spec (z mod 2 ^ 32) (2 ^ 31)) as [Hlt|Hge].
  - destruct (Z.leb_spec 0 z); [rewrite Z.mod_small; lia|].
    rewrite <- (Z.mod_add z 1), Z.mod_small in Hlt; lia.
  - destruct (Z.leb_spec 0 z); [rewrite Z.mod_small in Hge; lia|].
    rewrite <- (Z.mod_add z 1), Z.mod_small; lia.
Qed.

Lemma to_int32_u32 z : to_int32 (u32 z) = to_int32 z.
Proof. unfold to_int32, wrap. by rewrite Z.mod_mod. Qed.

Lemma u32_to_int32 z : u32 (to_int32 z) = u32 z.
Proof.
  unfold to_int32, wrap. destruct (_ <? _); [by rewrite Z.mod_mod|].
  rewrite <- (Z.mod_add _ 1) by lia. replace (z mod 2 ^ 32 - 2 ^ 32 + 1 * 2 ^ 32) with (z mod 2 ^ 32) by lia.
  by rewrite Z.mod_mod.
Qed.

Lemma read_int_bytes v rest : int32 v → read_int (int_bytes v ++ rest) = v.
Proof.
  intros Hv. unfold read_int, int_bytes. rewrite length_app, length_le_bytes.
  rewrite take_app_length' by (by rewrite length_le_bytes). cbn [Nat.leb Nat.add].
  rewrite le_value_bytes by (apply wrap_in_width; lia). rewrite to_int32_u32. by apply to_int32_id.
Qed.

Lemma get_app_l off n (a b : bytes) : (off + n ≤ length a)%nat → get off n (a ++ b) = get off n a.
Proof. intros Hl. unfold get. rewrite drop_app_le, take_app_le; [done|rewrite length_drop|]; lia. Qed.

Lemma addr_block_ok a :
  addr_ok a → addr_block a = Some (sa_storage_ a ++ le_bytes 4 (sa_len_ a)).
Proof.
  intros (_ & Hlen & Hpad). unfold addr_block. rewrite (proj2 (Z.leb_le _ _)) by lia. by rewrite Hpad.
Qed.

Lemma sa_family_prefix (a b : bytes) : (2 ≤ length a)%nat → sa_family o (a ++ b) = sa_family o a.
Proof. intros Ha. unfold sa_family. destruct o; by rewrite get_app_l by lia. Qed.

(** What [apply_multicast] does with the block [push_multicast] builds. *)
Definition multicast_data (g i : sock_address) : bytes :=
  sa_storage_ g ++ le_bytes 4 (sa_len_ g) ++ sa_storage_ i ++ le_bytes 4 (sa_len_ i).

Lemma push_multicast_ok e g i :
  addr_ok g → addr_ok i → push_multicast e g i = Some (mk_entry e (multicast_data g i) true).
Proof.
  intros Hg Hi. unfold push_multicast, multicast_data. rewrite !addr_block_ok by done. simpl.
  by rewrite <- app_assoc.
Qed.

Lemma apply_multicast_run id join g i k :
  join = bool_decide (id = multicast_join) → addr_ok g → addr_ok i →
  let '(rc, k') := apply_multicast id (multicast_data g i) k in
  run (membership join g i) k = (failure rc, k').
Proof.
  intros -> Hg Hi. unfold multicast_data.
  destruct Hg as [Hg _], Hi as [Hi _]. unfold apply_multicast, membership, is_v4, is_v6.
  rewrite (proj2 (Nat.ltb_ge _ _)) by (rewrite !length_app, !length_le_bytes; simpl; lia).
  rewrite sa_family_prefix by lia.
  unfold sin_addr, sin6_addr, sin6_scope_id. rewrite (app_assoc (sa_storage_ g)).
  rewrite drop_app_length' by (rewrite length_app, length_le_bytes, Hg; done).
  rewrite <- app_assoc, !get_app_l by lia. unfold set_bytes_opt.
  destruct (_ =? AF_INET); [simpl; destruct (setsockopt _ _ _ _); unfold failure; simpl; by case_match|].
  destruct (_ =? AF_INET6 o); [simpl; destruct (setsockopt _ _ _ _); unfold failure; simpl; by case_match|done].
Qed.

Definition win_step (m : method) (w : win_ka) : win_ka :=
  match o, m with
  | Windows, MKeepIdle t => mk_win_ka true t (win_has_interval w) (win_interval_sec w)
  | Windows, MKeepInterval t => mk_win_ka (win_has_idle w) (win_idle_sec w) true t
  | _, _ => w
  end.

Lemma set_int_run l n v k :
  let '(rc, k') := set_int_opt l n v k in
  run (int_call l n v) k = (failure rc, k').
Proof. unfold set_int_opt, int_call. simpl. destruct (setsockopt _ _ _ _). unfold failure. simpl. by case_match. Qed.

Lemma read_int_of_bool b : read_int (int_bytes (of_bool b)) = of_bool b.
Proof. by destruct b. Qed.

Lemma read_int_exact v : int32 v → read_int (int_bytes v) = v.
Proof. intros Hv. rewrite <- (app_nil_r (int_bytes v)). by apply read_int_bytes. Qed.

(** One turn of the loop, on the entry of a method. *)
Definition entry_step (e : option_entry) (w : win_ka) (k : K) : result_void * win_ka * K :=
  if negb (platform_available e) then (rv_of option_not_supported, w, k) else apply_entry e w k.

Lemma linger_run b t k :
  int32 t →
  let '(rc, k') := apply_linger (int_bytes (of_bool b) ++ int_bytes t) k in
  run (method_calls (MLinger b t)) k = (failure rc, k').
Proof.
  intros Ht. unfold apply_linger.
  assert (∀ v, length (int_bytes v) = 4%nat) as Hlen by (intros; apply length_le_bytes).
  rewrite length_app, !Hlen. cbn [Nat.leb Nat.add fst snd].
  rewrite take_app_length' by done. unfold get. rewrite drop_app_length' by done.
  rewrite take_ge by (by rewrite Hlen). rewrite read_int_of_bool, read_int_exact by done.
  unfold set_bytes_opt. simpl. destruct (setsockopt _ _ _ _). unfold failure. simpl. by case_match.
Qed.

Lemma multicast_if_run i k :
  addr_ok i →
  let '(rc, k') := apply_multicast_if (sa_storage_ i ++ le_bytes 4 (sa_len_ i)) k in
  run (method_calls (MInterface i)) k = (failure rc, k').
Proof.
  intros [Hi _]. unfold apply_multicast_if.
  rewrite (proj2 (Nat.ltb_ge _ _)) by (rewrite length_app, length_le_bytes, Hi; done).
  unfold sin_addr. rewrite get_app_l by lia. unfold set_bytes_opt. simpl.
  destruct (setsockopt _ _ _ _). unfold failure. simpl. by case_match.
Qed.

Lemma multicast_if_v6_run n k :
  in_width 32 n →
  let '(rc, k') := apply_multicast_if_v6 (le_bytes 4 (u32 n)) k in
  run (method_calls (MInterface6 n)) k = (failure rc, k').
Proof.
  intros Hn. unfold apply_multicast_if_v6.
  rewrite length_le_bytes. cbn [Nat.ltb Nat.leb].
  rewrite take_ge by (by rewrite length_le_bytes).
  rewrite le_value_bytes by (apply wrap_in_width; lia). rewrite to_int32_u32.
  unfold set_int_opt, int_bytes. rewrite u32_to_int32, (wrap_id 32 n) by done.
  cbn [method_calls run]. destruct (setsockopt _ _ _ _). unfold failure. simpl. by case_match.
Qed.

(** An entry does what its method stands for. *)
Definition stands_for (m : method) (e : option_entry) : Prop :=
  is_multicast_entry (oe_id e) = is_membership m ∧
  ∀ w k, let '(rc, w', k') := entry_step e w k in
    w' = win_step m w ∧ run (method_calls m) k = (failure rc, k').

Definition entry_faithful (m : method) : Prop := ∃ e, entry_of o m = Some e ∧ stands_for m e.

Lemma int_entry m l n v id :
  int32 v → entry_of o m = push_int id v true → is_multicast_entry id = is_membership m →
  (∀ data w k, apply_entry (mk_entry id data true) w k =
     (let '(r, k) := set_int_opt l n (read_int data) k in (r, w, k))) →
  method_calls m = int_call l n v → (∀ w, win_step m w = w) → entry_faithful m.
Proof.
  intros Hv He Hid Happ Hm Hw. eexists. split; [exact He|]. split; [exact Hid|]. intros w k.
  unfold entry_step. cbn [platform_available negb]. rewrite Happ, Hm, Hw, read_int_exact by done.
  pose proof (set_int_run l n v k) as Hr. by destruct (set_int_opt l n v k).
Qed.

Lemma missing_entry m id v :
  entry_of o m = push_int id v false → is_multicast_entry id = is_membership m →
  method_calls m = missing → (∀ w, win_step m w = w) → entry_faithful m.
Proof. intros He Hid Hm Hw. eexists. split; [exact He|]. split; [exact Hid|]. intros w k. by rewrite Hm, Hw. Qed.

Lemma call_entry m e f :
  entry_of o m = Some e → platform_available e = true → is_multicast_entry (oe_id e) = is_membership m →
  (∀ w k, apply_entry e w k = (let '(r, k) := f k in (r, w, k))) →
  (∀ k, let '(rc, k') := f k in
     run (method_calls m) k = (failure rc, k')) →
  (∀ w, win_step m w = w) → entry_faithful m.
Proof.
  intros He Hav Hid Happ Hrun Hw. exists e. split; [exact He|]. split; [exact Hid|]. intros w k.
  unfold entry_step. rewrite Hav, Hw. cbn [negb]. rewrite Happ. specialize (Hrun k). by destruct (f k).
Qed.

Lemma int32_of_bool b : int32 (of_bool b).
Proof. destruct b; unfold int32; simpl; lia. Qed.

End Apply.

Section Correct.
Context {K : Type} `{SockoptKernel K}.

(** The entries that are one integer, or that the platform lacks. *)
Ltac entry_cases :=
  first [ eapply int_entry; [first [eassumption|apply int32_of_bool]|
            first [reflexivity|simpl; rewrite to_int32_id by eassumption; reflexivity]..]
        | eapply missing_entry; reflexivity ].

Lemma win_keepalive_entry m t :
  m = MKeepIdle t ∨ m = MKeepInterval t → int32 t → entry_faithful Windows m.
Proof.
  intros Hm Ht. destruct Hm; subst; (eexists; split; [reflexivity|]; split; [done|]; intros w k);
  unfold entry_step, apply_entry; simpl platform_available; cbn [negb oe_id oe_data];
  by rewrite (to_int32_id t Ht), read_int_exact.
Qed.

Lemma entry_ok o m : method_ok o m → entry_faithful o m.
Proof.
  destruct m; simpl; intros Hok; try (destruct o; entry_cases).
  - destruct o; [entry_cases..|].
    eapply (call_entry _ _ _ (set_int_opt Windows IPPROTO_TCP TCP_FASTOPEN 1)); [reflexivity..| |reflexivity].
    intros k. apply (set_int_run Windows IPPROTO_TCP TCP_FASTOPEN 1).
  - destruct Hok as [Ht _]. destruct o; [entry_cases..|]. eapply win_keepalive_entry; eauto.
  - destruct Hok as [Ht _]. destruct o; [entry_cases..|]. eapply win_keepalive_entry; eauto.
  - eapply call_entry; [reflexivity..| |by destruct o]. intros k. by apply linger_run.
  - destruct Hok as [Hg Hi].
    eapply call_entry; [by apply push_multicast_ok|reflexivity..| |by destruct o].
    intros k. by apply apply_multicast_run.
  - destruct Hok as [Hg Hi].
    eapply call_entry; [by apply push_multicast_ok|reflexivity..| |by destruct o].
    intros k. by apply apply_multicast_run.
  - eapply call_entry; [simpl; rewrite addr_block_ok by done; reflexivity|reflexivity..| |by destruct o].
    intros k. by apply multicast_if_run.
  - eapply call_entry; [reflexivity..| |by destruct o]. intros k. by apply multicast_if_v6_run.
Qed.

Definition of_latest (a b : option Z) : win_ka :=
  mk_win_ka (match a with Some _ => true | None => false end) (default 0 a)
    (match b with Some _ => true | None => false end) (default 0 b).

Abbreviation upd f := (λ acc m, match f m with Some t => Some t | None => acc end).

Lemma win_fold ms a b :
  foldl (λ w m, win_step Windows m w) (of_latest a b) ms =
  of_latest (foldl (upd idle_of) a ms) (foldl (upd interval_of) b ms).
Proof. revert a b. induction ms as [|m ms IH]; intros a b; [done|]. cbn [foldl]. rewrite <- IH. by destruct m. Qed.

Lemma latest_ok (P : Z → Prop) f ms :
  Forall (λ m, ∀ t, f m = Some t → P t) ms → ∀ t, latest f ms = Some t → P t.
Proof.
  intros Hms. cut (∀ a, (∀ t, a = Some t → P t) → ∀ t, foldl (upd f) a ms = Some t → P t).
  { intros Hc. by apply Hc. }
  induction Hms as [|m ms Hm Hms IH]; intros a Ha; [done|]. simpl. apply IH. by destruct (f m).
Qed.

Lemma int_mul_ok a : int32 (a * 1000) → int_mul a 1000 = Some (a * 1000).
Proof. intros [Hl Hu]. unfold int_mul. by rewrite (proj2 (Z.leb_le _ _)), (proj2 (Z.ltb_lt _ _)). Qed.

Lemma run_app o a b (k : K) :
  run o (a ++ b) k = (let '(x, k') := run o a k in match x with None => run o b k' | e => (e, k') end).
Proof.
  revert k. induction a as [|[l n d|d|e] a IH]; intros k; simpl; [done|..]; [| |done].
  - destruct (setsockopt l n d k). destruct (rv_bool _); [apply IH|done].
  - destruct (keepalive_ioctl d k). destruct (rv_bool _); [apply IH|done].
Qed.

(** The loops, on the entries of a list of methods. *)
Section Loops.
Context (o : os).

Definition selected (skip : bool) (ms : list method) : list method :=
  List.filter (λ m, negb (skip && is_membership m)) ms.

Lemma selected_all ms : selected false ms = ms.
Proof. induction ms as [|m ms IH]; [done|]. exact (f_equal (cons m) IH). Qed.

Lemma apply_loop_ok skip ms es w k :
  Forall2 (stands_for o) ms es →
  let '(x, w', k') := apply_loop o skip es w k in
  run o (flat_map (method_calls o) (selected skip ms)) k = (x, k') ∧
  (x = None → w' = foldl (λ w m, win_step o m w) w ms).
Proof.
  intros Hes. revert w k. induction Hes as [|m e ms es [Hid He] Hes IH]; intros w k; [done|].
  cbn [apply_loop selected List.filter foldl]. rewrite Hid.
  destruct (skip && is_membership m) eqn:Eskip; cbn [negb].
  { assert (win_step o m w = w) as ->; [|apply IH].
    apply andb_true_iff in Eskip as [_ Em]. by destruct o, m. }
  specialize (He w k). unfold entry_step in He. cbn [flat_map]. rewrite run_app.
  destruct (platform_available e); cbn [negb] in He |- *.
  - destruct (apply_entry o e w k) as [[rc w'] k']. destruct He as [-> ->]. unfold failure.
    destruct (rv_bool rc); [|done]. apply IH.
  - destruct He as [_ ->]. done.
Qed.

Lemma post_bind_ok ms es k :
  Forall2 (stands_for o) ms es →
  let '(rc, k') := post_bind_loop o es k in
  run o (flat_map (method_calls o) (List.filter is_membership ms)) k = (failure rc, k').
Proof.
  intros Hes. revert k. induction Hes as [|m e ms es [Hid He] Hes IH]; intros k; [done|].
  cbn [post_bind_loop List.filter]. rewrite Hid. destruct (is_membership m); cbn [negb]; [|apply IH].
  specialize (He win_ka_none k). unfold entry_step in He. cbn [flat_map]. rewrite run_app.
  destruct (platform_available e); cbn [negb] in He |- *; [|by destruct He as [_ ->]].
  assert (apply_entry o e win_ka_none k =
    (let '(r, k) := apply_multicast o (oe_id e) (oe_data e) k in (r, win_ka_none, k))) as Happ.
  { unfold apply_entry. by destruct (oe_id e). }
  rewrite Happ in He. destruct (apply_multicast _ _ _ k) as [rc k']. destruct He as [_ ->].
  unfold failure. destruct (rv_bool rc) eqn:Erc; [apply IH|]. unfold rv_bool in *. simpl. by rewrite Erc.
Qed.

(** The groups joined, left again. *)
Definition leave_calls (m : method) : list action :=
  match m with MJoin g i => membership o false g i | _ => [] end.

Lemma join_entry m e :
  entry_of o m = Some e → (∃ g i, m = MJoin g i) ∨ oe_id e ≠ multicast_join ∧ leave_calls m = [].
Proof.
  destruct m; simpl; unfold push_multicast, push_int; intros He; try (left; by eauto); right;
    (split; [|done]); destruct o; simplify_option_eq; done.
Qed.

Lemma leave_ok ms es k :
  Forall (method_ok o) ms → Forall2 (λ m e, entry_of o m = Some e) ms es →
  let '(rc, k') := leave_loop o es k in run o (flat_map leave_calls ms) k = (failure rc, k').
Proof.
  intros Hms Hes. revert k. induction Hes as [|m e ms es He Hes IH]; intros k; [done|].
  inversion_clear Hms as [|? ? Hm Hms']. specialize (IH Hms'). cbn [leave_loop flat_map].
  destruct (join_entry m e He) as [(g & i & ->)|[Hid ->]]; [|rewrite bool_decide_true by done; apply IH].
  destruct Hm as [Hg Hi]. rewrite run_app. cbn [leave_calls].
  simpl in He. rewrite push_multicast_ok in He by done. injection He as <-. cbn [oe_id oe_data].
  rewrite bool_decide_false by (intros Hne; by apply Hne).
  pose proof (apply_multicast_run o multicast_leave false g i k eq_refl Hg Hi) as Hr.
  destruct (apply_multicast _ _ _ k) as [rc k']. rewrite Hr. unfold failure.
  destruct (rv_bool rc) eqn:Erc; [apply IH|]. unfold rv_bool in *. simpl. by rewrite Erc.
Qed.

Definition sets_reuse_addr (ms : list method) : bool :=
  existsb (λ m, match m with MReuseAddr _ => true | _ => false end) ms.

Lemma build_ok ms so l :
  SmallVector.repr inline_count (entries_ so) l → Forall (method_ok o) ms →
  ∃ so' es, build o ms so = Some so' ∧ SmallVector.repr inline_count (entries_ so') (l ++ es) ∧
    Forall2 (λ m e, entry_of o m = Some e) ms es ∧ Forall2 (stands_for o) ms es ∧
    has_send_buf_ so' = has_send_buf_ so || wants_send ms ∧
    has_recv_buf_ so' = has_recv_buf_ so || wants_recv ms ∧
    has_reuse_addr_ so' = has_reuse_addr_ so || sets_reuse_addr ms.
Proof.
  intros Hl Hms. revert so l Hl. induction Hms as [|m ms Hm Hms IH]; intros so l Hl.
  { exists so, []. rewrite app_nil_r, !orb_false_r. auto 10. }
  destruct (entry_ok o m Hm) as (e & He & Hst). cbn [build]. unfold call_method. rewrite He.
  destruct (SmallVector.push_back_spec _ _ _ e Hl) as (v & Hv & Hr). simpl. rewrite Hv. simpl.
  match goal with |- context [build o ms ?so1] =>
    destruct (IH so1 (l ++ [e]) Hr) as (so' & es & Hb & Hr' & He' & Hst' & Hs & Hrv & Hra) end.
  exists so', (e :: es). rewrite Hb. rewrite <- app_assoc in Hr'. split; [done|]. split; [done|].
  split; [by constructor|]. split; [by constructor|]. rewrite Hs, Hrv, Hra. simpl.
  destruct m; simpl; rewrite ?orb_true_r; auto.
Qed.

(** The keep-alive call that ends [apply_entries]. *)
Lemma keepalive_ok ms k :
  Forall (method_ok o) ms →
  ∃ rc k', run o (keepalive_calls o ms) k = (failure rc, k') ∧
    match o with
    | Windows =>
        let w := foldl (λ w m, win_step o m w) win_ka_none ms in
        if win_has_idle w || win_has_interval w then apply_windows_keepalive o w k else Some (rv_ok, k)
    | _ => Some (rv_ok, k)
    end = Some (rc, k').
Proof.
  intros Hms. destruct o; [by exists rv_ok, k..|].
  pose proof (win_fold ms None None) as Hw. unfold of_latest in Hw at 1. cbn [default] in Hw.
  change (mk_win_ka _ _ _ _) with win_ka_none in Hw. cbv zeta. rewrite Hw.
  assert (∀ t, latest idle_of ms = Some t → int32 (t * 1000)) as Hidle.
  { apply latest_ok. eapply Forall_impl; [exact Hms|]. intros m Hm t Ht. destruct m; simplify_eq/=. by apply Hm. }
  assert (∀ t, latest interval_of ms = Some t → int32 (t * 1000)) as Hint.
  { apply latest_ok. eapply Forall_impl; [exact Hms|]. intros m Hm t Ht. destruct m; simplify_eq/=. by apply Hm. }
  clear Hw Hms. unfold keepalive_calls, latest in *.
  destruct (foldl (upd idle_of) None ms) as [a|], (foldl (upd interval_of) None ms) as [b|];
    unfold apply_windows_keepalive;
    cbn [of_latest win_has_idle win_has_interval win_idle_sec win_interval_sec orb from_option id];
    rewrite ?(int_mul_ok a), ?(int_mul_ok b) by auto; cbn [mbind option_bind run]; [..|by exists rv_ok, k];
    destruct (keepalive_ioctl _ k) as [r k']; exists (call_result Windows r), k'; unfold failure;
    by destruct (rv_bool _).
Qed.

Lemma apply_entries_ok ms es so skip k :
  Forall (method_ok o) ms → Forall2 (stands_for o) ms es →
  SmallVector.elements (entries_ so) = Some es →
  has_send_buf_ so = wants_send ms → has_recv_buf_ so = wants_recv ms →
  apply_entries o so skip k =
  Some (applied o ms (flat_map (method_calls o) (selected skip ms) ++ keepalive_calls o ms) k).
Proof.
  intros Hms Hst Hel Hs Hrv. unfold apply_entries, applied. rewrite Hel, Hs, Hrv, run_app.
  cbn [mbind option_bind].
  pose proof (apply_loop_ok skip ms es win_ka_none k Hst) as Hl.
  destruct (apply_loop o skip es win_ka_none k) as [[x w] k1]. destruct Hl as [-> Hw].
  destruct x as [e|]; [done|]. rewrite (Hw eq_refl).
  destruct (keepalive_ok ms k1 Hms) as (rc & k2 & -> & Hka). cbv zeta in Hka. rewrite Hka. unfold failure.
  simpl. destruct (rv_bool rc); simpl; [|done]. repeat case_match; simplify_eq/=; done.
Qed.

End Loops.

(** C13. Applying the options is making their calls.  A list of calls of the
    builder's methods always builds; [apply_to] then makes, in the order of the
    methods, exactly the [setsockopt] calls they stand for with the values they
    were given (on Windows the keep-alive times in one call at the end), stops at
    the first that fails or that the platform lacks with its error, and reads back
    the buffer sizes that were set; [apply_pre_bind] makes those that are not group
    memberships, [apply_post_bind] those that are, and [leave_all_multicast]
    leaves the groups that were joined. *)
Theorem options_applied o ms k :
  Forall (method_ok o) ms →
  let calls := flat_map (method_calls o) in
  ∃ so, build o ms options_default = Some so ∧
    has_reuse_addr_ so = sets_reuse_addr ms ∧
    apply_to o so k = Some (applied o ms (calls ms ++ keepalive_calls o ms) k) ∧
    apply_pre_bind o so k =
      Some (applied o ms (calls (List.filter (λ m, negb (is_membership m)) ms) ++ keepalive_calls o ms) k) ∧
    (∃ rc k', apply_post_bind o so k = Some (rc, k') ∧
       run o (calls (List.filter is_membership ms)) k = (failure rc, k')) ∧
    (∃ rc k', leave_all_multicast o so k = Some (rc, k') ∧
       run o (flat_map (leave_calls o) ms) k = (failure rc, k')).
Proof.
  intros Hms calls.
  destruct (build_ok o ms options_default [] (SmallVector.repr_empty _) Hms)
    as (so & es & Hb & Hr & He & Hst & Hs & Hrv & Hra).
  exists so. split; [done|]. split; [done|].
  apply SmallVector.elements_spec in Hr. simpl in Hr.
  split; [|split].
  - unfold apply_to. rewrite (apply_entries_ok o ms es) by done. by rewrite selected_all.
  - unfold apply_pre_bind. by rewrite (apply_entries_ok o ms es) by done.
  - unfold apply_post_bind, leave_all_multicast. rewrite Hr. cbn [mbind option_bind].
    pose proof (post_bind_ok o ms es k Hst) as Hpost. pose proof (leave_ok o ms es k Hms He) as Hleave.
    destruct (post_bind_loop o es k), (leave_loop o es k). eauto 10.
Qed.

End Correct.

(** Options made by the builder: applying them returns, and keeps whatever the
    calls keep. *)
Definition built (o : os) (so : socket_options) : Prop :=
  ∃ ms, Forall (method_ok o) ms ∧ build o ms options_default = Some so.

Section Frame.
Context {K : Type} `{SockoptKernel K} (P : K → Prop).
Context (Hset : ∀ l n d k, P k → P (setsockopt l n d k).2).
Context (Hka : ∀ d k, P k → P (keepalive_ioctl d k).2).
Context (Hget : ∀ n k, P k → P (getsockopt n k).2).

Lemma run_frame o acts k : P k → P (run o acts k).2.
Proof.
  revert k. induction acts as [|[l n d|d|e] acts IH]; intros k Hk; simpl; [done|..|done].
  - specialize (Hset l n d k Hk). destruct (setsockopt l n d k). destruct (rv_bool _); [by apply IH|done].
  - specialize (Hka d k Hk). destruct (keepalive_ioctl d k). destruct (rv_bool _); [by apply IH|done].
Qed.

Lemma read_buf_frame b n k : P k → P (read_buf b n k).2.
Proof.
  intros Hk. unfold read_buf. destruct b; [|done]. specialize (Hget n k Hk). by destruct (getsockopt n k).
Qed.

Lemma applied_frame o ms acts k : P k → P (applied o ms acts k).2.
Proof.
  intros Hk. unfold applied. apply (run_frame o acts) in Hk. destruct (run o acts k) as [[e|] k1]; [done|].
  simpl in Hk. apply (read_buf_frame (wants_send ms) SO_SNDBUF) in Hk. destruct (read_buf _ _ k1) as [x k2].
  simpl in Hk. apply (read_buf_frame (wants_recv ms) SO_RCVBUF) in Hk. by destruct (read_buf _ _ k2).
Qed.

Lemma built_inv o so :
  built o so → ∃ ms es, Forall (method_ok o) ms ∧ Forall2 (stands_for o) ms es ∧
    SmallVector.elements (entries_ so) = Some es ∧
    has_send_buf_ so = wants_send ms ∧ has_recv_buf_ so = wants_recv ms.
Proof.
  intros (ms & Hms & Hb).
  destruct (build_ok o ms options_default [] (SmallVector.repr_empty _) Hms)
    as (so' & es & Hb' & Hr & _ & Hst & Hs & Hrv & _).
  rewrite Hb in Hb'. injection Hb' as <-. apply SmallVector.elements_spec in Hr. eauto 10.
Qed.

(** An error that is reported is one. *)
Definition fails_properly (a : action) : Prop := match a with AFail e => e ≠ success | _ => True end.

Lemma calls_fail_properly o ms : Forall fails_properly (flat_map (method_calls o) ms).
Proof.
  induction ms as [|m ms IH]; simpl; [done|]. apply Forall_app. split; [|done].
  destruct m, o; simpl; unfold membership; repeat case_match; by repeat constructor.
Qed.

Lemma keepalive_fails_properly o ms : Forall fails_properly (keepalive_calls o ms).
Proof. unfold keepalive_calls. destruct o, (latest idle_of ms), (latest interval_of ms); by repeat constructor. Qed.

Lemma run_error o acts k e :
  Forall fails_properly acts → (run o acts k).1 = Some e → ec_bool e = true.
Proof.
  intros Hacts. revert k. induction Hacts as [|[l n d|d|err] acts Ha Hacts IH]; intros k; simpl; [done|..].
  - destruct (setsockopt l n d k) as [r k']. destruct (rv_bool _) eqn:Er; [apply IH|]. intros [= <-].
    unfold rv_bool in Er. by apply negb_false_iff in Er.
  - destruct (keepalive_ioctl d k) as [r k']. destruct (rv_bool _) eqn:Er; [apply IH|]. intros [= <-].
    unfold rv_bool in Er. by apply negb_false_iff in Er.
  - intros [= <-]. apply negb_true_iff, Z.eqb_neq. by apply errc_value_nonzero.
Qed.

Lemma apply_entries_frame o so skip k :
  built o so → P k → ∃ r k', apply_entries o so skip k = Some (r, k') ∧ P k' ∧
    ∀ e, r = Err e → ec_bool e = true.
Proof.
  intros (ms & es & Hms & Hst & Hel & Hs & Hrv)%built_inv Hk.
  rewrite (apply_entries_ok o ms es) by done.
  set (acts := flat_map (method_calls o) (selected skip ms) ++ keepalive_calls o ms).
  assert (Forall fails_properly acts) as Hacts.
  { apply Forall_app. split; [apply calls_fail_properly|apply keepalive_fails_properly]. }
  pose proof (applied_frame o ms acts k Hk) as Hk'. pose proof (run_error o acts k) as Herr.
  destruct (applied o ms acts k) as [r k'] eqn:E. exists r, k'. split; [done|]. split; [done|].
  intros e ->. unfold applied in E. destruct (run o acts k) as [[e'|] k1]; simpl in Herr.
  - injection E as -> ->. by apply Herr.
  - by repeat case_match; simplify_eq/=.
Qed.

Lemma post_bind_frame o so k :
  built o so → P k → ∃ r k', apply_post_bind o so k = Some (r, k') ∧ P k'.
Proof.
  intros (ms & es & Hms & Hst & Hel & _)%built_inv Hk. unfold apply_post_bind. rewrite Hel.
  cbn [mbind option_bind]. pose proof (post_bind_ok o ms es k Hst) as Hpost.
  apply (run_frame o (flat_map (method_calls o) (List.filter is_membership ms))) in Hk.
  destruct (post_bind_loop o es k) as [rc k']. rewrite Hpost in Hk. eauto.
Qed.

Lemma apply_multicast_frame o id data k : P k → P (apply_multicast o id data k).2.
Proof.
  intros Hk. unfold apply_multicast, set_bytes_opt. repeat (case_match; simplify_eq/=; try done);
    match goal with H : setsockopt ?l ?n ?d k = _ |- _ => pose proof (Hset l n d k Hk) as Hk'; by rewrite H in Hk' end.
Qed.

Lemma leave_frame o so k :
  built o so → P k → ∃ r k', leave_all_multicast o so k = Some (r, k') ∧ P k'.
Proof.
  intros (ms & es & _ & _ & Hel & _)%built_inv Hk. unfold leave_all_multicast. rewrite Hel.
  cbn [mbind option_bind]. clear Hel.
  assert (∀ k, P k → P (leave_loop o es k).2) as Hl.
  { induction es as [|e es IH]; intros k1 Hk1; simpl; [done|]. case_bool_decide; [by apply IH|].
    pose proof (apply_multicast_frame o multicast_leave (oe_data e) k1 Hk1) as Hk2.
    destruct (apply_multicast _ _ _ k1) as [rc k2]. destruct (rv_bool rc); [by apply IH|done]. }
  specialize (Hl k Hk). destruct (leave_loop o es k) as [r k']. eauto.
Qed.

End Frame.

(** A kernel that records the calls it gets and refuses one of them. *)
#[export] Instance log_kernel : SockoptKernel (list optname) := {|
  setsockopt := λ _ n _ k, (match n with IP_TOS => Some 22 | _ => None end, k ++ [n]);
  keepalive_ioctl := λ _ k, (None, k ++ [SO_KEEPALIVE]);
  getsockopt := λ n k, (Some 425984, k ++ [n])
|}.

Definition group4 : sock_address :=
  default sock_address_default (to_sock4 (inet4_of Linux 0xe0000001 0)).

Lemma options_applied_witness :
  ∃ so, build Linux [MReuseAddr true; MSendBuf (-7); MJoin group4 sock_address_default] options_default = Some so ∧
    apply_pre_bind Linux so [] = Some (Val (mk_apply_result 425984 0), [SO_REUSEADDR; SO_SNDBUF; SO_SNDBUF]).
Proof.
  destruct (options_applied Linux [MReuseAddr true; MSendBuf (-7); MJoin group4 sock_address_default]
    ([] : list optname)) as (so & Hb & _ & _ & Hpre & _).
  - repeat constructor; unfold int32; simpl; lia.
  - exists so. split; [exact Hb|]. exact Hpre.
Defined.

End Apply.
