(* ===== verification/Socket.v ===== *)
(** * Sockets

    [socket] of [src/include/socketpp/socket/socket.hpp] and
    [src/src/socket/socket.cpp], and what makes sockets of it: listeners
    ([src/src/socket/tcp_listener.cpp]), connectors
    ([src/src/socket/tcp_connector.cpp], [src/src/socket/tcp_connect_async.cpp])
    and UDP sockets ([src/src/socket/udp.cpp], opening).

    The system calls belong to a kernel that is an argument; its laws say which
    descriptors a call opens and closes.  Code is written in a state monad over
    the kernel in which [None] is undefined behaviour, and specified by total
    triples on the set of open descriptors. *)

From S2P Require Import Prelude Platform Dispatcher EventLoop Address Options.

Local Open Scope Z_scope.

(** ** The kernel *)

Definition invalid_socket : Z := -1.

Inductive socket_type := sock_stream | sock_dgram.
Inductive shutdown_mode := shut_read | shut_write | shut_both.

(** Calls on a descriptor that return only success or an [errno]. *)
Inductive syscall :=
| CSetsockopt (l : level) (n : optname) (data : bytes)
| CKeepalive (data : bytes)
| CNoSigpipe
| CCloexec
| CSetFlags (flags : Z)
| CIoctlNonBlocking (mode : Z)
| CShutdown (how : shutdown_mode)
| CBind (addr : sock_address)
| CListen (backlog : Z)
| CConnect (addr : sock_address)
| CNoInherit.

Class SocketKernel (K : Type) := {
  open_fds : K → gset Z;
  sys_socket : address_family → socket_type → Z → K → (Z + Z) * K;   (** descriptor or [errno] *)
  sys_accept : Z → K → (Z * sock_address + Z) * K;
  sys_close : Z → K → option Z * K;
  sys_call : syscall → Z → K → option Z * K;
  sys_getfl : Z → K → (Z + Z) * K;
  sys_name : bool → Z → K → (sock_address + Z) * K;        (** [getpeername] or [getsockname] *)
  sys_getsockopt : optname → Z → K → option Z * K;
  sys_so_error : Z → K → (Z + Z) * K;
  deregister : Z → K → K                                   (** the callback run on close *)
}.

Class SocketKernelLaws {K : Type} (S : SocketKernel K) : Prop := {
  law_socket af ty pr k :
    let '(r, k') := sys_socket af ty pr k in
    match r with
    | inl fd => 0 ≤ fd ∧ fd ∉ open_fds k ∧ open_fds k' = {[fd]} ∪ open_fds k
    | inr e => e ≠ 0 ∧ open_fds k' = open_fds k
    end;
  law_accept l k :
    let '(r, k') := sys_accept l k in
    match r with
    | inl (fd, _) => 0 ≤ fd ∧ fd ∉ open_fds k ∧ open_fds k' = {[fd]} ∪ open_fds k
    | inr e => e ≠ 0 ∧ open_fds k' = open_fds k
    end;
  (** a descriptor is free after [close], whatever it returned *)
  law_close fd k : open_fds (sys_close fd k).2 = open_fds k ∖ {[fd]};
  law_call c fd k :
    open_fds (sys_call c fd k).2 = open_fds k ∧ (∀ e, (sys_call c fd k).1 = Some e → e ≠ 0);
  law_getfl fd k :
    open_fds (sys_getfl fd k).2 = open_fds k ∧ (∀ e, (sys_getfl fd k).1 = inr e → e ≠ 0);
  law_name b fd k : open_fds (sys_name b fd k).2 = open_fds k;
  law_getsockopt n fd k : open_fds (sys_getsockopt n fd k).2 = open_fds k;
  law_so_error fd k :
    open_fds (sys_so_error fd k).2 = open_fds k ∧ (∀ e, (sys_so_error fd k).1 = inr e → e ≠ 0);
  law_deregister fd k : open_fds (deregister fd k) = open_fds k
}.

(** The socket options of one descriptor. *)
Definition at_fd {K} `{SocketKernel K} (fd : Z) : SockoptKernel K := {|
  setsockopt := λ l n d, sys_call (CSetsockopt l n d) fd;
  keepalive_ioctl := λ d, sys_call (CKeepalive d) fd;
  getsockopt := λ n, sys_getsockopt n fd
|}.

(** ** The monad *)

Section Monad.
Context {K : Type}.

Definition M (A : Type) : Type := K → option (A * K).
Definition ret {A} (a : A) : M A := λ k, Some (a, k).
Definition bind {A B} (m : M A) (f : A → M B) : M B :=
  λ k, match m k with Some (a, k') => f a k' | None => None end.
Definition lift {A} (f : K → A * K) : M A := λ k, Some (f k).

(** Total triples. *)
Definition triple {A} (P : K → Prop) (m : M A) (Q : A → K → Prop) : Prop :=
  ∀ k, P k → ∃ a k', m k = Some (a, k') ∧ Q a k'.

Lemma triple_ret {A} (a : A) (P : K → Prop) (Q : A → K → Prop) :
  (∀ k, P k → Q a k) → triple P (ret a) Q.
Proof. intros HQ k Hk. exists a, k. auto. Qed.

Lemma triple_bind {A B} (m : M A) (f : A → M B) P Q R :
  triple P m Q → (∀ a, triple (Q a) (f a) R) → triple P (bind m f) R.
Proof.
  intros Hm Hf k Hk. destruct (Hm k Hk) as (a & k1 & E & Ha).
  destruct (Hf a k1 Ha) as (b & k2 & E' & Hb). exists b, k2. unfold bind. by rewrite E.
Qed.

Lemma triple_weaken {A} (m : M A) (P P' : K → Prop) (Q Q' : A → K → Prop) :
  triple P' m Q' → (∀ k, P k → P' k) → (∀ a k, Q' a k → Q a k) → triple P m Q.
Proof. intros Hm HP HQ k Hk. destruct (Hm k (HP k Hk)) as (a & k' & E & Ha). eauto 10. Qed.

Lemma triple_pure {A} (φ : Prop) (P : K → Prop) (m : M A) Q :
  (φ → triple P m Q) → triple (λ k, φ ∧ P k) m Q.
Proof. intros H k [Hφ Hk]. by apply H. Qed.

End Monad.
Arguments M K A : clear implicits.

Notation "'let*' x := m 'in' k" := (bind m (λ x, k))
  (at level 200, x pattern, m at level 100, k at level 200, right associativity) : socketpp_scope.

(** ** [socket] *)

(** [on_close_deregister_] is a function or null. *)
Record sock := mk_sock { handle_ : Z; dispatcher_ : bool; on_close_deregister_ : bool }.

Definition sock_default : sock := mk_sock invalid_socket false false.
Definition sock_of (fd : Z) : sock := mk_sock fd false false.
Definition is_open (s : sock) : bool := negb (handle_ s =? invalid_socket).

(** The move constructor: the new socket and what is left of the other. *)
Definition sock_move (other : sock) : sock * sock :=
  (mk_sock (handle_ other) (dispatcher_ other) (on_close_deregister_ other), sock_default).

(** A listening socket, and the options it gives to accepted ones, if any. *)
Record listener_base := mk_listener_base {
  lb_socket : sock; accepted_opts_ : socket_options; accepted_opts_empty_ : bool
}.

Definition O_NONBLOCK (o : os) : Z := match o with MacOS => 4 | _ => 2048 end.

Section Socket.
Context {K : Type} `{SocketKernel K} (o : os).

Definition call (c : syscall) (fd : Z) : M K result_void :=
  let* r := lift (sys_call c fd) in ret (Apply.call_result o r).
Definition errno_code (e : Z) : error_code := normalize_error (os_switch o) (last_socket_error e).

Definition close (s : sock) : M K (result_void * sock) :=
  if handle_ s =? invalid_socket then ret (rv_ok, s)
  else
    let* _ := (if on_close_deregister_ s then lift (λ k, ((), deregister (handle_ s) k)) else ret ()) in
    let* r := lift (sys_close (handle_ s)) in
    ret (Apply.call_result o r, mk_sock invalid_socket false false).

(** Move assignment from a different socket. *)
Definition sock_assign (s other : sock) : M K (sock * sock) :=
  let* (_, _) := close s in ret (sock_move other).

Definition sock_release (s : sock) : M K (Z * sock) :=
  let* _ := (if on_close_deregister_ s then lift (λ k, ((), deregister (handle_ s) k)) else ret ()) in
  ret (handle_ s, mk_sock invalid_socket false false).

Definition set_non_blocking (enable : bool) (s : sock) : M K result_void :=
  if handle_ s =? invalid_socket then ret (rv_of invalid_state)
  else
    match o with
    | Windows => call (CIoctlNonBlocking (if enable then 1 else 0)) (handle_ s)
    | _ =>
        let* flags := lift (sys_getfl (handle_ s)) in
        match flags with
        | inr e => ret (mk_result_void (errno_code e))
        | inl flags =>
            let flags := if enable then Z.lor flags (O_NONBLOCK o) else Z.land flags (Z.lnot (O_NONBLOCK o)) in
            call (CSetFlags flags) (handle_ s)
        end
    end.

Definition shutdown (how : shutdown_mode) (s : sock) : M K result_void :=
  if handle_ s =? invalid_socket then ret (rv_of invalid_state) else call (CShutdown how) (handle_ s).

Definition sock_bind (addr : sock_address) (s : sock) : M K result_void :=
  if handle_ s =? invalid_socket then ret (rv_of invalid_state) else call (CBind addr) (handle_ s).

Definition socket_name (peer : bool) (s : sock) : M K (result sock_address) :=
  if handle_ s =? invalid_socket then ret (err_of invalid_state)
  else
    let* r := lift (sys_name peer (handle_ s)) in
    ret (match r with inl a => Val a | inr e => Err (errno_code e) end).
Definition local_address : sock → M K (result sock_address) := socket_name false.
Definition peer_address : sock → M K (result sock_address) := socket_name true.

Definition apply_opts (skip : bool) (opts : socket_options) (fd : Z) : M K (result apply_result) :=
  Apply.apply_entries (H := at_fd fd) o opts skip.

Definition sock_apply (opts : socket_options) (s : sock) : M K result_void :=
  if handle_ s =? invalid_socket then ret (rv_of invalid_state)
  else
    let* r := apply_opts false opts (handle_ s) in
    ret (match r with Val _ => rv_ok | Err e => mk_result_void e end).

(** A failure after the socket was made: it is closed, and the error returned. *)
Definition fail_close (s : sock) (e : error_code) : M K (result sock) :=
  let* (_, _) := close s in ret (Err e).

(** The steps that macOS and Windows need after [socket] or [accept]. *)
Definition make_non_blocking (s : sock) (k : M K (result sock)) : M K (result sock) :=
  let* nb := set_non_blocking true s in
  if rv_bool nb then k else fail_close s (rv_error nb).

Definition macos_setup (s : sock) (k : M K (result sock)) : M K (result sock) :=
  let* r := call CCloexec (handle_ s) in
  if negb (rv_bool r) then fail_close s (rv_error r)
  else
    make_non_blocking s
      (let* r := call CNoSigpipe (handle_ s) in
       if negb (rv_bool r) then fail_close s (rv_error r) else k).

(** On Linux the flags given to [socket] make the descriptor non-blocking and
    close-on-exec; elsewhere that takes calls of its own, each of which may fail. *)
Definition create (af : address_family) (ty : socket_type) (protocol : Z) : M K (result sock) :=
  let* fd := lift (sys_socket af ty protocol) in
  match fd with
  | inr e => ret (Err (errno_code e))
  | inl fd =>
      let s := sock_of fd in
      match o with
      | Windows => make_non_blocking s (ret (Val s))
      | Linux => ret (Val s)
      | MacOS => macos_setup s (ret (Val s))
      end
  end.

End Socket.

Section Factories.
Context {K : Type} `{SocketKernel K} (o : os).

(** ** Listeners *)

Definition set_socket (s : sock) (l : listener_base) : listener_base :=
  mk_listener_base s (accepted_opts_ l) (accepted_opts_empty_ l).

(** Go on if a call succeeded; otherwise close the socket and return the error. *)
Definition check_or_close (r : result_void) (s : sock) (go : M K (result_void * sock)) : M K (result_void * sock) :=
  if rv_bool r then go else let* (_, s) := close o s in ret (mk_result_void (rv_error r), s).
Definition apply_or_close (skip : bool) (opts : socket_options) (s : sock)
    (go : M K (result_void * sock)) : M K (result_void * sock) :=
  let* r := apply_opts o skip opts (handle_ s) in
  match r with
  | Val _ => go
  | Err e => let* (_, s) := close o s in ret (mk_result_void e, s)
  end.

Definition set_one (n : optname) : syscall := CSetsockopt SOL_SOCKET n (int_bytes 1).

Definition listener_socket_open (af : address_family) (bind_addr : sock_address) (backlog : Z)
    (opts : socket_options) (socket_ : sock) : M K (result_void * sock) :=
  let* r := create o af sock_stream 0 in
  match r with
  | Err e => ret (mk_result_void e, socket_)
  | Val s =>
      let* (s, _) := sock_assign o socket_ s in
      let rest :=
        apply_or_close false opts s
          (let* r := sock_bind o bind_addr s in
           check_or_close r s
             (let* r := call o (CListen backlog) (handle_ s) in
              check_or_close r s (ret (rv_ok, s)))) in
      match o with
      | Windows =>
          if negb (has_reuse_addr_ opts) then
            let* r := call o (set_one SO_EXCLUSIVEADDRUSE) (handle_ s) in check_or_close r s rest
          else rest
      | _ =>
          let* r := call o (set_one SO_REUSEADDR) (handle_ s) in
          check_or_close r s (let* _ := call o (set_one SO_REUSEPORT) (handle_ s) in rest)
      end
  end.

Definition listener_open (af : address_family) (bind_addr : sock_address) (backlog : Z)
    (opts : socket_options) (l : listener_base) : M K (result_void * listener_base) :=
  let* (r, s) := listener_socket_open af bind_addr backlog opts (lb_socket l) in
  ret (r, set_socket s l).

(** [accept_raw], with the address of the peer for the second version. *)
Definition accept_raw (l : listener_base) : M K (result sock * option sock_address) :=
  if negb (is_open (lb_socket l)) then ret (err_of invalid_state, None)
  else
    let* r := lift (sys_accept (handle_ (lb_socket l))) in
    match r with
    | inr e => ret (Err (errno_code o e), None)
    | inl (fd, peer) =>
        let s := sock_of fd in
        let finish : M K (result sock) :=
          if negb (accepted_opts_empty_ l) then
            let* r := apply_opts o false (accepted_opts_ l) (handle_ s) in
            match r with Val _ => ret (Val s) | Err e => fail_close o s e end
          else ret (Val s) in
        let* r :=
          match o with
          | Linux => finish
          | MacOS => macos_setup o s finish
          | Windows => let* _ := call o CNoInherit fd in make_non_blocking o s finish
          end in
        ret (r, match r with Val _ => Some peer | Err _ => None end)
    end.

(** ** Connectors *)

(** [connect_impl]: a connection in progress is a success. *)
Definition connect_impl (af : address_family) (addr : sock_address) (opts : socket_options) :
    M K (result sock) :=
  let* r := create o af sock_stream 0 in
  match r with
  | Err e => ret (Err e)
  | Val s =>
      let* r := apply_opts o false opts (handle_ s) in
      match r with
      | Err e => fail_close o s e
      | Val _ =>
          let* rc := lift (sys_call (CConnect addr) (handle_ s)) in
          match rc with
          | None => ret (Val s)
          | Some e =>
              let ec := errno_code o e in
              let ec := if ec_eqb ec (make_error_code would_block) then make_error_code in_progress else ec in
              if ec_eqb ec (make_error_code in_progress) then ret (Val s) else fail_close o s ec
          end
      end
  end.

(** ** UDP sockets *)

Definition apply_post (opts : socket_options) (fd : Z) : M K result_void :=
  Apply.apply_post_bind (H := at_fd fd) o opts.

Definition udp_open (af : address_family) (bind_addr : sock_address) (opts : socket_options) (this : sock) :
    M K (result_void * sock) :=
  let* r := create o af sock_dgram 0 in
  match r with
  | Err e => ret (mk_result_void e, this)
  | Val s =>
      let* (s, _) := sock_assign o this s in
      apply_or_close true opts s
        (let* r := sock_bind o bind_addr s in
         check_or_close r s
           (let* r := apply_post opts (handle_ s) in
            check_or_close r s (ret (rv_ok, s))))
  end.

End Factories.

(** ** Ownership of descriptors *)

(** The descriptors a socket owns. *)
Definition own (s : sock) : gset Z := if is_open s then {[handle_ s]} else ∅.

Lemma own_default : own sock_default = ∅.
Proof. done. Qed.

Lemma own_open fd : 0 ≤ fd → own (sock_of fd) = {[fd]} ∧ is_open (sock_of fd) = true.
Proof.
  intros Hfd. unfold own, is_open, sock_of, invalid_socket. simpl.
  by rewrite (proj2 (Z.eqb_neq _ _)) by lia.
Qed.

Lemma os_switch_failure o code e : os_switch o code = Some e → e ≠ success.
Proof. destruct o; [apply posix_switch_failure..|apply windows_switch_failure]. Qed.

Lemma errno_code_bool o e : e ≠ 0 → ec_bool (errno_code o e) = true.
Proof.
  intros He. unfold errno_code, normalize_error, last_socket_error, ec_bool. simpl.
  rewrite (proj2 (Z.eqb_neq _ _) He). simpl.
  destruct (os_switch o e) as [e'|] eqn:Es; simpl; [|by rewrite (proj2 (Z.eqb_neq _ _) He)].
  apply negb_true_iff, Z.eqb_neq, errc_value_nonzero. by eapply os_switch_failure.
Qed.

Lemma call_result_fails o e : e ≠ 0 → rv_bool (Apply.call_result o (Some e)) = false.
Proof. intros He. apply negb_false_iff. by apply errno_code_bool. Qed.

Section Specs.
Context {K : Type} `{SK : SocketKernel K} `{!SocketKernelLaws SK}.
Implicit Types F : gset Z.

Definition holds F (k : K) : Prop := open_fds k = F.

Lemma lift_spec {A} (f : K → A * K) F (Q : A → Prop) :
  (∀ k, open_fds (f k).2 = open_fds k ∧ Q (f k).1) →
  triple (holds F) (lift f) (λ a k, Q a ∧ holds F k).
Proof.
  intros Hf k Hk. destruct (Hf k) as [E HQ]. destruct (f k) as [a k'] eqn:Ef. exists a, k'.
  unfold lift. rewrite Ef. unfold holds in *. simpl in *. by rewrite E.
Qed.

Lemma call_spec o c fd F : triple (holds F) (call o c fd) (λ _, holds F).
Proof.
  eapply triple_bind; [apply (lift_spec _ _ (λ _, True)); intros k; split; [apply law_call|done]|].
  intros r. simpl. apply triple_ret. by intros k [_ Hk].
Qed.

Lemma close_spec o s F :
  triple (holds F) (close o s) (λ rs k, is_open rs.2 = false ∧ holds (F ∖ own s) k).
Proof.
  unfold close, own, is_open. destruct (handle_ s =? invalid_socket) eqn:E; simpl.
  { apply triple_ret. intros k Hk. simpl. rewrite E. by rewrite difference_empty_L. }
  eapply (triple_bind _ _ _ (λ _, holds F)).
  { destruct (on_close_deregister_ s); [|by apply triple_ret]. intros k Hk. eexists _, _. split; [done|].
    unfold holds in *. by rewrite law_deregister. }
  intros _ k Hk. unfold bind, lift, ret. pose proof (law_close (handle_ s) k) as Hc.
  destruct (sys_close (handle_ s) k) as [r k']. eexists _, _. split; [done|]. split; [done|].
  unfold holds in *. simpl in Hc. by rewrite Hc, Hk.
Qed.

Lemma apply_spec o skip opts fd F :
  Apply.built o opts →
  triple (holds F) (apply_opts o skip opts fd)
    (λ r k, (∀ e, r = Err e → ec_bool e = true) ∧ holds F k).
Proof.
  intros Hb k Hk.
  destruct (Apply.apply_entries_frame (H := at_fd fd) (holds F)) with (o := o) (so := opts) (skip := skip) (k := k)
    as (r & k' & E & Hk' & He); [..|by eauto 10]; try done.
  - intros l n d k0 Hk0. unfold holds in *. simpl. by rewrite (proj1 (law_call _ _ _)).
  - intros d k0 Hk0. unfold holds in *. simpl. by rewrite (proj1 (law_call _ _ _)).
  - intros n k0 Hk0. unfold holds in *. simpl. by rewrite law_getsockopt.
Qed.

Lemma apply_post_spec o opts fd F :
  Apply.built o opts → triple (holds F) (apply_post o opts fd) (λ _, holds F).
Proof.
  intros Hb k Hk.
  destruct (Apply.post_bind_frame (H := at_fd fd) (holds F)) with (o := o) (so := opts) (k := k)
    as (r & k' & E & Hk'); [..|by eauto 10]; try done.
  - intros l n d k0 Hk0. unfold holds in *. simpl. by rewrite (proj1 (law_call _ _ _)).
  - intros d k0 Hk0. unfold holds in *. simpl. by rewrite (proj1 (law_call _ _ _)).
Qed.

(** A new socket owns a descriptor that was not open; a failure leaves none. *)
Definition fresh F (r : result sock) (k : K) : Prop :=
  match r with
  | Val s => is_open s = true ∧ handle_ s ∉ F ∧ holds ({[handle_ s]} ∪ F) k
  | Err e => ec_bool e = true ∧ holds F k
  end.

Lemma fail_close_spec o s e F :
  is_open s = true → handle_ s ∉ F → ec_bool e = true →
  triple (holds ({[handle_ s]} ∪ F)) (fail_close o s e) (fresh F).
Proof.
  intros Ho Hs He. eapply triple_bind; [apply close_spec|]. intros [r s']. apply triple_ret.
  intros k [_ Hk]. split; [done|]. unfold own in Hk. rewrite Ho in Hk. unfold holds in *. set_solver.
Qed.

Lemma set_non_blocking_spec o b s F : triple (holds F) (set_non_blocking o b s) (λ _, holds F).
Proof.
  unfold set_non_blocking. destruct (_ =? _); [by apply triple_ret|].
  assert (triple (holds F)
    (let* flags := lift (sys_getfl (handle_ s)) in
     match flags with
     | inr e => ret (mk_result_void (errno_code o e))
     | inl flags =>
         let flags := if b then Z.lor flags (O_NONBLOCK o) else Z.land flags (Z.lnot (O_NONBLOCK o)) in
         call o (CSetFlags flags) (handle_ s)
     end) (λ _, holds F)) as Hposix.
  { eapply triple_bind; [apply (lift_spec _ _ (λ _, True)); intros k; split; [apply law_getfl|done]|].
    intros [fl|e]; simpl; apply triple_pure; intros _; [apply call_spec|by apply triple_ret]. }
  destruct o; [exact Hposix..|apply call_spec].
Qed.

(** Continuations that run with a new socket in hand. *)
Section Fresh.
Context (o : os) (s : sock) (F : gset Z).
Context (Hopen : is_open s = true) (Hnew : handle_ s ∉ F).
Abbreviation mine := (holds ({[handle_ s]} ∪ F)).

Lemma checked_spec r (go : M K (result sock)) :
  triple mine go (fresh F) →
  triple mine (if rv_bool r then go else fail_close o s (rv_error r)) (fresh F).
Proof.
  intros Hgo. destruct (rv_bool r) eqn:Er; [done|]. apply fail_close_spec; [done..|].
  by apply negb_false_iff in Er.
Qed.

Lemma make_non_blocking_spec go :
  triple mine go (fresh F) → triple mine (make_non_blocking o s go) (fresh F).
Proof.
  intros Hgo. eapply triple_bind; [apply set_non_blocking_spec|]. intros nb. by apply checked_spec.
Qed.

Lemma macos_setup_spec go :
  triple mine go (fresh F) → triple mine (macos_setup o s go) (fresh F).
Proof.
  intros Hgo. eapply triple_bind; [apply call_spec|]. intros r. rewrite if_negb. apply checked_spec.
  apply make_non_blocking_spec. eapply triple_bind; [apply call_spec|]. intros r'.
  rewrite if_negb. by apply checked_spec.
Qed.

Lemma ret_fresh : triple mine (ret (Val s)) (fresh F).
Proof. by apply triple_ret. Qed.

Lemma apply_fresh opts (go : M K (result sock)) :
  Apply.built o opts → triple mine go (fresh F) →
  triple mine (let* r := apply_opts o false opts (handle_ s) in
               match r with Val _ => go | Err e => fail_close o s e end) (fresh F).
Proof.
  intros Hb Hgo. eapply triple_bind; [by apply apply_spec|]. intros r. simpl. apply triple_pure. intros He.
  destruct r as [ar|e]; [done|]. apply fail_close_spec; auto.
Qed.

End Fresh.

Lemma create_spec o af ty pr F : triple (holds F) (create o af ty pr) (fresh F).
Proof.
  intros k Hk. unfold create, bind, lift. pose proof (law_socket af ty pr k) as Hl.
  destruct (sys_socket af ty pr k) as [[fd|e] k'].
  - destruct Hl as (Hfd & Hnew & Hopen). rewrite Hk in Hnew, Hopen.
    destruct (own_open fd Hfd) as [_ Ho].
    assert (holds ({[handle_ (sock_of fd)]} ∪ F) k') as Hk' by done.
    destruct o; [by apply ret_fresh|apply macos_setup_spec|apply make_non_blocking_spec];
      auto using ret_fresh.
  - destruct Hl as [He Hopen]. eexists _, _. split; [done|]. split; [by apply errno_code_bool|].
    unfold holds. by rewrite Hopen.
Qed.

Lemma accept_spec o l F :
  (accepted_opts_empty_ l = false → Apply.built o (accepted_opts_ l)) →
  triple (holds F) (accept_raw o l)
    (λ '(r, peer) k, fresh F r k ∧ (is_Some peer ↔ has_value r = true)).
Proof.
  intros Hopts. unfold accept_raw.
  destruct (is_open (lb_socket l)); simpl; [|by apply triple_ret; intros k Hk; repeat split].
  intros k Hk. unfold bind at 1, lift. pose proof (law_accept (handle_ (lb_socket l)) k) as Hl.
  destruct (sys_accept (handle_ (lb_socket l)) k) as [[[fd peer]|e] k'].
  - destruct Hl as (Hfd & Hnew & Hopen). rewrite Hk in Hnew, Hopen.
    destruct (own_open fd Hfd) as [_ Ho]. pose (s := sock_of fd).
    set (finish := if negb (accepted_opts_empty_ l) then _ else _).
    assert (triple (holds ({[handle_ s]} ∪ F)) finish (fresh F)) as Hfin.
    { subst finish. rewrite if_negb. destruct (accepted_opts_empty_ l); [by apply ret_fresh|].
      apply apply_fresh; auto using ret_fresh. }
    eapply (triple_bind _ _ (holds ({[handle_ s]} ∪ F)) (fresh F)); [|..|done].
    + destruct o; [done|by apply macos_setup_spec|].
      eapply triple_bind; [apply call_spec|]. intros r. by apply make_non_blocking_spec.
    + intros r. apply triple_ret. intros k2 Hk2. split; [done|]. by destruct r.
  - destruct Hl as [He Hopen]. eexists _, _. split; [done|]. simpl. split_and!; [by apply errno_code_bool| |].
    + unfold holds. by rewrite Hopen.
    + split; [by intros []|done].
Qed.

Lemma connect_spec o af addr opts F :
  Apply.built o opts → triple (holds F) (connect_impl o af addr opts) (fresh F).
Proof.
  intros Hb. eapply triple_bind; [apply create_spec|]. intros [s|e]; simpl; [|by apply triple_ret].
  apply triple_pure. intros Hopen. apply triple_pure. intros Hnew. apply apply_fresh; [done..|].
  eapply triple_bind.
  { apply (lift_spec _ _ (λ r, ∀ e, r = Some e → e ≠ 0)). intros k. apply law_call. }
  intros [e|]; simpl; apply triple_pure; intros He; [|by apply ret_fresh].
  assert (ec_bool (errno_code o e) = true) as Hec by (apply errno_code_bool; eauto).
  destruct (ec_eqb (errno_code o e) (make_error_code would_block)); simpl; [by apply ret_fresh|].
  destruct (ec_eqb _ _); [by apply ret_fresh|]. by apply fail_close_spec.
Qed.

(** What an operation that replaces a socket leaves: on success an open socket,
    on failure a closed one, and every other descriptor as it was. *)
Definition settled (G : gset Z) (rs : result_void * sock) (k : K) : Prop :=
  (if rv_bool rs.1 then is_open rs.2 = true else is_open rs.2 = false) ∧
  own rs.2 ## G ∧ holds (own rs.2 ∪ G) k.

Section Settled.
Context (o : os) (s : sock) (G : gset Z).
Context (Hopen : is_open s = true) (Hnew : handle_ s ∉ G).
Abbreviation mine := (holds ({[handle_ s]} ∪ G)).

Lemma close_settled e :
  ec_bool e = true →
  triple mine (let* (_, s') := close o s in ret (mk_result_void e, s')) (settled G).
Proof.
  intros He. eapply triple_bind; [apply close_spec|]. intros [r s']. apply triple_ret.
  intros k [Hc Hk]. simpl in Hc. unfold settled, rv_bool, own in *. simpl. rewrite He, Hc. simpl.
  rewrite Hopen in Hk. unfold holds in *. split; [done|]. set_solver.
Qed.

Lemma check_or_close_spec r go :
  triple mine go (settled G) → triple mine (check_or_close o r s go) (settled G).
Proof.
  intros Hgo. unfold check_or_close. destruct (rv_bool r) eqn:Er; [done|]. apply close_settled.
  by apply negb_false_iff in Er.
Qed.

Lemma apply_or_close_spec skip opts go :
  Apply.built o opts → triple mine go (settled G) → triple mine (apply_or_close o skip opts s go) (settled G).
Proof.
  intros Hb Hgo. eapply triple_bind; [by apply apply_spec|]. intros r. simpl. apply triple_pure. intros He.
  destruct r as [ar|e]; [done|]. apply close_settled; auto.
Qed.

Lemma sock_bind_spec addr : triple mine (sock_bind o addr s) (λ _, mine).
Proof. unfold sock_bind. destruct (_ =? _); [by apply triple_ret|apply call_spec]. Qed.

Lemma ret_settled : triple mine (ret (rv_ok, s)) (settled G).
Proof.
  apply triple_ret. intros k Hk. unfold settled, own. simpl. rewrite Hopen. unfold holds in *. set_solver.
Qed.

End Settled.

Lemma sock_assign_spec o this s F :
  triple (holds F) (sock_assign o this s) (λ ss k, ss.1 = s ∧ holds (F ∖ own this) k).
Proof.
  eapply triple_bind; [apply close_spec|]. intros [r s']. apply triple_ret. intros k [_ Hk].
  split; [by destruct s|done].
Qed.

(** Opening a new socket in place of [this]. *)
Definition reopened F (this : sock) (rs : result_void * sock) (k : K) : Prop :=
  (rv_bool rs.1 = false ∧ rs.2 = this ∧ holds F k) ∨ settled (F ∖ own this) rs k.

Lemma reopen_spec o af ty this F (rest : sock → M K (result_void * sock)) :
  own this ⊆ F →
  (∀ s, is_open s = true → handle_ s ∉ F ∖ own this →
     triple (holds ({[handle_ s]} ∪ (F ∖ own this))) (rest s) (settled (F ∖ own this))) →
  triple (holds F)
    (let* r := create o af ty 0 in
     match r with
     | Err e => ret (mk_result_void e, this)
     | Val s => let* (s, _) := sock_assign o this s in rest s
     end) (reopened F this).
Proof.
  intros Hsub Hrest. eapply triple_bind; [apply create_spec|]. intros [s|e]; simpl.
  - apply triple_pure. intros Hopen. apply triple_pure. intros Hnew.
    eapply triple_bind; [apply sock_assign_spec|]. intros [s1 s2]. simpl. apply triple_pure. intros ->.
    eapply triple_weaken; [apply Hrest; [done|set_solver]| |].
    + intros k Hk. unfold holds in *. rewrite Hk. apply set_eq. set_solver.
    + intros rs k Hk. by right.
  - apply triple_pure. intros He. apply triple_ret. intros k Hk. left. simpl.
    unfold rv_bool. simpl. by rewrite He.
Qed.

Lemma listener_open_spec o af addr backlog opts l F :
  Apply.built o opts → own (lb_socket l) ⊆ F →
  triple (holds F) (listener_open o af addr backlog opts l)
    (λ '(r, l') k, reopened F (lb_socket l) (r, lb_socket l') k ∧
       accepted_opts_ l' = accepted_opts_ l ∧ accepted_opts_empty_ l' = accepted_opts_empty_ l).
Proof.
  intros Hb Hsub. eapply triple_bind.
  { apply reopen_spec; [done|]. intros s Hopen Hnew. cbv zeta.
    set (rest := apply_or_close _ _ _ _ _).
    assert (triple (holds ({[handle_ s]} ∪ (F ∖ own (lb_socket l)))) rest (settled (F ∖ own (lb_socket l)))) as Hrest.
    { apply apply_or_close_spec; [done..|]. eapply triple_bind; [by apply sock_bind_spec|]. intros r.
      apply check_or_close_spec; [done..|]. eapply triple_bind; [apply call_spec|]. intros r'.
      apply check_or_close_spec; [done..|]. by apply ret_settled. }
    destruct o.
    1,2: eapply triple_bind; [apply call_spec|]; intros r; apply check_or_close_spec; [done..|];
      eapply triple_bind; [apply call_spec|]; intros r'; exact Hrest.
    destruct (has_reuse_addr_ opts); simpl; [done|].
    eapply triple_bind; [apply call_spec|]; intros r; by apply check_or_close_spec. }
  intros [r s]. apply triple_ret. intros k Hk. by split.
Qed.

Lemma udp_open_spec o af addr opts this F :
  Apply.built o opts → own this ⊆ F → triple (holds F) (udp_open o af addr opts this) (reopened F this).
Proof.
  intros Hb Hsub. apply reopen_spec; [done|]. intros s Hopen Hnew.
  apply apply_or_close_spec; [done..|]. eapply triple_bind; [by apply sock_bind_spec|]. intros r.
  apply check_or_close_spec; [done..|]. eapply triple_bind; [by apply apply_post_spec|]. intros r'.
  apply check_or_close_spec; [done..|]. by apply ret_settled.
Qed.

(** C23. No descriptor is leaked or closed twice by a factory.  [create], the
    accepting of a connection and [connect] either return an open socket that
    owns the only new descriptor, or fail and leave the open descriptors as they
    were; opening a listener or a UDP socket either leaves it as it was, when no
    socket could be made, or replaces its descriptor by the new one on success
    and by none on failure.  All of them return, whatever the calls do. *)
Theorem factories_balanced o af addr backlog opts l this F :
  Apply.built o opts → Apply.built o (accepted_opts_ l) → own (lb_socket l) ⊆ F → own this ⊆ F →
  triple (holds F) (create o af sock_stream 0) (fresh F) ∧
  triple (holds F) (accept_raw o l) (λ '(r, peer) k, fresh F r k ∧ (is_Some peer ↔ has_value r = true)) ∧
  triple (holds F) (connect_impl o af addr opts) (fresh F) ∧
  triple (holds F) (listener_open o af addr backlog opts l)
    (λ '(r, l') k, reopened F (lb_socket l) (r, lb_socket l') k ∧
       accepted_opts_ l' = accepted_opts_ l ∧ accepted_opts_empty_ l' = accepted_opts_empty_ l) ∧
  triple (holds F) (udp_open o af addr opts this) (reopened F this).
Proof.
  intros Hb Ha Hl Ht. split_and!;
    auto using create_spec, accept_spec, connect_spec, listener_open_spec, udp_open_spec.
Qed.

End Specs.

(** ** Asynchronous connection *)

(** [connect_state], with the dispatcher, the timers cancelled and the calls of
    [callback] so far. *)
Section Async.
Context {K : Type} `{SK : SocketKernel K}.
Context {CB : Type} {D : Dispatcher CB} (cb : CB).

Record connect_state := mk_connect_state {
  cs_sock : sock;
  cs_timer : Handle.timer_handle;
  completed : bool;
  cs_disp : disp;
  cs_cancelled : list Z;
  cs_calls : list (result sock)
}.

(** Either the connection failed at once, or a state waits for events. *)
Inductive attempt := Immediate (r : result sock) | Waiting (fd : Z) (st : connect_state).

Definition callbacks (a : attempt) : list (result sock) :=
  match a with Immediate r => [r] | Waiting _ st => cs_calls st end.

(** [connect_async_impl] up to the registration; [timer_id] is what the
    dispatcher returns for the timer. *)
Definition connect_async (o : os) (af : address_family) (addr : sock_address) (opts : socket_options)
    (timer_id : Z) (d : disp) : M K attempt :=
  let* r := connect_impl o af addr opts in
  match r with
  | Err e => ret (Immediate (Err e))
  | Val s =>
      let (sock, _) := sock_move s in
      let fd := handle_ sock in
      let timer := Handle.mk_handle timer_id true in
      ret (Waiting fd (mk_connect_state sock timer false (d_add fd ev_writable cb d).2 [] []))
  end.

(** The timer's callback. *)
Definition on_timeout (o : os) (fd : Z) (st : connect_state) : M K connect_state :=
  if completed st then ret st
  else
    let d := (d_remove fd (cs_disp st)).2 in
    let* (_, s) := close o (cs_sock st) in
    ret (mk_connect_state s (cs_timer st) true d (cs_cancelled st) (cs_calls st ++ [err_of timed_out])).

(** The code [SO_ERROR] stands for. *)
Definition so_error_code (o : os) (so_error : Z) : error_code :=
  normalize_error (os_switch o)
    (mk_error_code so_error (match o with Windows => cat_system | _ => cat_generic end)).

(** The callback of the dispatcher. *)
Definition on_writable (o : os) (cb_fd : Z) (st : connect_state) : M K connect_state :=
  if completed st then ret st
  else
    let (ids, timer) := Handle.cancel (cs_timer st) in
    let d := (d_remove cb_fd (cs_disp st)).2 in
    let finish s r := mk_connect_state s timer true d (cs_cancelled st ++ ids) (cs_calls st ++ [r]) in
    let* r := lift (sys_so_error cb_fd) in
    match r with
    | inr e => let* (_, s) := close o (cs_sock st) in ret (finish s (Err (errno_code o e)))
    | inl so_error =>
        if negb (so_error =? 0)
        then let* (_, s) := close o (cs_sock st) in ret (finish s (Err (so_error_code o so_error)))
        else let (s, left) := sock_move (cs_sock st) in ret (finish left (Val s))
    end.

Inductive connect_event := ETimeout | EWritable.

(** The events that reach the two callbacks, in any order and number. *)
Fixpoint run_events (o : os) (evs : list connect_event) (a : attempt) : M K attempt :=
  match evs with
  | [] => ret a
  | ev :: evs' =>
      let* a :=
        match a with
        | Immediate r => ret (Immediate r)
        | Waiting fd st =>
            let* st := (match ev with ETimeout => on_timeout | EWritable => on_writable end) o fd st in
            ret (Waiting fd st)
        end in
      run_events o evs' a
  end.

Context `{!SocketKernelLaws SK} `{!DispatcherLaws D}.

Lemma so_error_bool o e : e ≠ 0 → ec_bool (so_error_code o e) = true.
Proof.
  intros He. destruct o; [..|by apply (errno_code_bool Windows)];
    unfold so_error_code, normalize_error, ec_bool; simpl; rewrite (proj2 (Z.eqb_neq _ _) He); simpl;
    by rewrite (proj2 (Z.eqb_neq _ _) He).
Qed.

(** A registration that is taken back leaves the dispatcher as it was. *)
Lemma add_remove fd i d :
  d_wf d → d_lookup d fd = None →
  let d' := (d_remove fd (d_add fd i cb d).2).2 in d_wf d' ∧ ∀ fd', d_lookup d' fd' = d_lookup d fd'.
Proof.
  intros Hwf Hno. destruct (d_add fd i cb d) as [r d1] eqn:E1. simpl.
  destruct (law_add fd i cb d r d1 Hwf E1) as (Hwf1 & Hother1 & Hfd1).
  pose proof (law_remove_ok fd d1 Hwf1) as Hok. destruct (d_remove fd d1) as [r2 d2] eqn:E2. simpl in *.
  destruct (law_remove fd d1 r2 d2 Hwf1 E2) as (Hwf2 & Hother2 & Hfd2). split; [done|].
  intros fd'. destruct (decide (fd' = fd)) as [->|Hne]; [|by rewrite Hother2, Hother1].
  rewrite Hfd2, Hno. destruct (rv_bool r2) eqn:Er2; [done|]. rewrite Hfd1. rewrite Hfd1 in Hok.
  destruct (rv_bool r); [|done]. discriminate Hok. eauto.
Qed.

(** Where an attempt with descriptor [fd] stands. *)
Definition undecided (F : gset Z) (d : disp) (id : Z) (a : attempt) (k : K) : Prop :=
  ∃ s, is_open s = true ∧ handle_ s ∉ F ∧ holds ({[handle_ s]} ∪ F) k ∧
    a = Waiting (handle_ s) (mk_connect_state s (Handle.mk_handle id true) false
                               (d_add (handle_ s) ev_writable cb d).2 [] []).

Definition decided (F : gset Z) (d : disp) (a : attempt) (k : K) : Prop :=
  ∃ r, callbacks a = [r] ∧ fresh F r k ∧
    match a with
    | Immediate _ => True
    | Waiting fd st => completed st = true ∧ ∀ fd', d_lookup (cs_disp st) fd' = d_lookup d fd'
    end.

Lemma connect_async_spec o af addr opts id d F :
  Apply.built o opts →
  triple (holds F) (connect_async o af addr opts id d) (λ a k, undecided F d id a k ∨ decided F d a k).
Proof.
  intros Hb. eapply triple_bind; [by apply connect_spec|]. intros [s|e]; simpl; apply triple_ret; intros k Hk.
  - left. destruct Hk as (Ho & Hn & Hk). exists s. split_and!; [done..|]. by destruct s.
  - right. by exists (Err e).
Qed.

(** Closing the socket of the state and reporting an error. *)
Lemma close_reports o s e (st : sock → connect_state) F :
  is_open s = true → handle_ s ∉ F → ec_bool e = true →
  triple (holds ({[handle_ s]} ∪ F)) (let* (_, s') := close o s in ret (st s'))
    (λ st' k, (∃ s', st' = st s') ∧ fresh F (Err e) k).
Proof.
  intros Ho Hs He. eapply triple_bind; [apply close_spec|]. intros [r s']. apply triple_ret.
  intros k [_ Hk]. split; [by eexists|]. split; [done|]. unfold own in Hk. rewrite Ho in Hk.
  unfold holds in *. set_solver.
Qed.

Lemma first_event_spec o ev F d id s :
  d_wf d → d_lookup d (handle_ s) = None → is_open s = true → handle_ s ∉ F →
  triple (holds ({[handle_ s]} ∪ F))
    ((match ev with ETimeout => on_timeout | EWritable => on_writable end) o (handle_ s)
       (mk_connect_state s (Handle.mk_handle id true) false (d_add (handle_ s) ev_writable cb d).2 [] []))
    (λ st, decided F d (Waiting (handle_ s) st)).
Proof.
  intros Hwf Hno Ho Hs. pose proof (add_remove (handle_ s) ev_writable d Hwf Hno) as [_ Hd]. simpl in Hd.
  destruct ev.
  - eapply triple_weaken; [by eapply close_reports with (e := make_error_code timed_out)|done|].
    intros st k [[s' ->] Hk]. by exists (err_of timed_out).
  - unfold on_writable. simpl. eapply triple_bind.
    { apply (lift_spec _ _ (λ r, ∀ e, r = inr e → e ≠ 0)). intros k. apply law_so_error. }
    intros [so_error|e]; simpl; apply triple_pure; intros He.
    + destruct (so_error =? 0) eqn:E; simpl; bool_facts.
      * apply triple_ret. intros k Hk. exists (Val s). by destruct s.
      * eapply triple_weaken; [eapply close_reports with (e := so_error_code o so_error); [done..|]|done|].
        -- by apply so_error_bool.
        -- intros st k [[s' ->] Hk]. by exists (Err (so_error_code o so_error)).
    + eapply triple_weaken; [eapply close_reports with (e := errno_code o e); [done..|]|done|].
      * apply errno_code_bool. eauto.
      * intros st k [[s' ->] Hk]. by exists (Err (errno_code o e)).
Qed.

(** Once decided, nothing more happens. *)
Lemma decided_stays o evs a F d : triple (decided F d a) (run_events o evs a) (λ a', decided F d a').
Proof.
  induction evs as [|ev evs IH]; [by apply triple_ret|]. intros k Hk.
  assert (∃ k', (match a with
     | Immediate r => ret (Immediate r)
     | Waiting fd st =>
         let* st := (match ev with ETimeout => on_timeout | EWritable => on_writable end) o fd st in
         ret (Waiting fd st)
     end) k = Some (a, k') ∧ k' = k) as (k' & E & ->).
  { destruct Hk as (r & _ & _ & Ha). destruct a as [r'|fd st]; [by eauto|]. destruct Ha as [Hc _].
    exists k. destruct ev; unfold bind, on_timeout, on_writable; by rewrite Hc. }
  cbn [run_events]. unfold bind at 1. rewrite E. by apply IH.
Qed.

(** An asynchronous connection is decided once.  Whatever events reach its
    timer and its socket, in whatever order and however often, [callback] is
    called at most once, and exactly once when the connection failed at once or
    an event has arrived; it gets either an open socket that owns the only new
    descriptor, or an error, all descriptors being as before; and the dispatcher
    then holds the registrations it held before. *)
Theorem connect_async_once o af addr opts id d F evs :
  Apply.built o opts → d_wf d → (∀ fd, is_Some (d_lookup d fd) → fd ∈ F) →
  triple (holds F) (let* a := connect_async o af addr opts id d in run_events o evs a)
    (λ a k, (evs = [] ∧ undecided F d id a k ∧ callbacks a = []) ∨ decided F d a k).
Proof.
  intros Hb Hwf Hreg. eapply triple_bind; [by apply connect_async_spec|]. intros a k Hk.
  destruct Hk as [Hu|Hd].
  - destruct evs as [|ev evs].
    { exists a, k. split; [done|]. left. split_and!; [done..|]. by destruct Hu as (s & _ & _ & _ & ->). }
    destruct Hu as (s & Ho & Hs & Hk & ->).
    assert (d_lookup d (handle_ s) = None) as Hno.
    { destruct (d_lookup d (handle_ s)) eqn:E; [|done]. destruct Hs. apply Hreg. by rewrite E. }
    cbn [run_events].
    eapply triple_weaken; [eapply triple_bind| |intros a' k' Ha; right; exact Ha|exact Hk]; [|..|done].
    + eapply triple_bind; [by eapply first_event_spec|]. intros st. apply triple_ret. intros k' Hk'. exact Hk'.
    + intros a'. apply decided_stays.
  - destruct (decided_stays o evs a F d k Hd) as (a' & k' & E & Ha). eauto 10.
Qed.

End Async.

(** ** Programs that use sockets *)

(** The socket variables of a program and the descriptors it has released. *)
Record program_state := mk_program_state { svars : gmap nat sock; released_fds : gset Z }.

Inductive sock_op :=
| SDefault (x : nat)                                          (** [socket x;] *)
| SCreate (x : nat) (af : address_family) (ty : socket_type)  (** [socket x(std::move(socket::create(...).value()));] *)
| SMove (x y : nat)                                           (** [socket x(std::move(y));] *)
| SAssign (x y : nat)                                         (** [x = std::move(y);] *)
| SClose (x : nat)
| SRelease (x : nat)
| SDestroy (x : nat).

Section Programs.
Context {K : Type} `{SK : SocketKernel K} (o : os).

(** One operation; a variable is declared once, and used while it lives. *)
Definition exec_sock (op : sock_op) (p : program_state) : M K program_state :=
  let vars := svars p in
  let set vars := mk_program_state vars (released_fds p) in
  match op with
  | SDefault x => ret (match vars !! x with None => set (<[x := sock_default]> vars) | Some _ => p end)
  | SCreate x af ty =>
      match vars !! x with
      | Some _ => ret p
      | None =>
          let* r := create o af ty 0 in
          ret (match r with Val s => set (<[x := (sock_move s).1]> vars) | Err _ => p end)
      end
  | SMove x y =>
      ret (match vars !! x, vars !! y with
           | None, Some t => let (s, t) := sock_move t in set (<[x := s]> (<[y := t]> vars))
           | _, _ => p
           end)
  | SAssign x y =>
      match vars !! x, vars !! y with
      | Some s, Some t =>
          if (x =? y)%nat then ret p
          else let* (s, t) := sock_assign o s t in ret (set (<[x := s]> (<[y := t]> vars)))
      | _, _ => ret p
      end
  | SClose x =>
      match vars !! x with
      | Some s => let* (_, s) := close o s in ret (set (<[x := s]> vars))
      | None => ret p
      end
  | SRelease x =>
      match vars !! x with
      | Some s =>
          let* (fd, s') := sock_release s in
          ret (mk_program_state (<[x := s']> vars)
                 (if is_open s then {[fd]} ∪ released_fds p else released_fds p))
      | None => ret p
      end
  | SDestroy x =>
      match vars !! x with
      | Some s => let* (_, _) := close o s in ret (set (delete x vars))
      | None => ret p
      end
  end.

Fixpoint exec_socks (ops : list sock_op) (p : program_state) : M K program_state :=
  match ops with [] => ret p | op :: ops' => let* p := exec_sock op p in exec_socks ops' p end.

Context `{!SocketKernelLaws SK}.

(** The descriptors variable [x] owns. *)
Definition owns (m : gmap nat sock) (x : nat) : gset Z :=
  match m !! x with Some s => own s | None => ∅ end.

(** The open descriptors [G] are those that were open before, those released
    and those owned, each by one variable. *)
Record owned_once (F R G : gset Z) (O : nat → gset Z) : Prop := {
  oo_open fd : fd ∈ G ↔ fd ∈ F ∪ R ∨ ∃ x, fd ∈ O x;
  oo_foreign x : O x ## F ∪ R;
  oo_alone x y : x ≠ y → O x ## O y
}.

Definition upd_owns (x : nat) (X : gset Z) (O : nat → gset Z) : nat → gset Z :=
  λ y, if decide (y = x) then X else O y.

Lemma owned_ext F R G O O' : (∀ x, O' x = O x) → owned_once F R G O → owned_once F R G O'.
Proof.
  intros E [H1 H2 H3]. split.
  - intros fd. rewrite H1. setoid_rewrite E. done.
  - intros x. rewrite E. apply H2.
  - intros x y. rewrite !E. apply H3.
Qed.

Lemma owned_drop F R G O x : owned_once F R G O → owned_once F R (G ∖ O x) (upd_owns x ∅ O).
Proof.
  intros [H1 H2 H3]. unfold upd_owns. split.
  - intros fd. rewrite elem_of_difference, H1. split.
    + intros [[?|[y Hy]] Hx]; [by left|]. right. exists y. by case_decide; subst.
    + intros [Hf|[y Hy]]; [specialize (H2 x); set_solver|].
      case_decide; [set_solver|]. specialize (H3 y x). set_solver.
  - intros y. specialize (H2 y). case_decide; set_solver.
  - intros y z Hyz. specialize (H3 y z Hyz). repeat case_decide; set_solver.
Qed.

Lemma owned_new F R G O x h :
  O x = ∅ → h ∉ G → owned_once F R G O → owned_once F R ({[h]} ∪ G) (upd_owns x {[h]} O).
Proof.
  intros Hx Hh [H1 H2 H3]. unfold upd_owns.
  assert (∀ y, h ∉ O y) as Ho. { intros y Hy. apply Hh, H1. eauto. }
  assert (h ∉ F ∪ R) as Hf. { intros Hf. apply Hh, H1. by left. }
  split.
  - intros fd. rewrite elem_of_union, elem_of_singleton, H1. split.
    + intros [->|[?|[y Hy]]]; [right; exists x; case_decide; set_solver|by left|].
      right. exists y. case_decide; subst; set_solver.
    + intros [?|[y Hy]]; [auto|]. case_decide; [set_solver|eauto].
  - intros y. specialize (H2 y). case_decide; set_solver.
  - intros y z Hyz. specialize (H3 y z Hyz). pose proof (Ho y). pose proof (Ho z). repeat case_decide; set_solver.
Qed.

Lemma owned_give F R G O x y :
  x ≠ y → O x = ∅ → owned_once F R G O → owned_once F R G (upd_owns x (O y) (upd_owns y ∅ O)).
Proof.
  intros Hxy Hx [H1 H2 H3]. unfold upd_owns. split.
  - intros fd. rewrite H1. split; (intros [?|[z Hz]]; [by left|right]).
    + destruct (decide (z = y)) as [->|]; [exists x; by rewrite decide_True|].
      exists z. rewrite decide_False by (intros ->; set_solver). by rewrite decide_False.
    + repeat case_decide; [by exists y|set_solver|by exists z].
  - intros z. pose proof (H2 z). pose proof (H2 y). repeat case_decide; set_solver.
  - intros z w Hzw. pose proof (H3 z w Hzw). pose proof (H3 y w). pose proof (H3 z y).
    repeat case_decide; subst; set_solver.
Qed.

Lemma owned_release F R G O x :
  owned_once F R G O → owned_once F (O x ∪ R) G (upd_owns x ∅ O).
Proof.
  intros [H1 H2 H3]. unfold upd_owns. split.
  - intros fd. rewrite H1. split.
    + intros [?|[y Hy]]; [set_solver|]. destruct (decide (y = x)) as [->|]; [set_solver|].
      right. exists y. by rewrite decide_False.
    + intros [Hf|[y Hy]]; [|case_decide; [set_solver|by eauto]].
      destruct (decide (fd ∈ O x)); [by eauto|set_solver].
  - intros y. pose proof (H2 y). pose proof (H3 y x). case_decide; set_solver.
  - intros y z Hyz. pose proof (H3 y z Hyz). repeat case_decide; set_solver.
Qed.

Definition accounted (F : gset Z) (p : program_state) (k : K) : Prop :=
  owned_once F (released_fds p) (open_fds k) (owns (svars p)).

Lemma owns_insert x s m y : owns (<[x := s]> m) y = upd_owns x (own s) (owns m) y.
Proof.
  unfold owns, upd_owns. simpl. case_decide; subst; [by rewrite lookup_insert_eq|by rewrite lookup_insert_ne].
Qed.

Lemma owns_delete x m y : owns (delete x m) y = upd_owns x ∅ (owns m) y.
Proof.
  unfold owns, upd_owns. simpl. case_decide; subst; [by rewrite lookup_delete_eq|by rewrite lookup_delete_ne].
Qed.

Lemma own_closed s : is_open s = false → own s = ∅.
Proof. unfold own. by intros ->. Qed.

Lemma owns_lookup m x s : m !! x = Some s → owns m x = own s.
Proof. unfold owns. by intros ->. Qed.

(** Closing variable [x], and what is then done with the closed socket. *)
Lemma close_accounted F p x s (f : sock → program_state) :
  svars p !! x = Some s →
  (∀ s', is_open s' = false → released_fds (f s') = released_fds p ∧ ∀ y, owns (svars (f s')) y = upd_owns x ∅ (owns (svars p)) y) →
  triple (accounted F p) (let* (_, s') := close o s in ret (f s')) (λ p', accounted F p').
Proof.
  intros Hx Hf k Hk. destruct (close_spec o s (open_fds k) k eq_refl) as ([r s'] & k' & E & Hc & Hk').
  exists (f s'), k'. unfold bind at 1. rewrite E. split; [done|]. destruct (Hf s' Hc) as [HR HO].
  unfold accounted. rewrite HR, Hk'. eapply owned_ext; [exact HO|].
  rewrite <- (owns_lookup _ x s Hx). by apply owned_drop.
Qed.

Lemma exec_accounted_create F p x af ty :
  svars p !! x = None → triple (accounted F p) (exec_sock (SCreate x af ty) p) (λ p', accounted F p').
Proof.
  intros Hx k Hk. simpl. rewrite Hx.
  destruct (create_spec o af ty 0 (open_fds k) k eq_refl) as (r & k' & E & Hr).
  unfold bind at 1. rewrite E. eexists _, _. split; [done|]. destruct r as [s|e].
  - destruct Hr as (Ho & Hn & Hk'). unfold accounted. simpl. rewrite Hk'.
    eapply owned_ext; [intros y; apply owns_insert|].
    assert (own (mk_sock (handle_ s) (dispatcher_ s) (on_close_deregister_ s)) = {[handle_ s]}) as ->.
    { unfold own, is_open in *. simpl. by rewrite Ho. }
    apply owned_new; [unfold owns; by rewrite Hx|done|done].
  - destruct Hr as [_ Hk']. unfold accounted. by rewrite Hk'.
Qed.

Lemma give_accounted F p x y t k :
  x ≠ y → svars p !! y = Some t → owns (svars p) x = ∅ → accounted F p k →
  accounted F (mk_program_state (<[x := (sock_move t).1]> (<[y := sock_default]> (svars p))) (released_fds p)) k.
Proof.
  intros Hxy Hy Hx Hk. unfold accounted. simpl. eapply owned_ext; [|by apply (owned_give _ _ _ (owns (svars p)) x y)].
  intros z. rewrite owns_insert. unfold upd_owns at 1 2.
  case_decide; [rewrite (owns_lookup _ y t Hy); by destruct t|]. by rewrite owns_insert.
Qed.

Lemma exec_accounted_assign F p x y :
  triple (accounted F p) (exec_sock (SAssign x y) p) (λ p', accounted F p').
Proof.
  simpl. destruct (svars p !! x) as [s|] eqn:Hx; [|by apply triple_ret].
  destruct (svars p !! y) as [t|] eqn:Hy; [|by apply triple_ret].
  destruct (Nat.eqb_spec x y) as [->|Hxy]; [by apply triple_ret|].
  intros k Hk. destruct (close_accounted F p x s
    (λ s', mk_program_state (<[x := sock_default]> (svars p)) (released_fds p)) Hx) with (k := k)
    as (p' & k' & E & Hk'); [|done|].
  { intros s' _. split; [done|]. intros z. cbn [svars]. by rewrite owns_insert. }
  unfold sock_assign. unfold bind in *. destruct (close o s k) as [[[r s'] k1]|]; [|done].
  simpl in *. injection E as <- <-. eexists _, _. split; [done|].
  pose proof (give_accounted F (mk_program_state (<[x := sock_default]> (svars p)) (released_fds p)) x y t k1 Hxy) as Hg.
  cbn [svars released_fds] in Hg.
  rewrite lookup_insert_ne in Hg by done. specialize (Hg Hy).
  unfold owns in Hg at 1. rewrite lookup_insert_eq in Hg. specialize (Hg eq_refl Hk').
  rewrite insert_insert_ne, insert_insert_eq, insert_insert_ne in Hg by done. exact Hg.
Qed.

Lemma release_spec s F :
  triple (holds F) (sock_release s) (λ r k, r = (handle_ s, sock_default) ∧ holds F k).
Proof.
  eapply (triple_bind _ _ _ (λ _, holds F)); [|intros _; by apply triple_ret].
  destruct (on_close_deregister_ s); [|by apply triple_ret]. intros k Hk. eexists _, _. split; [done|].
  unfold holds in *. by rewrite law_deregister.
Qed.

Lemma exec_sock_accounted F p op : triple (accounted F p) (exec_sock op p) (λ p', accounted F p').
Proof.
  destruct op as [x|x af ty|x y|x y|x|x|x].
  - apply triple_ret. intros k Hk. destruct (svars p !! x) eqn:Hx; [done|].
    eapply owned_ext; [|exact Hk]. intros y. cbn [svars]. rewrite owns_insert. unfold upd_owns.
    case_decide; [subst; unfold owns; by rewrite Hx|done].
  - destruct (svars p !! x) eqn:Hx; [|by apply exec_accounted_create].
    simpl. rewrite Hx. by apply triple_ret.
  - apply triple_ret. intros k Hk. destruct (svars p !! x) eqn:Hx; [done|].
    destruct (svars p !! y) as [t|] eqn:Hy; [|done].
    apply give_accounted; [by intros ->; congruence|done|unfold owns; by rewrite Hx|done].
  - apply exec_accounted_assign.
  - simpl. destruct (svars p !! x) as [s|] eqn:Hx; [|by apply triple_ret].
    apply (close_accounted F p x s (λ s', mk_program_state (<[x := s']> (svars p)) (released_fds p)) Hx).
    intros s' Hs'. split; [done|]. intros y. cbn [svars]. by rewrite owns_insert, own_closed.
  - simpl. destruct (svars p !! x) as [s|] eqn:Hx; [|by apply triple_ret].
    intros k Hk. destruct (release_spec s (open_fds k) k eq_refl) as (r & k' & E & -> & Hk').
    unfold bind at 1. rewrite E. eexists _, _. split; [done|]. unfold accounted. cbn [svars released_fds].
    rewrite Hk'.
    eapply owned_ext; [intros y; apply owns_insert|].
    pose proof (owned_release F (released_fds p) (open_fds k) (owns (svars p)) x Hk) as Hr.
    rewrite (owns_lookup _ x s Hx) in Hr. unfold own in Hr. destruct (is_open s); [exact Hr|].
    by rewrite union_empty_l_L in Hr.
  - simpl. destruct (svars p !! x) as [s|] eqn:Hx; [|by apply triple_ret].
    apply (close_accounted F p x s (λ _, mk_program_state (delete x (svars p)) (released_fds p)) Hx).
    intros s' _. split; [done|]. intros y. cbn [svars]. by rewrite owns_delete.
Qed.

(** Sockets own their descriptors.  Through any program of construction,
    creation, moves, assignments, closes, releases and destructions, every
    descriptor opened is owned by exactly one socket, or was released, or is
    closed; descriptors open before are never closed; and when all sockets have
    been destroyed exactly those released are left. *)
Theorem sockets_own_descriptors F ops :
  triple (holds F) (exec_socks ops (mk_program_state ∅ ∅))
    (λ p k, accounted F p k ∧ (svars p = ∅ → open_fds k = F ∪ released_fds p)).
Proof.
  eapply triple_weaken with (Q' := λ p k, accounted F p k) (P' := accounted F (mk_program_state ∅ ∅)).
  - generalize (mk_program_state ∅ ∅). induction ops as [|op ops IH]; intros p; [by apply triple_ret|].
    eapply triple_bind; [apply exec_sock_accounted|]. intros p'. apply IH.
  - intros k Hk. unfold holds in Hk. split; simpl; [|done..]. intros fd. rewrite Hk. unfold owns. set_solver.
  - intros p k Hk. split; [done|]. intros Hv. apply set_eq. intros fd. rewrite (oo_open _ _ _ _ Hk), Hv.
    unfold owns. set_solver.
Qed.

End Programs.

(** ** Errors of a connection *)

(** The error of an asynchronous connection is not normalised.  On Linux and
    macOS [SO_ERROR] is put in the generic category, which [normalize_error]
    leaves alone: the callback gets a code that is equal to none of the
    library's, whatever the error. *)
Theorem connect_error_not_normalised {K} `{SK : SocketKernel K} `{!SocketKernelLaws SK}
    {CB} {D : Dispatcher CB} o fd (st : connect_state) k e :
  o ≠ Windows → completed st = false → e ≠ 0 → (sys_so_error fd k).1 = inl e →
  ∃ st' k', on_writable o fd st k = Some (st', k') ∧
    last (cs_calls st') = Some (Err (mk_error_code e cat_generic)) ∧
    ∀ c, mk_error_code e cat_generic ≠ make_error_code c.
Proof.
  intros Ho Hc He Hso. unfold on_writable. rewrite Hc.
  destruct (Handle.cancel (cs_timer st)) as [ids timer]. unfold bind at 1, lift.
  destruct (sys_so_error fd k) as [r k1]. simpl in Hso. subst r.
  rewrite (proj2 (Z.eqb_neq _ _) He). simpl.
  destruct (close_spec o (cs_sock st) (open_fds k1) k1 eq_refl) as ([r s] & k2 & E & _).
  unfold bind. rewrite E. eexists _, _. split; [done|]. simpl. rewrite last_snoc. split; [|done].
  unfold so_error_code, normalize_error, ec_bool. simpl. rewrite (proj2 (Z.eqb_neq _ _) He).
  by destruct o.
Qed.

(** ** A kernel for the witnesses *)

(** Its state is the set of open descriptors; connecting is refused later. *)
Definition new_fd (k : gset Z) : Z := Z.of_N (base.fresh (set_map Z.to_N k : gset N)).

#[export] Instance demo_kernel : SocketKernel (gset Z) := {|
  open_fds := id;
  sys_socket _ _ _ k := (inl (new_fd k), {[new_fd k]} ∪ k);
  sys_accept _ k := (inl (new_fd k, sock_address_default), {[new_fd k]} ∪ k);
  sys_close fd k := (None, k ∖ {[fd]});
  sys_call c _ k := (match c with CConnect _ => Some 115 | _ => None end, k);
  sys_getfl _ k := (inl 2, k);
  sys_name _ _ k := (inl sock_address_default, k);
  sys_getsockopt _ _ k := (Some 4096, k);
  sys_so_error _ k := (inl 111, k);
  deregister _ k := k
|}.

Lemma new_fd_fresh k : 0 ≤ new_fd k ∧ new_fd k ∉ k.
Proof.
  unfold new_fd. split; [apply N2Z.is_nonneg|]. intros Hin.
  apply (is_fresh (set_map Z.to_N k : gset N)). apply elem_of_map. eexists. split; [|exact Hin].
  by rewrite N2Z.id.
Qed.

#[export] Instance demo_kernel_laws : SocketKernelLaws demo_kernel.
Proof.
  split; simpl; unfold id.
  - intros _ _ _ k. destruct (new_fd_fresh k). auto.
  - intros _ k. destruct (new_fd_fresh k). auto.
  - done.
  - intros c fd k. split; [done|]. intros e He. by destruct c; simplify_eq/=.
  - done.
  - done.
  - done.
  - done.
  - done.
Qed.

Definition demo_opts : socket_options :=
  default options_default (build Linux [MNodelay true; MSendBuf 65536] options_default).

Lemma demo_opts_built : Apply.built Linux demo_opts.
Proof.
  exists [MNodelay true; MSendBuf 65536]. split; [|reflexivity].
  repeat constructor; unfold Apply.int32; lia.
Qed.

Definition demo_base : listener_base := mk_listener_base (sock_of 3) demo_opts false.

Lemma factories_balanced_witness :
  own (lb_socket demo_base) = {[3]} ∧
  triple (holds {[3]}) (accept_raw Linux demo_base)
    (λ '(r, peer) k, fresh {[3]} r k ∧ (is_Some peer ↔ has_value r = true)).
Proof.
  split; [reflexivity|].
  apply (factories_balanced Linux ipv4 sock_address_default 128 demo_opts demo_base sock_default {[3]}).
  - exact demo_opts_built.
  - exact demo_opts_built.
  - set_solver.
  - set_solver.
Defined.

Lemma connect_async_once_witness :
  ∃ a k, (let* a := connect_async 7%nat Linux ipv4 sock_address_default demo_opts 5 (∅ : gmap Z (Z * nat)) in
          run_events Linux [EWritable; ETimeout] a) (∅ : gset Z) = Some (a, k) ∧
    callbacks a = [Err (mk_error_code 111 cat_generic)] ∧ k = ∅.
Proof.
  destruct (connect_async_once (D := map_dispatcher) 7%nat Linux ipv4 sock_address_default demo_opts 5
    ∅ ∅ [EWritable; ETimeout] demo_opts_built I) with (k := (∅ : gset Z)) as (a & k & E & Hd).
  - intros fd [p Hp]. simpl in Hp. by rewrite lookup_empty in Hp.
  - reflexivity.
  - exists a, k. split; [exact E|]. destruct Hd as [[? _]|(r & Hc & Hf & _)]; [done|].
    vm_compute in E. injection E as <- <-. split; reflexivity.
Defined.

Definition demo_state : connect_state (D := map_dispatcher) :=
  mk_connect_state (sock_of 4) (Handle.mk_handle 5 true) false (∅ : gmap Z (Z * nat)) [] [].

Lemma connect_error_not_normalised_witness :
  errno_code Linux 111 = make_error_code connection_refused ∧
  ∃ st' k', on_writable Linux 4 demo_state ({[4]} : gset Z) = Some (st', k') ∧
    last (cs_calls st') = Some (Err (mk_error_code 111 cat_generic)) ∧
    ∀ c, mk_error_code 111 cat_generic ≠ make_error_code c.
Proof.
  split; [reflexivity|].
  apply (connect_error_not_normalised Linux 4 demo_state ({[4]} : gset Z) 111); [done|reflexivity|lia|reflexivity].
Defined.

Definition demo_program : list sock_op :=
  [SCreate 0 ipv4 sock_stream; SDefault 1; SAssign 1 0; SMove 2 1; SCreate 3 ipv6 sock_dgram;
   SRelease 3; SDestroy 0; SDestroy 1; SDestroy 2; SDestroy 3].

Lemma sockets_own_descriptors_witness :
  ∃ p k, exec_socks Linux demo_program (mk_program_state ∅ ∅) ({[5]} : gset Z) = Some (p, k) ∧
    accounted {[5]} p k ∧ open_fds k = {[5]} ∪ released_fds p ∧ size (released_fds p) = 1%nat.
Proof.
  destruct (sockets_own_descriptors Linux {[5]} demo_program ({[5]} : gset Z) eq_refl)
    as (p & k & E & Hacc & Hend).
  exists p, k. split; [exact E|]. split; [exact Hacc|].
  vm_compute in E. injection E as <- <-. split; [apply Hend; reflexivity|reflexivity].
Defined.
