(* ===== verification/Waker.v ===== *)
(** * Wakers and the life of a dispatcher

    [waker] of [src/src/event/waker.hpp], and the constructors and destructors of
    the dispatchers of [src/src/event/epoll.cpp] and [src/src/event/kqueue.cpp],
    with the [poll] and [wake] of the latter.

    The kernel is that of [Socket] with eventfds, pipes and event queues.
    [avail] is what waits to be read: the value of an eventfd, the bytes of a
    pipe at its read end, the packets of a completion port. *)

From S2P Require Import Prelude Platform Dispatcher EventLoop Options Socket.

Local Open Scope Z_scope.

(** ** The kernel *)

Class WakerKernel (K : Type) {S : SocketKernel K} := {
  avail : K → Z → Z;
  target : K → Z → option Z;                    (** where what is written to an eventfd or a pipe arrives *)
  sys_eventfd : K → (Z + Z) * K;
  sys_pipe : K → (Z * Z + Z) * K;               (** read end and write end *)
  sys_write_one : Z → K → K;                    (** of the value 1, or of one byte *)
  sys_read_counter : Z → K → K;
  sys_read_pipe : Z → Z → K → Z * K;            (** at most so many bytes; what [read] returns *)
  sys_post_packet : Z → K → K;
  sys_queue : K → (Z + Z) * K;                  (** [epoll_create1] or [kqueue] *)
  sys_add_waker : Z → option Z → K → option Z * K  (** [epoll_ctl] or [kevent], with the waker's *)
}.

(** What [avail] and [target] are elsewhere does not change. *)
Definition same_but {K} {S : SocketKernel K} {W : @WakerKernel K S} (fd : Z) (k k' : K) : Prop :=
  (∀ fd', fd' ≠ fd → avail k' fd' = avail k fd') ∧ (∀ fd', target k' fd' = target k fd').

(** As documented: a write that is refused finds a full counter or pipe; a read
    empties a counter and takes what there is of a pipe; descriptors are new. *)
Class WakerKernelLaws {K : Type} {S : SocketKernel K} (W : @WakerKernel K S) : Prop := {
  law_eventfd k :
    match sys_eventfd k with
    | (inl fd, k') => 0 ≤ fd ∧ fd ∉ open_fds k ∧ open_fds k' = {[fd]} ∪ open_fds k ∧
                      avail k' fd = 0 ∧ target k' fd = Some fd
    | (inr e, k') => e ≠ 0 ∧ open_fds k' = open_fds k
    end;
  law_pipe k :
    match sys_pipe k with
    | (inl (r, w), k') => 0 ≤ r ∧ 0 ≤ w ∧ r ≠ w ∧ r ∉ open_fds k ∧ w ∉ open_fds k ∧
                          open_fds k' = {[r; w]} ∪ open_fds k ∧ avail k' r = 0 ∧ target k' w = Some r
    | (inr e, k') => e ≠ 0 ∧ open_fds k' = open_fds k
    end;
  law_write fd r k :
    target k fd = Some r →
    let k' := sys_write_one fd k in
    open_fds k' = open_fds k ∧ same_but r k k' ∧
    (avail k' r = avail k r + 1 ∨ (0 < avail k r ∧ avail k' r = avail k r));
  law_read_counter fd k :
    target k fd = Some fd →
    let k' := sys_read_counter fd k in
    open_fds k' = open_fds k ∧ same_but fd k k' ∧ avail k' fd = 0;
  law_read_pipe w fd n k :
    target k w = Some fd → w ≠ fd → 0 < n → 0 ≤ avail k fd →
    let '(r, k') := sys_read_pipe fd n k in
    open_fds k' = open_fds k ∧ same_but fd k k' ∧
    (if avail k fd =? 0 then r ≤ 0 ∧ avail k' fd = 0
     else r = Z.min n (avail k fd) ∧ avail k' fd = avail k fd - r);
  law_queue k :
    match sys_queue k with
    | (inl fd, k') => 0 ≤ fd ∧ fd ∉ open_fds k ∧ open_fds k' = {[fd]} ∪ open_fds k ∧ same_but fd k k'
    | (inr e, k') => e ≠ 0 ∧ open_fds k' = open_fds k
    end;
  law_add_waker q w k :
    open_fds (sys_add_waker q w k).2 = open_fds k ∧
    ∀ fd, avail (sys_add_waker q w k).2 fd = avail k fd ∧ target (sys_add_waker q w k).2 fd = target k fd;
  (** options of a descriptor do not touch what waits *)
  law_call_avail c fd k fd' :
    avail (sys_call c fd k).2 fd' = avail k fd' ∧ target (sys_call c fd k).2 fd' = target k fd';
  law_getfl_avail fd k fd' :
    avail (sys_getfl fd k).2 fd' = avail k fd' ∧ target (sys_getfl fd k).2 fd' = target k fd'
}.

(** ** [waker] *)

(** The eventfd, the ends of the pipe and the completion port; each platform uses its own. *)
Record waker := mk_waker { efd_ : Z; pipe_read_ : Z; pipe_write_ : Z; iocp_ : option Z }.

Definition waker_default : waker := mk_waker (-1) (-1) (-1) None.

Section Waker.
Context {K : Type} {SK : SocketKernel K} {WK : @WakerKernel K SK}.
Context (o : os).

(** Both ends are closed and the error is returned, which [close] leaves alone. *)
Definition pipe_fails (r w e : Z) : M K (result waker) :=
  let* _ := lift (sys_close r) in
  let* _ := lift (sys_close w) in
  ret (Err (errno_code o e)).

(** The flags of the ends from the list on, then the waker. *)
Fixpoint set_pipe_flags (ends : list Z) (r w : Z) : M K (result waker) :=
  match ends with
  | [] => ret (Val (mk_waker (-1) r w None))
  | fd :: ends' =>
      let* flags := lift (sys_getfl fd) in
      match flags with
      | inr e => pipe_fails r w e
      | inl flags =>
          let* c := lift (sys_call (CSetFlags (Z.lor flags (O_NONBLOCK o))) fd) in
          match c with
          | Some e => pipe_fails r w e
          | None =>
              let* c := lift (sys_call CCloexec fd) in
              match c with
              | Some e => pipe_fails r w e
              | None => set_pipe_flags ends' r w
              end
          end
      end
  end.

Definition waker_create : M K (result waker) :=
  match o with
  | Linux =>
      let* r := lift sys_eventfd in
      ret (match r with inl fd => Val (mk_waker fd (-1) (-1) None) | inr e => Err (errno_code o e) end)
  | MacOS =>
      let* r := lift sys_pipe in
      match r with
      | inr e => ret (Err (errno_code o e))
      | inl (r, w) => set_pipe_flags [r; w] r w
      end
  | Windows => ret (Val waker_default)
  end.

(** [::close] if the descriptor is not negative. *)
Definition close_fd (fd : Z) : M K Z :=
  if 0 <=? fd then let* _ := lift (sys_close fd) in ret (-1) else ret fd.

Definition waker_close (w : waker) : M K waker :=
  match o with
  | Linux => let* fd := close_fd (efd_ w) in ret (mk_waker fd (pipe_read_ w) (pipe_write_ w) (iocp_ w))
  | MacOS =>
      let* r := close_fd (pipe_read_ w) in
      let* p := close_fd (pipe_write_ w) in
      ret (mk_waker (efd_ w) r p (iocp_ w))
  | Windows => ret (mk_waker (efd_ w) (pipe_read_ w) (pipe_write_ w) None)
  end.

(** The resources of [other] go to the new waker. *)
Definition waker_take (w other : waker) : waker * waker :=
  match o with
  | Linux => (mk_waker (efd_ other) (pipe_read_ w) (pipe_write_ w) (iocp_ w),
              mk_waker (-1) (pipe_read_ other) (pipe_write_ other) (iocp_ other))
  | MacOS => (mk_waker (efd_ w) (pipe_read_ other) (pipe_write_ other) (iocp_ w),
              mk_waker (efd_ other) (-1) (-1) (iocp_ other))
  | Windows => (mk_waker (efd_ w) (pipe_read_ w) (pipe_write_ w) (iocp_ other),
                mk_waker (efd_ other) (pipe_read_ other) (pipe_write_ other) None)
  end.

Definition waker_move (other : waker) : waker * waker := waker_take waker_default other.

(** Move assignment from a different waker. *)
Definition waker_assign (w other : waker) : M K (waker * waker) :=
  let* w := waker_close w in ret (waker_take w other).

Definition waker_wake (w : waker) : M K unit :=
  match o with
  | Linux => lift (λ k, ((), sys_write_one (efd_ w) k))
  | MacOS => lift (λ k, ((), sys_write_one (pipe_write_ w) k))
  | Windows => match iocp_ w with Some h => lift (λ k, ((), sys_post_packet h k)) | None => ret () end
  end.

(** [while (read(...) > 0) {}]; [None] when the fuel is spent. *)
Fixpoint read_all (fuel : nat) (fd : Z) : M K unit :=
  match fuel with
  | O => λ _, None
  | S fuel' => let* n := lift (sys_read_pipe fd 64) in if 0 <? n then read_all fuel' fd else ret ()
  end.

Definition waker_drain (fuel : nat) (w : waker) : M K unit :=
  match o with
  | Linux => lift (λ k, ((), sys_read_counter (efd_ w) k))
  | MacOS => read_all fuel (pipe_read_ w)
  | Windows => ret ()
  end.

Definition waker_fd (w : waker) : Z :=
  match o with Linux => efd_ w | MacOS => pipe_read_ w | Windows => invalid_socket end.
Definition waker_in (w : waker) : Z :=
  match o with Linux => efd_ w | MacOS => pipe_write_ w | Windows => invalid_socket end.

(** *** What a waker owns and promises *)

Definition waker_own (w : waker) : gset Z :=
  match o with
  | Linux => if 0 <=? efd_ w then {[efd_ w]} else ∅
  | MacOS => (if 0 <=? pipe_read_ w then {[pipe_read_ w]} else ∅) ∪
             (if 0 <=? pipe_write_ w then {[pipe_write_ w]} else ∅)
  | Windows => ∅
  end.

(** A waker that works: writing to it makes its descriptor readable. *)
Definition works (w : waker) (k : K) : Prop :=
  0 ≤ avail k (waker_fd w) ∧ target k (waker_in w) = Some (waker_fd w) ∧
  match o with Linux => 0 ≤ efd_ w | _ => 0 ≤ pipe_read_ w ∧ 0 ≤ pipe_write_ w ∧ pipe_read_ w ≠ pipe_write_ w end.

Definition ready (F : gset Z) (w : waker) (k : K) : Prop :=
  works w k ∧ waker_own w ## F ∧ holds (waker_own w ∪ F) k.

(** The calls of [wake] by any thread and of [drain] by the loop, and the flag they stand for. *)
Inductive wop := WWake | WDrain.

Definition exec_wop (fuel : nat) (op : wop) (w : waker) : M K unit :=
  match op with WWake => waker_wake w | WDrain => waker_drain fuel w end.
Fixpoint exec_wops (fuel : nat) (ops : list wop) (w : waker) : M K unit :=
  match ops with
  | [] => ret ()
  | op :: ops' => let* _ := exec_wop fuel op w in exec_wops fuel ops' w
  end.

Definition flag_step (b : bool) (op : wop) : bool := match op with WWake => true | WDrain => false end.
Definition flag_after (ops : list wop) (b : bool) : bool := foldl flag_step b ops.

Context `{!SocketKernelLaws SK} `{!WakerKernelLaws WK}.

Lemma close_fd_spec fd F :
  triple (holds F) (close_fd fd) (λ fd' k, fd' < 0 ∧ holds (F ∖ (if 0 <=? fd then {[fd]} else ∅)) k).
Proof.
  unfold close_fd. destruct (0 <=? fd) eqn:E; bool_facts.
  - intros k Hk. unfold bind, lift, ret. pose proof (law_close fd k) as Hc.
    destruct (sys_close fd k) as [r k']. eexists _, _. split; [done|]. split; [lia|]. unfold holds in *.
    simpl in Hc. by rewrite Hc, Hk.
  - apply triple_ret. intros k Hk. split; [lia|]. by rewrite difference_empty_L.
Qed.

Lemma waker_close_spec w F :
  o ≠ Windows →
  triple (holds F) (waker_close w) (λ w' k, waker_own w' = ∅ ∧ holds (F ∖ waker_own w) k).
Proof.
  intros Ho. unfold waker_close, waker_own. destruct o; [| |done].
  - eapply triple_bind; [apply close_fd_spec|]. intros fd. apply triple_ret. intros k [Hfd Hk]. simpl.
    by rewrite (proj2 (Z.leb_gt _ _) Hfd).
  - eapply triple_bind; [apply close_fd_spec|]. intros fd. apply triple_pure. intros Hfd.
    eapply triple_bind; [apply close_fd_spec|]. intros fd'. apply triple_ret. intros k [Hfd' Hk]. simpl.
    rewrite (proj2 (Z.leb_gt _ _) Hfd), (proj2 (Z.leb_gt _ _) Hfd'). split; [set_solver|].
    unfold holds in *. rewrite Hk. set_solver.
Qed.

(** A call on a descriptor that opens and moves nothing. *)
Definition quiet {A} (f : K → A * K) : Prop :=
  ∀ k, open_fds (f k).2 = open_fds k ∧ ∀ fd, avail (f k).2 fd = avail k fd ∧ target (f k).2 fd = target k fd.

Lemma quiet_call c fd : quiet (sys_call c fd).
Proof. intros k. split; [apply law_call|]. intros fd'. apply law_call_avail. Qed.
Lemma quiet_getfl fd : quiet (sys_getfl fd).
Proof. intros k. split; [apply law_getfl|]. intros fd'. apply law_getfl_avail. Qed.

Lemma works_ext w k k' :
  (∀ fd, avail k' fd = avail k fd ∧ target k' fd = target k fd) → works w k → works w k'.
Proof.
  intros He (Ha & Ht & Hs). unfold works. destruct (He (waker_fd w)) as [-> _], (He (waker_in w)) as [_ ->]. done.
Qed.

Lemma quiet_spec {A} (f : K → A * K) F w : quiet f → triple (ready F w) (lift f) (λ _, ready F w).
Proof.
  intros Hf k (Hw & Hd & Hk). destruct (Hf k) as [Ho Ha]. unfold lift. destruct (f k) as [a k'] eqn:E.
  exists a, k'. split; [done|]. split_and!; [by eapply works_ext|done|]. unfold holds in *. simpl in Ho. by rewrite Ho.
Qed.

Lemma pipe_fails_spec F r p e :
  o = MacOS → triple (ready F (mk_waker (-1) r p None)) (pipe_fails r p e)
    (λ res k, match res with Err _ => holds F k | Val _ => False end).
Proof.
  intros Ho k (Hw & Hd & Hk). unfold pipe_fails, bind, lift, ret. pose proof (law_close r k) as H1.
  destruct (sys_close r k) as [? k1]. pose proof (law_close p k1) as H2. destruct (sys_close p k1) as [? k2].
  eexists _, _. split; [done|]. unfold holds, waker_own, works in *. rewrite Ho in *. simpl in *.
  destruct Hw as (_ & _ & Hr & Hp & _). rewrite (proj2 (Z.leb_le _ _) Hr), (proj2 (Z.leb_le _ _) Hp) in *.
  rewrite H2, H1, Hk. set_solver.
Qed.

Lemma set_pipe_flags_spec F r p ends :
  o = MacOS → triple (λ k, ready F (mk_waker (-1) r p None) k ∧ avail k r = 0) (set_pipe_flags ends r p)
    (λ res k, match res with Err _ => holds F k | Val w => ready F w k ∧ avail k (waker_fd w) = 0 end).
Proof.
  intros Ho. 
  assert (∀ e, triple (λ k, ready F (mk_waker (-1) r p None) k ∧ avail k r = 0) (pipe_fails r p e)
    (λ res k, match res with Err _ => holds F k | Val w => ready F w k ∧ avail k (waker_fd w) = 0 end)) as Hfail.
  { intros e k [Hk _]. destruct (pipe_fails_spec F r p e Ho k Hk) as ([w|e'] & k' & E & Hq); [done|]. by eauto. }
  assert (∀ A (f : K → A * K), quiet f → triple (λ k, ready F (mk_waker (-1) r p None) k ∧ avail k r = 0) (lift f)
    (λ _ k, ready F (mk_waker (-1) r p None) k ∧ avail k r = 0)) as Hq.
  { intros A f Hf k [Hk Ha]. destruct (quiet_spec f F _ Hf k Hk) as (a & k' & E & Hk'). exists a, k'. split_and!; [done..|].
    unfold lift in E. destruct (Hf k) as [_ Hs]. injection E as E. rewrite E in Hs. simpl in Hs. by rewrite (proj1 (Hs r)). }
  induction ends as [|fd ends IH]; cbn [set_pipe_flags].
  { apply triple_ret. intros k [Hk Ha]. split; [done|]. unfold waker_fd. by rewrite Ho. }
  eapply triple_bind; [apply Hq, quiet_getfl|]. intros [flags|e]; [|apply Hfail].
  eapply triple_bind; [apply Hq, quiet_call|]. intros [e|]; [apply Hfail|].
  eapply triple_bind; [apply Hq, quiet_call|]. intros [e|]; [apply Hfail|exact IH].
Qed.

Lemma waker_create_spec F :
  o ≠ Windows →
  triple (holds F) waker_create
    (λ res k, match res with Err _ => holds F k | Val w => ready F w k ∧ avail k (waker_fd w) = 0 end).
Proof.
  intros Hposix. unfold waker_create. destruct o eqn:Ho; [| |done].
  - intros k Hk. unfold bind, lift, ret. pose proof (law_eventfd k) as Hl.
    destruct (sys_eventfd k) as [[fd|e] k'].
    + destruct Hl as (H0 & Hn & Hf & Ha & Ht). eexists _, _. split; [done|].
      unfold ready, works, waker_own, waker_fd, waker_in, holds in *. rewrite Ho. simpl.
      rewrite (proj2 (Z.leb_le _ _) H0). subst F. split_and!; try done; [lia|set_solver].
    + eexists _, _. split; [done|]. unfold holds in *. by rewrite (proj2 Hl).
  - intros k Hk. unfold bind, lift. pose proof (law_pipe k) as Hl.
    destruct (sys_pipe k) as [[[r p]|e] k'].
    + destruct Hl as (H0 & H1 & Hne & Hnr & Hnp & Hf & Ha & Ht). apply (set_pipe_flags_spec F r p); [done|].
      split; [|done]. unfold ready, works, waker_own, waker_fd, waker_in, holds in *. rewrite Ho. simpl.
      rewrite (proj2 (Z.leb_le _ _) H0), (proj2 (Z.leb_le _ _) H1). subst F. split_and!; try done; [lia|set_solver].
    + eexists _, _. split; [done|]. unfold holds in *. by rewrite (proj2 Hl).
Qed.

(** A change of what waits at the waker alone. *)
Lemma ready_same F w k k' :
  ready F w k → open_fds k' = open_fds k → same_but (waker_fd w) k k' → 0 ≤ avail k' (waker_fd w) → ready F w k'.
Proof.
  intros ((_ & Ht & Hs) & Hd & Hk) Ho [_ Htgt] Ha. split; [|split; [done|]].
  - split; [done|]. split; [by rewrite Htgt|done].
  - unfold holds in *. by rewrite Ho.
Qed.

Lemma wake_spec F w n :
  o ≠ Windows →
  triple (λ k, ready F w k ∧ avail k (waker_fd w) ≤ n) (waker_wake w)
    (λ _ k, ready F w k ∧ 0 < avail k (waker_fd w) ≤ n + 1).
Proof.
  intros Ho k [Hr Hn]. pose proof Hr as ((Ha & Ht & _) & _).
  destruct (law_write _ _ _ Ht) as (Hf & Hs & Hav).
  assert (waker_wake w k = Some ((), sys_write_one (waker_in w) k)) as ->.
  { unfold waker_wake, waker_in, lift. by destruct o. }
  eexists _, _. split; [done|]. split; [|lia]. apply (ready_same F w k); [done..|lia].
Qed.

Lemma read_all_spec F w fuel :
  o = MacOS →
  triple (λ k, ready F w k ∧ avail k (waker_fd w) < Z.of_nat fuel) (read_all fuel (pipe_read_ w))
    (λ _ k, ready F w k ∧ avail k (waker_fd w) = 0).
Proof.
  intros Ho. induction fuel as [|fuel IH]; intros k [Hr Hn]; pose proof Hr as ((Ha & Ht & Hs) & _); [lia|].
  cbn [read_all]. unfold bind, lift.
  assert (waker_fd w = pipe_read_ w ∧ waker_in w = pipe_write_ w) as [Efd Ein] by (unfold waker_fd, waker_in; by rewrite Ho).
  rewrite Ho in Hs. pose proof (law_read_pipe (pipe_write_ w) (pipe_read_ w) 64 k) as Hl. rewrite <-Efd, <-Ein in *.
  specialize (Hl Ht ltac:(destruct Hs as (_ & _ & ?); congruence) ltac:(lia) Ha).
  destruct (sys_read_pipe (waker_fd w) 64 k) as [r k']. destruct Hl as (Hf & Hsame & Hav).
  destruct (avail k (waker_fd w) =? 0) eqn:E0; bool_facts.
  - destruct (0 <? r) eqn:Er; bool_facts; [lia|]. eexists _, _. split; [done|].
    split; [|lia]. apply (ready_same F w k); [done..|lia].
  - destruct (0 <? r) eqn:Er; bool_facts; [|lia]. apply IH. split; [|lia]. apply (ready_same F w k); [done..|lia].
Qed.

Lemma waker_drain_spec F w fuel :
  o ≠ Windows →
  triple (λ k, ready F w k ∧ avail k (waker_fd w) < Z.of_nat fuel) (waker_drain fuel w)
    (λ _ k, ready F w k ∧ avail k (waker_fd w) = 0).
Proof.
  intros Hp. unfold waker_drain. destruct o eqn:Ho; [|by apply read_all_spec|done].
  intros k [Hr _]. pose proof Hr as ((Ha & Ht & _) & _).
  assert (waker_fd w = efd_ w ∧ waker_in w = efd_ w) as [Efd Ein] by (unfold waker_fd, waker_in; by rewrite Ho).
  rewrite Efd, Ein in *. destruct (law_read_counter _ _ Ht) as (Hf & Hsame & Hav).
  eexists _, _. split; [done|]. split; [|done]. apply (ready_same F w k); rewrite ?Efd; [done..|lia].
Qed.

Lemma exec_wops_spec F w fuel ops n b :
  o ≠ Windows → n + Z.of_nat (length ops) < Z.of_nat fuel →
  triple (λ k, ready F w k ∧ avail k (waker_fd w) ≤ n ∧ (0 < avail k (waker_fd w) ↔ b = true)) (exec_wops fuel ops w)
    (λ _ k, ready F w k ∧ (0 < avail k (waker_fd w) ↔ flag_after ops b = true)).
Proof.
  intros Ho. revert n b. induction ops as [|op ops IH]; intros n b Hfuel; simpl in Hfuel; cbn [exec_wops].
  { apply triple_ret. by intros k (? & _ & ?). }
  eapply triple_bind.
  2: { intros u. apply (IH (n + 1) (flag_step b op)). lia. }
  intros k (Hr & Hn & Hb). destruct op; cbn [exec_wop].
  - destruct (wake_spec F w n Ho k) as (u & k' & E & Hr' & Ha); [done|]. exists u, k'. split_and!; [done..|lia|].
    simpl. split; [done|lia].
  - destruct (waker_drain_spec F w fuel Ho k) as (u & k' & E & Hr' & Ha); [split; [done|lia]|].
    exists u, k'. pose proof Hr as ((? & _) & _). split_and!; [done..|lia|]. simpl. split; [lia|done].
Qed.

Lemma take_ready F w k :
  o ≠ Windows → ready F w k → ready F (waker_take waker_default w).1 k ∧
  waker_fd (waker_take waker_default w).1 = waker_fd w ∧ waker_own (waker_take waker_default w).2 = ∅.
Proof.
  unfold ready, works, waker_own, waker_fd, waker_in, waker_take. intros Ho.
  destruct o; simpl; intros H; split_and!; try apply H; done || set_solver.
Qed.

Lemma close_nothing w k : waker_own w = ∅ → ∃ w', waker_close w k = Some (w', k).
Proof.
  unfold waker_own, waker_close, close_fd. destruct o; [| |by eexists].
  - destruct (0 <=? efd_ w); [set_solver|]. intros _. by eexists.
  - destruct (0 <=? pipe_read_ w); [set_solver|]. destruct (0 <=? pipe_write_ w); [set_solver|]. intros _. by eexists.
Qed.

Lemma ready_close F w k :
  o ≠ Windows → ready F w k → ∃ w' k', waker_close w k = Some (w', k') ∧ holds F k'.
Proof.
  intros Ho (_ & Hd & Hk). destruct (waker_close_spec w _ Ho k Hk) as (w' & k' & E & _ & Hk').
  exists w', k'. split; [done|]. unfold holds in *. rewrite Hk'. set_solver.
Qed.

(** C21. A waker is a flag.  On Linux and macOS a waker that could be created, and
    that is moved into its dispatcher, is readable exactly when a [wake] has come
    after the last [drain], however many there were; [drain] returns, the loop of
    the pipe included; a waker that could not be created leaves no descriptor, and
    closing one leaves those there were before. *)
Theorem waker_refines_flag F fuel ops :
  o ≠ Windows → (length ops < fuel)%nat →
  triple (holds F)
    (let* r := waker_create in
     match r with
     | Err e => ret (Err e)
     | Val w =>
         let (w, left) := waker_move w in
         let* _ := waker_close left in
         let* _ := exec_wops fuel ops w in
         ret (Val w)
     end)
    (λ r k,
       match r with
       | Err _ => holds F k
       | Val w =>
           (0 < avail k (waker_fd w) ↔ flag_after ops false = true) ∧ holds (waker_own w ∪ F) k ∧ waker_own w ## F ∧
           ∃ w' k', waker_close w k = Some (w', k') ∧ holds F k'
       end).
Proof.
  intros Ho Hfuel. eapply triple_bind; [by apply waker_create_spec|]. intros [w|e]; [|by apply triple_ret].
  intros k [Hr Ha]. unfold waker_move. destruct (take_ready F w k Ho Hr) as (Hr1 & Efd & Hleft).
  destruct (waker_take waker_default w) as [w1 left]. simpl in *.
  destruct (close_nothing left k Hleft) as [left' E1].
  destruct (exec_wops_spec F w1 fuel ops 0 false Ho ltac:(lia) k) as (u & k2 & E2 & Hr2 & Hb).
  { rewrite Efd. split_and!; [done|lia|]. split; [lia|done]. }
  exists (Val w1), k2. split; [unfold bind; by rewrite E1, E2|]. pose proof Hr2 as (_ & Hd & Hk2).
  split_and!; [done..|by apply ready_close].
Qed.

(** ** Constructors and destructors of the dispatchers *)

(** [None]: the constructor throws, after its members are destroyed. *)
Definition epoll_construct : M K (option (Z * waker)) :=
  let* r := lift sys_queue in
  match r with
  | inr _ => ret None
  | inl epoll_fd =>
      let* waker_result := waker_create in
      match waker_result with
      | Err _ => let* _ := lift (sys_close epoll_fd) in ret None
      | Val wr =>
          let* (w, wr) := waker_assign waker_default wr in
          let* a := lift (sys_add_waker epoll_fd (Some (waker_fd w))) in
          match a with
          | Some _ =>
              let* _ := lift (sys_close epoll_fd) in
              let* _ := waker_close wr in
              let* _ := waker_close w in
              ret None
          | None => let* _ := waker_close wr in ret (Some (epoll_fd, w))
          end
      end
  end.

Fixpoint close_timers (tfds : list Z) : M K unit :=
  match tfds with
  | [] => ret ()
  | tfd :: tfds' => let* _ := lift (sys_close tfd) in close_timers tfds'
  end.

(** The destructor, with the keys of [timer_callbacks_]. *)
Definition epoll_destroy (tfds : list Z) (epoll_fd : Z) (w : waker) : M K waker :=
  let* _ := close_timers tfds in
  let* _ := close_fd epoll_fd in
  waker_close w.

Definition kqueue_construct : M K (option Z) :=
  let* r := lift sys_queue in
  match r with
  | inr _ => ret None
  | inl kq =>
      let* a := lift (sys_add_waker kq None) in
      match a with
      | Some _ => let* _ := lift (sys_close kq) in ret None
      | None => ret (Some kq)
      end
  end.

Definition kqueue_destroy (kq : Z) : M K Z := close_fd kq.

Lemma sys_close_spec fd F : triple (holds F) (lift (sys_close fd)) (λ _, holds (F ∖ {[fd]})).
Proof.
  intros k Hk. unfold lift. pose proof (law_close fd k) as Hc. destruct (sys_close fd k) as [r k'].
  eexists _, _. split; [done|]. unfold holds in *. simpl in Hc. by rewrite Hc, Hk.
Qed.

Lemma close_timers_spec tfds F : triple (holds F) (close_timers tfds) (λ _, holds (F ∖ list_to_set tfds)).
Proof.
  revert F. induction tfds as [|tfd tfds IH]; intros F; cbn [close_timers].
  { apply triple_ret. intros k Hk. unfold holds in *. simpl. set_solver. }
  eapply triple_bind; [apply sys_close_spec|]. intros _r. eapply triple_weaken; [apply IH|done|].
  intros u k Hk. unfold holds in *. rewrite Hk. simpl. set_solver.
Qed.

Lemma queue_spec F :
  triple (holds F) (lift sys_queue)
    (λ r k, match r with inl q => 0 ≤ q ∧ q ∉ F ∧ holds ({[q]} ∪ F) k | inr _ => holds F k end).
Proof.
  intros k Hk. unfold lift. pose proof (law_queue k) as Hq. destruct (sys_queue k) as [[q|e] k']; eexists _, _;
    (split; [done|]); unfold holds in *; destruct Hq as (? & ? & ?) || destruct Hq as [_ Hq]; subst F; naive_solver.
Qed.

Lemma epoll_destroy_spec tfds q w F :
  o ≠ Windows → 0 ≤ q → q ∉ F → waker_own w ## F → list_to_set tfds ## F →
  triple (holds ({[q]} ∪ waker_own w ∪ list_to_set tfds ∪ F)) (epoll_destroy tfds q w) (λ _, holds F).
Proof.
  intros Ho Hq Hn Hw Ht. eapply triple_bind; [apply close_timers_spec|]. intros _r.
  eapply triple_bind; [apply close_fd_spec|]. intros _r'. apply triple_pure. intros _.
  eapply triple_weaken; [by apply waker_close_spec|done|]. intros w' k [_ Hk].
  rewrite (proj2 (Z.leb_le _ _) Hq) in Hk. unfold holds in *. rewrite Hk. set_solver.
Qed.

Lemma kqueue_construct_spec F :
  triple (holds F) kqueue_construct
    (λ r k, match r with Some q => 0 ≤ q ∧ q ∉ F ∧ holds ({[q]} ∪ F) k | None => holds F k end).
Proof.
  eapply triple_bind; [apply queue_spec|]. intros [q|e]; [|by apply triple_ret].
  intros k (Hq & Hn & Hk). revert k Hk. eapply triple_bind.
  { apply (lift_spec _ _ (λ _, True)). intros k. split; [apply law_add_waker|done]. }
  intros [e|].
  - eapply triple_bind; [eapply triple_weaken; [apply sys_close_spec|by intros k [_ Hk]|done]|].
    intros _r. apply triple_ret. intros k Hk. unfold holds in *. rewrite Hk. set_solver.
  - apply triple_ret. by intros k [_ Hk].
Qed.

Lemma assign_ready F w k :
  o ≠ Windows → ready F w k →
  ∃ w' left, waker_assign waker_default w k = Some ((w', left), k) ∧ ready F w' k ∧ waker_own left = ∅.
Proof.
  intros Ho Hr. destruct (take_ready F w k Ho Hr) as (Hr' & _ & Hl).
  assert (waker_close waker_default k = Some (waker_default, k)) as E by (unfold waker_close; by destruct o).
  unfold waker_assign, bind. rewrite E. destruct (waker_take waker_default w) as [w' left]. by eexists _, _.
Qed.

Lemma epoll_construct_spec F :
  o ≠ Windows →
  triple (holds F) epoll_construct
    (λ r k, match r with
            | Some (q, w) => 0 ≤ q ∧ q ∉ F ∧ ready ({[q]} ∪ F) w k
            | None => holds F k
            end).
Proof.
  intros Ho. eapply triple_bind; [apply queue_spec|]. intros [q|e]; [|by apply triple_ret].
  intros k (Hq & Hn & Hk). revert k Hk. eapply triple_bind; [by apply waker_create_spec|]. intros [wr|e].
  - intros k [Hr _]. destruct (assign_ready _ _ _ Ho Hr) as (w & left & E & Hr1 & Hl). unfold bind at 1. rewrite E.
    destruct (quiet_spec (sys_add_waker q (Some (waker_fd w))) ({[q]} ∪ F) w) with (k := k) as (a & k1 & E1 & Hr2); [|done|].
    { intros k0. apply law_add_waker. }
    unfold bind at 1. rewrite E1. destruct a as [e|].
    + destruct Hr2 as (_ & Hd & Hk1). destruct (sys_close_spec q _ k1 Hk1) as (r & k2 & E2 & Hk2).
      destruct (close_nothing left k2 Hl) as [left' E3].
      destruct (waker_close_spec w _ Ho k2 Hk2) as (w' & k3 & E4 & _ & Hk3).
      exists None, k3. unfold bind. rewrite E2, E3, E4. split; [done|]. unfold holds in *. rewrite Hk3. set_solver.
    + destruct (close_nothing left k1 Hl) as [left' E3]. eexists (Some (q, w)), k1. unfold bind. rewrite E3. done.
  - eapply triple_bind; [apply sys_close_spec|]. intros _r. apply triple_ret. intros k Hk.
    unfold holds in *. rewrite Hk. set_solver.
Qed.

(** Dispatchers own their descriptors.  The constructor of an epoll or kqueue
    dispatcher that throws, at whichever call, leaves the descriptors there were
    before; one that succeeds has opened its queue and the descriptors of a waker
    that works, nothing else; and the destructor closes these
    and the descriptors of all timers scheduled since. *)
Theorem dispatchers_balanced F :
  o ≠ Windows →
  triple (holds F) epoll_construct
    (λ r k,
       match r with
       | None => holds F k
       | Some (q, w) =>
           q ∉ F ∧ works w k ∧ waker_own w ## {[q]} ∪ F ∧ holds (waker_own w ∪ ({[q]} ∪ F)) k ∧
           ∀ tfds k', list_to_set tfds ## F → holds (list_to_set tfds ∪ (waker_own w ∪ ({[q]} ∪ F))) k' →
             ∃ w' k'', epoll_destroy tfds q w k' = Some (w', k'') ∧ holds F k''
       end) ∧
  triple (holds F) kqueue_construct
    (λ r k,
       match r with
       | None => holds F k
       | Some q => q ∉ F ∧ holds ({[q]} ∪ F) k ∧ ∃ r k', kqueue_destroy q k = Some (r, k') ∧ holds F k'
       end).
Proof.
  intros Ho. split.
  - eapply triple_weaken; [by apply epoll_construct_spec|done|]. intros [[q w]|] k; [|done].
    intros (Hq & Hn & Hw & Hd & Hk). split_and!; [done..|]. intros tfds k' Ht Hk'.
    destruct (epoll_destroy_spec tfds q w F Ho Hq Hn) with (k := k') as (w' & k'' & E & Hk''); [set_solver|done| |by eauto].
    unfold holds in *. rewrite Hk'. set_solver.
  - eapply triple_weaken; [apply kqueue_construct_spec|done|]. intros [q|] k; [|done]. intros (Hq & Hn & Hk).
    split_and!; [done..|]. destruct (close_fd_spec q _ k Hk) as (r & k' & E & _ & Hk'). exists r, k'. split; [done|].
    rewrite (proj2 (Z.leb_le _ _) Hq) in Hk'. unfold holds in *. rewrite Hk'. set_solver.
Qed.

End Waker.

(** ** [poll] and [wake] of kqueue *)

Module KqueuePoll.
Import Kqueue.

Section Poll.
Context `{K : KqueueKernel} {CB TCB : Type} (errnos : posix_errno).
Context (run_io : CB → Z → Z → kqueue_dispatcher CB TCB → kqueue_dispatcher CB TCB).
Context (run_timer : TCB → kqueue_dispatcher CB TCB → kqueue_dispatcher CB TCB).

(** The time to wait: seconds and nanoseconds, or for ever. *)
Definition kq_timespec (timeout_ms : Z) : option (Z * Z) :=
  if 0 <=? timeout_ms then Some (Z.quot timeout_ms 1000, Z.rem timeout_ms 1000 * 1000000) else None.

Fixpoint kq_dispatch_all (es : list kevent_t) (d : kqueue_dispatcher CB TCB) :
    option (list kq_dispatched * kqueue_dispatcher CB TCB) :=
  match es with
  | [] => Some ([], d)
  | e :: es' =>
      match kq_dispatch run_io run_timer e d with
      | None => None
      | Some (x, d) =>
          match kq_dispatch_all es' d with
          | None => None
          | Some (xs, d) => Some (x :: xs, d)
          end
      end
  end.

(** [poll], given what [kevent] returned for the time to wait. *)
Definition kq_poll (wait : option (Z * Z) → Z + list kevent_t) (timeout_ms : Z) (d : kqueue_dispatcher CB TCB) :
    option (result Z * list kq_dispatched * kqueue_dispatcher CB TCB) :=
  match wait (kq_timespec timeout_ms) with
  | inl e =>
      if e =? EINTR errnos then Some (Val 0, [], d)
      else Some (Err (normalize_error (posix_switch errnos) (last_socket_error e)), [], d)
  | inr es =>
      match kq_dispatch_all es d with
      | None => None
      | Some (xs, d) => Some (Val (Z.of_nat (length es)), xs, d)
      end
  end.

Definition NOTE_TRIGGER : Z := 0x01000000.
Definition kq_wake (d : kqueue_dispatcher CB TCB) : kqueue_dispatcher CB TCB :=
  set_kq (kevent [mk_kevent WAKER_IDENT EVFILT_USER 0 NOTE_TRIGGER] (kq d)).2 d.

(** The time is exact and a valid [timespec]. *)
Lemma kq_timespec_exact t s ns :
  kq_timespec t = Some (s, ns) → 0 ≤ s ∧ 0 ≤ ns < 1000000000 ∧ s * 1000 + ns / 1000000 = t.
Proof.
  unfold kq_timespec. destruct (0 <=? t) eqn:E; [|done]. bool_facts. intros [= <- <-].
  pose proof (Z.quot_rem' t 1000). pose proof (Z.rem_bound_pos t 1000). rewrite Z.div_mul by done.
  pose proof (Z.quot_pos t 1000). lia.
Qed.

(** A callback of a timer does not cancel that timer. *)
Definition keeps_own_timer : Prop :=
  ∀ id info d, kq_timer_callbacks_ d !! id = Some info →
    is_Some (kq_timer_callbacks_ (run_timer (kt_callback info) d) !! id).

Lemma kq_dispatch_all_total es d :
  keeps_own_timer → ∃ xs d', kq_dispatch_all es d = Some (xs, d') ∧ length xs = length es.
Proof.
  intros Hk. revert d. induction es as [|e es IH]; intros d; [by eexists _, _|]. cbn [kq_dispatch_all].
  assert (is_Some (kq_dispatch run_io run_timer e d)) as [[x d1] ->].
  { unfold kq_dispatch. destruct (_ && _); [by eexists|]. destruct (bool_decide _).
    - destruct (kq_timer_callbacks_ d !! ke_ident e) as [info|] eqn:E; [|by eexists].
      destruct (Hk _ _ _ E) as [info' ->]. by eexists.
    - destruct (kq_callbacks_ d !! ke_ident e); by eexists. }
  destruct (IH d1) as (xs & d' & -> & Hl). eexists _, _. split; [done|]. simpl. lia.
Qed.

(** [poll] handles every event, unless a timer cancels itself in its callback. *)
Lemma kq_poll_total wait t d :
  keeps_own_timer →
  ∃ r xs d', kq_poll wait t d = Some (r, xs, d') ∧
    match wait (kq_timespec t) with
    | inr es => r = Val (Z.of_nat (length es)) ∧ length xs = length es
    | inl e => d' = d ∧ (r = Val 0 ↔ e = EINTR errnos)
    end.
Proof.
  intros Hk. unfold kq_poll. destruct (wait (kq_timespec t)) as [e|es].
  - destruct (e =? EINTR errnos) eqn:E; bool_facts; (eexists _, _, _; split; [done|]); by split.
  - destruct (kq_dispatch_all_total es d Hk) as (xs & d' & -> & Hl). by eexists _, _, _.
Qed.

(** Waking changes no registration. *)
Lemma kq_wake_keeps `{!KqueueKernelLaws K} d :
  kq_filters (kq (kq_wake d)) = kq_filters (kq d) ∧ kq_callbacks_ (kq_wake d) = kq_callbacks_ d ∧
  interests_ (kq_wake d) = interests_ d ∧ kq_timer_callbacks_ (kq_wake d) = kq_timer_callbacks_ d.
Proof.
  unfold kq_wake. destruct (kevent _ (kq d)) as [e k'] eqn:E. simpl. split_and!; [|done..].
  destruct (kevent_applies _ _ _ _ E) as (n & -> & _). by destruct n as [|[|n]].
Qed.

End Poll.
End KqueuePoll.

(** ** Witnesses *)

(** A kernel whose eventfds and pipes hold at most 3. *)
Record wk := mk_wk { wk_fds : gset Z; wk_avail : gmap Z Z; wk_target : gmap Z Z }.

Definition wk_open (fds : gset Z) (fd : Z) (k : wk) : wk := mk_wk ({[fd]} ∪ fds) (wk_avail k) (wk_target k).
Definition wk_avail_of (k : wk) (fd : Z) : Z := default 0 (wk_avail k !! fd).
Definition wk_set (fd n : Z) (k : wk) : wk := mk_wk (wk_fds k) (<[fd := n]> (wk_avail k)) (wk_target k).
Definition wk_aim (fd r : Z) (k : wk) : wk := mk_wk (wk_fds k) (wk_avail k) (<[fd := r]> (wk_target k)).

#[export] Instance wk_socket : SocketKernel wk := {|
  open_fds := wk_fds;
  sys_socket _ _ _ k := (inr 24, k);
  sys_accept _ k := (inr 11, k);
  sys_close fd k := (None, mk_wk (wk_fds k ∖ {[fd]}) (wk_avail k) (wk_target k));
  sys_call _ _ k := (None, k);
  sys_getfl _ k := (inl 2, k);
  sys_name _ _ k := (inr 9, k);
  sys_getsockopt _ _ k := (None, k);
  sys_so_error _ k := (inl 0, k);
  deregister _ k := k
|}.

#[export] Instance wk_waker : WakerKernel wk := {|
  avail := wk_avail_of;
  target k fd := wk_target k !! fd;
  sys_eventfd k :=
    let fd := new_fd (wk_fds k) in (inl fd, wk_set fd 0 (wk_aim fd fd (wk_open (wk_fds k) fd k)));
  sys_pipe k :=
    let r := new_fd (wk_fds k) in
    let w := new_fd ({[r]} ∪ wk_fds k) in
    (inl (r, w), wk_set r 0 (wk_aim w r (wk_open ({[r]} ∪ wk_fds k) w k)));
  sys_write_one fd k :=
    match wk_target k !! fd with
    | Some r => if wk_avail_of k r <? 3 then wk_set r (wk_avail_of k r + 1) k else k
    | None => k
    end;
  sys_read_counter fd k := wk_set fd 0 k;
  sys_read_pipe fd n k :=
    if wk_avail_of k fd =? 0 then (-1, k)
    else (Z.min n (wk_avail_of k fd), wk_set fd (wk_avail_of k fd - Z.min n (wk_avail_of k fd)) k);
  sys_post_packet fd k := wk_set fd (wk_avail_of k fd + 1) k;
  sys_queue k := let fd := new_fd (wk_fds k) in (inl fd, wk_open (wk_fds k) fd k);
  sys_add_waker _ _ k := (None, k)
|}.

#[export] Instance wk_socket_laws : SocketKernelLaws wk_socket.
Proof. split; try done; intros; simpl; (split; [|done]) || idtac; done. Qed.

Lemma wk_set_avail fd n k : wk_avail_of (wk_set fd n k) fd = n.
Proof. unfold wk_avail_of. simpl. by rewrite lookup_insert_eq. Qed.
Lemma wk_set_same fd n k : same_but fd k (wk_set fd n k).
Proof.
  split; [|done]. intros fd' Hne. simpl. unfold wk_avail_of. simpl. by rewrite lookup_insert_ne.
Qed.

#[export] Instance wk_waker_laws : WakerKernelLaws wk_waker.
Proof.
  split; try done.
  - intros k. simpl. destruct (new_fd_fresh (wk_fds k)). rewrite wk_set_avail, lookup_insert_eq. done.
  - intros k. simpl. destruct (new_fd_fresh (wk_fds k)) as [H1 H2].
    destruct (new_fd_fresh ({[new_fd (wk_fds k)]} ∪ wk_fds k)) as [H3 H4].
    rewrite wk_set_avail, lookup_insert_eq. split_and!; try done; set_solver.
  - intros fd r k Ht. simpl in *. rewrite Ht. destruct (wk_avail_of k r <? 3) eqn:E; bool_facts.
    + split_and!; [done|apply wk_set_same|]. left. by rewrite wk_set_avail.
    + split_and!; [done|done|]. right. split; [lia|done].
  - intros fd k Ht. simpl. split_and!; [done|apply wk_set_same|apply wk_set_avail].
  - intros w fd n k Ht Hne Hn Ha. simpl in *. destruct (wk_avail_of k fd =? 0) eqn:E; bool_facts.
    + split_and!; [done|done|lia|done].
    + split_and!; [done|apply wk_set_same|done|apply wk_set_avail].
  - intros k. simpl. destruct (new_fd_fresh (wk_fds k)). done.
Qed.

Definition wk_init : wk := mk_wk {[0; 1; 2]} ∅ ∅.

Lemma waker_refines_flag_witness :
  ∃ w k, (let* r := waker_create MacOS in
          match r with
          | Err e => ret (Err e)
          | Val w =>
              let (w, left) := waker_move MacOS w in
              let* _ := waker_close MacOS left in
              let* _ := exec_wops MacOS 6 [WWake; WWake; WDrain; WWake] w in
              ret (Val w)
          end) wk_init = Some (Val w, k) ∧
    0 < avail k (waker_fd MacOS w) ∧ waker_own MacOS w = {[3; 4]}.
Proof.
  destruct (waker_refines_flag (WK := wk_waker) MacOS {[0; 1; 2]} 6 [WWake; WWake; WDrain; WWake]
    ltac:(done) ltac:(simpl; lia) wk_init eq_refl) as (r & k & E & Hr).
  destruct r as [w|e].
  - exists w, k. split; [exact E|]. destruct Hr as (Hf & _). split; [by apply Hf|].
    assert (from_option (λ p, match p.1 with Val w => bool_decide (waker_own MacOS w = {[3; 4]}) | Err _ => false end)
      false (Some (Val w, k)) = true) as Hv by (rewrite <-E; vm_compute; reflexivity).
    simpl in Hv. by apply bool_decide_eq_true in Hv.
  - exfalso. assert (from_option (λ p, has_value p.1) false (Some ((Err e : result waker), k)) = true) as Hv
      by (rewrite <-E; vm_compute; reflexivity). done.
Defined.

Lemma dispatchers_balanced_witness :
  ∃ q w k, epoll_construct Linux wk_init = Some (Some (q, w), k) ∧ q ∉ ({[0; 1; 2]} : gset Z) ∧
    ∃ w' k', epoll_destroy Linux [] q w k = Some (w', k') ∧ holds {[0; 1; 2]} k'.
Proof.
  destruct (dispatchers_balanced (WK := wk_waker) Linux {[0; 1; 2]} ltac:(done)) as [He _].
  destruct (He wk_init eq_refl) as (r & k & E & Hr). destruct r as [[q w]|].
  - exists q, w, k. split; [exact E|]. destruct Hr as (Hn & _ & _ & Hk & Hd). split; [exact Hn|].
    apply Hd; [set_solver|]. unfold holds in *. rewrite Hk. set_solver.
  - exfalso. assert (from_option (λ p, if p.1 is Some _ then true else false) false
      (Some ((None : option (Z * waker)), k)) = true) as Hv by (rewrite <-E; vm_compute; reflexivity). done.
Defined.
