(* ===== verification/Iocp.v ===== *)
(** * The IOCP dispatcher

    [src/src/event/iocp.cpp]: readiness emulated on completion ports.

    Each registered socket has a [per_socket_state] at an address of its own, in
    which the kernel's overlapped operations live; a pointer that outlives its
    state is dangling, and using it is undefined ([None]).  The Windows calls
    are those of a kernel that is an argument; its laws say which overlapped
    operations are outstanding.  A callback is an argument too: it may call the
    dispatcher again, and so takes and returns the whole state. *)

From S2P Require Import Prelude Platform Address Dispatcher.

Local Open Scope Z_scope.

(** ** The kernel *)

(** [lpOverlapped]: the operations of the state at address [a], or the id of a
    timer that was passed through the pointer. *)
Inductive overlapped :=
| OvNull | OvTimer (id : Z) | OvRead (a : nat) | OvWrite (a : nat) | OvSlot (a i : nat).

#[export] Instance overlapped_eq_dec : EqDecision overlapped.
Proof. solve_decision. Defined.

#[export] Instance overlapped_countable : Countable overlapped.
Proof.
  refine (inj_countable'
    (λ ov, match ov with
           | OvNull => inl (inl tt) | OvTimer id => inl (inr id)
           | OvRead a => inr (inl (inl a)) | OvWrite a => inr (inl (inr a)) | OvSlot a i => inr (inr (a, i))
           end)
    (λ x, match x with
          | inl (inl _) => OvNull | inl (inr id) => OvTimer id
          | inr (inl (inl a)) => OvRead a | inr (inl (inr a)) => OvWrite a | inr (inr (a, i)) => OvSlot a i
          end) _).
  by intros [].
Defined.

(** An [OVERLAPPED_ENTRY], with what [WSAGetOverlappedResult] says of a receive:
    the bytes and their sender, or failure. *)
Record entry := mk_entry {
  e_key : Z; e_ov : overlapped; e_bytes : Z; e_result : option (bytes * sock_address)
}.

Definition WAKER_KEY : Z := 0xffffffff.
Definition TIMER_KEY : Z := 2 ^ 64 - 2.
Definition ERROR_INVALID_PARAMETER : Z := 87.
Definition WSA_IO_PENDING : Z := 997.
Definition WAIT_TIMEOUT : Z := 258.
Definition INFINITE : Z := 2 ^ 32 - 1.
Definition POLLRDNORM : Z := 0x100.
Definition POLLERR : Z := 0x1.
Definition POLLHUP : Z := 0x2.

(** Calls return an error code, or [None] on success. *)
Class IocpKernel (K : Type) := {
  create_port : K → bool * K;
  close_port : K → K;
  so_acceptconn : Z → K → bool;
  so_dgram : Z → K → bool;
  associate : Z → K → option Z * K;
  wsa_recv : Z → overlapped → K → option Z * K;
  wsa_send : Z → overlapped → K → option Z * K;
  wsa_recv_from : Z → overlapped → K → option Z * K;
  cancel_io : Z → K → K;
  (** [revents] of each descriptor, when any is ready *)
  wsa_poll : list Z → K → option (list Z) * K;
  (** [GetQueuedCompletionStatusEx] *)
  get_completions : Z → K → (list entry + Z) * K;
  post_packet : Z → overlapped → K → K;
  create_tp_timer : Z → K → bool * K;
  set_tp_timer : Z → Z → Z → K → K;
  (** undefined on a timer that is not open *)
  close_tp_timer : Z → K → option K;
  (** the operations issued whose completion has not been dequeued, each with
      its socket, and the timers created and not closed *)
  outstanding : K → gset (Z * overlapped);
  tp_open : K → gset Z
}.

(** An arming call that returned [r] has a completion to come. *)
Definition armed (r : option Z) : bool :=
  match r with None => true | Some e => e =? WSA_IO_PENDING end.

(** The call that arms an overlapped structure. *)
Definition arm_call `{IocpKernel K} (ov : overlapped) : Z → overlapped → K → option Z * K :=
  match ov with OvWrite _ => wsa_send | OvSlot _ _ => wsa_recv_from | _ => wsa_recv end.

(** Socket handles are small positive values. *)
Definition valid_fd (fd : Z) : Prop := 0 ≤ fd < WAKER_KEY.

Section Laws.
Context {K : Type} (S : IocpKernel K).

Definition view (k : K) : gset (Z * overlapped) * gset Z := (outstanding k, tp_open k).

Class IocpKernelLaws : Prop := {
  law_create_port k : view (create_port k).2 = view k;
  law_close_port k : tp_open (close_port k) = tp_open k;
  law_associate fd k : view (associate fd k).2 = view k;
  law_associate_err fd k e : (associate fd k).1 = Some e → e ≠ 0;
  law_handles fd k :
    ¬ valid_fd fd →
    so_acceptconn fd k = false ∧ ∃ e, (associate fd k).1 = Some e ∧ e ≠ ERROR_INVALID_PARAMETER;
  law_arm fd ov k :
    view (arm_call ov fd ov k).2 =
    ((if armed (arm_call ov fd ov k).1 then {[(fd, ov)]} else ∅) ∪ outstanding k, tp_open k);
  (** cancelled operations still complete *)
  law_cancel fd k : view (cancel_io fd k) = view k;
  law_wsa_poll fds k : view (wsa_poll fds k).2 = view k;
  (** a completion carries the key of its socket *)
  law_completions t k es k' :
    get_completions t k = (inl es, k') →
    outstanding k ⊆ outstanding k' ∪ list_to_set ((λ e, (e_key e, e_ov e)) <$> es) ∧ tp_open k' = tp_open k;
  law_completions_err t k e k' : get_completions t k = (inr e, k') → view k' = view k;
  law_post key ov k : view (post_packet key ov k) = view k;
  law_create_tp id k :
    view (create_tp_timer id k).2 =
    (outstanding k, (if (create_tp_timer id k).1 then {[id]} else ∅) ∪ tp_open k);
  law_set_tp id due period k : view (set_tp_timer id due period k) = view k;
  law_close_tp id k :
    id ∈ tp_open k → ∃ k', close_tp_timer id k = Some k' ∧ view k' = (outstanding k, tp_open k ∖ {[id]})
}.

(** A kernel that accepts every arming. *)
Class IocpReliable : Prop :=
  rel_arm fd ov k : armed (arm_call ov fd ov k).1 = true.

End Laws.

(** ** State *)

Definition DGRAM_RECV_SLOTS : nat := 4.

(** [recv_slots]: the [pending] flag of each slot, when allocated. *)
Record per_socket_state (CB : Type) := mk_pss {
  ps_addr : nat;
  ps_callback : CB;
  ps_interest : Z;
  read_pending : bool;
  write_pending : bool;
  is_listener : bool;
  is_dgram : bool;
  recv_slots : option (list bool);
  dgram_queue : list (bytes * sock_address);
  dgram_notified : bool
}.
Arguments mk_pss {CB}.
Arguments ps_addr {CB}.
Arguments ps_callback {CB}.
Arguments ps_interest {CB}.
Arguments read_pending {CB}.
Arguments write_pending {CB}.
Arguments is_listener {CB}.
Arguments is_dgram {CB}.
Arguments recv_slots {CB}.
Arguments dgram_queue {CB}.
Arguments dgram_notified {CB}.

Record iocp_timer (TCB : Type) := mk_iocp_timer { it_callback : TCB; repeating : bool }.
Arguments mk_iocp_timer {TCB}.
Arguments it_callback {TCB}.
Arguments repeating {TCB}.

Record iocp (K CB TCB : Type) := mk_iocp {
  states_ : gmap Z (per_socket_state CB);
  timer_infos_ : gmap Z (iocp_timer TCB);
  next_timer_id_ : Z;
  kernel : K
}.
Arguments mk_iocp {K CB TCB}.
Arguments states_ {K CB TCB}.
Arguments timer_infos_ {K CB TCB}.
Arguments next_timer_id_ {K CB TCB}.
Arguments kernel {K CB TCB}.

Section Updates.
Context {K CB TCB : Type}.
Implicit Types (s : per_socket_state CB) (d : iocp K CB TCB).

Definition set_read_pending (b : bool) s : per_socket_state CB :=
  mk_pss (ps_addr s) (ps_callback s) (ps_interest s) b (write_pending s) (is_listener s) (is_dgram s)
    (recv_slots s) (dgram_queue s) (dgram_notified s).
Definition set_write_pending (b : bool) s : per_socket_state CB :=
  mk_pss (ps_addr s) (ps_callback s) (ps_interest s) (read_pending s) b (is_listener s) (is_dgram s)
    (recv_slots s) (dgram_queue s) (dgram_notified s).
Definition set_interest (i : Z) s : per_socket_state CB :=
  mk_pss (ps_addr s) (ps_callback s) i (read_pending s) (write_pending s) (is_listener s) (is_dgram s)
    (recv_slots s) (dgram_queue s) (dgram_notified s).
Definition set_slots (l : option (list bool)) s : per_socket_state CB :=
  mk_pss (ps_addr s) (ps_callback s) (ps_interest s) (read_pending s) (write_pending s) (is_listener s)
    (is_dgram s) l (dgram_queue s) (dgram_notified s).
Definition set_dgram_queue (q : list (bytes * sock_address)) s : per_socket_state CB :=
  mk_pss (ps_addr s) (ps_callback s) (ps_interest s) (read_pending s) (write_pending s) (is_listener s)
    (is_dgram s) (recv_slots s) q (dgram_notified s).
Definition set_notified (b : bool) s : per_socket_state CB :=
  mk_pss (ps_addr s) (ps_callback s) (ps_interest s) (read_pending s) (write_pending s) (is_listener s)
    (is_dgram s) (recv_slots s) (dgram_queue s) b.

Definition set_states (m : gmap Z (per_socket_state CB)) d : iocp K CB TCB :=
  mk_iocp m (timer_infos_ d) (next_timer_id_ d) (kernel d).
Definition set_kernel (k : K) d : iocp K CB TCB :=
  mk_iocp (states_ d) (timer_infos_ d) (next_timer_id_ d) k.
Definition set_timers (m : gmap Z (iocp_timer TCB)) d : iocp K CB TCB :=
  mk_iocp (states_ d) m (next_timer_id_ d) (kernel d).

(** The state a pointer refers to; [None] when it dangles. *)
Definition deref (fd : Z) (a : nat) d : option (per_socket_state CB) :=
  match states_ d !! fd with
  | Some s => if (ps_addr s =? a)%nat then Some s else None
  | None => None
  end.
Definition put_state (fd : Z) s d : iocp K CB TCB := set_states (<[fd := s]> (states_ d)) d.

End Updates.

(** ** Operations *)

Section Iocp.
Context {K CB TCB : Type} `{IK : IocpKernel K}.
(** What calling a callback does to the dispatcher. *)
Context (invoke : CB → Z → Z → iocp K CB TCB → option (iocp K CB TCB)).
Context (invoke_timer : TCB → iocp K CB TCB → option (iocp K CB TCB)).

Abbreviation disp_t := (iocp K CB TCB).
Implicit Types (d : iocp K CB TCB) (s : per_socket_state CB).

Definition arm_read (fd : Z) (a : nat) d : option disp_t :=
  s ← deref fd a d;
  if read_pending s || is_listener s || is_dgram s then Some d
  else
    let '(r, k) := wsa_recv fd (OvRead a) (kernel d) in
    let d := set_kernel k d in
    match r with
    | Some err =>
        if err =? WSA_IO_PENDING then Some (put_state fd (set_read_pending true s) d)
        else invoke (ps_callback s) fd ev_error d
    | None => Some (put_state fd (set_read_pending true s) d)
    end.

Definition arm_write (fd : Z) (a : nat) d : option disp_t :=
  s ← deref fd a d;
  if write_pending s || is_listener s || is_dgram s then Some d
  else
    let '(r, k) := wsa_send fd (OvWrite a) (kernel d) in
    let d := set_kernel k d in
    match r with
    | Some err =>
        if err =? WSA_IO_PENDING then Some (put_state fd (set_write_pending true s) d)
        else invoke (ps_callback s) fd ev_error d
    | None => Some (put_state fd (set_write_pending true s) d)
    end.

(** [state.recv_slots[i].pending], read and set. *)
Definition slot_pending (fd : Z) (a i : nat) d : option bool :=
  match deref fd a d with
  | Some s => match recv_slots s with Some slots => slots !! i | None => None end
  | None => None
  end.

Definition set_slot_pending (fd : Z) (a i : nat) d : option disp_t :=
  match deref fd a d with
  | Some s => Some (put_state fd (set_slots ((λ l, <[i := true]> l) <$> recv_slots s) s) d)
  | None => None
  end.

(** A slot that is not armed stays so when the call fails. *)
Definition arm_recv_from (fd : Z) (a i : nat) d : option disp_t :=
  match slot_pending fd a i d with
  | None => None
  | Some true => Some d
  | Some false =>
      let '(r, k) := wsa_recv_from fd (OvSlot a i) (kernel d) in
      let d := set_kernel k d in
      match r with
      | Some err => if err =? WSA_IO_PENDING then set_slot_pending fd a i d else Some d
      | None => set_slot_pending fd a i d
      end
  end.

(** The loops over the slots: all of them, and those not pending. *)
Fixpoint arm_slots (fd : Z) (a : nat) (l : list nat) d : option disp_t :=
  match l with [] => Some d | i :: l' => d ← arm_recv_from fd a i d; arm_slots fd a l' d end.

Fixpoint arm_idle_slots (fd : Z) (a : nat) (l : list nat) d : option disp_t :=
  match l with
  | [] => Some d
  | i :: l' =>
      match slot_pending fd a i d with
      | None => None
      | Some pending =>
          d ← (if negb pending then arm_recv_from fd a i d else Some d);
          arm_idle_slots fd a l' d
      end
  end.

Definition slot_indices : list nat := seq 0 DGRAM_RECV_SLOTS.
Definition new_slots : option (list bool) := Some (replicate DGRAM_RECV_SLOTS false).

(** Registers [s] and arms what its interest asks for. *)
Definition arm_new (fd : Z) s d : option disp_t :=
  let d := put_state fd s d in
  if is_dgram s then
    if has_event (ps_interest s) ev_readable
    then arm_slots fd (ps_addr s) slot_indices (put_state fd (set_slots new_slots s) d)
    else Some d
  else if negb (is_listener s) then
    d ← (if has_event (ps_interest s) ev_readable then arm_read fd (ps_addr s) d else Some d);
    (if has_event (ps_interest s) ev_writable then arm_write fd (ps_addr s) d else Some d)
  else Some d.

(** The association of a socket that does not listen. *)
Definition port_error (fd : Z) (listener : bool) d : option Z * disp_t :=
  if negb listener
  then let '(r, k) := associate fd (kernel d) in
       (match r with Some e => if negb (e =? ERROR_INVALID_PARAMETER) then Some e else None | None => None end,
        set_kernel k d)
  else (None, d).

(** [a] is where the new state is allocated. *)
Definition iocp_add (fd interest : Z) (cb : CB) (a : nat) d : option (result_void * disp_t) :=
  let listener := so_acceptconn fd (kernel d) in
  let dgram := if negb listener then so_dgram fd (kernel d) else false in
  let s := mk_pss a cb interest false false listener dgram None [] false in
  let '(err, d) := port_error fd listener d in
  match err with
  | Some e => Some (mk_result_void (mk_error_code e cat_system), d)
  | None =>
      d ← arm_new fd s d;
      Some (rv_ok, d)
  end.

Definition iocp_modify (fd interest : Z) d : option (result_void * disp_t) :=
  match states_ d !! fd with
  | None => Some (rv_of invalid_state, d)
  | Some s0 =>
      let a := ps_addr s0 in
      let old_interest := ps_interest s0 in
      let s := set_interest interest s0 in
      let newly ev := has_event interest ev && negb (has_event old_interest ev) in
      let d := put_state fd s d in
      if is_listener s then Some (rv_ok, d)
      else if is_dgram s then
        d ← (if newly ev_readable then
               let d := match recv_slots s with None => put_state fd (set_slots new_slots s) d | Some _ => d end in
               arm_idle_slots fd a slot_indices d
             else Some d);
        Some (rv_ok, d)
      else
        d ← (if newly ev_readable then arm_read fd a d else Some d);
        d ← (if newly ev_writable then arm_write fd a d else Some d);
        Some (rv_ok, d)
  end.

Definition iocp_remove (fd : Z) d : result_void * disp_t :=
  match states_ d !! fd with
  | Some s =>
      let d := if negb (is_listener s) then set_kernel (cancel_io fd (kernel d)) d else d in
      (rv_ok, set_states (delete fd (states_ d)) d)
  | None => (rv_ok, d)
  end.

(** *** Timers *)

Definition iocp_schedule_timer (timeout : Z) (repeat : bool) (cb : TCB) d : Z * disp_t :=
  let id := next_timer_id_ d in
  let d := mk_iocp (states_ d) (timer_infos_ d) (u64 (id + 1)) (kernel d) in
  let '(ok, k) := create_tp_timer id (kernel d) in
  let d := set_kernel k d in
  if negb ok then (0, d)
  else
    let due := - (timeout * 10000) in
    let period := if repeat then u32 timeout else 0 in
    let d := set_kernel (set_tp_timer id due period (kernel d)) d in
    (id, set_timers (<[id := mk_iocp_timer cb repeat]> (timer_infos_ d)) d).

(** Disarming, waiting for a callback under way, and closing. *)
Definition shut_timer (id : Z) d : option disp_t :=
  match close_tp_timer id (set_tp_timer id 0 0 (kernel d)) with
  | Some k => Some (set_kernel k d)
  | None => None
  end.

Definition iocp_cancel_timer (id : Z) d : option disp_t :=
  match timer_infos_ d !! id with
  | None => Some d
  | Some _ => shut_timer id (set_timers (delete id (timer_infos_ d)) d)
  end.

(** On a thread of the system: the packet that makes [poll] run the timer. *)
Definition timer_callback (id : Z) d : disp_t :=
  set_kernel (post_packet TIMER_KEY (OvTimer id) (kernel d)) d.

Definition dispatch_timer (id : Z) d : option disp_t :=
  match timer_infos_ d !! id with
  | None => Some d
  | Some info =>
      let d := if negb (repeating info) then set_timers (delete id (timer_infos_ d)) d else d in
      d ← invoke_timer (it_callback info) d;
      if negb (repeating info) then shut_timer id d else Some d
  end.

(** *** Construction and destruction *)

(** [None] stands for the exception. *)
Definition iocp_init (k : K) : option disp_t :=
  let '(ok, k) := create_port k in
  if negb ok then None else Some (mk_iocp ∅ ∅ 1 k).

Definition iocp_wake d : disp_t := set_kernel (post_packet WAKER_KEY OvNull (kernel d)) d.

Fixpoint shut_timers (ids : list Z) d : option disp_t :=
  match ids with [] => Some d | id :: ids' => d ← shut_timer id d; shut_timers ids' d end.

Definition iocp_destroy d : option disp_t :=
  let cancelled := (filter (λ p, is_listener p.2 = false) (map_to_list (states_ d))).*1 in
  let d := set_kernel (foldl (λ k fd, cancel_io fd k) (kernel d) cancelled) d in
  let d := set_states ∅ d in
  d ← shut_timers (map_to_list (timer_infos_ d)).*1 d;
  let d := set_timers ∅ d in
  Some (set_kernel (close_port (kernel d)) d).

(** *** Polling *)

Definition has_listeners d : bool := existsb (λ p, is_listener p.2) (map_to_list (states_ d)).

Definition polled_listeners d : list Z :=
  (filter (λ p, is_listener p.2 && has_event (ps_interest p.2) ev_readable = true) (map_to_list (states_ d))).*1.

(** The callbacks of the listeners that are ready. *)
Fixpoint run_listeners (ready : list (Z * Z)) (dispatched : Z) d : option (Z * disp_t) :=
  match ready with
  | [] => Some (dispatched, d)
  | (fd, revents) :: ready' =>
      if negb (Z.land revents (Z.lor POLLRDNORM (Z.lor POLLERR POLLHUP)) =? 0) then
        match states_ d !! fd with
        | None => run_listeners ready' dispatched d
        | Some s =>
            let ev := if negb (Z.land revents POLLERR =? 0) then ev_or ev_readable ev_error else ev_readable in
            d ← invoke (ps_callback s) fd ev d;
            run_listeners ready' (dispatched + 1) d
        end
      else run_listeners ready' dispatched d
  end.

Definition poll_listeners d : option (Z * disp_t) :=
  let fds := polled_listeners d in
  match fds with
  | [] => Some (0, d)
  | _ =>
      let '(ready, k) := wsa_poll fds (kernel d) in
      let d := set_kernel k d in
      match ready with
      | None => Some (0, d)
      | Some revents => run_listeners (zip fds revents) 0 d
      end
  end.

(** Whether the overlapped structure is that of a slot. *)
Definition slot_of s (ov : overlapped) : option nat :=
  match ov, recv_slots s with
  | OvSlot a i, Some slots => if (a =? ps_addr s)%nat && (i <? length slots)%nat then Some i else None
  | _, _ => None
  end.

(** A receive that completed: its datagram is queued, and its slot armed again. *)
Definition dgram_completion (fd : Z) s (e : entry) (ready : list Z) d : option (disp_t * list Z) :=
  match slot_of s (e_ov e) with
  | None => Some (d, ready)
  | Some i =>
      let s := set_slots ((λ l, <[i := false]> l) <$> recv_slots s) s in
      let s := match e_result e with
               | Some (data, src) =>
                   if (0 <? length data)%nat then set_dgram_queue (dgram_queue s ++ [(data, src)]) s else s
               | None => s
               end in
      let d := put_state fd s d in
      d ← (if has_event (ps_interest s) ev_readable then arm_recv_from fd (ps_addr s) i d else Some d);
      s ← deref fd (ps_addr s) d;
      Some (if negb (dgram_notified s)
            then (put_state fd (set_notified true s) d, ready ++ [fd])
            else (d, ready))
  end.

(** The re-arming that follows a callback. *)
Definition rearm (fd : Z) d : option disp_t :=
  match states_ d !! fd with
  | None => Some d
  | Some s =>
      let a := ps_addr s in
      d ← (if has_event (ps_interest s) ev_readable && negb (read_pending s) then arm_read fd a d else Some d);
      s ← deref fd a d;
      (if has_event (ps_interest s) ev_writable && negb (write_pending s) then arm_write fd a d else Some d)
  end.

(** The event a completion of a stream socket stands for. *)
Definition stream_event s (e : entry) : Z :=
  if bool_decide (e_ov e = OvRead (ps_addr s))
  then if e_bytes e =? 0 then ev_or ev_readable ev_peer_shutdown else ev_readable
  else if bool_decide (e_ov e = OvWrite (ps_addr s)) then ev_writable
  else ev_none.

Definition stream_done s (e : entry) : per_socket_state CB :=
  if bool_decide (e_ov e = OvRead (ps_addr s)) then set_read_pending false s
  else if bool_decide (e_ov e = OvWrite (ps_addr s)) then set_write_pending false s
  else s.

Definition stream_completion (fd : Z) s (e : entry) d : option disp_t :=
  d ← invoke (ps_callback s) fd (stream_event s e) (put_state fd (stream_done s e) d);
  rearm fd d.

(** One entry of the first phase. *)
Definition process_entry (e : entry) (dispatched : Z) (ready : list Z) d : option (Z * list Z * disp_t) :=
  if e_key e =? WAKER_KEY then Some (dispatched, ready, d)
  else if e_key e =? TIMER_KEY then
    d ← dispatch_timer (match e_ov e with OvTimer id => id | _ => 0 end) d;
    Some (dispatched + 1, ready, d)
  else
    let fd := e_key e in
    match states_ d !! fd with
    | None => Some (dispatched, ready, d)
    | Some s =>
        if is_dgram s then
          '(d, ready) ← dgram_completion fd s e ready d;
          Some (dispatched, ready, d)
        else
          d ← stream_completion fd s e d;
          Some (dispatched + 1, ready, d)
    end.

Fixpoint process_entries (es : list entry) (dispatched : Z) (ready : list Z) d : option (Z * list Z * disp_t) :=
  match es with
  | [] => Some (dispatched, ready, d)
  | e :: es' => '(n, ready, d) ← process_entry e dispatched ready d; process_entries es' n ready d
  end.

(** The second phase: one notification for each socket with datagrams. *)
Fixpoint notify_dgrams (ready : list Z) (dispatched : Z) d : option (Z * disp_t) :=
  match ready with
  | [] => Some (dispatched, d)
  | fd :: ready' =>
      match states_ d !! fd with
      | None => notify_dgrams ready' dispatched d
      | Some s =>
          let s := set_notified false s in
          let d := put_state fd s d in
          if match dgram_queue s with [] => true | _ => false end || negb (has_event (ps_interest s) ev_readable)
          then notify_dgrams ready' dispatched d
          else
            d ← invoke (ps_callback s) fd ev_readable d;
            notify_dgrams ready' (dispatched + 1) d
      end
  end.

(** The time-out given to the port. *)
Definition iocp_timeout (timeout_ms dispatched : Z) (listeners : bool) : Z :=
  if 0 <? dispatched then 0
  else if listeners then
    if timeout_ms <? 0 then 10 else Z.min (u32 timeout_ms) 10
  else if timeout_ms <? 0 then INFINITE else u32 timeout_ms.

Definition iocp_poll (timeout_ms : Z) d : option (result Z * disp_t) :=
  '(dispatched, d) ← poll_listeners d;
  let '(r, k) := get_completions (iocp_timeout timeout_ms dispatched (has_listeners d)) (kernel d) in
  let d := set_kernel k d in
  match r with
  | inr err =>
      if negb (err =? WAIT_TIMEOUT) then Some (Err (mk_error_code err cat_system), d)
      else Some (Val dispatched, d)
  | inl es =>
      '(n, ready, d) ← process_entries es dispatched [] d;
      '(n, d) ← notify_dgrams ready n d;
      Some (Val n, d)
  end.

(** [retrieve_dgram]: the bytes copied and their sender. *)
Definition retrieve_dgram (fd : Z) (len : nat) d : result (bytes * sock_address) * disp_t :=
  match states_ d !! fd with
  | None => (err_of would_block, d)
  | Some s =>
      if negb (is_dgram s) then (err_of would_block, d)
      else
        match dgram_queue s with
        | [] => (err_of would_block, d)
        | (data, src) :: q => (Val (take len data, src), put_state fd (set_dgram_queue q s) d)
        end
  end.

(** ** Every interest is armed *)

Context `{!IocpKernelLaws IK, !IocpReliable IK}.

Abbreviation opset := (gset (Z * overlapped)).

(** Which of the overlapped operations a state may have in use. *)
Definition ps_wf s : Prop :=
  (is_listener s = true → is_dgram s = false) ∧
  (is_listener s || is_dgram s = true → read_pending s = false ∧ write_pending s = false) ∧
  (is_dgram s = false → recv_slots s = None) ∧
  (∀ l, recv_slots s = Some l → length l = DGRAM_RECV_SLOTS).

Definition stream_socket s : bool := negb (is_listener s || is_dgram s).

(** What is marked pending is among the operations [R]. *)
Definition covered (R : opset) (fd : Z) s : Prop :=
  (read_pending s = true → (fd, OvRead (ps_addr s)) ∈ R) ∧
  (write_pending s = true → (fd, OvWrite (ps_addr s)) ∈ R) ∧
  (∀ l i, recv_slots s = Some l → l !! i = Some true → (fd, OvSlot (ps_addr s) i) ∈ R).

(** What the interest asks for is pending. *)
Definition wanted s : Prop :=
  is_listener s = true ∨
  if is_dgram s
  then has_event (ps_interest s) ev_readable = true → recv_slots s = Some (replicate DGRAM_RECV_SLOTS true)
  else (has_event (ps_interest s) ev_readable = true → read_pending s = true) ∧
       (has_event (ps_interest s) ev_writable = true → write_pending s = true).

(** [R]: operations dequeued and still to be processed; [X]: sockets whose
    completion is being processed, which are armed again at its end. *)
Definition sound (X : gset Z) (R : opset) d : Prop :=
  map_Forall (λ fd s, valid_fd fd ∧ ps_wf s ∧ covered (outstanding (kernel d) ∪ R) fd s ∧ (fd ∉ X ∨ stream_socket s = false → wanted s))
    (states_ d).

(** Only the operations of the socket matter. *)
Lemma covered_weaken R R' fd s :
  (∀ ov, (fd, ov) ∈ R → (fd, ov) ∈ R') → covered R fd s → covered R' fd s.
Proof. unfold covered. intros H (? & ? & ?). split_and!; eauto. Qed.

Lemma covered_mono R R' fd s : R ⊆ R' → covered R fd s → covered R' fd s.
Proof. intros H. apply covered_weaken. auto. Qed.

Lemma covered_other (O O' R : opset) fd fd' ov s :
  fd' ≠ fd → O ⊆ O' → covered (O ∪ ({[(fd, ov)]} ∪ R)) fd' s → covered (O' ∪ R) fd' s.
Proof.
  intros Hne HO. apply covered_weaken. intros ov'. rewrite !elem_of_union, elem_of_singleton.
  intros [?|[[= ? _]|?]]; [left; auto|done|by right].
Qed.

Lemma sound_put X Y R k d fd s :
  sound X R d → Y ⊆ X ∪ {[fd]} → X ⊆ Y ∪ {[fd]} → outstanding (kernel d) ⊆ outstanding k →
  valid_fd fd → ps_wf s → covered (outstanding k ∪ R) fd s → (fd ∉ Y ∨ stream_socket s = false → wanted s) →
  sound Y R (put_state fd s (set_kernel k d)).
Proof.
  intros Hs HY HX Hk Hv Hwf Hc Hw fd' s'. simpl. destruct (decide (fd = fd')) as [<-|Hne].
  - rewrite lookup_insert_eq. intros [= <-]. done.
  - rewrite lookup_insert_ne by done. intros (? & ? & Hc' & Hw')%Hs. split_and!; [done..| |].
    + eapply covered_mono; [|exact Hc']. by apply union_mono_r.
    + intros Hf. apply Hw'. set_solver.
Qed.

Lemma deref_self fd s d : states_ d !! fd = Some s → deref fd (ps_addr s) d = Some s.
Proof. intros H. unfold deref. by rewrite H, Nat.eqb_refl. Qed.

Lemma put_same fd s d : states_ d !! fd = Some s → put_state fd s (set_kernel (kernel d) d) = d.
Proof. destruct d. intros H. unfold put_state, set_states, set_kernel. simpl in *. by rewrite insert_id. Qed.

(** On a reliable kernel an arming call leaves its operation outstanding. *)
Lemma arm_outstanding fd ov k r k' :
  arm_call ov fd ov k = (r, k') →
  armed r = true ∧ outstanding k' = {[(fd, ov)]} ∪ outstanding k ∧ tp_open k' = tp_open k.
Proof.
  intros H. pose proof (rel_arm IK fd ov k) as Ha. pose proof (law_arm IK fd ov k) as Hl.
  rewrite H in *. simpl in *. rewrite Ha in Hl. by injection Hl as -> ->.
Qed.

(** The effect of the arming functions on a registered socket. *)
Lemma arm_read_spec fd s d :
  states_ d !! fd = Some s →
  ∃ k, arm_read fd (ps_addr s) d =
         Some (put_state fd (if stream_socket s then set_read_pending true s else s) (set_kernel k d)) ∧
       outstanding (kernel d) ⊆ outstanding k ∧ tp_open k = tp_open (kernel d) ∧
       (stream_socket s = true → read_pending s = false → (fd, OvRead (ps_addr s)) ∈ outstanding k).
Proof.
  intros Hs. unfold arm_read, stream_socket. rewrite (deref_self _ _ _ Hs). simpl.
  destruct (read_pending s) eqn:Hp; [|destruct (is_listener s || is_dgram s) eqn:Hl]; simpl.
  - exists (kernel d). split_and!; [|done..].
    assert ((if negb (is_listener s || is_dgram s) then set_read_pending true s else s) = s) as ->.
    { destruct s, (negb _); simpl in *; by subst. }
    by rewrite put_same.
  - exists (kernel d). by rewrite Hl, put_same.
  - destruct (wsa_recv _ _ _) as [r k] eqn:Hr. exists k.
    destruct (arm_outstanding fd (OvRead (ps_addr s)) (kernel d) r k Hr) as (Ha & Ho & Ht).
    rewrite Hl. unfold armed in Ha. split_and!; [|set_solver|done|set_solver].
    by destruct r; [rewrite Ha|].
Qed.

Lemma arm_write_spec fd s d :
  states_ d !! fd = Some s →
  ∃ k, arm_write fd (ps_addr s) d =
         Some (put_state fd (if stream_socket s then set_write_pending true s else s) (set_kernel k d)) ∧
       outstanding (kernel d) ⊆ outstanding k ∧ tp_open k = tp_open (kernel d) ∧
       (stream_socket s = true → write_pending s = false → (fd, OvWrite (ps_addr s)) ∈ outstanding k).
Proof.
  intros Hs. unfold arm_write, stream_socket. rewrite (deref_self _ _ _ Hs). simpl.
  destruct (write_pending s) eqn:Hp; [|destruct (is_listener s || is_dgram s) eqn:Hl]; simpl.
  - exists (kernel d). split_and!; [|done..].
    assert ((if negb (is_listener s || is_dgram s) then set_write_pending true s else s) = s) as ->.
    { destruct s, (negb _); simpl in *; by subst. }
    by rewrite put_same.
  - exists (kernel d). by rewrite Hl, put_same.
  - destruct (wsa_send _ _ _) as [r k] eqn:Hr. exists k.
    destruct (arm_outstanding fd (OvWrite (ps_addr s)) (kernel d) r k Hr) as (Ha & Ho & Ht).
    rewrite Hl. unfold armed in Ha. split_and!; [|set_solver|done|set_solver].
    by destruct r; [rewrite Ha|].
Qed.

Lemma arm_recv_from_spec fd s l b i d :
  states_ d !! fd = Some s → recv_slots s = Some l → l !! i = Some b →
  ∃ k, arm_recv_from fd (ps_addr s) i d =
         Some (put_state fd (set_slots (Some (<[i := true]> l)) s) (set_kernel k d)) ∧
       outstanding (kernel d) ⊆ outstanding k ∧ tp_open k = tp_open (kernel d) ∧
       (b = false → (fd, OvSlot (ps_addr s) i) ∈ outstanding k).
Proof.
  intros Hs Hl Hi. unfold arm_recv_from, slot_pending. rewrite (deref_self _ _ _ Hs), Hl, Hi.
  destruct b.
  - exists (kernel d). split_and!; [|done..]. rewrite (list_insert_id _ _ _ Hi).
    assert (set_slots (Some l) s = s) as -> by (destruct s; simpl in *; by subst). by rewrite put_same.
  - destruct (wsa_recv_from _ _ _) as [r k] eqn:Hr. exists k.
    destruct (arm_outstanding fd (OvSlot (ps_addr s) i) (kernel d) r k Hr) as (Ha & Ho & Ht).
    unfold armed in Ha. split_and!; [|set_solver|done|set_solver].
    assert (set_slot_pending fd (ps_addr s) i (set_kernel k d) =
            Some (put_state fd (set_slots (Some (<[i:=true]> l)) s) (set_kernel k d))) as Hset.
    { unfold set_slot_pending. by rewrite (deref_self fd s (set_kernel k d) Hs), Hl. }
    destruct r; [rewrite Ha|]; exact Hset.
Qed.

Lemma put_put fd s s' k k' d :
  put_state fd s' (set_kernel k' (put_state fd s (set_kernel k d))) = put_state fd s' (set_kernel k' d).
Proof. destruct d. unfold put_state, set_states, set_kernel. simpl. by rewrite insert_insert_eq. Qed.

(** The slots of [is] marked, the others as they were. *)
Definition mark (is_ : list nat) (l : list bool) : list bool := foldl (λ l i, <[i := true]> l) l is_.

(** Both loops over the slots do the same to a registered socket. *)
Lemma arm_slots_spec is_ fd s l d :
  states_ d !! fd = Some s → recv_slots s = Some l → Forall (λ i, (i < length l)%nat) is_ →
  ∃ k, arm_slots fd (ps_addr s) is_ d = Some (put_state fd (set_slots (Some (mark is_ l)) s) (set_kernel k d)) ∧
       outstanding (kernel d) ⊆ outstanding k ∧ tp_open k = tp_open (kernel d) ∧
       (∀ i, i ∈ is_ → l !! i = Some false → (fd, OvSlot (ps_addr s) i) ∈ outstanding k).
Proof.
  revert s l d. induction is_ as [|i is_ IH]; intros s l d Hs Hl Hf; cbn [arm_slots].
  - exists (kernel d). split_and!; [|done|done|set_solver]. simpl.
    assert (set_slots (Some l) s = s) as -> by (destruct s; simpl in *; by subst). by rewrite put_same.
  - apply Forall_cons in Hf as [Hi Hf]. destruct (lookup_lt_is_Some_2 l i Hi) as [b Hb].
    destruct (arm_recv_from_spec fd s l b i d Hs Hl Hb) as (k & -> & Ho & Ht & Hb').
    destruct (IH (set_slots (Some (<[i:=true]> l)) s) (<[i:=true]> l)
                (put_state fd (set_slots (Some (<[i:=true]> l)) s) (set_kernel k d)))
      as (k' & Hk' & Ho' & Ht' & Hb''); [simpl; by rewrite lookup_insert_eq|done|by rewrite length_insert|].
    exists k'. simpl in *. rewrite Hk', put_put. split_and!; [done|set_solver|congruence|].
    intros j Hj Hjb. destruct (decide (i = j)) as [->|Hne].
    + apply Ho'. apply Hb'. congruence.
    + apply Hb''; [set_solver|]. by rewrite list_lookup_insert_ne.
Qed.

Lemma arm_idle_slots_eq is_ fd s l d :
  states_ d !! fd = Some s → recv_slots s = Some l → Forall (λ i, (i < length l)%nat) is_ →
  arm_idle_slots fd (ps_addr s) is_ d = arm_slots fd (ps_addr s) is_ d.
Proof.
  revert s l d. induction is_ as [|i is_ IH]; intros s l d Hs Hl Hf; cbn [arm_slots arm_idle_slots]; [done|].
  apply Forall_cons in Hf as [Hi Hf]. destruct (lookup_lt_is_Some_2 l i Hi) as [b Hb].
  destruct (arm_recv_from_spec fd s l b i d Hs Hl Hb) as (k & Hk & _ & _ & _).
  unfold slot_pending. rewrite (deref_self _ _ _ Hs), Hl, Hb.
  assert ((if negb b then arm_recv_from fd (ps_addr s) i d else Some d) =
          arm_recv_from fd (ps_addr s) i d) as ->.
  { destruct b; [|done]. simpl. unfold arm_recv_from, slot_pending. by rewrite (deref_self _ _ _ Hs), Hl, Hb. }
  rewrite Hk. simpl.
  apply (IH (set_slots (Some (<[i:=true]> l)) s) (<[i:=true]> l)); [|done|by rewrite length_insert].
  simpl. by rewrite lookup_insert_eq.
Qed.

Lemma mark_all l : length l = DGRAM_RECV_SLOTS → mark slot_indices l = replicate DGRAM_RECV_SLOTS true.
Proof. destruct l as [|a [|b [|c [|e [|]]]]]; intros [=]. reflexivity. Qed.

(** [d'] is [d] with the state of [fd] replaced, and more operations outstanding. *)
Definition rearmed (fd : Z) s d d' : Prop :=
  ∃ k, d' = put_state fd s (set_kernel k d) ∧
       outstanding (kernel d) ⊆ outstanding k ∧ tp_open k = tp_open (kernel d).

Lemma rearmed_trans fd s s' d d' d'' : rearmed fd s d d' → rearmed fd s' d' d'' → rearmed fd s' d d''.
Proof.
  intros (k & -> & ? & ?) (k' & -> & ? & ?). exists k'. rewrite put_put. simpl in *.
  split_and!; [done|set_solver|congruence].
Qed.

Lemma rearmed_refl fd s d : states_ d !! fd = Some s → rearmed fd s d d.
Proof. intros. exists (kernel d). by rewrite put_same. Qed.

Lemma rearmed_put fd s d : rearmed fd s d (put_state fd s d).
Proof. exists (kernel d). by destruct d. Qed.

Lemma rearmed_lookup fd s d d' : rearmed fd s d d' → states_ d' !! fd = Some s.
Proof. intros (k & -> & _). simpl. by rewrite lookup_insert_eq. Qed.

Lemma rearmed_lookup_ne fd fd' s d d' : rearmed fd s d d' → fd' ≠ fd → states_ d' !! fd' = states_ d !! fd'.
Proof. intros (k & -> & _) Hne. simpl. by rewrite lookup_insert_ne. Qed.

(** The timers are as they were. *)
Definition same_timers d d' : Prop :=
  timer_infos_ d' = timer_infos_ d ∧ next_timer_id_ d' = next_timer_id_ d ∧
  tp_open (kernel d') = tp_open (kernel d).

Lemma rearmed_timers fd s d d' : rearmed fd s d d' → same_timers d d'.
Proof. by intros (k & -> & _ & ?). Qed.

Lemma rearmed_sound X Y R fd s d d' :
  rearmed fd s d d' → sound X R d → Y ⊆ X ∪ {[fd]} → X ⊆ Y ∪ {[fd]} →
  valid_fd fd → ps_wf s → covered (outstanding (kernel d') ∪ R) fd s → (fd ∉ Y ∨ stream_socket s = false → wanted s) → sound Y R d'.
Proof. intros (k & -> & ? & _) **. by eapply sound_put. Qed.

(** Arming a stream socket for the directions asked for. *)
Definition arm_directions (r w : bool) s : per_socket_state CB :=
  set_write_pending (write_pending s || w) (set_read_pending (read_pending s || r) s).

Lemma arm_read_armed (b : bool) R fd s d :
  states_ d !! fd = Some s → stream_socket s = true → covered (outstanding (kernel d) ∪ R) fd s →
  ∃ d', (if b then arm_read fd (ps_addr s) d else Some d) = Some d' ∧
        rearmed fd (set_read_pending (read_pending s || b) s) d d' ∧
        covered (outstanding (kernel d') ∪ R) fd (set_read_pending (read_pending s || b) s).
Proof.
  intros Hs Hst (Hr & Hw & Hc). destruct b.
  - destruct (arm_read_spec fd s d Hs) as (k & -> & Ho & Ht & Hn). rewrite Hst. eexists. split; [done|].
    rewrite orb_true_r. split; [by exists k|].
    assert (∀ ov, (fd, ov) ∈ outstanding (kernel d) ∪ R → (fd, ov) ∈ outstanding k ∪ R) as Hk
      by (intros ov; rewrite !elem_of_union; intros [?|?]; auto).
    unfold covered. simpl. split_and!; [|eauto..].
    intros _. destruct (read_pending s) eqn:Hp; [by apply Hk, Hr|]. apply elem_of_union_l. auto.
  - exists d. rewrite orb_false_r.
    assert (set_read_pending (read_pending s) s = s) as -> by by destruct s.
    split_and!; [done|by apply rearmed_refl|done].
Qed.

Lemma arm_write_armed (b : bool) R fd s d :
  states_ d !! fd = Some s → stream_socket s = true → covered (outstanding (kernel d) ∪ R) fd s →
  ∃ d', (if b then arm_write fd (ps_addr s) d else Some d) = Some d' ∧
        rearmed fd (set_write_pending (write_pending s || b) s) d d' ∧
        covered (outstanding (kernel d') ∪ R) fd (set_write_pending (write_pending s || b) s).
Proof.
  intros Hs Hst (Hr & Hw & Hc). destruct b.
  - destruct (arm_write_spec fd s d Hs) as (k & -> & Ho & Ht & Hn). rewrite Hst. eexists. split; [done|].
    rewrite orb_true_r. split; [by exists k|].
    assert (∀ ov, (fd, ov) ∈ outstanding (kernel d) ∪ R → (fd, ov) ∈ outstanding k ∪ R) as Hk
      by (intros ov; rewrite !elem_of_union; intros [?|?]; auto).
    unfold covered. simpl. split_and!; [by auto| |eauto].
    intros _. destruct (write_pending s) eqn:Hp; [by apply Hk, Hw|]. apply elem_of_union_l. auto.
  - exists d. rewrite orb_false_r.
    assert (set_write_pending (write_pending s) s = s) as -> by by destruct s.
    split_and!; [done|by apply rearmed_refl|done].
Qed.

Lemma arm_directions_armed (r w : bool) R fd s d :
  states_ d !! fd = Some s → stream_socket s = true → covered (outstanding (kernel d) ∪ R) fd s →
  ∃ d', ((if r then arm_read fd (ps_addr s) d else Some d) ≫=
           λ d, if w then arm_write fd (ps_addr s) d else Some d) = Some d' ∧
        rearmed fd (arm_directions r w s) d d' ∧
        covered (outstanding (kernel d') ∪ R) fd (arm_directions r w s).
Proof.
  intros Hs Hst Hc. destruct (arm_read_armed r R fd s d Hs Hst Hc) as (d1 & -> & H1 & Hc1).
  destruct (arm_write_armed w R fd _ d1 (rearmed_lookup _ _ _ _ H1) Hst Hc1) as (d2 & H2 & H2' & Hc2).
  exists d2. split_and!; [exact H2| |exact Hc2]. by eapply rearmed_trans.
Qed.

(** Arming every slot of a datagram socket. *)
Lemma arm_all_slots R fd s l d :
  states_ d !! fd = Some s → recv_slots s = Some l → length l = DGRAM_RECV_SLOTS →
  read_pending s = false ∧ write_pending s = false →
  covered (outstanding (kernel d) ∪ R) fd s →
  ∃ d', arm_slots fd (ps_addr s) slot_indices d = Some d' ∧
        arm_idle_slots fd (ps_addr s) slot_indices d = Some d' ∧
        rearmed fd (set_slots (Some (replicate DGRAM_RECV_SLOTS true)) s) d d' ∧
        covered (outstanding (kernel d') ∪ R) fd (set_slots (Some (replicate DGRAM_RECV_SLOTS true)) s).
Proof.
  intros Hs Hl Hlen [Hr Hw] (_ & _ & Hc).
  assert (Forall (λ i, (i < length l)%nat) slot_indices) as Hf.
  { apply Forall_forall. intros i Hi%elem_of_seq. unfold DGRAM_RECV_SLOTS in *. lia. }
  rewrite (arm_idle_slots_eq slot_indices fd s l d Hs Hl Hf).
  destruct (arm_slots_spec slot_indices fd s l d Hs Hl Hf) as (k & -> & Ho & Ht & Hn).
  rewrite mark_all by done. eexists. split_and!; [done..|by exists k|].
  split_and!; cbn [set_slots read_pending write_pending recv_slots ps_addr]; [congruence..|].
  intros l' i Hl' Hi. apply Some_inj in Hl'. rewrite <- Hl' in Hi. apply lookup_replicate_1 in Hi as [_ Hi].
  destruct (lookup_lt_is_Some_2 l i ltac:(lia)) as [[] Hb]; [set_solver|].
  apply elem_of_union_l, Hn; [apply elem_of_seq; unfold DGRAM_RECV_SLOTS in *; lia|done].
Qed.

(** A call that only changes the kernel, and leaves its operations outstanding. *)
Lemma sound_kernel X R k d : outstanding k = outstanding (kernel d) → sound X R d → sound X R (set_kernel k d).
Proof. unfold sound. simpl. by intros ->. Qed.

Lemma arm_new_sound X R fd (i : Z) (cb : CB) (a : nat) (listener dgram : bool) d :
  let s := mk_pss a cb i false false listener dgram None [] false in
  sound X R d → valid_fd fd → (listener = true → dgram = false) →
  ∃ s' d', arm_new fd s d = Some d' ∧ rearmed fd s' d d' ∧ sound X R d' ∧
           ps_callback s' = cb ∧ ps_interest s' = i.
Proof.
  intros s Hs Hv Hld. unfold arm_new.
  assert (covered (outstanding (kernel (put_state fd s d)) ∪ R) fd s) as Hc by done.
  pose proof (rearmed_put fd s d) as H0. pose proof (rearmed_lookup _ _ _ _ H0) as Hl.
  destruct (is_dgram s) eqn:Hd; [destruct (has_event (ps_interest s) ev_readable) eqn:Hr|
    destruct (is_listener s) eqn:Hli].
  - pose proof (rearmed_put fd (set_slots new_slots s) (put_state fd s d)) as H1.
    destruct (arm_all_slots R fd (set_slots new_slots s) (replicate DGRAM_RECV_SLOTS false)
                (put_state fd (set_slots new_slots s) (put_state fd s d)))
      as (d' & Ha & _ & H2 & Hc'); [by eapply rearmed_lookup|done..| |].
    { split_and!; [done..|]. intros l j Hl' Hj. apply Some_inj in Hl'. rewrite <- Hl' in Hj.
      by apply lookup_replicate_1 in Hj as [? _]. }
    pose proof (rearmed_trans _ _ _ _ _ _ (rearmed_trans _ _ _ _ _ _ H0 H1) H2) as H3.
    eexists _, d'. split_and!; [exact Ha|exact H3| |done..].
    eapply rearmed_sound; [exact H3|exact Hs|set_solver..|done| |exact Hc'|].
    + split_and!; [done|done|simpl in *; congruence|]. intros l Hl'. apply Some_inj in Hl'. by subst l.
    + intros _. right. simpl in *. by subst.
  - eexists _, _. split_and!; [done|exact H0| |done..].
    eapply rearmed_sound; [exact H0|exact Hs|set_solver..|done|done|done|].
    intros _. right. simpl in *. subst. congruence.
  - eexists _, _. split_and!; [done|exact H0| |done..].
    eapply rearmed_sound; [exact H0|exact Hs|set_solver..|done|done|done|by left].
  - cbn [negb].
    destruct (arm_directions_armed (has_event (ps_interest s) ev_readable)
      (has_event (ps_interest s) ev_writable) R fd s (put_state fd s d) Hl) as (d' & -> & H1 & Hc'); [|done|].
    { unfold stream_socket. by rewrite Hli, Hd. }
    pose proof (rearmed_trans _ _ _ _ _ _ H0 H1) as H3. eexists _, d'. split_and!; [done|exact H3| |done..].
    eapply rearmed_sound; [exact H3|exact Hs|set_solver..|done| |exact Hc'|].
    + simpl in *. subst. done.
    + intros _. right. simpl in *. subst. done.
Qed.

Lemma port_error_spec fd listener d :
  so_acceptconn fd (kernel d) = listener →
  ∃ err k, port_error fd listener d = (err, set_kernel k d) ∧ view IK k = view IK (kernel d) ∧
           err ≠ Some 0 ∧ (err = None → valid_fd fd).
Proof.
  intros Hl. assert (valid_fd fd ∨ ¬ valid_fd fd) as Hv by (unfold valid_fd; lia).
  pose proof (law_handles IK fd (kernel d)) as Hh. unfold port_error. destruct listener; simpl.
  - exists None, (kernel d). split_and!; [by destruct d|done..|]. intros _. destruct Hv as [|Hv]; [done|].
    destruct (Hh Hv). congruence.
  - pose proof (law_associate IK fd (kernel d)) as H1. pose proof (law_associate_err IK fd (kernel d)) as H2.
    destruct (associate fd (kernel d)) as [r k]. eexists _, k. split_and!; [done|done| |].
    + destruct r as [e|]; [|done]. specialize (H2 e eq_refl). destruct (negb _); congruence.
    + destruct Hv as [|Hv]; [done|]. destruct (Hh Hv) as (_ & e & Hr & He). simpl in Hr. subst r.
      apply Z.eqb_neq in He. by rewrite He.
Qed.

Lemma iocp_add_spec X R fd (i : Z) (cb : CB) (a : nat) d :
  sound X R d →
  ∃ r d', iocp_add fd i cb a d = Some (r, d') ∧ sound X R d' ∧ same_timers d d' ∧
          if rv_bool r then ∃ s, rearmed fd s d d' ∧ ps_callback s = cb ∧ ps_interest s = i
          else states_ d' = states_ d.
Proof.
  intros Hs. unfold iocp_add.
  set (listener := so_acceptconn fd (kernel d)).
  set (dgram := if negb listener then so_dgram fd (kernel d) else false).
  assert (listener = true → dgram = false) as Hld by (unfold dgram; by destruct listener).
  destruct (port_error_spec fd listener d eq_refl) as (err & k & -> & Hview & Herr & Hv).
  injection Hview as Ho Ht.
  assert (sound X R (set_kernel k d)) as Hs' by by apply sound_kernel.
  destruct err as [e|].
  - eexists _, _. split_and!; [done|done|done|]. unfold rv_bool, ec_bool. simpl.
    destruct (e =? 0) eqn:E; bool_facts; [congruence|]. done.
  - destruct (arm_new_sound X R fd i cb a listener dgram _ Hs' (Hv eq_refl) Hld)
      as (s & d' & -> & Hr & Hs'' & Hcb & Hi).
    assert (rearmed fd s d d') as Hr'.
    { destruct Hr as (k' & -> & ? & ?). exists k'. simpl in *. split_and!; [by destruct d|set_solver|congruence]. }
    eexists _, d'. split_and!; [done|done|by eapply rearmed_timers|]. simpl. by exists s.
Qed.

Lemma modify_dgram_spec X R fd (i : Z) s0 d :
  sound X R d → states_ d !! fd = Some s0 → is_listener s0 = false → is_dgram s0 = true →
  ∃ s d', iocp_modify fd i d = Some (rv_ok, d') ∧ sound X R d' ∧ rearmed fd s d d' ∧
          ps_callback s = ps_callback s0 ∧ ps_interest s = i.
Proof.
  intros Hs Hs0 Hli Hd. destruct (Hs fd s0 Hs0) as (Hv & (Hwf1 & Hwf2 & Hwf3 & Hwf4) & Hc & Hw).
  unfold iocp_modify. rewrite Hs0. set (s := set_interest i s0).
  pose proof (rearmed_put fd s d) as H0. pose proof (rearmed_lookup _ _ _ _ H0) as Hl.
  change (is_listener s) with (is_listener s0). change (is_dgram s) with (is_dgram s0). rewrite Hli, Hd.
  assert (∀ l, recv_slots s = Some l → length l = DGRAM_RECV_SLOTS) as Hlen by done.
  destruct (Hwf2 ltac:(simpl in *; by rewrite Hd, orb_true_r)) as [Hp1 Hp2].
  destruct (has_event i ev_readable && negb (has_event (ps_interest s0) ev_readable)) eqn:Hnew.
  + set (s1 := match recv_slots s with None => set_slots new_slots s | Some _ => s end).
    assert (∃ l, recv_slots s1 = Some l ∧ length l = DGRAM_RECV_SLOTS ∧
                 covered (outstanding (kernel (put_state fd s d)) ∪ R) fd s1) as (l & Hl1 & Hl2 & Hc1).
    { unfold s1. destruct (recv_slots s) as [l|] eqn:Hrs; [exists l; auto|].
      exists (replicate DGRAM_RECV_SLOTS false). split_and!; [done..|].
      split_and!; simpl; [congruence..|]. intros l j Hl' Hj. apply Some_inj in Hl'.
      rewrite <- Hl' in Hj. by apply (lookup_replicate_1 4) in Hj as [? _]. }
    assert (match recv_slots s with
            | None => put_state fd (set_slots new_slots s) (put_state fd s d) | Some _ => put_state fd s d end
            = put_state fd s1 (put_state fd s d)) as ->.
    { unfold s1. destruct (recv_slots s); [|done].
      unfold put_state, set_states. simpl. by rewrite insert_insert_eq. }
    pose proof (rearmed_put fd s1 (put_state fd s d)) as H1.
    assert (ps_addr s1 = ps_addr s0 ∧ read_pending s1 = false ∧ write_pending s1 = false ∧
            ps_callback s1 = ps_callback s0 ∧ ps_interest s1 = i ∧ is_dgram s1 = true ∧ is_listener s1 = false)
      as (Ha & Hr1 & Hw1 & Hcb & Hi & Hd1 & Hl1').
    { unfold s1. destruct (recv_slots s); simpl in *; auto 10. }
    destruct (arm_all_slots R fd s1 l (put_state fd s1 (put_state fd s d)))
      as (d' & _ & Hm & H2 & Hc'); [by eapply rearmed_lookup|done..|].
    rewrite Ha in Hm. rewrite Hm.
    pose proof (rearmed_trans _ _ _ _ _ _ (rearmed_trans _ _ _ _ _ _ H0 H1) H2) as H3.
    eexists _, d'. split_and!; [done| |exact H3|done..].
    eapply rearmed_sound; [exact H3|exact Hs|set_solver..|done| |exact Hc'|].
    * split_and!; simpl; [congruence|auto|congruence|]. by intros ? [= <-].
    * intros _. right. simpl. by rewrite Hd1.
  + eexists s, _. split_and!; [done| |exact H0|done..].
    eapply rearmed_sound; [exact H0|exact Hs|set_solver..|done|done|done|].
    intros [?|Hwant]%Hw; [by left|right]. simpl in *. rewrite Hd in *.
    intros Hi. rewrite Hi in Hnew. simpl in Hnew. bool_facts. auto.
Qed.

Lemma modify_stream_spec X R fd (i : Z) s0 d :
  sound X R d → states_ d !! fd = Some s0 → is_listener s0 = false → is_dgram s0 = false →
  ∃ s d', iocp_modify fd i d = Some (rv_ok, d') ∧ sound X R d' ∧ rearmed fd s d d' ∧
          ps_callback s = ps_callback s0 ∧ ps_interest s = i.
Proof.
  intros Hs Hs0 Hli Hd. destruct (Hs fd s0 Hs0) as (Hv & (Hwf1 & Hwf2 & Hwf3 & Hwf4) & Hc & Hw).
  unfold iocp_modify. rewrite Hs0. set (s := set_interest i s0).
  pose proof (rearmed_put fd s d) as H0. pose proof (rearmed_lookup _ _ _ _ H0) as Hl.
  change (is_listener s) with (is_listener s0). change (is_dgram s) with (is_dgram s0). rewrite Hli, Hd.
  set (r := has_event i ev_readable && negb (has_event (ps_interest s0) ev_readable)).
  set (w := has_event i ev_writable && negb (has_event (ps_interest s0) ev_writable)).
  destruct (arm_directions_armed r w R fd s (put_state fd s d) Hl) as (d' & Hm & H1 & Hc');
    [unfold stream_socket; simpl; by rewrite Hli, Hd|done|].
  pose proof (rearmed_trans _ _ _ _ _ _ H0 H1) as H3.
  exists (arm_directions r w s), d'. split_and!; [| |exact H3|done..].
  { change (ps_addr s) with (ps_addr s0) in Hm. destruct (if r then _ else _); [|done].
    simpl in *. by rewrite Hm. }
  eapply rearmed_sound; [exact H3|exact Hs|set_solver..|done| |exact Hc'|].
  + split_and!; simpl in *; [done| |done|done]. rewrite Hli, Hd. done.
  + intros Hf. right. destruct (Hw Hf) as [?|Hwant]; simpl in *; [congruence|]. rewrite Hd in *.
    unfold r, w. split; intros Hi; rewrite Hi; simpl.
    * destruct (has_event (ps_interest s0) ev_readable); simpl; [|by rewrite orb_true_r].
      by rewrite (proj1 Hwant).
    * destruct (has_event (ps_interest s0) ev_writable); simpl; [|by rewrite orb_true_r].
      by rewrite (proj2 Hwant).
Qed.

Lemma iocp_modify_spec X R fd (i : Z) s0 d :
  sound X R d → states_ d !! fd = Some s0 →
  ∃ s d', iocp_modify fd i d = Some (rv_ok, d') ∧ sound X R d' ∧ rearmed fd s d d' ∧
          ps_callback s = ps_callback s0 ∧ ps_interest s = i.
Proof.
  intros Hs Hs0. destruct (is_listener s0) eqn:Hli.
  - destruct (Hs fd s0 Hs0) as (Hv & Hwf & Hc & Hw). unfold iocp_modify. rewrite Hs0. cbn [set_interest is_listener].
    rewrite Hli. pose proof (rearmed_put fd (set_interest i s0) d) as H0.
    eexists _, _. split_and!; [done| |exact H0|done..].
    eapply rearmed_sound; [exact H0|exact Hs|set_solver..|done|done|done|by left].
  - destruct (is_dgram s0) eqn:Hd; [by apply modify_dgram_spec|by apply modify_stream_spec].
Qed.

Lemma iocp_remove_spec X R fd d :
  sound X R d →
  sound X R (iocp_remove fd d).2 ∧ (iocp_remove fd d).1 = rv_ok ∧
  states_ (iocp_remove fd d).2 = delete fd (states_ d) ∧
  tp_open (kernel (iocp_remove fd d).2) = tp_open (kernel d).
Proof.
  intros Hs. unfold iocp_remove. destruct (states_ d !! fd) as [s|] eqn:Hf; simpl.
  2:{ split_and!; [done..| |done]. by rewrite delete_id. }
  assert (∀ k, outstanding k = outstanding (kernel d) →
          sound X R (set_states (delete fd (states_ d)) (set_kernel k d))) as Hd.
  { intros k Hk fd' s'. simpl. rewrite Hk. intros [_ H]%lookup_delete_Some. by apply Hs in H. }
  pose proof (law_cancel IK fd (kernel d)) as [= Ho Ht].
  destruct (negb (is_listener s)); simpl; split_and!; auto. specialize (Hd (kernel d) eq_refl). by destruct d.
Qed.

(** *** Polling keeps every interest armed *)

(** The timers open are those registered and those of [T], being dispatched. *)
Definition timers_owned (T : gset Z) d : Prop :=
  tp_open (kernel d) = dom (timer_infos_ d) ∪ T ∧ dom (timer_infos_ d) ## T ∧
  0 < next_timer_id_ d ∧ ∀ id, id ∈ tp_open (kernel d) → id < next_timer_id_ d.

Definition inv (X : gset Z) (R : opset) (T : gset Z) d : Prop := sound X R d ∧ timers_owned T d.

(** Callbacks keep the invariant; calls of the operations do so. *)
Definition callbacks_ok : Prop :=
  (∀ X R T cb fd ev d, inv X R T d → ∃ d', invoke cb fd ev d = Some d' ∧ inv X R T d') ∧
  (∀ X R T cb d, inv X R T d → ∃ d', invoke_timer cb d = Some d' ∧ inv X R T d').

Lemma timers_owned_same T d d' : same_timers d d' → timers_owned T d → timers_owned T d'.
Proof. intros (E1 & E2 & E3). unfold timers_owned. by rewrite E1, E2, E3. Qed.

Lemma timers_owned_kernel T k d :
  tp_open k = tp_open (kernel d) → timers_owned T d → timers_owned T (set_kernel k d).
Proof. intros H. apply timers_owned_same. done. Qed.

Lemma inv_kernel X R T k d : view IK k = view IK (kernel d) → inv X R T d → inv X R T (set_kernel k d).
Proof. intros [= Ho Ht] [? ?]. split; [by apply sound_kernel|by apply timers_owned_kernel]. Qed.

Lemma rearm_sound X R fd d :
  sound ({[fd]} ∪ X) R d → ∃ d', rearm fd d = Some d' ∧ sound X R d' ∧ same_timers d d'.
Proof.
  intros Hs. unfold rearm. destruct (states_ d !! fd) as [s|] eqn:Hf.
  2:{ exists d. split_and!; [done| |done]. intros fd' s' H. destruct (Hs fd' s' H) as (? & ? & ? & Hw).
      split_and!; [done..|]. intros ?. apply Hw. assert (fd' ≠ fd) by congruence. set_solver. }
  destruct (Hs fd s Hf) as (Hv & Hwf & Hc & _). destruct (stream_socket s) eqn:Hst.
  - destruct (arm_read_armed (has_event (ps_interest s) ev_readable && negb (read_pending s)) R fd s d Hf Hst Hc)
      as (d1 & -> & H1 & Hc1). pose proof (rearmed_lookup _ _ _ _ H1) as Hl1. simpl.
    rewrite (deref_self _ _ _ Hl1 : deref fd (ps_addr s) d1 = _). simpl.
    destruct (arm_write_armed (has_event (ps_interest s) ev_writable && negb (write_pending s)) R fd _ d1 Hl1 Hst Hc1)
      as (d2 & H2' & H2 & Hc2). pose proof (rearmed_trans _ _ _ _ _ _ H1 H2) as H3.
    exists d2. split_and!; [exact H2'| |by eapply rearmed_timers].
    eapply rearmed_sound; [exact H3|exact Hs|set_solver..|done| |exact Hc2|].
    + unfold stream_socket in Hst. bool_facts. destruct Hwf as (? & ? & ? & ?).
      split_and!; simpl; try done. rewrite H, H0. done.
    + intros _. right. unfold stream_socket in Hst. bool_facts. simpl. rewrite H0.
      split; intros ->; by destruct (read_pending s), (write_pending s).
  - assert (arm_read fd (ps_addr s) d = Some d ∧ arm_write fd (ps_addr s) d = Some d) as [Hr Hw].
    { unfold stream_socket in Hst. apply negb_false_iff in Hst. unfold arm_read, arm_write.
      rewrite (deref_self _ _ _ Hf). simpl. rewrite <- !orb_assoc, Hst, !orb_true_r. done. }
    exists d. split_and!; [| |done].
    + rewrite Hr. destruct (_ && _); simpl; rewrite (deref_self _ _ _ Hf); simpl; by rewrite Hw; destruct (_ && _).
    + intros fd' s' H. destruct (Hs fd' s' H) as (? & ? & ? & Hw'). split_and!; [done..|]. intros ?. apply Hw'.
      destruct (decide (fd' = fd)) as [->|]; [right; congruence|set_solver].
Qed.

(** An entry for [fd] has been consumed, and the state of [fd] no longer marks
    its operation pending. *)
Lemma sound_consume X Y R fd ov s d d' :
  rearmed fd s d d' → sound X ({[(fd, ov)]} ∪ R) d → Y ⊆ X ∪ {[fd]} → X ⊆ Y ∪ {[fd]} →
  valid_fd fd → ps_wf s → covered (outstanding (kernel d') ∪ R) fd s →
  (fd ∉ Y ∨ stream_socket s = false → wanted s) → sound Y R d'.
Proof.
  intros (k & -> & Ho & _) Hs HY HX Hv Hwf Hc Hw fd' s'. simpl. destruct (decide (fd = fd')) as [<-|Hne].
  - rewrite lookup_insert_eq. by intros [= <-].
  - rewrite lookup_insert_ne by done. intros (? & ? & Hc' & Hw')%Hs. split_and!; [done..| |].
    + eapply covered_other; [|exact Ho|exact Hc']. done.
    + intros Hf. apply Hw'. set_solver.
Qed.

Lemma sound_consume_none X R fd ov d :
  sound X ({[(fd, ov)]} ∪ R) d → ¬ valid_fd fd ∨ states_ d !! fd = None → sound X R d.
Proof.
  intros Hs Hn fd' s' H. destruct (Hs fd' s' H) as (Hv & ? & Hc & ?).
  assert (fd' ≠ fd) by (destruct Hn; congruence). split_and!; [done..| |done].
  by eapply covered_other; [| |exact Hc].
Qed.

Lemma covered_done R fd s e :
  ps_wf s → stream_socket s = true → covered ({[(fd, e_ov e)]} ∪ R) fd s → covered R fd (stream_done s e).
Proof.
  intros (_ & _ & Hn & _) Hst (Hr & Hw & _). unfold stream_socket in Hst. bool_facts.
  assert (∀ ov, ov ≠ e_ov e → (fd, ov) ∈ {[(fd, e_ov e)]} ∪ R → (fd, ov) ∈ R) as Hne by set_solver.
  unfold stream_done. repeat case_bool_decide; split_and!; simpl; try rewrite Hn by done; try done;
    intros Hp; apply Hne; auto; congruence.
Qed.

Lemma stream_completion_inv X R T fd s e d :
  callbacks_ok → inv X ({[(fd, e_ov e)]} ∪ R) T d → states_ d !! fd = Some s → is_dgram s = false →
  ∃ d', stream_completion fd s e d = Some d' ∧ inv X R T d'.
Proof.
  intros [Hcb _] [Hs Ht] Hf Hd. destruct (Hs fd s Hf) as (Hv & Hwf & Hc & Hw).
  pose proof (rearmed_put fd (stream_done s e) d) as H0.
  assert (sound ({[fd]} ∪ X) R (put_state fd (stream_done s e) d)) as Hs1.
  { eapply (sound_consume X); [exact H0|exact Hs|set_solver..|done| | |].
    - unfold ps_wf, stream_done in *. repeat case_bool_decide; simpl; naive_solver.
    - destruct (stream_socket s) eqn:Hst.
      + apply covered_done; [done..|]. by rewrite union_assoc_L, (union_comm_L _ (outstanding _)), <- union_assoc_L.
      + destruct Hwf as (? & Hp & Hn & _). unfold stream_socket in Hst. bool_facts.
        destruct (Hp Hst). unfold stream_done. repeat case_bool_decide; split_and!; simpl; try congruence;
        rewrite Hn by done; done.
    - intros [?|Hst]; [set_solver|].
      assert (is_listener s = true) as Hl.
      { unfold stream_socket, stream_done in Hst. bool_facts.
        repeat case_bool_decide; simpl in Hst; by rewrite Hd, orb_false_r in Hst. }
      left. unfold stream_done. by repeat case_bool_decide. }
  pose proof (timers_owned_same T _ _ (rearmed_timers _ _ _ _ H0) Ht) as Ht1.
  destruct (Hcb _ _ T (ps_callback s) fd (stream_event s e) _ (conj Hs1 Ht1)) as (d1 & H1 & Hs2 & Ht2).
  unfold stream_completion. rewrite H1. simpl. destruct (rearm_sound _ _ _ _ Hs2) as (d2 & -> & Hs3 & Hst).
  exists d2. split; [done|]. split; [done|]. by eapply timers_owned_same.
Qed.

(** Sockets differ in the queue and the notification flag only. *)
Lemma sound_same X R fd s (q : list (bytes * sock_address)) (b : bool) d :
  sound X R d → states_ d !! fd = Some s → sound X R (put_state fd (set_dgram_queue q (set_notified b s)) d).
Proof.
  intros Hs Hf. destruct (Hs fd s Hf) as (? & ? & ? & ?).
  eapply rearmed_sound; [apply rearmed_put|exact Hs|set_solver..|done|done|done|done].
Qed.

(** The state in which a completed receive leaves its socket. *)
Definition received (e : entry) : list (bytes * sock_address) :=
  match e_result e with Some (data, src) => if (0 <? length data)%nat then [(data, src)] else [] | None => [] end.

Definition dgram_done s (e : entry) (i : nat) (l : list bool) : per_socket_state CB :=
  set_dgram_queue (dgram_queue s ++ received e) (set_slots (Some (<[i := false]> l)) s).

Lemma dgram_completion_eq fd s e i l ready d :
  slot_of s (e_ov e) = Some i → recv_slots s = Some l →
  dgram_completion fd s e ready d =
  let s1 := dgram_done s e i l in
  let d := put_state fd s1 d in
  d ← (if has_event (ps_interest s) ev_readable then arm_recv_from fd (ps_addr s) i d else Some d);
  s ← deref fd (ps_addr s) d;
  Some (if negb (dgram_notified s)
        then (put_state fd (set_notified true s) d, ready ++ [fd]) else (d, ready)).
Proof.
  intros Hi Hl. unfold dgram_completion, dgram_done, received. rewrite Hi, Hl. simpl.
  destruct (e_result e) as [[data src]|]; [destruct (0 <? length data)%nat|]; simpl; rewrite ?app_nil_r; [done| |];
    destruct s; done.
Qed.

Lemma slot_of_spec s ov i :
  slot_of s ov = Some i ↔ ∃ l, recv_slots s = Some l ∧ ov = OvSlot (ps_addr s) i ∧ (i < length l)%nat.
Proof.
  unfold slot_of. destruct ov as [| | | |a j]; try naive_solver. destruct (recv_slots s) as [l|]; [|naive_solver].
  destruct (_ && _) eqn:E; bool_facts; subst; [naive_solver|]. split; [done|].
  intros (l' & [= <-] & [= -> ->] & Hlt). rewrite Nat.eqb_refl in E. simpl in E. bool_facts. lia.
Qed.

Lemma dgram_completion_armed fd s e i l ready d :
  states_ d !! fd = Some s → slot_of s (e_ov e) = Some i → recv_slots s = Some l →
  let l' := <[i := has_event (ps_interest s) ev_readable]> l in
  let s' := set_notified true (set_slots (Some l') (dgram_done s e i l)) in
  ∃ d' ready', dgram_completion fd s e ready d = Some (d', ready') ∧ rearmed fd s' d d' ∧
    (has_event (ps_interest s) ev_readable = true → (fd, OvSlot (ps_addr s) i) ∈ outstanding (kernel d')) ∧
    ready' = if dgram_notified s then ready else ready ++ [fd].
Proof.
  intros Hf Hslot Hl l' s'. rewrite (dgram_completion_eq fd s e i l ready d Hslot Hl). cbv zeta.
  apply slot_of_spec in Hslot as (l0 & Hl0 & _ & Hi). assert (l0 = l) as -> by congruence.
  set (s1 := dgram_done s e i l). pose proof (rearmed_put fd s1 d) as H1.
  pose proof (rearmed_lookup _ _ _ _ H1) as Hf1.
  assert (∃ d2, (if has_event (ps_interest s) ev_readable then arm_recv_from fd (ps_addr s) i (put_state fd s1 d)
                 else Some (put_state fd s1 d)) = Some d2 ∧ rearmed fd (set_slots (Some l') s1) d d2 ∧
          (has_event (ps_interest s) ev_readable = true → (fd, OvSlot (ps_addr s) i) ∈ outstanding (kernel d2)))
    as (d2 & -> & H2 & Hin).
  { unfold l'. destruct (has_event (ps_interest s) ev_readable).
    - destruct (arm_recv_from_spec fd s1 (<[i:=false]> l) false i _ Hf1 eq_refl) as (k & Hk & Ho & Ht & Hin);
        [by rewrite list_lookup_insert_eq|].
      eexists. split; [exact Hk|]. rewrite list_insert_insert_eq. split; [|auto].
      eapply rearmed_trans; [exact H1|]. by exists k.
    - eexists. split; [done|]. split; [|done].
      assert (set_slots (Some (<[i:=false]> l)) s1 = s1) as -> by done. exact H1. }
  simpl. rewrite (deref_self _ _ _ (rearmed_lookup _ _ _ _ H2) : deref fd (ps_addr s) d2 = _). simpl.
  destruct (dgram_notified s) eqn:Hn; simpl; eexists _, _; (split; [done|]).
  - split_and!; [|done..]. assert (s' = set_slots (Some l') s1) as ->; [|done].
    unfold s', s1. destruct s. simpl in *. by subst.
  - split_and!; [|done..]. eapply rearmed_trans; [exact H2|apply rearmed_put].
Qed.

Lemma dgram_completion_inv X R T fd s e ready d :
  inv X ({[(fd, e_ov e)]} ∪ R) T d → states_ d !! fd = Some s → is_dgram s = true →
  ∃ d' ready', dgram_completion fd s e ready d = Some (d', ready') ∧ inv X R T d'.
Proof.
  intros [Hs Ht] Hf Hd. destruct (Hs fd s Hf) as (Hv & Hwf & Hc & Hw). pose proof Hwf as (Hnl & Hp & _ & Hlen).
  destruct (Hp ltac:(rewrite Hd; apply orb_true_r)) as [Hr Hwp].
  assert (stream_socket s = false) as Hst by (unfold stream_socket; by rewrite Hd, orb_true_r).
  destruct Hc as (_ & _ & Hc). destruct (slot_of s (e_ov e)) as [i|] eqn:Hslot.
  2:{ exists d, ready. unfold dgram_completion. rewrite Hslot. split; [done|]. split; [|done].
      apply (sound_consume X X R fd (e_ov e) s d d (rearmed_refl fd s d Hf)); [done|set_solver..|done|done| |auto].
      split_and!; [congruence..|]. intros l i Hl Hi. specialize (Hc l i Hl Hi).
      assert (e_ov e ≠ OvSlot (ps_addr s) i); [|set_solver]. intros He.
      assert (slot_of s (e_ov e) = Some i); [|congruence]. apply slot_of_spec. exists l.
      split_and!; [done..|]. by eapply lookup_lt_Some. }
  apply slot_of_spec in Hslot as Hsl. destruct Hsl as (l & Hl & Hov & Hi).
  destruct (dgram_completion_armed fd s e i l ready d Hf Hslot Hl) as (d' & ready' & -> & H1 & Hin & _).
  eexists _, _. split; [done|]. split; [|by eapply timers_owned_same; [eapply rearmed_timers|]].
  eapply (sound_consume X X); [exact H1|exact Hs|set_solver..|done| | |].
  - split_and!; simpl; [done|done|congruence|]. intros l' [= <-]. rewrite length_insert. auto.
  - split_and!; [simpl; congruence..|]. intros l' j [= <-] Hj. simpl in *.
    destruct (decide (i = j)) as [->|Hne].
    + rewrite list_lookup_insert_eq in Hj by done. set_solver.
    + rewrite list_lookup_insert_ne in Hj by done. specialize (Hc l j Hl Hj). rewrite Hov in Hc.
      destruct H1 as (k & -> & Ho & _). set_solver.
  - intros _. right. simpl. rewrite Hd. intros Hint. rewrite Hint.
    destruct (Hw (or_intror Hst)) as [Hli|Hwant]; [specialize (Hnl Hli); congruence|]. rewrite Hd in Hwant.
    rewrite Hwant in Hl by done. injection Hl as <-. f_equal. apply list_insert_id.
    by apply (lookup_replicate_2 4).
Qed.

(** *** Timers are closed exactly once *)

Lemma shut_timer_spec id d :
  id ∈ tp_open (kernel d) →
  ∃ k, shut_timer id d = Some (set_kernel k d) ∧ outstanding k = outstanding (kernel d) ∧
       tp_open k = tp_open (kernel d) ∖ {[id]}.
Proof.
  intros Hin. unfold shut_timer. pose proof (law_set_tp IK id 0 0 (kernel d)) as [= Ho Ht].
  destruct (law_close_tp IK id (set_tp_timer id 0 0 (kernel d))) as (k & -> & Hv); [by rewrite Ht|].
  injection Hv as Ho' Ht'. exists k. split_and!; congruence.
Qed.

Lemma cancel_timer_inv X R T id d :
  inv X R T d →
  ∃ d', iocp_cancel_timer id d = Some d' ∧ inv X R T d' ∧ timer_infos_ d' = delete id (timer_infos_ d) ∧
        states_ d' = states_ d.
Proof.
  intros [Hs (Ht & Hdisj & Hpos & Hlt)]. unfold iocp_cancel_timer.
  destruct (timer_infos_ d !! id) as [info|] eqn:Hid.
  2:{ exists d. rewrite delete_id by done. done. }
  assert (id ∈ dom (timer_infos_ d)) as Hdom by by eapply elem_of_dom_2.
  destruct (shut_timer_spec id (set_timers (delete id (timer_infos_ d)) d)) as (k & -> & Ho & Hk);
    [simpl; set_solver|]. eexists. split; [done|]. split_and!; [|done..]. split.
  - intros fd s H. simpl in *. rewrite Ho. by apply Hs.
  - simpl in *. unfold timers_owned. simpl. rewrite Hk, dom_delete_L, Ht. split_and!; [|set_solver|done|set_solver].
    apply set_eq. intros x. destruct (decide (x = id)); set_solver.
Qed.

Lemma schedule_timer_inv X R T timeout rep cb d :
  inv X R T d → next_timer_id_ d < 2 ^ 64 - 1 →
  let '(id, d') := iocp_schedule_timer timeout rep cb d in
  inv X R T d' ∧ states_ d' = states_ d ∧
  if id =? 0 then timer_infos_ d' = timer_infos_ d
  else id = next_timer_id_ d ∧ timer_infos_ d' = <[id := mk_iocp_timer cb rep]> (timer_infos_ d).
Proof.
  intros [Hs (Ht & Hdisj & Hpos & Hlt)] Hb. unfold iocp_schedule_timer. simpl.
  pose proof (law_create_tp IK (next_timer_id_ d) (kernel d)) as Hc.
  destruct (create_tp_timer _ _) as [ok k]. simpl in Hc. injection Hc as Ho Hk.
  rewrite wrap_id by (unfold in_width; lia). destruct ok; simpl.
  - pose proof (law_set_tp IK (next_timer_id_ d) (- (timeout * 10000)) (if rep then u32 timeout else 0) k) as [= Ho' Hk'].
    destruct (next_timer_id_ d =? 0) eqn:E; bool_facts; [lia|]. split_and!; [|done..]. split.
    + intros fd s H. simpl in *. rewrite Ho', Ho. by apply Hs.
    + unfold timers_owned. simpl. rewrite Hk', Hk, dom_insert_L, Ht. split_and!; [set_solver| |lia|].
      * assert (next_timer_id_ d ∉ T); [|set_solver]. intros ?.
        specialize (Hlt (next_timer_id_ d) ltac:(set_solver)). lia.
      * intros id [->%elem_of_singleton|Hin]%elem_of_union; [lia|]. rewrite <- Ht in Hin. specialize (Hlt _ Hin). lia.
  - split_and!; [|done..]. split.
    + intros fd s H. simpl in *. rewrite Ho. by apply Hs.
    + rewrite union_empty_l_L in Hk. unfold timers_owned. simpl. rewrite Hk. split_and!; [done..|lia|].
      intros id Hin. specialize (Hlt _ Hin). lia.
Qed.

Lemma dispatch_timer_inv X R T id d :
  callbacks_ok → inv X R T d → ∃ d', dispatch_timer id d = Some d' ∧ inv X R T d'.
Proof.
  intros [_ Hcb] [Hs Ht]. unfold dispatch_timer. destruct (timer_infos_ d !! id) as [info|] eqn:Hid; [|by exists d].
  destruct (repeating info); simpl.
  { destruct (Hcb _ _ _ (it_callback info) d (conj Hs Ht)) as (d1 & -> & H1). by exists d1. }
  destruct Ht as (Ht & Hdisj & Hpos & Hlt).
  assert (id ∈ dom (timer_infos_ d)) as Hdom by by eapply elem_of_dom_2.
  destruct (Hcb X R ({[id]} ∪ T) (it_callback info) (set_timers (delete id (timer_infos_ d)) d))
    as (d1 & -> & Hs1 & Ht1 & Hdisj1 & Hpos1 & Hlt1).
  { split; [exact Hs|]. unfold timers_owned. simpl. rewrite dom_delete_L. split_and!; [|set_solver|done|done].
    rewrite Ht. apply set_eq. intros x. destruct (decide (x = id)); set_solver. }
  simpl. destruct (shut_timer_spec id d1) as (k & -> & Ho & Hk); [set_solver|].
  eexists. split; [done|]. split; [by apply sound_kernel|]. unfold timers_owned. simpl. rewrite Hk, Ht1.
  assert (id ∉ T) as HT by set_solver. split_and!; [|set_solver|done|set_solver].
  apply set_eq. intros x. destruct (decide (x = id)) as [->|]; set_solver.
Qed.

(** *** The phases of [poll] *)

Definition opset_of (es : list entry) : opset := list_to_set ((λ e, (e_key e, e_ov e)) <$> es).

Lemma process_entry_inv X R T e n ready d :
  callbacks_ok → inv X ({[(e_key e, e_ov e)]} ∪ R) T d →
  ∃ n' ready' d', process_entry e n ready d = Some (n', ready', d') ∧ inv X R T d'.
Proof.
  intros Hcb [Hs Ht]. unfold process_entry. destruct (e_key e =? WAKER_KEY) eqn:E1; bool_facts.
  { eexists _, _, d. split; [done|]. split; [|done]. eapply sound_consume_none; [exact Hs|].
    left. unfold valid_fd. lia. }
  destruct (e_key e =? TIMER_KEY) eqn:E2; bool_facts.
  { assert (sound X R d) as Hs'.
    { eapply sound_consume_none; [exact Hs|]. left. unfold valid_fd, WAKER_KEY, TIMER_KEY in *. lia. }
    destruct (dispatch_timer_inv X R T (match e_ov e with OvTimer id => id | _ => 0 end) d Hcb (conj Hs' Ht))
      as (d' & -> & Hd'). by eexists _, _, d'. }
  destruct (states_ d !! e_key e) as [s|] eqn:Hf.
  2:{ eexists _, _, d. split; [done|]. split; [|done]. by eapply sound_consume_none; [|right]. }
  destruct (is_dgram s) eqn:Hd.
  - destruct (dgram_completion_inv X R T (e_key e) s e ready d (conj Hs Ht) Hf Hd) as (d' & ready' & -> & H).
    by eexists _, _, d'.
  - destruct (stream_completion_inv X R T (e_key e) s e d Hcb (conj Hs Ht) Hf Hd) as (d' & -> & H).
    by eexists _, _, d'.
Qed.

Lemma process_entries_inv X T es n ready d :
  callbacks_ok → inv X (opset_of es) T d →
  ∃ n' ready' d', process_entries es n ready d = Some (n', ready', d') ∧ inv X ∅ T d'.
Proof.
  intros Hcb. revert n ready d. induction es as [|e es IH]; intros n ready d Hi; cbn [process_entries].
  { by eexists _, _, d. }
  destruct (process_entry_inv X (opset_of es) T e n ready d Hcb Hi) as (n1 & r1 & d1 & -> & H1). simpl. auto.
Qed.

Lemma notify_dgrams_inv X R T ready n d :
  callbacks_ok → inv X R T d → ∃ n' d', notify_dgrams ready n d = Some (n', d') ∧ inv X R T d'.
Proof.
  intros Hcb. revert n d. induction ready as [|fd ready IH]; intros n d Hi; cbn [notify_dgrams]; [by eexists _, d|].
  destruct (states_ d !! fd) as [s|] eqn:Hf; [|by apply IH].
  assert (inv X R T (put_state fd (set_notified false s) d)) as H1.
  { destruct Hi as [Hs Ht]. split; [|done].
    pose proof (sound_same X R fd s (dgram_queue s) false d Hs Hf) as H. by destruct s. }
  destruct (_ || _); [by apply IH|].
  destruct (proj1 Hcb _ _ _ (ps_callback s) fd ev_readable _ H1) as (d1 & H2 & H3).
  change (ps_callback (set_notified false s)) with (ps_callback s). rewrite H2. simpl. auto.
Qed.

Lemma run_listeners_inv X R T ready n d :
  callbacks_ok → inv X R T d → ∃ n' d', run_listeners ready n d = Some (n', d') ∧ inv X R T d'.
Proof.
  intros Hcb. revert n d. induction ready as [|[fd rev] ready IH]; intros n d Hi; cbn [run_listeners];
    [by eexists _, d|].
  destruct (negb _); [|by apply IH]. destruct (states_ d !! fd) as [s|]; [|by apply IH].
  destruct (proj1 Hcb _ _ _ (ps_callback s) fd
    (if negb (Z.land rev POLLERR =? 0) then ev_or ev_readable ev_error else ev_readable) _ Hi) as (d1 & -> & H1).
  simpl. auto.
Qed.

Lemma poll_listeners_inv X R T d :
  callbacks_ok → inv X R T d → ∃ n d', poll_listeners d = Some (n, d') ∧ inv X R T d'.
Proof.
  intros Hcb Hi. unfold poll_listeners. destruct (polled_listeners d) as [|fd fds]; [by eexists _, d|].
  pose proof (law_wsa_poll IK (fd :: fds) (kernel d)) as Hp. destruct (wsa_poll _ _) as [ready k].
  apply (inv_kernel _ _ _ _ _ Hp) in Hi.
  destruct ready; [by apply run_listeners_inv|by eexists _, _].
Qed.


(** ** Datagrams are delivered in order *)

(** The parts of a state a completed receive leaves alone. *)
Definition same_socket s s' : Prop :=
  ps_addr s' = ps_addr s ∧ length <$> recv_slots s' = length <$> recv_slots s ∧
  is_dgram s' = is_dgram s ∧ ps_interest s' = ps_interest s ∧ ps_callback s' = ps_callback s.

Lemma same_socket_slot s s' ov : same_socket s s' → slot_of s' ov = slot_of s ov.
Proof.
  intros (Ha & Hl & _). unfold slot_of. destruct ov; try done.
  destruct (recv_slots s), (recv_slots s'); simplify_eq/=; [|done]. by rewrite Ha, Hl.
Qed.

Definition hits s (ov : overlapped) : bool := match slot_of s ov with Some _ => true | None => false end.

(** Whatever the kernel answers, arming a slot changes the slots alone. *)
Lemma arm_recv_from_any fd s l i d :
  states_ d !! fd = Some s → recv_slots s = Some l → (i < length l)%nat →
  ∃ d' l', arm_recv_from fd (ps_addr s) i d = Some d' ∧ length l' = length l ∧
           states_ d' = <[fd := set_slots (Some l') s]> (states_ d).
Proof.
  intros Hs Hl Hi. destruct (lookup_lt_is_Some_2 l i Hi) as [b Hb].
  assert (set_slots (Some l) s = s) as Hsame by (destruct s; simpl in *; by subst).
  unfold arm_recv_from, slot_pending, set_slot_pending. rewrite (deref_self _ _ _ Hs), Hl, Hb.
  destruct b; [exists d, l; by rewrite Hsame, insert_id|].
  destruct (wsa_recv_from _ _ _) as [r k]. rewrite (deref_self fd s (set_kernel k d) Hs), Hl. simpl.
  destruct r as [err|]; [destruct (err =? WSA_IO_PENDING)|].
  - eexists _, _. split_and!; [done| |done]. apply length_insert.
  - exists (set_kernel k d), l. simpl. by rewrite Hsame, insert_id.
  - eexists _, _. split_and!; [done| |done]. apply length_insert.
Qed.

(** One completion: its datagram goes to the end of the queue, and its socket
    is marked once. *)
Lemma dgram_completion_queue fd s e ready d :
  states_ d !! fd = Some s →
  ∃ d' s', dgram_completion fd s e ready d =
             Some (d', if hits s (e_ov e) && negb (dgram_notified s) then ready ++ [fd] else ready) ∧
           states_ d' = <[fd := s']> (states_ d) ∧ same_socket s s' ∧
           dgram_queue s' = dgram_queue s ++ (if hits s (e_ov e) then received e else []) ∧
           dgram_notified s' = hits s (e_ov e) || dgram_notified s.
Proof.
  intros Hf. unfold hits. destruct (slot_of s (e_ov e)) as [i|] eqn:Hslot; simpl.
  2:{ exists d, s. unfold dgram_completion. rewrite Hslot, app_nil_r, insert_id by done. done. }
  apply slot_of_spec in Hslot as Hsl. destruct Hsl as (l & Hl & _ & Hi).
  rewrite (dgram_completion_eq fd s e i l ready d Hslot Hl). cbv zeta. set (s1 := dgram_done s e i l).
  assert (∃ d2 l2, (if has_event (ps_interest s) ev_readable then arm_recv_from fd (ps_addr s) i (put_state fd s1 d)
                 else Some (put_state fd s1 d)) = Some d2 ∧ length l2 = length l ∧
          states_ d2 = <[fd := set_slots (Some l2) s1]> (states_ d)) as (d2 & l2 & -> & Hl2 & H2).
  { destruct (has_event _ _).
    - destruct (arm_recv_from_any fd s1 (<[i:=false]> l) i (put_state fd s1 d)) as (d2 & l2 & Ha & Hlen & H2);
        [simpl; by rewrite lookup_insert_eq|done|by rewrite length_insert|].
      exists d2, l2. rewrite length_insert in Hlen. split_and!; [exact Ha|done|].
      rewrite H2. simpl. by rewrite insert_insert_eq.
    - exists (put_state fd s1 d), (<[i:=false]> l). by rewrite length_insert. }
  simpl. assert (states_ d2 !! fd = Some (set_slots (Some l2) s1)) as Hf2 by by rewrite H2, lookup_insert_eq.
  rewrite (deref_self _ _ _ Hf2 : deref fd (ps_addr s) d2 = _). simpl.
  assert (∀ b, same_socket s (set_notified b (set_slots (Some l2) s1))) as Hsame.
  { intros b. unfold same_socket. simpl. by rewrite Hl, Hl2. }
  destruct (dgram_notified s) eqn:Hn; simpl.
  - exists d2, (set_notified true (set_slots (Some l2) s1)). split_and!; [done| |apply Hsame|done..].
    rewrite H2. f_equal. unfold s1. destruct s. simpl in *. by subst.
  - eexists _, (set_notified true (set_slots (Some l2) s1)). split_and!; [done| |apply Hsame|done..].
    simpl. by rewrite H2, insert_insert_eq.
Qed.

(** The completions of a batch that belong to [fd], and their datagrams. *)
Definition completes (fd : Z) s (e : entry) : bool := (e_key e =? fd) && hits s (e_ov e).
Definition arrivals (fd : Z) s (es : list entry) : list (bytes * sock_address) :=
  es ≫= λ e, if completes fd s e then received e else [].

Arguments arrivals : simpl never.

Lemma same_socket_trans s1 s2 s3 : same_socket s1 s2 → same_socket s2 s3 → same_socket s1 s3.
Proof. unfold same_socket. intuition congruence. Qed.

Lemma completes_same fd s s' e : same_socket s s' → completes fd s' e = completes fd s e.
Proof. intros H. unfold completes, hits. by rewrite (same_socket_slot _ _ _ H). Qed.

Lemma arrivals_cons fd s e es :
  arrivals fd s (e :: es) = (if completes fd s e then received e else []) ++ arrivals fd s es.
Proof. done. Qed.

Lemma arrivals_same fd s s' es : same_socket s s' → arrivals fd s' es = arrivals fd s es.
Proof.
  intros H. induction es as [|e es IH]; [done|]. by rewrite !arrivals_cons, IH, (completes_same _ _ _ _ H).
Qed.

Lemma completing_same fd s s' es :
  same_socket s s' → existsb (completes fd s') es = existsb (completes fd s) es.
Proof. intros H. induction es as [|e es IH]; [done|]. simpl. by rewrite IH, (completes_same _ _ _ _ H). Qed.

Definition dgram_entry d (e : entry) : Prop :=
  valid_fd (e_key e) ∧ ∃ s, states_ d !! e_key e = Some s ∧ is_dgram s = true.

Lemma dgram_batch es n ready d :
  Forall (dgram_entry d) es → NoDup ready →
  (∀ fd s, states_ d !! fd = Some s → dgram_notified s = bool_decide (fd ∈ ready)) →
  ∃ ready' d', process_entries es n ready d = Some (n, ready', d') ∧ NoDup ready' ∧
    ∀ fd s, states_ d !! fd = Some s →
      (fd ∈ ready' ↔ fd ∈ ready ∨ existsb (completes fd s) es = true) ∧
      ∃ s', states_ d' !! fd = Some s' ∧ same_socket s s' ∧
            dgram_queue s' = dgram_queue s ++ arrivals fd s es.
Proof.
  revert ready d. induction es as [|e es IH]; intros ready d Hf Hnd Hn; cbn [process_entries].
  { exists ready, d. split_and!; [done..|]. intros fd s Hs. split; [simpl; naive_solver|].
    exists s. by rewrite app_nil_r. }
  apply Forall_cons in Hf as [[Hv (s0 & Hs0 & Hd)] Hf]. unfold process_entry.
  destruct (e_key e =? WAKER_KEY) eqn:E1; bool_facts; [unfold valid_fd in Hv; lia|].
  destruct (e_key e =? TIMER_KEY) eqn:E2; bool_facts; [unfold valid_fd, WAKER_KEY, TIMER_KEY in *; lia|].
  rewrite Hs0, Hd.
  destruct (dgram_completion_queue (e_key e) s0 e ready d Hs0) as (d1 & s1 & -> & H1 & Hsame & Hq & Hn1). simpl.
  set (ready1 := if hits s0 (e_ov e) && negb (dgram_notified s0) then ready ++ [e_key e] else ready).
  assert (∀ fd, fd ∈ ready1 ↔ fd ∈ ready ∨ fd = e_key e ∧ hits s0 (e_ov e) = true) as Hr1.
  { intros fd. unfold ready1. pose proof (Hn _ _ Hs0) as Hn0.
    destruct (hits s0 (e_ov e)), (dgram_notified s0); simpl; [|rewrite elem_of_app, list_elem_of_singleton; tauto|..].
    - symmetry in Hn0. apply bool_decide_eq_true in Hn0. split; [by left|]. by intros [?|[-> _]].
    - split; [by left|]. by intros [?|[_ ?]].
    - split; [by left|]. by intros [?|[_ ?]]. }
  destruct (IH ready1 d1) as (ready' & d' & -> & Hnd' & Hall).
  - eapply Forall_impl; [exact Hf|]. intros e' [? (s' & Hs' & ?)]. split; [done|]. rewrite H1.
    destruct (decide (e_key e = e_key e')) as [<-|]; [|rewrite lookup_insert_ne by done; by exists s'].
    exists s1. rewrite lookup_insert_eq. destruct Hsame as (_ & _ & -> & _). done.
  - unfold ready1. pose proof (Hn _ _ Hs0) as Hn0. destruct (hits s0 (e_ov e)), (dgram_notified s0); simpl; try done.
    symmetry in Hn0. apply bool_decide_eq_false in Hn0. apply NoDup_app. split_and!; [done|set_solver|].
    apply NoDup_singleton.
  - intros fd s. rewrite H1. destruct (decide (e_key e = fd)) as [<-|Hne].
    + rewrite lookup_insert_eq. intros [= <-]. rewrite Hn1, (Hn _ _ Hs0). apply eq_true_iff_eq.
      rewrite orb_true_iff, !bool_decide_eq_true, Hr1. tauto.
    + rewrite lookup_insert_ne by done. intros Hs. rewrite (Hn _ _ Hs). apply bool_decide_ext. rewrite Hr1.
      split; [by left|]. by intros [?|[? _]].
  - exists ready', d'. split_and!; [done..|]. intros fd s Hs. destruct (decide (e_key e = fd)) as [<-|Hne].
    + assert (s0 = s) as -> by congruence.
      destruct (Hall (e_key e) s1) as [Hin (s' & Hs' & Hsame' & Hq')]; [by rewrite H1, lookup_insert_eq|].
      assert (completes (e_key e) s e = hits s (e_ov e)) as Hce by (unfold completes; by rewrite Z.eqb_refl).
      rewrite Hin, Hr1, (completing_same _ _ _ _ Hsame). simpl. rewrite Hce, orb_true_iff. split; [tauto|].
      exists s'. split_and!; [done|by eapply same_socket_trans|].
      rewrite Hq', Hq, (arrivals_same _ _ _ _ Hsame), <- app_assoc. by rewrite arrivals_cons, Hce.
    + destruct (Hall fd s) as [Hin (s' & Hs' & Hsame' & Hq')]; [by rewrite H1, lookup_insert_ne|].
      assert (completes fd s e = false) as Hce by (unfold completes; by rewrite (proj2 (Z.eqb_neq _ _) Hne)).
      rewrite Hin, Hr1. simpl. rewrite Hce. simpl. split; [intuition congruence|].
      exists s'. split_and!; [done..|]. by rewrite Hq', arrivals_cons, Hce.
Qed.

(** The drain loop: [retrieve_dgram] until it fails. *)
Fixpoint retrieve_all (n : nat) (fd : Z) (len : nat) d : list (bytes * sock_address) * disp_t :=
  match n with
  | O => ([], d)
  | S n' =>
      match retrieve_dgram fd len d with
      | (Val p, d) => let '(ps, d) := retrieve_all n' fd len d in (p :: ps, d)
      | (Err _, d) => ([], d)
      end
  end.

Lemma retrieve_all_spec n fd len s d :
  states_ d !! fd = Some s → is_dgram s = true → (length (dgram_queue s) ≤ n)%nat →
  (retrieve_all n fd len d).1 = (λ p, (take len p.1, p.2)) <$> dgram_queue s ∧
  (retrieve_dgram fd len (retrieve_all n fd len d).2).1 = err_of would_block.
Proof.
  revert s d. induction n as [|n IH]; intros s d Hs Hd Hlen; cbn [retrieve_all].
  { destruct (dgram_queue s) eqn:Hq; simpl in *; [|lia]. unfold retrieve_dgram. by rewrite Hs, Hd, Hq. }
  unfold retrieve_dgram at 1 3. rewrite Hs, Hd. simpl. destruct (dgram_queue s) as [|[data src] q] eqn:Hq; simpl in *.
  { unfold retrieve_dgram. by rewrite Hs, Hd, Hq. }
  destruct (IH (set_dgram_queue q s) (put_state fd (set_dgram_queue q s) d)) as [H1 H2];
    [simpl; by rewrite lookup_insert_eq|done|simpl; lia|].
  destruct (retrieve_all _ _ _ _) as [ps d']. simpl in *. by subst.
Qed.

(** Datagrams are delivered once each and in the order of their
    completions, whatever the kernel answers when slots are armed again: the
    first phase of [poll] appends the non-empty datagrams of a batch of receive
    completions to the queues of their sockets and to no other, dispatches
    nothing, and puts each socket with a completion on the list of notifications
    exactly once; draining a queue through [retrieve_dgram] then returns its
    contents in order, each cut to the caller's buffer, and ends with
    [would_block]. *)
Theorem iocp_dgram_fifo es n d :
  Forall (dgram_entry d) es →
  (∀ fd s, states_ d !! fd = Some s → dgram_notified s = false) →
  ∃ ready d', process_entries es n [] d = Some (n, ready, d') ∧ NoDup ready ∧
    ∀ fd s, states_ d !! fd = Some s →
      (fd ∈ ready ↔ existsb (completes fd s) es = true) ∧
      (is_dgram s = true → ∀ len m, (length (dgram_queue s ++ arrivals fd s es) ≤ m)%nat →
        (retrieve_all m fd len d').1 = (λ p, (take len p.1, p.2)) <$> (dgram_queue s ++ arrivals fd s es) ∧
        (retrieve_dgram fd len (retrieve_all m fd len d').2).1 = err_of would_block).
Proof.
  intros Hf Hn. destruct (dgram_batch es n [] d Hf (NoDup_nil_2)) as (ready & d' & Hp & Hnd & Hall).
  { intros fd s Hs. rewrite (Hn _ _ Hs), bool_decide_false by apply not_elem_of_nil. done. }
  exists ready, d'. split_and!; [done..|]. intros fd s Hs. destruct (Hall fd s Hs) as [Hin (s' & Hs' & Hsame & Hq)].
  split. { rewrite Hin. split; [|by right]. intros [?%not_elem_of_nil|?]; done. }
  intros Hd len m Hlen. rewrite <- Hq in *. apply retrieve_all_spec; [done| |done].
  destruct Hsame as (_ & _ & -> & _). done.
Qed.

(** Only the sockets of a batch are notified. *)
Lemma process_entry_ready e n ready d n' ready' d' :
  process_entry e n ready d = Some (n', ready', d') → ready' = ready ∨ ready' = ready ++ [e_key e].
Proof.
  unfold process_entry. destruct (_ =? WAKER_KEY); [naive_solver|]. destruct (_ =? TIMER_KEY).
  { destruct (dispatch_timer _ _); simpl; naive_solver. }
  destruct (states_ d !! e_key e) as [s|] eqn:Hs; [|naive_solver]. destruct (is_dgram s).
  - destruct (dgram_completion_queue (e_key e) s e ready d Hs) as (d1 & s1 & -> & _). simpl.
    intros [= <- <- <-]. destruct (_ && _); auto.
  - destruct (stream_completion _ _ _ _); simpl; naive_solver.
Qed.

Lemma process_entries_ready es n ready d n' ready' d' fd :
  process_entries es n ready d = Some (n', ready', d') → fd ∈ ready' → fd ∈ ready ∨ fd ∈ e_key <$> es.
Proof.
  revert n ready d. induction es as [|e es IH]; intros n ready d; cbn [process_entries].
  { intros [= -> -> ->]. by left. }
  destruct (process_entry e n ready d) as [[[n1 r1] d1]|] eqn:He; simpl; [|done].
  intros Hp Hin. apply process_entry_ready in He. rewrite elem_of_cons.
  destruct (IH _ _ _ Hp Hin) as [H1|]; [|tauto]. destruct He as [->| ->]; [tauto|].
  apply elem_of_app in H1 as [?| ->%list_elem_of_singleton]; tauto.
Qed.

(** Datagrams buffered while a socket was paused are not delivered when it
    is resumed.  Restoring the readable interest of a datagram socket whose
    receive slots are all still pending only records the interest: no callback
    runs, no operation is issued, the buffered datagrams stay where they are, and
    the socket is not among those a later [poll] notifies until a further
    datagram completes on it. *)
Theorem iocp_resume_not_notified fd s d :
  states_ d !! fd = Some s → is_listener s = false → is_dgram s = true →
  recv_slots s = Some (replicate DGRAM_RECV_SLOTS true) →
  has_event (ps_interest s) ev_readable = false →
  let d1 := put_state fd (set_interest ev_readable s) d in
  iocp_modify fd ev_readable d = Some (rv_ok, d1) ∧
  ∀ es n n' ready d2, fd ∉ e_key <$> es → process_entries es n [] d1 = Some (n', ready, d2) → fd ∉ ready.
Proof.
  intros Hs Hl Hd Hr Hi d1. split.
  - unfold iocp_modify. rewrite Hs. cbn [set_interest is_listener is_dgram recv_slots]. rewrite Hl, Hd, Hr, Hi.
    cbn [negb andb].
    assert (states_ (put_state fd (set_interest ev_readable s) d) !! fd = Some (set_interest ev_readable s)) as Hf
      by (simpl; by rewrite lookup_insert_eq).
    assert (∀ is_, Forall (λ i, (i < DGRAM_RECV_SLOTS)%nat) is_ →
      arm_idle_slots fd (ps_addr s) is_ (put_state fd (set_interest ev_readable s) d) =
      Some (put_state fd (set_interest ev_readable s) d)) as Harm.
    { intros is_ Hf'. induction Hf' as [|i is_ Hi' _ IH]; cbn [arm_idle_slots]; [done|].
      unfold slot_pending. rewrite (deref_self _ _ _ Hf : deref fd (ps_addr s) _ = _).
      change (recv_slots (set_interest ev_readable s)) with (recv_slots s). rewrite Hr.
      rewrite (lookup_replicate_2 DGRAM_RECV_SLOTS true i Hi'). exact IH. }
    rewrite (Harm slot_indices); [done|]. repeat constructor; unfold DGRAM_RECV_SLOTS; lia.
  - intros es n n' ready d2 Hn Hp Hin. by destruct (process_entries_ready _ _ _ _ _ _ _ _ Hp Hin) as [?%not_elem_of_nil|].
Qed.

(** ** A life of the dispatcher *)

Inductive iocp_call :=
| CAdd (fd interest : Z) (cb : CB) (a : nat)
| CModify (fd interest : Z)
| CRemove (fd : Z)
| CSchedule (timeout : Z) (repeat : bool) (cb : TCB)
| CCancel (id : Z)
| CFired (id : Z)
| CRetrieve (fd : Z) (len : nat)
| CWake.

Definition run_call (c : iocp_call) d : option disp_t :=
  match c with
  | CAdd fd i cb a => snd <$> iocp_add fd i cb a d
  | CModify fd i => snd <$> iocp_modify fd i d
  | CRemove fd => Some (iocp_remove fd d).2
  | CSchedule t rep cb => Some (iocp_schedule_timer t rep cb d).2
  | CCancel id => iocp_cancel_timer id d
  | CFired id => Some (timer_callback id d)
  | CRetrieve fd len => Some (retrieve_dgram fd len d).2
  | CWake => Some (iocp_wake d)
  end.

Definition run_calls (cs : list iocp_call) d : option disp_t := foldl (λ o c, o ≫= run_call c) (Some d) cs.

Lemma run_call_inv X R T c d :
  inv X R T d → next_timer_id_ d < 2 ^ 64 - 1 →
  ∃ d', run_call c d = Some d' ∧ inv X R T d' ∧ next_timer_id_ d' ≤ next_timer_id_ d + 1.
Proof.
  intros [Hs Ht] Hb. destruct c as [fd i cb a|fd i|fd|t rep cb|id|id|fd len|]; simpl.
  - destruct (iocp_add_spec X R fd i cb a d Hs) as (r & d' & -> & Hs' & Hst & _). exists d'.
    split_and!; [done| |destruct Hst as (_ & -> & _); lia]. split; [done|]. by eapply timers_owned_same.
  - destruct (states_ d !! fd) as [s0|] eqn:Hf.
    + destruct (iocp_modify_spec X R fd i s0 d Hs Hf) as (s & d' & -> & Hs' & Hr & _). exists d'.
      apply rearmed_timers in Hr as Hst. split_and!; [done| |destruct Hst as (_ & -> & _); lia].
      split; [done|]. by eapply timers_owned_same.
    + unfold iocp_modify. rewrite Hf. exists d. split_and!; [done..|lia].
  - destruct (iocp_remove_spec X R fd d Hs) as (Hs' & _ & _ & Htp). eexists. split; [done|].
    assert (same_timers d (iocp_remove fd d).2) as Hst.
    { split_and!; [| |done]; unfold iocp_remove; destruct (states_ d !! fd) as [s|]; try done;
        simpl; by destruct (negb _). }
    split; [split; [done|by eapply timers_owned_same]|]. destruct Hst as (_ & -> & _). lia.
  - pose proof (schedule_timer_inv X R T t rep cb d (conj Hs Ht) Hb) as H. eexists. split; [done|].
    assert (next_timer_id_ (iocp_schedule_timer t rep cb d).2 = u64 (next_timer_id_ d + 1)) as Hn.
    { unfold iocp_schedule_timer. simpl. destruct (create_tp_timer _ _) as [[] k]; done. }
    destruct (iocp_schedule_timer t rep cb d) as [id d']. simpl in *. destruct H as (? & _).
    destruct Ht as (_ & _ & ? & _). rewrite Hn, wrap_id by (unfold in_width; lia). split; [done|lia].
  - destruct (cancel_timer_inv X R T id d (conj Hs Ht)) as (d' & Hc & Hi & _). exists d'. split_and!; [done..|].
    revert Hc. unfold iocp_cancel_timer, shut_timer. destruct (_ !! id); [|intros [= <-]; lia].
    destruct (close_tp_timer _ _); [|done]. intros [= <-]. simpl. lia.
  - eexists. split_and!; [done| |simpl; lia]. apply inv_kernel; [apply (law_post IK)|done].
  - eexists. split; [done|]. unfold retrieve_dgram. destruct (states_ d !! fd) as [s|] eqn:Hf; [|split; [done|simpl; lia]].
    destruct (negb _); [split; [done|simpl; lia]|].
    destruct (dgram_queue s) as [|[data src] q]; [split; [done|simpl; lia]|].
    simpl. split; [|lia]. split; [|done].
    pose proof (sound_same X R fd s q (dgram_notified s) d Hs Hf) as H. by destruct s.
  - eexists. split_and!; [done| |simpl; lia]. apply inv_kernel; [apply (law_post IK)|done].
Qed.

Lemma run_calls_inv X R T cs d :
  inv X R T d → next_timer_id_ d + Z.of_nat (length cs) < 2 ^ 64 - 1 →
  ∃ d', run_calls cs d = Some d' ∧ inv X R T d'.
Proof.
  unfold run_calls. revert d. induction cs as [|c cs IH]; intros d Hi Hb; [by exists d|].
  cbn [length] in Hb. destruct (run_call_inv X R T c d Hi) as (d1 & H1 & Hi1 & Hn1); [lia|].
  cbn [foldl]. change (Some d ≫= run_call c) with (run_call c d). rewrite H1. apply IH; [done|lia].
Qed.

Lemma shut_timers_spec ids d :
  NoDup ids → list_to_set ids ⊆ tp_open (kernel d) →
  ∃ k, shut_timers ids d = Some (set_kernel k d) ∧ tp_open k = tp_open (kernel d) ∖ list_to_set ids.
Proof.
  revert d. induction ids as [|id ids IH]; intros d Hnd Hsub; cbn [shut_timers].
  { exists (kernel d). split; [by destruct d|]. set_solver. }
  apply NoDup_cons in Hnd as [Hni Hnd]. destruct (shut_timer_spec id d) as (k & -> & _ & Hk); [set_solver|].
  destruct (IH (set_kernel k d)) as (k' & Hs & Hk'); [done|simpl; rewrite Hk; set_solver|].
  exists k'. simpl in *. split; [exact Hs|]. rewrite Hk', Hk. set_solver.
Qed.


(** ** The interface *)

Context (alloc : disp_t → nat).

Definition iocp_lookup d (fd : Z) : option (Z * CB) :=
  (λ s, (effective (ps_interest s), ps_callback s)) <$> states_ d !! fd.

Definition iocp_interface : Dispatcher CB := {|
  disp := disp_t;
  d_add fd i cb d := default (rv_of invalid_state, d) (iocp_add fd i cb (alloc d) d);
  d_modify fd i d := default (rv_of invalid_state, d) (iocp_modify fd i d);
  d_remove := iocp_remove;
  d_lookup := iocp_lookup;
  d_wf := sound ∅ ∅
|}.

Lemma rearmed_interface fd s d d' :
  rearmed fd s d d' →
  (∀ fd', fd' ≠ fd → iocp_lookup d' fd' = iocp_lookup d fd') ∧
  iocp_lookup d' fd = Some (effective (ps_interest s), ps_callback s).
Proof.
  intros H. unfold iocp_lookup. rewrite (rearmed_lookup _ _ _ _ H). split; [|done].
  intros fd' Hne. by rewrite (rearmed_lookup_ne _ _ _ _ _ H Hne).
Qed.


End Iocp.

(** ** A concrete kernel *)

Record demo_port := mk_demo { dp_out : gset (Z * overlapped); dp_tp : gset Z; dp_queue : list entry }.

Definition demo_arm (fd : Z) (ov : overlapped) (k : demo_port) : option Z * demo_port :=
  (Some WSA_IO_PENDING, mk_demo ({[(fd, ov)]} ∪ dp_out k) (dp_tp k) (dp_queue k)).

(** Handle 3 listens and handle 5 is a datagram socket. *)
#[export] Instance demo_iocp : IocpKernel demo_port := {|
  create_port k := (true, k);
  close_port k := k;
  so_acceptconn fd k := fd =? 3;
  so_dgram fd k := fd =? 5;
  associate fd k := (if (0 <=? fd) && (fd <? WAKER_KEY) then None else Some 6, k);
  wsa_recv := demo_arm; wsa_send := demo_arm; wsa_recv_from := demo_arm;
  cancel_io fd k := k;
  wsa_poll fds k := (None, k);
  get_completions t k :=
    match dp_queue k with
    | [] => (inr WAIT_TIMEOUT, k)
    | es => (inl es, mk_demo (dp_out k ∖ opset_of es) (dp_tp k) [])
    end;
  post_packet key ov k := mk_demo (dp_out k) (dp_tp k) (dp_queue k ++ [mk_entry key ov 0 None]);
  create_tp_timer id k := (true, mk_demo (dp_out k) ({[id]} ∪ dp_tp k) (dp_queue k));
  set_tp_timer id due period k := k;
  close_tp_timer id k :=
    if bool_decide (id ∈ dp_tp k) then Some (mk_demo (dp_out k) (dp_tp k ∖ {[id]}) (dp_queue k)) else None;
  outstanding := dp_out; tp_open := dp_tp
|}.

#[export] Instance demo_iocp_laws : IocpKernelLaws demo_iocp.
Proof.
  split; try done; simpl.
  - intros fd k e. destruct (_ && _); naive_solver.
  - intros fd k Hv. unfold valid_fd in Hv. split; [destruct (fd =? 3) eqn:E; bool_facts; [|done]; unfold WAKER_KEY in *; lia|].
    exists 6. destruct ((0 <=? fd) && (fd <? WAKER_KEY)) eqn:E; bool_facts; [lia|]. done.
  - intros fd [] k; done.
  - intros t k es k'. destruct (dp_queue k) as [|e es']; intros [= <- <-]. split; [|done].
    unfold opset_of. simpl. intros x Hx. destruct (decide (x ∈ opset_of (e :: es'))) as [Hin|]; unfold opset_of in *; set_solver.
  - intros t k e k'. destruct (dp_queue k); intros [= <- <-]. done.
  - intros id k Hin. rewrite bool_decide_true by done. eexists. split; [done|]. done.
Qed.

#[export] Instance demo_iocp_reliable : IocpReliable demo_iocp.
Proof. by intros fd [] k. Qed.

(** A callback that asks for write readiness, one that removes its socket, and
    a timer that cancels itself. *)
Definition demo_invoke (cb : nat) (fd ev : Z) (d : iocp demo_port nat Z) : option (iocp demo_port nat Z) :=
  match cb with
  | O => snd <$> iocp_modify (λ _ _ _ d, Some d) fd ev_writable d
  | _ => Some (iocp_remove fd d).2
  end.
Definition demo_invoke_timer (id : Z) (d : iocp demo_port nat Z) : option (iocp demo_port nat Z) :=
  iocp_cancel_timer id d.

Lemma demo_callbacks_ok : callbacks_ok demo_invoke demo_invoke_timer.
Proof.
  split.
  - intros X R T [|cb] fd ev d [Hs Ht]; simpl.
    + destruct (states_ d !! fd) as [s0|] eqn:Hf.
      * destruct (iocp_modify_spec (λ _ _ _ d, Some d) X R fd ev_writable s0 d Hs Hf) as (s & d' & -> & Hs' & Hr & _).
        exists d'. split; [done|]. split; [done|]. eapply timers_owned_same; [by eapply rearmed_timers|done].
      * exists d. unfold iocp_modify. by rewrite Hf.
    + destruct (iocp_remove_spec X R fd d Hs) as (Hs' & _ & _ & _). eexists. split; [done|]. split; [done|].
      unfold iocp_remove. destruct (states_ d !! fd) as [s|]; [|done]. simpl. by destruct (negb _).
  - intros X R T id d Hi. destruct (cancel_timer_inv X R T id d Hi) as (d' & H & Hi' & _). by exists d'.
Qed.

Definition demo_stream : per_socket_state nat := mk_pss 1%nat 0%nat ev_readable true false false false None [] false.

(** A stream socket whose read has completed. *)
Definition demo_disp : iocp demo_port nat Z :=
  mk_iocp {[7 := demo_stream]} {[1 := mk_iocp_timer 1 false]} 2
    (mk_demo {[(7, OvRead 1%nat)]} {[1]} [mk_entry 7 (OvRead 1%nat) 0 None; mk_entry TIMER_KEY (OvTimer 1) 0 None]).

Lemma demo_disp_inv : inv ∅ ∅ ∅ demo_disp.
Proof.
  split.
  - intros fd s. simpl. intros [<- <-]%lookup_singleton_Some. split_and!; [done..| |].
    + split_and!; simpl; [set_solver|done|done].
    + intros _. right. done.
  - split_and!; simpl; [set_solver|set_solver|lia|set_solver by lia].
Qed.



Definition demo_src : sock_address := sock_address_default.

(** A paused datagram socket with one datagram buffered. *)
Definition demo_dgram : per_socket_state nat :=
  mk_pss 2%nat 0%nat ev_none false false false true (Some (replicate DGRAM_RECV_SLOTS true)) [([1; 2], demo_src)] false.
Definition demo_udp : iocp demo_port nat Z := mk_iocp {[5 := demo_dgram]} ∅ 1 (mk_demo ∅ ∅ []).
Definition demo_batch : list entry :=
  [mk_entry 5 (OvSlot 2 1) 3 (Some ([3; 4; 5], demo_src)); mk_entry 5 (OvSlot 2 0) 1 (Some ([6], demo_src))].

Lemma iocp_dgram_fifo_witness :
  Forall (dgram_entry demo_udp) demo_batch ∧
  ∃ ready d', process_entries demo_invoke demo_invoke_timer demo_batch 0 [] demo_udp = Some (0, ready, d') ∧
    (retrieve_all 3 5 2 d').1 = [([1; 2], demo_src); ([3; 4], demo_src); ([6], demo_src)].
Proof.
  assert (Forall (dgram_entry demo_udp) demo_batch) as Hf.
  { repeat constructor; simpl; try done; exists demo_dgram; done. }
  split; [exact Hf|].
  destruct (iocp_dgram_fifo demo_invoke demo_invoke_timer demo_batch 0 demo_udp Hf) as (ready & d' & Hp & _ & Hall).
  { intros fd s. simpl. by intros [_ <-]%lookup_singleton_Some. }
  exists ready, d'. split; [exact Hp|].
  destruct (Hall 5 demo_dgram eq_refl) as [_ H]. apply (H eq_refl 2%nat 3%nat). vm_compute. lia.
Defined.

Lemma iocp_resume_not_notified_witness :
  iocp_modify demo_invoke 5 ev_readable demo_udp =
    Some (rv_ok, put_state 5 (set_interest ev_readable demo_dgram) demo_udp).
Proof.
  apply (iocp_resume_not_notified demo_invoke demo_invoke_timer 5 demo_dgram demo_udp); reflexivity.
Defined.

