(* ===== verification/Transfer.v ===== *)
(** * Sending and receiving

    [src/src/socket/tcp.cpp], [src/src/socket/udp.cpp] and
    [src/src/socket/udp_recv_async.cpp].

    The transfer functions over a kernel that is an argument.  A buffer to send
    is its bytes; a receiving function returns the bytes it stored at the start
    of the caller's buffer, whose number is the [size_t] of the source.  The
    receive and send locks of a socket appear as the atomicity of each call. *)

From S2P Require Import Prelude Platform Dispatcher Address Options Socket Iocp.

Local Open Scope Z_scope.

Definition INT_MAX : Z := 2 ^ 31 - 1.
Definition ULONG_MAX : Z := 2 ^ 32 - 1.
Definition MSG_NOSIGNAL : Z := 0x4000.
Definition MSG_WAITFORONE : Z := 0x10000.

(** The calls return a count, bytes or messages, or an [errno]. *)
Class TransferKernel (N : Type) := {
  sys_send : Z → bytes → Z → N → (Z + Z) * N;
  sys_recv : Z → Z → Z → N → (bytes + Z) * N;
  sys_sendto : Z → bytes → Z → sock_address → N → (Z + Z) * N;
  sys_recvfrom : Z → Z → Z → N → (bytes * sock_address + Z) * N;
  (** [sendmsg], [writev], [WSASend], [WSASendTo]; [recvmsg], [readv] and so on *)
  sys_sendv : Z → list bytes → Z → option sock_address → N → (Z + Z) * N;
  sys_recvv : Z → list Z → Z → N → (bytes * sock_address + Z) * N;
  sys_recvmmsg : Z → list Z → Z → N → (list (bytes * sock_address) + Z) * N;
  sys_sendmmsg : Z → list (bytes * sock_address) → Z → N → (list Z + Z) * N
}.

(** The length given to a call of one buffer: an [int] on Windows. *)
Definition call_length (o : os) (len : Z) : Z := match o with Windows => Z.min len INT_MAX | _ => len end.

(** The lengths of a scatter list: clamped by the TCP functions, converted to
    an [ULONG] by the UDP ones. *)
Definition tcp_iov_length (o : os) (len : Z) : Z := match o with Windows => Z.min len ULONG_MAX | _ => len end.
Definition udp_iov_length (o : os) (len : Z) : Z := match o with Windows => u32 len | _ => len end.

Definition cut (len : Z → Z) (data : bytes) : bytes := take (Z.to_nat (len (Z.of_nat (length data)))) data.

Definition nosignal (o : os) (flags : Z) : Z := match o with Linux => Z.lor flags MSG_NOSIGNAL | _ => flags end.

(** ** TCP *)

Section Transfer.
Context {N : Type} `{TransferKernel N} (o : os).

Definition counted (r : Z + Z) : result Z := match r with inl n => Val n | inr e => Err (errno_code o e) end.

Definition tcp_send (data : bytes) (flags : Z) (s : sock) : M N (result Z) :=
  if negb (is_open s) then ret (err_of invalid_state)
  else let* r := lift (sys_send (handle_ s) (cut (call_length o) data) (nosignal o flags)) in ret (counted r).

Definition tcp_recv (len flags : Z) (s : sock) : M N (result bytes) :=
  if negb (is_open s) then ret (err_of invalid_state)
  else
    let* r := lift (sys_recv (handle_ s) (call_length o len) flags) in
    ret (match r with inl data => Val data | inr e => Err (errno_code o e) end).

Definition tcp_send_iov (bufs : list bytes) (s : sock) : M N (result Z) :=
  if negb (is_open s) then ret (err_of invalid_state)
  else let* r := lift (sys_sendv (handle_ s) (cut (tcp_iov_length o) <$> bufs) (nosignal o 0) None) in ret (counted r).

Definition tcp_recv_iov (lens : list Z) (s : sock) : M N (result bytes) :=
  if negb (is_open s) then ret (err_of invalid_state)
  else
    let* r := lift (sys_recvv (handle_ s) (tcp_iov_length o <$> lens) 0) in
    ret (match r with inl (data, _) => Val data | inr e => Err (errno_code o e) end).

(** ** UDP *)

Definition send_to_raw (data : bytes) (dest : sock_address) (flags : Z) (s : sock) : M N (result Z) :=
  if negb (is_open s) then ret (err_of invalid_state)
  else
    let* r := lift (sys_sendto (handle_ s) (cut (call_length o) data) (nosignal o flags) dest) in
    ret (counted r).

Definition send_to_iov_raw (bufs : list bytes) (dest : sock_address) (flags : Z) (s : sock) : M N (result Z) :=
  if negb (is_open s) then ret (err_of invalid_state)
  else
    let* r := lift (sys_sendv (handle_ s) (cut (udp_iov_length o) <$> bufs) (nosignal o flags) (Some dest)) in
    ret (counted r).

Definition recv_from_iov_raw (lens : list Z) (flags : Z) (s : sock) : M N (result (bytes * sock_address)) :=
  if negb (is_open s) then ret (err_of invalid_state)
  else
    let* r := lift (sys_recvv (handle_ s) (udp_iov_length o <$> lens) flags) in
    ret (match r with inl p => Val p | inr e => Err (errno_code o e) end).

End Transfer.

(** The functions that may go through a dispatcher: their state is the
    dispatcher and the network. *)
Section Receive.
Context {N CB : Type} `{TransferKernel N} {D : Dispatcher CB} (o : os).
Context (retrieve : Z → Z → disp → result (bytes * sock_address) * disp).

Definition on_net {A} (m : M N A) : M (disp * N) A :=
  λ '(d, n), match m n with Some (a, n') => Some (a, (d, n')) | None => None end.

Definition recv_from_raw (len flags : Z) (s : sock) : M (disp * N) (result (bytes * sock_address)) :=
  if negb (is_open s) then ret (err_of invalid_state)
  else
    let direct :=
      on_net (let* r := lift (sys_recvfrom (handle_ s) (call_length o len) flags) in
              ret (match r with inl p => Val p | inr e => Err (errno_code o e) end)) in
    match o with
    | Windows =>
        if dispatcher_ s then
          let* r := lift (λ '(d, n), let '(r, d) := retrieve (handle_ s) len d in (r, (d, n))) in
          ret (if has_value r then r else err_of would_block)
        else direct
    | _ => direct
    end.

(** An entry of a batch: the length of its buffer, the bytes stored or to be
    sent, the count and the address. *)
Record msg_batch_entry := mk_msg { mb_len : Z; mb_buf : bytes; mb_transferred : Z; mb_addr : sock_address }.

Definition stored (m : msg_batch_entry) (p : bytes * sock_address) : msg_batch_entry :=
  mk_msg (mb_len m) p.1 (Z.of_nat (length p.1)) p.2.

(** The first messages, filled from what was received. *)
Fixpoint store_all (msgs : list msg_batch_entry) (ps : list (bytes * sock_address)) : list msg_batch_entry :=
  match msgs, ps with
  | m :: msgs', p :: ps' => stored m p :: store_all msgs' ps'
  | _, _ => msgs
  end.

(** The loop of single receives; [i] messages are done. *)
Fixpoint recv_each (i : Z) (msgs : list msg_batch_entry) (s : sock) :
    M (disp * N) (result Z * list msg_batch_entry) :=
  match msgs with
  | [] => ret (Val i, [])
  | m :: msgs' =>
      let* r := recv_from_raw (mb_len m) 0 s in
      match r with
      | Err e => ret (if i =? 0 then Err e else Val i, m :: msgs')
      | Val p => let* (r, rest) := recv_each (i + 1) msgs' s in ret (r, stored m p :: rest)
      end
  end.

Definition recv_batch (msgs : list msg_batch_entry) (s : sock) : M (disp * N) (result Z * list msg_batch_entry) :=
  if negb (is_open s) then ret (err_of invalid_state, msgs)
  else
    match o with
    | Linux =>
        on_net
          (let* r := lift (sys_recvmmsg (handle_ s) (mb_len <$> msgs) MSG_WAITFORONE) in
           ret (match r with
                | inr e => (Err (errno_code o e), msgs)
                | inl ps => (Val (Z.of_nat (length ps)), store_all msgs ps)
                end))
    | _ => recv_each 0 msgs s
    end.

Definition set_transferred (n : Z) (m : msg_batch_entry) : msg_batch_entry :=
  mk_msg (mb_len m) (mb_buf m) n (mb_addr m).

Fixpoint transfer_all (msgs : list msg_batch_entry) (ns : list Z) : list msg_batch_entry :=
  match msgs, ns with
  | m :: msgs', n :: ns' => set_transferred n m :: transfer_all msgs' ns'
  | _, _ => msgs
  end.

Fixpoint send_each (i : Z) (msgs : list msg_batch_entry) (s : sock) :
    M (disp * N) (result Z * list msg_batch_entry) :=
  match msgs with
  | [] => ret (Val i, [])
  | m :: msgs' =>
      let* r := on_net (send_to_raw o (mb_buf m) (mb_addr m) 0 s) in
      match r with
      | Err e => ret (if i =? 0 then Err e else Val i, m :: msgs')
      | Val n => let* (r, rest) := send_each (i + 1) msgs' s in ret (r, set_transferred n m :: rest)
      end
  end.

Definition send_batch (msgs : list msg_batch_entry) (s : sock) : M (disp * N) (result Z * list msg_batch_entry) :=
  if negb (is_open s) then ret (err_of invalid_state, msgs)
  else
    match o with
    | Linux =>
        on_net
          (let* r := lift (sys_sendmmsg (handle_ s) ((λ m, (mb_buf m, mb_addr m)) <$> msgs) MSG_NOSIGNAL) in
           ret (match r with
                | inr e => (Err (errno_code o e), msgs)
                | inl ns => (Val (Z.of_nat (length ns)), transfer_all msgs ns)
                end))
    | _ => send_each 0 msgs s
    end.

End Receive.

(** ** The batch calls agree with the loops *)

Section Many.
Context {N : Type} `{TransferKernel N}.

(** One call after another until one fails: the answers, and the error. *)
Fixpoint many {A B} (f : A → N → (B + Z) * N) (l : list A) (n : N) : list B * option Z * N :=
  match l with
  | [] => ([], None, n)
  | a :: l' =>
      match f a n with
      | (inr e, n) => ([], Some e, n)
      | (inl b, n) => let '(bs, err, n) := many f l' n in (b :: bs, err, n)
      end
  end.

(** A batch call reports an error only when it did nothing else. *)
Definition batch_result {B} (r : list B * option Z * N) : (list B + Z) * N :=
  match r with
  | ([], Some e, n) => (inr e, n)
  | (bs, _, n) => (inl bs, n)
  end.

Class BatchLaws : Prop := {
  law_recvmmsg fd lens n :
    sys_recvmmsg fd lens MSG_WAITFORONE n = batch_result (many (λ len, sys_recvfrom fd len 0) lens n);
  law_sendmmsg fd msgs n :
    sys_sendmmsg fd msgs MSG_NOSIGNAL n =
    batch_result (many (λ m, sys_sendto fd m.1 MSG_NOSIGNAL m.2) msgs n)
}.

End Many.
Arguments BatchLaws : clear implicits.
Arguments BatchLaws N {_}.

Section Batches.
Context {N CB : Type} `{TransferKernel N} `{!BatchLaws N} {D : Dispatcher CB}.
Context (retrieve : Z → Z → disp → result (bytes * sock_address) * disp).

(** What a loop that had done [i] messages returns. *)
Definition loop_result (i : Z) (done : nat) (err : option Z) : result Z :=
  match err with
  | Some e => if (i =? 0) && (done =? 0)%nat then Err (errno_code Linux e) else Val (i + Z.of_nat done)
  | None => Val (i + Z.of_nat done)
  end.

Lemma loop_result_next i done err : 0 ≤ i → loop_result (i + 1) done err = loop_result i (S done) err.
Proof.
  intros Hi. unfold loop_result. assert (i + 1 =? 0 = false) as -> by (apply Z.eqb_neq; lia).
  rewrite andb_false_r. simpl. destruct err; f_equal; lia.
Qed.

Lemma recv_each_many msgs i s (d : @disp CB D) n :
  is_open s = true → 0 ≤ i →
  recv_each Linux retrieve i msgs s (d, n) =
  let '(ps, err, n') := many (λ len, sys_recvfrom (handle_ s) len 0) (mb_len <$> msgs) n in
  Some (loop_result i (length ps) err, store_all msgs ps, (d, n')).
Proof.
  intros Ho. revert i n. induction msgs as [|m msgs IH]; intros i n Hi; cbn [recv_each fmap list_fmap many].
  { unfold ret, loop_result. simpl. by rewrite Z.add_0_r. }
  unfold bind, recv_from_raw. rewrite Ho. unfold on_net, bind, lift. simpl.
  destruct (sys_recvfrom (handle_ s) (mb_len m) 0 n) as [[p|e] n1].
  - unfold ret at 1. rewrite IH by lia. destruct (many _ _ n1) as [[ps err] n2]. unfold ret. simpl.
    by rewrite loop_result_next.
  - unfold ret, loop_result. simpl. rewrite andb_true_r. by destruct (i =? 0) eqn:E; bool_facts; rewrite ?Z.add_0_r.
Qed.

Lemma send_each_many msgs i s (d : @disp CB D) n :
  is_open s = true → 0 ≤ i →
  send_each Linux i msgs s (d, n) =
  let '(ns, err, n') := many (λ m, sys_sendto (handle_ s) m.1 MSG_NOSIGNAL m.2)
                          ((λ m, (mb_buf m, mb_addr m)) <$> msgs) n in
  Some (loop_result i (length ns) err, transfer_all msgs ns, (d, n')).
Proof.
  intros Ho. revert i n. induction msgs as [|m msgs IH]; intros i n Hi; cbn [send_each fmap list_fmap many].
  { unfold ret, loop_result. simpl. by rewrite Z.add_0_r. }
  unfold bind, send_to_raw. rewrite Ho. unfold on_net, bind, lift. simpl.
  assert (cut (call_length Linux) (mb_buf m) = mb_buf m) as ->
    by (unfold cut, call_length; by rewrite Nat2Z.id, firstn_all).
  change (Z.lor 0 MSG_NOSIGNAL) with MSG_NOSIGNAL. unfold ret.
  destruct (sys_sendto (handle_ s) (mb_buf m) MSG_NOSIGNAL (mb_addr m) n) as [[c|e] n1].
  - simpl. rewrite IH by lia. destruct (many _ _ n1) as [[ns err] n2]. simpl.
    by rewrite loop_result_next.
  - unfold ret, loop_result. simpl. rewrite andb_true_r. by destruct (i =? 0) eqn:E; bool_facts; rewrite ?Z.add_0_r.
Qed.

Lemma store_all_nil msgs : store_all msgs [] = msgs.
Proof. by destruct msgs. Qed.
Lemma transfer_all_nil msgs : transfer_all msgs [] = msgs.
Proof. by destruct msgs. Qed.

Lemma recv_batch_each msgs s (env : @disp CB D * N) :
  is_open s = true → recv_batch Linux retrieve msgs s env = recv_each Linux retrieve 0 msgs s env.
Proof.
  intros Ho. destruct env as [d n]. unfold recv_batch. rewrite Ho, recv_each_many by done.
  unfold on_net, bind, lift, ret. simpl. rewrite law_recvmmsg.
  destruct (many _ _ n) as [[[|p ps] [e|]] n']; unfold loop_result; simpl; by rewrite ?store_all_nil.
Qed.

Lemma send_batch_each msgs s (env : @disp CB D * N) :
  is_open s = true → send_batch Linux msgs s env = send_each Linux 0 msgs s env.
Proof.
  intros Ho. destruct env as [d n]. unfold send_batch. rewrite Ho, send_each_many by done.
  unfold on_net, bind, lift, ret. simpl. rewrite law_sendmmsg.
  destruct (many _ _ n) as [[[|p ps] [e|]] n']; unfold loop_result; simpl; by rewrite ?transfer_all_nil.
Qed.


End Batches.

(** ** The typed classes *)

Definition undefined {K A} : M K A := λ _, None.

(** [memcpy] of an address out of a [sock_address]. *)
Definition typed_addr (size : nat) (a : sock_address) : bytes := take size (sa_storage_ a).

Definition typed (size : nat) (r : result sock_address) : result bytes :=
  match r with Val a => Val (typed_addr size a) | Err e => Err e end.

Definition typed_from (size : nat) (r : result (bytes * sock_address)) : result (bytes * bytes) :=
  match r with Val (data, a) => Val (data, typed_addr size a) | Err e => Err e end.

(** The conversion of an address to a [sock_address], and what follows. *)
Definition with_sock {K A} (sa : option sock_address) (go : sock_address → M K A) : M K A :=
  match sa with Some sa => go sa | None => undefined end.

Section Accessors.
Context {K : Type} `{SocketKernel K} (o : os).

Definition tcp4_local_addr (s : sock) : M K (result bytes) := let* r := local_address o s in ret (typed 16 r).
Definition tcp4_peer_addr (s : sock) : M K (result bytes) := let* r := peer_address o s in ret (typed 16 r).
Definition tcp6_local_addr (s : sock) : M K (result bytes) := let* r := local_address o s in ret (typed 28 r).
Definition tcp6_peer_addr (s : sock) : M K (result bytes) := let* r := peer_address o s in ret (typed 28 r).
Definition udp4_local_addr (s : sock) : M K (result bytes) := let* r := local_address o s in ret (typed 16 r).
Definition udp6_local_addr (s : sock) : M K (result bytes) := let* r := local_address o s in ret (typed 28 r).

Definition udp4_open (addr : bytes) (opts : socket_options) (s : sock) : M K (result_void * sock) :=
  with_sock (to_sock4 addr) (λ sa, udp_open o ipv4 sa opts s).
Definition udp6_open (addr : bytes) (opts : socket_options) (s : sock) : M K (result_void * sock) :=
  with_sock (to_sock6 addr) (λ sa, udp_open o ipv6 sa opts s).

End Accessors.

Section Typed.
Context {N CB : Type} `{TransferKernel N} {D : Dispatcher CB} (o : os).
Context (retrieve : Z → Z → disp → result (bytes * sock_address) * disp).

Definition udp4_send_to (data : bytes) (dest : bytes) (flags : Z) (s : sock) : M N (result Z) :=
  with_sock (to_sock4 dest) (λ sa, send_to_raw o data sa flags s).
Definition udp6_send_to (data : bytes) (dest : bytes) (flags : Z) (s : sock) : M N (result Z) :=
  with_sock (to_sock6 dest) (λ sa, send_to_raw o data sa flags s).
Definition udp4_send_to_iov (bufs : list bytes) (dest : bytes) (flags : Z) (s : sock) : M N (result Z) :=
  with_sock (to_sock4 dest) (λ sa, send_to_iov_raw o bufs sa flags s).
Definition udp6_send_to_iov (bufs : list bytes) (dest : bytes) (flags : Z) (s : sock) : M N (result Z) :=
  with_sock (to_sock6 dest) (λ sa, send_to_iov_raw o bufs sa flags s).

Definition udp4_recv_from (len flags : Z) (s : sock) : M (disp * N) (result (bytes * bytes)) :=
  let* r := recv_from_raw o retrieve len flags s in ret (typed_from 16 r).
Definition udp6_recv_from (len flags : Z) (s : sock) : M (disp * N) (result (bytes * bytes)) :=
  let* r := recv_from_raw o retrieve len flags s in ret (typed_from 28 r).
Definition udp4_recv_from_iov (lens : list Z) (flags : Z) (s : sock) : M N (result (bytes * bytes)) :=
  let* r := recv_from_iov_raw o lens flags s in ret (typed_from 16 r).
Definition udp6_recv_from_iov (lens : list Z) (flags : Z) (s : sock) : M N (result (bytes * bytes)) :=
  let* r := recv_from_iov_raw o lens flags s in ret (typed_from 28 r).

(** ** One-shot receive *)

(** [loop.io().add], whose result is ignored. *)
Definition recv_async (cb : CB) (s : sock) : M (disp * N) () :=
  lift (λ '(d, n), ((), ((d_add (handle_ s) ev_readable cb d).2, n))).

(** The registered callback over the typed [recv_from]: [None] when it returns
    at once, else the arguments the user's callback is called with. *)
Definition recv_async_cb (recv_from : Z → Z → sock → M (disp * N) (result (bytes * bytes))) (blank : bytes)
    (cb_fd events len : Z) (s : sock) : M (disp * N) (option (result bytes * bytes)) :=
  if negb (has_event events ev_readable) then ret None
  else
    let* _ := lift (λ '(d, n), let '(r, d) := d_remove cb_fd d in (r, (d, n))) in
    let* r := recv_from len 0 s in
    ret (Some (match r with Err e => (Err e, blank) | Val (data, src) => (Val data, src) end)).

Definition recv_async_cb4 : Z → Z → Z → sock → M (disp * N) (option (result bytes * bytes)) :=
  recv_async_cb udp4_recv_from (inet4_default o).
Definition recv_async_cb6 : Z → Z → Z → sock → M (disp * N) (option (result bytes * bytes)) :=
  recv_async_cb udp6_recv_from (inet6_default o).

(** The dispatcher calls the callback while it is registered. *)
Fixpoint deliver_events (evs : list Z) (len : Z) (s : sock) : M (disp * N) (list (result bytes * bytes)) :=
  match evs with
  | [] => ret []
  | ev :: evs' =>
      λ '(d, n),
        match d_lookup d (handle_ s) with
        | None => deliver_events evs' len s (d, n)
        | Some _ =>
            (let* call := recv_async_cb4 (handle_ s) ev len s in
             let* calls := deliver_events evs' len s in
             ret (match call with Some c => c :: calls | None => calls end)) (d, n)
        end
  end.

End Typed.

Section OneShot.
Context {N CB : Type} `{TransferKernel N} {D : Dispatcher CB} `{!DispatcherLaws D}.
Context (retrieve : Z → Z → @disp CB D → result (bytes * sock_address) * @disp CB D).

Lemma udp4_recv_from_net o len flags s (d : @disp CB D) n :
  o ≠ Windows → ∃ r n', udp4_recv_from o retrieve len flags s (d, n) = Some (r, (d, n')).
Proof.
  intros Ho. unfold udp4_recv_from, recv_from_raw, bind. destruct (negb (is_open s)); [unfold ret; simpl; by eauto|].
  destruct o; [..|done]; unfold on_net, bind, lift, ret;
    destruct (sys_recvfrom _ _ _ n) as [[p|e] n']; simpl; by eauto.
Qed.

Lemma deliver_unregistered o evs len s (d : @disp CB D) n :
  d_lookup d (handle_ s) = None → deliver_events o retrieve evs len s (d, n) = Some ([], (d, n)).
Proof. intros Hd. induction evs as [|ev evs IH]; [done|]. cbn [deliver_events]. by rewrite Hd. Qed.

Lemma deliver_registered o evs len s (d : @disp CB D) n :
  o ≠ Windows → d_wf d → is_Some (d_lookup d (handle_ s)) →
  ∃ calls d' n', deliver_events o retrieve evs len s (d, n) = Some (calls, (d', n')) ∧
    (∀ fd, fd ≠ handle_ s → d_lookup d' fd = d_lookup d fd) ∧
    if existsb (λ ev, has_event ev ev_readable) evs
    then length calls = 1%nat ∧ d_lookup d' (handle_ s) = None
    else calls = [] ∧ d' = d.
Proof.
  intros Ho Hwf [p Hp]. induction evs as [|ev evs IH]; cbn [deliver_events existsb].
  { exists [], d, n. done. }
  rewrite Hp. unfold recv_async_cb4, recv_async_cb. destruct (has_event ev ev_readable); simpl.
  - unfold bind, lift. destruct (d_remove (handle_ s) d) as [r d1] eqn:Hr.
    pose proof (law_remove_ok (handle_ s) d Hwf ltac:(by exists p)) as Hok. rewrite Hr in Hok. simpl in Hok.
    apply law_remove in Hr as (_ & Hother & Hself); [|done]. rewrite Hok in Hself.
    destruct (udp4_recv_from_net o len 0 s d1 n Ho) as (x & n1 & ->). unfold ret at 1.
    rewrite deliver_unregistered by done. unfold ret. simpl. eexists _, _, _. split; [done|]. done.
  - destruct IH as (calls & d' & n' & IH & Hother & Hcalls). exists calls, d', n'.
    split; [|done]. unfold bind, ret. by rewrite IH.
Qed.

(** [recv_async] is one-shot.  When its registration succeeds, then whatever
    events the dispatcher delivers, the user's callback is called exactly once if
    one of them is a readable event, after which the socket is no longer
    registered, and not at all otherwise; no other registration changes.  When
    the registration fails, nothing is reported: the callback is never called. *)
Theorem recv_async_once o evs len cb s (d : @disp CB D) n :
  o ≠ Windows → d_wf d → d_lookup d (handle_ s) = None →
  let ok := rv_bool (d_add (handle_ s) ev_readable cb d).1 in
  ∃ calls d' n',
    (let* _ := recv_async cb s in deliver_events o retrieve evs len s) (d, n) = Some (calls, (d', n')) ∧
    (∀ fd, fd ≠ handle_ s → d_lookup d' fd = d_lookup d fd) ∧
    length calls = (if ok && existsb (λ ev, has_event ev ev_readable) evs then 1 else 0)%nat ∧
    (length calls = 1%nat → d_lookup d' (handle_ s) = None).
Proof.
  intros Ho Hwf Hnone ok. unfold bind, recv_async, lift. unfold ok.
  destruct (d_add (handle_ s) ev_readable cb d) as [r d1] eqn:Ha. simpl.
  apply law_add in Ha as (Hwf1 & Hother & Hself); [|done]. destruct (rv_bool r); simpl.
  - destruct (deliver_registered o evs len s d1 n Ho Hwf1 ltac:(by rewrite Hself)) as (calls & d' & n' & -> & Ho' & Hc).
    exists calls, d', n'. split; [done|]. split; [intros fd Hfd; by rewrite Ho', Hother|].
    destruct (existsb _ evs); [tauto|]. by destruct Hc as [-> _].
  - rewrite deliver_unregistered by congruence. by eexists _, _, _.
Qed.

End OneShot.

(** On Windows [recv_async] loses the datagram it was waiting for.  The
    dispatcher has already taken the datagram from the socket into its own queue;
    the callback first removes the registration, and the queue with it, and only
    then receives: whether or not the socket goes through the dispatcher, it
    reports an error unless a further datagram has arrived meanwhile, and the
    buffered datagrams can no longer be retrieved. *)
Theorem recv_async_loses_datagram {KI N CB TCB : Type} `{IocpKernel KI} `{TransferKernel N}
    (invoke : CB → Z → Z → iocp KI CB TCB → option (iocp KI CB TCB)) (alloc : iocp KI CB TCB → nat)
    (s : sock) (st : per_socket_state CB) (d : iocp KI CB TCB) (n n' : N) p q e len :
  let D := iocp_interface invoke alloc in
  let retrieve fd len (d : @disp CB D) := retrieve_dgram fd (Z.to_nat len) d in
  is_open s = true → states_ d !! handle_ s = Some st → is_dgram st = true → dgram_queue st = p :: q →
  sys_recvfrom (handle_ s) (call_length Windows len) 0 n = (inr e, n') →
  ∃ code d' n'', recv_async_cb4 (D := D) Windows retrieve (handle_ s) ev_readable len s (d, n)
      = Some (Some (Err code, inet4_default Windows), (d', n'')) ∧
    ∀ len', (retrieve_dgram (handle_ s) len' d').1 = err_of would_block.
Proof.
  intros D retrieve Ho Hst Hd Hq Hr. unfold recv_async_cb4, recv_async_cb, udp4_recv_from, recv_from_raw. rewrite Ho.
  assert (states_ (iocp_remove (handle_ s) d).2 !! handle_ s = None) as Hgone.
  { unfold iocp_remove. rewrite Hst. simpl. by rewrite lookup_delete_eq. }
  assert (∀ len', retrieve_dgram (handle_ s) len' (iocp_remove (handle_ s) d).2 =
                  (err_of would_block, (iocp_remove (handle_ s) d).2)) as Hret.
  { intros len'. unfold retrieve_dgram. by rewrite Hgone. }
  unfold bind, lift. simpl. destruct (iocp_remove (handle_ s) d) as [r d1] eqn:Hrem. simpl in *.
  destruct (dispatcher_ s).
  - unfold retrieve. rewrite Hret. eexists _, d1, n. split; [reflexivity|]. intros len'. by rewrite Hret.
  - unfold on_net, bind, lift. rewrite Hr. eexists _, d1, n'. split; [reflexivity|]. intros len'. by rewrite Hret.
Qed.

(** ** Bounds *)

(** A call transfers no more than it was given room for. *)
Class CountLaws (N : Type) `{TransferKernel N} : Prop := {
  law_send_count fd data fl n c n' : sys_send fd data fl n = (inl c, n') → 0 ≤ c ≤ Z.of_nat (length data);
  law_sendto_count fd data fl a n c n' : sys_sendto fd data fl a n = (inl c, n') → 0 ≤ c ≤ Z.of_nat (length data);
  law_sendv_count fd bufs fl a n c n' :
    sys_sendv fd bufs fl a n = (inl c, n') → 0 ≤ c ≤ Z.of_nat (length (concat bufs));
  law_recv_count fd len fl n data n' : sys_recv fd len fl n = (inl data, n') → Z.of_nat (length data) ≤ Z.max 0 len
}.

Lemma length_cut f data : (length (cut f data) ≤ length data)%nat.
Proof. unfold cut. rewrite length_take. lia. Qed.

Lemma cut_id f data : Z.of_nat (length data) ≤ f (Z.of_nat (length data)) → cut f data = data.
Proof. intros Hf. unfold cut. apply take_ge. lia. Qed.

Lemma length_cuts f bufs : (length (concat (cut f <$> bufs)) ≤ length (concat bufs))%nat.
Proof.
  induction bufs as [|b bufs IH]; [done|]. cbn [fmap list_fmap concat]. rewrite !length_app.
  pose proof (length_cut f b). lia.
Qed.


(** ** Witnesses *)

(** A network that sends everything and has messages to receive. *)
Definition demo_recvfrom (fd len fl : Z) (n : list (bytes * sock_address)) :
    (bytes * sock_address + Z) * list (bytes * sock_address) :=
  match n with
  | [] => (inr 11, [])
  | (data, a) :: n' => (inl (take (Z.to_nat len) data, a), n')
  end.

#[export] Instance demo_net : TransferKernel (list (bytes * sock_address)) := {|
  sys_send _ data _ n := (inl (Z.of_nat (length data)), n);
  sys_recv fd len fl n :=
    match demo_recvfrom fd len fl n with (inl p, n) => (inl p.1, n) | (inr e, n) => (inr e, n) end;
  sys_sendto _ data _ _ n := (inl (Z.of_nat (length data)), n);
  sys_recvfrom := demo_recvfrom;
  sys_sendv _ bufs _ _ n := (inl (Z.of_nat (length (concat bufs))), n);
  sys_recvv fd lens fl n := demo_recvfrom fd (foldr Z.add 0 lens) fl n;
  sys_recvmmsg fd lens fl n := batch_result (many (λ len, demo_recvfrom fd len 0) lens n);
  sys_sendmmsg fd msgs fl n := (inl ((λ m, Z.of_nat (length m.1)) <$> msgs), n)
|}.

#[export] Instance demo_net_batch : BatchLaws (list (bytes * sock_address)).
Proof.
  split; [done|]. intros fd msgs n. simpl.
  assert (many (λ m n0, (inl (Z.of_nat (length m.1)), n0)) msgs n =
          ((λ m, Z.of_nat (length m.1)) <$> msgs, None, n)) as E.
  { induction msgs as [|m msgs IH]; [done|]. simpl. by rewrite IH. }
  etrans; [|apply (f_equal batch_result); symmetry; exact E]. by destruct msgs.
Qed.

#[export] Instance demo_net_counts : CountLaws (list (bytes * sock_address)).
Proof.
  split; simpl.
  - intros fd data fl n c n' [= <- <-]. lia.
  - intros fd data fl a n c n' [= <- <-]. lia.
  - intros fd bufs fl a n c n' [= <- <-]. lia.
  - intros fd len fl n data n'. unfold demo_recvfrom. destruct n as [|[x a] n]; intros [= <- <-].
    rewrite length_take. lia.
Qed.

Definition demo_msgs : list (bytes * sock_address) := [([1; 2; 3], sock_address_default); ([4], sock_address_default)].
Definition demo_retrieve (fd len : Z) (d : @disp nat map_dispatcher) :
    result (bytes * sock_address) * @disp nat map_dispatcher := (err_of would_block, d).
Definition demo_entry : msg_batch_entry := mk_msg 2 [9; 9] 0 sock_address_default.


Lemma recv_async_once_witness :
  ∃ calls d' n',
    (let* _ := recv_async 5%nat (sock_of 3) in
     deliver_events Linux demo_retrieve [ev_error; ev_readable; ev_readable] 2 (sock_of 3)) (∅, demo_msgs)
      = Some (calls, (d', n')) ∧ length calls = 1%nat.
Proof.
  destruct (recv_async_once demo_retrieve Linux [ev_error; ev_readable; ev_readable] 2 5%nat (sock_of 3) ∅ demo_msgs)
    as (calls & d' & n' & H1 & _ & H2 & _); [discriminate|exact I|reflexivity|].
  exists calls, d', n'. split; [exact H1|exact H2].
Defined.

Lemma recv_async_loses_datagram_witness :
  ∃ code d' n'', recv_async_cb4 (D := iocp_interface demo_invoke (λ _, 9%nat)) Windows
      (λ fd len d, retrieve_dgram fd (Z.to_nat len) d) 5 ev_readable 100 (sock_of 5) (demo_udp, [])
    = Some (Some (Err code, inet4_default Windows), (d', n'')).
Proof.
  destruct (recv_async_loses_datagram demo_invoke (λ _, 9%nat) (sock_of 5) demo_dgram demo_udp
    ([] : list (bytes * sock_address)) [] ([1; 2], demo_src) [] 11 100)
    as (code & d' & n'' & H & _); [reflexivity..|]. exists code, d', n''. exact H.
Defined.

