(* ===== verification/UdpMux.v ===== *)
(** * The UDP multiplexer and connected peers

    [src/src/platform/spinlock.hpp], [src/src/socket/udp_mux.hpp] and
    [src/src/socket/udp_peer.cpp].

    On POSIX a peer is a connected socket.  On Windows the peers of one local
    address share a socket through a multiplexer, found in a global registry,
    whose thread routes each datagram to the callback registered for its source.
    The objects live in a [world] of multiplexers and peers with the counts of
    their shared pointers; a step of the world is one critical section or one
    callback, so that a sequence of steps is an interleaving of the threads.  A
    step may also [Hang], when a thread waits for a lock it holds itself, or be
    [Undefined], when it uses a destroyed object. *)

From S2P Require Import Prelude Platform Address Options Socket Transfer.

Local Open Scope Z_scope.

(** ** The spin lock *)

Module Spin.

(** Where a thread is: outside, in the loop of [lock], inside, or inside and in
    the loop of a second [lock] on the same object. *)
Inductive pc := Outside | Spinning (spins : nat) | Inside | Again (spins : nat).

Record state := mk_state { flag_ : bool; threads : list pc }.

(** [flag_.test_and_set()] *)
Definition test_and_set (f : bool) : bool * bool := (f, true).

(** One action of a thread at [p]. *)
Definition act (relock : bool) (f : bool) (p : pc) : bool * pc :=
  match p with
  | Outside => (f, Spinning 0)
  | Spinning n => let '(old, f) := test_and_set f in (f, if old then Spinning (S n) else Inside)
  | Inside => if relock then (f, Again 0) else (false, Outside)
  | Again n => let '(old, f) := test_and_set f in (f, if old then Again (S n) else Inside)
  end.

Inductive step : state → state → Prop :=
| step_act t relock f ts p f' p' :
    ts !! t = Some p → act relock f p = (f', p') → step (mk_state f ts) (mk_state f' (<[t := p']> ts)).

Definition holder (p : pc) : bool := match p with Inside | Again _ => true | _ => false end.

(** The flag is set exactly while one thread holds the lock. *)
Definition exclusive (s : state) : Prop := count holder (threads s) = if flag_ s then 1%nat else 0%nat.

Lemma step_exclusive s s' : step s s' → exclusive s → exclusive s'.
Proof.
  intros [t relock f ts p f' p' Ht Ha]. unfold exclusive. simpl. intros Hc.
  pose proof (count_insert holder ts t p p' Ht) as Hi.
  destruct p as [|n| |n]; simpl in *; [..|destruct relock|]; simplify_eq/=.
  - destruct f'; lia.
  - destruct f; simplify_eq/=; lia.
  - destruct f'; lia.
  - pose proof (count_pos holder ts t Inside Ht eq_refl). destruct f; lia.
  - pose proof (count_pos holder ts t (Again n) Ht eq_refl). destruct f; simpl in *; simplify_eq/=; lia.
Qed.

Lemma run_exclusive n s : rtc step (mk_state false (replicate n Outside)) s → exclusive s.
Proof.
  intros Hr. eapply rtc_preserves; [exact step_exclusive|exact Hr|]. unfold exclusive. simpl.
  clear Hr. induction n; [done|]. done.
Qed.

Lemma step_again t s s' :
  step s s' → exclusive s → (∃ n, threads s !! t = Some (Again n)) → ∃ n, threads s' !! t = Some (Again n).
Proof.
  intros [t' relock f ts p f' p' Ht Ha] Hex [n Hn]. simpl in *. unfold exclusive in Hex. simpl in Hex.
  pose proof (count_pos holder ts t (Again n) Hn eq_refl).
  destruct f; [|lia]. destruct (decide (t' = t)) as [->|Hne].
  - rewrite list_lookup_insert_eq by by eapply lookup_lt_Some. simplify_eq/=. eauto.
  - rewrite list_lookup_insert_ne by done. eauto.
Qed.

(** The spin lock excludes, and is not recursive.  Whatever the threads do,
    two of them never hold the lock at the same time; and a thread that calls
    [lock] on a lock it already holds never gets out of that call: in every state
    the program can reach from there it is still spinning. *)
Theorem spinlock_exclusive n s :
  rtc step (mk_state false (replicate n Outside)) s →
  (∀ i j p q, threads s !! i = Some p → threads s !! j = Some q → holder p = true → holder q = true → i = j) ∧
  (∀ t m s', threads s !! t = Some (Again m) → rtc step s s' → ∃ m', threads s' !! t = Some (Again m')).
Proof.
  intros Hr. apply run_exclusive in Hr as Hex. split.
  - intros i j p q Hi Hj Hp Hq. destruct (decide (i = j)) as [|Hne]; [done|].
    pose proof (count_two holder _ i j p q Hne Hi Hj Hp Hq). unfold exclusive in Hex. destruct (flag_ s); lia.
  - intros t m s' Ht Hs'.
    assert (exclusive s' ∧ ∃ m', threads s' !! t = Some (Again m')) as [_ H]; [|exact H].
    apply (rtc_preserves step (λ s, exclusive s ∧ ∃ m, threads s !! t = Some (Again m)) s s'); [|done|eauto].
    intros a b Hab [He Ha]. split; [by eapply step_exclusive|by eapply step_again].
Qed.

Lemma spinlock_exclusive_witness :
  ∃ s, rtc step (mk_state false (replicate 2 Outside)) s ∧ threads s !! 0%nat = Some (Again 0) ∧
  ∀ s', rtc step s s' → ∃ m', threads s' !! 0%nat = Some (Again m').
Proof.
  assert (rtc step (mk_state false (replicate 2 Outside)) (mk_state true [Again 0; Outside])) as Hr.
  { eapply rtc_l; [apply (step_act 0 false false [Outside; Outside] Outside); reflexivity|].
    eapply rtc_l; [apply (step_act 0 false _ [Spinning 0; Outside] (Spinning 0)); reflexivity|].
    eapply rtc_l; [apply (step_act 0 true _ [Inside; Outside] Inside); reflexivity|]. apply rtc_refl. }
  exists (mk_state true [Again 0; Outside]). split; [exact Hr|]. split; [reflexivity|]. intros s' Hs'.
  apply (proj2 (spinlock_exclusive 2 _ Hr) 0%nat 0%nat s' eq_refl Hs').
Defined.

End Spin.

(** ** POSIX: connected sockets *)

Section Connected.
Context {K : Type} `{SocketKernel K} (o : os).

Definition create_connected_udp (af : address_family) (local peer : sock_address) (opts : socket_options) :
    M K (result sock) :=
  let* r := create o af sock_dgram 0 in
  match r with
  | Err e => ret (Err e)
  | Val s =>
      let* r := call o (set_one SO_REUSEADDR) (handle_ s) in
      if negb (rv_bool r) then fail_close o s (rv_error r)
      else
        let* _ := call o (set_one SO_REUSEPORT) (handle_ s) in
        let* r := apply_opts o false opts (handle_ s) in
        match r with
        | Err e => fail_close o s e
        | Val _ =>
            let* r := sock_bind o local s in
            if negb (rv_bool r) then fail_close o s (rv_error r)
            else
              let* r := call o (CConnect peer) (handle_ s) in
              if negb (rv_bool r) then fail_close o s (rv_error r) else ret (Val s)
        end
  end.

(** [udp4_peer_socket] and [udp6_peer_socket] on POSIX; [impl_] may be null. *)
Record peer_socket := mk_peer_socket { peer_ : bytes; impl_ : option sock }.

Definition peer_create (af : address_family) (to_sock : bytes → option sock_address) (local peer : bytes)
    (opts : socket_options) : M K (result peer_socket) :=
  with_sock (to_sock local) (λ local_sa, with_sock (to_sock peer) (λ peer_sa,
    let* r := create_connected_udp af local_sa peer_sa opts in
    ret (match r with Val s => Val (mk_peer_socket peer (Some s)) | Err e => Err e end))).

Definition udp4_peer_create : bytes → bytes → socket_options → M K (result peer_socket) :=
  peer_create ipv4 to_sock4.
Definition udp6_peer_create : bytes → bytes → socket_options → M K (result peer_socket) :=
  peer_create ipv6 to_sock6.

Definition peer_handle (p : peer_socket) : Z := match impl_ p with Some s => handle_ s | None => invalid_socket end.
Definition peer_is_open (p : peer_socket) : bool := match impl_ p with Some s => is_open s | None => false end.

(** The move constructor and assignment: the new object and the other. *)
Definition peer_move (other : peer_socket) : peer_socket * peer_socket :=
  (mk_peer_socket (peer_ other) (impl_ other), mk_peer_socket (peer_ other) None).

(** Assignment destroys the socket it replaces. *)
Definition peer_assign (this other : peer_socket) : M K (peer_socket * peer_socket) :=
  match impl_ this with
  | Some s => let* (_, _) := close o s in ret (peer_move other)
  | None => ret (peer_move other)
  end.

End Connected.

Section PeerTransfer.
Context {N : Type} `{TransferKernel N} (o : os).

Definition peer_send (data : bytes) (flags : Z) (p : peer_socket) : M N (result Z) :=
  match impl_ p with
  | Some s =>
      if negb (is_open s) then ret (err_of invalid_state)
      else let* r := lift (sys_send (handle_ s) data (nosignal o flags)) in ret (counted o r)
  | None => ret (err_of invalid_state)
  end.

Definition peer_recv (len flags : Z) (p : peer_socket) : M N (result bytes) :=
  match impl_ p with
  | Some s =>
      if negb (is_open s) then ret (err_of invalid_state)
      else
        let* r := lift (sys_recv (handle_ s) len flags) in
        ret (match r with inl data => Val data | inr e => Err (errno_code o e) end)
  | None => ret (err_of invalid_state)
  end.

(** The members of [udp6_peer_socket] are those of [udp4_peer_socket]. *)
Definition udp6_peer_send : bytes → Z → peer_socket → M N (result Z) := peer_send.
Definition udp6_peer_recv : Z → Z → peer_socket → M N (result bytes) := peer_recv.

End PeerTransfer.

Definition udp6_peer_handle : peer_socket → Z := peer_handle.
Definition udp6_peer_is_open : peer_socket → bool := peer_is_open.

Section ConnectedSpec.
Context {K : Type} `{SK : SocketKernel K} `{!SocketKernelLaws SK}.

Lemma connected_udp_spec o af local peer opts F :
  Apply.built o opts → triple (holds F) (create_connected_udp o af local peer opts) (fresh F).
Proof.
  intros Hb. eapply triple_bind; [apply create_spec|]. intros [s|e]; simpl; [|by apply triple_ret].
  apply triple_pure. intros Hopen. apply triple_pure. intros Hnew.
  eapply triple_bind; [apply call_spec|]. intros r. rewrite if_negb. apply checked_spec; [done..|].
  eapply triple_bind; [apply call_spec|]. intros r1. apply apply_fresh; [done..|].
  eapply triple_bind; [by apply sock_bind_spec|]. intros rb. rewrite if_negb. apply checked_spec; [done..|].
  eapply triple_bind; [apply call_spec|]. intros rc. rewrite if_negb. apply checked_spec; [done..|].
  by apply ret_fresh.
Qed.

(** Creating a connected peer keeps the descriptors in balance: on success
    the peer holds exactly one descriptor that was not open before, open and
    reported by its accessors, and on every failure (creating, setting options,
    binding or connecting the socket) none is left open; assigning over a peer
    closes the descriptor it held and moves the other's. *)
Theorem peer_create_balanced o af to_sock local peer opts F :
  Apply.built o opts → is_Some (to_sock local) → is_Some (to_sock peer) →
  triple (holds F) (peer_create o af to_sock local peer opts)
    (λ r k, match r with
            | Val p => peer_is_open p = true ∧ peer_ p = peer ∧ peer_handle p ∉ F ∧
                       holds ({[peer_handle p]} ∪ F) k ∧
                       ∀ old, (∀ s, impl_ old = Some s → own s ⊆ F ∧ is_open s = true) →
                         triple (holds ({[peer_handle p]} ∪ F)) (peer_assign o old p)
                           (λ '(q, rest) k, q = p ∧ impl_ rest = None ∧
                              holds ({[peer_handle p]} ∪ (F ∖ (if impl_ old is Some s then own s else ∅))) k)
            | Err e => ec_bool e = true ∧ holds F k
            end).
Proof.
  intros Hb [sl Hl] [sp Hp]. unfold peer_create, with_sock. rewrite Hl, Hp.
  eapply triple_bind; [by apply connected_udp_spec|]. intros [s|e]; simpl; apply triple_ret; [|done].
  intros k (Hopen & Hnew & Hk). split_and!; [done..|]. intros old Hold. unfold peer_assign.
  destruct (impl_ old) as [s'|].
  - destruct (Hold s' eq_refl) as [Hsub _]. eapply triple_bind; [apply close_spec|]. intros [r s'']. simpl.
    apply triple_ret. intros k' [_ Hk']. split_and!; [done..|]. unfold holds in *. rewrite Hk'.
    simpl. set_solver.
  - apply triple_ret. intros k' Hk'. split_and!; [done..|]. unfold holds in *. by rewrite difference_empty_L.
Qed.

End ConnectedSpec.

(** ** Windows: the multiplexer *)

(** A step returns, never returns, or has undefined behaviour. *)
Inductive outcome (T : Type) := Done (x : T) | Hang | Undefined.
Arguments Done {T}.
Arguments Hang {T}.
Arguments Undefined {T}.

Definition obind {T U} (m : outcome T) (f : T → outcome U) : outcome U :=
  match m with Done x => f x | Hang => Hang | Undefined => Undefined end.

(** An address class [Addr]: its size, conversion and family, and the fields
    [operator==] compares, by which the maps of the multiplexer are keyed. *)
Class AddrClass (Key : Type) := {
  addr_size : nat;
  addr_af : address_family;
  addr_sock : bytes → option sock_address;
  addr_key : bytes → Key
}.

#[export] Instance addr4 : AddrClass (Z * Z) := {|
  addr_size := 16; addr_af := ipv4; addr_sock := to_sock4; addr_key a := (ip4 a, port4 a)
|}.
#[export] Instance addr6 : AddrClass (bytes * Z * Z) := {|
  addr_size := 28; addr_af := ipv6; addr_sock := to_sock6;
  addr_key a := (sin6_addr a, le_value (sin6_port a), scope_id a)
|}.

(** The keys are equal exactly when [operator==] says so. *)
Lemma key4_eqb a b : addr_key (AddrClass := addr4) a = addr_key b ↔ eqb4 a b = true.
Proof.
  unfold eqb4. simpl. rewrite andb_true_iff, !Z.eqb_eq. split; [by intros [= -> ->]|by intros [-> ->]].
Qed.

Lemma key6_eqb a b :
  length (sin6_addr a) = length (sin6_addr b) → addr_key (AddrClass := addr6) a = addr_key b ↔ eqb6 a b = true.
Proof.
  intros Hl. unfold eqb6. rewrite !andb_true_iff, bool_decide_eq_true, memcmp_eq, !Z.eqb_eq by done.
  change (addr_key a) with (sin6_addr a, le_value (sin6_port a), scope_id a).
  change (addr_key b) with (sin6_addr b, le_value (sin6_port b), scope_id b).
  split; [intros E; by injection E|intros [[? ?] ?]; congruence].
Qed.

(** The private completion port of a multiplexer. *)
Class PortKernel (K : Type) := {
  port_create : K → bool * K;
  port_associate : Z → K → bool * K;
  port_recv : Z → K → K;
  port_cancel : Z → K → K;
  port_post_stop : K → K;
  port_close : K → K
}.

Class PortLaws {K} (S : SocketKernel K) (P : PortKernel K) : Prop := {
  law_port_create k : open_fds (port_create k).2 = open_fds k;
  law_port_associate fd k : open_fds (port_associate fd k).2 = open_fds k;
  law_port_recv fd k : open_fds (port_recv fd k) = open_fds k;
  law_port_cancel fd k : open_fds (port_cancel fd k) = open_fds k;
  law_port_post_stop k : open_fds (port_post_stop k) = open_fds k;
  law_port_close k : open_fds (port_close k) = open_fds k
}.

(** The callback [dispatch] picked: that of a peer, the catch-all, or none. *)
Inductive target := ToPeer (i : nat) | ToCatchAll (src : bytes) | Nobody.

Section Mux.
Context {Key : Type} `{!EqDecision Key} `{!Countable Key} {AC : AddrClass Key}.

(** [refs]: the shared pointers to it.  [picked]: what the thread is about to
    call, between the lookup under the lock and the call outside it.  A callback
    of [peers_] is named by the peer object it points to. *)
Record udp_mux := mk_mux {
  socket_ : sock; local_addr_ : bytes; peers_ : gmap Key nat; catch_all_ : bool;
  iocp_ : bool; poll_thread_ : bool; stop_requested_ : bool; refs : nat; picked : option (target * bytes)
}.

(** [udp4_peer_socket::impl] *)
Record peer_impl := mk_impl { mux : nat; peer_addr : bytes; recv_queue : list bytes; closed : bool }.

Context {K : Type}.

(** [registry_] holds weak pointers: an id whose object is gone is expired. *)
Record world := mk_world {
  registry_mutex_ : bool; registry_ : gmap Key nat;
  muxes : gmap nat udp_mux; impls : gmap nat peer_impl; next_id : nat; net : K
}.
Implicit Types (w : world) (m : udp_mux).

Definition set_lock (b : bool) w : world := mk_world b (registry_ w) (muxes w) (impls w) (next_id w) (net w).
Definition set_registry (r : gmap Key nat) w : world :=
  mk_world (registry_mutex_ w) r (muxes w) (impls w) (next_id w) (net w).
Definition set_muxes (x : gmap nat udp_mux) w : world :=
  mk_world (registry_mutex_ w) (registry_ w) x (impls w) (next_id w) (net w).
Definition set_impls (x : gmap nat peer_impl) w : world :=
  mk_world (registry_mutex_ w) (registry_ w) (muxes w) x (next_id w) (net w).
Definition set_net (k : K) w : world :=
  mk_world (registry_mutex_ w) (registry_ w) (muxes w) (impls w) (next_id w) k.
Definition put_mux (id : nat) m w : world := set_muxes (<[id := m]> (muxes w)) w.
Definition put_impl (i : nat) (x : peer_impl) w : world := set_impls (<[i := x]> (impls w)) w.

Definition set_refs (n : nat) m : udp_mux :=
  mk_mux (socket_ m) (local_addr_ m) (peers_ m) (catch_all_ m) (iocp_ m) (poll_thread_ m) (stop_requested_ m) n (picked m).
Definition set_peers (x : gmap Key nat) m : udp_mux :=
  mk_mux (socket_ m) (local_addr_ m) x (catch_all_ m) (iocp_ m) (poll_thread_ m) (stop_requested_ m) (refs m) (picked m).
Definition set_picked (x : option (target * bytes)) m : udp_mux :=
  mk_mux (socket_ m) (local_addr_ m) (peers_ m) (catch_all_ m) (iocp_ m) (poll_thread_ m) (stop_requested_ m) (refs m) x.
Definition set_catch (b : bool) m : udp_mux :=
  mk_mux (socket_ m) (local_addr_ m) (peers_ m) b (iocp_ m) (poll_thread_ m) (stop_requested_ m) (refs m) (picked m).
Definition set_socket_ (s : sock) m : udp_mux :=
  mk_mux s (local_addr_ m) (peers_ m) (catch_all_ m) (iocp_ m) (poll_thread_ m) (stop_requested_ m) (refs m) (picked m).

Definition get_mux (id : nat) w : outcome udp_mux :=
  match muxes w !! id with Some m => Done m | None => Undefined end.

Definition with_net {A T} (c : M K A) w (f : A → world → outcome T) : outcome T :=
  match c (net w) with Some (a, k) => f a (set_net k w) | None => Undefined end.

(** A [scoped_lock] on the registry: a thread that holds it waits for ever. *)
Definition lock_registry w : outcome world := if registry_mutex_ w then Hang else Done (set_lock true w).

Definition expired w (id : nat) : bool :=
  match muxes w !! id with Some m => (refs m =? 0)%nat | None => true end.

Context `{SocketKernel K} `{PortKernel K}.

Definition net_if (b : bool) (f : K → K) w : world := if b then set_net (f (net w)) w else w.

(** [~udp_mux].  The thread's closure holds a reference, so that it has ended
    when the destructor runs and the join returns at once. *)
Definition destroy_mux (id : nat) w : outcome world :=
  obind (get_mux id w) (λ m,
  let w := net_if (is_open (socket_ m) && iocp_ m) (port_cancel (handle_ (socket_ m))) w in
  let w := net_if (iocp_ m) port_post_stop w in
  let w := net_if (iocp_ m) port_close w in
  obind (lock_registry w) (λ w,
  let key := addr_key (local_addr_ m) in
  let w := match registry_ w !! key with
           | Some id' => if expired w id' then set_registry (delete key (registry_ w)) w else w
           | None => w
           end in
  let w := set_lock false w in
  with_net (close Windows (socket_ m)) w (λ _ w, Done (set_muxes (delete id (muxes w)) w)))).

(** A shared pointer goes away. *)
Definition drop_ref (id : nat) w : outcome world :=
  obind (get_mux id w) (λ m,
  let m := set_refs (refs m - 1) m in
  let w := put_mux id m w in
  if (refs m =? 0)%nat then destroy_mux id w else Done w).

(** [return nullptr] in [get_or_create]: first the local shared pointer goes,
    then the lock. *)
Definition return_null (id : nat) w : outcome (option nat * world) :=
  obind (drop_ref id w) (λ w, Done (None, set_lock false w)).

Definition close_and_null (id : nat) m w : outcome (option nat * world) :=
  with_net (close Windows (socket_ m)) w (λ '(_, s) w, return_null id (put_mux id (set_socket_ s m) w)).

(** The rest of [get_or_create] once the socket is bound. *)
Definition start_mux (id : nat) m w : outcome (option nat * world) :=
  let '(ok, k) := port_create (net w) in
  let w := set_net k w in
  if negb ok then close_and_null id m w
  else
    let '(ok, k) := port_associate (handle_ (socket_ m)) (net w) in
    let w := set_net k w in
    if negb ok then close_and_null id m (set_net (port_close (net w)) w)
    else
      let w := set_net (port_recv (handle_ (socket_ m)) (net w)) w in
      let m := mk_mux (socket_ m) (local_addr_ m) (peers_ m) (catch_all_ m) true true false (S (refs m)) None in
      Done (Some id, set_lock false (put_mux id m w)).

Definition new_mux : udp_mux := mk_mux sock_default (replicate addr_size 0) ∅ false false false false 1 None.

(** The binding, and the entry in the registry. *)
Definition bind_mux (local : bytes) (id : nat) m w : outcome (option nat * world) :=
  match addr_sock local with
  | None => Undefined
  | Some sa =>
      with_net (sock_bind Windows sa (socket_ m)) w (λ r w,
      if negb (rv_bool r) then close_and_null id m w
      else
        let m := mk_mux (socket_ m) local (peers_ m) (catch_all_ m) false false false (refs m) None in
        let w := put_mux id m w in
        let w := set_registry (<[addr_key local := id]> (registry_ w)) w in
        start_mux id m w)
  end.

Definition create_mux (local : bytes) (opts : socket_options) w : outcome (option nat * world) :=
  let id := next_id w in
  let w := mk_world (registry_mutex_ w) (registry_ w) (<[id := new_mux]> (muxes w)) (impls w) (S id) (net w) in
  with_net (create Windows addr_af sock_dgram 0) w (λ r w,
  match r with
  | Err _ => return_null id w
  | Val s =>
      let m := set_socket_ s new_mux in
      let w := put_mux id m w in
      with_net (apply_opts Windows false opts (handle_ s)) w (λ r w,
      match r with
      | Err _ => close_and_null id m w
      | Val _ => bind_mux local id m w
      end)
  end).

Definition get_or_create (local : bytes) (opts : socket_options) w : outcome (option nat * world) :=
  obind (lock_registry w) (λ w,
  match registry_ w !! addr_key local with
  | Some id =>
      match muxes w !! id with
      | Some m =>
          if (refs m =? 0)%nat
          then create_mux local opts (set_registry (delete (addr_key local) (registry_ w)) w)
          else Done (Some id, set_lock false (put_mux id (set_refs (S (refs m)) m) w))
      | None => create_mux local opts (set_registry (delete (addr_key local) (registry_ w)) w)
      end
  | None => create_mux local opts w
  end).

Definition register_peer (id : nat) (peer : bytes) (i : nat) w : outcome (result_void * world) :=
  obind (get_mux id w) (λ m,
  match peers_ m !! addr_key peer with
  | Some _ => Done (rv_of already_bound, w)
  | None => Done (rv_ok, put_mux id (set_peers (<[addr_key peer := i]> (peers_ m)) m) w)
  end).

Definition deregister_peer (id : nat) (peer : bytes) w : outcome world :=
  obind (get_mux id w) (λ m, Done (put_mux id (set_peers (delete (addr_key peer) (peers_ m)) m) w)).

Definition set_catch_all (id : nat) (b : bool) w : outcome world :=
  obind (get_mux id w) (λ m, Done (put_mux id (set_catch b m) w)).

(** [~impl]: deregisters, and then its shared pointer goes. *)
Definition destroy_impl (i : nat) w : outcome world :=
  match impls w !! i with
  | None => Undefined
  | Some x =>
      obind (deregister_peer (mux x) (peer_addr x) w) (λ w,
      drop_ref (mux x) (set_impls (delete i (impls w)) w))
  end.

(** [udp4_peer_socket::create]; the peer object is named by its id. *)
Definition create_peer (local peer : bytes) (opts : socket_options) w : outcome (result nat * world) :=
  obind (get_or_create local opts w) (λ '(r, w),
  match r with
  | None => Done (err_of invalid_state, w)
  | Some id =>
      let i := next_id w in
      let w := mk_world (registry_mutex_ w) (registry_ w) (muxes w) (<[i := mk_impl id peer [] false]> (impls w))
                 (S i) (net w) in
      obind (register_peer id peer i w) (λ '(r, w),
      if negb (rv_bool r) then obind (destroy_impl i w) (λ w, Done (Err (rv_error r), w))
      else Done (Val i, w))
  end).

(** *** The thread *)

(** The lookup of [dispatch], under the lock. *)
Definition pick (src : bytes) m : target :=
  match peers_ m !! addr_key src with
  | Some i => ToPeer i
  | None => if catch_all_ m then ToCatchAll src else Nobody
  end.

Definition rearm_recv (id : nat) w : outcome world :=
  obind (get_mux id w) (λ m,
  Done (if stop_requested_ m then w else set_net (port_recv (handle_ (socket_ m)) (net w)) w)).

(** One completion: the source, as stored, and the data, or a failure. *)
Definition on_completion (id : nat) (c : option (bytes * bytes)) w : outcome world :=
  obind (get_mux id w) (λ m,
  match picked m with
  | Some _ => Done w
  | None =>
      match c with
      | Some (storage, data) =>
          if (0 <? length data)%nat
          then Done (put_mux id (set_picked (Some (pick (take addr_size storage) m, data)) m) w)
          else rearm_recv id w
      | None => rearm_recv id w
      end
  end).

(** The call outside the lock, through the peer's pointer, and the re-arming. *)
Definition on_deliver (id : nat) w : outcome world :=
  obind (get_mux id w) (λ m,
  match picked m with
  | None => Done w
  | Some (t, data) =>
      let w := put_mux id (set_picked None m) w in
      match t with
      | ToPeer i =>
          match impls w !! i with
          | None => Undefined
          | Some x =>
              rearm_recv id (put_impl i (mk_impl (mux x) (peer_addr x) (recv_queue x ++ [data]) (closed x)) w)
          end
      | _ => rearm_recv id w
      end
  end).

(** [recv] of a peer whose queue is not empty or that is closed; [None] while
    it waits. *)
Definition peer_impl_recv (i : nat) (len : nat) w : outcome (option (result bytes) * world) :=
  match impls w !! i with
  | None => Undefined
  | Some x =>
      match recv_queue x with
      | [] => Done (if closed x then Some (err_of invalid_state) else None, w)
      | front :: q => Done (Some (Val (take len front)), put_impl i (mk_impl (mux x) (peer_addr x) q (closed x)) w)
      end
  end.

Definition mux_send_to (sendto : Z → bytes → sock_address → K → (Z + Z) * K) (id : nat) (data dest : bytes) w :
    outcome (result Z * world) :=
  obind (get_mux id w) (λ m,
  if negb (is_open (socket_ m)) then Done (err_of invalid_state, w)
  else
    match addr_sock dest with
    | None => Undefined
    | Some sa =>
        let '(r, k) := sendto (handle_ (socket_ m)) (cut (call_length Windows) data) sa (net w) in
        Done (counted Windows r, set_net k w)
    end).

Definition peer_impl_send (sendto : Z → bytes → sock_address → K → (Z + Z) * K) (i : nat) (data : bytes) w :
    outcome (result Z * world) :=
  match impls w !! i with
  | None => Undefined
  | Some x => mux_send_to sendto (mux x) data (peer_addr x) w
  end.

Definition peer_impl_handle (i : nat) w : Z :=
  match impls w !! i with
  | Some x => match muxes w !! mux x with Some m => handle_ (socket_ m) | None => invalid_socket end
  | None => invalid_socket
  end.

Definition peer_impl_is_open (i : nat) w : bool :=
  match impls w !! i with Some x => negb (closed x) | None => false end.

(** ** The registry *)

Context `{!SocketKernelLaws H} `{!PortLaws H H0}.

(** [E] counts shared pointers held outside the peers. *)
Definition held (i : nat) w : nat := size (filter (λ p : nat * peer_impl, mux p.2 = i) (impls w)).

Record wf (E : nat → nat) w : Prop := {
  wf_unlocked : registry_mutex_ w = false;
  wf_mux id m : muxes w !! id = Some m →
    (id < next_id w)%nat ∧ poll_thread_ m = true ∧ stop_requested_ m = false ∧ is_open (socket_ m) = true ∧
    refs m = S (held id w + E id) ∧ registry_ w !! addr_key (local_addr_ m) = Some id;
  wf_registry k id : registry_ w !! k = Some id → ∃ m, muxes w !! id = Some m ∧ addr_key (local_addr_ m) = k;
  wf_peers id m k i : muxes w !! id = Some m → peers_ m !! k = Some i →
    ∃ x, impls w !! i = Some x ∧ mux x = id ∧ addr_key (peer_addr x) = k;
  wf_impls i x : impls w !! i = Some x → (i < next_id w)%nat ∧ is_Some (muxes w !! mux x) ∧ closed x = false
}.

Definition no_refs : nat → nat := λ _, 0%nat.
Definition one_ref (id : nat) : nat → nat := λ id', if (id' =? id)%nat then 1%nat else 0%nat.

(** While the registry is locked by the caller, giving up hangs. *)
Lemma return_null_hangs id m w :
  registry_mutex_ w = true → muxes w !! id = Some m → refs m = 1%nat → return_null id w = Hang.
Proof.
  intros Hl Hm Hr. unfold return_null, drop_ref, get_mux. rewrite Hm. simpl. rewrite Hr. simpl.
  unfold destroy_mux, get_mux. simpl. rewrite lookup_insert_eq. simpl. unfold lock_registry, net_if.
  by repeat case_match; simpl in *; simplify_eq; rewrite ?Hl in *.
Qed.

Lemma close_total s w :
  ∃ r k, close Windows s (net w) = Some (r, k).
Proof. destruct (close_spec Windows s (open_fds (net w)) (net w) eq_refl) as (r & k & E & _). eauto. Qed.

Lemma close_and_null_hangs id m w :
  registry_mutex_ w = true → refs m = 1%nat → close_and_null id m w = Hang.
Proof.
  intros Hl Hr. unfold close_and_null, with_net. destruct (close_total (socket_ m) w) as ([r s] & k & ->).
  apply (return_null_hangs id (set_socket_ s m)); simpl; [done|by rewrite lookup_insert_eq|done].
Qed.

(** What a multiplexer looks like once its thread is started. *)
Definition started (local : bytes) (s : sock) : udp_mux := mk_mux s local ∅ false true true false 2 None.

Lemma start_mux_spec id local s w :
  registry_mutex_ w = true → let m := mk_mux s local ∅ false false false false 1 None in
  start_mux id m w = Hang ∨
  ∃ k, start_mux id m w = Done (Some id, set_lock false (put_mux id (started local s) (set_net k w))).
Proof.
  intros Hl m. unfold start_mux. destruct (port_create (net w)) as [[] k]; simpl.
  2:{ left. by apply close_and_null_hangs. }
  destruct (port_associate _ k) as [[] k']; simpl; [|left; by apply close_and_null_hangs].
  right. by exists (port_recv (handle_ s) k').
Qed.

Lemma bind_mux_spec local id s w :
  registry_mutex_ w = true → is_open s = true → is_Some (addr_sock local) →
  bind_mux local id (set_socket_ s new_mux) w = Hang ∨
  ∃ k, bind_mux local id (set_socket_ s new_mux) w =
         Done (Some id, mk_world false (<[addr_key local := id]> (registry_ w))
                          (<[id := started local s]> (muxes w)) (impls w) (next_id w) k).
Proof.
  intros Hl Hopen [sa Hsa]. unfold bind_mux, with_net. rewrite Hsa. unfold sock_bind. cbn [socket_ set_socket_].
  unfold is_open in Hopen. apply negb_true_iff in Hopen. rewrite Hopen.
  destruct (call_spec Windows (CBind sa) (handle_ s) (open_fds (net w)) (net w) eq_refl) as (r & k2 & -> & _).
  destruct (rv_bool r); cbn [negb]; [|left; by apply close_and_null_hangs].
  cbn [peers_ catch_all_ refs set_socket_ new_mux].
  match goal with |- context [start_mux ?i _ ?w'] =>
    destruct (start_mux_spec i local s w') as [->|(k3 & ->)]; [done|by left|] end.
  right. exists k3. unfold set_lock, put_mux, set_muxes, set_net. simpl. by rewrite insert_insert_eq.
Qed.

Lemma create_mux_spec local opts w :
  registry_mutex_ w = true → Apply.built Windows opts → is_Some (addr_sock local) →
  let id := next_id w in
  create_mux local opts w = Hang ∨
  ∃ s k, create_mux local opts w =
           Done (Some id, mk_world false (<[addr_key local := id]> (registry_ w))
                            (<[id := started local s]> (muxes w)) (impls w) (S id) k) ∧
         is_open s = true.
Proof.
  intros Hl Hb Hsa id. unfold create_mux, with_net. cbn [net].
  destruct (create_spec Windows addr_af sock_dgram 0 (open_fds (net w)) (net w) eq_refl) as (r & k & -> & Hr).
  destruct r as [s|e].
  2:{ left. apply (return_null_hangs _ new_mux); simpl; [done|by rewrite lookup_insert_eq|done]. }
  destruct Hr as (Hopen & _). cbn [net set_net put_mux set_muxes].
  destruct (apply_spec Windows false opts (handle_ s) (open_fds k) Hb k eq_refl) as (r & k1 & -> & _).
  destruct r as [ar|e]; [|left; by apply close_and_null_hangs].
  match goal with |- context [bind_mux local ?i _ ?w'] =>
    destruct (bind_mux_spec local i s w') as [->|(k3 & ->)]; [done..|by left|] end.
  right. exists s, k3. split; [|done]. cbn [registry_ muxes impls next_id set_net put_mux set_muxes].
  by rewrite !insert_insert_eq.
Qed.

Lemma held_none (x : gmap nat peer_impl) id :
  (∀ i y, x !! i = Some y → mux y ≠ id) → size (filter (λ p : nat * peer_impl, mux p.2 = id) x) = 0%nat.
Proof.
  intros Hn. apply map_size_empty_iff. apply map_empty. intros i. apply map_lookup_filter_None_2.
  destruct (x !! i) as [y|] eqn:Hy; [right|by left]. intros y' [= <-]. by apply (Hn i y).
Qed.

Lemma held_add (x : gmap nat peer_impl) i y id :
  x !! i = None →
  size (filter (λ p : nat * peer_impl, mux p.2 = id) (<[i := y]> x)) =
  ((if (mux y =? id)%nat then 1 else 0) + size (filter (λ p : nat * peer_impl, mux p.2 = id) x))%nat.
Proof.
  intros Hi. destruct (mux y =? id)%nat eqn:E; bool_facts.
  - rewrite map_filter_insert_True by done. rewrite map_size_insert_None; [done|].
    by apply map_lookup_filter_None_2; left.
  - rewrite map_filter_insert_False by done. by rewrite delete_id.
Qed.

Lemma held_delete (x : gmap nat peer_impl) i y id :
  x !! i = Some y →
  size (filter (λ p : nat * peer_impl, mux p.2 = id) x) =
  ((if (mux y =? id)%nat then 1 else 0) +
   size (filter (λ p : nat * peer_impl, mux p.2 = id) (delete i x)))%nat.
Proof.
  intros Hi. rewrite <- (insert_delete_id x i y Hi) at 1. apply held_add. apply lookup_delete_eq.
Qed.

(** A change of one multiplexer that keeps its peers, socket and address. *)
Lemma wf_put_mux (E E' : nat → nat) id m m' w :
  wf E w → muxes w !! id = Some m → (∀ id', id' ≠ id → E' id' = E id') →
  poll_thread_ m' = true → stop_requested_ m' = false → is_open (socket_ m') = true →
  refs m' = S (held id w + E' id) → local_addr_ m' = local_addr_ m →
  (∀ k i, peers_ m' !! k = Some i → ∃ x, impls w !! i = Some x ∧ mux x = id ∧ addr_key (peer_addr x) = k) →
  wf E' (put_mux id m' w).
Proof.
  intros Hwf Hm HE Hth Hst Hop Hrefs Hloc Hpeers. destruct (wf_mux _ _ Hwf _ _ Hm) as (Hlt & _ & _ & _ & _ & Hr).
  split; simpl.
  - apply (wf_unlocked _ _ Hwf).
  - intros id' m1. destruct (decide (id = id')) as [<-|Hne].
    + rewrite lookup_insert_eq. intros [= <-]. rewrite Hloc. done.
    + rewrite lookup_insert_ne by done. intros H1. destruct (wf_mux _ _ Hwf _ _ H1) as (? & ? & ? & ? & ? & ?).
      rewrite HE by done. done.
  - intros k id' H1. destruct (wf_registry _ _ Hwf _ _ H1) as (m1 & H2 & H3).
    destruct (decide (id = id')) as [<-|Hne].
    + rewrite lookup_insert_eq. exists m'. split; [done|]. rewrite Hloc. congruence.
    + rewrite lookup_insert_ne by done. eauto.
  - intros id' m1 k i. destruct (decide (id = id')) as [<-|Hne].
    + rewrite lookup_insert_eq. intros [= <-]. apply Hpeers.
    + rewrite lookup_insert_ne by done. apply (wf_peers _ _ Hwf).
  - intros i x H1. destruct (wf_impls _ _ Hwf _ _ H1) as (? & ? & ?). split_and!; [done| |done].
    rewrite lookup_insert_is_Some. destruct (decide (id = mux x)); auto.
Qed.

Lemma wf_net E k w : wf E w → wf E (set_net k w).
Proof. intros []. by split. Qed.

(** A new multiplexer. *)
Lemma wf_new_mux local s k w :
  wf no_refs w → is_open s = true → registry_ w !! addr_key local = None →
  let id := next_id w in
  wf (one_ref id) (mk_world false (<[addr_key local := id]> (registry_ w)) (<[id := started local s]> (muxes w))
                     (impls w) (S id) k).
Proof.
  intros Hwf Hop Hreg id.
  assert (muxes w !! id = None) as Hnone.
  { destruct (muxes w !! id) as [m|] eqn:Hm; [|done]. destruct (wf_mux _ _ Hwf _ _ Hm). unfold id in *. lia. }
  assert (∀ id', id' ≠ id → one_ref id id' = 0%nat) as Hone.
  { intros id' Hne. unfold one_ref. by apply Nat.eqb_neq in Hne as ->. }
  split; simpl.
  - done.
  - intros id' m. destruct (decide (id = id')) as [<-|Hne].
    + rewrite lookup_insert_eq. intros [= <-]. simpl. rewrite lookup_insert_eq. split_and!; [lia|done..| |done].
      unfold held, one_ref. simpl. rewrite Nat.eqb_refl, held_none; [done|].
      intros i y Hy Hmux. destruct (wf_impls _ _ Hwf _ _ Hy) as (_ & [m Hm] & _). congruence.
    + rewrite lookup_insert_ne by done. intros Hm. destruct (wf_mux _ _ Hwf _ _ Hm) as (? & ? & ? & ? & Hr & Hk).
      rewrite Hone by done. split_and!; [lia|done..|].
      rewrite lookup_insert_ne; [done|]. intros Heq. rewrite Heq in Hreg. congruence.
  - intros k' id'. destruct (decide (addr_key local = k')) as [<-|Hne].
    + rewrite lookup_insert_eq. intros [= <-]. rewrite lookup_insert_eq. by eexists.
    + rewrite lookup_insert_ne by done. intros H1. destruct (wf_registry _ _ Hwf _ _ H1) as (m & Hm & Hk).
      exists m. rewrite lookup_insert_ne; [done|congruence].
  - intros id' m k' i. destruct (decide (id = id')) as [<-|Hne].
    + rewrite lookup_insert_eq. intros [= <-]. done.
    + rewrite lookup_insert_ne by done. apply (wf_peers _ _ Hwf).
  - intros i x Hx. destruct (wf_impls _ _ Hwf _ _ Hx) as (? & ? & ?). split_and!; [lia| |done].
    rewrite lookup_insert_is_Some. destruct (decide (id = mux x)); auto.
Qed.

(** What the thread of a multiplexer is about to call, which most steps leave. *)
Definition pick_of (id : nat) w : option (target * bytes) := muxes w !! id ≫= picked.
Definition same_picks w w' : Prop :=
  (next_id w ≤ next_id w')%nat ∧ (∀ id, pick_of id w' = pick_of id w) ∧
  ∀ id, is_Some (muxes w !! id) → is_Some (muxes w' !! id).

Lemma same_picks_put id m m' w : muxes w !! id = Some m → picked m' = picked m → same_picks w (put_mux id m' w).
Proof.
  intros Hm Hp. split_and!; [done|..]; intros id'; unfold pick_of; simpl;
    (destruct (decide (id = id')) as [<-|Hne]; [by rewrite lookup_insert_eq, ?Hm|by rewrite lookup_insert_ne]).
Qed.

Lemma same_picks_trans w1 w2 w3 : same_picks w1 w2 → same_picks w2 w3 → same_picks w1 w3.
Proof. intros (? & Ha & ?) (? & Hb & ?). split_and!; [lia| |auto]. intros id. by rewrite Hb, Ha. Qed.

Lemma get_or_create_spec local opts w :
  wf no_refs w → Apply.built Windows opts → is_Some (addr_sock local) →
  (registry_ w !! addr_key local = None ∧ get_or_create local opts w = Hang) ∨
  ∃ id m w', get_or_create local opts w = Done (Some id, w') ∧ wf (one_ref id) w' ∧
    impls w' = impls w ∧ muxes w' !! id = Some m ∧ addr_key (local_addr_ m) = addr_key local ∧
    (∀ id', registry_ w !! addr_key local = Some id' → id' = id) ∧
    (∀ id' m', muxes w !! id' = Some m' → ∃ n, muxes w' !! id' = Some (set_refs n m')) ∧ same_picks w w'.
Proof.
  intros Hwf Hb Hsa. pose proof (wf_unlocked _ _ Hwf) as Hl. destruct (registry_ w !! addr_key local) as [id|] eqn:Hreg.
  - right. destruct (wf_registry _ _ Hwf _ _ Hreg) as (m & Hm & Hk).
    destruct (wf_mux _ _ Hwf _ _ Hm) as (Hlt & Hth & Hst & Hop & Hrefs & Hr).
    set (m' := set_refs (S (refs m)) m).
    assert (get_or_create local opts w = Done (Some id, put_mux id m' w)) as ->.
    { unfold get_or_create, lock_registry. rewrite Hl. simpl. rewrite Hreg, Hm, Hrefs. simpl.
      destruct w. simpl in *. subst. unfold m'. by rewrite Hrefs. }
    exists id, m', (put_mux id m' w). split_and!; [done| |done|simpl; by rewrite lookup_insert_eq|done|congruence| |].
    + eapply wf_put_mux; [exact Hwf|exact Hm| |done..| |done|].
      * intros id' Hne. unfold one_ref, no_refs. by apply Nat.eqb_neq in Hne as ->.
      * simpl. rewrite Hrefs. unfold one_ref, no_refs. rewrite Nat.eqb_refl. lia.
      * intros k i. apply (wf_peers _ _ Hwf _ _ _ _ Hm).
    + intros id' m1 H1. simpl. destruct (decide (id = id')) as [<-|Hne].
      * rewrite lookup_insert_eq. exists (S (refs m)). unfold m'. by simplify_eq.
      * rewrite lookup_insert_ne by done. exists (refs m1). rewrite H1. by destruct m1.
    + by apply same_picks_put with m.
  - unfold get_or_create, lock_registry. rewrite Hl. cbn [obind].
    assert (registry_ (set_lock true w) !! addr_key local = None) as -> by done.
    destruct (create_mux_spec local opts (set_lock true w) eq_refl Hb Hsa) as [->|(s & k & -> & Hs)]; [by left|].
    right. pose proof (wf_new_mux local s k w Hwf Hs Hreg) as Hnew. simpl in *.
    exists (next_id w), (started local s), (mk_world false (<[addr_key local := next_id w]> (registry_ w))
      (<[next_id w := started local s]> (muxes w)) (impls w) (S (next_id w)) k).
    split_and!; [done|done|done|simpl; by rewrite lookup_insert_eq|done|congruence| |].
    + intros id' m1 H1. simpl. destruct (wf_mux _ _ Hwf _ _ H1) as [Hlt _].
      rewrite lookup_insert_ne by lia. exists (refs m1). rewrite H1. by destruct m1.
    + split_and!; [simpl; lia| |intros id'; simpl; rewrite lookup_insert_is_Some;
        destruct (decide (next_id w = id')); auto].
      intros id'. unfold pick_of. simpl. destruct (decide (next_id w = id')) as [<-|Hne].
      * rewrite lookup_insert_eq. destruct (muxes w !! next_id w) as [m1|] eqn:H1; [|done].
        destruct (wf_mux _ _ Hwf _ _ H1). lia.
      * by rewrite lookup_insert_ne.
Qed.

(** ** Peers come and go *)

Lemma drop_ref_spec id m w n :
  muxes w !! id = Some m → refs m = S (S n) → drop_ref id w = Done (put_mux id (set_refs (S n) m) w).
Proof. intros Hm Hr. unfold drop_ref, get_mux. rewrite Hm. simpl. by rewrite Hr. Qed.

(** The shared pointer passes to a new peer. *)
Lemma wf_add_impl id peer w :
  wf (one_ref id) w → is_Some (muxes w !! id) →
  let i := next_id w in
  impls w !! i = None ∧
  wf no_refs (mk_world (registry_mutex_ w) (registry_ w) (muxes w) (<[i := mk_impl id peer [] false]> (impls w))
                (S i) (net w)).
Proof.
  intros Hwf Hid i.
  assert (impls w !! i = None) as Hnone.
  { destruct (impls w !! i) as [x|] eqn:Hx; [|done]. destruct (wf_impls _ _ Hwf _ _ Hx). unfold i in *. lia. }
  split; [done|]. split; simpl.
  - apply (wf_unlocked _ _ Hwf).
  - intros id' m Hm. destruct (wf_mux _ _ Hwf _ _ Hm) as (? & ? & ? & ? & Hr & ?). split_and!; [lia|done..| |done].
    rewrite Hr. unfold held, no_refs, one_ref. simpl. rewrite held_add by done. simpl.
    rewrite Nat.eqb_sym. destruct (id =? id')%nat; lia.
  - apply (wf_registry _ _ Hwf).
  - intros id' m k j Hm Hj. destruct (wf_peers _ _ Hwf _ _ _ _ Hm Hj) as (x & Hx & ?). exists x.
    rewrite lookup_insert_ne; [done|]. intros <-. congruence.
  - intros j x. destruct (decide (i = j)) as [<-|Hne].
    + rewrite lookup_insert_eq. intros [= <-]. split_and!; [lia|done..].
    + rewrite lookup_insert_ne by done. intros Hx. destruct (wf_impls _ _ Hwf _ _ Hx) as (? & ? & ?). split_and!; [lia|done..].
Qed.

Lemma destroy_impl_spec i x w :
  wf no_refs w → impls w !! i = Some x →
  ∃ m n w', muxes w !! mux x = Some m ∧ destroy_impl i w = Done w' ∧ wf no_refs w' ∧ impls w' = delete i (impls w) ∧
    muxes w' = <[mux x := set_refs n (set_peers (delete (addr_key (peer_addr x)) (peers_ m)) m)]> (muxes w) ∧
    same_picks w w' ∧ registry_ w' = registry_ w.
Proof.
  intros Hwf Hx. destruct (wf_impls _ _ Hwf _ _ Hx) as (Hlt & [m Hm] & _).
  destruct (wf_mux _ _ Hwf _ _ Hm) as (? & Hth & Hst & Hop & Hr & Hk).
  assert (held (mux x) w = S (size (filter (λ p : nat * peer_impl, mux p.2 = mux x) (delete i (impls w))))) as Hh.
  { unfold held. rewrite (held_delete _ _ _ (mux x) Hx), Nat.eqb_refl. done. }
  set (n := held (mux x) (set_impls (delete i (impls w)) w)) in *.
  set (m' := set_refs (S n) (set_peers (delete (addr_key (peer_addr x)) (peers_ m)) m)).
  exists m, (S n), (put_mux (mux x) m' (set_impls (delete i (impls w)) w)). split; [done|].
  assert (destroy_impl i w = Done (put_mux (mux x) m' (set_impls (delete i (impls w)) w))) as ->.
  { unfold destroy_impl, deregister_peer, get_mux. rewrite Hx, Hm. simpl.
    erewrite drop_ref_spec; [| simpl; by rewrite lookup_insert_eq|simpl; rewrite Hr, Hh; unfold no_refs; by rewrite Nat.add_0_r].
    unfold put_mux, set_muxes, set_impls. simpl. by rewrite insert_insert_eq. }
  split_and!; [done| |done|done| |done].
  2:{ apply (same_picks_trans _ (set_impls (delete i (impls w)) w)); [done|]. by apply same_picks_put with m. }
  split; simpl.
  - apply (wf_unlocked _ _ Hwf).
  - intros id' m1. destruct (decide (mux x = id')) as [<-|Hne].
    + rewrite lookup_insert_eq. intros [= <-]. simpl. unfold held, no_refs. simpl. split_and!; try done.
    + rewrite lookup_insert_ne by done. intros G1. destruct (wf_mux _ _ Hwf _ _ G1) as (? & ? & ? & ? & Hr1 & ?).
      split_and!; [done..| |done]. rewrite Hr1. unfold held. simpl. rewrite (held_delete _ _ _ id' Hx).
      by apply Nat.eqb_neq in Hne as ->.
  - intros k id' G1. destruct (wf_registry _ _ Hwf _ _ G1) as (m1 & G2 & G3).
    destruct (decide (mux x = id')) as [<-|Hne].
    + rewrite lookup_insert_eq. exists m'. split; [done|]. simpl. congruence.
    + rewrite lookup_insert_ne by done. eauto.
  - intros id' m1 k j. destruct (decide (mux x = id')) as [<-|Hne].
    + rewrite lookup_insert_eq. intros [= <-]. simpl. intros [Hnk Hj]%lookup_delete_Some.
      destruct (wf_peers _ _ Hwf _ _ _ _ Hm Hj) as (y & Hy & Hmy & Hky). exists y.
      rewrite lookup_delete_ne; [done|]. intros ->. congruence.
    + rewrite lookup_insert_ne by done. intros G1 Hj. destruct (wf_peers _ _ Hwf _ _ _ _ G1 Hj) as (y & Hy & Hmy & Hky).
      exists y. rewrite lookup_delete_ne; [done|]. intros ->. congruence.
  - intros j y [_ Hy]%lookup_delete_Some. destruct (wf_impls _ _ Hwf _ _ Hy) as (? & ? & ?). split_and!; [done| |done].
    rewrite lookup_insert_is_Some. destruct (decide (mux x = mux y)); auto.
Qed.

Lemma create_peer_spec local peer opts w :
  wf no_refs w → Apply.built Windows opts → is_Some (addr_sock local) →
  (registry_ w !! addr_key local = None ∧ create_peer local peer opts w = Hang) ∨
  ∃ r w', create_peer local peer opts w = Done (r, w') ∧ wf no_refs w' ∧ same_picks w w' ∧
    (∀ id m, muxes w !! id = Some m → addr_key (local_addr_ m) = addr_key local →
       ∃ m', muxes w' !! id = Some m' ∧
         if decide (is_Some (peers_ m !! addr_key peer))
         then r = err_of already_bound ∧ peers_ m' = delete (addr_key peer) (peers_ m)
         else ∃ i, r = Val i ∧ peers_ m' = <[addr_key peer := i]> (peers_ m)) ∧
    match r with
    | Val i => (next_id w ≤ i)%nat ∧ impls w !! i = None ∧
               ∃ id, impls w' = <[i := mk_impl id peer [] false]> (impls w)
    | Err _ => impls w' = impls w
    end.
Proof.
  intros Hwf Hb Hsa. unfold create_peer.
  destruct (get_or_create_spec local opts w Hwf Hb Hsa)
    as [[? ->]|(id & m & w1 & -> & Hwf1 & Himp & Hm & Hk & Hreg & Hold & Hp1)]; [by left|right]. cbn [obind].
  destruct (wf_add_impl id peer w1 Hwf1 ltac:(by exists m)) as [Hnone Hwf2].
  set (i := next_id w1) in *. set (w2 := mk_world _ _ _ (<[i := _]> _) _ _) in *.
  assert (muxes w2 !! id = Some m) as Hm2 by done.
  assert (∀ id' m', muxes w !! id' = Some m' → addr_key (local_addr_ m') = addr_key local →
            id' = id ∧ ∃ n, m = set_refs n m') as Hsame.
  { intros id' m' Hm' Hk'. destruct (wf_mux _ _ Hwf _ _ Hm') as (_ & _ & _ & _ & _ & Hr'). rewrite Hk' in Hr'.
    apply Hreg in Hr' as ->. split; [done|]. destruct (Hold _ _ Hm') as [n Hn]. exists n. congruence. }
  assert (same_picks w w2) as Hp2.
  { apply (same_picks_trans _ w1); [done|]. split_and!; [simpl; unfold i; lia|done..]. }
  destruct Hp1 as [Hle _].
  unfold register_peer, get_mux. rewrite Hm2. cbn [obind]. destruct (peers_ m !! addr_key peer) as [j|] eqn:Hj.
  - cbn [rv_bool rv_of rv_error ec_bool make_error_code]. simpl negb. cbn [obind].
    destruct (destroy_impl_spec i (mk_impl id peer [] false) w2 Hwf2) as (m2 & n & w3 & Hm2' & -> & Hwf3 & Hi3 & Hmx & Hp3 & _);
      [simpl; by rewrite lookup_insert_eq|]. cbn [obind]. simpl in Hm2', Hmx. assert (m2 = m) as -> by congruence.
    eexists _, w3. split_and!; [done|done|by apply same_picks_trans with w2| |].
    + intros id' m' Hm' Hk'. destruct (Hsame _ _ Hm' Hk') as [-> [n' ->]]. eexists. split; [by rewrite Hmx, lookup_insert_eq|].
      simpl in *. rewrite decide_True by by rewrite Hj. done.
    + simpl. rewrite Hi3. simpl. rewrite Himp, delete_insert_id; [done|]. by rewrite <- Himp.
  - simpl. eexists _, _. split_and!; [done| | | |].
    + eapply wf_put_mux; [exact Hwf2|exact Hm2|done|..];
        destruct (wf_mux _ _ Hwf2 _ _ Hm2) as (? & ? & ? & ? & ? & ?); [done..|].
      simpl. intros k j. destruct (decide (addr_key peer = k)) as [<-|Hne].
      * rewrite lookup_insert_eq. intros [= <-]. eexists. rewrite lookup_insert_eq. done.
      * rewrite lookup_insert_ne by done. apply (wf_peers _ _ Hwf2 _ _ _ _ Hm2).
    + apply (same_picks_trans _ w2); [done|]. by apply same_picks_put with m.
    + intros id' m' Hm' Hk'. destruct (Hsame _ _ Hm' Hk') as [-> [n' ->]]. eexists. split; [simpl; by rewrite lookup_insert_eq|].
      simpl in *. rewrite decide_False by (rewrite Hj; by intros [? ?]). eauto.
    + split_and!; [done|by rewrite <- Himp|]. exists id. by rewrite <- Himp.
Qed.

(** A peer that cannot be created takes another one's datagrams away.
    Creating a second peer for an address that is already registered on the same
    local address fails with [already_bound]; the object that failed deregisters
    the address all the same when it is destroyed, so that afterwards the address
    has no registration, and the datagrams of the peer created first go to the
    catch-all callback or to nobody. *)
Theorem failed_peer_evicts local peer src opts w id m i :
  wf no_refs w → Apply.built Windows opts → is_Some (addr_sock local) →
  muxes w !! id = Some m → addr_key (local_addr_ m) = addr_key local →
  peers_ m !! addr_key peer = Some i → addr_key src = addr_key peer →
  pick src m = ToPeer i ∧
  ∃ w' m', create_peer local peer opts w = Done (err_of already_bound, w') ∧ impls w' = impls w ∧
    muxes w' !! id = Some m' ∧ peers_ m' !! addr_key peer = None ∧ (∀ j, pick src m' ≠ ToPeer j).
Proof.
  intros Hwf Hb Hsa Hm Hk Hi Hsrc. split; [unfold pick; by rewrite Hsrc, Hi|].
  destruct (wf_mux _ _ Hwf _ _ Hm) as (_ & _ & _ & _ & _ & Hr). rewrite Hk in Hr.
  destruct (create_peer_spec local peer opts w Hwf Hb Hsa) as [[? _]|(r & w' & Hc & _ & _ & Hmux & Hres)]; [congruence|].
  destruct (Hmux id m Hm Hk) as (m' & Hm' & Hdec). rewrite decide_True in Hdec by by rewrite Hi.
  destruct Hdec as [-> Hpeers]. exists w', m'. split_and!; [done..| |].
  - rewrite Hpeers. apply lookup_delete_eq.
  - intros j. unfold pick. rewrite Hsrc, Hpeers, lookup_delete_eq. by destruct (catch_all_ m').
Qed.

(** C40. A multiplexer that cannot be set up hangs its caller.  [get_or_create]
    never returns a null pointer: on each of its failure paths the new object is
    destroyed before the lock on the registry is released, and its destructor
    waits for that lock.  In particular, creating a peer on an address that has
    no multiplexer yet and cannot be bound never returns. *)
Theorem mux_failure_hangs local peer opts w :
  wf no_refs w → Apply.built Windows opts → is_Some (addr_sock local) →
  (∀ w', get_or_create local opts w ≠ Done (None, w')) ∧
  (registry_ w !! addr_key local = None →
   (∀ sa fd k, is_Some (sys_call (CBind sa) fd k).1) →
   get_or_create local opts w = Hang ∧ create_peer local peer opts w = Hang).
Proof.
  intros Hwf Hb Hsa. split.
  - intros w' Hg. destruct (get_or_create_spec local opts w Hwf Hb Hsa) as [[_ E]|(id & m & w1 & E & _)]; congruence.
  - intros Hreg Hbind.
    assert (get_or_create local opts w = Hang) as Hg; [|split; [done|]; unfold create_peer; by rewrite Hg].
    unfold get_or_create, lock_registry. rewrite (wf_unlocked _ _ Hwf). cbn [obind].
    assert (registry_ (set_lock true w) !! addr_key local = None) as -> by done.
    unfold create_mux, with_net. cbn [net set_lock].
    destruct (create_spec Windows addr_af sock_dgram 0 (open_fds (net w)) (net w) eq_refl) as (r & k & -> & Hr).
    destruct r as [s|e]; [|apply (return_null_hangs _ new_mux); simpl; [done|by rewrite lookup_insert_eq|done]].
    destruct Hr as (Hopen & _). cbn [net set_net put_mux set_muxes].
    destruct (apply_spec Windows false opts (handle_ s) (open_fds k) Hb k eq_refl) as (r & k1 & -> & _).
    destruct r as [ar|e]; [|by apply close_and_null_hangs].
    destruct Hsa as [sa Hsa]. unfold bind_mux, with_net. rewrite Hsa. unfold sock_bind. cbn [socket_ set_socket_].
    unfold is_open in Hopen. apply negb_true_iff in Hopen. rewrite Hopen.
    cbn [net set_net]. unfold call, bind, lift, ret. destruct (Hbind sa (handle_ s) k1) as [e He].
    pose proof (proj2 (law_call (CBind sa) (handle_ s) k1) e He) as Hne.
    destruct (sys_call (CBind sa) (handle_ s) k1) as [r k2]. simpl in He. subst r.
    rewrite call_result_fails by done. by apply close_and_null_hangs.
Qed.

(** ** Runs of the world *)

Inductive mux_event :=
| ECreate (local peer : bytes) (opts : socket_options)
| EDestroy (i : nat)
| ERecv (i len : nat)
| ECatchAll (id : nat) (b : bool)
| ECompletion (id : nat) (c : option (bytes * bytes))
| EDeliver (id : nat).

(** What a run shows: a datagram routed to a peer, one taken from its queue. *)
Inductive obs := ORouted (i : nat) (src data : bytes) | OTaken (i : nat) (data : bytes).

(** Calls on objects that do not exist are not made. *)
Definition mux_step (ev : mux_event) w : outcome (list obs * world) :=
  match ev with
  | ECreate local peer opts => obind (create_peer local peer opts w) (λ '(_, w), Done ([], w))
  | EDestroy i => match impls w !! i with Some _ => obind (destroy_impl i w) (λ w, Done ([], w)) | None => Done ([], w) end
  | ERecv i len =>
      match impls w !! i with
      | Some x => obind (peer_impl_recv i len w) (λ '(_, w),
          Done (match recv_queue x with front :: _ => [OTaken i front] | [] => [] end, w))
      | None => Done ([], w)
      end
  | ECatchAll id b => match muxes w !! id with Some _ => obind (set_catch_all id b w) (λ w, Done ([], w)) | None => Done ([], w) end
  | ECompletion id c =>
      match muxes w !! id with
      | Some m =>
          obind (on_completion id c w) (λ w,
          Done (match picked m, c with
                | None, Some (storage, data) =>
                    match pick (take addr_size storage) m with
                    | ToPeer i => if (0 <? length data)%nat then [ORouted i (take addr_size storage) data] else []
                    | _ => []
                    end
                | _, _ => []
                end, w))
      | None => Done ([], w)
      end
  | EDeliver id => match muxes w !! id with Some _ => obind (on_deliver id w) (λ w, Done ([], w)) | None => Done ([], w) end
  end.

Fixpoint mux_run (evs : list mux_event) (tr : list obs) w : outcome (list obs * world) :=
  match evs with
  | [] => Done (tr, w)
  | ev :: evs' => obind (mux_step ev w) (λ '(os, w), mux_run evs' (tr ++ os) w)
  end.

Definition routed (i : nat) (tr : list obs) : list bytes :=
  omap (λ o, match o with ORouted j _ data => if (j =? i)%nat then Some data else None | _ => None end) tr.
Definition taken (i : nat) (tr : list obs) : list bytes :=
  omap (λ o, match o with OTaken j data => if (j =? i)%nat then Some data else None | _ => None end) tr.

(** The datagram a thread is about to deliver to peer [i]. *)
Definition in_flight (i : nat) (p : option (target * bytes)) : list bytes :=
  match p with Some (ToPeer j, data) => if (j =? i)%nat then [data] else [] | _ => [] end.

Record ordered (tr : list obs) w : Prop := {
  ord_wf : wf no_refs w;
  ord_fresh i : (next_id w ≤ i)%nat → routed i tr = [] ∧ taken i tr = [];
  ord_pick id i data : pick_of id w = Some (ToPeer i, data) →
    (i < next_id w)%nat ∧ ∀ x, impls w !! i = Some x → mux x = id;
  ord_queue i x : impls w !! i = Some x →
    routed i tr = taken i tr ++ recv_queue x ++ in_flight i (pick_of (mux x) w);
  ord_source i x src data : impls w !! i = Some x → ORouted i src data ∈ tr → addr_key src = addr_key (peer_addr x)
}.

Definition built_event (ev : mux_event) : Prop :=
  match ev with ECreate local _ opts => Apply.built Windows opts ∧ is_Some (addr_sock local) | _ => True end.

(** Steps that touch neither queues nor picks. *)
Lemma ordered_same tr w w' :
  ordered tr w → wf no_refs w' → same_picks w w' →
  (∀ i x, impls w' !! i = Some x →
     impls w !! i = Some x ∨ (next_id w ≤ i)%nat ∧ recv_queue x = []) → ordered tr w'.
Proof.
  intros Ho Hwf (Hle & Hp & _) Himp. split.
  - done.
  - intros i Hi. apply (ord_fresh _ _ Ho). lia.
  - intros id i data. rewrite Hp. intros Hpick. destruct (ord_pick _ _ Ho _ _ _ Hpick) as [Hlt Hm]. split; [lia|].
    intros x Hx. destruct (Himp i x Hx) as [?|[? _]]; [auto|lia].
  - intros i x Hx. rewrite Hp. destruct (Himp i x Hx) as [Hx'|[Hnew Hq]]; [by apply (ord_queue _ _ Ho)|].
    destruct (ord_fresh _ _ Ho i Hnew) as [-> ->]. rewrite Hq. simpl. unfold in_flight.
    destruct (pick_of (mux x) w) as [[[j| |] data]|] eqn:Hpick; try done.
    destruct (j =? i)%nat eqn:Hji; bool_facts; [|done]. subst. destruct (ord_pick _ _ Ho _ _ _ Hpick). lia.
  - intros i x src data Hx Hin. destruct (Himp i x Hx) as [Hx'|[Hnew _]]; [by apply (ord_source _ _ Ho i x src data)|].
    assert (data ∈ routed i tr) as Hr; [|by rewrite (proj1 (ord_fresh _ _ Ho i Hnew)), elem_of_nil in Hr].
    unfold routed. apply list_elem_of_omap. exists (ORouted i src data). by rewrite Nat.eqb_refl.
Qed.

Lemma routed_app i tr os : routed i (tr ++ os) = routed i tr ++ routed i os.
Proof. apply omap_app. Qed.
Lemma taken_app i tr os : taken i (tr ++ os) = taken i tr ++ taken i os.
Proof. apply omap_app. Qed.

Lemma ordered_net tr k w : ordered tr w → ordered tr (set_net k w).
Proof.
  intros Ho. eapply ordered_same; [exact Ho|by apply wf_net, (ord_wf _ _ Ho)|done|]. intros i x Hx. by left.
Qed.

Lemma rearm_recv_spec tr id w :
  ordered tr w → is_Some (muxes w !! id) → ∃ w', rearm_recv id w = Done w' ∧ ordered tr w'.
Proof.
  intros Ho [m Hm]. unfold rearm_recv, get_mux. rewrite Hm. simpl. eexists. split; [done|].
  destruct (stop_requested_ m); [done|by apply ordered_net].
Qed.

(** A peer whose queue changes. *)
Lemma wf_put_impl i x q w :
  wf no_refs w → impls w !! i = Some x → wf no_refs (put_impl i (mk_impl (mux x) (peer_addr x) q (closed x)) w).
Proof.
  intros Hwf Hx. set (x' := mk_impl _ _ _ _).
  assert (∀ id, held id (put_impl i x' w) = held id w) as Hheld.
  { intros id. unfold held. simpl. rewrite <- insert_delete_eq, held_add by apply lookup_delete_eq.
    by rewrite (held_delete _ _ _ id Hx). }
  split; simpl.
  - apply (wf_unlocked _ _ Hwf).
  - intros id m Hm. rewrite Hheld. by apply (wf_mux _ _ Hwf).
  - apply (wf_registry _ _ Hwf).
  - intros id m k j Hm Hj. destruct (wf_peers _ _ Hwf _ _ _ _ Hm Hj) as (y & Hy & ? & ?).
    destruct (decide (i = j)) as [<-|Hne].
    + exists x'. rewrite lookup_insert_eq. by simplify_eq.
    + exists y. by rewrite lookup_insert_ne.
  - intros j y. destruct (decide (i = j)) as [<-|Hne].
    + rewrite lookup_insert_eq. intros [= <-]. by apply (wf_impls _ _ Hwf) in Hx.
    + rewrite lookup_insert_ne by done. apply (wf_impls _ _ Hwf).
Qed.

Lemma recv_ordered tr i x front q w :
  ordered tr w → impls w !! i = Some x → recv_queue x = front :: q →
  ordered (tr ++ [OTaken i front]) (put_impl i (mk_impl (mux x) (peer_addr x) q (closed x)) w).
Proof.
  intros Ho Hx Hq. pose proof (ord_wf _ _ Ho) as Hwf. destruct (wf_impls _ _ Hwf _ _ Hx) as (Hlt & _).
  split; simpl.
  - by apply wf_put_impl.
  - intros j Hj. rewrite routed_app, taken_app. destruct (ord_fresh _ _ Ho j Hj) as [-> ->]. simpl.
    assert (i =? j = false)%nat as ->; [apply Nat.eqb_neq; lia|done].
  - intros id j data Hp. destruct (ord_pick _ _ Ho _ _ _ Hp) as [? Hm]. split; [done|]. intros y.
    destruct (decide (i = j)) as [<-|Hne]; [rewrite lookup_insert_eq; intros [= <-]; exact (Hm x Hx)|].
    rewrite lookup_insert_ne by done. apply Hm.
  - intros j y. rewrite routed_app, taken_app. simpl. rewrite app_nil_r.
    destruct (decide (i = j)) as [<-|Hne].
    + rewrite lookup_insert_eq, Nat.eqb_refl. intros [= <-]. simpl. rewrite (ord_queue _ _ Ho i x Hx), Hq.
      by rewrite <- app_assoc.
    + rewrite lookup_insert_ne by done. assert (i =? j = false)%nat as -> by by apply Nat.eqb_neq.
      rewrite app_nil_r. apply (ord_queue _ _ Ho).
  - intros j y src data Hy [Hin|Hin]%elem_of_app; [|by apply list_elem_of_singleton in Hin].
    destruct (decide (i = j)) as [<-|Hne].
    + rewrite lookup_insert_eq in Hy. simplify_eq. simpl. by apply (ord_source _ _ Ho i x src data).
    + rewrite lookup_insert_ne in Hy by done. by apply (ord_source _ _ Ho j y src data).
Qed.

Lemma completion_ordered tr id m src data w :
  ordered tr w → muxes w !! id = Some m → picked m = None →
  ordered (tr ++ match pick src m with ToPeer i => [ORouted i src data] | _ => [] end)
          (put_mux id (set_picked (Some (pick src m, data)) m) w).
Proof.
  intros Ho Hm Hn. pose proof (ord_wf _ _ Ho) as Hwf. set (w' := put_mux _ _ _).
  destruct (wf_mux _ _ Hwf _ _ Hm) as (? & ? & ? & ? & ? & ?).
  assert (pick_of id w = None) as Hnone by (unfold pick_of; by rewrite Hm).
  assert (∀ id', pick_of id' w' = if (id' =? id)%nat then Some (pick src m, data) else pick_of id' w) as Hpick.
  { intros id'. unfold pick_of. simpl. destruct (id' =? id)%nat eqn:E; bool_facts; [subst; by rewrite lookup_insert_eq|].
    by rewrite lookup_insert_ne. }
  assert (∀ i, pick src m = ToPeer i → ∃ x, impls w !! i = Some x ∧ mux x = id ∧ addr_key (peer_addr x) = addr_key src) as Hreg.
  { intros i. unfold pick. destruct (peers_ m !! addr_key src) as [j|] eqn:Hj; [|by destruct (catch_all_ m)].
    intros [= <-]. by apply (wf_peers _ _ Hwf _ _ _ _ Hm). }
  assert (∀ i, taken i (match pick src m with ToPeer j => [ORouted j src data] | _ => [] end) = []) as Htk
    by (intros i; by destruct (pick src m)).
  split.
  - eapply wf_put_mux; [exact Hwf|exact Hm|done..|]. intros k i. apply (wf_peers _ _ Hwf _ _ _ _ Hm).
  - intros i Hi. rewrite routed_app, taken_app, Htk. destruct (ord_fresh _ _ Ho i Hi) as [-> ->]. split; [|done].
    destruct (pick src m) as [j| |] eqn:Hp; [|done..]. destruct (Hreg j eq_refl) as (x & Hx & _).
    apply (wf_impls _ _ Hwf) in Hx as [? _]. simpl. simpl in Hi. by rewrite (proj2 (Nat.eqb_neq j i)) by lia.
  - intros id' i d. rewrite Hpick. destruct (id' =? id)%nat eqn:E; bool_facts; [|apply (ord_pick _ _ Ho)].
    intros [= Hp _]. subst. destruct (Hreg i Hp) as (x & Hx & Hmx & _). split; [by apply (wf_impls _ _ Hwf) in Hx as [? _]|].
    intros y Hy. simpl in Hy. congruence.
  - intros i x Hx. simpl in Hx. rewrite routed_app, taken_app, Htk, app_nil_r, Hpick, (ord_queue _ _ Ho i x Hx).
    rewrite <- !app_assoc. f_equal. f_equal. destruct (mux x =? id)%nat eqn:E; bool_facts.
    + rewrite E, Hnone. simpl. destruct (pick src m) as [j| |]; simpl; [|done..]. by destruct (j =? i)%nat.
    + destruct (pick src m) as [j| |] eqn:Hp; simpl; [|by rewrite app_nil_r..].
      destruct (Hreg j eq_refl) as (y & Hy & Hmy & _).
      assert (j ≠ i) as Hji by congruence. apply Nat.eqb_neq in Hji as ->. by rewrite app_nil_r.
  - intros i x s d Hx [Hin|Hin]%elem_of_app; [by apply (ord_source _ _ Ho i x s d)|].
    destruct (pick src m) as [j| |] eqn:Hp; [|by apply elem_of_nil in Hin..]. apply list_elem_of_singleton in Hin.
    simplify_eq. destruct (Hreg j eq_refl) as (y & Hy & _ & Hk). simpl in Hx. simplify_eq. done.
Qed.

(** The thread calls the callback of a peer that still exists. *)
Lemma deliver_ordered tr id m i x data w :
  ordered tr w → muxes w !! id = Some m → picked m = Some (ToPeer i, data) → impls w !! i = Some x →
  ordered tr (put_impl i (mk_impl (mux x) (peer_addr x) (recv_queue x ++ [data]) (closed x))
                (put_mux id (set_picked None m) w)).
Proof.
  intros Ho Hm Hp Hx. pose proof (ord_wf _ _ Ho) as Hwf.
  destruct (wf_mux _ _ Hwf _ _ Hm) as (? & ? & ? & ? & ? & ?).
  assert (pick_of id w = Some (ToPeer i, data)) as Hpick by (unfold pick_of; by rewrite Hm).
  assert (mux x = id) as Hmx by by apply (ord_pick _ _ Ho _ _ _ Hpick).
  set (w' := put_impl _ _ _).
  assert (∀ id', pick_of id' w' = if (id' =? id)%nat then None else pick_of id' w) as Hpick'.
  { intros id'. unfold pick_of. simpl. destruct (id' =? id)%nat eqn:E; bool_facts; [subst; by rewrite lookup_insert_eq|].
    by rewrite lookup_insert_ne. }
  split.
  - apply (wf_put_impl i x _ (put_mux id (set_picked None m) w)); [|done].
    eapply wf_put_mux; [exact Hwf|exact Hm|done..|]. intros k j. apply (wf_peers _ _ Hwf _ _ _ _ Hm).
  - intros j Hj. by apply (ord_fresh _ _ Ho).
  - intros id' j d. rewrite Hpick'. destruct (id' =? id)%nat; [done|]. intros Hp'.
    destruct (ord_pick _ _ Ho _ _ _ Hp') as [? Hmj]. split; [done|]. intros y. simpl.
    destruct (decide (i = j)) as [<-|Hne]; [rewrite lookup_insert_eq; intros [= <-]; exact (Hmj x Hx)|].
    rewrite lookup_insert_ne by done. apply Hmj.
  - intros j y. simpl. rewrite Hpick'. destruct (decide (i = j)) as [<-|Hne].
    + rewrite lookup_insert_eq. intros [= <-]. simpl. rewrite Hmx, Nat.eqb_refl, (ord_queue _ _ Ho i x Hx), Hmx, Hpick.
      simpl. by rewrite Nat.eqb_refl, app_nil_r.
    + rewrite lookup_insert_ne by done. intros Hy. rewrite (ord_queue _ _ Ho j y Hy). f_equal. f_equal.
      destruct (mux y =? id)%nat eqn:E; bool_facts; [|done]. rewrite E, Hpick. simpl.
      by apply Nat.eqb_neq in Hne as ->.
  - intros j y src d. simpl. destruct (decide (i = j)) as [<-|Hne].
    + rewrite lookup_insert_eq. intros [= <-]. simpl. by apply (ord_source _ _ Ho i x src d).
    + rewrite lookup_insert_ne by done. apply (ord_source _ _ Ho).
Qed.

(** The thread calls nobody, or the catch-all. *)
Lemma unpick_ordered tr id m t data w :
  ordered tr w → muxes w !! id = Some m → picked m = Some (t, data) → (∀ i, t ≠ ToPeer i) →
  ordered tr (put_mux id (set_picked None m) w).
Proof.
  intros Ho Hm Hp Ht. pose proof (ord_wf _ _ Ho) as Hwf.
  destruct (wf_mux _ _ Hwf _ _ Hm) as (? & ? & ? & ? & ? & ?).
  assert (∀ id' i d, pick_of id' (put_mux id (set_picked None m) w) = Some (ToPeer i, d) ↔
                     pick_of id' w = Some (ToPeer i, d)) as Hpick.
  { intros id' i d. unfold pick_of. simpl. destruct (decide (id = id')) as [<-|Hne]; [|by rewrite lookup_insert_ne].
    rewrite lookup_insert_eq, Hm. simpl. rewrite Hp. split; [done|]. intros [= -> _]. by destruct (Ht i). }
  split.
  - eapply wf_put_mux; [exact Hwf|exact Hm|done..|]. intros k j. apply (wf_peers _ _ Hwf _ _ _ _ Hm).
  - intros j Hj. by apply (ord_fresh _ _ Ho).
  - intros id' i d. rewrite Hpick. apply (ord_pick _ _ Ho).
  - intros i x Hx. rewrite (ord_queue _ _ Ho i x Hx). f_equal. f_equal. unfold in_flight.
    specialize (Hpick (mux x)). destruct (pick_of (mux x) w) as [[[j| |] d]|] eqn:E1;
      destruct (pick_of (mux x) (put_mux id (set_picked None m) w)) as [[[j'| |] d']|] eqn:E2; try done.
    + assert (Some (ToPeer j', d') = Some (ToPeer j, d)) as [= -> ->]; [|done]. symmetry. by apply Hpick.
    + assert (Some (ToCatchAll src, d') = Some (ToPeer j, d)) by (by apply Hpick). done.
    + assert (Some (Nobody, d') = Some (ToPeer j, d)) by (by apply Hpick). done.
    + assert (None = Some (ToPeer j, d)) by (by apply Hpick). done.
    + assert (Some (ToCatchAll src, d) = Some (ToPeer j', d')) by (by apply Hpick). done.
    + assert (Some (Nobody, d) = Some (ToPeer j', d')) by (by apply Hpick). done.
    + assert (None = Some (ToPeer j', d')) by (by apply Hpick). done.
  - apply (ord_source _ _ Ho).
Qed.

Lemma mux_step_ordered tr ev w os w' :
  ordered tr w → built_event ev → mux_step ev w = Done (os, w') → ordered (tr ++ os) w'.
Proof.
  intros Ho Hb. pose proof (ord_wf _ _ Ho) as Hwf. destruct ev as [local peer opts|i|i len|id b|id c|id]; simpl.
  - destruct Hb as [Hb Hsa].
    destruct (create_peer_spec local peer opts w Hwf Hb Hsa) as [[_ ->]|(r & w1 & -> & Hwf1 & Hp & _ & Hres)]; [done|].
    intros [= <- <-]. rewrite app_nil_r. eapply ordered_same; [exact Ho|done|done|]. intros i x Hx.
    destruct r as [j|e]; [|left; congruence]. destruct Hres as (Hle & _ & id & Himp). rewrite Himp in Hx.
    apply lookup_insert_Some in Hx as [[-> <-]|[_ Hx]]; [by right|by left].
  - destruct (impls w !! i) as [x|] eqn:Hx; [|intros [= <- <-]; by rewrite app_nil_r].
    destruct (destroy_impl_spec i x w Hwf Hx) as (m & n & w1 & _ & -> & Hwf1 & Himp & _ & Hp & _).
    intros [= <- <-]. rewrite app_nil_r. eapply ordered_same; [exact Ho|done|done|]. intros j y Hy. left.
    rewrite Himp in Hy. by apply lookup_delete_Some in Hy as [_ ?].
  - destruct (impls w !! i) as [x|] eqn:Hx; [|intros [= <- <-]; by rewrite app_nil_r].
    unfold peer_impl_recv. rewrite Hx. destruct (recv_queue x) as [|front q] eqn:Hq; simpl; intros [= <- <-].
    + by rewrite app_nil_r.
    + by apply recv_ordered.
  - destruct (muxes w !! id) as [m|] eqn:Hm; [|intros [= <- <-]; by rewrite app_nil_r].
    unfold set_catch_all, get_mux. rewrite Hm. simpl. intros [= <- <-]. rewrite app_nil_r.
    destruct (wf_mux _ _ Hwf _ _ Hm) as (? & ? & ? & ? & ? & ?).
    eapply ordered_same; [exact Ho| |by apply same_picks_put with m|intros; by left].
    eapply wf_put_mux; [exact Hwf|exact Hm|done..|]. intros k i. apply (wf_peers _ _ Hwf _ _ _ _ Hm).
  - destruct (muxes w !! id) as [m|] eqn:Hm; [|intros [= <- <-]; by rewrite app_nil_r].
    unfold on_completion, get_mux. rewrite Hm. simpl. destruct (picked m) as [p|] eqn:Hp.
    { intros [= <- <-]. by rewrite app_nil_r. }
    assert (∀ os', (match rearm_recv id w with Done w0 => Done ([], w0) | Hang => Hang | Undefined => Undefined end)
              = Done (os', w') → ordered (tr ++ os') w') as Hre.
    { intros os'. destruct (rearm_recv_spec tr id w Ho ltac:(by rewrite Hm)) as (w1 & -> & Ho1).
      intros [= <- <-]. by rewrite app_nil_r. }
    destruct c as [[storage data]|]; [|exact (Hre os)]. destruct (0 <? length data)%nat; simpl.
    + intros [= <- <-]. by apply completion_ordered.
    + intros E. apply Hre. rewrite <- E. unfold obind. by destruct (rearm_recv id w), (pick _ m).
  - destruct (muxes w !! id) as [m|] eqn:Hm; [|intros [= <- <-]; by rewrite app_nil_r].
    unfold on_deliver, get_mux. rewrite Hm. simpl. destruct (picked m) as [[t data]|] eqn:Hp.
    2:{ intros [= <- <-]. by rewrite app_nil_r. }
    assert (∀ w1, ordered tr w1 → is_Some (muxes w1 !! id) →
              obind (rearm_recv id w1) (λ w0, Done ([], w0)) = Done (os, w') → ordered (tr ++ os) w') as Hre.
    { intros w1 Ho1 Hm1. destruct (rearm_recv_spec tr id w1 Ho1 Hm1) as (w2 & -> & Ho2).
      intros [= <- <-]. by rewrite app_nil_r. }
    destruct t as [i| |]; simpl.
    + destruct (impls w !! i) as [x|] eqn:Hx; [|done].
      apply Hre; [by apply (deliver_ordered tr id m i x data w)|simpl; by rewrite lookup_insert_eq].
    + apply Hre; [by eapply unpick_ordered; [exact Ho|exact Hm|exact Hp|]|simpl; by rewrite lookup_insert_eq].
    + apply Hre; [by eapply unpick_ordered; [exact Ho|exact Hm|exact Hp|]|simpl; by rewrite lookup_insert_eq].
Qed.

Definition world_init (k : K) : world := mk_world false ∅ ∅ ∅ 0 k.

Lemma init_ordered k : ordered [] (world_init k).
Proof. split; [split|..]; try done; intros ?; unfold pick_of; done. Qed.

Lemma mux_run_ordered evs tr w tr' w' :
  ordered tr w → Forall built_event evs → mux_run evs tr w = Done (tr', w') → ordered tr' w'.
Proof.
  revert tr w. induction evs as [|ev evs IH]; intros tr w Ho Hf; cbn [mux_run]; [by intros [= <- <-]|].
  apply Forall_cons in Hf as [Hb Hf]. destruct (mux_step ev w) as [[os w1]| |] eqn:Es; cbn [obind]; [|done..].
  apply IH; [|done]. by eapply mux_step_ordered.
Qed.


Lemma rearm_recv_muxes id w w' : rearm_recv id w = Done w' → muxes w' = muxes w.
Proof.
  unfold rearm_recv. destruct (get_mux id w); simpl; [|done..]. intros [= <-]. by destruct (stop_requested_ _).
Qed.

Lemma mux_step_keeps tr ev w os w' id :
  ordered tr w → built_event ev → mux_step ev w = Done (os, w') → is_Some (muxes w !! id) → is_Some (muxes w' !! id).
Proof.
  intros Ho Hb Hs Hid. pose proof (ord_wf _ _ Ho) as Hwf.
  assert (∀ id' m, is_Some (<[id' := m]> (muxes w) !! id)) as Hins.
  { intros id' m. rewrite lookup_insert_is_Some. destruct (decide (id' = id)); auto. }
  destruct ev as [local peer opts|i|i len|id' b|id' c|id']; simpl in Hs.
  - destruct Hb as [Hb Hsa]. destruct (create_peer_spec local peer opts w Hwf Hb Hsa)
      as [[_ E]|(r & w1 & E & _ & (_ & _ & Hk) & _)]; rewrite E in Hs; simplify_eq/=. auto.
  - destruct (impls w !! i) as [x|] eqn:Hx; [|by simplify_eq].
    destruct (destroy_impl_spec i x w Hwf Hx) as (m & n & w1 & _ & E & _ & _ & _ & (_ & _ & Hk) & _).
    rewrite E in Hs. simplify_eq/=. auto.
  - destruct (impls w !! i) as [x|] eqn:Hx; [|by simplify_eq]. unfold peer_impl_recv in Hs. rewrite Hx in Hs.
    by destruct (recv_queue x); simplify_eq/=.
  - destruct (muxes w !! id') as [m|] eqn:Hm; [|by simplify_eq].
    unfold set_catch_all, get_mux in Hs. rewrite Hm in Hs. simplify_eq/=. apply Hins.
  - destruct (muxes w !! id') as [m|] eqn:Hm; [|by simplify_eq].
    unfold on_completion, get_mux in Hs. rewrite Hm in Hs. simpl in Hs.
    destruct (picked m); [by simplify_eq/=|].
    assert (∀ w1, rearm_recv id' w = Done w1 → is_Some (muxes w1 !! id)) as Hre
      by (intros w1 ->%rearm_recv_muxes; done).
    destruct c as [[storage data]|]; [destruct (0 <? length data)%nat|].
    + simplify_eq/=. apply Hins.
    + destruct (rearm_recv id' w); simplify_eq/=; auto.
    + destruct (rearm_recv id' w); simplify_eq/=; auto.
  - destruct (muxes w !! id') as [m|] eqn:Hm; [|by simplify_eq].
    unfold on_deliver, get_mux in Hs. rewrite Hm in Hs. simpl in Hs.
    destruct (picked m) as [[t data]|]; [|by simplify_eq/=].
    assert (∀ w0 w1, muxes w0 = <[id' := set_picked None m]> (muxes w) → rearm_recv id' w0 = Done w1 →
              is_Some (muxes w1 !! id)) as Hre
      by (intros w0 w1 Hw0 ->%rearm_recv_muxes; rewrite Hw0; apply Hins).
    destruct t as [i| |]; [destruct (impls w !! i) as [x|]|..]; try (simpl in Hs; done).
    + destruct (rearm_recv _ _) as [w1| |] eqn:E; simplify_eq/=. by eapply Hre; [|exact E].
    + destruct (rearm_recv _ _) as [w1| |] eqn:E; simplify_eq/=. by eapply Hre; [|exact E].
    + destruct (rearm_recv _ _) as [w1| |] eqn:E; simplify_eq/=. by eapply Hre; [|exact E].
Qed.

Lemma mux_run_keeps evs tr w tr' w' id :
  ordered tr w → Forall built_event evs → mux_run evs tr w = Done (tr', w') →
  is_Some (muxes w !! id) → is_Some (muxes w' !! id).
Proof.
  revert tr w. induction evs as [|ev evs IH]; intros tr w Ho Hf; cbn [mux_run]; [by intros [= <- <-]|].
  apply Forall_cons in Hf as [Hb Hf]. destruct (mux_step ev w) as [[os w1]| |] eqn:Es; cbn [obind]; [|done..].
  intros Hr Hid. eapply IH; [|done|exact Hr|]; [by eapply mux_step_ordered|by eapply mux_step_keeps].
Qed.

(** A multiplexer outlives its peers for ever.  Its thread runs a closure
    that holds a shared pointer to it and ends only when the destructor asks it
    to: once created, whatever is done later, and also when its last peer has
    been destroyed, the object exists with its thread running and its socket
    open, so that the local address stays bound for the life of the process. *)
Theorem mux_never_destroyed k evs1 evs2 tr1 w1 tr2 w2 id :
  Forall built_event (evs1 ++ evs2) →
  mux_run evs1 [] (world_init k) = Done (tr1, w1) → is_Some (muxes w1 !! id) →
  mux_run evs2 tr1 w1 = Done (tr2, w2) →
  ∃ m, muxes w2 !! id = Some m ∧ poll_thread_ m = true ∧ stop_requested_ m = false ∧
       is_open (socket_ m) = true ∧ (1 ≤ refs m)%nat ∧ registry_ w2 !! addr_key (local_addr_ m) = Some id.
Proof.
  intros [Hf1 Hf2]%Forall_app Hr1 Hid Hr2. pose proof (mux_run_ordered _ _ _ _ _ (init_ordered k) Hf1 Hr1) as Ho1.
  destruct (mux_run_keeps _ _ _ _ _ id Ho1 Hf2 Hr2 Hid) as [m Hm].
  pose proof (ord_wf _ _ (mux_run_ordered _ _ _ _ _ Ho1 Hf2 Hr2)) as Hwf.
  destruct (wf_mux _ _ Hwf _ _ Hm) as (? & ? & ? & ? & Hr & ?). exists m. split_and!; try done. lia.
Qed.

(** A peer may be destroyed under the multiplexer's thread.  [dispatch]
    copies the callback under the lock and calls it outside; when the peer is
    destroyed in between, which its destructor neither waits for nor prevents,
    the call goes through a pointer to the destroyed object. *)
Theorem destroyed_peer_called tr w id m i x data :
  wf no_refs w → muxes w !! id = Some m → picked m = Some (ToPeer i, data) → impls w !! i = Some x →
  (∃ w', mux_step (EDestroy i) w = Done ([], w')) ∧ mux_run [EDestroy i; EDeliver id] tr w = Undefined.
Proof.
  intros Hwf Hm Hp Hx. destruct (destroy_impl_spec i x w Hwf Hx) as (mx & n & w1 & Hmx & E & _ & Himp & Hmm & Hsp & _).
  destruct Hsp as (_ & Hpick & Hkeep). destruct (Hkeep id ltac:(by rewrite Hm)) as [m1 Hm1].
  assert (picked m1 = Some (ToPeer i, data)) as Hp1.
  { specialize (Hpick id). unfold pick_of in Hpick. rewrite Hm1, Hm in Hpick. simpl in Hpick. congruence. }
  cbn [mux_run mux_step]. rewrite Hx, E. cbn [obind]. split; [by eexists|].
  rewrite Hm1. unfold on_deliver, get_mux. rewrite Hm1. cbn [obind]. rewrite Hp1. simpl.
  by rewrite Himp, lookup_delete_eq.
Qed.
End Mux.

(** The two address classes. *)
Definition udp4_mux_peer_create {K} `{SocketKernel K} `{PortKernel K} (local peer : bytes) (opts : socket_options)
    (w : world (Key := Z * Z) (K := K)) : outcome (result nat * world) := create_peer local peer opts w.
Definition udp6_mux_peer_create {K} `{SocketKernel K} `{PortKernel K} (local peer : bytes) (opts : socket_options)
    (w : world (Key := bytes * Z * Z) (K := K)) : outcome (result nat * world) := create_peer local peer opts w.
Definition udp6_mux_peer_recv {K} (i len : nat) (w : world (Key := bytes * Z * Z) (K := K)) :
    outcome (option (result bytes) * world) := peer_impl_recv i len w.
Definition udp6_mux_peer_destroy {K} `{SocketKernel K} `{PortKernel K} (i : nat)
    (w : world (Key := bytes * Z * Z) (K := K)) : outcome world := destroy_impl i w.

(** ** Witnesses *)

#[export] Instance demo_port_kernel : PortKernel (gset Z) := {|
  port_create k := (true, k); port_associate _ k := (true, k); port_recv _ k := k;
  port_cancel _ k := k; port_post_stop k := k; port_close k := k
|}.

#[export] Instance demo_port_laws : PortLaws demo_kernel demo_port_kernel.
Proof. by split. Qed.

Lemma default_built o : Apply.built o options_default.
Proof. exists []. split; [constructor|reflexivity]. Qed.

Definition demo_local : bytes := inet4_of Windows 0x7f000001 4000.
Definition demo_peer : bytes := inet4_of Windows 0x7f000001 5000.

Lemma demo_local_sock : is_Some (to_sock4 demo_local).
Proof. eexists. reflexivity. Qed.
Lemma demo_peer_sock : is_Some (to_sock4 demo_peer).
Proof. eexists. reflexivity. Qed.

(** A peer with one datagram taken, one in its queue and one picked. *)
Definition demo_events : list mux_event :=
  [ECreate demo_local demo_peer options_default; ECompletion 0 (Some (demo_peer, [1; 2])); EDeliver 0; ERecv 1 9;
   ECompletion 0 (Some (demo_peer, [3])); EDeliver 0; ECompletion 0 (Some (demo_local, [7])); EDeliver 0;
   ECompletion 0 (Some (demo_peer, [4; 5]))].

Lemma demo_events_built : Forall (built_event (AC := addr4)) demo_events.
Proof. repeat constructor; [apply default_built|eexists; reflexivity]. Qed.

Definition from_done {T} (d : T) (m : outcome T) : T := match m with Done x => x | _ => d end.

Definition demo_world : list obs * world (Key := Z * Z) (K := gset Z) :=
  from_done ([], world_init ∅) (mux_run demo_events [] (world_init ∅)).

Lemma demo_run : mux_run demo_events [] (world_init ∅) = Done (demo_world.1, demo_world.2).
Proof. vm_compute. reflexivity. Qed.


Lemma mux_never_destroyed_witness :
  ∃ m, muxes (from_done demo_world (mux_run [EDeliver 0; EDestroy 1] demo_world.1 demo_world.2)).2 !! 0%nat = Some m ∧
       poll_thread_ m = true ∧ is_open (socket_ m) = true.
Proof.
  destruct (mux_never_destroyed ∅ demo_events [EDeliver 0; EDestroy 1] demo_world.1 demo_world.2
    (from_done demo_world (mux_run [EDeliver 0; EDestroy 1] demo_world.1 demo_world.2)).1
    (from_done demo_world (mux_run [EDeliver 0; EDestroy 1] demo_world.1 demo_world.2)).2 0)
    as (m & H1 & H2 & _ & H3 & _).
  - apply Forall_app. split; [apply demo_events_built|repeat constructor].
  - exact demo_run.
  - vm_compute. eexists. reflexivity.
  - vm_compute. reflexivity.
  - exists m. split; [exact H1|]. split; [exact H2|exact H3].
Defined.

Lemma demo_world_wf : wf no_refs demo_world.2.
Proof.
  eapply ord_wf, mux_run_ordered; [apply init_ordered|apply demo_events_built|apply demo_run].
Qed.

Definition demo_mux : udp_mux (Key := Z * Z) :=
  default new_mux (muxes demo_world.2 !! 0%nat).

Lemma destroyed_peer_called_witness :
  mux_run [EDestroy 1; EDeliver 0] demo_world.1 demo_world.2 = Undefined.
Proof.
  apply (destroyed_peer_called demo_world.1 demo_world.2 0 demo_mux 1 (mk_impl 0 demo_peer [[3]] false) [4; 5]);
    [apply demo_world_wf|vm_compute; reflexivity..].
Defined.

Lemma failed_peer_evicts_witness :
  pick demo_peer demo_mux = ToPeer 1 ∧
  ∃ w', create_peer demo_local demo_peer options_default demo_world.2 = Done (err_of already_bound, w').
Proof.
  destruct (failed_peer_evicts demo_local demo_peer demo_peer options_default demo_world.2 0 demo_mux 1)
    as [H1 (w' & m' & H2 & _)];
    [apply demo_world_wf|apply default_built|eexists; reflexivity|vm_compute; reflexivity..|].
  split; [exact H1|]. exists w'. exact H2.
Defined.

(** A network on which nothing can be bound. *)
Definition refusing : SocketKernel (gset Z) := {|
  open_fds := id;
  sys_socket := @sys_socket _ demo_kernel; sys_accept := @sys_accept _ demo_kernel;
  sys_close := @sys_close _ demo_kernel;
  sys_call c _ k := (match c with CBind _ => Some 10048 | _ => None end, k);
  sys_getfl := @sys_getfl _ demo_kernel; sys_name := @sys_name _ demo_kernel;
  sys_getsockopt := @sys_getsockopt _ demo_kernel; sys_so_error := @sys_so_error _ demo_kernel;
  deregister := @deregister _ demo_kernel
|}.

#[export] Instance refusing_laws : SocketKernelLaws refusing.
Proof.
  pose proof demo_kernel_laws as []. split; try done. intros c fd k. split; [done|]. intros e He.
  by destruct c; simplify_eq/=.
Qed.

#[export] Instance refusing_port : PortLaws refusing demo_port_kernel.
Proof. by split. Qed.

Lemma mux_failure_hangs_witness :
  create_peer (AC := addr4) (H := refusing) demo_local demo_peer options_default (world_init ∅) = Hang.
Proof.
  apply (proj2 (mux_failure_hangs (AC := addr4) (H := refusing) demo_local demo_peer options_default (world_init ∅)
    (ord_wf _ _ (init_ordered ∅)) (default_built Windows) demo_local_sock) eq_refl).
  intros sa fd k. eexists. reflexivity.
Defined.

Lemma peer_create_balanced_witness :
  triple (holds (K := gset Z) ∅) (peer_create (H := demo_kernel) Linux ipv4 to_sock4 demo_local demo_peer options_default)
    (λ r k, match r with Val p => peer_is_open p = true | Err e => ec_bool e = true end).
Proof.
  intros k Hk.
  destruct (peer_create_balanced Linux ipv4 to_sock4 demo_local demo_peer options_default ∅ (default_built Linux)
    demo_local_sock demo_peer_sock k Hk) as (r & k' & H1 & H2).
  exists r, k'. split; [exact H1|]. destruct r; apply H2.
Defined.
