(* ===== verification/StreamClient.v ===== *)
(** * The client side of a stream

    The connecting mode of [stream_impl] of [src/src/high/stream.cpp]: the
    factories, [arm_connect] with the handler it gives to [connect_async], the
    tasks it submits to the pool, and the destruction of the stream, composed
    with the asynchronous connection of [Socket].

    [client] is the state of a connecting stream; what is posted to its loop and
    submitted to the pool waits in lists, and [exec_ev] runs one step of the loop,
    of the pool or of the user.  Pool tasks run in any order. *)

From S2P Require Import Prelude Platform Dispatcher EventLoop Address Options Socket Transfer UdpMux.

Local Open Scope Z_scope.

(** The members of a dispatcher that can hold the state of an attempt: the timers
    and the callbacks of the sockets. *)
Inductive member := MTimers | MCallbacks.
#[export] Instance member_eq_dec : EqDecision member.
Proof. solve_decision. Defined.

(** [timer_callbacks_] is declared after [callbacks_] in all three back ends, and
    members are destroyed in the reverse order. *)
Definition destroyed_in_order : list member := [MTimers; MCallbacks].

Section Client.
Context {K : Type} `{SK : SocketKernel K} {CB : Type} {D : Dispatcher CB}.
Context {Key : Type} {AC : AddrClass Key}.
Context (o : os) (addr_default : bytes).
(** the callbacks of the attempt and of the connection *)
Context (attempt_cb conn_cb : CB).

Abbreviation env := (@disp CB D * K)%type.

(** [do_listen]: the listener is opened; without one nothing is started. *)
Definition do_listen (addr : bytes) (backlog : Z) (opts : socket_options) (l : listener_base) :
    M K (result_void * listener_base) :=
  with_sock (addr_sock addr) (λ sa, listener_open o addr_af sa backlog opts l).

(** The connection: [on_close_] may be set, and may be the stream's. *)
Record cconn := mk_cconn {
  cc_sock : sock; cc_peer : bytes; cc_local : bytes;
  cc_closed : bool; cc_on_close : bool; cc_hooked : bool
}.

(** Lambdas posted to the loop, tasks of the pool, calls of the user's handlers. *)
Inductive cpost := PConnect | PStart | PClose.
Inductive ctask := TConnect | THook | TError (ec : error_code) | TClose.
Inductive ucall := UConnect | UError (ec : error_code).

Record client := mk_client {
  connect_addr : bytes; copts : socket_options;
  c_armed : bool;
  on_connect_set : bool; on_error_set : bool;
  c_posted : list cpost;
  c_attempt : option (@attempt CB D);
  client_conn : option cconn;
  connected_flag : bool;
  c_tasks : list ctask;
  c_called : list ucall
}.

Definition set_queues (ps : list cpost) (ts : list ctask) (c : client) : client :=
  mk_client (connect_addr c) (copts c) (c_armed c) (on_connect_set c) (on_error_set c) ps (c_attempt c)
    (client_conn c) (connected_flag c) ts (c_called c).
Definition set_conn (cc : option cconn) (flag : bool) (c : client) : client :=
  mk_client (connect_addr c) (copts c) (c_armed c) (on_connect_set c) (on_error_set c) (c_posted c) (c_attempt c)
    cc flag (c_tasks c) (c_called c).
Definition set_attempt (a : attempt) (c : client) : client :=
  mk_client (connect_addr c) (copts c) (c_armed c) (on_connect_set c) (on_error_set c) (c_posted c) (Some a)
    (client_conn c) (connected_flag c) (c_tasks c) (c_called c).
Definition log (u : list ucall) (c : client) : client :=
  mk_client (connect_addr c) (copts c) (c_armed c) (on_connect_set c) (on_error_set c) (c_posted c) (c_attempt c)
    (client_conn c) (connected_flag c) (c_tasks c) (c_called c ++ u).
Definition cpost_ (p : cpost) (c : client) : client := set_queues (c_posted c ++ [p]) (c_tasks c) c.
Definition csubmit (t : ctask) (c : client) : client := set_queues (c_posted c) (c_tasks c ++ [t]) c.

(** [do_connect]: the pool, the queue and the loop are made; nothing connects. *)
Definition do_connect (addr : bytes) (opts : socket_options) : result client :=
  Val (mk_client addr opts false false false [] None None false [] []).

Definition arm_connect (c : client) : client :=
  if c_armed c then c
  else
    cpost_ PConnect
      (mk_client (connect_addr c) (copts c) true (on_connect_set c) (on_error_set c) (c_posted c) (c_attempt c)
         (client_conn c) (connected_flag c) (c_tasks c) (c_called c)).

(** [stream4::on_connect], in connecting mode, and [on_error]. *)
Definition on_connect (handler : bool) (c : client) : client :=
  arm_connect
    (mk_client (connect_addr c) (copts c) (c_armed c) handler (on_error_set c) (c_posted c) (c_attempt c)
       (client_conn c) (connected_flag c) (c_tasks c) (c_called c)).
Definition on_error (handler : bool) (c : client) : client :=
  mk_client (connect_addr c) (copts c) (c_armed c) (on_connect_set c) handler (c_posted c) (c_attempt c)
    (client_conn c) (connected_flag c) (c_tasks c) (c_called c).

(** [peer_addr] or [local_addr] of the new socket; the default on failure. *)
Definition address_or_default (r : result sock_address) : bytes :=
  match r with Val a => typed_addr addr_size a | Err _ => addr_default end.

(** The handler given to [connect_async]. *)
Definition connect_handler (sock_r : result sock) (c : client) : M K client :=
  match sock_r with
  | Err ec => ret (if on_error_set c then csubmit (TError ec) c else c)
  | Val s =>
      let* _ := set_non_blocking o true s in
      let* peer_r := peer_address o s in
      let* local_r := local_address o s in
      let c := set_conn (Some (mk_cconn s (address_or_default peer_r) (address_or_default local_r) false false false))
                 true c in
      ret (if on_connect_set c then csubmit TConnect c else cpost_ PStart c)
  end.

(** The calls of the handler an attempt has made since it had made [n]. *)
Fixpoint handle_all (rs : list (result sock)) (c : client) : M K client :=
  match rs with
  | [] => ret c
  | r :: rs' => let* c := connect_handler r c in handle_all rs' c
  end.

Definition attempt_disp (a : attempt) (d : disp) : disp :=
  match a with Waiting _ st => cs_disp st | Immediate _ => d end.

(** The lambda posted by [arm_connect]; [timer_id] is the timer's. *)
Definition run_connect (timer_id : Z) (c : client) : M env client :=
  with_sock (addr_sock (connect_addr c)) (λ sa,
    λ '(d, k),
      match connect_async attempt_cb o addr_af sa (copts c) timer_id d k with
      | None => None
      | Some (a, k) =>
          match handle_all (callbacks a) (set_attempt a c) k with
          | None => None
          | Some (c, k) => Some (c, (attempt_disp a d, k))
          end
      end).

(** A timeout or a writable event of the attempt. *)
Definition attempt_event (ev : connect_event) (c : client) : M env client :=
  match c_attempt c with
  | Some (Waiting fd st) =>
      λ '(d, k),
        let st := mk_connect_state (cs_sock st) (cs_timer st) (completed st) d (cs_cancelled st) (cs_calls st) in
        match (match ev with ETimeout => on_timeout | EWritable => on_writable end) o fd st k with
        | None => None
        | Some (st', k) =>
            match handle_all (drop (length (cs_calls st)) (cs_calls st')) (set_attempt (Waiting fd st') c) k with
            | None => None
            | Some (c, k) => Some (c, (cs_disp st', k))
            end
        end
  | _ => ret c
  end.

(** [initiate_close] of the connection. *)
Definition client_close (c : client) : M env client :=
  match client_conn c with
  | None => ret c
  | Some cc =>
      if cc_closed cc then ret c
      else
        let* _ := lift (λ '(d, k), let '(r, d) := d_remove (handle_ (cc_sock cc)) d in (r, (d, k))) in
        let* (_, s) := on_net (close o (cc_sock cc)) in
        let c := set_conn (Some (mk_cconn s (cc_peer cc) (cc_local cc) true (cc_on_close cc) (cc_hooked cc)))
                   (connected_flag c) c in
        ret (if cc_on_close cc then csubmit TClose c else c)
  end.

(** The lambda of [start_reading], without the interest of queued data, which
    [Connection] models. *)
Definition client_start (c : client) : M env client :=
  match client_conn c with
  | None => ret c
  | Some cc =>
      let* _ := lift (λ '(d, k), let '(r, d) := d_add (handle_ (cc_sock cc)) ev_readable conn_cb d in (r, (d, k))) in
      ret c
  end.

(** A task of the pool; [TConnect] is the call of [on_connect_cb], [THook] what
    follows its return. *)
Definition run_ctask (t : ctask) (c : client) : client :=
  match t with
  | TConnect => csubmit THook (log [UConnect] c)
  | THook =>
      match client_conn c with
      | None => c
      | Some cc =>
          cpost_ PStart
            (set_conn (Some (mk_cconn (cc_sock cc) (cc_peer cc) (cc_local cc) (cc_closed cc) true true))
               (connected_flag c) c)
      end
  | TError ec => log [UError ec] c
  | TClose =>
      match client_conn c with
      | None => c
      | Some cc => if cc_hooked cc then set_conn (Some cc) false c else c
      end
  end.

(** What the user does with the connection: [on_close], [close]. *)
Definition user_on_close (c : client) : client :=
  match client_conn c with
  | None => c
  | Some cc =>
      set_conn (Some (mk_cconn (cc_sock cc) (cc_peer cc) (cc_local cc) (cc_closed cc) true false)) (connected_flag c) c
  end.
Definition user_close (c : client) : client :=
  match client_conn c with
  | None => c
  | Some cc => if cc_closed cc then c else cpost_ PClose c
  end.

(** [do_local_addr], of a listener or of a client. *)
Definition do_local_addr (m : listener_base + client) : M K bytes :=
  match m with
  | inl l => let* r := local_address o (lb_socket l) in ret (address_or_default r)
  | inr c => ret (match client_conn c with Some cc => cc_local cc | None => addr_default end)
  end.

Inductive ev :=
| ELoop (timer_id : Z)          (** the loop runs the next lambda *)
| EAttempt (e : connect_event)
| EIo                           (** an event that closes the connection *)
| EPool (i : nat)               (** a worker runs the [i]th task *)
| EOnConnect                    (** the user calls [on_connect] again *)
| EOnClose
| EClose.

Definition exec_ev (e : ev) (c : client) : M env client :=
  match e with
  | ELoop id =>
      match c_posted c with
      | [] => ret c
      | p :: ps =>
          let c := set_queues ps (c_tasks c) c in
          match p with PConnect => run_connect id c | PStart => client_start c | PClose => client_close c end
      end
  | EAttempt e => attempt_event e c
  | EIo => client_close c
  | EPool i =>
      match c_tasks c !! i with
      | None => ret c
      | Some t => ret (run_ctask t (set_queues (c_posted c) (delete i (c_tasks c)) c))
      end
  | EOnConnect => ret (arm_connect c)
  | EOnClose => ret (user_on_close c)
  | EClose => ret (user_close c)
  end.

Fixpoint exec_evs (es : list ev) (c : client) : M env client :=
  match es with
  | [] => ret c
  | e :: es' => let* c := exec_ev e c in exec_evs es' c
  end.

(** ** Destruction *)

(** The destructor of [connect_state]: the timer's handle cancels through the
    dispatcher, which looks the timer up; then the socket is closed. *)
Definition drop_state (gone : list member) (st : @connect_state CB D) : M K (@connect_state CB D) :=
  let (ids, timer) := Handle.cancel (cs_timer st) in
  if bool_decide (MTimers ∈ gone) && negb (bool_decide (ids = [])) then undefined
  else
    let* (_, s) := close o (cs_sock st) in
    ret (mk_connect_state s timer (completed st) (cs_disp st) (cs_cancelled st ++ ids) (cs_calls st)).

(** Each member that goes drops the reference it holds, if any. *)
Fixpoint teardown (order gone : list member) (held : list member) (st : @connect_state CB D) :
    M K (@connect_state CB D) :=
  match order with
  | [] => ret st
  | m :: order' =>
      if bool_decide (held = [m])
      then let* st := drop_state (m :: gone) st in teardown order' (m :: gone) [] st
      else teardown order' (m :: gone) (List.filter (λ m', negb (bool_decide (m' = m))) held) st
  end.

(** The members that hold the state of an attempt: the timer until it fired or was
    cancelled, and the callback of the socket while it is registered. *)
Definition state_holders (fd : Z) (st : @connect_state CB D) (d : disp) : list member :=
  if completed st then []
  else MTimers :: (if d_lookup d fd then [MCallbacks] else []).

(** [do_destroy] in connecting mode, and the destruction of the loop; the tasks that
    wait are run by the shutdown of the pool, which [ThreadPool] models. *)
Definition destroy_client (c : client) : M env client :=
  let* c := client_close c in
  let c := set_conn None false c in
  match c_attempt c with
  | Some (Waiting fd st) =>
      λ '(d, k),
        match teardown destroyed_in_order [] (state_holders fd st d) st k with
        | None => None
        | Some (st, k) => Some (set_attempt (Waiting fd st) c, (d, k))
        end
  | _ => ret c
  end.

(** ** The outcome *)

(** The calls that tell the user how the attempt ended, made and to be made. *)
Definition tells (t : ctask) : option ucall :=
  match t with TConnect => Some UConnect | TError ec => Some (UError ec) | _ => None end.
Definition outcomes (c : client) : list ucall := c_called c ++ omap tells (c_tasks c).

(** What the user is to be told of a result. *)
Definition notice (c : client) (r : result sock) : list ucall :=
  match r with
  | Val _ => if on_connect_set c then [UConnect] else []
  | Err ec => if on_error_set c then [UError ec] else []
  end.

(** The descriptor of an open connection, and nothing else, is open besides [F]. *)
Definition conn_open (F : gset Z) (cc : cconn) (k : K) : Prop :=
  if cc_closed cc then is_open (cc_sock cc) = false ∧ holds F k
  else is_open (cc_sock cc) = true ∧ handle_ (cc_sock cc) ∉ F ∧ holds ({[handle_ (cc_sock cc)]} ∪ F) k.

(** The stages of a client: not begun, connecting, over. *)
Definition idle (F : gset Z) (c : client) (e : env) : Prop :=
  c_attempt c = None ∧ client_conn c = None ∧ outcomes c = [] ∧ holds F e.2 ∧
  (∀ fd, is_Some (d_lookup e.1 fd) → fd ∈ F).

Definition in_progress (F : gset Z) (c : client) (e : env) : Prop :=
  ∃ a id d, c_attempt c = Some a ∧ undecided attempt_cb F d id a e.2 ∧ e.1 = attempt_disp a d ∧ d_wf d ∧
    (∀ fd, is_Some (d_lookup d fd) → fd ∈ F) ∧ client_conn c = None ∧ outcomes c = [].

Definition over (F : gset Z) (c : client) (e : env) : Prop :=
  ∃ a r, c_attempt c = Some a ∧ callbacks a = [r] ∧ outcomes c = notice c r ∧
    match a with Waiting _ st => completed st = true | Immediate _ => True end ∧
    match r, client_conn c with
    | Val _, Some cc => conn_open F cc e.2
    | Err _, None => holds F e.2
    | _, _ => False
    end.

Definition connects (ps : list cpost) : nat :=
  length (List.filter (λ p, match p with PConnect => true | _ => false end) ps).

Record cinv (F : gset Z) (c : client) (e : env) : Prop := {
  k_wf : d_wf e.1;
  k_opts : Apply.built o (copts c);
  k_addr : is_Some (addr_sock (connect_addr c));
  k_posted : connects (c_posted c) = if c_armed c then (if c_attempt c then 0 else 1)%nat else 0%nat;
  k_armed : c_armed c = false → c_attempt c = None;
  k_stage : idle F c e ∨ in_progress F c e ∨ over F c e
}.

(** ** Every step keeps the invariant *)

Context `{!SocketKernelLaws SK} `{!DispatcherLaws D}.

Lemma connects_app ps ps' : connects (ps ++ ps') = (connects ps + connects ps')%nat.
Proof. unfold connects. by rewrite List.filter_app, length_app. Qed.

Lemma on_net_spec {A} (m : M K A) P Q (R : disp → Prop) :
  triple P m Q → triple (λ e : env, R e.1 ∧ P e.2) (on_net m) (λ a e, R e.1 ∧ Q a e.2).
Proof.
  intros Hm [d k] [Hd Hk]. destruct (Hm k Hk) as (a & k' & E & Ha). exists a, (d, k').
  unfold on_net. simpl. by rewrite E.
Qed.

Lemma socket_name_spec b s F : triple (holds F) (socket_name o b s) (λ _ : result sock_address, holds F).
Proof.
  unfold socket_name. destruct (_ =? _); [by apply triple_ret|]. eapply triple_bind.
  { apply (lift_spec _ _ (λ _, True)). intros k. split; [apply law_name|done]. }
  intros r. apply triple_ret. by intros k [_ Hk].
Qed.

(** A stream that listens owns one new descriptor, whose address it tells; one that
    could not be opened leaves none. *)
Lemma do_listen_spec addr backlog opts l F :
  Apply.built o opts → is_Some (addr_sock addr) → is_open (lb_socket l) = false →
  triple (holds F)
    (let* (r, l') := do_listen addr backlog opts l in
     let* a := do_local_addr (inl l') in ret (r, l', a))
    (λ '(r, l', _) k, holds (own (lb_socket l') ∪ F) k ∧ own (lb_socket l') ## F ∧
       (rv_bool r = true ↔ is_open (lb_socket l') = true)).
Proof.
  intros Hb [sa Hsa] Hl. pose proof (own_closed _ Hl) as Hown. unfold do_listen, with_sock. rewrite Hsa.
  eapply triple_bind; [apply listener_open_spec; [done|set_solver]|]. intros [r l'] k [Hr _].
  assert (holds (own (lb_socket l') ∪ F) k ∧ own (lb_socket l') ## F ∧
    (rv_bool r = true ↔ is_open (lb_socket l') = true)) as (Hk & Hn & Hi).
  { destruct Hr as [(Hr & Es & Hk)|(Hr & Hd & Hk)]; simpl in *.
    - rewrite Es, Hown, (left_id_L ∅ (∪)), Hr, Hl. done.
    - rewrite Hown, difference_empty_L in *. split_and!; [done..|]. by destruct (rv_bool r); rewrite Hr. }
  destruct (socket_name_spec false (lb_socket l') _ k Hk) as (a & k' & E & Hk').
  unfold do_local_addr, bind, local_address. rewrite E. eexists _, _. by split.
Qed.

(** What the handler of an attempt changes. *)
Record handled (r : result sock) (c c' : client) : Prop := {
  h_addr : connect_addr c' = connect_addr c;
  h_opts : copts c' = copts c;
  h_armed : c_armed c' = c_armed c;
  h_attempt : c_attempt c' = c_attempt c;
  h_posted : connects (c_posted c') = connects (c_posted c);
  h_notice : notice c' r = notice c r;
  h_outcomes : outcomes c' = outcomes c ++ notice c r
}.

Lemma connect_handler_spec F r c :
  client_conn c = None →
  triple (fresh F r) (connect_handler r c)
    (λ c' k, handled r c c' ∧
       match r, client_conn c' with
       | Val _, Some cc => conn_open F cc k
       | Err _, None => holds F k
       | _, _ => False
       end).
Proof.
  intros Hno. destruct r as [s|ec]; cbn [connect_handler].
  - simpl. intros k (Ho & Hn & Hk). revert k Hk. eapply triple_bind; [apply set_non_blocking_spec|].
    intros _r. eapply triple_bind; [apply socket_name_spec|]. intros peer_r.
    eapply triple_bind; [apply socket_name_spec|]. intros local_r. apply triple_ret. intros k Hk.
    unfold outcomes. simpl. destruct (on_connect_set c) eqn:Ec; simpl; (split; [|done]);
      split; try done; unfold outcomes, notice; simpl; rewrite ?Ec, ?omap_app, ?connects_app, ?app_assoc, ?app_nil_r;
      simpl; auto; lia.
  - apply triple_ret. intros k [_ Hk]. destruct (on_error_set c) eqn:Ec; simpl; rewrite Hno; (split; [|done]);
      split; try done; unfold outcomes, notice; simpl; rewrite ?Ec, ?omap_app, ?app_assoc, ?app_nil_r; simpl; auto.
Qed.

Lemma handle_one F r c a :
  c_attempt c = Some a → callbacks a = [r] →
  match a with Waiting _ st => completed st = true | Immediate _ => True end →
  client_conn c = None → outcomes c = [] →
  triple (fresh F r) (handle_all [r] c) (λ c' k, handled r c c' ∧ ∀ d, over F c' (d, k)).
Proof.
  intros Ha Hr Hdone Hno Hout. cbn [handle_all]. eapply triple_bind; [by apply connect_handler_spec|].
  intros c'. apply triple_ret. intros k [[] Hc]. split; [by split|]. intros d. exists a, r.
  split_and!; [congruence|done| |done|done]. by rewrite h_outcomes0, h_notice0, Hout.
Qed.

(** What an event does to the dispatcher of an attempt that is not completed. *)
Lemma event_disp ev fd st k st' k' :
  completed st = false →
  (match ev with ETimeout => on_timeout | EWritable => on_writable end) o fd st k = Some (st', k') →
  cs_disp st' = (d_remove fd (cs_disp st)).2.
Proof.
  intros Hc. destruct ev; unfold on_timeout, on_writable; rewrite Hc.
  - unfold bind, ret. destruct (close o (cs_sock st) k) as [[[r s] k1]|]; intros; by simplify_eq.
  - destruct (Handle.cancel (cs_timer st)) as [ids timer]. unfold bind, lift, ret.
    destruct (sys_so_error fd k) as [[so|e] k1]; [destruct (negb (so =? 0))|];
      try (destruct (close o (cs_sock st) k1) as [[[r s] k2]|]); intros; by simplify_eq/=.
Qed.

Lemma attempt_event_done ev c a :
  c_attempt c = Some a → match a with Waiting _ st => completed st = true | Immediate _ => True end →
  ∀ d k, ∃ a', attempt_event ev c (d, k) = Some (match a with Immediate _ => c | _ => set_attempt a' c end, (d, k)) ∧
    callbacks a' = callbacks a ∧ match a' with Waiting _ st => completed st = true | Immediate _ => True end.
Proof.
  intros Ha Hdone d k. unfold attempt_event. rewrite Ha. destruct a as [r|fd st]; [by exists (Immediate r)|].
  eexists (Waiting fd (mk_connect_state _ _ _ d _ _)).
  destruct ev; unfold on_timeout, on_writable; simpl; rewrite Hdone; unfold ret; simpl;
    rewrite drop_all; simpl; done.
Qed.

(** An event of an attempt in progress decides it. *)
Lemma attempt_event_decides ev F c :
  triple (in_progress F c) (attempt_event ev c)
    (λ c' e, (∃ r a, handled r (set_attempt a c) c') ∧ d_wf e.1 ∧ over F c' e).
Proof.
  intros [d1 k] (a & id & d & Ha & (s & Ho & Hn & Hk & ->) & Ed & Hwf & Hreg & Hno & Hout). simpl in Ed, Hk. subst d1.
  assert (d_lookup d (handle_ s) = None) as Hfree.
  { destruct (d_lookup d (handle_ s)) eqn:E; [|done]. destruct Hn. apply Hreg. by rewrite E. }
  destruct (first_event_spec attempt_cb o ev F d id s Hwf Hfree Ho Hn k Hk) as (st & k1 & E & r & Hr & Hf & Hc & _).
  unfold attempt_event. rewrite Ha. simpl. rewrite E. simpl. rewrite drop_0. simpl in Hr. rewrite Hr.
  destruct (handle_one F r (set_attempt (Waiting (handle_ s) st) c) (Waiting (handle_ s) st)
    eq_refl Hr Hc Hno Hout k1 Hf) as (c' & k2 & -> & Hh & Hov).
  eexists _, _. split; [done|]. split; [by eauto|]. split; [|done]. simpl.
  apply event_disp in E as ->; [|done]. simpl. by apply (add_remove attempt_cb).
Qed.

Lemma connect_async_waits af sa opts id d k fd st k' :
  connect_async attempt_cb o af sa opts id d k = Some (Waiting fd st, k') → completed st = false.
Proof.
  unfold connect_async, bind, ret. destruct (connect_impl o af sa opts k) as [[[s|e] k1]|]; intros; by simplify_eq/=.
Qed.

(** The lambda that connects. *)
Lemma run_connect_spec id F c :
  Apply.built o (copts c) → is_Some (addr_sock (connect_addr c)) →
  triple (λ e, d_wf e.1 ∧ idle F c e) (run_connect id c)
    (λ c' e, (∃ a r, c' = set_attempt a c ∨ handled r (set_attempt a c) c') ∧ d_wf e.1 ∧
       (in_progress F c' e ∨ over F c' e)).
Proof.
  intros Hb [sa Hsa] [d k] [Hwf (Ha & Hno & Hout & Hk & Hreg)]. simpl in *.
  unfold run_connect, with_sock. rewrite Hsa.
  destruct (connect_async_spec attempt_cb o addr_af sa (copts c) id d F Hb k Hk) as (a & k1 & E & Hud).
  rewrite E. destruct Hud as [Hu|Hd].
  - pose proof Hu as (s & Ho & Hn & Hk1 & ->). simpl.
    eexists _, _. split; [done|]. split; [by eexists _, (err_of timed_out); left|]. simpl. split.
    + destruct (d_add (handle_ s) ev_writable attempt_cb d) eqn:Ed. by eapply law_add.
    + left. by eexists _, id, d.
  - destruct Hd as (r & Hr & Hf & Hc). rewrite Hr.
    destruct (handle_one F r (set_attempt a c) a) with (k := k1) as (c' & k2 & -> & Hh & Hov); try done.
    { by destruct a; [|destruct Hc]. }
    eexists _, _. split; [done|]. split; [by eauto|]. split; [|by right].
    destruct a as [r'|fd st]; [done|]. destruct Hc as [Hc _]. apply connect_async_waits in E. congruence.
Qed.

(** Steps that neither begin nor decide an attempt. *)
Record same_attempt (c c' : client) : Prop := {
  f_addr : connect_addr c' = connect_addr c;
  f_opts : copts c' = copts c;
  f_armed : c_armed c' = c_armed c;
  f_attempt : c_attempt c' = c_attempt c;
  f_notice : ∀ r, notice c' r = notice c r;
  f_posted : connects (c_posted c') = connects (c_posted c);
  f_outcomes : outcomes c' = outcomes c
}.

Lemma same_attempt_inv F c c' e e' :
  cinv F c e → same_attempt c c' → d_wf e'.1 →
  match client_conn c, client_conn c' with
  | None, None => e' = e
  | Some cc, Some cc' => conn_open F cc e.2 → conn_open F cc' e'.2
  | _, _ => False
  end → cinv F c' e'.
Proof.
  intros [] [] Hwf Hcc. split; rewrite ?f_addr0, ?f_opts0, ?f_armed0, ?f_attempt0, ?f_posted0; try done.
  destruct k_stage0 as [Hi|[Hp|Ho]].
  - left. destruct Hi as (? & Hno & ? & ? & ?). rewrite Hno in Hcc. unfold idle.
    destruct (client_conn c'); [done|]. subst e'. split_and!; congruence || done.
  - right; left. destruct Hp as (a & id & d & ? & ? & ? & ? & ? & Hno & ?). rewrite Hno in Hcc.
    exists a, id, d. destruct (client_conn c'); [done|]. subst e'. split_and!; congruence || done.
  - right; right. destruct Ho as (a & r & ? & ? & ? & ? & Hs). exists a, r.
    rewrite f_attempt0, f_notice0, f_outcomes0. split_and!; [done..|].
    destruct r; destruct (client_conn c), (client_conn c'); try done; first [by apply Hcc|by subst].
Qed.

(** A task leaves the list of those that wait. *)
Lemma outcomes_delete i t c :
  c_tasks c !! i = Some t → outcomes c = [] ∨ (∃ u, outcomes c = [u]) →
  outcomes c = (c_called c ++ option_list (tells t)) ++ omap tells (delete i (c_tasks c)).
Proof.
  intros Hi Hone. unfold outcomes in *. rewrite delete_take_drop.
  rewrite <-(take_drop_middle _ _ _ Hi) in Hone |- * at 1.
  rewrite !omap_app in *. simpl in *. destruct (tells t) as [u|]; simpl in *; [|by rewrite app_nil_r].
  change (list_omap _ _ tells (drop (S i) (c_tasks c))) with (omap tells (drop (S i) (c_tasks c))) in *.
  assert (c_called c = [] ∧ omap tells (take i (c_tasks c)) = [] ∧
    omap tells (drop (S i) (c_tasks c)) = []) as (-> & -> & ->).
  { destruct Hone as [E|[v E]]; apply (f_equal length) in E; rewrite !length_app in E; simpl in E;
      split_and!; apply nil_length_inv; lia. }
  done.
Qed.

Lemma outcomes_few F c e : cinv F c e → outcomes c = [] ∨ ∃ u, outcomes c = [u].
Proof.
  intros [_ _ _ _ _ [(_ & _ & ? & _)|[(? & ? & ? & ? & ? & ? & ? & ? & ? & ?)|(a & r & _ & _ & -> & _)]]]; auto.
  unfold notice. destruct r; [destruct (on_connect_set c)|destruct (on_error_set c)]; eauto.
Qed.

Lemma same_attempt_task i t c :
  c_tasks c !! i = Some t → outcomes c = [] ∨ (∃ u, outcomes c = [u]) →
  same_attempt c (run_ctask t (set_queues (c_posted c) (delete i (c_tasks c)) c)).
Proof.
  intros Hi Hone. pose proof (outcomes_delete i t c Hi Hone) as E.
  destruct t; simpl in *; rewrite ?app_nil_r in E; try destruct (client_conn c) as [cc|];
    try destruct (cc_hooked cc); split; try done; rewrite ?E; unfold outcomes; simpl;
    rewrite ?connects_app, ?omap_app; simpl; rewrite ?app_nil_r; try lia; done.
Qed.

Lemma inv_conn F c e cc : cinv F c e → client_conn c = Some cc → conn_open F cc e.2.
Proof.
  intros [_ _ _ _ _ Hs] Hcc. destruct Hs as [(_ & ? & _)|[(? & ? & ? & _ & _ & _ & _ & _ & ? & _)|Hs]]; try congruence.
  destruct Hs as (a & r & _ & _ & _ & _ & Hs). rewrite Hcc in Hs. by destruct r.
Qed.

Lemma client_close_inv F c :
  triple (cinv F c) (client_close c)
    (λ c' e, cinv F c' e ∧ c_attempt c' = c_attempt c ∧
       match client_conn c' with Some cc => cc_closed cc = true | None => client_conn c = None end).
Proof.
  intros [d k] Hinv. unfold client_close. destruct (client_conn c) as [cc|] eqn:Hcc.
  2: { eexists _, _. split; [done|]. by rewrite Hcc. }
  destruct (cc_closed cc) eqn:Hcl.
  { eexists _, _. split; [done|]. by rewrite Hcc. }
  pose proof (inv_conn _ _ _ _ Hinv Hcc) as Hopen. unfold conn_open in Hopen. rewrite Hcl in Hopen.
  destruct Hopen as (Ho & Hn & Hk). unfold bind at 1, lift.
  destruct (d_remove (handle_ (cc_sock cc)) d) as [r d'] eqn:Ed.
  destruct (close_spec o (cc_sock cc) _ k Hk) as ([r' s] & k' & E & Hs & Hk'). simpl in Hs.
  unfold bind, on_net. rewrite E. eexists _, _. split; [done|].
  assert (cinv F (set_conn (Some (mk_cconn s (cc_peer cc) (cc_local cc) true (cc_on_close cc) (cc_hooked cc)))
                    (connected_flag c) c) (d', k')) as Hinv'.
  { eapply same_attempt_inv; [exact Hinv|by split|by eapply law_remove; [apply Hinv|]|]. simpl. rewrite Hcc. intros _.
    split; [done|]. unfold own in Hk'. rewrite Ho in Hk'. unfold holds in *. set_solver. }
  destruct (cc_on_close cc); [|done]. split; [|done].
  eapply same_attempt_inv; [exact Hinv'| |apply Hinv'|by simpl]. split; try done. unfold outcomes. simpl.
  by rewrite omap_app, app_nil_r.
Qed.

Lemma client_start_inv F c : triple (cinv F c) (client_start c) (cinv F).
Proof.
  intros [d k] Hinv. unfold client_start. destruct (client_conn c) as [cc|] eqn:Hcc; [|by eexists _, _].
  unfold bind, lift. destruct (d_add (handle_ (cc_sock cc)) ev_readable conn_cb d) as [r d'] eqn:Ed.
  eexists _, _. split; [done|]. eapply same_attempt_inv; [exact Hinv|by split|by eapply law_add; [apply Hinv|]|].
  by rewrite Hcc.
Qed.

Lemma handled_inv F r a c c' e :
  Apply.built o (copts c) → is_Some (addr_sock (connect_addr c)) → c_armed c = true → connects (c_posted c) = 0%nat →
  handled r (set_attempt a c) c' → d_wf e.1 → in_progress F c' e ∨ over F c' e → cinv F c' e.
Proof.
  intros Hb Hs Ha Hp [] Hwf Hst. simpl in *.
  split; rewrite ?h_addr0, ?h_opts0, ?h_armed0, ?h_attempt0, ?h_posted0, ?Ha; auto. done.
Qed.

Lemma arm_connect_inv F c e : cinv F c e → cinv F (arm_connect c) e.
Proof.
  intros Hinv. unfold arm_connect. destruct (c_armed c) eqn:Ha; [done|].
  destruct Hinv as [? ? ? Hp Hna Hs]. rewrite Ha in Hp. specialize (Hna Ha). split; try done.
  simpl. by rewrite connects_app, Hp, Hna.
Qed.

Lemma client_loop_inv id F c : triple (cinv F c) (exec_ev (ELoop id) c) (cinv F).
Proof.
  intros e Hinv. cbn [exec_ev]. destruct (c_posted c) as [|p ps] eqn:Hps; [by eexists _, _|].
  destruct p.
  - destruct Hinv as [Hwf Hb Hs Hp Hna Hst]. rewrite Hps in Hp. unfold connects in Hp. simpl in Hp.
    destruct (c_armed c) eqn:Ha; [|done]. destruct (c_attempt c) eqn:Hat; [done|]. injection Hp as Hp.
    assert (idle F c e) as Hi by (destruct Hst as [?|[(? & ? & ? & ? & _)|(? & ? & ? & _)]]; congruence || done).
    destruct (run_connect_spec id F (set_queues ps (c_tasks c) c) Hb Hs e) as (c' & e' & E & (a & r & Hc) & Hwf' & Hst').
    { split; [done|]. destruct Hi as (? & ? & ? & ? & ?). by split_and!. }
    exists c', e'. split; [exact E|]. destruct Hc as [->|Hh].
    + split; try done; simpl; [by rewrite Ha|congruence|by right].
    + by eapply handled_inv with (c := set_queues ps (c_tasks c) c).
  - apply client_start_inv. eapply same_attempt_inv; [exact Hinv| |apply Hinv|by destruct (client_conn c) eqn:E; simpl; rewrite E].
    split; try done. simpl. by rewrite Hps.
  - destruct (client_close_inv F (set_queues ps (c_tasks c) c) e) as (c' & e' & E & Hc & _); [|by eauto].
    eapply same_attempt_inv; [exact Hinv| |apply Hinv|by destruct (client_conn c) eqn:E; simpl; rewrite E].
    split; try done. simpl. by rewrite Hps.
Qed.

Lemma attempt_inv ev F c : triple (cinv F c) (attempt_event ev c) (cinv F).
Proof.
  intros e Hinv. destruct (k_stage _ _ _ Hinv) as [Hi|[Hp|Ho]].
  - unfold attempt_event. destruct Hi as (-> & _). by eexists _, _.
  - destruct (attempt_event_decides ev F c e Hp) as (c' & e' & E & (r & a & Hh) & Hwf & Hov). exists c', e'.
    split; [done|]. destruct Hp as (? & ? & ? & Ha & _). destruct Hinv. rewrite Ha in *.
    destruct (c_armed c) eqn:Harm; [|by specialize (k_armed0 eq_refl)].
    by eapply handled_inv; eauto.
  - destruct Ho as (a & r & Ha & Hr & Hout & Hdone & Hs). destruct e as [d k].
    destruct (attempt_event_done ev c a Ha Hdone d k) as (a' & E & Hr' & Hdone'). eexists _, _. split; [exact E|].
    destruct a as [ra|fd st]; [done|]. destruct Hinv. rewrite Ha in *. split; try done.
    + intros Harm. by specialize (k_armed0 Harm).
    + right; right. exists a', r. split_and!; try done. by rewrite Hr'.
Qed.

Lemma exec_ev_inv ev F c : triple (cinv F c) (exec_ev ev c) (cinv F).
Proof.
  destruct ev as [id|ev| |i| | |]; [apply client_loop_inv|apply attempt_inv|..]; intros e Hinv; cbn [exec_ev].
  - destruct (client_close_inv F c e Hinv) as (c' & e' & E & Hc & _). by eauto.
  - destruct (c_tasks c !! i) as [t|] eqn:Hi; [|by eexists _, _]. eexists _, _. split; [done|].
    eapply same_attempt_inv; [exact Hinv|apply same_attempt_task; [done|by eapply outcomes_few]|apply Hinv|].
    destruct t; simpl; destruct (client_conn c) as [cc|] eqn:E; simpl; rewrite ?E; try done;
      destruct (cc_hooked cc); simpl; by rewrite ?E.
  - eexists _, _. split; [done|]. by apply arm_connect_inv.
  - eexists _, _. split; [done|]. unfold user_on_close. destruct (client_conn c) as [cc|] eqn:E; [|done].
    eapply same_attempt_inv; [exact Hinv|by split|apply Hinv|]. simpl. by rewrite E.
  - eexists _, _. split; [done|]. unfold user_close. destruct (client_conn c) as [cc|] eqn:E; [|done].
    destruct (cc_closed cc); [done|]. eapply same_attempt_inv; [exact Hinv| |apply Hinv|simpl; by rewrite E].
    split; try done. simpl. rewrite connects_app. simpl. unfold connects at 2. simpl. lia.
Qed.

Lemma exec_evs_inv evs F c : triple (cinv F c) (exec_evs evs c) (cinv F).
Proof.
  revert c. induction evs as [|ev evs IH]; intros c; [by apply triple_ret|]. cbn [exec_evs].
  eapply triple_bind; [apply exec_ev_inv|]. intros c'. apply IH.
Qed.

(** Once decided, an attempt stays so. *)
Definition decided_attempt (c : client) : Prop := ∃ a, c_attempt c = Some a ∧ callbacks a ≠ [].

Lemma inv_decided F c e : cinv F c e → decided_attempt c → over F c e.
Proof.
  intros [_ _ _ _ _ [(Hn & _)|[(a & id & d & Ha & (s & _ & _ & _ & ->) & _)|?]]] (a' & Ha' & Hc); [congruence| |done].
  rewrite Ha in Ha'. by simplify_eq.
Qed.

Lemma exec_ev_decided ev F c e c' e' :
  cinv F c e → decided_attempt c → exec_ev ev c e = Some (c', e') → decided_attempt c'.
Proof.
  intros Hinv Hd. pose proof (inv_decided _ _ _ Hinv Hd) as (a & r & Ha & Hr & _ & Hdone & _).
  assert (∀ c1, c_attempt c1 = c_attempt c → decided_attempt c1) as Hsame.
  { intros c1 E. unfold decided_attempt. rewrite E. exact Hd. }
  assert (∀ c1, c_attempt c1 = c_attempt c → client_close c1 e = Some (c', e') → decided_attempt c') as Hclose.
  { intros c1 E. unfold client_close. destruct (client_conn c1) as [cc|]; [|by intros [= <- <-]; apply Hsame].
    destruct (cc_closed cc); [by intros [= <- <-]; apply Hsame|]. unfold bind, lift, on_net, ret. destruct e as [d k].
    destruct (d_remove _ d). destruct (close o (cc_sock cc) k) as [[[? s] k']|]; [|done].
    intros [= <- <-]. apply Hsame. by destruct (cc_on_close cc). }
  destruct ev as [id|ev| |i| | |]; cbn [exec_ev].
  - destruct (c_posted c) as [|p ps] eqn:Hps; [by intros [= <- <-]|]. destruct p; [exfalso| |by apply Hclose].
    + pose proof (k_posted _ _ _ Hinv) as Hp. rewrite Hps, Ha in Hp. by destruct (c_armed c).
    + unfold client_start, bind, lift, ret. simpl. destruct (client_conn c) as [cc|]; [destruct e as [d k]|];
        [destruct (d_add _ _ _ d)|]; intros [= <- <-]; by apply Hsame.
  - destruct e as [d k]. destruct (attempt_event_done ev c a Ha Hdone d k) as (a' & -> & Hr' & _).
    intros [= <- <-]. destruct a; [done|]. exists a'. simpl. by rewrite Hr', Hr.
  - by apply Hclose.
  - destruct (c_tasks c !! i) as [t|]; intros [= <- <-]; [|done]. apply Hsame.
    destruct t; simpl; try done; destruct (client_conn c) as [cc|]; try destruct (cc_hooked cc); done.
  - intros [= <- <-]. apply Hsame. unfold arm_connect. by destruct (c_armed c).
  - intros [= <- <-]. apply Hsame. unfold user_on_close. by destruct (client_conn c).
  - intros [= <- <-]. apply Hsame. unfold user_close. destruct (client_conn c) as [cc|]; [|done].
    by destruct (cc_closed cc).
Qed.

Lemma exec_evs_decided evs F c : decided_attempt c → triple (cinv F c) (exec_evs evs c) (over F).
Proof.
  revert c. induction evs as [|ev evs IH]; intros c Hd e Hinv.
  { eexists _, _. split; [done|]. by apply inv_decided. }
  destruct (exec_ev_inv ev F c e Hinv) as (c1 & e1 & E & Hinv1). cbn [exec_evs]. unfold bind. rewrite E.
  exact (IH c1 (exec_ev_decided ev F c e c1 e1 Hinv Hd E) e1 Hinv1).
Qed.

Lemma over_decided F c e : over F c e → decided_attempt c.
Proof. intros (a & r & Ha & Hr & _). exists a. split; [done|]. congruence. Qed.

(** The stream as the factory and the setters of handlers leave it. *)
Lemma set_up_inv he hc addr opts c0 F e :
  do_connect addr opts = Val c0 → Apply.built o opts → is_Some (addr_sock addr) →
  d_wf e.1 → (∀ fd, is_Some (d_lookup e.1 fd) → fd ∈ F) → holds F e.2 →
  cinv F (on_connect hc (on_error he c0)) e ∧ idle F (on_connect hc (on_error he c0)) e ∧
  c_posted (on_connect hc (on_error he c0)) = [PConnect].
Proof. intros [= <-] **. split; [|done]. split; try done. by left. Qed.

Lemma first_two_decide id ev F e c :
  cinv F c e → idle F c e → c_posted c = [PConnect] →
  ∃ c' e', (let* c := exec_ev (ELoop id) c in exec_ev (EAttempt ev) c) e = Some (c', e') ∧
    cinv F c' e' ∧ decided_attempt c'.
Proof.
  intros Hinv Hi Hp. destruct (client_loop_inv id F c e Hinv) as (c1 & e1 & E & Hinv1). unfold bind. rewrite E.
  destruct (attempt_inv ev F c1 e1 Hinv1) as (c2 & e2 & E2 & Hinv2). exists c2, e2. split_and!; [done..|].
  destruct (k_stage _ _ _ Hinv1) as [(Hn & _)|[Hg|Ho]].
  - exfalso. revert E Hn. cbn [exec_ev]. rewrite Hp. intros E Hn.
    destruct (run_connect_spec id F (set_queues [] (c_tasks c) c) (k_opts _ _ _ Hinv) (k_addr _ _ _ Hinv) e)
      as (c' & e' & E' & (a & r & Hc) & _); [split; [apply Hinv|exact Hi]|].
    rewrite E in E'. simplify_eq. destruct Hc as [->|[]]; [done|]. simpl in *. congruence.
  - destruct (attempt_event_decides ev F c1 e1 Hg) as (c' & e' & E' & _ & _ & Hov). rewrite E2 in E'. simplify_eq.
    exact (over_decided _ _ _ Hov).
  - exact (exec_ev_decided (EAttempt ev) F c1 e1 c2 e2 Hinv1 (over_decided F c1 e1 Ho) E2).
Qed.

Lemma destroy_done F c :
  triple (λ e, cinv F c e ∧ (c_attempt c = None ∨ decided_attempt c)) (destroy_client c)
    (λ c' e, client_conn c' = None ∧ holds F e.2).
Proof.
  intros e [Hinv Hd]. destruct (client_close_inv F c e Hinv) as (c1 & [d k] & E & Hinv1 & Ha & Hcl).
  assert (holds F k) as Hk.
  { destruct (k_stage _ _ _ Hinv1) as [(_ & _ & _ & ? & _)|[(a & id & ? & Hat & (? & _ & _ & _ & ->) & _)|Ho]]; [done| |].
    - rewrite Ha in Hat. destruct Hd as [?|(a' & ? & ?)]; [congruence|]. rewrite Hat in *. by simplify_eq.
    - destruct Ho as (a & r & _ & _ & _ & _ & Hs). destruct r, (client_conn c1) as [cc|]; try done.
      unfold conn_open in Hs. rewrite Hcl in Hs. apply Hs. }
  unfold destroy_client, bind. rewrite E. simpl. destruct (c_attempt c1) as [[r|fd st]|] eqn:Hat; [by eauto| |by eauto].
  destruct Hd as [?|Hd]; [congruence|].
  assert (decided_attempt c1) as Hd1 by (unfold decided_attempt; rewrite Hat, Ha; exact Hd).
  destruct (inv_decided _ _ _ Hinv1 Hd1) as (a & r & Ha' & _ & _ & Hdone & _). rewrite Hat in Ha'. simplify_eq.
  unfold state_holders. rewrite Hdone. eexists _, _. split; [done|]. done.
Qed.

(** C24. A client is told once how its connection ended.  For every sequence of
    steps of the loop, the socket, the timer, the pool and the user after
    [on_connect]: nothing goes wrong, and the attempt has not begun, is in progress
    with one new descriptor, or is over; when it is over the calls made and to be
    made of the handlers are exactly the one that its result asks for, and the
    descriptors are those of before and, if a connection is open, its own.  It is
    over as soon as the loop ran the lambda and the socket or the timer reported,
    and stays so.  Destroying the stream before the attempt or after it closes
    everything. *)
Theorem client_told_once he hc addr opts c0 F d evs :
  do_connect addr opts = Val c0 → Apply.built o opts → is_Some (addr_sock addr) →
  d_wf d → (∀ fd, is_Some (d_lookup d fd) → fd ∈ F) →
  let c0 := on_connect hc (on_error he c0) in
  triple (λ e, e.1 = d ∧ holds F e.2) (exec_evs evs c0)
    (λ c e, (idle F c e ∨ in_progress F c e ∨ over F c e) ∧
       (¬ in_progress F c e →
        ∃ c' e', destroy_client c e = Some (c', e') ∧ client_conn c' = None ∧ holds F e'.2)) ∧
  ∀ id ev,
  triple (λ e, e.1 = d ∧ holds F e.2) (exec_evs (ELoop id :: EAttempt ev :: evs) c0) (over F).
Proof.
  intros Hc Hb Hs Hwf Hreg c1. split.
  - intros e [<- Hk]. destruct (set_up_inv he hc addr opts c0 F e) as (Hinv & _); try done.
    destruct (exec_evs_inv evs F c1 e Hinv) as (c & e' & E & Hinv'). exists c, e'. split_and!; [done|apply Hinv'|].
    intros Hn. apply destroy_done. split; [done|].
    destruct (k_stage _ _ _ Hinv') as [(? & _)|[?|Ho]]; [by left|done|]. right. exact (over_decided _ _ _ Ho).
  - intros id ev e [<- Hk]. destruct (set_up_inv he hc addr opts c0 F e) as (Hinv & Hi & Hp); try done.
    destruct (first_two_decide id ev F e c1 Hinv Hi Hp) as (c2 & e2 & E & Hinv2 & Hd).
    destruct (exec_evs_decided evs F c2 Hd e2 Hinv2) as (c3 & e3 & E3 & Ho). exists c3, e3. split; [|done].
    revert E. cbn [exec_evs]. unfold bind. destruct (exec_ev (ELoop id) c1 e) as [[c' e']|]; [|done].
    intros E. by rewrite E.
Qed.

(** A client must not be destroyed while it connects.  The state of the
    attempt is held by its timer and by the callback of its socket, and is
    destroyed with them when the loop goes; its timer handle then cancels through
    a dispatcher whose timers are destroyed or being destroyed: the behaviour is
    undefined in every state in which the attempt is in progress. *)
Theorem destroy_while_connecting F c e : in_progress F c e → destroy_client c e = None.
Proof.
  destruct e as [d1 k]. intros (a & id & d & Ha & (s & _ & _ & _ & ->) & Ed & _ & _ & Hno & _).
  unfold destroy_client, client_close, bind, ret. rewrite Hno. simpl. rewrite Ha. unfold state_holders. simpl.
  by destruct (d_lookup d1 (handle_ s)).
Qed.

End Client.

(** ** Witnesses *)

Definition demo_client : @client nat map_dispatcher :=
  mk_client (inet4_default Linux) demo_opts false false false [] None None false [] [].
Definition demo_armed : client (D := map_dispatcher) := on_connect true (on_error true demo_client).
Abbreviation demo_run evs c e :=
  (exec_evs (SK := demo_kernel) (D := map_dispatcher) (AC := addr4) Linux (inet4_default Linux) 7%nat 8%nat evs c e).

(** A connection that is refused: the error handler is called and nothing is left. *)
Lemma client_told_once_witness :
  ∃ c e, demo_run [ELoop 5; EAttempt EWritable; EPool 0; EAttempt ETimeout] demo_armed (∅, {[3]}) = Some (c, e) ∧
    c_called c = [UError (mk_error_code 111 cat_generic)] ∧ c_tasks c = [] ∧ e.2 = {[3]} ∧ over {[3]} c e.
Proof.
  destruct (client_told_once (SK := demo_kernel) (D := map_dispatcher) (AC := addr4) Linux (inet4_default Linux)
    7%nat 8%nat true true (inet4_default Linux) demo_opts demo_client {[3]} (∅ : gmap Z (Z * nat))
    [EPool 0; EAttempt ETimeout] eq_refl demo_opts_built) as [_ Hover].
  - eexists. vm_compute. reflexivity.
  - exact I.
  - intros fd [p Hp]. simpl in Hp. by rewrite lookup_empty in Hp.
  - destruct (Hover 5 EWritable (∅, {[3]}) (conj eq_refl eq_refl)) as (c & e & E & Ho). exists c, e.
    split; [exact E|]. split; [|split; [|split; [|exact Ho]]].
    all: assert ((λ p, (c_called p.1, c_tasks p.1, bool_decide (p.2.2 = {[3]}))) <$> Some (c, e) =
      Some ([UError (mk_error_code 111 cat_generic)], [], true)) as Hv
      by (rewrite <-E; vm_compute; reflexivity).
    all: simpl in Hv; injection Hv as H1 H2 H3; auto.
    by apply bool_decide_eq_true in H3.
Defined.

Definition demo_pending : client (D := map_dispatcher) :=
  set_attempt (Waiting 4 (mk_connect_state (sock_of 4) (Handle.mk_handle 5 true) false
                            (d_add (Dispatcher := map_dispatcher) 4 ev_writable 7%nat ∅).2 [] []))
    (set_queues [] [] demo_armed).

Lemma destroy_while_connecting_witness :
  demo_run [ELoop 5] demo_armed (∅, {[3]}) ≠ None ∧
  destroy_client (SK := demo_kernel) (D := map_dispatcher) Linux demo_pending
    ((d_add (Dispatcher := map_dispatcher) 4 ev_writable 7%nat ∅).2, ({[3; 4]} : gset Z)) = None.
Proof.
  split; [vm_compute; discriminate|].
  apply (destroy_while_connecting (SK := demo_kernel) (D := map_dispatcher) Linux 7%nat {[3]} demo_pending).
  eexists _, 5, (∅ : gmap Z (Z * nat)). split; [reflexivity|]. split_and!; try done.
  - exists (sock_of 4). split_and!; [done|set_solver|unfold holds; simpl; set_solver|done].
  - intros fd [p Hp]. simpl in Hp. by rewrite lookup_empty in Hp.
Defined.
