(* ===== verification/DgramIO.v ===== *)
(** * Sending and receiving of datagram sockets and peers

    The sending functions of [dgram_impl] ([src/src/high/dgram.cpp]) and of
    [dgram_peer_impl] ([src/src/high/dgram_peer_impl.hpp]), and the receive loop of
    a claimed peer, over the transfer functions of [Transfer] and the connected
    sockets of [UdpMux]. *)

From S2P Require Import Prelude Platform Dispatcher EventLoop Address Dgram Options Socket Transfer UdpMux.

Local Open Scope Z_scope.

(** ** Sending *)

(** [dgram4_send_entry]: the bytes and the destination. *)
Record send_entry := mk_send_entry { se_data : bytes; se_dest : bytes }.

Definition stack_limit : nat := 64.
Definition entry_default : msg_batch_entry := mk_msg 0 [] 0 sock_address_default.

(** [entries]: an array on the stack if the messages fit, one of their number else. *)
Definition entries_array (count : nat) : list msg_batch_entry :=
  replicate (if (count <=? stack_limit)%nat then stack_limit else count) entry_default.

Section Sending.
Context {N CB : Type} `{TransferKernel N} {D : Dispatcher CB} (o : os).
Context {Key : Type} {AC : AddrClass Key}.

(** The loop that fills the entries from the [i]th on; writing past the array and
    an address that cannot be converted are undefined. *)
Fixpoint fill_entries (i : nat) (msgs : list (bytes * bytes)) (entries : list msg_batch_entry) :
    M (@disp CB D * N) (list msg_batch_entry) :=
  match msgs with
  | [] => ret entries
  | (data, dest) :: msgs' =>
      with_sock (addr_sock dest) (λ sa,
        if (i <? length entries)%nat
        then fill_entries (S i) msgs' (<[i := mk_msg (Z.of_nat (length data)) data 0 sa]> entries)
        else undefined)
  end.

(** The entries, and [send_batch] on a span of the number of messages. *)
Definition send_entries (msgs : list (bytes * bytes)) (s : sock) : M (@disp CB D * N) (result Z) :=
  let* entries := fill_entries 0 msgs (entries_array (length msgs)) in
  let* (r, _) := send_batch o (take (length msgs) entries) s in
  ret r.

Definition do_send_to (data dest : bytes) (s : sock) : M (@disp CB D * N) bool :=
  with_sock (addr_sock dest) (λ sa,
    let* r := on_net (send_to_raw o data sa 0 s) in ret (has_value r)).

Definition do_send_batch (msgs : list send_entry) (s : sock) : M (@disp CB D * N) (result Z) :=
  send_entries ((λ m, (se_data m, se_dest m)) <$> msgs) s.

(** [dgram_peer_impl::do_send]; [demux] is [has_kernel_udp_demux]. *)
Definition peer_do_send (demux open : bool) (peer_addr : bytes) (data : bytes) (p : peer_socket) (parent : sock) :
    M (@disp CB D * N) bool :=
  if negb open then ret false
  else if demux then let* r := on_net (peer_send o data 0 p) in ret (has_value r)
  else do_send_to data peer_addr parent.

(** [dgram_peer_impl::do_send_batch]; the destinations of the entries are ignored. *)
Definition peer_do_send_batch (open : bool) (peer_addr : bytes) (msgs : list send_entry) (parent : sock) :
    M (@disp CB D * N) (result Z) :=
  if negb open then ret (err_of not_connected)
  else send_entries ((λ m, (se_data m, peer_addr)) <$> msgs) parent.

(** *** The entries *)

Definition batch_entry_of (m : bytes * bytes) (sa : sock_address) : msg_batch_entry :=
  mk_msg (Z.of_nat (length m.1)) m.1 0 sa.

Lemma fill_entries_spec i msgs sas entries (e : @disp CB D * N) :
  Forall2 (λ m sa, addr_sock m.2 = Some sa) msgs sas → (i + length msgs ≤ length entries)%nat →
  fill_entries i msgs entries e =
  Some (take i entries ++ zip_with batch_entry_of msgs sas ++ drop (i + length msgs) entries, e).
Proof.
  intros Hsa. revert i entries. induction Hsa as [|[data dest] sa msgs sas Hm _ IH]; intros i entries Hi.
  { simpl. rewrite Nat.add_0_r, take_drop. done. }
  cbn [fill_entries]. unfold with_sock. simpl in Hm, Hi. rewrite Hm, (proj2 (Nat.ltb_lt _ _)) by lia.
  rewrite IH by (rewrite length_insert; lia). do 2 f_equal. simpl.
  rewrite take_S_r with (x := batch_entry_of (data, dest) sa) by (rewrite list_lookup_insert_eq; [done|lia]).
  rewrite take_insert_ge, drop_insert_lt by lia. rewrite <-app_assoc. simpl.
  by rewrite Nat.add_succ_r.
Qed.

Lemma entries_fit count : (count ≤ length (entries_array count))%nat.
Proof.
  unfold entries_array. rewrite length_replicate. destruct (count <=? stack_limit)%nat eqn:E; [|lia].
  by apply Nat.leb_le in E.
Qed.

(** *** Batches are single sends *)

(** One message after another, until one fails; the number sent. *)
Fixpoint send_one_by_one (msgs : list (bytes * bytes)) (s : sock) : M (@disp CB D * N) Z :=
  match msgs with
  | [] => ret 0
  | (data, dest) :: msgs' =>
      let* ok := do_send_to data dest s in
      if ok then let* n := send_one_by_one msgs' s in ret (1 + n) else ret 0
  end.

Lemma send_each_one_by_one i msgs sas s (e : @disp CB D * N) :
  Forall2 (λ m sa, addr_sock m.2 = Some sa) msgs sas → 0 ≤ i →
  ∃ r rest c e', send_each o i (zip_with batch_entry_of msgs sas) s e = Some (r, rest, e') ∧
    send_one_by_one msgs s e = Some (c, e') ∧ 0 ≤ c ∧
    (r = Val (i + c) ∨ (i = 0 ∧ c = 0 ∧ msgs ≠ [] ∧ has_value r = false)).
Proof.
  intros Hsa. revert i e. induction Hsa as [|[data dest] sa msgs sas Hm Hsa IH]; intros i e Hi.
  { eexists _, _, 0, e. split_and!; [done..|]. left. by rewrite Z.add_0_r. }
  cbn [zip_with send_each send_one_by_one]. unfold do_send_to, with_sock. simpl in Hm. rewrite Hm.
  unfold bind. simpl. destruct e as [d n]. unfold on_net.
  assert (is_Some (send_to_raw o data sa 0 s n)) as [[[c|ec] n'] ->].
  { unfold send_to_raw, bind, lift, ret. destruct (negb (is_open s)); [by eexists|].
    destruct (sys_sendto _ _ _ _ n). by eexists. }
  - destruct (IH (i + 1) (d, n') ltac:(lia)) as (r & rest & c' & e' & E1 & E2 & Hc & Hr).
    unfold ret. simpl. rewrite E1, E2. eexists _, _, _, _. split_and!; [done..|lia|].
    destruct Hr as [->|[? _]]; [|lia]. left. f_equal. lia.
  - unfold ret. simpl. eexists _, _, 0, _. split_and!; [done..|]. destruct (i =? 0) eqn:E; bool_facts.
    + right. done.
    + left. by rewrite Z.add_0_r.
Qed.

Context `{!BatchLaws N}.

Lemma send_batch_loop msgs s (e : @disp CB D * N) :
  is_open s = true → send_batch o msgs s e = send_each o 0 msgs s e.
Proof.
  intros Ho. unfold send_batch. rewrite Ho. destruct o; [|done..].
  rewrite <-send_batch_each by done. unfold send_batch. by rewrite Ho.
Qed.

Lemma send_entries_one_by_one msgs s (e : @disp CB D * N) :
  is_open s = true → Forall (λ m, is_Some (addr_sock m.2)) msgs →
  ∃ r c e', send_entries msgs s e = Some (r, e') ∧ send_one_by_one msgs s e = Some (c, e') ∧
    (r = Val c ∨ (c = 0 ∧ msgs ≠ [] ∧ has_value r = false)).
Proof.
  intros Ho Hm. assert (∃ sas, Forall2 (λ m sa, addr_sock m.2 = Some sa) msgs sas) as [sas Hsa].
  { clear -Hm. induction Hm as [|m msgs [sa Hm] _ [sas IH]]; [by exists []|]. exists (sa :: sas). by constructor. }
  unfold send_entries, bind. rewrite (fill_entries_spec 0 msgs sas) by (done || apply entries_fit).
  rewrite take_0, app_nil_l, take_app_length'.
  2: { rewrite length_zip_with_l_eq; [done|by eapply Forall2_length]. }
  rewrite send_batch_loop by done.
  destruct (send_each_one_by_one 0 msgs sas s e Hsa ltac:(lia)) as (r & rest & c & e' & -> & -> & _ & Hr).
  eexists _, _, _. split_and!; [done..|]. destruct Hr as [->|(_ & ? & ? & ?)]; [by left|by right].
Qed.


End Sending.

(** ** Receiving by a peer *)

(** What is submitted to the serial queue of the peer. *)
Inductive pdelivery := PData (data : bytes) | PError (ec : error_code).

Section Reading.
Context {N : Type} `{TransferKernel N} (o : os).
(** [obs i]: what [deliver_data] reads in [open_] for the [i]th datagram *)
Context (obs : nat → bool) (on_data on_error : bool) (buf_size : Z).

Definition peer_deliver_data (i : nat) (data : bytes) : list pdelivery :=
  if negb (obs i) || negb on_data then [] else [PData data].

(** [dgram_peer_impl::handle_readable]; [None] when the fuel is spent. *)
Fixpoint peer_handle_readable (fuel i : nat) (p : peer_socket) : M N (list pdelivery) :=
  match fuel with
  | O => λ _, None
  | S fuel' =>
      let* r := peer_recv o buf_size 0 p in
      match r with
      | Err ec =>
          ret (if ec_eqb ec (make_error_code would_block) then [] else if on_error then [PError ec] else [])
      | Val data =>
          if (length data =? 0)%nat then ret []
          else
            let* out := peer_handle_readable fuel' (S i) p in
            ret (peer_deliver_data i data ++ out)
      end
  end.

(** The datagrams that wait at a socket, in the order of their arrival. *)
Class DatagramQueue := waiting : N → Z → list bytes.

(** As documented: [recv] takes the first, cut to the buffer, or fails; it would
    block only if none waits. *)
Class DatagramQueueLaws {Q : DatagramQueue} : Prop :=
  law_recv_queue fd len n :
    0 < len →
    let '(r, n') := sys_recv fd len 0 n in
    (∀ fd', fd' ≠ fd → waiting n' fd' = waiting n fd') ∧
    match r with
    | inl data => ∃ d, waiting n fd = d :: waiting n' fd ∧ data = take (Z.to_nat len) d
    | inr e => waiting n' fd = waiting n fd ∧
               (errno_code o e = make_error_code would_block → waiting n fd = [])
    end.

Fixpoint deliveries (i : nat) (ds : list bytes) : list pdelivery :=
  match ds with
  | [] => []
  | d :: ds' => peer_deliver_data i (take (Z.to_nat buf_size) d) ++ deliveries (S i) ds'
  end.

Context `{!DatagramQueue} `{!DatagramQueueLaws}.

Lemma peer_reads fuel i s a n :
  is_open s = true → 0 < buf_size → (length (waiting n (handle_ s)) < fuel)%nat →
  ∃ out n' taken last, peer_handle_readable fuel i (mk_peer_socket a (Some s)) n = Some (out, n') ∧
    out = deliveries i taken ++ last ∧ Forall (λ d, d ≠ []) taken ∧
    (∀ fd, fd ≠ handle_ s → waiting n' fd = waiting n fd) ∧
    ((waiting n (handle_ s) = taken ∧ waiting n' (handle_ s) = [] ∧ last = []) ∨
     (waiting n (handle_ s) = taken ++ [] :: waiting n' (handle_ s) ∧ last = []) ∨
     (∃ ec, ec ≠ make_error_code would_block ∧ waiting n (handle_ s) = taken ++ waiting n' (handle_ s) ∧
            last = if on_error then [PError ec] else [])).
Proof.
  intros Ho Hb. revert i n. induction fuel as [|fuel IH]; intros i n Hf; [lia|].
  cbn [peer_handle_readable]. unfold bind, peer_recv. simpl. rewrite Ho. simpl. unfold lift, ret, bind.
  pose proof (law_recv_queue (handle_ s) buf_size n Hb) as Hl.
  destruct (sys_recv (handle_ s) buf_size 0 n) as [[data|e] n1]. all: destruct Hl as [Hother Hl].
  - destruct Hl as (d & Hw & ->). rewrite length_take. destruct (_ =? 0)%nat eqn:E.
    + apply Nat.eqb_eq in E. destruct d as [|b d]; [|simpl in E; lia].
      eexists _, n1, [], []. split_and!; [done..|constructor|done|]. right; left. by rewrite Hw.
    + apply Nat.eqb_neq in E. rewrite Hw in Hf. simpl in Hf.
      destruct (IH (S i) n1 ltac:(lia)) as (out & n' & taken & last & -> & -> & Ht & Ho' & Hend).
      eexists _, n', (d :: taken), last. split_and!; [done|simpl; by rewrite app_assoc| | |].
      * constructor; [|done]. intros ->. simpl in E. by rewrite Nat.min_0_r in E.
      * intros fd Hne. by rewrite Ho', Hother.
      * rewrite Hw. destruct Hend as [(-> & ? & ?)|[(-> & ?)|(ec & ? & -> & ?)]]; eauto 10.
  - destruct Hl as [Hw Hnone]. destruct (ec_eqb _ _) eqn:E.
    + apply bool_decide_eq_true in E. specialize (Hnone E). eexists _, n1, [], []. split_and!; [done..|constructor|done|].
      left. rewrite Hw, Hnone. done.
    + eexists _, n1, [], _. split_and!; [done|reflexivity|constructor|done|]. right; right.
      exists (errno_code o e). rewrite Hw. split_and!; [|done..]. by apply bool_decide_eq_false in E.
Qed.

(** A claimed peer reads what waits.  For every number of datagrams that wait at
    its connected socket the receive loop returns, within one call more than there
    are datagrams; it submits to the peer's queue, in order and cut to the read
    buffer, those for which the peer was open with a handler; it stops because
    none is left, at a datagram of length zero, which it takes and drops, or at
    an error, which it reports if there is a handler; other sockets keep theirs. *)
Theorem peer_reads_in_order fuel s a n :
  is_open s = true → 0 < buf_size → (length (waiting n (handle_ s)) < fuel)%nat →
  ∃ out n' taken last, peer_handle_readable fuel 0 (mk_peer_socket a (Some s)) n = Some (out, n') ∧
    out = deliveries 0 taken ++ last ∧ Forall (λ d, d ≠ []) taken ∧
    (∀ fd, fd ≠ handle_ s → waiting n' fd = waiting n fd) ∧
    ((waiting n (handle_ s) = taken ∧ waiting n' (handle_ s) = [] ∧ last = []) ∨
     (waiting n (handle_ s) = taken ++ [] :: waiting n' (handle_ s) ∧ last = []) ∨
     (∃ ec, ec ≠ make_error_code would_block ∧ waiting n (handle_ s) = taken ++ waiting n' (handle_ s) ∧
            last = if on_error then [PError ec] else [])).
Proof. apply peer_reads. Qed.

End Reading.

(** ** Receiving by the socket *)

Section Batches.
Context {N CB : Type} `{TransferKernel N} {D : Dispatcher CB} (o : os).
Context (retrieve : Z → Z → disp → result (bytes * sock_address) * disp).
Context {Key : Type} `{Countable Key} {AC : AddrClass Key}.
(** as in [Dgram]: what is read in [open_], per call, entry and peer *)
Context (demux : bool) (obs obs_deliver obs2 : nat → nat → nat → bool).
Context (socket : sock) (buf_size : Z) (batch_size : nat).

Definition reset_entry (m : msg_batch_entry) : msg_batch_entry := mk_msg buf_size (mb_buf m) 0 (mb_addr m).

(** The sender, as the table of peers looks it up, and the bytes of an entry. *)
Definition datagram_of (m : msg_batch_entry) : Key * bytes :=
  (addr_key (typed_addr addr_size (mb_addr m)), take (Z.to_nat (mb_transferred m)) (mb_buf m)).

(** The entries are reset and the socket is read. *)
Definition receive (entries : list msg_batch_entry) :
    M (@disp CB D * N) (result (list (Key * bytes)) * list msg_batch_entry) :=
  let* (recv_r, entries) := recv_batch o retrieve (reset_entry <$> entries) socket in
  ret (match recv_r with
       | Err ec => Err ec
       | Val count => Val (datagram_of <$> take (Z.to_nat count) entries)
       end, entries).

(** [dgram_impl::handle_readable] on its socket; [iters] is [max_iterations]. *)
Fixpoint readable (iters k : nat) (entries : list msg_batch_entry) (s : dgram Key) :
    M (@disp CB D * N) (list (delivery Key) * dgram Key) :=
  match iters with
  | O => ret ([], s)
  | S iters' =>
      let* (recv_r, entries) := receive entries in
      match recv_r with
      | Err ec =>
          if ec_eqb ec (make_error_code would_block) then ret ([], s)
          else ret (if on_error_cb s then [ToError ec] else [], s)
      | Val [] => ret ([], s)
      | Val es =>
          match handle_batch demux (obs k) (obs_deliver k) (obs2 k) s es with
          | None => undefined
          | Some (out, m) =>
              let s := set_claimed m s in
              if (length es <? batch_size)%nat then ret (out, s)
              else let* (out', s') := readable iters' (S k) entries s in ret (out ++ out', s')
          end
      end
  end.

Definition max_iterations : nat := 8.

(** What the [k]th call of [recv_batch] from here on returns, and what it leaves. *)
Fixpoint received_at (k : nat) (entries : list msg_batch_entry) (e : @disp CB D * N) :
    result (list (Key * bytes)) * (@disp CB D * N) :=
  match receive entries e with
  | None => (Val [], e)
  | Some (r, entries', e') => match k with O => (r, e') | S k' => received_at k' entries' e' end
  end.

Lemma recv_each_total i msgs (e : @disp CB D * N) : is_Some (recv_each o retrieve i msgs socket e).
Proof.
  revert i e. induction msgs as [|m msgs IH]; intros i e; cbn [recv_each]; [by eexists|]. unfold bind.
  assert (is_Some (recv_from_raw o retrieve (mb_len m) 0 socket e)) as [[[p|ec] e'] ->].
  { destruct e as [d n]. unfold recv_from_raw, on_net, bind, lift, ret. destruct (negb _); [by eexists|].
    destruct o; [..|destruct (dispatcher_ socket)]; try destruct (sys_recvfrom _ _ _ n); try destruct (retrieve _ _ d);
      by eexists. }
  - destruct (IH (i + 1) e') as [[[r rest] e''] ->]. by eexists.
  - by eexists.
Qed.

Lemma receive_total entries e : is_Some (receive entries e).
Proof.
  unfold receive, bind, recv_batch. destruct (negb _); [by eexists|].
  destruct (recv_each_total 0 (reset_entry <$> entries) e) as [[[r es] e'] E].
  destruct o; [|rewrite E; by eexists..]. destruct e as [d n]. unfold on_net, bind, lift, ret.
  destruct (sys_recvmmsg _ _ _ n) as [[ps|er] n']; by eexists.
Qed.

(** A loop agrees with the routing of what its calls return. *)
Lemma readable_routes iters k entries s e recv :
  (∀ j, recv (k + j)%nat = (received_at j entries e).1) →
  match readable iters k entries s e, handle_readable iters demux obs obs_deliver obs2 batch_size recv k s with
  | Some (x, e'), Some y => x = y ∧ (e' = e ∨ ∃ j, (j < iters)%nat ∧ e' = (received_at j entries e).2)
  | None, None => True
  | _, _ => False
  end.
Proof.
  revert k entries s e. induction iters as [|iters IH]; intros k entries s e Hrecv; [simpl; auto|].
  cbn [readable handle_readable]. destruct (receive_total entries e) as [[[r entries'] e1] E].
  unfold bind. rewrite E. pose proof (Hrecv O) as H0k. rewrite Nat.add_0_r in H0k. rewrite H0k. simpl. rewrite E. simpl.
  assert (e1 = e ∨ ∃ j, (j < S iters)%nat ∧ e1 = (received_at j entries e).2) as Hone.
  { right. exists O. split; [lia|]. simpl. by rewrite E. }
  destruct r as [es|ec]; [|by destruct (ec_eqb _ _)].
  destruct es as [|x es]; [done|]. destruct (handle_batch _ _ _ _ s (x :: es)) as [[out m]|]; simpl; [|done].
  destruct (_ <? batch_size)%nat; [done|].
  specialize (IH (S k) entries' (set_claimed m s) e1). simpl in IH.
  assert (∀ j, recv (S (k + j)) = (received_at j entries' e1).1) as Hrecv'.
  { intros j. pose proof (Hrecv (S j)) as Hj. rewrite Nat.add_succ_r in Hj. rewrite Hj. simpl. by rewrite E. }
  specialize (IH Hrecv').
  destruct (readable iters (S k) entries' (set_claimed m s) e1) as [[[out' s'] e']|];
    destruct (handle_readable iters demux obs obs_deliver obs2 batch_size recv (S k) (set_claimed m s)) as [[out2 s2]|];
    simpl; try done.
  destruct IH as [[= -> ->] He]. split; [done|]. destruct He as [->|(j & Hj & ->)]; [done|]. right. exists (S j).
  split; [lia|]. simpl. by rewrite E.
Qed.


End Batches.

(** ** Witnesses *)


(** A network of queues. *)
Definition queue_recv (fd len fl : Z) (n : gmap Z (list bytes)) : (bytes + Z) * gmap Z (list bytes) :=
  match default [] (n !! fd) with
  | [] => (inr 11, n)
  | d :: q => (inl (take (Z.to_nat len) d), <[fd := q]> n)
  end.

#[export] Instance queue_net : TransferKernel (gmap Z (list bytes)) := {|
  sys_send _ data _ n := (inl (Z.of_nat (length data)), n);
  sys_recv := queue_recv;
  sys_sendto _ data _ _ n := (inl (Z.of_nat (length data)), n);
  sys_recvfrom fd len fl n :=
    match queue_recv fd len fl n with (inl p, n) => (inl (p, sock_address_default), n) | (inr e, n) => (inr e, n) end;
  sys_sendv _ bufs _ _ n := (inl (Z.of_nat (length (concat bufs))), n);
  sys_recvv _ _ _ n := (inr 11, n);
  sys_recvmmsg _ _ _ n := (inr 11, n);
  sys_sendmmsg _ msgs _ n := (inl ((λ m, Z.of_nat (length m.1)) <$> msgs), n)
|}.

#[export] Instance queue_waiting : DatagramQueue (N := gmap Z (list bytes)) := λ n fd, default [] (n !! fd).

#[export] Instance queue_net_laws : DatagramQueueLaws Linux (Q := queue_waiting).
Proof.
  intros fd len n Hl. simpl. unfold queue_recv, waiting, queue_waiting.
  destruct (default [] (n !! fd)) as [|d q] eqn:E; [by rewrite E|]. split.
  - intros fd' Hne. by rewrite lookup_insert_ne.
  - exists d. by rewrite lookup_insert_eq.
Qed.

(** Three datagrams and an empty one: the loop stops at the empty one. *)
Lemma peer_reads_in_order_witness :
  ∃ n', peer_handle_readable Linux (λ _, true) true true 2 5 0 (mk_peer_socket [] (Some (sock_of 3)))
          ({[3 := [[1]; [2; 3; 4]; []; [5]]]} : gmap Z (list bytes)) = Some ([PData [1]; PData [2; 3]], n') ∧
    waiting n' 3 = [[5]].
Proof.
  destruct (peer_reads_in_order Linux (λ _, true) true true 2 5 (sock_of 3) []
    ({[3 := [[1]; [2; 3; 4]; []; [5]]]} : gmap Z (list bytes)) eq_refl ltac:(lia) ltac:(apply Nat.ltb_lt; vm_compute; reflexivity))
    as (out & n' & taken & last & E & _).
  exists n'. assert ((λ p, (p.1, waiting p.2 3)) <$> Some (out, n') = Some ([PData [1]; PData [2; 3]], [[5]])) as Hv
    by (rewrite <-E; vm_compute; reflexivity).
  simpl in Hv. injection Hv as H1 H2. split; [by rewrite E, H1|exact H2].
Defined.
