(* ===== verification/DgramSocket.v ===== *)
(** * The life of a datagram socket

    The rest of [dgram_impl] of [src/src/high/dgram.cpp] and of
    [dgram_peer_impl] of [src/src/high/dgram_peer_impl.hpp], over the parts the
    other files model: [Registration] is the arming, pausing and resuming of a
    socket by user threads and the loop that runs what they post; then creation
    with the layout of the receive arena, sending, the read loop of a claimed
    peer's own socket, and destruction.

    The posted lambdas wait in one list: [EventLoop] proves that the queues of the
    loop are such a list and that its callbacks run in order. *)

From S2P Require Import Prelude Platform Dispatcher Address Options Socket Dgram Iocp Transfer UdpMux.

Local Open Scope Z_scope.

(** ** Arming, pausing and resuming *)

Module Registration.
Section Registration.
Context {CB : Type} {D : Dispatcher CB} (o : os) (fd : Z) (cb : CB).

(** The lambdas posted by [arm], [do_pause] and [do_resume]. *)
Inductive task := TArm | TPause | TResume.

(** What a user thread is about to do: nothing; post [arm]'s lambda; store
    [paused]; post the lambda of [do_pause] or [do_resume]. *)
Inductive pc := Idle | Arming | Storing (p : bool) | Posting (p : bool).

(** The calls of the user; a handler may be null. *)
Inductive call := COnData (handler : bool) | COnBatch (handler : bool) | CPause | CResume.

Record st := mk_st {
  on_data_set : bool; on_batch_set : bool;
  armed : bool; paused : bool;
  has_dispatcher : bool;            (** [socket.set_dispatcher], on Windows *)
  posts : list task;
  io : disp
}.

Definition set_armed (b : bool) (s : st) : st :=
  mk_st (on_data_set s) (on_batch_set s) b (paused s) (has_dispatcher s) (posts s) (io s).
Definition set_paused (b : bool) (s : st) : st :=
  mk_st (on_data_set s) (on_batch_set s) (armed s) b (has_dispatcher s) (posts s) (io s).
Definition set_handlers (x y : bool) (s : st) : st :=
  mk_st x y (armed s) (paused s) (has_dispatcher s) (posts s) (io s).
Definition set_io (d : disp) (s : st) : st :=
  mk_st (on_data_set s) (on_batch_set s) (armed s) (paused s) (has_dispatcher s) (posts s) d.
Definition post (t : task) (s : st) : st :=
  mk_st (on_data_set s) (on_batch_set s) (armed s) (paused s) (has_dispatcher s) (posts s ++ [t]) (io s).

(** [arm] up to its [exchange]. *)
Definition arm (s : st) : pc * st :=
  if armed s then (Idle, s) else (Arming, set_armed true s).

Definition begin (c : call) (s : st) : pc * st :=
  match c with
  | COnData h => arm (set_handlers h false s)
  | COnBatch h => arm (set_handlers false h s)
  | CPause => if negb (armed s) then (Idle, s) else (Storing true, s)
  | CResume => if negb (armed s) then (Idle, s) else (Storing false, s)
  end.

(** The next step of a call that has begun. *)
Definition advance (p : pc) (s : st) : pc * st :=
  match p with
  | Idle => (Idle, s)
  | Arming => (Idle, post TArm s)
  | Storing b => (Posting b, set_paused b s)
  | Posting b => (Idle, post (if b then TPause else TResume) s)
  end.

(** The posted lambdas; the results of the dispatcher are ignored. *)
Definition run_task (t : task) (s : st) : st :=
  match t with
  | TArm =>
      let s := mk_st (on_data_set s) (on_batch_set s) (armed s) (paused s)
                 (match o with Windows => true | _ => has_dispatcher s end) (posts s) (io s) in
      set_io (d_add fd ev_readable cb (io s)).2 s
  | TPause =>
      match o with
      | Windows => set_io (d_modify fd ev_none (io s)).2 s
      | _ => set_io (d_remove fd (io s)).2 s
      end
  | TResume =>
      match o with
      | Windows => set_io (d_modify fd ev_readable (io s)).2 s
      | _ => set_io (d_add fd ev_readable cb (io s)).2 s
      end
  end.

Definition next_task (s : st) : option (task * st) :=
  match posts s with
  | [] => None
  | t :: ts => Some (t, mk_st (on_data_set s) (on_batch_set s) (armed s) (paused s) (has_dispatcher s) ts (io s))
  end.

(** The user threads, the loop, and other sockets of the same dispatcher. *)
Inductive step : list pc * st → list pc * st → Prop :=
| step_call i c ps s p s' :
    ps !! i = Some Idle → begin c s = (p, s') → step (ps, s) (<[i := p]> ps, s')
| step_advance i ps s p p' s' :
    ps !! i = Some p → p ≠ Idle → advance p s = (p', s') → step (ps, s) (<[i := p']> ps, s')
| step_loop ps s t s' :
    next_task s = Some (t, s') → step (ps, s) (ps, run_task t s')
| step_other ps s d :
    d_wf d → d_lookup d fd = d_lookup (io s) fd → step (ps, s) (ps, set_io d s).

Definition init (d : disp) : st := mk_st false false false false false [] d.

(** *** What the registration should be *)

Inductive reg := Absent | Reading | Muted.

Definition view (r : reg) : option (Z * CB) :=
  match r with
  | Absent => None
  | Reading => Some (effective ev_readable, cb)
  | Muted => Some (effective ev_none, cb)
  end.

(** The registration that [armed] and [paused] promise. *)
Definition promised (a p : bool) : reg :=
  if negb a then Absent
  else if p then match o with Windows => Muted | _ => Absent end
  else Reading.

(** A lambda's effect on the registration, where the code runs it. *)
Definition effect (r : reg) (t : task) : reg :=
  match o, t with
  | _, TArm => Reading
  | Windows, TPause => match r with Absent => Absent | _ => Muted end
  | Windows, TResume => match r with Absent => Absent | _ => Reading end
  | _, TPause => Absent
  | _, TResume => Reading
  end.

Definition settled (r : reg) (d : disp) : Prop := d_wf d ∧ d_lookup d fd = view r.

Context `{!DispatcherLaws D} `{!DispatcherReliable D}.
(** Adding a socket that is not registered succeeds. *)
Context (Hadd : ∀ i d, d_wf d → d_lookup d fd = None → rv_bool (d_add fd i cb d).1 = true).

Lemma add_settles r d : r ≠ Muted → settled r d → settled Reading (d_add fd ev_readable cb d).2.
Proof using Hadd DispatcherLaws0.
  intros Hr [Hwf Hl]. destruct (d_add fd ev_readable cb d) as [rv d'] eqn:E.
  destruct (law_add _ _ _ _ _ _ Hwf E) as (Hwf' & _ & Hl'). split; [done|]. simpl. rewrite Hl'.
  destruct (rv_bool rv) eqn:Erv; [done|]. rewrite Hl. destruct r; [|done..].
  specialize (Hadd ev_readable d Hwf Hl). rewrite E in Hadd. simpl in Hadd. congruence.
Qed.

Lemma remove_settles r d : settled r d → settled Absent (d_remove fd d).2.
Proof using DispatcherLaws0.
  intros [Hwf Hl]. pose proof (law_remove_ok fd d Hwf) as Hok. destruct (d_remove fd d) as [rv d'] eqn:E.
  destruct (law_remove _ _ _ _ Hwf E) as (Hwf' & _ & Hl'). split; [done|]. simpl. rewrite Hl'.
  destruct (rv_bool rv) eqn:Erv; [done|]. destruct (d_lookup d fd) eqn:El; [|done].
  simpl in Hok. rewrite Hok in Erv by eauto. discriminate.
Qed.

Lemma modify_settles r (b : bool) d :
  settled r d →
  settled (match r with Absent => Absent | _ => if b then Reading else Muted end)
    (d_modify fd (if b then ev_readable else ev_none) d).2.
Proof using DispatcherLaws0 DispatcherReliable0.
  intros [Hwf Hl]. set (j := if b then ev_readable else ev_none).
  pose proof (law_modify_ok fd j d Hwf) as Hok. destruct (d_modify fd j d) as [rv d'] eqn:E.
  destruct (law_modify _ _ _ _ _ Hwf E) as (Hwf' & _ & Hl'). split; [done|]. simpl. rewrite Hl'.
  destruct r; simpl in *; rewrite Hl in *; simpl; [by destruct (rv_bool rv)|..];
    rewrite Hok by eauto; unfold j; by destruct b.
Qed.

(** A posted lambda has its effect, [arm]'s one on a socket not registered. *)
Lemma task_settles t r s :
  settled r (io s) → (t = TArm → r = Absent) → (o ≠ Windows → r ≠ Muted) →
  settled (effect r t) (io (run_task t s)).
Proof using Hadd DispatcherLaws0 DispatcherReliable0.
  intros Hs Harm Hm. unfold run_task, effect. destruct t.
  - rewrite (Harm eq_refl) in Hs. destruct o; by apply (add_settles Absent).
  - destruct o; [by eapply remove_settles..|]. by apply (modify_settles r false).
  - destruct o; [by apply (add_settles r); auto..|]. by apply (modify_settles r true).
Qed.

(** What a thread is still going to post, and the value of [paused] then. *)
Definition todo (p : pc) : list task :=
  match p with
  | Idle => []
  | Arming => [TArm]
  | Storing b | Posting b => [if b then TPause else TResume]
  end.
Definition target (p : pc) (b : bool) : bool := match p with Storing b' => b' | _ => b end.

(** With one user thread: the pending lambdas lead to the promised registration;
    [arm]'s lambda comes first, and only once. *)
Record inv (p : pc) (s : st) (r : reg) (ran : bool) (ts : list task) : Prop := {
  i_settled : settled r (io s);
  i_posts : posts s ++ todo p = if ran then ts else if armed s then TArm :: ts else [];
  i_arms : TArm ∉ ts;
  i_ran : (ran = true → armed s = true) ∧ (ran = false → r = Absent);
  i_paused : armed s = false → paused s = false ∧ p = Idle;
  i_reg : match o with Windows => ran = true → r ≠ Absent | _ => r ≠ Muted end;
  i_leads : fold_left effect (posts s ++ todo p) r = promised (armed s) (target p (paused s));
  i_handlers : on_data_set s && on_batch_set s = false;
  i_posting : ∀ b, p = Posting b → paused s = b
}.

Definition inv_ex (p : pc) (s : st) : Prop := ∃ r ran ts, inv p s r ran ts.

Lemma init_registration d : settled Absent d → inv_ex Idle (init d).
Proof using Type. intros Hd. exists Absent, false, []. split; simpl; try done; [apply not_elem_of_nil|by destruct o]. Qed.

(** The lambda of a pause or resume takes the promised registration to the new one. *)
Lemma promised_effect (b b' : bool) :
  effect (promised true b) (if b' then TPause else TResume) = promised true b'.
Proof using Type. unfold effect, promised. by destruct o, b, b'. Qed.

Lemma storing_inv (b : bool) s : armed s = true → inv_ex Idle s → inv_ex (Storing b) s.
Proof using Type.
  intros Ha (r & ran & ts & [Hd Hp Harm Hran Hpa Hreg Hl Hh _]). rewrite Ha in Hp, Hl.
  simpl in *. rewrite app_nil_r in *. exists r, ran, (ts ++ [if b then TPause else TResume]).
  split; simpl; rewrite ?Ha; try done.
  - rewrite Hp. by destruct ran.
  - rewrite elem_of_app, list_elem_of_singleton. intros [?|?]; [done|by destruct b].
  - by destruct Hran.
  - rewrite fold_left_app, Hl. apply promised_effect.
Qed.

Lemma handlers_inv p x y s : x && y = false → inv_ex p s → inv_ex p (set_handlers x y s).
Proof using Type. intros Hxy (r & ran & ts & [? ? ? ? ? ? ? ? ?]). exists r, ran, ts. by split. Qed.

Lemma arm_inv s p s' : inv_ex Idle s → arm s = (p, s') → inv_ex p s'.
Proof using Type.
  intros Hi E. unfold arm in E. destruct (armed s) eqn:Ea; simplify_eq/=; [done|].
  destruct Hi as (r & ran & ts & [Hd Hp Harm [Hr Hr'] Hpa Hreg Hl Hh _]).
  destruct (Hpa Ea) as [Hps _]. rewrite Ea in Hp, Hr.
  destruct ran; [by specialize (Hr eq_refl)|]. rewrite (Hr' eq_refl) in *.
  simpl in Hp. rewrite app_nil_r in Hp. exists Absent, false, [].
  split; simpl; rewrite ?Hp, ?Hps; try done; [apply not_elem_of_nil|].
  unfold effect, promised. by destruct o.
Qed.

Lemma begin_inv c s p s' : inv_ex Idle s → begin c s = (p, s') → inv_ex p s'.
Proof using Type.
  intros Hi E. destruct c as [h|h| |]; simpl in E.
  - eapply arm_inv; [|exact E]. apply handlers_inv; [by rewrite andb_false_r|done].
  - eapply arm_inv; [|exact E]. by apply handlers_inv.
  - destruct (armed s) eqn:Ea; simplify_eq/=; [by apply storing_inv|done].
  - destruct (armed s) eqn:Ea; simplify_eq/=; [by apply storing_inv|done].
Qed.

Lemma advance_inv p s p' s' : inv_ex p s → advance p s = (p', s') → inv_ex p' s'.
Proof using Type.
  intros (r & ran & ts & [Hd Hp Harm Hran Hpa Hreg Hl Hh Hpo]) E. exists r, ran, ts.
  destruct p as [| |b|b]; simplify_eq/=; split; simpl in *; rewrite ?app_nil_r in Hp; rewrite ?app_nil_r in Hl;
    rewrite ?app_nil_r; try done;
    try (intros Ha; by destruct (Hpa Ha)).
  by intros ? [= ->].
Qed.

Lemma loop_inv p s t s' : inv_ex p s → next_task s = Some (t, s') → inv_ex p (run_task t s').
Proof using Hadd DispatcherLaws0 DispatcherReliable0.
  intros (r & ran & ts & [Hd Hp Harm [Hr Hr'] Hpa Hreg Hl Hh Hpo]) E.
  unfold next_task in E. destruct (posts s) as [|t' q] eqn:Eq; simplify_eq/=.
  set (s' := mk_st _ _ _ _ _ q _).
  assert (io s' = io s ∧ posts (run_task t s') = q ∧ armed (run_task t s') = armed s ∧
    paused (run_task t s') = paused s ∧ on_data_set (run_task t s') = on_data_set s ∧
    on_batch_set (run_task t s') = on_batch_set s) as (Eio & E1 & E2 & E3 & E4 & E5)
    by (unfold run_task; by destruct t, o).
  assert (r ≠ Muted ∨ o = Windows) as Hm by (destruct o; auto).
  assert (settled (effect r t) (io (run_task t s')) ∧ (t = TArm → ran = false)) as [Hs Ht].
  { assert (t = TArm → r = Absent ∧ ran = false) as Hta.
    { intros ->. destruct ran; [|auto]. destruct Harm. rewrite <- Hp. set_solver. }
    split; [|naive_solver]. apply task_settles; [by rewrite Eio|naive_solver|naive_solver]. }
  exists (effect r t), true, (q ++ todo p).
  assert (armed s = true ∧ TArm ∉ q ++ todo p) as [Ha Hq].
  { destruct ran; [split; [auto|]; rewrite <- Hp in Harm; set_solver|].
    destruct (armed s); [|done]. by injection Hp as -> ->. }
  split; rewrite ?E1, ?E2, ?E3, ?E4, ?E5; try done.
  unfold effect. destruct o, t, r; try done; intros _;
    (destruct ran; [by specialize (Hreg eq_refl)|]); rewrite Ha in Hp; discriminate Hp.
Qed.

Lemma one_thread_inv ps s d :
  settled Absent d → rtc step ([Idle], init d) (ps, s) → ∃ p, ps = [p] ∧ inv_ex p s.
Proof using Hadd DispatcherLaws0 DispatcherReliable0.
  intros Hd Hr.
  eapply (rtc_preserves step (λ x, ∃ p, x.1 = [p] ∧ inv_ex p x.2) _ (ps, s)); [|exact Hr|].
  - clear Hr ps s. intros [ps s] [ps' s'] Hstep (p & E & Hi). simpl in *. subst ps.
    inversion Hstep as [i c ? ? q ? Hi' Eb|i ? ? p0 q ? Hi' Hne Ea|? ? t s1 En|? ? d' Hwf Hl]; subst.
    + destruct i; simplify_eq/=. exists q. split; [done|]. by eapply begin_inv.
    + destruct i; simplify_eq/=. exists q. split; [done|]. by eapply advance_inv.
    + exists p. split; [done|]. by eapply loop_inv.
    + exists p. split; [done|]. destruct Hi as (r & ran & ts & [[? ?] ? ? ? ? ? ? ? ?]).
      exists r, ran, ts. split; try done. split; [done|]. simpl. congruence.
  - exists Idle. split; [done|]. by apply init_registration.
Qed.


Definition with_posts (q : list task) (s : st) : st :=
  mk_st (on_data_set s) (on_batch_set s) (armed s) (paused s) (has_dispatcher s) q (io s).

Lemma run_with_posts t q s : run_task t (with_posts q s) = with_posts q (run_task t s).
Proof using Type. unfold run_task. by destruct t, o. Qed.

(** The loop can always catch up with what is posted. *)
Lemma loop_catches_up ps ts s :
  rtc step (ps, with_posts ts s) (ps, with_posts [] (fold_left (λ s t, run_task t s) ts s)).
Proof using Type.
  revert s. induction ts as [|t ts IH]; intros s; [done|]. simpl.
  eapply rtc_l; [by eapply step_loop|]. change (mk_st _ _ _ _ _ ts _) with (with_posts ts s).
  rewrite run_with_posts. apply IH.
Qed.

(** Without that discipline the flag and the registration can disagree for good:
    a pause and a resume whose stores and posts interleave end with [paused] at
    either value and the registration of the other. *)
Theorem pause_resume_race (b : bool) d :
  d_wf d → d_lookup d fd = None →
  ∃ s, rtc step ([Idle; Idle], init d) ([Idle; Idle], s) ∧
    posts s = [] ∧ armed s = true ∧ paused s = b ∧ d_lookup (io s) fd = view (promised true (negb b)).
Proof using Hadd DispatcherLaws0 DispatcherReliable0.
  intros Hwf Hno. pose (s0 := mk_st true false true false false [TArm] d).
  pose (call (x : bool) := if x then CPause else CResume).
  pose (lambda (x : bool) := if x then TPause else TResume).
  assert (∀ x, begin (call x) s0 = (Storing x, s0)) as Hbegin by by intros [].
  pose (s1 := mk_st true false true b false [] d). set (ts := [TArm; lambda b; lambda (negb b)]).
  exists (with_posts [] (fold_left (λ s t, run_task t s) ts s1)). split.
  - eapply rtc_l; [by eapply (step_call 0 (COnData true) _ _ Arming)|].
    eapply rtc_l; [by eapply (step_advance 0 _ _ Arming)|].
    eapply rtc_l; [by eapply (step_call 0 (call b)); [|apply Hbegin]|].
    eapply rtc_l; [by eapply (step_call 1 (call (negb b))); [|apply Hbegin]|].
    eapply rtc_l; [by eapply (step_advance 1 _ _ (Storing (negb b)))|].
    eapply rtc_l; [by eapply (step_advance 0 _ _ (Storing b))|].
    eapply rtc_l; [by eapply (step_advance 0 _ _ (Posting b))|].
    eapply rtc_l; [by eapply (step_advance 1 _ _ (Posting (negb b)))|].
    apply (loop_catches_up _ ts s1).
  - assert (settled (promised true (negb b)) (io (fold_left (λ s t, run_task t s) ts s1))) as [_ Hl].
    { rewrite <- (promised_effect b (negb b)). simpl. apply task_settles; [|by destruct b|].
      - rewrite <- (promised_effect false b). apply task_settles; [|by destruct b|done].
        by apply (add_settles Absent).
      - unfold promised. by destruct o, b. }
    split_and!; [done|..|done]; simpl; unfold run_task, lambda; by destruct o, b.
Qed.

End Registration.

Definition demo_paused : st (D := map_dispatcher) := mk_st true false true true false [] (∅ : gmap Z (Z * nat)).

Lemma demo_paused_reached :
  rtc (step (D := map_dispatcher) Linux 5 7%nat) ([Idle], init (∅ : gmap Z (Z * nat))) ([Idle], demo_paused).
Proof.
  eapply rtc_l; [by eapply (step_call _ _ _ 0 (COnData true) _ _ Arming)|].
  eapply rtc_l; [by eapply (step_advance _ _ _ 0 _ _ Arming)|].
  eapply rtc_l; [by eapply step_loop|].
  eapply rtc_l; [by eapply (step_call _ _ _ 0 CPause _ _ (Storing true))|].
  eapply rtc_l; [by eapply (step_advance _ _ _ 0 _ _ (Storing true))|].
  eapply rtc_l; [by eapply (step_advance _ _ _ 0 _ _ (Posting true))|].
  apply rtc_once.
  refine (step_loop Linux 5 7%nat [Idle] _ TPause
    (mk_st true false true true false [] {[5 := (effective ev_readable, 7%nat)]}) _).
  reflexivity.
Qed.


End Registration.

(** ** Creation *)

Record dgram_config := mk_config {
  worker_threads : Z; sock_opts : socket_options; read_buffer_size : Z; recv_batch_size : Z
}.

(** An entry of the batch as [do_create] prepares it: the place of its buffer in
    the arena, and its length; [size_t] arithmetic. *)
Record slice := mk_slice { sl_buf : Z; sl_len : Z }.

Definition arena_size (c : dgram_config) : Z := u64 (recv_batch_size c * read_buffer_size c).
Definition batch_entries (c : dgram_config) : list slice :=
  (λ i, mk_slice (u64 (Z.of_nat i * read_buffer_size c)) (read_buffer_size c)) <$>
    seq 0 (Z.to_nat (recv_batch_size c)).

(** The receive buffers of a batch are disjoint parts of the arena.  If the
    arena's size fits in [size_t], there is one entry per message of a batch, each
    of the configured length and within the arena, and no two overlap, so that a
    batch of full datagrams overwrites neither itself nor anything else. *)
Theorem arena_partitioned c :
  0 ≤ recv_batch_size c → 0 ≤ read_buffer_size c → recv_batch_size c * read_buffer_size c < 2 ^ 64 →
  Z.of_nat (length (batch_entries c)) = recv_batch_size c ∧
  (∀ i e, batch_entries c !! i = Some e →
     sl_len e = read_buffer_size c ∧ 0 ≤ sl_buf e ∧ sl_buf e + sl_len e ≤ arena_size c) ∧
  (∀ i j e e', (i < j)%nat → batch_entries c !! i = Some e → batch_entries c !! j = Some e' →
     sl_buf e + sl_len e ≤ sl_buf e').
Proof.
  intros Hb Hr Hfit.
  assert (∀ i e, batch_entries c !! i = Some e →
    Z.of_nat i < recv_batch_size c ∧ e = mk_slice (Z.of_nat i * read_buffer_size c) (read_buffer_size c)) as He.
  { intros i e Hi. unfold batch_entries in Hi. apply list_lookup_fmap_Some in Hi as (j & -> & Hj).
    apply lookup_seq in Hj as [-> Hlt]. simpl. split; [lia|]. f_equal. apply wrap_id. unfold in_width. nia. }
  split; [|split].
  - unfold batch_entries. rewrite length_fmap, length_seq. lia.
  - intros i e [Hi ->]%He. unfold arena_size. rewrite wrap_id by (unfold in_width; nia). simpl. split_and!; nia.
  - intros i j e e' Hij [Hi ->]%He [Hj ->]%He. simpl. nia.
Qed.

Lemma arena_partitioned_witness :
  let c := mk_config 0 options_default 65536 32 in
  length (batch_entries c) = 32%nat ∧
  ∀ i e, batch_entries c !! i = Some e → 0 ≤ sl_buf e ∧ sl_buf e + sl_len e ≤ 2097152.
Proof.
  cbv zeta. split; [reflexivity|]. intros i e Hi.
  destruct (arena_partitioned (mk_config 0 options_default 65536 32)) as (_ & He & _);
    [simpl; lia|simpl; lia|simpl; lia|]. by destruct (He i e Hi) as (_ & ? & ?).
Defined.

(** The options a socket is opened with. *)
Definition effective_opts (o : os) (opts : socket_options) : option socket_options :=
  match o with
  | Windows => if negb (has_reuse_addr_ opts) then call_method o (MExclusiveAddr true) opts else Some opts
  | _ =>
      opts ← (if negb (has_reuse_addr_ opts) then call_method o (MReuseAddr true) opts else Some opts);
      call_method o (MReusePort true) opts
  end.

Lemma build_app o ms ms' so : build o (ms ++ ms') so = (so' ← build o ms so; build o ms' so').
Proof.
  revert so. induction ms as [|m ms IH]; intros so; simpl; [done|].
  destruct (call_method o m so); simpl; [apply IH|done].
Qed.

(** The calls that were added to the user's. *)
Definition added_methods (o : os) (opts : socket_options) : list method :=
  match o with
  | Windows => if has_reuse_addr_ opts then [] else [MExclusiveAddr true]
  | _ => (if has_reuse_addr_ opts then [] else [MReuseAddr true]) ++ [MReusePort true]
  end.

Lemma effective_opts_build o opts : effective_opts o opts = build o (added_methods o opts) opts.
Proof.
  unfold effective_opts, added_methods. destruct o, (has_reuse_addr_ opts); cbn [negb app build mbind option_bind];
    try done; repeat (destruct (call_method _ _ _); simpl; try done).
Qed.

Lemma effective_opts_built o opts :
  Apply.built o opts → ∃ opts', effective_opts o opts = Some opts' ∧ Apply.built o opts'.
Proof.
  intros (ms & Hms & Hb). rewrite effective_opts_build.
  assert (Forall (Apply.method_ok o) (ms ++ added_methods o opts)) as Hall.
  { apply Forall_app. split; [done|]. unfold added_methods.
    destruct o, (has_reuse_addr_ opts); repeat constructor. }
  destruct (Apply.build_ok (H := Apply.log_kernel) o _ options_default [] (SmallVector.repr_empty _) Hall) as (so & es & Hso & _).
  exists so. pose proof Hso as Hso'. rewrite build_app, Hb in Hso'. split; [exact Hso'|]. by exists (ms ++ added_methods o opts).
Qed.

(** ** The life of a socket and its peers *)

(** What the addresses of a class are. *)
Class AddrLaws {Key : Type} (AC : AddrClass Key) : Prop := {
  law_addr_size : (addr_size ≤ 128)%nat;
  law_addr_sock a : (addr_size ≤ length a)%nat → is_Some (addr_sock a)
}.

#[export] Instance addr4_laws : AddrLaws addr4.
Proof.
  split; simpl; [lia|]. intros a Ha. unfold to_sock4, sock_address_of.
  cbn -[put take zeros Nat.leb]. rewrite (proj2 (Nat.leb_le _ _)) by lia. by eexists.
Qed.

#[export] Instance addr6_laws : AddrLaws addr6.
Proof.
  split; simpl; [lia|]. intros a Ha. unfold to_sock6, sock_address_of.
  cbn -[put take zeros Nat.leb]. rewrite (proj2 (Nat.leb_le _ _)) by lia. by eexists.
Qed.

Module Life.
Section Life.
Context {K : Type} `{SK : SocketKernel K} {CB : Type} {D : Dispatcher CB}.
Context {Key : Type} `{!EqDecision Key} `{!Countable Key} {AC : AddrClass Key}.
Context (o : os).
(** The default-constructed [Address]. *)
Context (addr_default : bytes).
(** The callback a peer is registered with; it refers to the peer. *)
Context (peer_cb : nat → CB).

(** A claimed peer: [open_], its socket where the kernel routes to it, and the
    size of its read buffer. *)
Record dpeer := mk_dpeer {
  dp_key : Key; dp_open : bool; dp_socket : peer_socket; dp_buf : Z
}.

(** A [dgram] and the handles of its peers, each with its [impl_].  [w_alive]
    holds until [dgram_impl], which owns the loop of the peers, is destroyed. *)
Record world := mk_world {
  w_socket : sock; w_opts : socket_options; w_buf_size : Z; w_alive : bool;
  w_table : gmap Key nat; w_peers : gmap nat dpeer; w_next : nat;
  w_handles : gmap nat (option nat);
  w_posts : list (nat * Z)               (** registrations posted by [arm] *)
}.

Abbreviation env := (@disp CB D * K)%type.

Definition demux : bool := has_kernel_udp_demux o.

Definition set_table (t : gmap Key nat) (w : world) : world :=
  mk_world (w_socket w) (w_opts w) (w_buf_size w) (w_alive w) t (w_peers w) (w_next w) (w_handles w) (w_posts w).
Definition set_peer (id : nat) (p : dpeer) (w : world) : world :=
  mk_world (w_socket w) (w_opts w) (w_buf_size w) (w_alive w) (w_table w) (<[id := p]> (w_peers w)) (w_next w)
    (w_handles w) (w_posts w).
Definition set_handles (h : gmap nat (option nat)) (w : world) : world :=
  mk_world (w_socket w) (w_opts w) (w_buf_size w) (w_alive w) (w_table w) (w_peers w) (w_next w) h (w_posts w).
Definition set_posts (q : list (nat * Z)) (w : world) : world :=
  mk_world (w_socket w) (w_opts w) (w_buf_size w) (w_alive w) (w_table w) (w_peers w) (w_next w) (w_handles w) q.

(** [do_create] from a default-constructed object; the pool, the serial queue
    and the loop's thread are those of [ThreadPool] and [EventLoop]. *)
Definition do_create (addr : bytes) (config : dgram_config) : M env (result world) :=
  match effective_opts o (sock_opts config) with
  | None => undefined
  | Some opts =>
      with_sock (addr_sock addr) (λ sa,
        let* (r, s) := on_net (udp_open o addr_af sa opts sock_default) in
        if negb (rv_bool r) then ret (Err (rv_error r))
        else
          let* _ := on_net (set_non_blocking o true s) in
          ret (Val (mk_world s opts (read_buffer_size config) true ∅ ∅ 0 ∅ [])))
  end.

Definition do_local_addr (w : world) : M K bytes :=
  let* r := local_address o (w_socket w) in
  ret (match r with Val a => typed_addr addr_size a | Err _ => addr_default end).

(** [do_relinquish] of a peer; it uses the loop of the [dgram]. *)
Definition peer_relinquish (id : nat) (w : world) : M env world :=
  match w_peers w !! id with
  | None => ret w
  | Some p =>
      if negb (dp_open p) then ret w
      else if demux && peer_is_open (dp_socket p) then
        if negb (w_alive w) then undefined
        else
          let* _ := lift (λ '(d, k), let '(r, d) := d_remove (peer_handle (dp_socket p)) d in (r, (d, k))) in
          let* (s, _) := on_net (peer_assign o (dp_socket p) (mk_peer_socket addr_default None)) in
          ret (set_peer id (mk_dpeer (dp_key p) false s (dp_buf p)) w)
      else ret (set_peer id (mk_dpeer (dp_key p) false (dp_socket p) (dp_buf p)) w)
  end.

(** [claim]: [do_claim] with a new peer, its arming, and the handle [v].  On a
    user's thread the first part is posted and waited for. *)
Definition claim (v : nat) (addr : bytes) (w : world) : M env (result_void * world) :=
  match w_table w !! addr_key addr with
  | Some _ => ret (rv_of address_in_use, w)
  | None =>
      let claimed sock buf posts :=
        mk_world (w_socket w) (w_opts w) (w_buf_size w) (w_alive w)
          (<[addr_key addr := w_next w]> (w_table w))
          (<[w_next w := mk_dpeer (addr_key addr) true sock buf]> (w_peers w)) (S (w_next w))
          (<[v := Some (w_next w)]> (w_handles w)) (w_posts w ++ posts) in
      if demux then
        let* local := on_net (do_local_addr w) in
        let* r := on_net (peer_create o addr_af addr_sock local addr options_default) in
        match r with
        | Err e => ret (mk_result_void e, w)
        | Val s =>
            ret (rv_ok, if peer_is_open s then claimed s (w_buf_size w) [(w_next w, peer_handle s)]
                        else claimed s 0 [])
        end
      else ret (rv_ok, claimed (mk_peer_socket addr_default None) 0 [])
  end.

(** [do_relinquish] of the [dgram]. *)
Definition unclaim (addr : bytes) (w : world) : M env world :=
  match w_table w !! addr_key addr with
  | Some id =>
      let* w := peer_relinquish id w in
      ret (set_table (delete (addr_key addr) (w_table w)) w)
  | None => ret w
  end.

(** The members of [dgram4_peer] and [dgram6_peer]: relinquish, the destructor,
    the moves. *)
Definition handle_open (h : option nat) (w : world) : bool :=
  match h with
  | Some id => match w_peers w !! id with Some p => dp_open p | None => false end
  | None => false
  end.
Definition handle_relinquish (h : option nat) (w : world) : M env world :=
  match h with Some id => peer_relinquish id w | None => ret w end.
Definition handle_drop (h : option nat) (w : world) : M env world :=
  if handle_open h w then handle_relinquish h w else ret w.

(** The loop runs the lambda of a peer's [arm]. *)
Definition run_post (w : world) : M env world :=
  match w_posts w with
  | [] => ret w
  | (id, fd) :: q =>
      let* _ := lift (λ '(d, k), let '(r, d) := d_add fd ev_readable (peer_cb id) d in (r, (d, k))) in
      ret (set_posts q w)
  end.

Inductive op :=
| OClaim (v : nat) (addr : bytes)      (** [v] a new handle *)
| ORelinquish (v : nat)
| ODestroy (v : nat)
| OMove (v u : nat)                    (** [v] a new handle made of [u] *)
| OAssign (v u : nat)
| OUnclaim (addr : bytes)
| OLoop.

(** Operations on handles that do not exist, or that exist already, and claims
    on a [dgram] that is gone, are not programs. *)
Definition exec_op (x : op) (w : world) : M env world :=
  match x with
  | OClaim v addr =>
      match w_handles w !! v with
      | None => if w_alive w then let* (_, w) := claim v addr w in ret w else ret w
      | Some _ => ret w
      end
  | ORelinquish v =>
      match w_handles w !! v with Some h => handle_relinquish h w | None => ret w end
  | ODestroy v =>
      match w_handles w !! v with
      | Some h => let* w := handle_drop h w in ret (set_handles (delete v (w_handles w)) w)
      | None => ret w
      end
  | OMove v u =>
      match w_handles w !! v, w_handles w !! u with
      | None, Some h => ret (set_handles (<[v := h]> (<[u := None]> (w_handles w))) w)
      | _, _ => ret w
      end
  | OAssign v u =>
      if decide (v = u) then ret w
      else
        match w_handles w !! v, w_handles w !! u with
        | Some h, Some h' =>
            let* w := handle_drop h w in
            ret (set_handles (<[v := h']> (<[u := None]> (w_handles w))) w)
        | _, _ => ret w
        end
  | OUnclaim addr => if w_alive w then unclaim addr w else ret w
  | OLoop => if w_alive w then run_post w else ret w
  end.

Fixpoint exec_ops (xs : list op) (w : world) : M env world :=
  match xs with
  | [] => ret w
  | x :: xs' => let* w := exec_op x w in exec_ops xs' w
  end.

(** All that is posted. *)
Fixpoint run_posts (n : nat) (w : world) : M env world :=
  match n with
  | O => ret w
  | S n' => let* w := run_post w in run_posts n' w
  end.

(** The lambda posted by [do_destroy]. *)
Fixpoint relinquish_all (ids : list nat) (w : world) : M env world :=
  match ids with
  | [] => ret (set_table ∅ w)
  | id :: ids' => let* w := peer_relinquish id w in relinquish_all ids' w
  end.

(** [do_destroy] and the destruction of [dgram_impl].  [drained]: whether the
    loop runs what is posted before it sees the request to stop; [armed] and
    [paused] are the values of the two flags. *)
Definition do_destroy (drained armed paused : bool) (w : world) : M env world :=
  let s := w_socket w in
  let* _ := (if is_open s
             then let* _ := on_net (λ k, Apply.leave_all_multicast (H := at_fd (handle_ s)) o (w_opts w) k) in ret ()
             else ret ()) in
  let* _ := (if is_open s then let* _ := on_net (shutdown o shut_both s) in ret () else ret ()) in
  let* w := (if drained
             then let* w := run_posts (length (w_posts w)) w in relinquish_all ((map_to_list (w_table w)).*2) w
             else ret w) in
  let* s :=
    (if is_open s then
       let registered := match o with Windows => armed | _ => armed && negb paused end in
       let* _ := (if registered
                  then lift (λ '(d, k), let '(r, d) := d_remove (handle_ s) d in ((), (d, k)))
                  else ret ()) in
       let* (_, s) := on_net (close o s) in ret s
     else ret s) in
  ret (mk_world s (w_opts w) (w_buf_size w) false ∅ (w_peers w) (w_next w) (w_handles w) []).

(** *** Who owns which descriptor *)

Definition peer_own (p : dpeer) : gset Z :=
  match impl_ (dp_socket p) with Some s => own s | None => ∅ end.

(** Owner 0 is the socket, owner [S id] the peer [id]. *)
Definition owner (w : world) (x : nat) : gset Z :=
  match x with
  | O => own (w_socket w)
  | S id => match w_peers w !! id with Some p => peer_own p | None => ∅ end
  end.

(** An open peer has a handle and, while the [dgram] lives, is in its table; only
    open peers of platforms with routing own a descriptor. *)
Record peer_ok (w : world) (id : nat) (p : dpeer) : Prop := {
  pk_id : (id < w_next w)%nat;
  pk_handle : dp_open p = true → ∃ v, w_handles w !! v = Some (Some id);
  pk_table : dp_open p = true → w_alive w = true → w_table w !! dp_key p = Some id;
  pk_own : dp_open p && demux = false → peer_own p = ∅
}.

(** [F]: the descriptors open outside; [r]: the registration of the socket. *)
Record inv (F : gset Z) (r : option (Z * CB)) (w : world) (e : env) : Prop := {
  v_wf : d_wf e.1;
  v_own : owned_once F ∅ (open_fds e.2) (owner w);
  v_opts : Apply.built o (w_opts w);
  v_reg : is_open (w_socket w) = true → d_lookup e.1 (handle_ (w_socket w)) = r;
  v_posts : is_open (w_socket w) = true → Forall (λ x, x.2 ≠ handle_ (w_socket w)) (w_posts w);
  v_peers : ∀ id p, w_peers w !! id = Some p → peer_ok w id p
}.

(** Once the [dgram] is gone, no peer needs its loop any more. *)
Definition quiet (w : world) : Prop :=
  w_alive w = false → ∀ id p, w_peers w !! id = Some p → peer_own p = ∅.

(** [w'] differs from [w] in that peer [id] is closed. *)
Record closes (id : nat) (w w' : world) : Prop := {
  cl_frame : ∃ ps, w' = mk_world (w_socket w) (w_opts w) (w_buf_size w) (w_alive w) (w_table w) ps (w_next w)
                          (w_handles w) (w_posts w);
  cl_other : ∀ id', id' ≠ id → w_peers w' !! id' = w_peers w !! id';
  cl_closed : ∀ p, w_peers w' !! id = Some p → dp_open p = false ∧ ∃ p0, w_peers w !! id = Some p0
}.

Context `{!SocketKernelLaws SK} `{!DispatcherLaws D} `{!AddrLaws AC}.

Lemma peer_own_open p : peer_is_open (dp_socket p) = true → peer_own p = {[peer_handle (dp_socket p)]}.
Proof.
  unfold peer_is_open, peer_own, peer_handle, own. destruct (impl_ (dp_socket p)); [|done]. by intros ->.
Qed.

Lemma peer_own_closed p : peer_is_open (dp_socket p) = false → peer_own p = ∅.
Proof.
  unfold peer_is_open, peer_own, own. destruct (impl_ (dp_socket p)); [|done]. by intros ->.
Qed.

(** Replacing a peer by a closed one that owns nothing. *)
Lemma set_closed_inv F r id p0 p w d k d' k' :
  w_peers w !! id = Some p0 → inv F r w (d, k) →
  dp_open p = false → peer_own p = ∅ →
  d_wf d' → (∀ fd, fd ∉ peer_own p0 → d_lookup d' fd = d_lookup d fd) →
  open_fds k' = open_fds k ∖ peer_own p0 →
  inv F r (set_peer id p w) (d', k') ∧ closes id w (set_peer id p w) ∧ (quiet w → quiet (set_peer id p w)).
Proof.
  intros Hp0 [Hwf Hown Hopts Hreg Hposts Hpeers] Hcl Ho Hwf' Hl Hk. simpl in *. split; [|split].
  - split; simpl; try done.
    + rewrite Hk. eapply owned_ext; [|apply (owned_drop _ _ _ _ (S id)) in Hown; simpl in Hown; rewrite Hp0 in Hown; exact Hown].
      intros [|x]; unfold upd_owns; simpl; [done|]. destruct (decide (S x = S id)) as [[= ->]|Hne].
      * by rewrite lookup_insert_eq.
      * by rewrite lookup_insert_ne by congruence.
    + intros Hs. rewrite Hl; [auto|]. intros Hin. pose proof (oo_alone _ _ _ _ Hown 0 (S id)) as Hd. simpl in Hd.
      rewrite Hp0 in Hd. unfold own in Hd. rewrite Hs in Hd. specialize (Hd ltac:(lia)). set_solver.
    + intros id' p' [[<- <-]|[Hne Hp']]%lookup_insert_Some.
      * destruct (Hpeers id p0 Hp0) as [? ? ? ?]. split; simpl; try done; congruence.
      * destruct (Hpeers id' p' Hp') as [? ? ? ?]. by split.
  - split; [by eexists|..].
    + intros id' Hne. simpl. by rewrite lookup_insert_ne.
    + intros p'. simpl. rewrite lookup_insert_eq. intros [= <-]. eauto.
  - intros Hq Hdead id' p'. simpl. intros [[<- <-]|[Hne Hp']]%lookup_insert_Some; [done|]. by eapply Hq.
Qed.

Lemma peer_relinquish_spec F r id w :
  quiet w → triple (inv F r w) (peer_relinquish id w) (λ w' e, inv F r w' e ∧ closes id w w' ∧ quiet w').
Proof.
  intros Hq [d k] Hi. unfold peer_relinquish.
  assert ((∀ p, w_peers w !! id = Some p → dp_open p = false) → closes id w w) as Hsame.
  { intros Hc. split; [exists (w_peers w); by destruct w|done|]. intros p Hp. eauto. }
  destruct (w_peers w !! id) as [p|] eqn:Ep; [|exists w, (d, k); split_and!; [done..|by apply Hsame|done]].
  destruct (dp_open p) eqn:Eo; simpl; [|exists w, (d, k); split_and!; [done..|apply Hsame; congruence|done]].
  destruct (demux && peer_is_open (dp_socket p)) eqn:Ed.
  - apply andb_true_iff in Ed as [_ Hso]. pose proof (peer_own_open p Hso) as Hpo.
    destruct (w_alive w) eqn:Ea; simpl; [|exfalso; rewrite (Hq Ea id p Ep) in Hpo; set_solver].
    destruct (d_remove (peer_handle (dp_socket p)) d) as [rv d'] eqn:Er.
    destruct (law_remove _ _ _ _ (v_wf _ _ _ _ Hi) Er) as (Hwf' & Hother & _).
    unfold peer_is_open in Hso. destruct (impl_ (dp_socket p)) as [s|] eqn:Es; [|done].
    destruct (close_spec o s (open_fds k) k eq_refl) as ([rc s'] & k' & Ec & _ & Hk').
    eexists _, (d', k'). split.
    { unfold bind, lift, on_net, peer_assign. rewrite Er, Es. unfold bind. rewrite Ec. simpl. reflexivity. }
    destruct (set_closed_inv F r id p (mk_dpeer (dp_key p) false (mk_peer_socket addr_default None) (dp_buf p))
      w d k d' k') as (? & ? & ?); try done.
    + intros fd Hfd. apply Hother. rewrite Hpo in Hfd. set_solver.
    + unfold peer_own. by rewrite Es.
    + auto.
  - eexists _, _. split; [done|].
    assert (peer_own p = ∅) as Hpo.
    { apply andb_false_iff in Ed as [Ed|Ed]; [|by apply peer_own_closed].
      apply (pk_own w id p); [by eapply v_peers|]. by rewrite Ed, andb_false_r. }
    destruct (set_closed_inv F r id p (mk_dpeer (dp_key p) false (dp_socket p) (dp_buf p)) w d k d k)
      as (? & ? & ?); try done; [by eapply v_wf in Hi|..].
    + rewrite Hpo. by rewrite difference_empty_L.
    + auto.
Qed.

(** Another set of handles, in which every open peer still has one. *)
Lemma handles_inv F r h w e :
  inv F r w e →
  (∀ id p v, w_peers w !! id = Some p → dp_open p = true → w_handles w !! v = Some (Some id) →
     ∃ v', h !! v' = Some (Some id)) →
  inv F r (set_handles h w) e.
Proof.
  intros [? ? ? ? ? Hp] Hh. split; try done. intros id p Hid. destruct (Hp id p Hid) as [? Hv ? ?].
  split; try done. intros Ho. destruct (Hv Ho) as [v Hv']. by eapply Hh.
Qed.

(** What every operation keeps. *)
Definition kept F r (w w' : world) (e : env) : Prop :=
  inv F r w' e ∧ quiet w' ∧ w_alive w' = w_alive w ∧ w_socket w' = w_socket w.

Lemma kept_refl F r w : quiet w → triple (inv F r w) (ret w) (kept F r w).
Proof. intros Hq. apply triple_ret. by intros e He. Qed.

Lemma closes_kept F r id w w' e : inv F r w' e → closes id w w' → quiet w' → kept F r w w' e.
Proof. intros Hi [[ps ->] _ _] Hq. by split. Qed.

Lemma relinquish_kept F r id w : quiet w → triple (inv F r w) (peer_relinquish id w) (kept F r w).
Proof.
  intros Hq. eapply triple_weaken; [by apply peer_relinquish_spec|done|].
  intros w' e (Hi & Hc & Hq'). by eapply closes_kept.
Qed.

(** Dropping a handle closes its peer. *)
Lemma handle_drop_spec F r h w :
  quiet w →
  triple (inv F r w) (handle_drop h w)
    (λ w' e, kept F r w w' e ∧ w_handles w' = w_handles w ∧
       ∀ id p, h = Some id → w_peers w' !! id = Some p → dp_open p = false).
Proof.
  intros Hq. unfold handle_drop, handle_open, handle_relinquish.
  destruct h as [id|]; [|by apply triple_ret; intros e He; split_and!].
  destruct (w_peers w !! id) as [p|] eqn:Ep; [destruct (dp_open p) eqn:Eo|].
  - eapply triple_weaken; [by apply peer_relinquish_spec|done|]. intros w' e (Hi & Hc & Hq').
    split; [by eapply closes_kept|]. destruct Hc as [[ps ->] _ Hcl]. split; [done|].
    intros id' p' [= <-] Hp'. by destruct (Hcl p' Hp').
  - apply triple_ret. intros e He. split; [done|]. split; [done|]. congruence.
  - apply triple_ret. intros e He. split; [done|]. split; [done|]. congruence.
Qed.

Lemma destroy_handle_kept F r v h w :
  w_handles w !! v = Some h → quiet w →
  triple (inv F r w) (let* w := handle_drop h w in ret (set_handles (delete v (w_handles w)) w)) (kept F r w).
Proof.
  intros Hv Hq. eapply triple_bind; [by apply handle_drop_spec|]. intros w'. apply triple_ret.
  intros e ((Hi & Hq' & Ha & Hs) & Hh & Hcl). split_and!; [|done..]. apply handles_inv; [done|].
  intros id p x Hp Ho Hx. exists x. rewrite lookup_delete_ne; [done|]. intros <-.
  rewrite Hh, Hv in Hx. simplify_eq. rewrite (Hcl id p) in Ho; done.
Qed.

Lemma assign_handle_kept F r v u h h' w :
  v ≠ u → w_handles w !! v = Some h → w_handles w !! u = Some h' → quiet w →
  triple (inv F r w)
    (let* w := handle_drop h w in ret (set_handles (<[v := h']> (<[u := None]> (w_handles w))) w)) (kept F r w).
Proof.
  intros Hvu Hv Hu Hq. eapply triple_bind; [by apply handle_drop_spec|]. intros w'. apply triple_ret.
  intros e ((Hi & Hq' & Ha & Hs) & Hh & Hcl). split_and!; [|done..]. apply handles_inv; [done|].
  intros id p x Hp Ho Hx. rewrite Hh in Hx |- *. destruct (decide (x = u)) as [->|Hxu].
  { exists v. rewrite lookup_insert_eq. congruence. }
  exists x. destruct (decide (x = v)) as [->|Hxv]; [|by rewrite !lookup_insert_ne].
  rewrite Hv in Hx. simplify_eq. rewrite (Hcl id p) in Ho; done.
Qed.

Lemma move_handle_kept F r v u h w :
  w_handles w !! v = None → w_handles w !! u = Some h → quiet w →
  triple (inv F r w) (ret (set_handles (<[v := h]> (<[u := None]> (w_handles w))) w)) (kept F r w).
Proof.
  intros Hv Hu Hq. apply triple_ret. intros e Hi. split_and!; [|done..]. apply handles_inv; [done|].
  intros id p x Hp Ho Hx. destruct (decide (x = u)) as [->|Hxu].
  { exists v. rewrite lookup_insert_eq. congruence. }
  exists x. by rewrite !lookup_insert_ne by congruence.
Qed.

Lemma unclaim_kept F r addr w : quiet w → triple (inv F r w) (unclaim addr w) (kept F r w).
Proof.
  intros Hq. unfold unclaim. destruct (w_table w !! addr_key addr) as [id|] eqn:Et; [|by apply kept_refl].
  eapply triple_bind; [by apply peer_relinquish_spec|]. intros w'. apply triple_ret.
  intros e (Hi & [[ps ->] _ Hcl] & Hq'). split_and!; [|done..]. destruct Hi as [? ? ? ? ? Hp].
  split; try done. intros id' p Hid. destruct (Hp id' p Hid) as [? ? Ht ?]. split; try done. simpl in *.
  intros Ho Ha. rewrite lookup_delete_ne; [auto|]. intros E. rewrite <- E in Ht.
  rewrite Et in Ht. injection (Ht Ho Ha) as <-. destruct (Hcl p Hid). congruence.
Qed.

Lemma run_post_kept F r w : quiet w → triple (inv F r w) (run_post w) (kept F r w).
Proof.
  intros Hq [d k] Hi. unfold run_post. destruct (w_posts w) as [|[id fd] q] eqn:Ep; [by apply kept_refl|].
  destruct (d_add fd ev_readable (peer_cb id) d) as [rv d'] eqn:Ea.
  eexists _, (d', k). split; [unfold bind, lift; by rewrite Ea|].
  destruct Hi as [Hwf Hown Hopts Hreg Hposts Hpeers]. simpl in *.
  destruct (law_add _ _ _ _ _ _ Hwf Ea) as (Hwf' & Hother & _). rewrite Ep in Hposts.
  split_and!; [|done..]. split; simpl; try done.
  - intros Ho. specialize (Hposts Ho). apply Forall_cons in Hposts as [Hne _]. rewrite Hother; auto.
  - intros Ho. specialize (Hposts Ho). by apply Forall_cons in Hposts as [_ ?].
  - intros id' p Hp. destruct (Hpeers id' p Hp). by split.
Qed.

(** Addresses have the size of their class. *)
Context (Hdefault : length addr_default = addr_size).
Context (Hname : ∀ b fd k a, (sys_name b fd k).1 = inl a → length (sa_storage_ a) = 128%nat).

Lemma local_addr_spec w F :
  triple (holds F) (do_local_addr w) (λ a k, (addr_size ≤ length a)%nat ∧ holds F k).
Proof.
  unfold do_local_addr, local_address, socket_name. destruct (handle_ (w_socket w) =? invalid_socket).
  { intros k Hk. exists addr_default, k. split; [done|]. split; [lia|done]. }
  intros k Hk. pose proof (law_name false (handle_ (w_socket w)) k) as Hl.
  pose proof (Hname false (handle_ (w_socket w)) k) as Hn.
  unfold bind, lift. destruct (sys_name false _ k) as [[a|e] k']; simpl in *.
  - eexists _, k'. split; [done|]. split; [|unfold holds in *; congruence].
    unfold typed_addr. rewrite length_take, (Hn a eq_refl). pose proof law_addr_size. lia.
  - eexists _, k'. split; [done|]. split; [lia|unfold holds in *; congruence].
Qed.

Lemma peer_create_spec local addr F :
  (addr_size ≤ length local)%nat → (addr_size ≤ length addr)%nat →
  triple (holds F) (peer_create o addr_af addr_sock local addr options_default)
    (λ r k, match r with
            | Val p => ∃ s, p = mk_peer_socket addr (Some s) ∧ is_open s = true ∧ handle_ s ∉ F ∧
                            holds ({[handle_ s]} ∪ F) k
            | Err _ => holds F k
            end).
Proof.
  intros Hl Ha. destruct (law_addr_sock _ Hl) as [sl El], (law_addr_sock _ Ha) as [sa Ea].
  unfold peer_create, with_sock. rewrite El, Ea.
  eapply triple_bind; [apply connected_udp_spec; exists []; by split; [constructor|]|].
  intros [s|e]; apply triple_ret; intros k Hk; [|by destruct Hk]. exists s. by destruct Hk as (? & ? & ?).
Qed.

(** A new peer, with a descriptor of its own or none. *)
Definition add_peer (v : nat) (p : dpeer) (posts : list (nat * Z)) (w : world) : world :=
  mk_world (w_socket w) (w_opts w) (w_buf_size w) (w_alive w)
    (<[dp_key p := w_next w]> (w_table w)) (<[w_next w := p]> (w_peers w)) (S (w_next w))
    (<[v := Some (w_next w)]> (w_handles w)) (w_posts w ++ posts).

Lemma add_peer_kept F r v p posts w d k k' :
  inv F r w (d, k) → quiet w → w_alive w = true → w_handles w !! v = None → w_table w !! dp_key p = None →
  dp_open p = true → (demux = false → peer_own p = ∅) →
  owned_once F ∅ (open_fds k') (upd_owns (S (w_next w)) (peer_own p) (owner w)) →
  (is_open (w_socket w) = true → Forall (λ x, x.2 ≠ handle_ (w_socket w)) posts) →
  kept F r w (add_peer v p posts w) (d, k').
Proof.
  intros [Hwf Hown Hopts Hreg Hposts Hpeers] Hq Ha Hv Ht Ho Hd Hown' Hps. simpl in *. split; [|split]; [..|done].
  - split; simpl; try done.
    + eapply owned_ext; [|exact Hown']. intros [|x]; unfold upd_owns; simpl; [done|].
      destruct (decide (S x = S (w_next w))) as [[= ->]|Hne]; [by rewrite lookup_insert_eq|].
      by rewrite lookup_insert_ne by congruence.
    + intros Hs. apply Forall_app. auto.
    + intros id p' [[<- <-]|[Hne Hp']]%lookup_insert_Some.
      * split; simpl; [lia|..].
        -- intros _. exists v. by rewrite lookup_insert_eq.
        -- intros _ _. by rewrite lookup_insert_eq.
        -- rewrite Ho. exact Hd.
      * destruct (Hpeers id p' Hp') as [Hid Hh Htb Hpo]. split; simpl; [lia|..|done].
        -- intros Ho'. destruct (Hh Ho') as [x Hx]. exists x. rewrite lookup_insert_ne; congruence.
        -- intros Ho' _. rewrite lookup_insert_ne; [auto|]. intros E. rewrite E in Ht. rewrite Htb in Ht by done. done.
  - intros Hdead. simpl in Hdead. congruence.
Qed.

Lemma claim_kept F r v addr w :
  quiet w → w_alive w = true → w_handles w !! v = None → (addr_size ≤ length addr)%nat →
  triple (inv F r w) (let* (_, w) := claim v addr w in ret w) (kept F r w).
Proof.
  intros Hq Ha Hv Hlen [d k] Hi. unfold claim.
  destruct (w_table w !! addr_key addr) as [id|] eqn:Et; [by apply kept_refl|].
  pose proof Hi as [_ Hown _ _ _ Hpeers]. simpl in Hown.
  assert (owner w (S (w_next w)) = ∅) as Hnew.
  { simpl. destruct (w_peers w !! w_next w) as [p|] eqn:Ep; [|done]. destruct (Hpeers _ _ Ep). lia. }
  destruct demux eqn:Ed.
  - destruct (local_addr_spec w (open_fds k) k eq_refl) as (local & k1 & E1 & Hloc & Hk1).
    destruct (peer_create_spec local addr (open_fds k) Hloc Hlen k1 Hk1) as (rp & k2 & E2 & Hr).
    unfold bind, on_net. rewrite E1, E2. destruct rp as [p|e].
    + destruct Hr as (s & -> & Ho & Hs & Hk2). unfold peer_is_open, peer_handle. simpl. rewrite Ho.
      eexists _, (d, k2). split; [done|].
      apply (add_peer_kept F r v (mk_dpeer (addr_key addr) true (mk_peer_socket addr (Some s)) (w_buf_size w))
        [(w_next w, handle_ s)] w d k k2); try done; [congruence|..].
      * unfold peer_own. simpl. unfold own. rewrite Ho. unfold holds in Hk2. rewrite Hk2. by apply owned_new.
      * intros Hso. repeat constructor. simpl. intros E. apply Hs, (oo_open _ _ _ _ Hown). right. exists 0%nat.
        simpl. unfold own. rewrite Hso, E. set_solver.
    + eexists _, (d, k2). split; [done|]. split; [|done]. destruct Hi as [Hwf _ ? ? ? ?]. split; simpl in *; try done.
      unfold holds in Hr. by rewrite Hr.
  - eexists _, (d, k). split; [done|].
    apply (add_peer_kept F r v (mk_dpeer (addr_key addr) true (mk_peer_socket addr_default None) 0) [] w d k k);
      try done.
    eapply owned_ext; [|exact Hown]. intros x. unfold upd_owns. case_decide; [|done]. subst. by rewrite Hnew.
Qed.

Definition op_ok (x : op) : Prop := match x with OClaim _ addr => (addr_size ≤ length addr)%nat | _ => True end.

Lemma exec_op_kept F r x w : op_ok x → quiet w → triple (inv F r w) (exec_op x w) (kept F r w).
Proof.
  intros Hok Hq. destruct x as [v addr|v|v|v u|v u|addr|]; simpl.
  - destruct (w_handles w !! v) eqn:Ev; [by apply kept_refl|].
    destruct (w_alive w) eqn:Ea; [by apply claim_kept|by apply kept_refl].
  - destruct (w_handles w !! v) as [[id|]|]; [by apply relinquish_kept|by apply kept_refl..].
  - destruct (w_handles w !! v) eqn:Ev; [by apply destroy_handle_kept|by apply kept_refl].
  - destruct (w_handles w !! v) eqn:Ev, (w_handles w !! u) eqn:Eu; try by apply kept_refl.
    by apply move_handle_kept.
  - case_decide; [by apply kept_refl|].
    destruct (w_handles w !! v) eqn:Ev, (w_handles w !! u) eqn:Eu; try by apply kept_refl.
    by apply assign_handle_kept.
  - destruct (w_alive w); [by apply unclaim_kept|by apply kept_refl].
  - destruct (w_alive w); [by apply run_post_kept|by apply kept_refl].
Qed.

Lemma kept_trans F r w w1 w2 e e' : kept F r w w1 e → kept F r w1 w2 e' → kept F r w w2 e'.
Proof. intros (_ & _ & Ha & Hs) (Hi & Hq & Ha' & Hs'). split_and!; [done..|congruence|congruence]. Qed.

Lemma exec_ops_kept F r xs w : Forall op_ok xs → quiet w → triple (inv F r w) (exec_ops xs w) (kept F r w).
Proof.
  intros Hok. revert w. induction Hok as [|x xs Hx Hxs IH]; intros w Hq; [by apply kept_refl|]. simpl.
  intros e He. destruct (exec_op_kept F r x w Hx Hq e He) as (w1 & e1 & E1 & Hk1). pose proof Hk1 as (Hi1 & Hq1 & _).
  destruct (IH w1 Hq1 e1 Hi1) as (w2 & e2 & E2 & Hk2). exists w2, e2. unfold bind. rewrite E1.
  split; [done|]. by eapply kept_trans.
Qed.

Lemma run_posts_kept F r n w : quiet w → triple (inv F r w) (run_posts n w) (kept F r w).
Proof.
  revert w. induction n as [|n IH]; intros w Hq; [by apply kept_refl|]. simpl.
  intros e He. destruct (run_post_kept F r w Hq e He) as (w1 & e1 & E1 & Hk1). pose proof Hk1 as (Hi1 & Hq1 & _).
  destruct (IH w1 Hq1 e1 Hi1) as (w2 & e2 & E2 & Hk2). exists w2, e2. unfold bind. rewrite E1.
  split; [done|]. by eapply kept_trans.
Qed.

(** Relinquishing every open peer, and emptying the table. *)
Lemma relinquish_all_spec F r ids w :
  quiet w → (∀ id p, w_peers w !! id = Some p → dp_open p = true → id ∈ ids) →
  triple (inv F r w) (relinquish_all ids w)
    (λ w' e, kept F r w w' e ∧ ∀ id p, w_peers w' !! id = Some p → dp_open p = false).
Proof.
  revert w. induction ids as [|id ids IH]; intros w Hq Hall; simpl.
  { apply triple_ret. intros e Hi.
    assert (∀ id p, w_peers w !! id = Some p → dp_open p = false) as Hcl.
    { intros id p Hp. destruct (dp_open p) eqn:Eo; [|done]. by apply Hall, elem_of_nil in Hp. }
    split; [|done]. split; [|done]. destruct Hi as [? ? ? ? ? Hp]. split; try done.
    intros id p Hid. destruct (Hp id p Hid). split; try done. simpl. rewrite (Hcl id p Hid). done. }
  intros e He. destruct (peer_relinquish_spec F r id w Hq e He) as (w1 & e1 & E1 & Hi1 & Hc & Hq1).
  destruct (IH w1 Hq1) with (k := e1) as (w2 & e2 & E2 & Hk2 & Hcl2); [|done|].
  { intros id' p Hp Ho. destruct Hc as [_ Hoth Hcl]. destruct (decide (id' = id)) as [->|Hne].
    - destruct (Hcl p Hp). congruence.
    - rewrite Hoth in Hp by done. specialize (Hall id' p Hp Ho). set_solver. }
  exists w2, e2. unfold bind. rewrite E1. split; [done|]. split; [|done].
  eapply kept_trans; [by eapply closes_kept|done].
Qed.

Lemma leave_spec opts fd F :
  Apply.built o opts →
  triple (holds F) (λ k, Apply.leave_all_multicast (H := at_fd fd) o opts k) (λ _, holds F).
Proof.
  intros Hb k Hk. destruct (Apply.leave_frame (H := at_fd fd) (holds F)) with (o := o) (so := opts) (k := k)
    as (r & k' & E & Hk'); [..|by eauto 10]; try done.
  intros l n d k0 Hk0. unfold holds in *. simpl. by rewrite (proj1 (law_call _ _ _)).
Qed.

(** The lambdas the loop still runs, if it does. *)
Lemma drain_spec F r (drained : bool) w :
  w_alive w = true →
  triple (inv F r w)
    (if drained
     then let* w := run_posts (length (w_posts w)) w in relinquish_all ((map_to_list (w_table w)).*2) w
     else ret w)
    (λ w' e, kept F r w w' e ∧ (drained = true → ∀ id p, w_peers w' !! id = Some p → dp_open p = false)).
Proof.
  intros Ha. assert (quiet w) as Hq by (intros ?; congruence). destruct drained.
  - intros e He. destruct (run_posts_kept F r (length (w_posts w)) w Hq e He) as (w1 & e1 & E1 & Hk1).
    pose proof Hk1 as (Hi1 & Hq1 & Ha1 & _).
    destruct (relinquish_all_spec F r ((map_to_list (w_table w1)).*2) w1 Hq1) with (k := e1)
      as (w2 & e2 & E2 & Hk2 & Hcl); [|done|].
    { intros id p Hp Ho. apply list_elem_of_fmap. exists (dp_key p, id). split; [done|]. apply elem_of_map_to_list.
      apply (pk_table w1 id p); [by eapply v_peers|done|congruence]. }
    exists w2, e2. unfold bind. rewrite E1. split; [done|]. split; [by eapply kept_trans|done].
  - apply triple_ret. intros e He. by split.
Qed.

(** What the destruction of the [dgram] leaves. *)
Definition gone (F : gset Z) (drained : bool) (fd : Z) (w : world) (e : env) : Prop :=
  inv F None w e ∧ w_alive w = false ∧ is_open (w_socket w) = false ∧ d_lookup e.1 fd = None ∧
  (drained = true ∨ demux = false → quiet w).

(** Closing the socket of a [dgram] whose loop has ended. *)
Lemma gone_intro F r drained w s d k d' k' :
  inv F r w (d, k) → is_open (w_socket w) = true → is_open s = false →
  (drained = true → ∀ id p, w_peers w !! id = Some p → dp_open p = false) →
  d_wf d' → d_lookup d' (handle_ (w_socket w)) = None → open_fds k' = open_fds k ∖ own (w_socket w) →
  gone F drained (handle_ (w_socket w))
    (mk_world s (w_opts w) (w_buf_size w) false ∅ (w_peers w) (w_next w) (w_handles w) []) (d', k').
Proof.
  intros [Hwf Hown Hopts _ _ Hpeers] Ho Hs Hdr Hwf' Hl Hk. simpl in *. split; [|split_and!; [done..|]].
  - split; simpl; try done; [|congruence|].
    + rewrite Hk. eapply owned_ext; [|exact (owned_drop _ _ _ _ 0%nat Hown)].
      intros [|x]; unfold upd_owns; simpl; [unfold own; by rewrite Hs|done].
    + intros id p Hp. destruct (Hpeers id p Hp). by split.
  - intros Hq _ id p Hp. simpl in Hp. destruct (Hpeers id p Hp) as [_ _ _ Hpo]. apply Hpo.
    destruct Hq as [Hq|Hq]; [by rewrite (Hdr Hq id p Hp)|by rewrite Hq, andb_false_r].
Qed.

Lemma do_destroy_spec F drained (armed paused : bool) (cb : CB) w :
  is_open (w_socket w) = true → w_alive w = true →
  triple (inv F (Registration.view cb (Registration.promised o armed paused)) w)
    (do_destroy drained armed paused w) (gone F drained (handle_ (w_socket w))).
Proof.
  intros Ho Ha [d k] Hi. pose proof Hi as [_ _ Hopts _ _ _].
  destruct (leave_spec (w_opts w) (handle_ (w_socket w)) (open_fds k) Hopts k eq_refl) as (r1 & k1 & E1 & Hk1).
  assert (triple (holds (open_fds k)) (shutdown o shut_both (w_socket w)) (λ _, holds (open_fds k))) as Hshut.
  { unfold shutdown. destruct (_ =? _); [by apply triple_ret|apply call_spec]. }
  destruct (Hshut k1 Hk1) as (r2 & k2 & E2 & Hk2).
  assert (inv F (Registration.view cb (Registration.promised o armed paused)) w (d, k2)) as Hi2.
  { destruct Hi as [? Hown ? ? ? ?]. split; try done. simpl in *. unfold holds in Hk2. by rewrite Hk2. }
  destruct (drain_spec F _ drained w Ha _ Hi2) as (w3 & [d3 k3] & E3 & (Hi3 & Hq3 & Ha3 & Hs3) & Hdr).
  pose proof Hi3 as [Hwf3 _ _ Hreg3 _ _]. simpl in Hwf3, Hreg3. rewrite Hs3 in Hreg3. specialize (Hreg3 Ho).
  set (registered := match o with Windows => armed | _ => armed && negb paused end).
  set (d4 := if registered then (d_remove (handle_ (w_socket w)) d3).2 else d3).
  assert (d_wf d4 ∧ d_lookup d4 (handle_ (w_socket w)) = None) as [Hwf4 Hl4].
  { unfold d4. destruct registered eqn:Er.
    - pose proof (law_remove_ok (handle_ (w_socket w)) d3 Hwf3) as Hok.
      destruct (d_remove _ d3) as [rv d'] eqn:E. destruct (law_remove _ _ _ _ Hwf3 E) as (? & _ & Hl).
      split; [done|]. simpl in *. rewrite Hl. destruct (d_lookup d3 _) eqn:El; [|by destruct (rv_bool rv)].
      by rewrite Hok by eauto.
    - split; [done|]. rewrite Hreg3. unfold registered in Er. unfold Registration.promised.
      destruct o; [apply andb_false_iff in Er as [-> | Er]; [done|]..|by rewrite Er];
        apply negb_false_iff in Er; rewrite Er; by destruct armed. }
  destruct (close_spec o (w_socket w) (open_fds k3) k3 eq_refl) as ([rc s'] & k5 & E5 & Hs5 & Hk5).
  eexists _, (d4, k5). split.
  { unfold do_destroy. rewrite Ho. unfold bind, on_net. rewrite E1. unfold ret at 1. rewrite E2. unfold ret at 1.
    unfold bind in E3. rewrite E3. fold registered. unfold d4. destruct registered.
    - unfold lift. destruct (d_remove _ d3). rewrite E5. reflexivity.
    - unfold ret. rewrite E5. reflexivity. }
  rewrite <- Hs3. rewrite <- Hs3 in Ho, Hl4, Hk5. by eapply gone_intro.
Qed.

Lemma do_create_spec F addr config d :
  d_wf d → (∀ fd, is_Some (d_lookup d fd) → fd ∈ F) →
  Apply.built o (sock_opts config) → (addr_size ≤ length addr)%nat →
  triple (λ e, e.1 = d ∧ holds F e.2) (do_create addr config)
    (λ r e, match r with
            | Val w => inv F None w e ∧ is_open (w_socket w) = true ∧ w_alive w = true ∧ quiet w
            | Err ec => ec_bool ec = true ∧ e.1 = d ∧ holds F e.2
            end).
Proof.
  intros Hwf Hreg Hb Hlen [d0 k] [E Hk]. simpl in E, Hk. subst d0.
  destruct (effective_opts_built o (sock_opts config) Hb) as (opts & Eo & Hopts).
  destruct (law_addr_sock addr Hlen) as [sa Ea]. unfold do_create, with_sock. rewrite Eo, Ea.
  destruct (udp_open_spec o addr_af sa opts sock_default F Hopts) with (k := k) as ([r s] & k1 & E1 & H1);
    [set_solver|done|].
  unfold bind, on_net. rewrite E1. unfold reopened, Socket.settled in H1. simpl in H1. rewrite own_default, difference_empty_L in H1.
  destruct (rv_bool r) eqn:Er; simpl.
  - destruct (set_non_blocking_spec o true s (open_fds k1) k1 eq_refl) as (rn & k2 & E2 & Hk2). rewrite E2.
    destruct H1 as [(? & _)|(Hs & Hd & Hk1)]; [done|]. eexists _, (d, k2). split; [done|].
    assert (own s = {[handle_ s]}) as Hos by (unfold own; by rewrite Hs). split_and!; [|done..].
    split; simpl; try done.
    + unfold holds in Hk1, Hk2. rewrite Hk2, Hk1. split.
      * intros fd. split; [|intros [?|[[|x] Hx]]; simpl in *; set_solver].
        intros [Hf|Hf]%elem_of_union; [right; by exists 0%nat|left; set_solver].
      * intros [|x]; simpl; set_solver.
      * intros [|x] [|y] Hne; simpl; set_solver.
    + intros _. destruct (d_lookup d (handle_ s)) eqn:El; [|done]. assert (handle_ s ∈ F) by (apply Hreg; by rewrite El).
      set_solver.
  - eexists _, (d, k1). split; [done|]. split_and!; [unfold rv_bool in Er; by apply negb_false_iff in Er|done|].
    destruct H1 as [(_ & _ & ?)|(Hs & _ & Hk1)]; [done|]. rewrite (own_closed s Hs), union_empty_l_L in Hk1. done.
Qed.

(** The whole life: creation; what arming and pausing did to the registration;
    operations; destruction; what is then still done with the handles. *)
Definition life (settle : Z → disp → disp) (addr : bytes) (config : dgram_config) (before : list op)
    (drained armed paused : bool) (after : list op) : M env (option (Z * world)) :=
  let* r := do_create addr config in
  match r with
  | Err _ => ret None
  | Val w =>
      let fd := handle_ (w_socket w) in
      let* _ := lift (λ '(d, k), ((), (settle fd d, k))) in
      let* w := exec_ops before w in
      let* w := do_destroy drained armed paused w in
      let* w := exec_ops after w in
      ret (Some (fd, w))
  end.



(** A handle must not outlive its socket.  If the loop sees the request to
    stop before it runs what [do_destroy] posted, a peer that was open stays open;
    the destructor of its handle then relinquishes it through the loop of the
    destroyed [dgram_impl], which is undefined. *)
Theorem handle_outlives_dgram F armed paused cb w e v id p :
  inv F (Registration.view cb (Registration.promised o armed paused)) w e →
  is_open (w_socket w) = true → w_alive w = true → demux = true →
  w_handles w !! v = Some (Some id) → w_peers w !! id = Some p →
  dp_open p = true → peer_is_open (dp_socket p) = true →
  ∃ w' e', do_destroy false armed paused w e = Some (w', e') ∧ w_peers w' !! id = Some p ∧
    w_handles w' !! v = Some (Some id) ∧ exec_op (ODestroy v) w' e' = None.
Proof.
  intros Hi Ho Ha Hd Hv Hp Hop Hso.
  destruct (do_destroy_spec F false armed paused cb w Ho Ha e Hi) as (w' & e' & E & _ & Ha' & _).
  assert (w_peers w' = w_peers w ∧ w_handles w' = w_handles w) as [Ep Eh].
  { revert E. unfold do_destroy, bind, ret. rewrite Ho. repeat (case_match; simplify_eq/=; try done); by intros [= <- <-]. }
  exists w', e'. rewrite Ep, Eh. split_and!; [done..|]. simpl. rewrite Eh, Hv.
  unfold bind, handle_drop, handle_open, handle_relinquish, peer_relinquish.
  rewrite Ep, Hp, Hop. simpl. rewrite Hd, Hso, Ha'. done.
Qed.

End Life.

(** *** On a concrete kernel *)

(** The kernel of [Socket], on which datagram sockets connect at once. *)
Definition udp_kernel : SocketKernel (gset Z) := {|
  open_fds := id;
  sys_socket := sys_socket (SocketKernel := demo_kernel);
  sys_accept := sys_accept (SocketKernel := demo_kernel);
  sys_close := sys_close (SocketKernel := demo_kernel);
  sys_call _ _ k := (None, k);
  sys_getfl := sys_getfl (SocketKernel := demo_kernel);
  sys_name := sys_name (SocketKernel := demo_kernel);
  sys_getsockopt := sys_getsockopt (SocketKernel := demo_kernel);
  sys_so_error := sys_so_error (SocketKernel := demo_kernel);
  deregister _ k := k
|}.

#[export] Instance udp_kernel_laws : SocketKernelLaws udp_kernel.
Proof.
  destruct demo_kernel_laws as [? ? ? ? ? ? ? ? ?]. by split.
Qed.

Definition demo_addr (i : Z) : bytes := inet4_of Linux (0x0a000000 + i) 9000.
Definition demo_config : dgram_config := mk_config 0 demo_opts 2048 4.

Definition demo_exec (ops : list op) : option (world (Key := Z * Z) * (gmap Z (Z * nat) * gset Z)) :=
  (let* r := do_create (SK := udp_kernel) (D := map_dispatcher) (AC := addr4) Linux (demo_addr 1) demo_config in
   match r with
   | Val w => exec_ops (SK := udp_kernel) (D := map_dispatcher) (AC := addr4) Linux (inet4_default Linux) (λ id, id) ops w
   | Err _ => undefined
   end) (∅, ∅).

(** What is left of a program with two claims. *)
Definition demo_view (x : world (Key := Z * Z) * (gmap Z (Z * nat) * gset Z)) :
    option (nat * bool * bool * bool * bool * option (Z * nat)) :=
  let '(w, e) := x in
  p0 ← w_peers w !! 0%nat; p1 ← w_peers w !! 1%nat;
  Some (length (w_posts w), dp_open p0, peer_is_open (dp_socket p0), dp_open p1, peer_is_open (dp_socket p1),
        e.1 !! peer_handle (dp_socket p1)).

Lemma demo_reuse :
  (demo_exec [OClaim 0 (demo_addr 2); ORelinquish 0; OClaim 1 (demo_addr 3); OLoop; OLoop] ≫= demo_view) =
  Some (0%nat, false, false, true, true, Some (effective ev_readable, 0%nat)).
Proof. vm_compute. reflexivity. Qed.

(** Reuse of a peer's descriptor misroutes its datagrams.  [arm] posts the
    registration of a peer's socket, with a callback that refers to the peer; if
    the peer is relinquished by a user's thread before the loop runs it, the
    descriptor is closed and the lambda stays posted.  When the next claim gets
    the same descriptor, the lambda registers it for the old peer and the
    registration of the new one is refused, so that the new peer, which is open,
    gets nothing, and the callback of the old one is called on its datagrams. *)
Theorem peer_reuse_misroutes :
  ∃ w e p0 p1, demo_exec [OClaim 0 (demo_addr 2); ORelinquish 0; OClaim 1 (demo_addr 3); OLoop; OLoop] = Some (w, e) ∧
    w_posts w = [] ∧
    w_peers w !! 0%nat = Some p0 ∧ dp_open p0 = false ∧ peer_own p0 = ∅ ∧
    w_peers w !! 1%nat = Some p1 ∧ dp_open p1 = true ∧ peer_is_open (dp_socket p1) = true ∧
    e.1 !! peer_handle (dp_socket p1) = Some (effective ev_readable, 0%nat).
Proof.
  pose proof demo_reuse as Hv. destruct (demo_exec _) as [[w e]|]; [|discriminate Hv].
  unfold demo_view in Hv. simpl in Hv. destruct (w_peers w !! 0%nat) as [p0|] eqn:E0; [|discriminate Hv]. simpl in Hv.
  destruct (w_peers w !! 1%nat) as [p1|] eqn:E1; [|discriminate Hv]. injection Hv as H1 H2 H3 H4 H5 H6.
  exists w, e, p0, p1. split_and!; try done; [by apply nil_length_inv|by apply peer_own_closed].
Qed.

Lemma demo_name : ∀ b fd (k : gset Z) a, (sys_name (SocketKernel := udp_kernel) b fd k).1 = inl a → length (sa_storage_ a) = 128%nat.
Proof. intros b fd k a. simpl. intros [= <-]. reflexivity. Qed.

Definition demo_settle (fd : Z) (d : gmap Z (Z * nat)) : gmap Z (Z * nat) := <[fd := (effective ev_readable, 99%nat)]> d.
Definition demo_before : list op := [OClaim 0 (demo_addr 2); OLoop; OMove 1 0; ODestroy 0; OClaim 2 (demo_addr 2)].


(** A [dgram] with one claimed peer. *)
Definition demo_world : world (Key := Z * Z) :=
  mk_world (sock_of 3) demo_opts 2048 true {[addr_key (AddrClass := addr4) (demo_addr 2) := 0%nat]}
    {[0%nat := mk_dpeer (addr_key (AddrClass := addr4) (demo_addr 2)) true
                 (mk_peer_socket (demo_addr 2) (Some (sock_of 4))) 2048]}
    1 {[0%nat := Some 0%nat]} [].

Lemma demo_world_inv :
  inv (SK := udp_kernel) (D := map_dispatcher) Linux ∅
    (Registration.view 99%nat (Registration.promised Linux false false)) demo_world (∅, {[3; 4]}).
Proof.
  split; simpl; try done.
  - apply (owned_ext _ _ _ (λ x, match x with O => {[3]} | 1%nat => {[4]} | _ => ∅ end)).
    + intros [|[|x]]; [reflexivity..|]. cbn [owner]. unfold demo_world. cbn [w_peers].
      by rewrite lookup_singleton_ne.
    + split; [|intros [|[|x]]; set_solver|intros [|[|x]] [|[|y]]; set_solver].
      intros fd. split; [|intros [?|[[|[|x]] Hx]]; set_solver].
      intros [?|?]%elem_of_union; right; [by exists 0%nat|by exists 1%nat].
  - exact demo_opts_built.
  - intros id p [<- <-]%lookup_singleton_Some. split; simpl; [lia| | |done].
    + intros _. exists 0%nat. reflexivity.
    + intros _ _. reflexivity.
Qed.

Lemma handle_outlives_dgram_witness :
  ∃ w' e', do_destroy (SK := udp_kernel) (D := map_dispatcher) Linux (inet4_default Linux) (λ id, id)
             false false false demo_world (∅, {[3; 4]}) = Some (w', e') ∧
    exec_op (SK := udp_kernel) (D := map_dispatcher) (AC := addr4) Linux (inet4_default Linux) (λ id, id) (ODestroy 0)
      w' e' = None.
Proof.
  destruct (handle_outlives_dgram (SK := udp_kernel) (D := map_dispatcher) (AC := addr4) Linux (inet4_default Linux)
    (λ id, id) eq_refl demo_name ∅ false false 99%nat demo_world (∅, {[3; 4]}) 0%nat 0%nat _ demo_world_inv eq_refl eq_refl eq_refl
    eq_refl eq_refl eq_refl eq_refl) as (w' & e' & E & _ & _ & Hu).
  exists w', e'. split; [exact E|exact Hu].
Defined.

End Life.
