(* ===== verification/Echo.v ===== *)
(** * The echo server

    [src/examples/tcp_echo_server.cpp] on top of the connection engine: every block
    of data that arrives on a connection is sent back from the [on_data] handler,
    which ignores what [send] returns.  The machine is that of [Connection], with the
    handler as its only user: the connection's serial queue runs the callbacks one at
    a time and in order (what [ThreadPool] shows of it), and each call of [send] is
    the test and the critical section of [enqueue_send], between which the loop may
    run. *)

From S2P Require Import Prelude Platform Dispatcher Connection.

Local Open Scope Z_scope.

Section Echo.
Context {CB : Type} {D : Dispatcher CB} (cb : CB).
Notation mst := (Machine.st (D := D)).

(** [done]: how many of the callbacks submitted by the connection have been taken from
    its serial queue; a call of [send] under way is in [Machine.callers]. *)
Record est := mk_est { ms : mst; done : nat }.

(** The handlers that [on_connect] sets: on data, [conn.send(data, len)]; on close, a
    message.  The first part of [send] is the test of [enqueue_send]. *)
Definition take_callback (u : user_callback) (s : est) : est :=
  match u with
  | OnClose => mk_est (ms s) (S (done s))
  | OnData data =>
      let m := ms s in
      if enqueue_send_check (Machine.c m) data
      then mk_est (Machine.mk_st (Machine.c m) (Machine.d m) (Machine.posts m) (Machine.pc m) [Machine.CSend data]
                     (Machine.submitted m) (Machine.wire m) (Machine.accepted m) (Machine.start_called m) (Machine.added m))
             (S (done s))
      else mk_est m (S (done s))
  end.

(** The IPv6 server sets the same handlers. *)
Definition echo6_take : user_callback → est → est := take_callback.

(** The rest of the call. *)
Definition finish_send (u : Machine.user_call) (s : est) : est :=
  let m := ms s in
  mk_est (Machine.commit u (Machine.mk_st (Machine.c m) (Machine.d m) (Machine.posts m) (Machine.pc m) []
                              (Machine.submitted m) (Machine.wire m) (Machine.accepted m) (Machine.start_called m) (Machine.added m)))
    (done s).

Definition data_of (u : user_callback) : option bytes := match u with OnData data => Some data | OnClose => None end.
Definition blocks (l : list user_callback) : list bytes := omap data_of l.

(** The server with a read buffer of [buf] bytes. *)
Inductive estep (buf : Z) : est → est → Prop :=
| echo_loop s m' :
    Machine.step cb (ms s) m' → Machine.callers m' = Machine.callers (ms s) →
    Forall (λ b, size b ≤ buf) (blocks (Machine.submitted m')) →
    estep buf s (mk_est m' (done s))
| echo_take s u :
    Machine.callers (ms s) = [] → Machine.submitted (ms s) !! done s = Some u → estep buf s (take_callback u s)
| echo_send s u : Machine.callers (ms s) = [u] → estep buf s (finish_send u s).

Definition echo_init (fd max : Z) (d0 : disp) : est := mk_est (Machine.init fd max true true d0) 0.

(** What has arrived, what the handler has taken, and what it is sending right now. *)
Definition received (s : est) : list bytes := blocks (Machine.submitted (ms s)).
Definition taken (s : est) : list bytes := blocks (take (done s) (Machine.submitted (ms s))).
Definition sending (s : est) : list bytes :=
  omap (λ u, match u with Machine.CSend data => Some data | _ => None end) (Machine.callers (ms s)).

(** ** The connection's own steps *)

(** What a step keeps of what the echo depends on, unless it is a call of a user. *)
Record keeps (m m' : mst) : Prop := {
  k_accepted : Machine.accepted m' = Machine.accepted m;
  k_submitted : ∃ out, Machine.submitted m' = Machine.submitted m ++ out ∧ Forall (λ b, b ≠ []) (blocks out);
  k_max : max_write_queue_bytes_ (Machine.c m') = max_write_queue_bytes_ (Machine.c m);
  k_closed : closed_ (Machine.c m) = true → closed_ (Machine.c m') = true
}.

Lemma keeps_same m m' :
  Machine.accepted m' = Machine.accepted m → Machine.submitted m' = Machine.submitted m →
  max_write_queue_bytes_ (Machine.c m') = max_write_queue_bytes_ (Machine.c m) →
  closed_ (Machine.c m') = closed_ (Machine.c m) → keeps m m'.
Proof. intros Ha Hs Hm Hc. split; [done| |done|congruence]. exists []. rewrite app_nil_r. by split; [|constructor]. Qed.

Lemma close_keeps (m : mst) c' d' out :
  initiate_close (Machine.c m) (Machine.d m) = (c', d', out) →
  blocks out = [] ∧ max_write_queue_bytes_ c' = max_write_queue_bytes_ (Machine.c m) ∧ closed_ c' = true.
Proof.
  unfold initiate_close. destruct (closed_ (Machine.c m)) eqn:E; intros H; injection H as <- <- <-; [done|].
  simpl. by destruct (on_close_ _).
Qed.

Lemma event_keeps (m : mst) events r c' d' out b :
  on_io_event events r (Machine.c m) (Machine.d m) = (c', d', out, b) →
  Forall (λ b, b ≠ []) (blocks out) ∧ max_write_queue_bytes_ c' = max_write_queue_bytes_ (Machine.c m) ∧
  (closed_ (Machine.c m) = true → closed_ c' = true).
Proof.
  intros H. pose proof H as Hc. apply Machine.on_io_event_cases in Hc as [[Hc _]|(-> & _)].
  - apply close_keeps in Hc as (-> & ? & ?). split; [constructor|done].
  - split; [|done]. unfold on_io_event in H. destruct (initiate_close _ _) as [[c1 d1] o1] eqn:Ec.
    destruct (close_keeps m c1 d1 o1 Ec) as (Ho1 & _).
    repeat case_match; simplify_eq; try rewrite Ho1; try constructor; simpl; try (by constructor).
    all: destruct (on_data_ _); simpl; repeat constructor; done.
Qed.

Lemma step_keeps m m' :
  Machine.step cb m m' → Machine.callers m' = Machine.callers m → keeps m m'.
Proof.
  intros [m0 m1 Hstep|m0 d' _ _] Hcallers; [|by apply keeps_same].
  destruct Hstep as [s t ts H1 H2|s events r c' d' out b H1 H2 H3|s i H|s i H
    |s chunk c' d' H1 H2|s chunk sent n H1 H2|s chunk sent H|s chunk sent H|s chunk sent H|s u H
    |s u us us' H|s H]; try (by apply keeps_same).
  - unfold Machine.run_task. destruct t; try (by apply keeps_same).
    destruct (initiate_close (Machine.c s) (Machine.d s)) as [[c' d'] out] eqn:E.
    apply close_keeps in E as (Ho & Hm & Hc). split; simpl; [done| |done|done]. exists out. rewrite Ho. by split; [|constructor].
  - apply event_keeps in H3 as (Ho & Hm & Hc). split; simpl; eauto.
  - apply keeps_same; [done..| |]; simpl; unfold drain_pop in H2; destruct (write_queue_ (Machine.c s)); by simplify_eq.
  - unfold Machine.closing. destruct (initiate_close (Machine.c s) (Machine.d s)) as [[c' d'] out] eqn:E.
    apply close_keeps in E as (Ho & Hm & Hc). split; simpl; [done| |done|done]. exists out. rewrite Ho. by split; [|constructor].
  - simpl in Hcallers. exfalso. apply (f_equal length) in Hcallers. rewrite H, length_app in Hcallers.
    assert (∀ x, Machine.callers (Machine.commit u x) = Machine.callers x) as Hk.
    { intros x. unfold Machine.commit. destruct u; try done. by destruct (enqueue_send_locked _ _) as [[? ?] ?]. }
    rewrite Hk in Hcallers. simpl in Hcallers. rewrite length_app in Hcallers. simpl in Hcallers. lia.
Qed.

(** ** The invariant *)

(** The blocks whose [send] is over. *)
Definition finished (s : est) (fin : list bytes) : Prop := taken s = fin ++ sending s.

Record einv (buf max : Z) (s : est) : Prop := {
  e_inv : Machine.inv (ms s);
  e_max : max_write_queue_bytes_ (Machine.c (ms s)) = max;
  e_done : (done s ≤ length (Machine.submitted (ms s)))%nat;
  e_blocks : Forall (λ b, 0 < size b ≤ buf) (received s);
  e_callers : Machine.callers (ms s) = Machine.CSend <$> sending s ∧ (length (sending s) ≤ 1)%nat;
  e_some : ∃ fin sel, finished s fin ∧ sel `sublist_of` fin ∧ Machine.accepted (ms s) = concat sel;
  e_all : size (concat (received s)) ≤ max →
          ∃ fin sel, finished s fin ∧ sel `prefix_of` fin ∧ Machine.accepted (ms s) = concat sel ∧
            (closed_ (Machine.c (ms s)) = false ∨ sending s ≠ [] → sel = fin)
}.

Lemma blocks_app l k : blocks (l ++ k) = blocks l ++ blocks k.
Proof. apply omap_app. Qed.

Lemma taken_prefix s : ∃ rest, received s = taken s ++ rest.
Proof. exists (blocks (drop (done s) (Machine.submitted (ms s)))). unfold received, taken. by rewrite <-blocks_app, take_drop. Qed.

Context `{!DispatcherLaws D}.

Lemma loop_einv buf max s m' :
  Machine.step cb (ms s) m' → Machine.callers m' = Machine.callers (ms s) →
  Forall (λ b, size b ≤ buf) (blocks (Machine.submitted m')) → einv buf max s → einv buf max (mk_est m' (done s)).
Proof using Type*.
  intros Hstep Hcallers Hbuf [Hi Hmax Hdone Hbl [Hcl Hlen] Hsome Hall].
  destruct (step_keeps _ _ Hstep Hcallers) as [Ha (out & Hsub & Hout) Hm Hc].
  assert (taken (mk_est m' (done s)) = taken s) as Htk by (unfold taken; simpl; by rewrite Hsub, take_app_le).
  assert (sending (mk_est m' (done s)) = sending s) as Hsd by (unfold sending; simpl; by rewrite Hcallers).
  assert (received (mk_est m' (done s)) = received s ++ blocks out) as Hrec by (unfold received; simpl; by rewrite Hsub, blocks_app).
  split; unfold finished; rewrite ?Htk, ?Hsd; simpl.
  - by apply (Machine.conn_step_inv cb (ms s)).
  - congruence.
  - rewrite Hsub, length_app. lia.
  - rewrite Hrec. unfold blocks in Hbuf. rewrite Hsub in Hbuf. fold (blocks (Machine.submitted (ms s) ++ out)) in Hbuf.
    rewrite blocks_app in Hbuf. apply Forall_app in Hbuf as [_ Hbuf]. apply Forall_app. split; [done|].
    apply Forall_forall. intros b Hb. rewrite Forall_forall in Hbuf, Hout. specialize (Hbuf b Hb). specialize (Hout b Hb).
    split; [|done]. unfold size. destruct b; [done|]. simpl. lia.
  - by rewrite Hcallers.
  - by rewrite Ha.
  - rewrite Hrec, concat_app, size_app, Ha. pose proof (size_nonneg (concat (blocks out))). intros Hle.
    destruct Hall as (fin & sel & ? & ? & ? & Hop); [lia|]. exists fin, sel. split_and!; try done. intros [Hncl|?]; apply Hop; [|auto].
    destruct (closed_ (Machine.c (ms s))); [|auto]. by rewrite Hc in Hncl.
Qed.

Lemma taken_next s u m' :
  Machine.submitted (ms s) !! done s = Some u → Machine.submitted m' = Machine.submitted (ms s) →
  taken (mk_est m' (S (done s))) = taken s ++ blocks [u].
Proof. intros Hu Hs. unfold taken. simpl. by rewrite Hs, (take_S_r _ _ u), blocks_app. Qed.

(** The handler takes a callback; a block that fails the test is not sent. *)
Lemma take_einv buf max s u :
  buf < 2 ^ 63 → Machine.callers (ms s) = [] → Machine.submitted (ms s) !! done s = Some u → einv buf max s →
  einv buf max (take_callback u s).
Proof using Type*.
  intros Hbuf Hc0 Hu [Hi Hmax Hdone Hbl [Hcl Hlen] Hsome Hall].
  assert (sending s = []) as Hs0 by (unfold sending; by rewrite Hc0).
  pose proof (lookup_lt_Some _ _ _ Hu) as Hlt. pose proof (λ m', taken_next s u m' Hu) as Htk.
  destruct u as [data|]; simpl.
  2:{ split; unfold finished in *; rewrite ?Htk by done; simpl; rewrite ?app_nil_r; done. }
  assert (0 < size data ≤ buf) as Hsz.
  { rewrite Forall_forall in Hbl. apply Hbl. unfold received, blocks. apply list_elem_of_omap.
    exists (OnData data). split; [|done]. by apply list_elem_of_lookup_2 in Hu. }
  destruct (enqueue_send_check (Machine.c (ms s)) data) eqn:Ech.
  - assert (closed_ (Machine.c (ms s)) = false) as Hop.
    { unfold enqueue_send_check in Ech. by destruct (closed_ (Machine.c (ms s))). }
    split; unfold finished in *; rewrite ?Htk by done; simpl; rewrite ?Hs0, ?app_nil_r in *; try done.
    + assert (Machine.may_enter (Machine.CSend data) (Machine.c (ms s))) as Hmay by (split; [done|lia]).
      pose proof (Machine.conn_step_inv cb _ _ (Machine.step_own cb _ _ (Machine.step_enter cb (ms s) _ Hmay)) Hi) as H.
      by rewrite Hc0 in H.
    + destruct Hsome as (fin & sel & Hf & ? & ?). exists fin, sel. rewrite Hf, app_nil_r. by split_and!.
    + intros Hle. destruct (Hall Hle) as (fin & sel & Hf & ? & ? & Heq). exists fin, sel. rewrite Hf, app_nil_r.
      split_and!; [done..|]. auto.
  - assert (closed_ (Machine.c (ms s)) = true) as Hcd.
    { unfold enqueue_send_check in Ech. destruct (closed_ (Machine.c (ms s))); [done|]. simpl in Ech.
      apply negb_false_iff, Z.eqb_eq in Ech. lia. }
    split; unfold finished in *; rewrite ?Htk by done; simpl; try done.
    + change (sending (mk_est (ms s) (S (done s)))) with (sending s). rewrite Hs0 in *.
      destruct Hsome as (fin & sel & Hf & ? & ?). exists (fin ++ [data]), sel. rewrite Hf, !app_nil_r.
      split_and!; [done| |done]. by apply sublist_inserts_r.
    + change (sending (mk_est (ms s) (S (done s)))) with (sending s). rewrite Hs0 in *. intros Hle.
      destruct (Hall Hle) as (fin & sel & Hf & ? & ? & _). exists (fin ++ [data]), sel. rewrite Hf, !app_nil_r.
      split_and!; [done|by apply prefix_app_r|done|]. rewrite Hcd. by intros [].
Qed.

(** The rest of the call: within the limit nothing is refused. *)
Lemma send_einv buf max s u :
  buf < 2 ^ 63 → Machine.callers (ms s) = [u] → einv buf max s → einv buf max (finish_send u s).
Proof using Type*.
  intros Hbuf Hc1 [Hi Hmax Hdone Hbl [Hcl Hlen] Hsome Hall].
  destruct (sending s) as [|data [|]] eqn:Esd; rewrite Hc1 in Hcl; simplify_eq/=.
  pose proof (Machine.conn_step_inv cb _ _ (Machine.step_own cb _ _ (Machine.step_commit cb (ms s) _ [] [] Hc1)) Hi) as Hi'.
  destruct (taken_prefix s) as [rest Hrest].
  assert (0 < size data ≤ buf) as Hsz.
  { destruct Hsome as (fin & _ & Hf & _). unfold finished in Hf. rewrite Hrest, Hf, Esd in Hbl.
    rewrite !Forall_app in Hbl. destruct Hbl as [[_ Hd] _]. by apply Forall_cons in Hd as [? _]. }
  assert (∀ fin, finished s fin → finished (finish_send (Machine.CSend data) s) (fin ++ [data]) ∧
            sending (finish_send (Machine.CSend data) s) = []) as Hfin.
  { intros fin Hf. unfold finished in *. rewrite Esd in Hf. unfold taken, sending, finish_send, Machine.commit in *. simpl.
    destruct (enqueue_send_locked _ _) as [[ok c'] ts]. simpl. rewrite app_nil_r. by split. }
  assert (sending (finish_send (Machine.CSend data) s) = []) as Hs0 by (destruct Hsome as (fin & _ & Hf & _); by apply (Hfin fin)).
  simpl in Hi'. destruct (enqueue_send_locked data (Machine.c (ms s))) as [[ok c'] ts] eqn:E.
  destruct (enqueue_wf data _ _ _ _ (Machine.i_conn _ Hi) (conj (proj1 Hsz) (Z.le_lt_trans _ _ _ (proj2 Hsz) Hbuf)) E) as (_ & _ & Hcl' & _ & Hmx & Hok).
  assert (size (concat (received s)) ≤ max_write_queue_bytes_ (Machine.c (ms s)) → closed_ (Machine.c (ms s)) = false → ok = true) as Hin.
  { intros Hle Hop. destruct (Hall Hle) as (fin & sel & Hf & _ & Hacc & Heq). rewrite Heq in Hacc by auto. unfold finished in Hf.
    pose proof (Machine.i_stream _ Hi Hop) as Hst. rewrite Hacc in Hst. apply (f_equal size) in Hst. rewrite !size_app in Hst.
    rewrite Hrest, Hf, Esd, !concat_app, !size_app in Hle. simpl in Hle. rewrite app_nil_r in Hle.
    pose proof (size_nonneg (Machine.wire (ms s))). pose proof (size_nonneg (Machine.inflight (Machine.pc (ms s)))).
    pose proof (size_nonneg (concat rest)). pose proof (wf_bytes _ (Machine.i_conn _ Hi)) as Hwb.
    pose proof (wf_max _ (Machine.i_conn _ Hi)). pose proof (size_nonneg (concat (write_queue_ (Machine.c (ms s))))).
    unfold enqueue_send_locked in E. rewrite u64_small in E by lia. destruct (_ <? _) eqn:El; bool_facts; [lia|].
    destruct (negb _); by injection E. }
  assert (ms (finish_send (Machine.CSend data) s) =
    Machine.mk_st c' (Machine.d (ms s)) (Machine.posts (ms s) ++ ts) (Machine.pc (ms s)) [] (Machine.submitted (ms s)) (Machine.wire (ms s))
      (if ok then Machine.accepted (ms s) ++ data else Machine.accepted (ms s)) (Machine.start_called (ms s)) (Machine.added (ms s))) as Hms
    by (unfold finish_send, Machine.commit; simpl; by rewrite E).
  split.
  - by rewrite Hms.
  - rewrite Hms. simpl. congruence.
  - by rewrite Hms.
  - unfold received. by rewrite Hms.
  - rewrite Hs0, Hms. simpl. split; [done|lia].
  - destruct Hsome as (fin & sel & Hf & Hsub & Hacc). exists (fin ++ [data]), (if ok then sel ++ [data] else sel).
    split; [by apply Hfin|]. rewrite Hms. simpl. destruct ok.
    + split; [by apply sublist_app|]. rewrite Hacc, concat_app. simpl. by rewrite app_nil_r.
    + split; [by apply sublist_inserts_r|done].
  - unfold received. rewrite Hms. simpl. intros Hle.
    destruct (Hall Hle) as (fin & sel & Hf & Hpre & Hacc & Heq). rewrite Heq in Hacc by auto.
    exists (fin ++ [data]), (if ok then fin ++ [data] else fin). split; [by apply Hfin|]. rewrite Hs0, Hcl'. split_and!.
    + destruct ok; [done|by apply prefix_app_r].
    + destruct ok; [|done]. rewrite Hacc, concat_app. simpl. by rewrite app_nil_r.
    + intros [Hop|]; [|done]. by rewrite Hin.
Qed.

Lemma estep_einv buf max s s' : buf < 2 ^ 63 → estep buf s s' → einv buf max s → einv buf max s'.
Proof using Type*. intros Hb [s0 m' H1 H2 H3|s0 u H1 H2|s0 u H1]; eauto using loop_einv, take_einv, send_einv. Qed.

Lemma echo_init_einv buf fd max d0 : 0 ≤ fd → 0 ≤ max < 2 ^ 62 → d_wf d0 → einv buf max (echo_init fd max d0).
Proof.
  intros Hfd Hmax Hd. split; simpl; try done.
  - by apply Machine.conn_init_inv.
  - split; [done|]. simpl. lia.
  - exists [], []. by split_and!.
  - intros _. exists [], []. by split_and!.
Qed.

Lemma prefix_concat (l k : list bytes) : l `prefix_of` k → concat l `prefix_of` concat k.
Proof. intros [m ->]. rewrite concat_app. by apply prefix_app_r. Qed.


End Echo.

(** ** A concrete run *)

(** The connection of [Connection.Machine.demo_added] receives three bytes; the handler
    sends them back and the kernel takes two of them. *)
Definition echo_arrived : Machine.st (D := map_dispatcher) :=
  Machine.mk_st (Machine.c Machine.demo_added) (Machine.d Machine.demo_added) [] Machine.Idle [] [OnData [1; 2; 3]] [] [] true true.
Definition echo_queued : est (D := map_dispatcher) :=
  finish_send (Machine.CSend [1; 2; 3]) (take_callback (OnData [1; 2; 3]) (mk_est echo_arrived 0)).
Definition echo_registered : Machine.st (D := map_dispatcher) := Machine.run_task PRegister [] (ms echo_queued).
Definition echo_writable : Machine.st (D := map_dispatcher) :=
  Machine.with_loop echo_registered (Machine.c echo_registered) (Machine.d echo_registered) Machine.Drain.
Definition echo_popped : Machine.st (D := map_dispatcher) :=
  let '(chunk, c', d') := drain_pop (Machine.c echo_writable) (Machine.d echo_writable) in
  Machine.with_loop echo_writable c' d' (Machine.Sending (default [] chunk) 0).
Definition echo_sent : Machine.st (D := map_dispatcher) := Machine.sent_ok 2 echo_popped [1; 2; 3] 0.

Lemma echo_own (s : Machine.st (D := map_dispatcher)) m' n :
  Machine.own_step 50%nat s m' → Machine.callers m' = Machine.callers s →
  Forall (λ b, size b ≤ 65536) (blocks (Machine.submitted m')) → estep 50%nat 65536 (mk_est s n) (mk_est m' n).
Proof. intros H1 H2 H3. apply (echo_loop 50%nat 65536 (mk_est s n) m'); [by apply Machine.step_own|done|done]. Qed.

Lemma echo_sent_reachable : rtc (estep (D := map_dispatcher) 50%nat 65536) (echo_init 5 4 (∅ : gmap Z (Z * nat))) (mk_est echo_sent 1).
Proof.
  eapply rtc_l; [apply echo_own; [by apply Machine.step_start|done|constructor]|].
  eapply rtc_l; [apply echo_own; [by eapply Machine.step_task|done|constructor]|].
  eapply rtc_l; [apply echo_own; [by eapply Machine.step_add|done|constructor]|].
  apply rtc_l with (mk_est echo_arrived 0).
  { apply echo_own; [|done|repeat constructor; unfold size; simpl; lia].
    exact (Machine.step_event 50%nat Machine.demo_added ev_readable (Val [1; 2; 3]) _ _ [OnData [1; 2; 3]] false eq_refl eq_refl eq_refl). }
  eapply rtc_l; [by apply (echo_take 50%nat 65536 _ (OnData [1; 2; 3]))|].
  eapply rtc_l; [by apply (echo_send 50%nat 65536 _ (Machine.CSend [1; 2; 3]))|].
  apply rtc_l with (mk_est echo_registered 1).
  { apply echo_own; [|done|repeat constructor; unfold size; simpl; lia]. by apply Machine.step_task. }
  apply rtc_l with (mk_est echo_writable 1).
  { apply echo_own; [|done|repeat constructor; unfold size; simpl; lia].
    exact (Machine.step_event 50%nat echo_registered ev_writable (Val []) _ _ [] true eq_refl eq_refl eq_refl). }
  apply rtc_l with (mk_est echo_popped 1).
  { apply echo_own; [|done|repeat constructor; unfold size; simpl; lia].
    by apply (Machine.step_drain 50%nat echo_writable (Some [1; 2; 3])). }
  apply rtc_once, echo_own; [|done|repeat constructor; unfold size; simpl; lia].
  apply Machine.step_send; [done|simpl; lia].
Qed.

