(* ===== verification/Server.v ===== *)
(** * A listening stream

    The server side of [stream_impl] in [src/src/high/stream.cpp] put together: the
    calls of the user ([on_connect], [on_error], [pause], [resume]), the lambdas they
    post to the loop, and the accept loop with the handler that [arm_listen] gives it
    and the copy of it in [do_resume].  The user's threads and the loop are
    interleaved: an event is one call of the user, one lambda run by the loop, one
    readiness of the listener, one back-off timer, or the closing of a connection.
    The table of connections and the accept callback are those of [Stream]. *)

From S2P Require Import Prelude Platform Dispatcher Stream.

Local Open Scope Z_scope.

(** The handler in [do_resume]. *)
Definition resume_handler (sock_r : result Z) (id : nat) (s : stream) : accepted * stream :=
  match sock_r with
  | Err ec => if on_error_cb s then (ReportError ec, s) else (Ignored, s)
  | Val sock =>
      if (0 <? max_conn s) && (max_conn s <=? Z.of_nat (size (connections s))) then (Refused sock, s)
      else
        let fd := sock in
        if on_connect_cb s then
          let s := set_table (<[fd := id]> (connections s)) (connection_count s) s in
          let s := set_table (connections s) (u64 (connection_count s + 1)) s in
          (Connected fd id, s)
        else
          let s := set_table (<[fd := id]> (connections s)) (connection_count s) s in
          let s := set_table (connections s) (u64 (connection_count s + 1)) s in
          (Started fd id, s)
  end.

(** The two copies agree. *)
Lemma resume_handler_same sock_r id s : resume_handler sock_r id s = accept_handler sock_r id s.
Proof. destruct sock_r as [fd|ec]; simpl; [|by destruct (on_error_cb s)]. by destruct (_ && _), (on_connect_cb s). Qed.

Section Server.
Context {D : Dispatcher nat}.

(** What the handlers have done, in order, and the next connection's name. *)
Record own := mk_own { tbl : stream; outcomes : list accepted; next : nat }.

Definition handle_with (h : result Z → nat → stream → accepted * stream) (r : result Z) (o : own) : own :=
  let '(res, t) := h r (next o) (tbl o) in mk_own t (outcomes o ++ [res]) (S (next o)).

(** The callbacks registered with the dispatcher: 0 has the handler of [arm_listen],
    any other that of [do_resume]. *)
Definition handler_of (cb : nat) : result Z → own → own :=
  handle_with (match cb with O => accept_handler | _ => resume_handler end).

(** The lambdas in the queue of the loop. *)
Inductive lam := LArm | LStop | LResume | LErase (fd : Z).

(** [ran] are the lambdas that have run, [called] whether [on_connect] has been called. *)
Record srv := mk_srv {
  listen_mode : bool; armed : bool; listen_paused : bool; lst : listener;
  posted : list lam; ran : list lam; aloop : AcceptLoop.ast (D := D) (H := own); called : bool
}.

Definition post (l : lam) (s : srv) : srv :=
  mk_srv (listen_mode s) (armed s) (listen_paused s) (lst s) (posted s ++ [l]) (ran s) (aloop s) (called s).
Definition set_aloop (a : AcceptLoop.ast (D := D) (H := own)) (s : srv) : srv :=
  mk_srv (listen_mode s) (armed s) (listen_paused s) (lst s) (posted s) (ran s) a (called s).
Definition set_owner (o : own) (s : srv) : srv :=
  let a := aloop s in set_aloop (AcceptLoop.mk_ast (AcceptLoop.backoff_ms a) (AcceptLoop.ad a) (AcceptLoop.timers a) o) s.
Definition owner_of (s : srv) : own := AcceptLoop.owner (aloop s).

Definition set_cbs (oc oe : bool) (t : stream) : stream := mk_stream (max_conn t) (connections t) (connection_count t) oc oe.

Definition arm_listen (s : srv) : srv :=
  if armed s then s
  else post LArm (mk_srv (listen_mode s) true (listen_paused s) (lst s) (posted s) (ran s) (aloop s) (called s)).

(** [stream4::on_connect] with a handler, in listening mode (for the other see
    [StreamClient]), and [stream4::on_error]. *)
Definition on_connect (s : srv) : srv :=
  let o := owner_of s in
  let s := set_owner (mk_own (set_cbs true (on_error_cb (tbl o)) (tbl o)) (outcomes o) (next o)) s in
  let s := mk_srv (listen_mode s) (armed s) (listen_paused s) (lst s) (posted s) (ran s) (aloop s) true in
  if listen_mode s then arm_listen s else s.

Definition on_error (s : srv) : srv :=
  let o := owner_of s in
  set_owner (mk_own (set_cbs (on_connect_cb (tbl o)) true (tbl o)) (outcomes o) (next o)) s.

(** The same functions of [stream6]. *)
Definition stream6_on_connect : srv → srv := on_connect.
Definition stream6_on_error : srv → srv := on_error.

Definition do_pause (s : srv) : srv :=
  if negb (listen_mode s) || negb (armed s) then s
  else post LStop (mk_srv (listen_mode s) (armed s) true (lst s) (posted s) (ran s) (aloop s) (called s)).

Definition do_resume (s : srv) : srv :=
  if negb (listen_mode s) || negb (armed s) then s
  else post LResume (mk_srv (listen_mode s) (armed s) false (lst s) (posted s) (ran s) (aloop s) (called s)).

(** [listener.accept_loop]: the callback comes with a back-off of its own. *)
Definition register (cb : nat) (s : srv) : srv :=
  let a := aloop s in
  let '(r, d) := d_add (listener_handle (lst s)) ev_readable cb (AcceptLoop.ad a) in
  set_aloop (AcceptLoop.mk_ast (if rv_bool r then 100 else AcceptLoop.backoff_ms a) d (AcceptLoop.timers a) (AcceptLoop.owner a)) s.

(** The loop runs the first lambda in its queue. *)
Definition run_posted (s : srv) : option srv :=
  match posted s with
  | [] => None
  | l :: rest =>
      let s := mk_srv (listen_mode s) (armed s) (listen_paused s) (lst s) rest (ran s ++ [l]) (aloop s) (called s) in
      Some
        match l with
        | LArm => register 0 s
        | LResume => register 1 s
        | LStop => mk_srv (listen_mode s) (armed s) (listen_paused s) (listener_stop (lst s)) (posted s) (ran s) (aloop s) (called s)
        | LErase fd => let o := owner_of s in set_owner (mk_own (erase_connection fd (tbl o)) (outcomes o) (next o)) s
        end
  end.

(** The dispatcher reports the listener, which it can while the socket is open and
    registered; [rs] is what the calls of [accept] return. *)
Definition ready (rs : list (result Z)) (s : srv) : option srv :=
  if l_open (lst s) then
    '(_, cb) ← d_lookup (AcceptLoop.ad (aloop s)) (l_fd (lst s));
    a ← AcceptLoop.accept_cb (handler_of cb) ev_readable rs (lst s) (aloop s);
    Some (set_aloop a s)
  else None.

(** The first back-off timer. *)
Definition timer (s : srv) : option srv :=
  let a := aloop s in
  match AcceptLoop.timers a with
  | [] => None
  | (_, fd) :: ts => Some (set_aloop (AcceptLoop.timer_fired fd (AcceptLoop.mk_ast (AcceptLoop.backoff_ms a) (AcceptLoop.ad a) ts (AcceptLoop.owner a))) s)
  end.

Inductive ev := EOnConnect | EOnError | EPause | EResume | ERun | EReady (rs : list (result Z)) | ETimer | EClosed (fd : Z).

Definition exec (e : ev) (s : srv) : option srv :=
  match e with
  | EOnConnect => Some (on_connect s)
  | EOnError => Some (on_error s)
  | EPause => Some (do_pause s)
  | EResume => Some (do_resume s)
  | ERun => run_posted s
  | EReady rs => ready rs s
  | ETimer => timer s
  | EClosed fd => Some (post (LErase fd) s)
  end.

Inductive step (s : srv) : srv → Prop := step_exec e s' : exec e s = Some s' → step s s'.

(** As [do_listen] leaves it: the loop runs, nothing is registered. *)
Definition init (listening : bool) (fd max : Z) (d : disp) : srv :=
  mk_srv listening false false (mk_listener fd true) [] [] (AcceptLoop.mk_ast 100 d [] (mk_own (mk_stream max ∅ 0 false false) [] 0)) false.

(** ** The invariant *)

Definition is_arm (l : lam) : bool := match l with LArm => true | _ => false end.
Definition is_stop (l : lam) : bool := match l with LStop => true | _ => false end.
Definition is_erase (l : lam) : bool := match l with LErase _ => true | _ => false end.
Definition started_without (a : accepted) : bool := match a with Started _ _ => true | _ => false end.

Definition armed_count (s : srv) : nat := if armed s then 1 else 0.

Record inv (fd : Z) (s : srv) : Prop := {
  v_arms : (count is_arm (posted s) + count is_arm (ran s))%nat = armed_count s;
  v_mode : listen_mode s = false → armed s = false;
  v_called : listen_mode s = true → called s = armed s;
  v_unarmed : armed s = false → Forall (λ l, is_erase l = true) (posted s ++ ran s) ∧ listen_paused s = false;
  v_cb : armed s = true → on_connect_cb (tbl (owner_of s)) = true;
  v_wf : d_wf (AcceptLoop.ad (aloop s));
  v_reg : is_Some (d_lookup (AcceptLoop.ad (aloop s)) fd) → (1 ≤ count is_arm (ran s))%nat;
  v_open : l_open (lst s) = (count is_stop (ran s) =? 0)%nat;
  v_fd : l_fd (lst s) = fd;
  v_out : Forall (λ a, started_without a = false) (outcomes (owner_of s));
  v_quiet : count is_arm (ran s) = 0%nat → outcomes (owner_of s) = [];
  v_order : armed s = true → ∃ pre suf, ran s ++ posted s = pre ++ LArm :: suf ∧ Forall (λ l, is_erase l = true) pre
}.

Context `{!DispatcherLaws D}.

(** What the accept callback does besides calling its handler is one change of interest. *)
Lemma accept_cb_keeps (P : own → Prop) h evs rs l a a' :
  AcceptLoop.accept_cb h evs rs l a = Some a' → (∀ r o, P o → P (h r o)) → P (AcceptLoop.owner a) →
  P (AcceptLoop.owner a') ∧
  (AcceptLoop.ad a' = AcceptLoop.ad a ∨ AcceptLoop.ad a' = (d_modify (listener_handle l) ev_none (AcceptLoop.ad a)).2).
Proof.
  unfold AcceptLoop.accept_cb. destruct (negb _); [intros [= <-]; auto|]. intros E Hh. revert a E.
  induction rs as [|[fd|ec] rs IH]; intros a E HP; [done| |]; cbn [AcceptLoop.accept_all] in E.
  - apply IH in E; simpl in *; auto.
  - destruct (ec_eqb ec (make_error_code would_block)); [simplify_eq; auto|].
    destruct (ec_eqb ec (make_error_code fd_limit_reached)); simplify_eq; simpl; auto.
Qed.

Lemma modify_registered fd fd' i d :
  d_wf d → d_wf (d_modify fd' i d).2 ∧ (is_Some (d_lookup (d_modify fd' i d).2 fd) → is_Some (d_lookup d fd)).
Proof using Type*.
  intros Hwf. destruct (d_modify fd' i d) as [r d'] eqn:E. apply law_modify in E as (Hwf' & Ho & He); [|done].
  split; [done|]. simpl. destruct (decide (fd = fd')) as [->|Hne]; [|by rewrite Ho].
  rewrite He. destruct (rv_bool r); [|done]. intros Hx. by apply fmap_is_Some in Hx.
Qed.

(** A handler that runs while [on_connect_cb] is set. *)
Lemma handler_not_started cb r o :
  on_connect_cb (tbl o) = true →
  on_connect_cb (tbl (handler_of cb r o)) = true ∧
  (Forall (λ a, started_without a = false) (outcomes o) → Forall (λ a, started_without a = false) (outcomes (handler_of cb r o))).
Proof.
  intros Hoc. unfold handler_of, handle_with.
  assert (∀ h, h = accept_handler ∨ h = resume_handler →
    on_connect_cb (h r (next o) (tbl o)).2 = true ∧ started_without (h r (next o) (tbl o)).1 = false) as Hh.
  { assert (on_connect_cb (accept_handler r (next o) (tbl o)).2 = true ∧
            started_without (accept_handler r (next o) (tbl o)).1 = false) as H.
    { destruct r as [fd|ec]; simpl; [|by destruct (on_error_cb _)]. destruct (_ && _); [done|]. simpl. by rewrite Hoc. }
    intros h [-> | ->]; [done|]. by rewrite resume_handler_same. }
  destruct (Hh (match cb with O => accept_handler | _ => resume_handler end)) as [H1 H2]; [destruct cb; auto|].
  destruct (match cb with O => accept_handler | _ => resume_handler end r (next o) (tbl o)) as [res t]. simpl in *.
  split; [done|]. intros Hall. apply Forall_app. auto.
Qed.

Lemma on_error_inv fd s : inv fd s → inv fd (on_error s).
Proof. intros []. split; simpl; try done. Qed.

Lemma server_arm_inv fd s :
  inv fd s → listen_mode s = true → on_connect_cb (tbl (owner_of s)) = true →
  inv fd (mk_srv true true (listen_paused s) (lst s) (if armed s then posted s else posted s ++ [LArm]) (ran s) (aloop s) true).
Proof.
  intros [Ha Hm Hc Hu Hcb Hwf Hr Ho Hfd Hout Hq Hord] Hl Hoc. split; simpl; try done; unfold armed_count in *; simpl in *.
  - destruct (armed s); [done|]. rewrite count_app, count_cons, count_nil. simpl. lia.
  - intros _. destruct (armed s); [auto|]. exists (ran s ++ posted s), []. rewrite app_assoc. split; [done|].
    by rewrite Permutation_app_comm; apply Hu.
Qed.

Lemma on_connect_inv fd s : inv fd s → inv fd (on_connect s).
Proof.
  intros Hi. pose (o := owner_of s).
  pose (s1 := set_owner (mk_own (set_cbs true (on_error_cb (tbl o)) (tbl o)) (outcomes o) (next o)) s).
  assert (inv fd s1) as H1 by (destruct Hi; split; simpl; done).
  unfold on_connect. fold o. fold s1. cbn [listen_mode]. destruct (listen_mode s1) eqn:El.
  - pose proof (server_arm_inv fd s1 H1 El eq_refl) as H2. unfold arm_listen. cbn [armed]. simpl in *. unfold post.
    cbn [listen_mode listen_paused lst posted ran aloop called]. destruct (armed s); exact H2.
  - destruct H1 as [Ha Hm Hc Hu Hcb Hwf Hr Ho Hfd Hout Hq Hord]. simpl in El. split; try done. intros _. by apply Hm.
Qed.

(** A lambda other than [LArm] is posted, by a stream that is armed unless it is a removal. *)
Lemma post_inv fd l lp s :
  inv fd s → is_arm l = false → (armed s = false → is_erase l = true ∧ lp = false) →
  inv fd (post l (mk_srv (listen_mode s) (armed s) lp (lst s) (posted s) (ran s) (aloop s) (called s))).
Proof.
  intros [Ha Hm Hc Hu Hcb Hwf Hr Ho Hfd Hout Hq Hord] Hl Hlp. split; simpl; try done.
  - rewrite count_app, count_cons, count_nil, Hl. unfold armed_count in *. simpl. lia.
  - intros Hna. destruct (Hlp Hna) as [? ->], (Hu Hna) as [[Hp Hr']%Forall_app _]. split; [|done].
    repeat (apply Forall_app; split); [done| |done]. by constructor.
  - intros Harm. destruct (Hord Harm) as (pre & suf & E & Hpre). exists pre, (suf ++ [l]). by rewrite app_assoc, E, <-app_assoc.
Qed.

Lemma register_inv fd cb s : inv fd s → (1 ≤ count is_arm (ran s))%nat → inv fd (register cb s).
Proof using Type*.
  intros [Ha Hm Hc Hu Hcb Hwf Hr Ho Hfd Hout Hq Hord] Harm. unfold register. destruct (d_add _ _ _ _) as [r d] eqn:E.
  apply law_add in E as (Hwf' & _); [|done]. split; simpl; try done.
Qed.

(** What a pause or a resume has posted is behind the arming in the queue. *)
Lemma armed_before s l rest fd :
  inv fd s → posted s = l :: rest → is_erase l = false → is_arm l = false → (1 ≤ count is_arm (ran s))%nat.
Proof.
  intros [Ha Hm Hc Hu Hcb Hwf Hr Ho Hfd Hout Hq Hord] Ep He Hna.
  destruct (armed s) eqn:Earm.
  - destruct (Hord eq_refl) as (pre & suf & E & Hpre). rewrite Ep in E.
    apply app_eq_inv in E as [(k & -> & E)|(k & -> & E)].
    + destruct k as [|x k]; simplify_eq/=. rewrite count_app, count_cons. simpl. lia.
    + destruct k as [|x k]; simplify_eq/=. apply Forall_app in Hpre as [_ [Hx _]%Forall_cons]. congruence.
  - destruct (Hu eq_refl) as [Hall _]. rewrite Ep in Hall. apply Forall_cons in Hall as [? _]. congruence.
Qed.

Lemma run_inv fd s s' : run_posted s = Some s' → inv fd s → inv fd s'.
Proof using Type*.
  unfold run_posted. destruct (posted s) as [|l rest] eqn:Ep; [done|]. intros [= <-] Hi.
  assert (is_erase l = false → is_arm l = false → (1 ≤ count is_arm (ran s))%nat) as Hbefore by by apply (armed_before s l rest fd).
  destruct Hi as [Ha Hm Hc Hu Hcb Hwf Hr Ho Hfd Hout Hq Hord]. rewrite Ep, count_cons in Ha. rewrite Ep in Hu.
  pose (s1 := mk_srv (listen_mode s) (armed s) (listen_paused s)
                (if is_stop l then listener_stop (lst s) else lst s) rest (ran s ++ [l]) (aloop s) (called s)).
  assert (inv fd s1) as H1.
  { split; simpl; try done; rewrite ?count_app, ?count_cons, ?count_nil; unfold armed_count in *; simpl; try lia.
    - intros Hna. destruct (Hu Hna) as [Hall ?]. split; [|done]. rewrite Permutation_app_comm in Hall. simpl in Hall.
      apply Forall_app in Hall as [? [??]%Forall_cons]. repeat (apply Forall_app; split; try done). by constructor.
    - intros Hreg. specialize (Hr Hreg). lia.
    - destruct (is_stop l) eqn:Es; simpl; [|by rewrite Nat.add_0_r]. by rewrite Nat.add_comm.
    - destruct (is_stop l); done.
    - intros H0. apply Hq. lia.
    - intros Harm. destruct (Hord Harm) as (pre & suf & E & Hpre). exists pre, suf. by rewrite <-app_assoc, <-E, Ep. }
  assert (1 ≤ count is_arm (ran s1) ↔ 1 ≤ (if is_arm l then 1 else 0) + count is_arm (ran s))%nat as Hcount.
  { simpl. rewrite count_app, count_cons, count_nil. lia. }
  destruct l; simpl in *.
  - apply register_inv; [exact H1|]. apply Hcount. lia.
  - exact H1.
  - apply register_inv; [exact H1|]. apply Hcount. by apply Hbefore.
  - destruct H1. split; simpl; try done.
Qed.

Lemma ready_inv fd rs s s' : ready rs s = Some s' → inv fd s → inv fd s'.
Proof using Type*.
  intros E Hi. destruct Hi as [Ha Hm Hc Hu Hcb Hwf Hr Ho Hfd Hout Hq Hord]. unfold ready in E.
  destruct (l_open (lst s)) eqn:Eo; [|done]. rewrite Hfd in E. destruct (d_lookup _ fd) as [[i cb]|] eqn:El; [|done]. simpl in E.
  destruct (AcceptLoop.accept_cb _ _ _ _ _) as [a|] eqn:Ea; simplify_eq/=.
  specialize (Hr (mk_is_Some _ _ eq_refl)). assert (armed s = true) as Harm.
  { unfold armed_count in Ha. destruct (armed s); [done|]. lia. }
  specialize (Hcb Harm).
  destruct (accept_cb_keeps (λ o, on_connect_cb (tbl o) = true ∧ Forall (λ a, started_without a = false) (outcomes o))
    _ _ _ _ _ _ Ea) as [[Hoc' Hout'] Had]; [|done|].
  { intros r o [H1 H2]. pose proof (handler_not_started cb r o H1) as [? ?]. auto. }
  split; simpl; try done; try lia; [|by rewrite Eo]. destruct Had as [-> | ->]; [done|]. by apply (modify_registered (l_fd (lst s))).
Qed.

Lemma timer_inv fd s s' : timer s = Some s' → inv fd s → inv fd s'.
Proof using Type*.
  unfold timer. destruct (AcceptLoop.timers (aloop s)) as [|[t fd'] ts]; [done|]. intros [= <-].
  intros [Ha Hm Hc Hu Hcb Hwf Hr Ho Hfd Hout Hq Hord].
  destruct (modify_registered fd fd' ev_readable _ Hwf) as [Hwf' Hreg]. split; simpl; try done. auto.
Qed.

Lemma server_step_inv fd s s' : step s s' → inv fd s → inv fd s'.
Proof using Type*.
  intros [[] s1 E] Hi; simpl in E; simplify_eq; eauto using on_connect_inv, on_error_inv, run_inv, ready_inv, timer_inv.
  - unfold do_pause. destruct (negb _ || negb _) eqn:E; [done|]. apply post_inv; [done..|]. intros Hna.
    by rewrite Hna, orb_true_r in E.
  - unfold do_resume. destruct (negb _ || negb _) eqn:E; [done|]. apply post_inv; [done..|]. intros Hna.
    by rewrite Hna, orb_true_r in E.
  - destruct s as [lm ar lp ls po ra al ca]. apply (post_inv fd (LErase fd0) lp _ Hi); [done|]. intros Hna.
    split; [done|]. by apply (v_unarmed _ _ Hi).
Qed.

Lemma server_init_inv listening fd max d : d_wf d → d_lookup d fd = None → inv fd (init listening fd max d).
Proof.
  intros Hwf Hn. split; simpl; try done. rewrite Hn. by intros [].
Qed.

(** A listener that is closed accepts nothing more. *)
Lemma closed_listener_step s s' :
  step s s' → l_open (lst s) = false → l_open (lst s') = false ∧ outcomes (owner_of s') = outcomes (owner_of s).
Proof.
  intros [[] s1 E] Hc; simpl in E; simplify_eq; auto.
  - unfold on_connect, arm_listen, set_owner. simpl. destruct (listen_mode s), (armed s); done.
  - unfold do_pause. by destruct (_ || _).
  - unfold do_resume. by destruct (_ || _).
  - unfold run_posted in E. destruct (posted s) as [|[] rest]; simplify_eq; simpl; auto; unfold register; by destruct (d_add _ _ _ _).
  - unfold ready in E. by rewrite Hc in E.
  - unfold timer in E. destruct (AcceptLoop.timers (aloop s)) as [|[] ?]; simplify_eq; auto.
Qed.

Lemma step_mode s s' : step s s' → listen_mode s' = listen_mode s.
Proof.
  intros [[] s1 E]; simpl in E; simplify_eq; auto.
  - unfold on_connect, arm_listen, set_owner. simpl. by destruct (listen_mode s) eqn:El, (armed s).
  - unfold do_pause. by destruct (_ || _).
  - unfold do_resume. by destruct (_ || _).
  - unfold run_posted in E. destruct (posted s) as [|[] rest]; simplify_eq; simpl; auto; unfold register; by destruct (d_add _ _ _ _).
  - unfold ready in E. destruct (l_open _); [|done]. destruct (d_lookup _ _) as [[]|]; [|done]. simpl in E.
    by destruct (AcceptLoop.accept_cb _ _ _ _ _); simplify_eq/=.
  - unfold timer in E. destruct (AcceptLoop.timers _) as [|[] ?]; by simplify_eq.
Qed.

Lemma server_reachable_inv listening fd max d s :
  d_wf d → d_lookup d fd = None → rtc step (init listening fd max d) s → inv fd s ∧ listen_mode s = listening.
Proof using Type*.
  intros Hwf Hn Hr. split.
  - eapply rtc_preserves; [exact (server_step_inv fd)|exact Hr|]. by apply server_init_inv.
  - apply (rtc_preserves step (λ x, listen_mode x = listening) (init listening fd max d) s); [|done|done].
    intros x y Hxy <-. by apply step_mode.
Qed.

Lemma count_elem {A} (p : A → bool) (x : A) l : x ∈ l → p x = true → (1 ≤ count p l)%nat.
Proof. intros [i Hi]%list_elem_of_lookup Hp. by eapply count_pos. Qed.

Lemma in_count_arm l : (1 ≤ count is_arm l)%nat → LArm ∈ l.
Proof.
  induction l as [|x l IH]; [rewrite count_nil; lia|]. rewrite count_cons. destruct x; simpl; [set_solver|..]; intros; right; by apply IH.
Qed.

Lemma closed_forever s s' :
  rtc step s s' → l_open (lst s) = false → outcomes (owner_of s') = outcomes (owner_of s).
Proof.
  induction 1 as [|s1 s2 s3 H12 _ IH]; [done|]. intros Hc. destruct (closed_listener_step _ _ H12 Hc) as [Hc2 <-]. auto.
Qed.


End Server.

(** A server on descriptor 3 that is armed twice, accepts two connections, is paused
    and resumed. *)
Definition demo_server : srv (D := map_dispatcher) := init (D := map_dispatcher) true 3 0 (∅ : gmap Z (Z * nat)).
Definition demo_calls : list ev :=
  [EPause; EOnConnect; EOnConnect; ERun; EReady [Val 5; Val 6; err_of would_block]; EPause; ERun; EResume; ERun].
Definition run_events (l : list ev) (s : srv (D := map_dispatcher)) : srv (D := map_dispatcher) :=
  foldl (λ s e, default s (exec e s)) s l.

Lemma run_events_reachable l s :
  forallb (λ i, bool_decide (is_Some (e ← l !! i; exec e (run_events (take i l) s)))) (seq 0 (length l)) = true →
  rtc (step (D := map_dispatcher)) s (run_events l s).
Proof.
  induction l as [|e l IH] using rev_ind; intros Hall; [apply rtc_refl|].
  rewrite length_app, seq_app, forallb_app in Hall. apply andb_true_iff in Hall as [Hall Hlast].
  assert (rtc step s (run_events l s)) as Hr.
  { apply IH. apply forallb_forall. intros i Hi. pose proof (proj1 (forallb_forall _ _) Hall i Hi) as H.
    apply bool_decide_eq_true in H. apply bool_decide_eq_true. apply in_seq in Hi.
    rewrite lookup_app_l, take_app_le in H by lia. exact H. }
  eapply rtc_r; [exact Hr|]. simpl in Hlast. rewrite andb_true_r in Hlast. apply bool_decide_eq_true in Hlast.
  rewrite lookup_app_r, Nat.sub_diag in Hlast by lia. simpl in Hlast. rewrite take_app_length in Hlast.
  unfold run_events. rewrite foldl_app. simpl. destruct Hlast as [s' Hs']. unfold run_events in Hs'. rewrite Hs'. simpl.
  by apply (step_exec _ e).
Qed.

