(* ===== verification/ServerLife.v ===== *)
(** * The life of a server

    The listening mode of [stream_impl] of [src/src/high/stream.cpp] over real
    descriptors, from [stream4::listen] to the destructor: [do_listen] with its
    configuration ([src/include/socketpp/stream.hpp]), one turn of the accept loop at
    a time ([src/src/socket/tcp_accept_loop.cpp], with [accept] of [Socket]), the
    accept handler with everything it does to the accepted socket, the tasks of the
    pool, the closing of connections, pausing, resuming and [do_destroy].

    [Stream] has the table of connections, [Server] the arming, [Connection] what a
    connection does between its start and its end; here the descriptors are
    accounted for.  [exec_sev] is one step of the loop, of the pool or of the user;
    pool tasks run in any order.  A connection object stays until the stream is
    destroyed: whoever drops the last reference to it before, the descriptor of a
    connection is closed by [initiate_close] or by the destructor. *)

From S2P Require Import Prelude Platform Dispatcher Address Options Socket Transfer UdpMux StreamClient.

Local Open Scope Z_scope.

Record stream_listen_config := mk_listen_config {
  worker_threads : Z; max_write_buffer : Z; read_buffer_size : Z; sock_opts : socket_options;
  backlog : Z; max_connections : Z
}.

Section ServerLife.
Context {K : Type} `{SK : SocketKernel K} {CB : Type} {D : Dispatcher CB}.
Context {Key : Type} {AC : AddrClass Key}.
Context (o : os) (addr_default : bytes).
(** the callbacks of the accept loop and of a connection *)
Context (accept_cb : CB) (conn_cb : nat → CB).
(** whether a connection has data queued when it starts reading, which [Connection]
    models *)
Context (pending : nat → bool).

Abbreviation env := (@disp CB D * K)%type.

(** Lambdas posted to the loop and tasks of the pool, with the connection they are
    about. *)
Inductive spost := PAccept | PStop | PBegin (id : nat) | PShut (id : nat) | PErase (fd : Z).
Inductive stask := TOpened (id : nat) (fd : Z) | TWrap (id : nat) (fd : Z) | TFailed (ec : error_code) | TClosed (id : nat) (fd : Z).

Record server := mk_server {
  sv_listener : listener_base; sv_config : stream_listen_config;
  sv_armed : bool; sv_paused : bool; sv_on_connect : bool; sv_on_error : bool;
  sv_conns : gmap nat cconn; sv_next : nat;
  sv_table : gmap Z nat; sv_count : Z;
  sv_posted : list spost; sv_tasks : list stask;
  sv_backoff : Z; sv_timers : list (Z * Z)
}.

Definition set_sqs (ps : list spost) (ts : list stask) (s : server) : server :=
  mk_server (sv_listener s) (sv_config s) (sv_armed s) (sv_paused s) (sv_on_connect s) (sv_on_error s) (sv_conns s)
    (sv_next s) (sv_table s) (sv_count s) ps ts (sv_backoff s) (sv_timers s).
Definition set_sconns (m : gmap nat cconn) (s : server) : server :=
  mk_server (sv_listener s) (sv_config s) (sv_armed s) (sv_paused s) (sv_on_connect s) (sv_on_error s) m
    (sv_next s) (sv_table s) (sv_count s) (sv_posted s) (sv_tasks s) (sv_backoff s) (sv_timers s).
Definition set_stable (t : gmap Z nat) (n : Z) (s : server) : server :=
  mk_server (sv_listener s) (sv_config s) (sv_armed s) (sv_paused s) (sv_on_connect s) (sv_on_error s) (sv_conns s)
    (sv_next s) t n (sv_posted s) (sv_tasks s) (sv_backoff s) (sv_timers s).
Definition set_slistener (l : listener_base) (s : server) : server :=
  mk_server l (sv_config s) (sv_armed s) (sv_paused s) (sv_on_connect s) (sv_on_error s) (sv_conns s)
    (sv_next s) (sv_table s) (sv_count s) (sv_posted s) (sv_tasks s) (sv_backoff s) (sv_timers s).
Definition set_sflags (armed paused oc oe : bool) (s : server) : server :=
  mk_server (sv_listener s) (sv_config s) armed paused oc oe (sv_conns s)
    (sv_next s) (sv_table s) (sv_count s) (sv_posted s) (sv_tasks s) (sv_backoff s) (sv_timers s).
Definition set_sbackoff (b : Z) (ts : list (Z * Z)) (s : server) : server :=
  mk_server (sv_listener s) (sv_config s) (sv_armed s) (sv_paused s) (sv_on_connect s) (sv_on_error s) (sv_conns s)
    (sv_next s) (sv_table s) (sv_count s) (sv_posted s) (sv_tasks s) b ts.
Definition spost_ (p : spost) (s : server) : server := set_sqs (sv_posted s ++ [p]) (sv_tasks s) s.
Definition ssubmit (t : stask) (s : server) : server := set_sqs (sv_posted s) (sv_tasks s ++ [t]) s.

(** [stream_impl] as it is constructed, and the members that [do_listen] sets. *)
Definition listener_default : listener_base := mk_listener_base sock_default options_default true.
Definition new_server (config : stream_listen_config) : server :=
  mk_server listener_default config false false false false ∅ 0 ∅ 0 [] [] 100 [].

(** [do_listen]: when the listener cannot be opened, neither the pool nor the thread is
    made. *)
Definition server_listen (addr : bytes) (config : stream_listen_config) : M env (result_void * server) :=
  let s := new_server config in
  let* (r, l) := on_net (with_sock (addr_sock addr) (λ sa, listener_open o addr_af sa (backlog config) (sock_opts config) (sv_listener s))) in
  ret (r, set_slistener l s).

(** *** The user *)

Definition server_on_connect (handler : bool) (s : server) : server :=
  let s := set_sflags (sv_armed s) (sv_paused s) handler (sv_on_error s) s in
  if sv_armed s then s
  else spost_ PAccept (set_sflags true (sv_paused s) (sv_on_connect s) (sv_on_error s) s).
Definition server_on_error (handler : bool) (s : server) : server :=
  set_sflags (sv_armed s) (sv_paused s) (sv_on_connect s) handler s.
Definition server_pause (s : server) : server :=
  if negb (sv_armed s) then s
  else spost_ PStop (set_sflags (sv_armed s) true (sv_on_connect s) (sv_on_error s) s).
Definition server_resume (s : server) : server :=
  if negb (sv_armed s) then s
  else spost_ PAccept (set_sflags (sv_armed s) false (sv_on_connect s) (sv_on_error s) s).
Definition conn_on_close (id : nat) (s : server) : server :=
  match sv_conns s !! id with
  | None => s
  | Some cc => set_sconns (<[id := mk_cconn (cc_sock cc) (cc_peer cc) (cc_local cc) (cc_closed cc) true false]> (sv_conns s)) s
  end.
Definition conn_close_request (id : nat) (s : server) : server :=
  match sv_conns s !! id with
  | None => s
  | Some cc => if cc_closed cc then s else spost_ (PShut id) s
  end.

(** *** The accept loop *)

(** The accept handler on a socket. *)
Definition server_accepted (sk : sock) (peer : bytes) (s : server) : M K server :=
  if (0 <? max_connections (sv_config s)) && (max_connections (sv_config s) <=? Z.of_nat (size (sv_table s))) then
    let* (_, _) := close o sk in ret s
  else
    let fd := handle_ sk in
    let* _ := set_non_blocking o true sk in
    let* local_r := local_address o sk in
    let id := sv_next s in
    let hooked := negb (sv_on_connect s) in
    let s := mk_server (sv_listener s) (sv_config s) (sv_armed s) (sv_paused s) (sv_on_connect s) (sv_on_error s)
               (<[id := mk_cconn sk peer (address_or_default addr_default local_r) false hooked hooked]> (sv_conns s)) (S id)
               (<[fd := id]> (sv_table s)) (u64 (sv_count s + 1)) (sv_posted s) (sv_tasks s) (sv_backoff s) (sv_timers s) in
    ret (if sv_on_connect s then ssubmit (TOpened id fd) s else spost_ (PBegin id) s).

(** The handler on an error. *)
Definition server_refused (ec : error_code) (s : server) : server :=
  if sv_on_error s then ssubmit (TFailed ec) s else s.

(** One turn of the loop in the accept callback; the timers of the back-off stay with
    the loop. *)
Definition server_accept (s : server) : M env server :=
  let* (r, peer) := on_net (accept_raw o (sv_listener s)) in
  match r with
  | Err ec =>
      if ec_eqb ec (make_error_code would_block) then ret s
      else if ec_eqb ec (make_error_code fd_limit_reached) then
        let listen_fd := handle_ (lb_socket (sv_listener s)) in
        let* _ := lift (λ '(d, k), let '(r, d) := d_modify listen_fd ev_none d in (r, (d, k))) in
        let delay := sv_backoff s in
        let s := set_sbackoff (Z.min (sv_backoff s * 2) 5000) (sv_timers s ++ [(delay, listen_fd)]) s in
        ret (server_refused ec s)
      else ret (server_refused ec s)
  | Val sk => on_net (server_accepted sk (match peer with Some p => typed_addr addr_size p | None => addr_default end)
                        (set_sbackoff 100 (sv_timers s) s))
  end.

(** *** Connections *)

(** [initiate_close] *)
Definition conn_close (id : nat) (s : server) : M env server :=
  match sv_conns s !! id with
  | None => ret s
  | Some cc =>
      if cc_closed cc then ret s
      else
        let* _ := lift (λ '(d, k), let '(r, d) := d_remove (handle_ (cc_sock cc)) d in (r, (d, k))) in
        let* (_, sk) := on_net (close o (cc_sock cc)) in
        let s' := set_sconns (<[id := mk_cconn sk (cc_peer cc) (cc_local cc) true (cc_on_close cc) (cc_hooked cc)]> (sv_conns s)) s in
        ret (if cc_on_close cc then ssubmit (TClosed id (handle_ (cc_sock cc))) s' else s')
  end.

(** A lambda that the loop runs.  [accept_loop] makes a callback with a back-off of its
    own; one that is refused changes nothing. *)
Definition run_spost (p : spost) (s : server) : M env server :=
  match p with
  | PAccept =>
      let* r := lift (λ '(d, k), let '(r, d) := d_add (handle_ (lb_socket (sv_listener s))) ev_readable accept_cb d in (r, (d, k))) in
      ret (if rv_bool r then set_sbackoff 100 (sv_timers s) s else s)
  | PStop =>
      let* (_, sk) := on_net (close o (lb_socket (sv_listener s))) in
      ret (set_slistener (set_socket sk (sv_listener s)) s)
  | PBegin id =>
      match sv_conns s !! id with
      | None => ret s
      | Some cc =>
          let interest := if pending id then ev_or ev_readable ev_writable else ev_readable in
          let* _ := lift (λ '(d, k), let '(r, d) := d_add (handle_ (cc_sock cc)) interest (conn_cb id) d in (r, (d, k))) in
          ret s
      end
  | PShut id => conn_close id s
  | PErase fd => ret (set_stable (delete fd (sv_table s)) (u64 (sv_count s - 1)) s)
  end.

(** A task of the pool: [TOpened] is the call of [on_connect_cb], [TWrap] what follows
    it, [TClosed] the call of [on_close_] as it is then. *)
Definition run_stask (t : stask) (s : server) : server :=
  match t with
  | TOpened id fd => ssubmit (TWrap id fd) s
  | TWrap id fd =>
      match sv_conns s !! id with
      | None => s
      | Some cc =>
          spost_ (PBegin id)
            (set_sconns (<[id := mk_cconn (cc_sock cc) (cc_peer cc) (cc_local cc) (cc_closed cc) true true]> (sv_conns s)) s)
      end
  | TFailed ec => s
  | TClosed id fd =>
      match sv_conns s !! id with
      | None => s
      | Some cc => if cc_hooked cc then spost_ (PErase fd) s else s
      end
  end.

Inductive sev :=
| SLoop | SAccept | STimer (i : nat) | SIo (id : nat) | SPool (i : nat)
| SOnConnect (handler : bool) | SOnError (handler : bool) | SPause | SResume | SOnClose (id : nat) | SClose (id : nat).

Definition exec_sev (e : sev) (s : server) : M env server :=
  match e with
  | SLoop =>
      match sv_posted s with
      | [] => ret s
      | p :: ps => run_spost p (set_sqs ps (sv_tasks s) s)
      end
  | SAccept => server_accept s
  | STimer i =>
      match sv_timers s !! i with
      | None => ret s
      | Some (_, fd) =>
          let* _ := lift (λ '(d, k), let '(r, d) := d_modify fd ev_readable d in (r, (d, k))) in
          ret (set_sbackoff (sv_backoff s) (delete i (sv_timers s)) s)
      end
  | SIo id => conn_close id s
  | SPool i =>
      match sv_tasks s !! i with
      | None => ret s
      | Some t => ret (run_stask t (set_sqs (sv_posted s) (delete i (sv_tasks s)) s))
      end
  | SOnConnect h => ret (server_on_connect h s)
  | SOnError h => ret (server_on_error h s)
  | SPause => ret (server_pause s)
  | SResume => ret (server_resume s)
  | SOnClose id => ret (conn_on_close id s)
  | SClose id => ret (conn_close_request id s)
  end.

Fixpoint exec_sevs (es : list sev) (s : server) : M env server :=
  match es with
  | [] => ret s
  | e :: es' => let* s := exec_sev e s in exec_sevs es' s
  end.

(** *** Destruction *)

Fixpoint close_each (ids : list nat) (s : server) : M env server :=
  match ids with
  | [] => ret s
  | id :: ids' => let* s := conn_close id s in close_each ids' s
  end.

(** The destructors of the connection objects that are left: [~socket] closes. *)
Fixpoint drop_conns (l : list (nat * cconn)) (s : server) : M env server :=
  match l with
  | [] => ret s
  | (id, cc) :: l' =>
      let* (_, sk) := on_net (close o (cc_sock cc)) in
      drop_conns l' (set_sconns (delete id (sv_conns s)) s)
  end.

(** [pool->shutdown]: the workers run what is queued; nothing more is queued. *)
Definition run_whole (s : server) (t : stask) : server :=
  match t with
  | TOpened id fd => run_stask (TWrap id fd) s
  | _ => run_stask t s
  end.
Definition run_queued (s : server) : server := foldl run_whole (set_sqs (sv_posted s) [] s) (sv_tasks s).

(** [~stream4]: [do_destroy], and the destructors of the members.  [rest] is what the
    loop and the pool still do until the thread has ended. *)
Definition destroy_server (rest : list sev) (s : server) : M env server :=
  let* (_, sk) := on_net (close o (lb_socket (sv_listener s))) in
  let s := set_slistener (set_socket sk (sv_listener s)) s in
  let* s := exec_sevs rest s in
  let* s := close_each ((map_to_list (sv_table s)).*2) s in
  let s := run_queued (set_stable ∅ 0 s) in
  let* (_, sk) := on_net (close o (lb_socket (sv_listener s))) in
  let s := set_slistener (set_socket sk (sv_listener s)) s in
  drop_conns (map_to_list (sv_conns s)) s.

(** ** The descriptors *)

Context `{!SocketKernelLaws SK}.

(** Who owns what: the listener, and each connection. *)
Definition owner (s : server) (n : nat) : gset Z :=
  match n with
  | O => own (lb_socket (sv_listener s))
  | S id => match sv_conns s !! id with Some cc => own (cc_sock cc) | None => ∅ end
  end.

Record sinv (F : gset Z) (s : server) (k : K) : Prop := {
  n_owned : owned_once F ∅ (open_fds k) (owner s);
  n_next : ∀ id, (sv_next s ≤ id)%nat → sv_conns s !! id = None;
  n_opts : accepted_opts_empty_ (sv_listener s) = true;
  n_closed : ∀ id cc, sv_conns s !! id = Some cc → is_open (cc_sock cc) = negb (cc_closed cc)
}.

Abbreviation sinv_env F s := (λ e : env, sinv F s e.2).

(** The invariant is about the listener's socket and the connections' only. *)
Lemma sinv_same F s s' k :
  sv_listener s' = sv_listener s → sv_conns s' = sv_conns s → sv_next s' = sv_next s → sinv F s k → sinv F s' k.
Proof.
  intros Hl Hc Hn [H1 H2 H3 H4]. split; rewrite ?Hl, ?Hc, ?Hn; try done.
  eapply owned_ext; [|exact H1]. intros [|id]; simpl; by rewrite ?Hl, ?Hc.
Qed.

(** A connection's record replaced by one with the same socket. *)
Lemma sinv_update F s s' k id cc cc' :
  sv_conns s !! id = Some cc → cc_sock cc' = cc_sock cc → cc_closed cc' = cc_closed cc →
  sv_listener s' = sv_listener s → sv_conns s' = <[id := cc']> (sv_conns s) → sv_next s' = sv_next s →
  sinv F s k → sinv F s' k.
Proof.
  intros Hid Hs Hcl Hl Hc Hn [H1 H2 H3 H4]. split; rewrite ?Hl, ?Hc, ?Hn; try done.
  - eapply owned_ext; [|exact H1]. intros [|x]; simpl; rewrite ?Hl, ?Hc; [done|].
    destruct (decide (x = id)) as [->|Hne]; [by rewrite lookup_insert_eq, Hid, Hs|by rewrite lookup_insert_ne].
  - intros x Hx. rewrite lookup_insert_ne; [auto|]. intros ->. by rewrite H2 in Hid.
  - intros x c [[<- <-]|[_ H]]%lookup_insert_Some; [|eauto]. rewrite Hs, Hcl. eauto.
Qed.

Lemma close_owned F O x sk :
  O x = own sk →
  triple (λ k, owned_once F ∅ (open_fds k) O) (close o sk)
    (λ '(_, sk') k, is_open sk' = false ∧ owned_once F ∅ (open_fds k) (upd_owns x ∅ O)).
Proof.
  intros Hx k Hk. destruct (close_spec o sk (open_fds k) k eq_refl) as ([r s'] & k' & E & Hc & Hk').
  exists (r, s'), k'. split; [done|]. split; [done|]. rewrite Hk', <-Hx. by apply owned_drop.
Qed.

(** The listener is closed. *)
Lemma close_listener F s :
  triple (sinv F s) (close o (lb_socket (sv_listener s)))
    (λ '(_, sk) k, sinv F (set_slistener (set_socket sk (sv_listener s)) s) k ∧ is_open sk = false).
Proof.
  intros k [H1 H2 H3 H4]. destruct (close_owned F (owner s) 0 (lb_socket (sv_listener s)) eq_refl k H1) as ([r sk] & k' & E & Hc & Ho).
  exists (r, sk), k'. split; [done|]. split; [|done]. split; simpl; try done. eapply owned_ext; [|exact Ho].
  intros [|id]; simpl; unfold upd_owns; simpl; [by apply own_closed|done].
Qed.

(** A connection's socket is closed. *)
Lemma close_conn F s id cc (f : sock → server) :
  sv_conns s !! id = Some cc →
  (∀ sk, sv_listener (f sk) = sv_listener s ∧ sv_next (f sk) = sv_next s ∧
         (sv_conns (f sk) = <[id := mk_cconn sk (cc_peer cc) (cc_local cc) true (cc_on_close cc) (cc_hooked cc)]> (sv_conns s) ∨
          sv_conns (f sk) = delete id (sv_conns s))) →
  triple (sinv F s) (close o (cc_sock cc)) (λ '(_, sk) k, sinv F (f sk) k).
Proof.
  intros Hid Hf k [H1 H2 H3 H4].
  destruct (close_owned F (owner s) (S id) (cc_sock cc)) with (k := k) as ([r sk] & k' & E & Hc & Ho); [simpl; by rewrite Hid|done|].
  exists (r, sk), k'. split; [done|]. destruct (Hf sk) as (Hl & Hn & Hcs). split; rewrite ?Hl, ?Hn; try done.
  - eapply owned_ext; [|exact Ho]. intros [|x]; simpl; unfold upd_owns; simpl; [by rewrite Hl|].
    destruct (decide (x = id)) as [->|Hne].
    + rewrite decide_True by done. destruct Hcs as [-> | ->]; [rewrite lookup_insert_eq; by apply own_closed|by rewrite lookup_delete_eq].
    + rewrite decide_False by congruence. destruct Hcs as [-> | ->]; [by rewrite lookup_insert_ne|by rewrite lookup_delete_ne].
  - intros x Hx. destruct Hcs as [-> | ->]; [|rewrite lookup_delete_None; auto]. rewrite lookup_insert_ne; [auto|]. intros ->. by rewrite H2 in Hid.
  - intros x c Hx. destruct Hcs as [Hcs|Hcs]; rewrite Hcs in Hx.
    + apply lookup_insert_Some in Hx as [[<- <-]|[_ Hx]]; [done|eauto].
    + apply lookup_delete_Some in Hx as [_ Hx]. eauto.
Qed.

(** ** Every step keeps them *)

Lemma on_net_only {A} (m : M K A) P Q :
  triple P m Q → triple (λ e : env, P e.2) (on_net m) (λ a e, Q a e.2).
Proof.
  intros Hm [d k] Hk. destruct (Hm k Hk) as (a & k' & E & Ha). exists a, (d, k'). unfold on_net. simpl. by rewrite E.
Qed.

Lemma disp_only {A} (f : disp → A * disp) (P : K → Prop) :
  triple (λ e : env, P e.2) (lift (λ '(d, k), let '(r, d) := f d in (r, (d, k)))) (λ _ e, P e.2).
Proof. intros [d k] Hk. unfold lift. destruct (f d) as [r d']. by eexists _, _. Qed.

Lemma conn_close_inv F id s : triple (sinv_env F s) (conn_close id s) (λ s', sinv_env F s').
Proof using Type*.
  unfold conn_close. destruct (sv_conns s !! id) as [cc|] eqn:Hid; [|by apply triple_ret].
  destruct (cc_closed cc); [by apply triple_ret|]. eapply triple_bind; [apply (disp_only _ (sinv F s))|]. intros _r.
  eapply triple_bind.
  { apply on_net_only. apply (close_conn F s id cc (λ sk,
      set_sconns (<[id := mk_cconn sk (cc_peer cc) (cc_local cc) true (cc_on_close cc) (cc_hooked cc)]> (sv_conns s)) s)); [done|].
    intros sk. split_and!; auto. }
  intros [r sk]. apply triple_ret. intros e Hk. destruct (cc_on_close cc); [|done]. by eapply sinv_same; [..|exact Hk].
Qed.

(** The accept handler takes the new descriptor over, or closes it. *)
Lemma accepted_inv F s sk peer k0 :
  sinv F s k0 → is_open sk = true → handle_ sk ∉ open_fds k0 →
  triple (holds ({[handle_ sk]} ∪ open_fds k0)) (server_accepted sk peer s) (sinv F).
Proof using Type*.
  intros [H1 H2 H3 H4] Hop Hnew. assert (own sk = {[handle_ sk]}) as Hown by (unfold own; by rewrite Hop).
  unfold server_accepted. destruct (_ && _).
  { eapply triple_bind; [apply close_spec|]. intros [r s']. apply triple_ret. intros k [_ Hk]. split; try done.
    assert (open_fds k = open_fds k0) as ->; [|done]. unfold holds in Hk. rewrite Hk, Hown. set_solver. }
  eapply triple_bind; [apply set_non_blocking_spec|]. intros _r. eapply triple_bind; [apply (socket_name_spec o)|].
  intros local_r. apply triple_ret. intros k Hk. unfold holds in Hk.
  set (s1 := mk_server _ _ _ _ _ _ _ _ _ _ _ _ _ _).
  assert (sinv F s1 k) as Hs1.
  { split; simpl.
    - rewrite Hk. eapply owned_ext; [|apply (owned_new F ∅ _ (owner s) (S (sv_next s)) (handle_ sk)); [simpl; by rewrite H2|done|done]].
      intros [|x]; simpl; unfold upd_owns; simpl; [done|]. destruct (decide (x = sv_next s)) as [->|Hne].
      + rewrite decide_True, lookup_insert_eq by done. exact Hown.
      + rewrite decide_False, lookup_insert_ne by congruence. done.
    - intros id Hid. rewrite lookup_insert_ne by lia. apply H2. lia.
    - done.
    - intros id cc [[<- <-]|[_ H]]%lookup_insert_Some; [done|eauto]. }
  destruct (sv_on_connect s1); by eapply sinv_same; [..|exact Hs1].
Qed.

Lemma refused_inv F ec s k : sinv F s k → sinv F (server_refused ec s) k.
Proof. intros Hk. unfold server_refused. destruct (sv_on_error s); [|done]. by eapply sinv_same; [..|exact Hk]. Qed.

Lemma server_accept_inv F s : triple (sinv_env F s) (server_accept s) (λ s', sinv_env F s').
Proof using Type*.
  unfold server_accept. intros [d k] Hk. simpl in Hk.
  destruct (accept_spec o (sv_listener s) (open_fds k)) with (k := k) as ([r peer] & k1 & E & Hr & _); [|done|].
  { by rewrite (n_opts _ _ _ Hk). }
  unfold bind at 1, on_net at 1. rewrite E. destruct r as [sk|ec].
  - destruct Hr as (Hop & Hnew & Hh).
    assert (sinv F (set_sbackoff 100 (sv_timers s) s) k) as Hb by (by eapply sinv_same; [..|exact Hk]).
    exact (on_net_only _ _ _ (accepted_inv F _ sk _ k Hb Hop Hnew) (d, k1) Hh).
  - destruct Hr as [_ Hh]. assert (sinv F s k1) as Hk1.
    { destruct Hk as [H1 H2 H3 H4]. split; try done. by rewrite Hh. }
    pose proof (refused_inv F ec s k1 Hk1) as Hk2.
    destruct (ec_eqb ec (make_error_code would_block)); [by eexists _, _|].
    destruct (ec_eqb ec (make_error_code fd_limit_reached)); [|by eexists _, _].
    unfold bind, lift, ret. destruct (d_modify _ _ d). eexists _, _. split; [done|].
    apply refused_inv. by eapply sinv_same; [..|exact Hk1].
Qed.

Lemma run_spost_inv F p s : triple (sinv_env F s) (run_spost p s) (λ s', sinv_env F s').
Proof using Type*.
  destruct p as [| |id|id|fd]; cbn [run_spost].
  - eapply triple_bind; [apply (disp_only _ (sinv F s))|]. intros r. apply triple_ret. intros e He.
    destruct (rv_bool r); [|done]. by eapply sinv_same; [..|exact He].
  - eapply triple_bind; [apply on_net_only, close_listener|]. intros [r sk]. apply triple_ret. by intros e [He _].
  - destruct (sv_conns s !! id); [|by apply triple_ret]. eapply triple_bind; [apply (disp_only _ (sinv F s))|].
    intros _r. by apply triple_ret.
  - apply conn_close_inv.
  - apply triple_ret. intros e He. by eapply sinv_same; [..|exact He].
Qed.

Lemma run_stask_inv F t s k : sinv F s k → sinv F (run_stask t s) k.
Proof.
  intros Hk. destruct t as [id fd|id fd|ec|id fd]; simpl; [by eapply sinv_same; [..|exact Hk]| |done|].
  - destruct (sv_conns s !! id) as [cc|] eqn:Hid; [|done].
    by apply (sinv_update F s _ k id cc (mk_cconn (cc_sock cc) (cc_peer cc) (cc_local cc) (cc_closed cc) true true)).
  - destruct (sv_conns s !! id) as [cc|]; [|done]. destruct (cc_hooked cc); [|done]. by eapply sinv_same; [..|exact Hk].
Qed.

Lemma exec_sev_inv F ev s : triple (sinv_env F s) (exec_sev ev s) (λ s', sinv_env F s').
Proof using Type*.
  destruct ev as [| |i|id|i|h|h| | |id|id]; cbn [exec_sev].
  - destruct (sv_posted s) as [|p ps]; [by apply triple_ret|]. eapply triple_weaken; [apply (run_spost_inv F)| |by intros].
    intros e He. by eapply sinv_same; [..|exact He].
  - apply server_accept_inv.
  - destruct (sv_timers s !! i) as [[del fd]|]; [|by apply triple_ret].
    eapply triple_bind; [apply (disp_only _ (sinv F s))|]. intros r. apply triple_ret. intros e He. by eapply sinv_same; [..|exact He].
  - apply conn_close_inv.
  - destruct (sv_tasks s !! i); apply triple_ret; [|done]. intros e He. apply run_stask_inv. by eapply sinv_same; [..|exact He].
  - apply triple_ret. intros e He. unfold server_on_connect. cbn [sv_armed set_sflags]. destruct (sv_armed s); by eapply sinv_same; [..|exact He].
  - apply triple_ret. intros e He. by eapply sinv_same; [..|exact He].
  - apply triple_ret. intros e He. unfold server_pause. destruct (negb (sv_armed s)); [done|]. by eapply sinv_same; [..|exact He].
  - apply triple_ret. intros e He. unfold server_resume. destruct (negb (sv_armed s)); [done|]. by eapply sinv_same; [..|exact He].
  - apply triple_ret. intros e He. unfold conn_on_close. destruct (sv_conns s !! id) as [cc|] eqn:Hid; [|done].
    by apply (sinv_update F s _ e.2 id cc (mk_cconn (cc_sock cc) (cc_peer cc) (cc_local cc) (cc_closed cc) true false)).
  - apply triple_ret. intros e He. unfold conn_close_request. destruct (sv_conns s !! id) as [cc|]; [|done].
    destruct (cc_closed cc); [done|]. by eapply sinv_same; [..|exact He].
Qed.

Lemma exec_sevs_inv F evs s : triple (sinv_env F s) (exec_sevs evs s) (λ s', sinv_env F s').
Proof using Type*.
  revert s. induction evs as [|ev evs IH]; intros s; cbn [exec_sevs]; [by apply triple_ret|].
  eapply triple_bind; [apply exec_sev_inv|]. intros s1. apply IH.
Qed.

(** ** Destruction *)

Lemma close_each_inv F ids s : triple (sinv_env F s) (close_each ids s) (λ s', sinv_env F s').
Proof using Type*.
  revert s. induction ids as [|id ids IH]; intros s; cbn [close_each]; [by apply triple_ret|].
  eapply triple_bind; [apply conn_close_inv|]. intros s1. apply IH.
Qed.

(** With no connection left and the listener closed, only what was open before is. *)
Lemma nothing_left F s k :
  sinv F s k → is_open (lb_socket (sv_listener s)) = false → sv_conns s = ∅ → holds F k.
Proof.
  intros [[H1 _ _] _ _ _] Hl Hc. unfold holds. apply set_eq. intros fd. rewrite H1, (right_id_L ∅ (∪)). split; [|by left].
  intros [?|[[|id] Hx]]; [done|simpl in Hx|simpl in Hx].
  - by rewrite own_closed in Hx.
  - by rewrite Hc, lookup_empty in Hx.
Qed.

Lemma drop_conns_inv F l s :
  NoDup l.*1 → (∀ id cc, (id, cc) ∈ l ↔ sv_conns s !! id = Some cc) →
  triple (λ e : env, sinv F s e.2 ∧ is_open (lb_socket (sv_listener s)) = false) (drop_conns l s)
    (λ s' e, sv_conns s' = ∅ ∧ holds F e.2).
Proof using Type*.
  revert s. induction l as [|[id cc] l IH]; intros s Hnd Hl; cbn [drop_conns].
  - apply triple_ret. intros e [He Hc]. assert (sv_conns s = ∅) as Hno.
    { apply map_empty. intros id. destruct (sv_conns s !! id) as [cc|] eqn:E; [|done]. apply Hl in E. by apply elem_of_nil in E. }
    split; [done|]. by eapply nothing_left.
  - apply NoDup_cons in Hnd as [Hid Hnd]. assert (sv_conns s !! id = Some cc) as Hcc by (apply Hl; left).
    eapply (triple_bind _ _ _ (λ '(_, sk) e, sinv F (set_sconns (delete id (sv_conns s)) s) e.2 ∧ is_open (lb_socket (sv_listener s)) = false)).
    { intros e [He Hc].
      destruct (on_net_only _ _ _ (close_conn F s id cc (λ _, set_sconns (delete id (sv_conns s)) s) Hcc ltac:(intros sk; split_and!; auto)) e He)
        as ([r sk] & e' & E & H). exists (r, sk), e'. by split_and!. }
    intros [r sk]. apply (IH (set_sconns (delete id (sv_conns s)) s)); [done|]. intros x c. simpl. rewrite lookup_delete_Some, <-Hl, elem_of_cons.
    split.
    + intros Hin. split; [|by right]. intros <-. apply Hid. apply list_elem_of_fmap. by exists (id, c).
    + by intros [Hne [[= ]|Hin]].
Qed.

Lemma run_queued_inv F s k : sinv F s k → sinv F (run_queued s) k.
Proof.
  intros Hk. unfold run_queued. assert (sinv F (set_sqs (sv_posted s) [] s) k) as H0 by (by eapply sinv_same; [..|exact Hk]).
  revert H0. generalize (set_sqs (sv_posted s) [] s). induction (sv_tasks s) as [|t ts IH]; intros s0 H0; [done|].
  apply IH. destruct t; by apply run_stask_inv.
Qed.

Lemma destroy_server_spec F rest s :
  triple (sinv_env F s) (destroy_server rest s) (λ s' e, sv_conns s' = ∅ ∧ holds F e.2).
Proof using Type*.
  unfold destroy_server. eapply triple_bind; [apply on_net_only, close_listener|]. intros [r sk].
  eapply triple_bind; [eapply triple_weaken; [apply (exec_sevs_inv F)|by intros e [He _]|by intros]|]. intros s0. cbn beta.
  eapply triple_bind; [apply (close_each_inv F)|]. intros s1. cbn zeta.
  eapply (triple_bind _ _ _ (λ '(_, sk) e, sinv F (set_slistener (set_socket sk (sv_listener (run_queued (set_stable ∅ 0 s1)))) (run_queued (set_stable ∅ 0 s1))) e.2 ∧
    is_open sk = false)).
  { eapply triple_weaken; [apply on_net_only, (close_listener F)| |by intros []]. intros e He. apply run_queued_inv. by eapply sinv_same; [..|exact He]. }
  intros [r' sk']. cbn zeta. apply drop_conns_inv; [apply NoDup_fst_map_to_list|]. intros id cc. apply elem_of_map_to_list.
Qed.

Lemma server_listen_spec F addr config :
  Apply.built o (sock_opts config) → is_Some (addr_sock addr) →
  triple (λ e : env, holds F e.2) (server_listen addr config) (λ '(r, s) e, sinv F s e.2 ∧ (rv_bool r = true ↔ is_open (lb_socket (sv_listener s)) = true)).
Proof using Type*.
  intros Hb [sa Hsa]. unfold server_listen, with_sock. rewrite Hsa. cbn zeta.
  eapply triple_bind; [apply on_net_only, listener_open_spec; [done|set_solver]|]. intros [r l]. apply triple_ret.
  intros e [Hr [_ Hempty]]. unfold reopened in Hr. simpl in *. rewrite own_default, difference_empty_L in Hr.
  assert (owned_once F ∅ (open_fds e.2) (λ n, match n with O => own (lb_socket l) | S _ => ∅ end) ∧
    (rv_bool r = true ↔ is_open (lb_socket l) = true)) as [Ho Hi].
  { destruct Hr as [(Hr & Es & Hk)|(Hr & Hd & Hk)]; simpl in *.
    - rewrite Es, own_default, Hr, Hk. split; [|done]. split; [|by intros []|by intros [] []]. intros fd. split; [by left; set_solver|].
      intros [?|[[] ?]]; set_solver.
    - rewrite Hk. split; [|by destruct (rv_bool r); rewrite Hr]. split.
      + intros fd. rewrite elem_of_union. split; [intros [?|?]; [right; by exists 0%nat|left; set_solver]|].
        intros [?|[[] ?]]; set_solver.
      + intros []; set_solver.
      + intros [] []; set_solver. }
  split; [|done]. by split.
Qed.

Lemma server_listen_conns addr config e r s e' :
  server_listen addr config e = Some ((r, s), e') → sv_conns s = ∅.
Proof. unfold server_listen, bind, ret. intros H. by repeat case_match; simplify_eq. Qed.

(** What is open, spelt out. *)
Definition accounted_for (F : gset Z) (s : server) (k : K) : Prop :=
  (∀ fd, fd ∈ open_fds k ↔ fd ∈ F ∨ fd ∈ own (lb_socket (sv_listener s)) ∨
     ∃ id cc, sv_conns s !! id = Some cc ∧ cc_closed cc = false ∧ fd = handle_ (cc_sock cc)) ∧
  (∀ id cc, sv_conns s !! id = Some cc → cc_closed cc = false →
     handle_ (cc_sock cc) ∉ F ∧ handle_ (cc_sock cc) ∉ own (lb_socket (sv_listener s)) ∧
     ∀ id' cc', sv_conns s !! id' = Some cc' → cc_closed cc' = false → handle_ (cc_sock cc') = handle_ (cc_sock cc) → id' = id).

Lemma sinv_accounted F s k : sinv F s k → accounted_for F s k.
Proof.
  intros [[H1 H2 H3] _ _ H4].
  assert (∀ id cc, sv_conns s !! id = Some cc → cc_closed cc = false → owner s (S id) = {[handle_ (cc_sock cc)]}) as Hown.
  { intros id cc Hid Hc. simpl. rewrite Hid. unfold own. by rewrite (H4 id cc Hid), Hc. }
  split.
  - intros fd. rewrite H1, (right_id_L ∅ (∪)). split.
    + intros [?|[[|id] Hx]]; [by left|by right; left|right; right]. simpl in Hx.
      destruct (sv_conns s !! id) as [cc|] eqn:Hid; [|set_solver]. exists id, cc. unfold own in Hx. rewrite (H4 id cc Hid) in Hx.
      destruct (cc_closed cc); simpl in Hx; set_solver.
    + intros [?|[?|(id & cc & Hid & Hc & ->)]]; [by left|right; by exists 0%nat|right]. exists (S id). rewrite (Hown id cc) by done. set_solver.
  - intros id cc Hid Hc. pose proof (Hown id cc Hid Hc) as Ho. split_and!.
    + pose proof (H2 (S id)). set_solver.
    + pose proof (H3 (S id) 0%nat ltac:(done)) as Hd. rewrite Ho in Hd. simpl in Hd. set_solver.
    + intros id' cc' Hid' Hc' He. destruct (decide (id' = id)) as [|Hne]; [done|].
      pose proof (H3 (S id') (S id) ltac:(congruence)) as Hd. rewrite Ho, (Hown id' cc') in Hd by done. rewrite He in Hd. set_solver.
Qed.

(** C25. From [listen] to the destructor a server keeps its descriptors in balance.
    Whatever the system calls return, for every sequence of steps of the loop, the
    accept loop, the pool, the sockets and the user: nothing goes wrong, and what is
    open is what was open before, the listener while it is open, and one descriptor
    for each connection that is not closed, no two the same.  Refused connections,
    failed accepts and a failed [listen] leave nothing; and when the stream is
    destroyed, whatever it was doing and whatever is still done before the loop has
    ended, exactly what was open before is left. *)
Theorem server_lifecycle F addr config evs :
  Apply.built o (sock_opts config) → is_Some (addr_sock addr) →
  triple (λ e : env, holds F e.2)
    (let* (r, s) := server_listen addr config in
     let* s := (if rv_bool r then exec_sevs evs s else ret s) in
     ret (r, s))
    (λ '(r, s) e, accounted_for F s e.2 ∧
       (rv_bool r = false → holds F e.2) ∧
       ∀ rest, ∃ s' e', destroy_server rest s e = Some (s', e') ∧ sv_conns s' = ∅ ∧ holds F e'.2).
Proof using Type*.
  intros Hb Ha e He. destruct (server_listen_spec F addr config Hb Ha e He) as ([r s] & e1 & E1 & Hs & Hr).
  unfold bind at 1. rewrite E1. destruct (rv_bool r) eqn:Er.
  - destruct (exec_sevs_inv F evs s e1 Hs) as (s2 & e2 & E2 & Hs2). unfold bind, ret. rewrite E2.
    eexists _, _. split; [done|]. split_and!; [by apply sinv_accounted|congruence|].
    intros rest. exact (destroy_server_spec F rest s2 e2 Hs2).
  - eexists _, _. split; [done|]. split_and!; [by apply sinv_accounted| |intros rest; exact (destroy_server_spec F rest s e1 Hs)].
    intros _. pose proof (server_listen_conns addr config e r s e1 E1) as Hc. apply (nothing_left F s); [done| |done].
    apply not_true_is_false. intros Eo. by apply Hr in Eo.
Qed.

End ServerLife.

(** ** A concrete run *)

(** A server that allows one connection: the second is refused; the first is closed by
    the user, and a third is accepted and is still open when the server is destroyed. *)
Definition demo_config : stream_listen_config := mk_listen_config 0 65536 65536 demo_opts 128 1.
Definition demo_server_events : list sev :=
  [SOnConnect true; SLoop; SAccept; SAccept; SPool 0; SPool 0; SLoop; SClose 0; SLoop; SPool 0; SLoop; SAccept].

Lemma server_lifecycle_witness :
  ∃ r s e s' e',
    (let* (r, s) := server_listen (SK := demo_kernel) (D := map_dispatcher) (AC := addr4) Linux (inet4_default Linux) demo_config in
     let* s := exec_sevs (SK := demo_kernel) (D := map_dispatcher) (AC := addr4) Linux (inet4_default Linux) 7%nat (λ i, i) (λ _, false) demo_server_events s in
     ret (r, s)) (∅, {[3]}) = Some ((r, s), e) ∧
    rv_bool r = true ∧ size (sv_conns s) = 2%nat ∧ sv_count s = 1 ∧
    destroy_server (SK := demo_kernel) (D := map_dispatcher) (AC := addr4) Linux (inet4_default Linux) 7%nat (λ i, i) (λ _, false) [SPool 0; SLoop] s e = Some (s', e') ∧ holds {[3]} e'.2.
Proof.
  destruct (server_lifecycle (SK := demo_kernel) (D := map_dispatcher) (AC := addr4) Linux (inet4_default Linux) 7%nat (λ i, i) (λ _, false)
    {[3]} (inet4_default Linux) demo_config demo_server_events demo_opts_built ltac:(eexists; vm_compute; reflexivity) (∅, {[3]}) eq_refl)
    as ([r s] & e & E & _ & _ & Hd). destruct (Hd [SPool 0; SLoop]) as (s' & e' & Ed & _ & Hk).
  assert ((λ p, (rv_bool p.1.1, size (sv_conns p.1.2), sv_count p.1.2)) <$> Some ((r, s), e) = Some (true, 2%nat, 1)) as Hv
    by (rewrite <-E; vm_compute; reflexivity).
  simpl in Hv. injection Hv as H1 H2 H3. exists r, s, e, s', e'.
  refine (conj _ (conj H1 (conj H2 (conj H3 (conj Ed Hk))))). revert E. unfold bind. destruct (server_listen _ _ _ _) as [[[r0 s0] e0]|]; [|done].
  destruct (rv_bool r0) eqn:Er; [done|]. unfold ret. intros [= -> -> ->]. congruence.
Defined.
