(* ===== verification/Handles.v ===== *)
(** * Handles

    What a program holds of the library: [stream4], [stream6], [dgram4] and [dgram6]
    own their implementation through a [std::unique_ptr], with defaulted moves
    ([src/src/high/stream.cpp], [src/src/high/dgram.cpp]); the peers of a datagram
    socket own theirs through a [std::shared_ptr] and have a move assignment of
    their own ([src/src/high/dgram_peer.cpp], modelled in [DgramSocket]); a
    [connection] shares its implementation with the stream.

    [Unique] is the life of handles that own their object, [Shared] the handler of
    [on_connect] and what the stream does with the connection when the handler
    returns.  A program is the sequence of operations
    on its handles, as the compiler emits them, the destructors at the end of the
    scopes included. *)

From S2P Require Import Prelude.

(** What a statement ends in: normally, in [std::terminate], or in a null or dangling
    pointer that is dereferenced. *)
Inductive outcome (A : Type) := Done (a : A) | Terminate | Undefined.
Arguments Done {A} _.
Arguments Terminate {A}.
Arguments Undefined {A}.

Definition obind {A B} (m : outcome A) (k : A → outcome B) : outcome B :=
  match m with Done a => k a | Terminate => Terminate | Undefined => Undefined end.

Notation "'do*' x ':=' m 'in' k" := (obind m (λ x, k)) (at level 200, x pattern, right associativity).

Module Unique.

(** An implementation: whether its [background_thread] is joinable, and how often
    [do_destroy] has run on it. *)
Record object := mk_object { ob_thread : bool; ob_destroyed : nat }.

(** [vars] are the handles in scope, with the object each [impl_] points to;
    [freed] are the objects that have been deleted, as they were then. *)
Record st := mk_st { vars : gmap nat (option nat); heap : gmap nat object; next : nat; freed : list (nat * object) }.

Definition init : st := mk_st ∅ ∅ 0 [].

Definition set_vars (v : gmap nat (option nat)) (s : st) : st := mk_st v (heap s) (next s) (freed s).

(** [delete impl]: the destructor of a thread that is joinable calls [std::terminate]. *)
Definition delete_impl (o : nat) (s : st) : outcome st :=
  match heap s !! o with
  | Some ob =>
      if ob_thread ob then Terminate
      else Done (mk_st (vars s) (delete o (heap s)) (next s) (freed s ++ [(o, ob)]))
  | None => Undefined
  end.

(** The part of [do_destroy] that concerns the owner: the loop is stopped and the
    thread joined, if there is one. *)
Definition do_destroy (o : nat) (s : st) : outcome st :=
  match heap s !! o with
  | Some ob => Done (mk_st (vars s) (<[o := mk_object false (S (ob_destroyed ob))]> (heap s)) (next s) (freed s))
  | None => Undefined
  end.

(** The destructor of a handle that holds [p], and that of its [unique_ptr]. *)
Definition destruct_handle (p : option nat) (s : st) : outcome st :=
  match p with
  | Some o => do* s := do_destroy o s in delete_impl o s
  | None => Done s
  end.

(** The default constructor: [std::make_unique<impl>()]. *)
Definition make_impl (s : st) : nat * st :=
  (next s, mk_st (vars s) (<[next s := mk_object false 0]> (heap s)) (S (next s)) (freed s)).

(** [do_listen], [do_connect] or [do_create] succeed: the thread is running. *)
Definition start_thread (o : nat) (s : st) : st :=
  mk_st (vars s) (alter (λ ob, mk_object true (ob_destroyed ob)) o (heap s)) (next s) (freed s).

(** [stream4::listen], [stream4::connect] and [dgram4::create] into the new variable
    [v]; [ok] is whether the implementation could be opened.  The local handle is
    destroyed on the way out, empty if it was moved into the result. *)
Definition factory (v : nat) (ok : bool) (s : st) : outcome st :=
  let '(o, s) := make_impl s in
  if ok then
    let s := start_thread o s in
    let s := set_vars (<[v := Some o]> (vars s)) s in
    destruct_handle None s
  else destruct_handle (Some o) s.

(** The classes for IPv6 and for datagrams have factories and destructors of the same
    shape. *)
Definition stream6_factory : nat → bool → st → outcome st := factory.
Definition dgram4_create : nat → bool → st → outcome st := factory.
Definition dgram6_create : nat → bool → st → outcome st := factory.
Definition stream6_destruct : option nat → st → outcome st := destruct_handle.
Definition dgram4_destruct : option nat → st → outcome st := destruct_handle.
Definition dgram6_destruct : option nat → st → outcome st := destruct_handle.

(** The defaulted move constructor. *)
Definition move_ctor (v w : nat) (s : st) : outcome st :=
  match vars s !! w with
  | Some p => Done (set_vars (<[v := p]> (<[w := None]> (vars s))) s)
  | None => Undefined
  end.

(** The defaulted move assignment, [v.impl_.reset(w.impl_.release())]. *)
Definition move_assign (v w : nat) (s : st) : outcome st :=
  match vars s !! w with
  | Some p =>
      let vs := <[w := None]> (vars s) in
      match vs !! v with
      | Some old =>
          let s := set_vars (<[v := p]> vs) s in
          match old with Some o => delete_impl o s | None => Done s end
      | None => Undefined
      end
  | None => Undefined
  end.

(** A handle goes out of scope. *)
Definition destroy (v : nat) (s : st) : outcome st :=
  match vars s !! v with
  | Some p => do* s := destruct_handle p s in Done (set_vars (delete v (vars s)) s)
  | None => Undefined
  end.

(** Any other member function begins with [impl_->]. *)
Definition call (v : nat) (s : st) : outcome st :=
  match vars s !! v with
  | Some (Some o) => match heap s !! o with Some _ => Done s | None => Undefined end
  | _ => Undefined
  end.

Inductive op := Factory (v : nat) (ok : bool) | MoveCtor (v w : nat) | MoveAssign (v w : nat) | Destroy (v : nat) | Call (v : nat).

(** The rules of scopes, which the compiler enforces: a declaration is of a new
    name, and everything else is of names in scope. *)
Definition well_scoped (o : op) (scope : gset nat) : bool :=
  match o with
  | Factory v _ => bool_decide (v ∉ scope)
  | MoveCtor v w => bool_decide (v ∉ scope) && bool_decide (w ∈ scope)
  | MoveAssign v w => bool_decide (v ∈ scope) && bool_decide (w ∈ scope)
  | Destroy v | Call v => bool_decide (v ∈ scope)
  end.

Definition exec (o : op) (s : st) : outcome st :=
  match o with
  | Factory v ok => factory v ok s
  | MoveCtor v w => move_ctor v w s
  | MoveAssign v w => move_assign v w s
  | Destroy v => destroy v s
  | Call v => call v s
  end.

Fixpoint run (p : list op) (s : st) : outcome st :=
  match p with
  | [] => Done s
  | o :: p' => do* s := exec o s in run p' s
  end.

(** ** What is promised *)

(** The handles in scope, and which of them hold something. *)

(** The meaning of the operations on such a view: an assignment to a handle that
    holds something does not come back, and neither does a call through an empty
    handle. *)
Definition spec (o : op) (a : gmap nat bool) : outcome (gmap nat bool) :=
  match o with
  | Factory v ok => Done (if ok then <[v := true]> a else a)
  | MoveCtor v w => match (a !! w : option bool) with Some b => Done (<[v := b]> (<[w := false]> a)) | None => Undefined end
  | MoveAssign v w =>
      match (a !! v : option bool), (a !! w : option bool) with
      | Some bv, Some bw =>
          if v =? w then Done a else if bv then Terminate else Done (<[v := bw]> (<[w := false]> a))
      | _, _ => Undefined
      end
  | Destroy v => match a !! v with Some _ => Done (delete v a) | None => Undefined end
  | Call v => match (a !! v : option bool) with Some true => Done a | _ => Undefined end
  end.

Fixpoint spec_run (p : list op) (a : gmap nat bool) : outcome (gmap nat bool) :=
  match p with
  | [] => Done a
  | o :: p' => do* a := spec o a in spec_run p' a
  end.

(** A program that compiles, followed as far as it runs. *)
Fixpoint compiles (p : list op) (a : gmap nat bool) : bool :=
  match p with
  | [] => true
  | o :: p' => well_scoped o (dom a) && match spec o a with Done a => compiles p' a | _ => true end
  end.

Definition holds (p : option nat) : bool := match p with Some _ => true | None => false end.
Definition view_of (s : st) : gmap nat bool := holds <$> vars s.

(** Every object is held by exactly one handle and runs; the objects that are gone
    were destroyed once, with their thread joined, and only once deleted; every
    object ever made is one of the two. *)
Record good (s : st) : Prop := {
  g_owner : ∀ o, is_Some (heap s !! o) ↔ ∃ v, vars s !! v = Some (Some o);
  g_unique : ∀ v w o, vars s !! v = Some (Some o) → vars s !! w = Some (Some o) → v = w;
  g_running : ∀ o ob, heap s !! o = Some ob → ob = mk_object true 0;
  g_freed : ∀ o ob, (o, ob) ∈ freed s → ob = mk_object false 1;
  g_once : NoDup (freed s).*1;
  g_all : ∀ o, (o < next s)%nat ↔ is_Some (heap s !! o) ∨ o ∈ (freed s).*1;
  g_apart : ∀ o, is_Some (heap s !! o) → o ∉ (freed s).*1
}.

Lemma init_good : good init.
Proof.
  split; simpl.
  - intros o. split; [by intros []|by intros []].
  - done.
  - done.
  - intros o ob Hin. by apply elem_of_nil in Hin.
  - constructor.
  - intros o. split; [lia|]. intros [[]|Hin]; [done|]. by apply elem_of_nil in Hin.
  - by intros o [].
Qed.

Lemma view_lookup s v : view_of s !! v = holds <$> vars s !! v.
Proof. apply lookup_fmap. Qed.

(** The content of [w] moves to [v], which holds nothing. *)
Lemma good_move v w p s :
  good s → vars s !! w = Some p → v ≠ w → (∀ o, vars s !! v ≠ Some (Some o)) →
  good (set_vars (<[v := p]> (<[w := None]> (vars s))) s).
Proof.
  intros [Ho Hu Hr Hf Hn Ha Hap] Hw Hvw Hv.
  assert (∀ x o, <[v := p]> (<[w := None]> (vars s)) !! x = Some (Some o) →
            ∃ y, vars s !! y = Some (Some o) ∧ (x = v ∧ y = w ∨ x ≠ v ∧ y = x ∧ y ≠ w)) as Hinv.
  { intros x o [[<- ->]|[Hne [[<- ?]|[Hne' H]]%lookup_insert_Some]]%lookup_insert_Some; naive_solver. }
  split; simpl; try done.
  - intros o. rewrite Ho. split.
    + intros [x Hx]. destruct (decide (x = w)) as [->|Hne].
      * exists v. rewrite lookup_insert_eq. congruence.
      * exists x. rewrite !lookup_insert_ne; [done|done|]. intros ->. by apply (Hv o).
    + intros [x Hx]. destruct (Hinv _ _ Hx) as (y & Hy & _). by exists y.
  - intros x y o Hx Hy. destruct (Hinv _ _ Hx) as (x' & Hx' & Cx), (Hinv _ _ Hy) as (y' & Hy' & Cy).
    pose proof (Hu _ _ _ Hx' Hy'). naive_solver.
Qed.

(** A new object in a new handle. *)
Lemma good_factory v s :
  good s → vars s !! v = None →
  good (mk_st (<[v := Some (next s)]> (vars s)) (<[next s := mk_object true 0]> (heap s)) (S (next s)) (freed s)).
Proof.
  intros [Ho Hu Hr Hf Hn Ha Hap] Hv.
  assert (heap s !! next s = None) as Hfresh.
  { destruct (heap s !! next s) eqn:E; [|done]. pose proof (proj2 (Ha (next s)) ltac:(rewrite E; eauto)). lia. }
  assert (∀ x, vars s !! x ≠ Some (Some (next s))) as Hnone.
  { intros x Hx. pose proof (proj2 (Ho (next s)) (ex_intro _ x Hx)) as [? ?]. congruence. }
  split; simpl; try done.
  - intros o. destruct (decide (o = next s)) as [->|Hne].
    + rewrite lookup_insert_eq. split; [|eauto]. intros _. exists v. by rewrite lookup_insert_eq.
    + rewrite lookup_insert_ne by done. rewrite Ho. split; intros [x Hx].
      * exists x. rewrite lookup_insert_ne; congruence.
      * exists x. apply lookup_insert_Some in Hx as [[_ ?]|[_ ?]]; congruence.
  - intros x y o Hx Hy. apply lookup_insert_Some in Hx as [[<- ?]|[? Hx]], Hy as [[<- ?]|[? Hy]]; naive_solver.
  - intros o ob [[<- <-]|[_ H]]%lookup_insert_Some; eauto.
  - intros o. destruct (decide (o = next s)) as [->|Hne]; [rewrite lookup_insert_eq; split; [eauto|lia]|].
    rewrite lookup_insert_ne, <-Ha by done. lia.
  - intros o. destruct (decide (o = next s)) as [->|Hne]; [|rewrite lookup_insert_ne by done; auto].
    intros _ Hin. pose proof (proj2 (Ha (next s)) (or_intror Hin)). lia.
Qed.

(** A factory that fails: the object is destroyed and deleted before anyone sees it. *)
Lemma good_failed s :
  good s → good (mk_st (vars s) (heap s) (S (next s)) (freed s ++ [(next s, mk_object false 1)])).
Proof.
  intros [Ho Hu Hr Hf Hn Ha Hap].
  assert (next s ∉ (freed s).*1) as Hnf by (intros Hin; pose proof (proj2 (Ha _) (or_intror Hin)); lia).
  split; simpl; try done; rewrite ?fmap_app; simpl.
  - intros o ob [Hin|E%list_elem_of_singleton]%elem_of_app; [eauto|congruence].
  - apply NoDup_app. split_and!; [done| |apply NoDup_singleton]. set_solver.
  - intros o. pose proof (Ha o). rewrite elem_of_app, list_elem_of_singleton. destruct (decide (o = next s)); [naive_solver lia|].
    assert (o < S (next s) ↔ o < next s)%nat by lia. naive_solver.
  - intros o Hs Hin%elem_of_app. destruct Hin as [Hin| ->%list_elem_of_singleton]; [by eapply Hap|].
    pose proof (proj2 (Ha _) (or_introl Hs)). lia.
Qed.

(** A handle goes out of scope with its object. *)
Lemma good_destroy v o s :
  good s → vars s !! v = Some (Some o) →
  good (mk_st (delete v (vars s)) (delete o (heap s)) (next s) (freed s ++ [(o, mk_object false 1)])).
Proof.
  intros [Ho Hu Hr Hf Hn Ha Hap] Hv. assert (is_Some (heap s !! o)) as Hheap by (apply Ho; eauto).
  split; simpl; rewrite ?fmap_app; simpl.
  - intros x. destruct (decide (x = o)) as [->|Hne].
    + rewrite lookup_delete_eq. split; [by intros []|]. intros [y [Hne Hy]%lookup_delete_Some]. destruct Hne. eauto.
    + rewrite lookup_delete_ne, Ho by done. split; intros [y Hy]; exists y; [rewrite lookup_delete_ne; congruence|].
      by apply lookup_delete_Some in Hy as [_ ?].
  - intros x y z [_ Hx]%lookup_delete_Some [_ Hy]%lookup_delete_Some. eauto.
  - intros x ob [_ H]%lookup_delete_Some. eauto.
  - intros x ob [Hin|E%list_elem_of_singleton]%elem_of_app; [eauto|congruence].
  - apply NoDup_app. split_and!; [done| |apply NoDup_singleton]. intros x Hx ->%list_elem_of_singleton. by eapply Hap.
  - intros x. rewrite Ha, elem_of_app, list_elem_of_singleton. destruct (decide (x = o)) as [->|Hne]; [naive_solver|].
    rewrite lookup_delete_ne by done. naive_solver.
  - intros x [ob [Hne H]%lookup_delete_Some] [Hin| ->%list_elem_of_singleton]%elem_of_app; [|done].
    by apply (Hap x (mk_is_Some _ _ H)).
Qed.

(** What one operation does, against its meaning. *)
Definition agrees (m : outcome st) (r : outcome (gmap nat bool)) : Prop :=
  match r with
  | Done a => ∃ s, m = Done s ∧ good s ∧ view_of s = a
  | Terminate => m = Terminate
  | Undefined => m = Undefined
  end.

Lemma factory_agrees v ok s : good s → vars s !! v = None → agrees (factory v ok s) (spec (Factory v ok) (view_of s)).
Proof.
  intros Hg Hv. unfold factory, make_impl. destruct ok; simpl.
  - eexists. split; [reflexivity|]. unfold start_thread, set_vars. simpl. rewrite alter_insert_eq. simpl. split.
    + by apply good_factory.
    + unfold view_of. simpl. by rewrite fmap_insert.
  - unfold do_destroy. simpl. rewrite lookup_insert_eq. simpl. unfold delete_impl. simpl. rewrite lookup_insert_eq. simpl.
    eexists. split; [reflexivity|]. rewrite !delete_insert_eq.
    assert (heap s !! next s = None) as Hfresh.
    { destruct (heap s !! next s) eqn:E; [|done]. pose proof (proj2 (g_all s Hg (next s)) ltac:(rewrite E; eauto)). lia. }
    rewrite delete_id by done. split; [by apply good_failed|done].
Qed.

Lemma move_ctor_agrees v w s :
  good s → vars s !! v = None → agrees (move_ctor v w s) (spec (MoveCtor v w) (view_of s)).
Proof.
  intros Hg Hv. unfold move_ctor. cbn [spec]. rewrite view_lookup. destruct (vars s !! w) as [p|] eqn:Hw; [|done].
  eexists. split; [reflexivity|]. split; [apply good_move; congruence|]. unfold view_of. simpl. by rewrite !fmap_insert.
Qed.

Lemma move_assign_agrees v w s :
  good s → is_Some (vars s !! v) → is_Some (vars s !! w) →
  agrees (move_assign v w s) (spec (MoveAssign v w) (view_of s)).
Proof.
  intros Hg [pv Hv] [pw Hw]. unfold move_assign. cbn [spec]. rewrite !view_lookup, Hv, Hw. simpl.
  destruct (Nat.eqb_spec v w) as [->|Hne].
  - rewrite lookup_insert_eq. simpl. eexists. split; [reflexivity|]. rewrite insert_insert_eq, insert_id by done. by destruct s.
  - rewrite lookup_insert_ne, Hv by done. destruct pv as [o|]; simpl.
    + unfold delete_impl. simpl. pose proof (proj2 (g_owner s Hg o) (ex_intro _ v Hv)) as [ob Hob]. rewrite Hob.
      by rewrite (g_running s Hg o ob Hob).
    + eexists. split; [reflexivity|]. split; [apply good_move; congruence|]. unfold view_of. simpl. by rewrite !fmap_insert.
Qed.

Lemma destroy_agrees v s : good s → is_Some (vars s !! v) → agrees (destroy v s) (spec (Destroy v) (view_of s)).
Proof.
  intros Hg [p Hv]. unfold destroy. cbn [spec]. rewrite view_lookup, Hv. cbn [fmap option_fmap option_map].
  destruct p as [o|]; simpl.
  - pose proof (proj2 (g_owner s Hg o) (ex_intro _ v Hv)) as [ob Hob]. unfold do_destroy. rewrite Hob. simpl.
    unfold delete_impl. simpl. rewrite lookup_insert_eq. simpl. eexists. split; [reflexivity|].
    rewrite (g_running s Hg o ob Hob), delete_insert_eq. split; [exact (good_destroy v o s Hg Hv)|].
    unfold view_of. simpl. by rewrite fmap_delete.
  - eexists. split; [reflexivity|]. split; [|unfold view_of; simpl; by rewrite fmap_delete].
    destruct Hg as [Ho Hu Hr Hf Hn Ha Hap]. split; simpl; try done.
    + intros o. rewrite Ho. split; intros [x Hx]; exists x; [rewrite lookup_delete_ne; congruence|].
      by apply lookup_delete_Some in Hx as [_ ?].
    + intros x y o [_ Hx]%lookup_delete_Some [_ Hy]%lookup_delete_Some. eauto.
Qed.

Lemma call_agrees v s : good s → agrees (call v s) (spec (Call v) (view_of s)).
Proof.
  intros Hg. unfold call. cbn [spec]. rewrite view_lookup. destruct (vars s !! v) as [[o|]|] eqn:Hv; simpl; [|done..].
  pose proof (proj2 (g_owner s Hg o) (ex_intro _ v Hv)) as [ob ->]. by exists s.
Qed.

Lemma exec_agrees o s : good s → well_scoped o (dom (view_of s)) = true → agrees (exec o s) (spec o (view_of s)).
Proof.
  intros Hg. unfold view_of at 1. rewrite dom_fmap_L. destruct o as [v ok|v w|v w|v|v]; cbn [well_scoped exec].
  - intros Hv%bool_decide_eq_true. apply factory_agrees; [done|]. by apply not_elem_of_dom.
  - intros [Hv%bool_decide_eq_true _]%andb_true_iff. apply move_ctor_agrees; [done|]. by apply not_elem_of_dom.
  - intros [Hv%bool_decide_eq_true Hw%bool_decide_eq_true]%andb_true_iff. by apply move_assign_agrees; [|apply elem_of_dom..].
  - intros Hv%bool_decide_eq_true. by apply destroy_agrees; [|apply elem_of_dom].
  - intros _. by apply call_agrees.
Qed.

Lemma run_agrees p s : good s → compiles p (view_of s) = true → agrees (run p s) (spec_run p (view_of s)).
Proof.
  revert s. induction p as [|o p IH]; intros s Hg Hc; [by exists s|].
  cbn [compiles run spec_run] in *. apply andb_true_iff in Hc as [Hs Hc].
  pose proof (exec_agrees o s Hg Hs) as He. destruct (spec o (view_of s)) as [a| |]; simpl in He.
  - destruct He as (s' & -> & Hg' & <-). simpl. by apply IH.
  - by rewrite He.
  - by rewrite He.
Qed.

(** C15. Handles own what they hold.  For every program that creates, moves, assigns,
    uses and destroys streams and datagram sockets: it ends in [std::terminate]
    exactly when it first assigns to a handle that holds a live object (the
    assignment deletes the object without stopping it, and its thread is still
    joinable), it dereferences a null pointer exactly when it first uses a handle
    that was moved from, and otherwise it runs to its end, where every live object
    has exactly one owner and a running thread, and every other object ever made,
    those of failed factories included, was shut down once, its thread joined, and
    deleted once.  When no handle is left in scope no object is left. *)
Theorem handles_refine p :
  compiles p ∅ = true →
  match spec_run p ∅ with
  | Done a =>
      ∃ s, run p init = Done s ∧ good s ∧ view_of s = a ∧
        (a = ∅ → heap s = ∅ ∧ ∀ o, (o < next s)%nat ↔ (o, mk_object false 1) ∈ freed s)
  | Terminate => run p init = Terminate
  | Undefined => run p init = Undefined
  end.
Proof.
  intros Hc. assert (view_of init = ∅) as Hv by reflexivity.
  pose proof (run_agrees p init init_good) as H. rewrite Hv in H. specialize (H Hc).
  destruct (spec_run p ∅) as [a| |]; [|done..]. destruct H as (s & Hr & Hg & Ha). exists s. split_and!; [done..|].
  intros ->. unfold view_of in Ha. apply fmap_empty_inv in Ha.
  assert (heap s = ∅) as Hh.
  { apply map_eq. intros o. rewrite lookup_empty. destruct (heap s !! o) eqn:E; [|done].
    pose proof (proj1 (g_owner s Hg o) ltac:(rewrite E; eauto)) as [v Hv']. by rewrite Ha in Hv'. }
  split; [done|]. intros o. rewrite (g_all s Hg o), Hh, lookup_empty. split.
  - intros [[]|Hin]; [done|]. apply list_elem_of_fmap in Hin as ([o' ob] & -> & Hin).
    by rewrite <-(g_freed s Hg _ _ Hin).
  - intros Hin. right. apply list_elem_of_fmap. by exists (o, mk_object false 1).
Qed.

(** A server and a client, the second moved into the first's handle after that was
    emptied, and a factory that fails. *)
Definition demo_program : list op :=
  [Factory 0 true; Factory 1 true; Factory 2 false; MoveCtor 3 0; MoveAssign 0 1; Call 0; Call 3; MoveAssign 3 3;
   Destroy 3; Destroy 1; Destroy 0].

Lemma handles_refine_witness :
  ∃ s, run demo_program init = Done s ∧ heap s = ∅ ∧ ∀ o, (o < next s)%nat ↔ (o, mk_object false 1) ∈ freed s.
Proof.
  assert (compiles demo_program ∅ = true) as Hc by (vm_compute; reflexivity).
  pose proof (handles_refine demo_program Hc) as H.
  assert (spec_run demo_program ∅ = Done ∅) as E by (vm_compute; reflexivity).
  rewrite E in H. destruct H as (s & Hr & _ & _ & He). destruct (He eq_refl) as [Hh Hf].
  exact (ex_intro _ s (conj Hr (conj Hh Hf))).
Defined.

(** Assigning a fresh stream to the variable of another. *)
Lemma assign_live_terminates : run [Factory 0 true; Factory 1 true; MoveAssign 0 1] init = Terminate.
Proof. vm_compute. reflexivity. Qed.

End Unique.

Module Shared.

(** An [on_close_]: the user's, and the lambdas in which the server and the client
    wrap what they find. *)
Inductive close_fn :=
| UserClose (h : nat)
| ServerClose (fd : Z) (user_close : option close_fn)
| ClientClose (user_close : option close_fn).

(** What calling one does: the removal posted to the loop, [connected_flag] reset,
    a handler of the user called. *)
Inductive effect := PostErase (fd : Z) | Disconnected | UserCalled (h : nat).

Fixpoint call_close (f : close_fn) : list effect :=
  match f with
  | UserClose h => [UserCalled h]
  | ServerClose fd u => PostErase fd :: match u with Some f => call_close f | None => [] end
  | ClientClose u => Disconnected :: match u with Some f => call_close f | None => [] end
  end.

(** The calls into the engine that the handle makes ([Connection] has their effects). *)
Inductive engine_call := EnqueueSend (data : bytes) | CloseFromUser | PauseFromUser | ResumeFromUser | StartReading.

(** [c_refs] counts the owners that are not handles: the table or [client_conn], and
    the lambdas that hold the connection. *)
Record conn_impl := mk_impl {
  c_data : option nat; c_close : option close_fn; c_error : option nat;
  c_closed : bool; c_refs : nat; c_calls : list engine_call
}.

Record st := mk_st { handles : gmap nat (option nat); impls : gmap nat conn_impl }.

(** The member functions that change something. *)
Inductive member := OnData (h : nat) | OnClose (h : nat) | OnError (h : nat) | Send (data : bytes) | Close | Pause | Resume.

Definition log_call (e : engine_call) (c : conn_impl) : conn_impl :=
  mk_impl (c_data c) (c_close c) (c_error c) (c_closed c) (c_refs c) (c_calls c ++ [e]).

Definition apply_member (m : member) (c : conn_impl) : conn_impl :=
  match m with
  | OnData h => mk_impl (Some h) (c_close c) (c_error c) (c_closed c) (c_refs c) (c_calls c)
  | OnClose h => mk_impl (c_data c) (Some (UserClose h)) (c_error c) (c_closed c) (c_refs c) (c_calls c)
  | OnError h => mk_impl (c_data c) (c_close c) (Some h) (c_closed c) (c_refs c) (c_calls c)
  | Send data => log_call (EnqueueSend data) c
  | Close => log_call CloseFromUser c
  | Pause => log_call PauseFromUser c
  | Resume => log_call ResumeFromUser c
  end.

(** The member functions of [stream6::connection]. *)
Definition connection6_member : member → conn_impl → conn_impl := apply_member.

(** [impl_->...] *)
Definition through (v : nat) (f : conn_impl → conn_impl) (s : st) : outcome st :=
  match handles s !! v with
  | Some (Some c) =>
      match impls s !! c with
      | Some i => Done (mk_st (handles s) (<[c := f i]> (impls s)))
      | None => Undefined
      end
  | _ => Undefined
  end.

Definition use_count (c : nat) (i : conn_impl) (s : st) : nat :=
  c_refs i + size (filter (λ '(_, p), p = Some c) (handles s)).

(** [~connection]: the last owner closes the connection. *)
Definition drop_handle (v : nat) (s : st) : outcome st :=
  match handles s !! v with
  | Some (Some c) =>
      match impls s !! c with
      | Some i =>
          let i := if (use_count c i s =? 1)%nat && negb (c_closed i) then log_call CloseFromUser i else i in
          Done (mk_st (delete v (handles s)) (<[c := i]> (impls s)))
      | None => Undefined
      end
  | Some None => Done (mk_st (delete v (handles s)) (impls s))
  | None => Undefined
  end.

Definition connection6_drop : nat → st → outcome st := drop_handle.

(** The defaulted moves of a [shared_ptr]. *)
Definition move_to (v w : nat) (s : st) : outcome st :=
  match handles s !! w with
  | Some p => Done (mk_st (<[v := p]> (<[w := None]> (handles s))) (impls s))
  | None => Undefined
  end.

(** What the handler given to [on_connect] does with its connection, which is the
    handle 0, and with handles of its own. *)
Inductive act := Member (v : nat) (m : member) | MoveTo (v w : nat) | Drop (v : nat).

Definition exec (a : act) (s : st) : outcome st :=
  match a with
  | Member v m => through v (apply_member m) s
  | MoveTo v w => move_to v w s
  | Drop v => drop_handle v s
  end.

Fixpoint run (l : list act) (s : st) : outcome st :=
  match l with
  | [] => Done s
  | a :: l' => do* s := exec a s in run l' s
  end.

(** The lambdas of [arm_listen] and [do_resume], and of [arm_connect], differ in what
    they put around the handler they find. *)
Inductive role := Server (fd : Z) | Client.

Definition wrap_close (r : role) (user_close : option close_fn) : close_fn :=
  match r with Server fd => ServerClose fd user_close | Client => ClientClose user_close end.

(** The task submitted for a new connection: the handler, [on_close_] wrapped, reading
    started. *)
Definition on_connect_task (r : role) (on_connect_cb : list act) (s : st) : outcome st :=
  do* s := run on_connect_cb s in
  do* s := through 0 (λ i, mk_impl (c_data i) (Some (wrap_close r (c_close i))) (c_error i) (c_closed i) (c_refs i) (c_calls i)) s in
  through 0 (log_call StartReading) s.

(** A new connection [c] in its wrapper, held also by the stream. *)
Definition connected (c : nat) : st :=
  mk_st {[0%nat := Some c]} {[c := mk_impl None None None false 1 []]}.

(** What a handler asks for: the last handler of each kind, and the calls in order. *)
Definition last_of {A} (f : member → option A) (l : list member) : option A := last (omap f l).
Definition data_of (m : member) : option nat := match m with OnData h => Some h | _ => None end.
Definition close_of (m : member) : option nat := match m with OnClose h => Some h | _ => None end.
Definition error_of (m : member) : option nat := match m with OnError h => Some h | _ => None end.
Definition call_of (m : member) : option engine_call :=
  match m with
  | Send data => Some (EnqueueSend data) | Close => Some CloseFromUser
  | Pause => Some PauseFromUser | Resume => Some ResumeFromUser | _ => None
  end.

(** The connection after the member functions [l]. *)
Definition configured (l : list member) : conn_impl :=
  mk_impl (last_of data_of l) (UserClose <$> last_of close_of l) (last_of error_of l) false 1 (omap call_of l).

Lemma configured_snoc l m : apply_member m (configured l) = configured (l ++ [m]).
Proof.
  unfold configured, last_of. rewrite !omap_app.
  destruct m; simpl; rewrite ?app_nil_r, ?last_snoc; reflexivity.
Qed.

Lemma run_acts_app l1 l2 s : run (l1 ++ l2) s = (do* s := run l1 s in run l2 s).
Proof. revert s. induction l1 as [|a l1 IH]; intros s; [done|]. simpl. destruct (exec a s); [apply IH|done..]. Qed.

Lemma through_held v c hs i f :
  hs !! v = Some (Some c) → through v f (mk_st hs {[c := i]}) = Done (mk_st hs {[c := f i]}).
Proof. intros Hv. unfold through. cbn [handles impls]. by rewrite Hv, lookup_singleton_eq, insert_singleton_eq. Qed.

(** Calls through the handle [v], which holds [c]. *)
Lemma run_members v c hs l :
  hs !! v = Some (Some c) →
  ∀ l0, run (Member v <$> l) (mk_st hs {[c := configured l0]}) = Done (mk_st hs {[c := configured (l0 ++ l)]}).
Proof.
  intros Hv. induction l as [|m l IH]; intros l0; [by rewrite app_nil_r|].
  rewrite fmap_cons. cbn [run exec]. rewrite through_held by done. cbn [obind].
  by rewrite configured_snoc, IH, <-app_assoc.
Qed.

(** C39. What a handler of [on_connect] can count on.  However it configures and uses
    the connection through the reference it is given, the task completes: the last
    handlers it set are the ones in place, what it sent, closed, paused and resumed
    was asked of the engine in that order, and only then reading starts; the close
    callback is the stream's around the last one set, so that on a close the entry is
    removed (or the client marked as disconnected) first and the user's handler is
    called after.  But the handle is movable, and if the handler moves the connection
    out, the task dereferences the null pointer that is left, whatever the handler did
    before or does with the connection afterwards. *)
Theorem on_connect_contract r c l v l' :
  on_connect_task r (Member 0 <$> l) (connected c) =
    Done (mk_st {[0%nat := Some c]}
            {[c := mk_impl (last_of data_of l) (Some (wrap_close r (UserClose <$> last_of close_of l))) (last_of error_of l)
                     false 1 (omap call_of l ++ [StartReading])]}) ∧
  call_close (wrap_close r (UserClose <$> last_of close_of l)) =
    (match r with Server fd => PostErase fd | Client => Disconnected end) ::
    match last_of close_of l with Some h => [UserCalled h] | None => [] end ∧
  (v ≠ 0%nat →
     on_connect_task r ((Member 0 <$> l) ++ MoveTo v 0 :: (Member v <$> l')) (connected c) = Undefined).
Proof.
  pose proof (run_members 0 c {[0%nat := Some c]} l (lookup_singleton_eq _ _) []) as Hrun. split_and!.
  - unfold on_connect_task, connected. change (mk_impl None None None false 1 []) with (configured []).
    rewrite Hrun. cbn [obind app]. rewrite through_held by apply lookup_singleton_eq. cbn [obind].
    by rewrite through_held by apply lookup_singleton_eq.
  - destruct r; simpl; by destruct (last_of close_of l).
  - intros Hv. unfold on_connect_task, connected. change (mk_impl None None None false 1 []) with (configured []).
    rewrite run_acts_app, Hrun. cbn [obind app run exec]. unfold move_to. cbn [handles impls]. rewrite lookup_singleton_eq.
    cbn [obind]. rewrite run_members by by rewrite lookup_insert_eq. cbn [obind]. unfold through at 1. cbn [handles impls].
    rewrite lookup_insert_ne by done. by rewrite lookup_insert_eq.
Qed.

Lemma on_connect_contract_witness :
  on_connect_task (Server 7) [Member 0 (OnData 1); MoveTo 5 0; Member 5 (Send [104%Z; 105%Z])] (connected 0) = Undefined ∧
  call_close (wrap_close (Server 7) (Some (UserClose 9))) = [PostErase 7; UserCalled 9].
Proof.
  split.
  - apply (on_connect_contract (Server 7) 0 [OnData 1] 5 [Send [104%Z; 105%Z]]). lia.
  - apply (on_connect_contract (Server 7) 0 [OnClose 9] 5 []).
Defined.

Lemma held_count v c (hs : gmap nat (option nat)) :
  hs !! v = Some (Some c) →
  size (filter (λ '(_, p), p = Some c) hs) = S (size (filter (λ '(_, p), p = Some c) (delete v hs))).
Proof.
  intros Hv. rewrite <-(insert_delete_id hs v (Some c)) at 1 by done.
  rewrite map_filter_insert_True by done. rewrite map_size_insert_None; [done|].
  apply map_lookup_filter_None. left. apply lookup_delete_eq.
Qed.

(** Dropping a handle closes the connection only when nothing else holds it: never as
    long as the stream has it in its table. *)
Theorem drop_closes_last v c i s :
  handles s !! v = Some (Some c) → impls s !! c = Some i → c_closed i = false →
  drop_handle v s = Done (mk_st (delete v (handles s)) (<[c := log_call CloseFromUser i]> (impls s))) ↔
  c_refs i = 0%nat ∧ ∀ w, w ≠ v → handles s !! w ≠ Some (Some c).
Proof.
  intros Hv Hi Hc. unfold drop_handle. rewrite Hv, Hi, Hc, andb_true_r. unfold use_count. rewrite (held_count v) by done.
  set (n := size _).
  assert (n = 0%nat ↔ ∀ w, w ≠ v → handles s !! w ≠ Some (Some c)) as Hn.
  { unfold n. rewrite map_size_empty_iff, map_empty. split.
    - intros Hno w Hw Hcw. specialize (Hno w). apply map_lookup_filter_None in Hno as [Hno|Hno].
      + rewrite lookup_delete_ne in Hno by done. congruence.
      + apply (Hno (Some c)); [by rewrite lookup_delete_ne|done].
    - intros Hno w. apply map_lookup_filter_None. destruct (decide (w = v)) as [->|Hw]; [left; apply lookup_delete_eq|].
      right. intros p Hp ->. rewrite lookup_delete_ne in Hp by done. by apply (Hno w Hw). }
  rewrite <-Hn. destruct (Nat.eqb_spec (c_refs i + S n) 1).
  - split; [intros _; lia|done].
  - split; [|lia]. intros E. injection E as E. exfalso.
    assert (<[c := i]> (impls s) !! c = <[c := log_call CloseFromUser i]> (impls s) !! c) as E' by (by rewrite E).
    rewrite !lookup_insert_eq in E'. injection E' as E'. apply (f_equal (λ x, length (c_calls x))) in E'.
    simpl in E'. rewrite length_app in E'. simpl in E'. lia.
Qed.

End Shared.
