(* ===== verification/MuxDrain.v ===== *)
(** * Draining the multiplexer

    [udp_mux::on_readable] of [src/src/socket/udp_mux.hpp], the way of reading that
    the header documents: datagrams are received one after another until the call
    fails, and each is dispatched with the table of peers as it is then.  The
    thread of the multiplexer reads by completions instead ([UdpMux]). *)

From S2P Require Import Prelude Platform Address Socket Transfer UdpMux.

Local Open Scope Z_scope.

(** [recv_buf_] *)
Definition mux_buf_size : Z := 65536.

Section Drain.
Context {Key : Type} `{!EqDecision Key} `{!Countable Key} {AC : AddrClass Key}.
Context {N : Type} `{TransferKernel N}.
Implicit Types (m : udp_mux (Key := Key)).

(** What the callbacks of the multiplexer's users do to its table: they may register
    and deregister peers.  The socket is not theirs. *)
Context (cb : target → bytes → udp_mux (Key := Key) → udp_mux (Key := Key)).

(** The lookup and the call: nothing is called for nobody. *)
Definition dispatch (src data : bytes) m : list (target * bytes) * udp_mux (Key := Key) :=
  match pick src m with
  | Nobody => ([], m)
  | t => ([(t, data)], cb t data m)
  end.

(** The loop, with the calls it makes; [None] when the fuel is spent. *)
Fixpoint on_readable (fuel : nat) m (n : N) : option (list (target * bytes) * udp_mux (Key := Key) * N) :=
  match fuel with
  | O => None
  | S fuel' =>
      match sys_recvfrom (handle_ (socket_ m)) mux_buf_size 0 n with
      | (inr _, n) => Some ([], m, n)
      | (inl (data, src_sa), n) =>
          if (length data =? 0)%nat then on_readable fuel' m n
          else
            let src := take addr_size (sa_storage_ src_sa) in
            let '(calls, m) := dispatch src data m in
            '(rest, m, n) ← on_readable fuel' m n;
            Some (calls ++ rest, m, n)
      end
  end.

(** The datagrams that wait at a socket with their sources, in the order of arrival. *)
Class SourcedQueue := arrived : N → Z → list (bytes * sock_address).

(** As documented: [recvfrom] takes the first, whole if it fits the buffer, or fails. *)
Class SourcedQueueLaws {Q : SourcedQueue} : Prop :=
  law_recvfrom_queue fd len n :
    0 < len →
    let '(r, n') := sys_recvfrom fd len 0 n in
    (∀ fd', fd' ≠ fd → arrived n' fd' = arrived n fd') ∧
    match r with
    | inl p => arrived n fd = p :: arrived n' fd ∨
               ∃ d, arrived n fd = (d, p.2) :: arrived n' fd ∧ len < Z.of_nat (length d) ∧ p.1 = take (Z.to_nat len) d
    | inr e => arrived n' fd = arrived n fd ∧ (errno_code Windows e = make_error_code would_block → arrived n fd = [])
    end.

(** What is to happen to a sequence of datagrams: empty ones are skipped, every other
    one goes where the table says when its turn comes. *)
Fixpoint routing (ds : list (bytes * sock_address)) m : list (target * bytes) * udp_mux (Key := Key) :=
  match ds with
  | [] => ([], m)
  | (data, sa) :: ds' =>
      let data := take (Z.to_nat mux_buf_size) data in
      if (length data =? 0)%nat then routing ds' m
      else
        let '(calls, m) := dispatch (take addr_size (sa_storage_ sa)) data m in
        let '(rest, m) := routing ds' m in (calls ++ rest, m)
  end.

Context `{!SourcedQueue} `{!SourcedQueueLaws}.
Context (cb_keeps : ∀ t data m, socket_ (cb t data m) = socket_ m).

Lemma dispatch_keeps src data m : socket_ (dispatch src data m).2 = socket_ m.
Proof using cb_keeps. unfold dispatch. destruct (pick src m); simpl; auto. Qed.

Lemma recvfrom_first fd n p n' :
  sys_recvfrom fd mux_buf_size 0 n = (inl p, n') → Forall (λ d, Z.of_nat (length d.1) ≤ mux_buf_size) (arrived n fd) →
  arrived n fd = p :: arrived n' fd ∧ take (Z.to_nat mux_buf_size) p.1 = p.1.
Proof.
  intros E Hfit. pose proof (law_recvfrom_queue fd mux_buf_size n eq_refl) as Hl. rewrite E in Hl.
  destruct Hl as [_ [Hq|(d & Hq & Hlen & _)]]; rewrite Hq in Hfit; apply Forall_cons in Hfit as [Hfit _].
  - split; [done|]. rewrite take_ge; [done|]. unfold mux_buf_size in *. lia.
  - simpl in Hfit. lia.
Qed.

Lemma drains fuel m n :
  Forall (λ d, Z.of_nat (length d.1) ≤ mux_buf_size) (arrived n (handle_ (socket_ m))) →
  (length (arrived n (handle_ (socket_ m))) < fuel)%nat →
  ∃ taken calls m' n', on_readable fuel m n = Some (calls, m', n') ∧ routing taken m = (calls, m') ∧
    socket_ m' = socket_ m ∧
    arrived n (handle_ (socket_ m)) = taken ++ arrived n' (handle_ (socket_ m)) ∧
    (∃ e n1, sys_recvfrom (handle_ (socket_ m)) mux_buf_size 0 n1 = (inr e, n') ∧
       (errno_code Windows e = make_error_code would_block → arrived n' (handle_ (socket_ m)) = [])) ∧
    (∀ fd, fd ≠ handle_ (socket_ m) → arrived n' fd = arrived n fd).
Proof using All.
  revert m n. induction fuel as [|fuel IH]; intros m n Hfit Hf; [lia|]. cbn [on_readable].
  pose proof (law_recvfrom_queue (handle_ (socket_ m)) mux_buf_size n eq_refl) as Hl.
  destruct (sys_recvfrom (handle_ (socket_ m)) mux_buf_size 0 n) as [[p|e] n1] eqn:E; destruct Hl as [Hother Hl].
  - destruct (recvfrom_first _ _ _ _ E Hfit) as [Hq Htake]. destruct p as [data sa]. rewrite Hq in Hf, Hfit. simpl in Hf, Htake.
    apply Forall_cons in Hfit as [_ Hfit]. destruct (length data =? 0)%nat eqn:E0.
    + destruct (IH m n1 Hfit ltac:(lia)) as (tk & calls & m' & n' & Hr & Hrt & Hs & Ha & He & Ho).
      exists ((data, sa) :: tk), calls, m', n'. split_and!; [done| |done| |done|].
      * cbn [routing]. rewrite Htake, E0. done.
      * rewrite Hq, Ha. done.
      * intros fd Hne. by rewrite Ho, Hother.
    + destruct (dispatch (take addr_size (sa_storage_ sa)) data m) as [c1 m1] eqn:Ed.
      assert (socket_ m1 = socket_ m) as Hs1 by (pose proof (dispatch_keeps (take addr_size (sa_storage_ sa)) data m) as Hk; by rewrite Ed in Hk).
      destruct (IH m1 n1) as (tk & calls & m' & n' & Hr & Hrt & Hs & Ha & He & Ho); [by rewrite Hs1|rewrite Hs1; lia|].
      rewrite Hs1 in *. rewrite Hr. exists ((data, sa) :: tk), (c1 ++ calls), m', n'. split_and!; [done| |congruence| |done|].
      * cbn [routing]. rewrite Htake, E0, Ed, Hrt. done.
      * rewrite Hq, Ha. done.
      * intros fd Hne. by rewrite Ho, Hother.
  - destruct Hl as [Hq Hnone]. exists [], [], m, n1. split_and!; try done. exists e, n. by rewrite Hq.
Qed.

(** Draining a multiplexer.  However many datagrams wait at its socket, as long as
    they are not longer than its buffer, [on_readable] returns after one call of
    [recvfrom] more than there are datagrams at most; it takes them in the order of
    their arrival and stops at the first call that fails, which, if it would block,
    means that none is left; the callbacks it makes are exactly those of the
    datagrams it took, in order: none for an empty datagram or one that nobody wants,
    and one for each other, of the peer registered for its source when its turn
    comes, that is, after the callbacks before it have changed the table, or else of
    the catch-all.  Other sockets keep what waits at them. *)
Theorem mux_drains fuel m n :
  Forall (λ d, Z.of_nat (length d.1) ≤ mux_buf_size) (arrived n (handle_ (socket_ m))) →
  (length (arrived n (handle_ (socket_ m))) < fuel)%nat →
  ∃ taken calls m' n', on_readable fuel m n = Some (calls, m', n') ∧ routing taken m = (calls, m') ∧
    arrived n (handle_ (socket_ m)) = taken ++ arrived n' (handle_ (socket_ m)) ∧
    (∃ e n1, sys_recvfrom (handle_ (socket_ m)) mux_buf_size 0 n1 = (inr e, n') ∧
       (errno_code Windows e = make_error_code would_block → arrived n' (handle_ (socket_ m)) = [])) ∧
    (∀ fd, fd ≠ handle_ (socket_ m) → arrived n' fd = arrived n fd).
Proof using All.
  intros Hfit Hf. destruct (drains fuel m n Hfit Hf) as (tk & calls & m' & n' & Hr & Hrt & _ & Ha & He & Ho).
  exists tk, calls, m', n'. by split_and!.
Qed.

End Drain.

(** ** A network of queues *)

Definition sourced_recvfrom (fd len fl : Z) (n : gmap Z (list (bytes * sock_address))) :
    (bytes * sock_address + Z) * gmap Z (list (bytes * sock_address)) :=
  match default [] (n !! fd) with
  | [] => (inr 10035, n)
  | (d, sa) :: q => (inl (take (Z.to_nat len) d, sa), <[fd := q]> n)
  end.

#[export] Instance sourced_net : TransferKernel (gmap Z (list (bytes * sock_address))) := {|
  sys_send _ data _ n := (inl (Z.of_nat (length data)), n);
  sys_recv _ _ _ n := (inr 10035, n);
  sys_sendto _ data _ _ n := (inl (Z.of_nat (length data)), n);
  sys_recvfrom := sourced_recvfrom;
  sys_sendv _ bufs _ _ n := (inl (Z.of_nat (length (concat bufs))), n);
  sys_recvv _ _ _ n := (inr 10035, n);
  sys_recvmmsg _ _ _ n := (inr 10035, n);
  sys_sendmmsg _ msgs _ n := (inl ((λ m, Z.of_nat (length m.1)) <$> msgs), n)
|}.

#[export] Instance sourced_arrived : SourcedQueue (N := gmap Z (list (bytes * sock_address))) := λ n fd, default [] (n !! fd).

#[export] Instance sourced_net_laws : SourcedQueueLaws (Q := sourced_arrived).
Proof.
  intros fd len n Hl. simpl. unfold sourced_recvfrom, arrived, sourced_arrived.
  destruct (default [] (n !! fd)) as [|[d sa] q] eqn:E; [by rewrite E|]. split.
  - intros fd' Hne. by rewrite lookup_insert_ne.
  - rewrite lookup_insert_eq. simpl. destruct (decide (Z.of_nat (length d) ≤ len)).
    + left. rewrite take_ge by lia. done.
    + right. exists d. split_and!; [done|lia|done].
Qed.

(** The catch-all registers the peer it hears from, so that the next datagram from
    there goes to it; an empty one in between is skipped. *)
Definition demo_source : sock_address := default sock_address_default (to_sock4 demo_peer).
Definition demo_cb (t : target) (data : bytes) (m : udp_mux (Key := Z * Z)) : udp_mux :=
  match t with
  | ToCatchAll src => set_peers (<[addr_key (AddrClass := addr4) src := 7%nat]> (peers_ m)) m
  | _ => m
  end.
Definition demo_drained : udp_mux (Key := Z * Z) :=
  mk_mux (sock_of 3) demo_local ∅ true true true false 2 None.
Definition demo_arrivals : gmap Z (list (bytes * sock_address)) :=
  {[3 := [([1; 2], demo_source); ([], demo_source); ([3], demo_source)]]}.

Lemma mux_drains_witness :
  ∃ m' n', on_readable (AC := addr4) demo_cb 5 demo_drained demo_arrivals =
             Some ([(ToCatchAll demo_peer, [1; 2]); (ToPeer 7, [3])], m', n') ∧ arrived n' 3 = [].
Proof.
  destruct (mux_drains (AC := addr4) demo_cb ltac:(by intros [] ?) 5 demo_drained demo_arrivals)
    as (tk & calls & m' & n' & E & _).
  - repeat constructor; apply Z.leb_le; vm_compute; reflexivity.
  - apply Nat.ltb_lt. vm_compute. reflexivity.
  - exists m', n'.
    assert ((λ p, (p.1.1, arrived p.2 3)) <$> Some (calls, m', n') = Some ([(ToCatchAll demo_peer, [1; 2]); (ToPeer 7, [3])], [])) as Hv
      by (rewrite <-E; vm_compute; reflexivity).
    simpl in Hv. injection Hv as H1 H2. split; [by rewrite E, H1|exact H2].
Defined.
