(* ===== verification/Startup.v ===== *)
(** * Platform start-up

    [wsa_init::ensure] of [src/src/platform/wsa_init.cpp], which every thread that
    creates a socket on Windows calls first ([src/src/socket/socket.cpp]): the
    lambda that starts Winsock, under [std::call_once].  The machine interleaves any
    number of threads; what [WSAStartup] and [atexit] answer is left open. *)

From S2P Require Import Prelude.

Local Open Scope Z_scope.

(** [std::once_flag]: [call_once] runs its function in the first thread that comes,
    and the others wait until it has returned. *)
Inductive once_flag := Fresh | Running | Complete.

(** Where a thread is: about to call [ensure], in the lambda before [WSAStartup] and
    before [atexit], past [ensure] and about to create its socket, and done. *)
Inductive pc := Calling | InStartup | InAtexit | Ensured | Created.

#[export] Instance pc_eq_dec : EqDecision pc.
Proof. solve_decision. Defined.

(** [started]: calls of [WSAStartup]; [running]: whether one succeeded; [cleanups]: what
    [atexit] has accepted; [created_early]: whether a socket was created without
    Winsock. *)
Record st := mk_st {
  flag : once_flag; threads : list pc; started : nat; running : bool; cleanups : nat;
  aborted : bool; created_early : bool
}.

Definition init (n : nat) : st := mk_st Fresh (replicate n Calling) 0 false 0 false false.

(** A step of thread [i]; [err] is what the platform answers to the call it makes.
    [None] when the thread waits or is done. *)
Definition ensure_step (i : nat) (err : Z) (s : st) : option st :=
  p ← threads s !! i;
  if aborted s then None
  else
    match p with
    | Calling =>
        match flag s with
        | Fresh => Some (mk_st Running (<[i := InStartup]> (threads s)) (started s) (running s) (cleanups s) false (created_early s))
        | Running => None
        | Complete => Some (mk_st Complete (<[i := Ensured]> (threads s)) (started s) (running s) (cleanups s) false (created_early s))
        end
    | InStartup =>
        if err =? 0
        then Some (mk_st (flag s) (<[i := InAtexit]> (threads s)) (S (started s)) true (cleanups s) false (created_early s))
        else Some (mk_st (flag s) (threads s) (S (started s)) (running s) (cleanups s) true (created_early s))
    | InAtexit =>
        Some (mk_st Complete (<[i := Ensured]> (threads s)) (started s) (running s)
                (if err =? 0 then S (cleanups s) else cleanups s) false (created_early s))
    | Ensured =>
        Some (mk_st (flag s) (<[i := Created]> (threads s)) (started s) (running s) (cleanups s) false
                (created_early s || negb (running s)))
    | Created => None
    end.

Inductive step (s : st) : st → Prop :=
| step_act i err s' : ensure_step i err s = Some s' → step s s'.

Definition past (p : pc) : bool := match p with Ensured | Created => true | _ => false end.

(** The states the program goes through: nobody has come yet; thread [i] is in the
    lambda, before or after [WSAStartup], and everybody else waits; the lambda has
    returned. *)
Inductive phase : st → Prop :=
| phase_fresh n : phase (init n)
| phase_starting n i ab :
    (i < n)%nat →
    phase (mk_st Running (<[i := InStartup]> (replicate n Calling)) (if ab : bool then 1 else 0) false 0 ab false)
| phase_started n i :
    (i < n)%nat → phase (mk_st Running (<[i := InAtexit]> (replicate n Calling)) 1 true 0 false false)
| phase_complete ts c :
    (c ≤ 1)%nat → Forall (λ p, p = Calling ∨ past p = true) ts → phase (mk_st Complete ts 1 true c false false).

Lemma one_busy n i j p q :
  <[i := p]> (replicate n Calling) !! j = Some q → j = i ∧ q = p ∨ q = Calling.
Proof. intros [(-> & -> & _)|(_ & [-> _]%lookup_replicate)]%list_lookup_insert_Some; auto. Qed.

Lemma step_phase s s' : step s s' → phase s → phase s'.
Proof.
  intros [i err s1 Ha] Hp. unfold ensure_step in Ha. destruct (threads s !! i) as [p|] eqn:Hi; [|done]. cbn [mbind option_bind] in Ha.
  destruct Hp as [n|n k ab Hk|n k Hk|ts c Hc Hts]; cbn [flag threads started running cleanups aborted created_early init] in *.
  - apply lookup_replicate in Hi as [-> Hi]. injection Ha as <-. by apply (phase_starting n i false).
  - destruct ab; [done|]. apply one_busy in Hi as [[-> ->]| ->]; [|done]. destruct (err =? 0); injection Ha as <-.
    + rewrite list_insert_insert_eq. by apply phase_started.
    + by apply (phase_starting n k true).
  - apply one_busy in Hi as [[-> ->]| ->]; [|done]. injection Ha as <-. rewrite list_insert_insert_eq.
    apply phase_complete; [destruct (err =? 0); lia|]. apply Forall_insert; [|by right]. apply Forall_replicate. by left.
  - pose proof (proj1 (Forall_lookup _ ts) Hts i p Hi) as [-> | Hpast].
    + injection Ha as <-. apply phase_complete; [done|]. apply Forall_insert; [done|by right].
    + destruct p; try done. injection Ha as <-. apply phase_complete; [done|]. apply Forall_insert; [done|by right].
Qed.

Lemma reachable_phase n s : rtc step (init n) s → phase s.
Proof. intros Hr. eapply rtc_preserves; eauto using step_phase, phase_fresh. Qed.

(** Winsock is started once, before any socket.  However many threads call
    [wsa_init::ensure] at once and whatever the platform answers: [WSAStartup] is
    called at most once and the clean-up registered at most once; a thread gets past
    [ensure] only after [WSAStartup] has succeeded, so that no socket is created
    without it; if it fails the process is aborted and no thread ever gets past; and
    as long as the process is not aborted some thread can go on until all are past. *)
Theorem wsa_started_once n s :
  rtc step (init n) s →
  (started s ≤ 1)%nat ∧ (cleanups s ≤ 1)%nat ∧ created_early s = false ∧
  (∀ i p, threads s !! i = Some p → past p = true → started s = 1%nat ∧ running s = true ∧ aborted s = false) ∧
  (aborted s = true → running s = false ∧ ∀ s', step s s' → False) ∧
  (aborted s = false → (∃ s', step s s') ∨ ∀ i p, threads s !! i = Some p → p = Created).
Proof.
  intros Hp%reachable_phase. destruct Hp as [n'|n' k ab Hk|n' k Hk|ts c Hc Hts].
  - split_and!; [simpl; lia..|done| |done|].
    + intros i p [-> _]%lookup_replicate. done.
    + intros _. destruct n' as [|n']; [right; by intros [] p Hi|]. left. eexists. by apply (step_act _ 0%nat 0).
  - simpl. split_and!; [destruct ab; lia|lia|done| | |].
    + intros i p [[_ ->]| ->]%one_busy; done.
    + intros ->. split; [done|]. intros s' [i err s1 Ha]. unfold ensure_step in Ha. simpl in Ha. by destruct (_ !! i).
    + intros ->. left. eexists. apply (step_act _ k 0). unfold ensure_step. simpl.
      rewrite list_lookup_insert_eq by (by rewrite length_replicate). reflexivity.
  - simpl. split_and!; [lia..|done| |done|].
    + intros i p [[_ ->]| ->]%one_busy; done.
    + intros _. left. eexists. apply (step_act _ k 0). unfold ensure_step. simpl.
      rewrite list_lookup_insert_eq by (by rewrite length_replicate). reflexivity.
  - simpl. split_and!; [lia..|done|done|done|]. intros _.
    destruct (decide (Forall (λ p, p = Created) ts)) as [Hall|Hex]; [right; by apply Forall_lookup|]. left.
    apply not_Forall_Exists, Exists_exists in Hex as (p & [i Hi]%list_elem_of_lookup & Hne); [|intros ?; apply _].
    pose proof (proj1 (Forall_lookup _ ts) Hts i p Hi) as Hp.
    destruct p; simpl in Hp; try naive_solver; eexists; apply (step_act _ i 0); unfold ensure_step; simpl; by rewrite Hi.
Qed.

(** Two threads; the second waits for the first, and both create their sockets. *)
Lemma wsa_started_once_witness :
  ∃ s, rtc step (init 2) s ∧ threads s = [Created; Created] ∧ started s = 1%nat ∧ created_early s = false.
Proof.
  pose (run := foldl (λ s i, default s (ensure_step i 0 s)) (init 2) [1; 1; 1; 0; 0; 1]%nat).
  assert (rtc step (init 2) run) as Hr.
  { eapply rtc_l; [by apply (step_act _ 1%nat 0)|]. eapply rtc_l; [by apply (step_act _ 1%nat 0)|].
    eapply rtc_l; [by apply (step_act _ 1%nat 0)|]. eapply rtc_l; [by apply (step_act _ 0%nat 0)|].
    eapply rtc_l; [by apply (step_act _ 0%nat 0)|]. eapply rtc_l; [by apply (step_act _ 1%nat 0)|]. apply rtc_refl. }
  exists run. destruct (wsa_started_once 2 run Hr) as (_ & _ & He & _). split; [exact Hr|]. split; [reflexivity|].
  split; [reflexivity|exact He].
Defined.
