(* ===== verification/Dns.v ===== *)
(** * The DNS example

    The message functions of [src/examples/udp_dns_query.cpp]: the encoding of a
    query and the parsing of a response.  A buffer is a list of bytes, offsets are
    natural numbers (they stay far below [size_t]), and a read outside the buffer
    is [None].  What goes to the error stream is returned as diagnostics. *)

From S2P Require Import Prelude.

Local Open Scope Z_scope.

(** ** Encoding *)

Definition dot : Z := 46.

(** [std::getline(stream, label, '.')] until it fails: it fails when no character,
    not even the dot, is left; [label] is what has been read of the current one. *)
Fixpoint getline_all (label s : bytes) : list bytes :=
  match s with
  | [] => match label with [] => [] | _ => [label] end
  | c :: s' => if c =? dot then label :: getline_all [] s' else getline_all (label ++ [c]) s'
  end.

(** A label with its length, which is cut to a byte. *)
Definition encode_label (l : bytes) : bytes := wrap 8 (Z.of_nat (length l)) :: l.

Definition encode_dns_name (domain : bytes) : bytes := concat (encode_label <$> getline_all [] domain) ++ [0].

Definition build_dns_query (domain : bytes) (query_id : Z) : bytes :=
  [wrap 8 (Z.shiftr query_id 8); wrap 8 (Z.land query_id 0xFF)] ++
  [0x01; 0x00] ++ [0x00; 0x01] ++ [0x00; 0x00] ++ [0x00; 0x00] ++ [0x00; 0x00] ++
  encode_dns_name domain ++ [0x00; 0x01] ++ [0x00; 0x01].

(** ** Parsing *)

Definition read_u16 (buf : bytes) (p : nat) : option Z :=
  p0 ← buf !! p; p1 ← buf !! (p + 1)%nat; Some (wrap 16 (Z.lor (Z.shiftl p0 8) p1)).

(** The loop; [None] also when the fuel is spent. *)
Fixpoint skip_dns_name (fuel : nat) (buf : bytes) (offset buf_len : nat) : option nat :=
  match fuel with
  | O => None
  | S fuel' =>
      if (offset <? buf_len)%nat then
        len ← buf !! offset;
        if len =? 0 then Some (offset + 1)%nat
        else if Z.land len 0xC0 =? 0xC0 then Some (offset + 2)%nat
        else skip_dns_name fuel' buf (offset + (1 + Z.to_nat len)) buf_len
      else Some offset
  end.

(** As many turns as there are bytes are enough. *)
Definition skip_name (buf : bytes) (offset : nat) : option nat :=
  skip_dns_name (S (length buf)) buf offset (length buf).

Record dns_answer := mk_answer { an_type : Z; an_cls : Z; an_ttl : Z; an_rdata : bytes }.

Definition read_u32 (buf : bytes) (p : nat) : option Z :=
  b0 ← buf !! p; b1 ← buf !! (p + 1)%nat; b2 ← buf !! (p + 2)%nat; b3 ← buf !! (p + 3)%nat;
  Some (u32 (Z.lor (Z.lor (Z.lor (Z.shiftl b0 24) (Z.shiftl b1 16)) (Z.shiftl b2 8)) b3)).

(** [assign(buf + first, buf + first + n)] *)
Definition slice (buf : bytes) (first n : nat) : option bytes :=
  if (first + n <=? length buf)%nat then Some (take n (drop first buf)) else None.

(** The first loop: [n] questions are left. *)
Fixpoint skip_questions (n : nat) (buf : bytes) (offset : nat) : option nat :=
  match n with
  | O => Some offset
  | S n' =>
      if (offset <? length buf)%nat
      then offset ← skip_name buf offset; skip_questions n' buf (offset + 4)
      else Some offset
  end.

(** The second loop: [n] records are left. *)
Fixpoint parse_answers (n : nat) (buf : bytes) (offset : nat) : option (list dns_answer) :=
  match n with
  | O => Some []
  | S n' =>
      if (offset <? length buf)%nat then
        offset ← skip_name buf offset;
        if (length buf <? offset + 10)%nat then Some []
        else
          type ← read_u16 buf offset;
          cls ← read_u16 buf (offset + 2);
          ttl ← read_u32 buf (offset + 4);
          rdlength ← read_u16 buf (offset + 8);
          let offset := (offset + 10)%nat in
          if (length buf <? offset + Z.to_nat rdlength)%nat then Some []
          else
            rdata ← slice buf offset (Z.to_nat rdlength);
            rest ← parse_answers n' buf (offset + Z.to_nat rdlength);
            Some (mk_answer type cls ttl rdata :: rest)
      else Some []
  end.

Inductive diagnostic := TooShort | IdMismatch (expected got : Z) | DnsError (rcode : Z).

Definition parse_dns_response (buf : bytes) (expected_id : Z) : option (list diagnostic * list dns_answer) :=
  if (length buf <? 12)%nat then Some ([TooShort], [])
  else
    resp_id ← read_u16 buf 0;
    if negb (resp_id =? expected_id) then Some ([IdMismatch expected_id resp_id], [])
    else
      b3 ← buf !! 3%nat;
      let rcode := Z.land b3 0x0F in
      if negb (rcode =? 0) then Some ([DnsError rcode], [])
      else
        qdcount ← read_u16 buf 4;
        ancount ← read_u16 buf 6;
        offset ← skip_questions (Z.to_nat qdcount) buf 12;
        answers ← parse_answers (Z.to_nat ancount) buf offset;
        Some ([], answers).

(** ** Safety *)

Lemma skip_safe fuel buf offset :
  (length buf - offset < fuel)%nat → Forall is_byte buf →
  ∃ offset', skip_dns_name fuel buf offset (length buf) = Some offset' ∧ (offset ≤ offset')%nat ∧
    ((offset < length buf)%nat → (offset < offset')%nat).
Proof.
  intros Hf Hb. revert offset Hf. induction fuel as [|fuel IH]; intros offset Hf; [lia|]. cbn [skip_dns_name].
  destruct (offset <? length buf)%nat eqn:E; [|eexists; split; [done|]; apply Nat.ltb_ge in E; lia].
  apply Nat.ltb_lt in E. destruct (lookup_lt_is_Some_2 buf offset E) as [len Hlen]. rewrite Hlen. cbn [mbind option_bind].
  destruct (len =? 0) eqn:E0; [eexists; split; [done|]; lia|].
  destruct (Z.land len 192 =? 192); [eexists; split; [done|]; lia|].
  destruct (IH (offset + (1 + Z.to_nat len))%nat ltac:(lia)) as (o & -> & ? & ?). eexists. split; [done|]. lia.
Qed.

Lemma skip_name_safe buf offset :
  Forall is_byte buf →
  ∃ offset', skip_name buf offset = Some offset' ∧ (offset ≤ offset')%nat ∧
    ((offset < length buf)%nat → (offset < offset')%nat).
Proof. intros Hb. apply skip_safe; [lia|done]. Qed.

Lemma skip_questions_safe n buf offset :
  Forall is_byte buf → ∃ offset', skip_questions n buf offset = Some offset' ∧ (offset ≤ offset')%nat.
Proof.
  intros Hb. revert offset. induction n as [|n IH]; intros offset; cbn [skip_questions]; [by eauto|].
  destruct (offset <? length buf)%nat; [|by eauto].
  destruct (skip_name_safe buf offset Hb) as (o & -> & Ho & _). simpl. destruct (IH (o + 4)%nat) as (o' & -> & ?).
  eexists. split; [done|lia].
Qed.

Lemma read_u16_safe buf p : (p + 2 ≤ length buf)%nat → ∃ v, read_u16 buf p = Some v ∧ in_width 16 v.
Proof.
  intros Hp. unfold read_u16. destruct (lookup_lt_is_Some_2 buf p) as [b0 ->]; [lia|].
  destruct (lookup_lt_is_Some_2 buf (p + 1)) as [b1 ->]; [lia|]. eexists. split; [done|]. apply wrap_in_width. lia.
Qed.

Lemma read_u32_safe buf p : (p + 4 ≤ length buf)%nat → ∃ v, read_u32 buf p = Some v ∧ in_width 32 v.
Proof.
  intros Hp. unfold read_u32. destruct (lookup_lt_is_Some_2 buf p) as [b0 ->]; [lia|].
  destruct (lookup_lt_is_Some_2 buf (p + 1)) as [b1 ->]; [lia|].
  destruct (lookup_lt_is_Some_2 buf (p + 2)) as [b2 ->]; [lia|].
  destruct (lookup_lt_is_Some_2 buf (p + 3)) as [b3 ->]; [lia|]. eexists. split; [done|]. apply wrap_in_width. lia.
Qed.

(** The bytes a record takes, besides its name. *)
Definition record_size (a : dns_answer) : nat := (10 + length (an_rdata a))%nat.

Definition answer_ok (buf : bytes) (a : dns_answer) : Prop :=
  in_width 16 (an_type a) ∧ in_width 16 (an_cls a) ∧ in_width 32 (an_ttl a) ∧
  ∃ pre post, buf = pre ++ an_rdata a ++ post.

Lemma parse_answers_safe n buf offset :
  Forall is_byte buf →
  ∃ l, parse_answers n buf offset = Some l ∧ (length l ≤ n)%nat ∧ Forall (answer_ok buf) l ∧
    (offset ≤ length buf → offset + total record_size l ≤ length buf)%nat ∧ ((length buf < offset)%nat → l = []).
Proof.
  intros Hb. revert offset. induction n as [|n IH]; intros offset; cbn [parse_answers].
  { exists []. unfold total. split_and!; try done; simpl; lia. }
  assert (∃ l, Some (@nil dns_answer) = Some l ∧ (length l ≤ S n)%nat ∧ Forall (answer_ok buf) l ∧
    (offset ≤ length buf → offset + total record_size l ≤ length buf)%nat ∧ ((length buf < offset)%nat → l = [])) as Hnil.
  { exists []. unfold total. split_and!; try done; simpl; lia. }
  destruct (offset <? length buf)%nat eqn:E; [|exact Hnil]. apply Nat.ltb_lt in E.
  destruct (skip_name_safe buf offset Hb) as (o & -> & Ho & _). cbn [mbind option_bind].
  destruct (length buf <? o + 10)%nat eqn:E10; [exact Hnil|]. apply Nat.ltb_ge in E10.
  destruct (read_u16_safe buf o) as (ty & -> & Hty); [lia|].
  destruct (read_u16_safe buf (o + 2)) as (cl & -> & Hcl); [lia|].
  destruct (read_u32_safe buf (o + 4)) as (ttl & -> & Httl); [lia|].
  destruct (read_u16_safe buf (o + 8)) as (rd & -> & Hrd); [lia|]. cbn [mbind option_bind].
  destruct (length buf <? o + 10 + Z.to_nat rd)%nat eqn:Erd; [exact Hnil|]. apply Nat.ltb_ge in Erd.
  unfold slice. rewrite (proj2 (Nat.leb_le _ _)) by lia. cbn [mbind option_bind].
  destruct (IH (o + 10 + Z.to_nat rd)%nat) as (l & -> & Hl & Hok & Hsz & _). cbn [mbind option_bind].
  eexists. split; [done|]. split_and!; [simpl; lia| | |intros; lia].
  - constructor; [|done]. split_and!; [done..|]. exists (take (o + 10) buf), (drop (Z.to_nat rd) (drop (o + 10) buf)). simpl.
    by rewrite take_drop, take_drop.
  - intros _. rewrite total_cons. unfold record_size at 1. simpl. rewrite length_take, length_drop. lia.
Qed.

(** C34. Parsing a response is safe on every input.  Whatever bytes arrive, of
    whatever number, the loops over names, questions and records end, nothing is
    read outside the buffer, and what is returned is at most as many records as
    the header announces, each with fields of their width and with data that is a
    part of the buffer; all records together fit behind the header. *)
Theorem dns_parse_safe buf expected_id :
  Forall is_byte buf →
  ∃ diag answers, parse_dns_response buf expected_id = Some (diag, answers) ∧
    (diag ≠ [] → answers = []) ∧ Forall (answer_ok buf) answers ∧
    (answers ≠ [] → ∃ n, read_u16 buf 6 = Some n ∧ (length answers ≤ Z.to_nat n)%nat) ∧
    (answers ≠ [] → 12 + total record_size answers ≤ length buf)%nat.
Proof.
  intros Hb. unfold parse_dns_response. destruct (length buf <? 12)%nat eqn:E; [by eexists _, []|].
  apply Nat.ltb_ge in E. destruct (read_u16_safe buf 0) as (id & -> & _); [lia|]. cbn [mbind option_bind].
  destruct (negb (id =? expected_id)); [by eexists _, []|].
  destruct (lookup_lt_is_Some_2 buf 3) as [b3 ->]; [lia|]. cbn [mbind option_bind].
  destruct (negb (Z.land b3 15 =? 0)); [by eexists _, []|].
  destruct (read_u16_safe buf 4) as (qd & -> & _); [lia|]. destruct (read_u16_safe buf 6) as (an & Han & _); [lia|].
  rewrite Han. cbn [mbind option_bind].
  destruct (skip_questions_safe (Z.to_nat qd) buf 12 Hb) as (o & -> & Ho). cbn [mbind option_bind].
  destruct (parse_answers_safe (Z.to_nat an) buf o Hb) as (l & -> & Hl & Hok & Hsz & Hout). simpl.
  exists [], l. split_and!; try done; [by eauto|]. intros Hne. destruct (decide (o ≤ length buf)%nat); [lia|].
  destruct Hne. apply Hout. lia.
Qed.

(** ** Round trips *)

(** A label of RFC 1035. *)
Definition wf_label (l : bytes) : Prop := (1 ≤ length l ≤ 63)%nat ∧ dot ∉ l.

(** A domain name as it is written. *)
Fixpoint domain_of (labels : list bytes) : bytes :=
  match labels with
  | [] => []
  | [l] => l
  | l :: labels' => l ++ dot :: domain_of labels'
  end.

(** The message of RFC 1035: one question, and records that refer to its name. *)
Definition dns_record (a : dns_answer) : bytes :=
  [0xC0; 0x0C] ++ be_bytes 2 (an_type a) ++ be_bytes 2 (an_cls a) ++ be_bytes 4 (an_ttl a) ++
  be_bytes 2 (Z.of_nat (length (an_rdata a))) ++ an_rdata a.
Definition dns_name (labels : list bytes) : bytes := concat (encode_label <$> labels) ++ [0].
Definition dns_response (id : Z) (labels : list bytes) (answers : list dns_answer) : bytes :=
  be_bytes 2 id ++ [0x81; 0x80] ++ be_bytes 2 1 ++ be_bytes 2 (Z.of_nat (length answers)) ++ [0; 0; 0; 0] ++
  dns_name labels ++ [0; 1; 0; 1] ++ concat (dns_record <$> answers).

Lemma getline_label l label s : dot ∉ l → getline_all label (l ++ s) = getline_all (label ++ l) s.
Proof.
  revert label. induction l as [|c l IH]; intros label Hd; simpl; [by rewrite app_nil_r|].
  destruct (c =? dot) eqn:E; bool_facts; [set_solver|]. rewrite IH by set_solver. by rewrite <-app_assoc.
Qed.

Lemma getline_domain labels : Forall wf_label labels → getline_all [] (domain_of labels) = labels.
Proof.
  induction 1 as [|l labels [Hlen Hd] _ IH]; [done|]. cbn [domain_of].
  assert (l ≠ []) by (intros ->; simpl in *; lia). destruct labels as [|l' labels].
  - rewrite <-(app_nil_r l) at 1. rewrite getline_label by done. simpl. by destruct l.
  - rewrite getline_label by done. cbn [app getline_all]. rewrite Z.eqb_refl, IH. done.
Qed.

Lemma lor_add a n b : 0 ≤ n → 0 ≤ b < 2 ^ n → Z.lor (Z.shiftl a n) b = a * 2 ^ n + b.
Proof.
  intros Hn Hb. rewrite Z.shiftl_mul_pow2 by done. destruct (decide (b = 0)) as [->|Hb0]; [rewrite Z.lor_0_r; lia|].
  assert (Z.land (a * 2 ^ n) b = 0) as Hl.
  { apply Z.bits_inj'. intros i Hi. rewrite Z.land_spec, Z.bits_0.
    destruct (decide (i < n)) as [Hlt|Hge]; [by rewrite Z.mul_pow2_bits_low|].
    rewrite (Z.bits_above_log2 b i); [by rewrite andb_false_r|lia|].
    assert (Z.log2 b < n) by (apply Z.log2_lt_pow2; lia). lia. }
  pose proof (Z.add_lor_land (a * 2 ^ n) b). lia.
Qed.

Lemma lookup_pre pre (rest : bytes) i : (pre ++ rest) !! (length pre + i)%nat = rest !! i.
Proof. rewrite lookup_app_r by lia. f_equal. lia. Qed.

Lemma join_bytes a b : 0 ≤ b < 256 → Z.lor (Z.shiftl a 8) b = a * 256 + b.
Proof. intros Hb. rewrite (lor_add _ 8); [done|done|]. change (2 ^ 8) with 256. lia. Qed.

Lemma read_u16_be pre rest v p :
  p = length pre → in_width 16 v → read_u16 (pre ++ be_bytes 2 v ++ rest) p = Some v.
Proof.
  intros -> Hv. unfold read_u16. rewrite <-(Nat.add_0_r (length pre)) at 1. rewrite !lookup_pre.
  assert (be_bytes 2 v = [(v / 256) mod 256; v mod 256]) as -> by done. simpl. f_equal.
  pose proof (Z.mod_pos_bound v 256 eq_refl). pose proof (Z.mod_pos_bound (v / 256) 256 eq_refl).
  rewrite join_bytes by lia. unfold in_width in Hv. change (2 ^ 16) with 65536 in Hv.
  rewrite (Z.mod_small (v / 256)) by (split; [apply Z.div_pos|apply Z.div_lt_upper_bound]; lia).
  rewrite Z.mul_comm, <-(Z.div_mod v 256) by done. by apply wrap_id.
Qed.

Lemma read_u32_be pre rest v p :
  p = length pre → in_width 32 v → read_u32 (pre ++ be_bytes 4 v ++ rest) p = Some v.
Proof.
  intros -> Hv. unfold read_u32. rewrite <-(Nat.add_0_r (length pre)) at 1. rewrite !lookup_pre.
  assert (be_bytes 4 v = [(v / 256 / 256 / 256) mod 256; (v / 256 / 256) mod 256; (v / 256) mod 256; v mod 256]) as -> by done.
  simpl. f_equal. unfold in_width in Hv. change (2 ^ 32) with 4294967296 in Hv.
  change 24 with (8 + 8 + 8). change 16 with (8 + 8). rewrite <-!Z.shiftl_shiftl, <-!Z.shiftl_lor by done.
  pose proof (λ x, Z.mod_pos_bound x 256 eq_refl) as Hm. pose proof (λ x, Z.div_mod x 256 ltac:(done)) as Hd.
  pose proof (Hm v). pose proof (Hm (v / 256)). pose proof (Hm (v / 256 / 256)). pose proof (Hm (v / 256 / 256 / 256)).
  rewrite !join_bytes by lia. rewrite (Z.mod_small (v / 256 / 256 / 256)).
  2:{ rewrite !Z.div_div by done. split; [apply Z.div_pos|apply Z.div_lt_upper_bound]; lia. }
  pose proof (Hd v). pose proof (Hd (v / 256)). pose proof (Hd (v / 256 / 256)).
  match goal with |- u32 ?x = _ => replace x with v by lia end. by apply wrap_id.
Qed.

(** ** A well-formed response *)

Lemma skip_label fuel pre l rest n :
  wf_label l → (length pre < n)%nat →
  skip_dns_name (S fuel) (pre ++ encode_label l ++ rest) (length pre) n =
  skip_dns_name fuel (pre ++ encode_label l ++ rest) (length pre + length (encode_label l)) n.
Proof.
  intros [Hl _] Hn. cbn [skip_dns_name]. rewrite (proj2 (Nat.ltb_lt _ _)) by done.
  assert ((pre ++ encode_label l ++ rest) !! length pre = Some (Z.of_nat (length l))) as ->.
  { rewrite <-(Nat.add_0_r (length pre)), lookup_pre. simpl. unfold wrap. rewrite Z.mod_small; [done|].
    change (2 ^ 8) with 256. lia. }
  assert (∀ k, (1 ≤ k ≤ 63)%nat → Z.of_nat k =? 0 = false ∧ Z.land (Z.of_nat k) 192 =? 192 = false) as Hk.
  { intros k Hk. do 64 (destruct k as [|k]; [first [lia|by split]|]). lia. }
  cbn [mbind option_bind]. destruct (Hk _ Hl) as [-> ->]. by rewrite Nat2Z.id.
Qed.

Lemma skip_labels fuel pre labels rest n :
  Forall wf_label labels → (length labels < fuel)%nat → (length pre + length (dns_name labels) ≤ n)%nat →
  skip_dns_name fuel (pre ++ dns_name labels ++ rest) (length pre) n = Some (length pre + length (dns_name labels))%nat.
Proof.
  intros Hw. revert fuel pre. induction Hw as [|l labels Hl _ IH]; intros fuel pre Hf Hn.
  all: destruct fuel as [|fuel]; [lia|].
  - cbn [skip_dns_name]. simpl in Hn. rewrite (proj2 (Nat.ltb_lt _ _)) by lia.
    rewrite <-(Nat.add_0_r (length pre)) at 1. by rewrite lookup_pre.
  - assert (dns_name (l :: labels) = encode_label l ++ dns_name labels) as Hc by (unfold dns_name; simpl; by rewrite <-app_assoc).
    rewrite Hc, length_app in Hn. rewrite Hc, <-app_assoc, length_app. assert (0 < length (encode_label l))%nat by (simpl; lia).
    rewrite skip_label; [|done|lia]. rewrite app_assoc, <-length_app.
    rewrite IH; [|simpl in *; lia|rewrite length_app; lia]. rewrite length_app. f_equal. lia.
Qed.

Lemma dns_name_size labels : (length labels < length (dns_name labels))%nat.
Proof.
  induction labels as [|l labels IH]; [simpl; lia|]. unfold dns_name in *. rewrite length_app in *. csimpl.
  rewrite length_app. simpl in *. lia.
Qed.

Lemma skip_name_encoded pre labels rest :
  Forall wf_label labels →
  skip_name (pre ++ dns_name labels ++ rest) (length pre) = Some (length pre + length (dns_name labels))%nat.
Proof.
  intros Hw. pose proof (dns_name_size labels). apply skip_labels; [done|..]; rewrite !length_app; lia.
Qed.

Lemma skip_name_pointer pre b rest : skip_name (pre ++ 192 :: b :: rest) (length pre) = Some (length pre + 2)%nat.
Proof.
  unfold skip_name. cbn [skip_dns_name]. rewrite (proj2 (Nat.ltb_lt _ _)) by (rewrite length_app; simpl; lia).
  rewrite <-(Nat.add_0_r (length pre)) at 1. by rewrite lookup_pre.
Qed.

Definition wf_answer (a : dns_answer) : Prop :=
  in_width 16 (an_type a) ∧ in_width 16 (an_cls a) ∧ in_width 32 (an_ttl a) ∧ (Z.of_nat (length (an_rdata a)) < 2 ^ 16).

Lemma slice_mid pre l rest : slice (pre ++ l ++ rest) (length pre) (length l) = Some l.
Proof.
  unfold slice. rewrite (proj2 (Nat.leb_le _ _)) by (rewrite !length_app; lia). by rewrite drop_app_length, take_app_length.
Qed.

(** Moves the prefix of a buffer over the next [k] parts. *)
Tactic Notation "past" integer(k) :=
  rewrite <-?app_assoc; do k (rewrite app_assoc).

Lemma record_size_wire a : length (dns_record a) = (12 + length (an_rdata a))%nat.
Proof. unfold dns_record. by rewrite !length_app, !length_be_bytes. Qed.

Lemma record_fields pre a rest :
  wf_answer a →
  let buf := pre ++ dns_record a ++ rest in let o := (length pre + 2)%nat in
  read_u16 buf o = Some (an_type a) ∧ read_u16 buf (o + 2) = Some (an_cls a) ∧
  read_u32 buf (o + 4) = Some (an_ttl a) ∧ read_u16 buf (o + 8) = Some (Z.of_nat (length (an_rdata a))) ∧
  slice buf (o + 10) (length (an_rdata a)) = Some (an_rdata a).
Proof.
  intros (Hty & Hcl & Httl & Hlen) buf o. subst buf o. unfold dns_record.
  split_and!.
  - past 1. apply read_u16_be; [rewrite length_app; simpl; lia|done].
  - past 2. apply read_u16_be; [rewrite !length_app, length_be_bytes; simpl; lia|done].
  - past 3. apply read_u32_be; [rewrite !length_app, !length_be_bytes; simpl; lia|done].
  - past 4. apply read_u16_be; [rewrite !length_app, !length_be_bytes; simpl; lia|split; lia].
  - past 5. match goal with |- slice (?p ++ _ ++ _) ?o _ = _ => replace o with (length p); [apply slice_mid|] end.
    rewrite !length_app, !length_be_bytes. simpl. lia.
Qed.

Lemma parse_record n pre a rest :
  wf_answer a →
  parse_answers (S n) (pre ++ dns_record a ++ rest) (length pre) =
  l ← parse_answers n ((pre ++ dns_record a) ++ rest) (length (pre ++ dns_record a)); Some (a :: l).
Proof.
  intros Hw. cbn [parse_answers]. pose proof (record_size_wire a) as Hsz.
  rewrite (proj2 (Nat.ltb_lt _ _)) by (rewrite !length_app; lia).
  assert (skip_name (pre ++ dns_record a ++ rest) (length pre) = Some (length pre + 2)%nat) as -> by apply skip_name_pointer.
  cbn [mbind option_bind]. rewrite (proj2 (Nat.ltb_ge _ _)) by (rewrite !length_app; lia).
  destruct (record_fields pre a rest Hw) as (-> & -> & -> & -> & Hs). cbn [mbind option_bind].
  rewrite Nat2Z.id, Hs. rewrite (proj2 (Nat.ltb_ge _ _)) by (rewrite !length_app; lia). cbn [mbind option_bind].
  rewrite <-app_assoc, length_app, Hsz.
  replace (length pre + 2 + 10 + length (an_rdata a))%nat with (length pre + (12 + length (an_rdata a)))%nat by lia.
  destruct (parse_answers _ _ _); [|done]. simpl. by destruct a.
Qed.

Lemma parse_records answers pre :
  Forall wf_answer answers →
  parse_answers (length answers) (pre ++ concat (dns_record <$> answers)) (length pre) = Some answers.
Proof.
  intros Hw. revert pre. induction Hw as [|a answers Ha _ IH]; intros pre; [done|].
  rewrite fmap_cons, concat_cons. cbn [length]. rewrite parse_record by done. by rewrite IH.
Qed.

Lemma parse_response id labels answers :
  in_width 16 id → Forall wf_label labels → Forall wf_answer answers → (Z.of_nat (length answers) < 2 ^ 16) →
  parse_dns_response (dns_response id labels answers) id = Some ([], answers).
Proof.
  intros Hid Hl Ha Hn. set (buf := dns_response id labels answers).
  set (hdr := be_bytes 2 id ++ [0x81; 0x80] ++ be_bytes 2 1 ++ be_bytes 2 (Z.of_nat (length answers)) ++ [0; 0; 0; 0]).
  assert (length hdr = 12%nat) as Hh by (unfold hdr; by rewrite !length_app, !length_be_bytes).
  set (tail := concat (dns_record <$> answers)).
  assert (buf = hdr ++ dns_name labels ++ [0; 1; 0; 1] ++ tail) as Hbuf by (unfold buf, dns_response, hdr; by rewrite <-!app_assoc).
  assert (12 + length (dns_name labels) + 4 + length tail = length buf)%nat as Hlen by (rewrite Hbuf, !length_app; simpl; lia).
  unfold parse_dns_response. rewrite (proj2 (Nat.ltb_ge _ _)) by lia.
  assert (read_u16 buf 0 = Some id) as -> by by apply (read_u16_be []).
  cbn [mbind option_bind]. rewrite Z.eqb_refl. cbn [negb].
  assert (buf !! 3%nat = Some 0x80) as -> by done. cbn [mbind option_bind]. change (Z.land 128 15 =? 0) with true. cbn [negb].
  assert (read_u16 buf 4 = Some 1) as -> by done.
  assert (read_u16 buf 6 = Some (Z.of_nat (length answers))) as ->.
  { subst buf. unfold dns_response. past 2. apply read_u16_be; [by rewrite !length_app, !length_be_bytes|split; lia]. }
  cbn [mbind option_bind]. change (Z.to_nat 1) with 1%nat. rewrite Nat2Z.id. cbn [skip_questions].
  rewrite (proj2 (Nat.ltb_lt _ _)) by lia. rewrite Hbuf at 1. rewrite <-Hh, skip_name_encoded by done. cbn [mbind option_bind].
  rewrite Hbuf. past 2.
  replace (length hdr + length (dns_name labels) + 4)%nat with (length ((hdr ++ dns_name labels) ++ [0; 1; 0; 1]))
    by (rewrite !length_app; simpl; lia).
  unfold tail. by rewrite parse_records.
Qed.

(** What a server makes of a query: the identifier and the question are repeated. *)
Definition reply (query : bytes) (answers : list dns_answer) : bytes :=
  take 2 query ++ [0x81; 0x80] ++ be_bytes 2 1 ++ be_bytes 2 (Z.of_nat (length answers)) ++ [0; 0; 0; 0] ++
  drop 12 query ++ concat (dns_record <$> answers).

Lemma query_id_bytes id : in_width 16 id → [wrap 8 (Z.shiftr id 8); wrap 8 (Z.land id 255)] = be_bytes 2 id.
Proof.
  intros Hid. change 255 with (Z.ones 8). rewrite (Z.land_ones id 8) by lia. rewrite Z.shiftr_div_pow2 by lia. unfold wrap.
  rewrite Z.mod_mod by lia. done.
Qed.

Lemma reply_response id labels answers :
  in_width 16 id → Forall wf_label labels →
  reply (build_dns_query (domain_of labels) id) answers = dns_response id labels answers.
Proof.
  intros Hid Hl. unfold reply, build_dns_query, encode_dns_name. rewrite getline_domain, query_id_bytes by done.
  unfold dns_response, dns_name. simpl. by rewrite drop_0, <-!app_assoc.
Qed.

(** C35. Asking and answering round trip.  The query the client builds for a domain
    name, for every 16-bit identifier and every name of well-formed labels joined
    by dots, carries the identifier and the name such that, when a server repeats
    both in a response formed as RFC 1035 says and appends any number of records,
    of any type, class, time to live and data that fit their fields, the client's
    parser accepts the response without a diagnostic and returns exactly these
    records, unchanged and in order. *)
Theorem dns_roundtrip id labels answers :
  in_width 16 id → Forall wf_label labels → Forall wf_answer answers → (Z.of_nat (length answers) < 2 ^ 16) →
  parse_dns_response (reply (build_dns_query (domain_of labels) id) answers) id = Some ([], answers).
Proof. intros Hid Hl Ha Hn. rewrite reply_response by done. by apply parse_response. Qed.

(** The name [example.com], asked for with the example's identifier. *)
Definition example_labels : list bytes := [[101; 120; 97; 109; 112; 108; 101]; [99; 111; 109]].
Definition example_answers : list dns_answer :=
  [mk_answer 5 1 300 [1; 97; 192; 12]; mk_answer 1 1 4000000000 [93; 184; 216; 34]].

Lemma dns_roundtrip_witness :
  parse_dns_response (reply (build_dns_query (domain_of example_labels) 0xABCD) example_answers) 0xABCD =
  Some ([], example_answers).
Proof.
  apply (dns_roundtrip 0xABCD example_labels example_answers).
  - split; [lia|reflexivity].
  - repeat constructor; simpl; try lia; unfold dot; set_solver.
  - repeat constructor; try done; simpl; lia.
  - simpl. lia.
Defined.

Lemma dns_parse_safe_witness :
  let buf := take 40 (reply (build_dns_query (domain_of example_labels) 0xABCD) example_answers) in
  (Forall is_byte buf) ∧
  ∃ diag answers, parse_dns_response buf 0xABCD = Some (diag, answers) ∧
    (diag ≠ [] → answers = []) ∧ Forall (answer_ok buf) answers ∧
    (answers ≠ [] → ∃ n, read_u16 buf 6 = Some n ∧ (length answers ≤ Z.to_nat n)%nat) ∧
    (answers ≠ [] → 12 + total record_size answers ≤ length buf)%nat.
Proof.
  intros buf. assert (Forall is_byte buf) as Hb.
  { apply Forall_forall. intros x Hx. apply list_elem_of_lookup in Hx as [i Hi].
    assert (forallb (λ b, (0 <=? b) && (b <? 256)) buf = true) as Hall by (vm_compute; reflexivity).
    apply forallb_forall with (x := x) in Hall; [unfold is_byte; lia|]. apply list_elem_of_In, list_elem_of_lookup. eauto. }
  split; [exact Hb|]. apply (dns_parse_safe buf 0xABCD Hb).
Defined.

(** A label of 256 characters or more has its length cut: the name then ends early. *)
Lemma encode_long_label : take 1 (encode_dns_name (replicate 256 97)) = [0].
Proof. reflexivity. Qed.
